(* ===== verification/_CoqProject ===== *)
-Q . S2P
Prelude.v
Buffer.v
Types.v
RpcMessages.v
PersistentLog.v
PersistentLogSpec.v
StateMachine.v
KvStore.v
RaftNode.v
RaftNodeFacts.v
RaftCommit.v
RaftHandlers.v
Cluster.v
ClusterTraces.v
RaftInvariant.v
ElectionSafety.v
RaftLogMoves.v
LogMatching.v
RaftActs.v
LeaderCompleteness.v
StateMachineSafety.v
RaftValidity.v
RaftRefinement.v
RaftLifecycle.v
RaftProgress.v
WriteProgress.v
FaultyNetwork.v
Sections.v
RaftSections.v
RaftThreads.v
RaftThreadsSafety.v
ElectionTokens.v
RaftThreadsElection.v
RaftTyped.v
HashRing.v
Wire.v
Sockets.v
PeerTransport.v
PeerServerLoop.v
JobQueue.v
WorkerPool.v
FaultyThreads.v
ShardManager.v
KvServer.v
EventLoop.v
KvServerLoop.v
KvServerThreads.v
Client.v
RaftRaces.v
Text.v
ClientPool.v
Main.v
