(* ===== verification/Prelude.v ===== *)
(** * Keyper: a verification development

    Keyper ([src/keyper-cpp]) is a sharded key-value store in C++: each shard is a
    group of processes that replicate a command log with Raft and apply it to an
    in-memory store; clients find the shard of a key on a consistent-hashing ring.

    ** The parts and where they are modelled

    Paths are below [src/keyper-cpp/src].

    - [util/buffer.h] (the binary writer and reader): [Buffer].  A writer is its
      bytes; a reader is data and position in a state-and-exception monad.
      [parses d s x] says that the decoder [d] reads exactly the bytes [s] as [x]
      and throws on every proper prefix of [s]; the class [Codec] packages an
      encoder and a decoder with that law.
    - [raft/types.h]: [Types]; [raft/rpc_messages.h]: [RpcMessages].  Records with
      the fields of the structs, one encoder and one decoder each, [Codec]
      instances.
    - [raft/persistent_log.h]: [PersistentLog] (the object's fields together with
      the contents of its directory; methods that write are a change of the fields
      followed by a list of file operations; [crashed] gives what a crash during
      such a list can leave) and [PersistentLogSpec] (its theorems).
    - [raft/state_machine.h]: the class [StateMachine]; the laws a state machine
      owes the consensus layer are [StateMachineLaws].  [kv/kv_store.h]:
      [KvStore], an instance of both.
    - [raft/raft_node.h] and [raft/raft_node.cpp]: [RaftNode].  The record has the
      fields of the class; every method is a function from the node (and its
      arguments) to the node, with the calls it makes on the transport as a list of
      [Send] values and the callbacks of those calls as functions of their own.
      [RaftNodeFacts], [RaftCommit] and [RaftHandlers] hold the theorems on single
      methods, [RaftLifecycle] has the timer thread with [start], [stop] and the
      destructor.  The methods release their mutex: [Sections] has programs of critical
      sections with their rely-guarantee judgement, [RaftSections] the methods as
      such programs.
    - [net/transport.h]: [Cluster] runs a group of nodes over the network that the
      interface describes; an [Event] is a round of a timer loop, the delivery,
      loss or duplication of a message, a proposal, a snapshot, a membership
      change or a crash with restart, and [exec] is a function, so a list of events
      is a schedule that can be evaluated.  [ClusterTraces] evaluates some;
      [RaftInvariant] and [ElectionSafety] prove what holds in all of them,
      [RaftLogMoves] and [LogMatching] what holds of the logs, [RaftActs],
      [LeaderCompleteness] and [StateMachineSafety] what holds of committed entries,
      [RaftValidity] where commands come from, [RaftRefinement] that the group is one
      state machine, [RaftProgress] and [WriteProgress] what the group can reach.
      There a method is one step.  [RaftThreads] runs the same group with a thread
      per timer round, handler, callback and client call, which advance by one critical section in
      any order; [RaftThreadsSafety] and [RaftTyped] prove what holds of all
      interleavings, [ElectionTokens] and [RaftThreadsElection] what holds of elections,
      [RaftRaces] evaluates some that break a promise.
    - [net/test_transport.h] (the fault-injecting network of the tests):
      [FaultyNetwork], with the simulation of its runs by runs of [Cluster], and
      [FaultyThreads] for its threads and its destructor.
    - [net/wire.h]: [Wire]; [net/tcp_transport.h] and [server/peer_server.h]:
      [PeerTransport], with the class [Rpc] for what the three calls share;
      [JobQueue] for the workers of the transport, [WorkerPool] for the condition
      variable on which they sleep; [PeerServerLoop] for [start], the accept thread,
      the thread per connection, whose handlers advance by one critical section, and
      [stop].
    - The sockets on which the servers listen: [Sockets], with the system calls
      the sources make on them.
    - [shard/hash_ring.h]: [HashRing]; [shard/shard_manager.h]: [ShardManager].
    - [server/kv_server.h]: [KvServer] (frames and [dispatch]) and [KvServerLoop]
      (accept thread, workers and connections, on [EventLoop] for
      [net/event_loop.h]); a round of a thread is a step, except that the buffer of a
      closed connection is erased in a step of its own, and what [accept],
      [epoll_wait], [recv] and [send] do is the input of the step; [KvServerThreads]
      adds [start], the ends of the loops and [stop], and keeps a worker in its round
      until the round ends.
    - [client/client.h]: [Client] (requests and retries over an arbitrary outcome
      of each attempt) and [ClientPool] (the same with pooled connections, and the
      identities of clients).
    - [server/main.cpp]: [Main], on the [std::string] functions of [Text]: the
      command line, and the node and the two servers with their sockets.
    - This file: machine integers, byte strings, the exception monad [outcome],
      and the lemmas and tactics the others share.

    ** What the theorems show

    The theorems on elections, logs, replication, validity, progress and the test
    network are about runs in which the methods of a node do not overlap: each runs
    from its call to its end as one step, although the code releases the mutex inside
    some of them.  Without that they do not hold: [RaftRaces] has interleavings with
    two leaders of one term and with entries applied out of order.  What holds in
    every interleaving is under Threads.

    - Elections ([ElectionSafety]): in a group with a fixed configuration no two
      nodes ever lead the same term, and a leader has a majority of recorded votes
      behind it, under delay, reordering, loss, crashes and restarts (and
      duplication of everything but vote requests).
    - Logs ([LogMatching]): under the same network, in runs that take no snapshot,
      two logs with an entry of the same term at the same index are equal up to it.
    - Replication ([LeaderCompleteness], [StateMachineSafety], [RaftRefinement]): in
      those runs, as long as no delivered append request cuts a log it agrees with
      ([cutting], a boolean condition on the schedule), a committed entry is in the
      log of every later leader, replicas never disagree on an applied entry, and the
      group refines a specification with one growing sequence of chosen commands of
      which each replica has executed a prefix.  The condition is needed: the code
      cuts such logs, and [lost_commit_cuts] shows the run in which a committed
      command is lost.  [RaftActs] describes every event as a turn of one node, and
      the ghost state of the proofs records the log of each term's leader, the
      acknowledgements given and the votes cast.
    - Validity ([RaftValidity]): in every admissible run, cuts and snapshots included,
      only commands that were proposed are in a log.
    - Life of a node ([RaftLifecycle]): with one owner, [start], [stop] and the
      destructor never overwrite or destroy a running thread; [stop] ends after at
      most two more steps of the timer thread.
    - Progress ([RaftProgress], [WriteProgress]): from every reachable state in which
      a majority runs and does not lead, rounds of one node's timer and deliveries
      elect a leader; and a leader of the current term with a majority that stores its
      log completes a write by the proposal, one round of its timer and deliveries,
      with the answer of the state machine.
    - Threads ([RaftSections], [RaftThreadsSafety], [RaftTyped], [RaftThreadsElection]):
      the runs of [Cluster] are among the interleavings; in every interleaving term and vote
      only move forward, the files of a node determine its persistent state, and every
      message is within the types of its wire format; elections are safe in every
      interleaving in which no node stands for election while one of its threads is
      about to take office (and no vote request is duplicated).
    - The test network ([FaultyNetwork]): whatever its partitions, losses, delays
      and duplications, its states are states of a [Cluster] run, so that without
      duplication elections are safe under it; messages fire in the order of their
      times, a call puts as many on the network as its faults say, and none crosses a
      partition.
    - The log on disk ([PersistentLogSpec]): after any sequence of operations a
      restart reads back the object exactly; single file replacements are atomic
      under crashes; a torn record at the end of the log file is ignored; recovery
      never throws; what [appendAndSync] and [compactUpTo] do to the entries.
    - The node ([RaftCommit], [RaftHandlers]): the commit rule is the majority rule
      with the current-term condition; entries reach the state machine in order and
      once; the exact behaviour of the vote, append and snapshot handlers.
    - The store ([KvStore]): snapshots in any iteration order are read back;
      numbered commands are executed exactly once, however late and however often
      they are repeated.
    - Transport ([PeerTransport], [PeerServerLoop], [JobQueue], [WorkerPool]): a call
      over TCP that is alone on its connection runs the handler once and returns its
      answer however the bytes are cut; a peer server takes the requests of each
      connection in order, runs all sections of each handler once, between those of
      other threads, and writes what it returned, and its [stop] ends; the job
      queue starts calls in order and loses none, a queued call is never left with
      all workers asleep, and the destructor ends.
    - Server and client ([KvServer], [KvServerLoop], [Client], [ClientPool]): the
      server reassembles pipelined requests from any chunks; connections do not
      interfere as long as the number of a closed one is not reused before its buffer
      is erased, each is watched by one loop and answered in order; a readable event
      ends; the loops are given the connections evenly; the epoll and the kqueue loop
      have the same effect; [stop] ends unless a worker's round does not
      ([KvServerThreads]); an attempt of the client over TCP is [dispatch] on its
      payload; a write followed by a read end to end.
    - Sharding ([HashRing], [ShardManager]): adding or removing a shard moves only
      the keys it has to; migration between groups of one node loses nothing.
    - The entry point ([Main]): the documented command line is read back exactly, and
      the process it starts serves the node on the peer port and on the client port.
    - Where the code does not keep a promise, the theorem says what it does
      instead: [ClusterTraces] (a committed command lost, a stale linearizable read,
      replication that has stopped, two leaders under duplicated vote requests),
      [RaftHandlers] (truncation by a stale request, a commit index that goes back,
      a snapshot that rewinds the store, the back-off that uses a term as an
      index), [PersistentLogSpec] (a crash inside compaction, the overlapping
      batch), [KvServer] (the endless loop of the frame arithmetic), [Client] (a
      lost write that is acknowledged, a retry that is executed twice), [RaftRaces]
      (two leaders, entries applied out of order, a snapshot without an applied
      command, a compare-and-set that is answered before it has run),
      [RaftLifecycle] (a second [stop] that does not wait, a [stop] inside [start]),
      [PeerTransport] (an answer that reaches the wrong call), [JobQueue] (calls
      that hang), [KvServerLoop] (a buffer erased by the closing of an older
      connection, a response cut short, a request dropped at a half close),
      [ClientPool] (one identity for two clients), [PeerServerLoop],
      [KvServerThreads] and [Main] (connections that outlive [stop], a port that is
      taken and nobody notices, a [stop] that waits for a worker that never ends),
      [FaultyThreads] (a destructor that waits for ever).

    ** Bounds and fuel

    Loops that are not structural take fuel, and the caller passes a bound that
    suffices: the number of log entries for the apply loop and the conflict search,
    the length of the file for recovery (a record takes a byte), the number of
    bytes for the socket loops (a successful call moves a byte), the length of the
    buffer for the frame loop (a frame removes a byte, unless the arithmetic wraps,
    which is a theorem; [serveLoop] and [connLoop] say when their rounds are used
    up, theorems say that they are not, and [serveLoop_endless] that the loop of the
    code then does not end either).  Integers are natural numbers with the reductions of their
    C++ types written out; theorems state the bounds they need.

    ** What is not modelled

    - A crash in the middle of a critical section of a node in a group: crashes
      inside the file operations are in [PersistentLogSpec], crashes of a group fall
      between sections.  Waits are cut: the state after a wait is arbitrary.
    - Inside a round of a thread of [KvServer] the other threads do not move, apart
      from what [dispatch] waits for and the erasure of buffers; two calls of
      [TcpTransport] on one connection are an example at the end of [PeerTransport]
      only.
    - The operating system beyond what the sources use of it: connected sockets are
      streams of bytes, listening sockets the records of [Sockets]; the clock and the
      random generator are inputs.  Fairness: the theorems on progress of the
      group give a schedule that gets there, those on [stop] and on the destructor
      bound the steps the threads take, whatever else happens in between.
    - The file system loses no completed operation and keeps their order; the code
      does not call [fsync].
    - The tests.

    ** Plan

    Matching of logs and safety of commits in runs with snapshots and membership
    changes, and in interleaved runs; crashes inside the sections of a group. *)
From stdpp Require Import base tactics list gmap numbers strings.
From Stdlib Require Import Ascii NArith Lia.

Local Open Scope N_scope.

(** ** Machine integers

    Unsigned values are [N].  [u8], [u32] and [u64] are the conversions of the
    language (reduction modulo the width); [add64] and [sub64] are the
    wrap-around operations on [uint64_t] and [size_t]. *)
Abbreviation U8 := 256%N.
Abbreviation U32 := 4294967296%N.
Abbreviation U64 := 18446744073709551616%N.

Definition u8 (v : N) : N := v mod U8.
Definition u32 (v : N) : N := v mod U32.
Definition u64 (v : N) : N := v mod U64.
Definition add64 (a b : N) : N := u64 (a + b).
Definition sub64 (a b : N) : N := u64 (a + (U64 - b)).

Lemma add64_small a b : a + b < U64 -> add64 a b = a + b.
Proof. intros; unfold add64, u64; by apply N.mod_small. Qed.

Lemma sub64_small a b : b <= a -> a < U64 -> sub64 a b = a - b.
Proof.
  intros; unfold sub64, u64.
  replace (a + (U64 - b)) with ((a - b) + 1 * U64) by lia.
  rewrite N.Div0.mod_add; apply N.mod_small; lia.
Qed.

Lemma u64_bound v : u64 v < U64.
Proof. apply N.mod_upper_bound; lia. Qed.

Lemma add64_bound a b : add64 a b < U64.
Proof. apply u64_bound. Qed.

Lemma u32_bound v : u32 v < U32.
Proof. apply N.mod_upper_bound; lia. Qed.

Lemma u32_small v : v < U32 -> u32 v = v.
Proof. apply N.mod_small. Qed.

Lemma u64_small v : v < U64 -> u64 v = v.
Proof. apply N.mod_small. Qed.

Lemma u8_small v : v < U8 -> u8 v = v.
Proof. apply N.mod_small. Qed.

(** ** Byte strings

    [std::string] and [std::vector<uint8_t>] are lists of [ascii], whose eight
    bits are the byte; [str] turns a literal into one. *)
Abbreviation bytes := (list ascii).
Definition str (s : string) : bytes := String.list_ascii_of_string s.

(** [size()] as a [size_t]. *)
Definition nlen {A} (l : list A) : N := N.of_nat (length l).

Lemma nlen_app {A} (l k : list A) : nlen (l ++ k) = nlen l + nlen k.
Proof. unfold nlen; rewrite length_app; lia. Qed.

Lemma nlen_nil {A} : nlen (@nil A) = 0.
Proof. done. Qed.

Lemma nlen_cons {A} (x : A) l : nlen (x :: l) = 1 + nlen l.
Proof. unfold nlen; simpl; lia. Qed.

Lemma nlen_snoc {A} (x : A) l : nlen (l ++ [x]) = nlen l + 1.
Proof. by rewrite nlen_app. Qed.

Lemma nlen_half {A} (l : list A) : N.to_nat (nlen l / 2) = (length l / 2)%nat.
Proof. unfold nlen; by rewrite N2Nat.inj_div, Nat2N.id. Qed.

(** ** Exceptions

    A C++ computation that can throw returns an [outcome]; the constructor
    [Throw] carries the exception's message. *)
Inductive outcome (A : Type) : Type :=
| Ok (a : A)
| Throw (msg : string).
Arguments Ok {A} a.
Arguments Throw {A} msg.

#[global] Instance outcome_ret : MRet outcome := fun A a => Ok a.
#[global] Instance outcome_bind : MBind outcome := fun A B f m =>
  match m with Ok a => f a | Throw e => Throw e end.

Lemma outcome_bind_Ok {A B} (f : A -> outcome B) (m : outcome A) b :
  (m ≫= f) = Ok b <-> exists a, m = Ok a /\ f a = Ok b.
Proof. split; [destruct m; simpl; [eauto|done]|intros (a & -> & H); exact H]. Qed.

(** ** Shared list lemmas *)

Lemma bind_Some_inv {A B} (o : option A) (f : A -> option B) y :
  o ≫= f = Some y -> exists x, o = Some x /\ f x = Some y.
Proof. destruct o; [eauto|done]. Qed.

(** A proper prefix of a concatenation stops inside one of the two parts. *)
Lemma proper_prefix_app {A} (p s t : list A) :
  p `prefix_of` s ++ t -> p <> s ++ t ->
  (p `prefix_of` s /\ p <> s) \/ (exists q, p = s ++ q /\ q `prefix_of` t /\ q <> t).
Proof.
  revert p; induction s as [|x s IH]; intros p Hp Hne; simpl in *.
  { right; exists p; naive_solver. }
  destruct p as [|y p]; [left; split; [apply prefix_nil|done]|].
  apply prefix_cons_inv_1 in Hp as Hxy; apply prefix_cons_inv_2 in Hp; subst y.
  destruct (IH p Hp) as [[H1 H2]|(q & -> & H1 & H2)]; [congruence|left|right; eauto].
  split; [by apply prefix_cons|congruence].
Qed.

Lemma drop_app_S {A} (l t : list A) n x :
  drop n l = x :: t -> drop (S n) l = t.
Proof. intros H; replace (S n) with (n + 1)%nat by lia; by rewrite <- drop_drop, H. Qed.

Lemma drop_cons_lookup {A} (l t : list A) n x :
  drop n l = x :: t -> l !! n = Some x.
Proof. intros H. rewrite <- (Nat.add_0_r n), <- lookup_drop, H. done. Qed.

Lemma length_drop_eq {A} (l s : list A) n :
  drop n l = s -> (n <= length l)%nat -> length l = (n + length s)%nat.
Proof. intros <- ?; rewrite length_drop; lia. Qed.

Lemma filter_all {A} (P : A -> Prop) `{forall x, Decision (P x)} (l : list A) :
  (forall x, x ∈ l -> P x) -> filter P l = l.
Proof.
  induction l as [|x l IH]; intros Hl; [done|]; rewrite filter_cons_True by (apply Hl; left).
  f_equal; apply IH; intros y Hy; apply Hl; by right.
Qed.

Lemma filter_none {A} (P : A -> Prop) `{forall x, Decision (P x)} (l : list A) :
  (forall x, x ∈ l -> ~ P x) -> filter P l = [].
Proof.
  induction l as [|x l IH]; intros Hl; [done|]; rewrite filter_cons_False by (apply Hl; left).
  apply IH; intros y Hy; apply Hl; by right.
Qed.

Lemma filter_fmap_length {A B} (f : A -> B) (P : B -> Prop) `{forall x, Decision (P x)} (l : list A) :
  length (filter P (f <$> l)) = length (filter (fun x => P (f x)) l).
Proof.
  induction l as [|x l IH]; [done|]; rewrite fmap_cons, !filter_cons.
  case_decide; simpl; by rewrite IH.
Qed.

(** What a computation that returns leads to, seen through [view]: a state that
    holds functions or maps is not normalised. *)
Lemma replayed {A B} (view : A -> B) (o : option A) b : view <$> o = Some b -> exists a, o = Some a /\ view a = b.
Proof. destruct o as [a|]; [|done]; intros [= <-]; by exists a. Qed.

(** ** Tactics *)

(** Decide a closed proposition by evaluation. *)
Ltac by_decide := apply (bool_decide_unpack _); vm_compute; exact I.
