(* ===== verification/Buffer.v ===== *)
(** * util/buffer.h: the binary [Writer] and [Reader]

    [Writer] is its vector [buf_]; [Reader] keeps the data and the position, and
    its operations are a state-and-exception monad [rd].  The second half gives
    the compositional reading of a decoder: [parses d s x] says that [d] reads
    exactly the bytes [s] as the value [x], and throws on every proper prefix of
    [s].  The class [Codec] packages an [encode]/[decode] pair with that law. *)
From stdpp Require Import base tactics list gmap numbers strings.
From Stdlib Require Import Ascii NArith Lia.
From S2P Require Import Prelude.

Local Open Scope N_scope.

(** ** Writer *)
Abbreviation Writer := (list ascii).

(** [static_cast<uint8_t>((v >> (i * 8)) & 0xFF)] *)
Definition byte_at (v : N) (i : nat) : ascii :=
  ascii_of_N (N.land (N.shiftr v (N.of_nat i * 8)) 255).

Definition putU8 (v : N) (w : Writer) : Writer := w ++ [ascii_of_N (u8 v)].

Definition putU32 (v : N) (w : Writer) : Writer :=
  let v := u32 v in
  fold_left (fun buf i => buf ++ [byte_at v i]) (seq 0 4) w.

Definition putU64 (v : N) (w : Writer) : Writer :=
  let v := u64 v in
  fold_left (fun buf i => buf ++ [byte_at v i]) (seq 0 8) w.

Definition putBool (v : bool) (w : Writer) : Writer := putU8 (if v then 1 else 0) w.

Definition putBytes (s : bytes) (w : Writer) : Writer :=
  putU32 (u32 (nlen s)) w ++ s.

(** ** Reader *)
Record Reader := mkReader { data_ : bytes; pos_ : N }.

(** The constructor from a string. *)
Definition Reader_of (s : bytes) : Reader := mkReader s 0.

Definition len_ (r : Reader) : N := nlen (data_ r).

Definition rd (A : Type) : Type := Reader -> outcome (A * Reader).
#[global] Instance rd_ret : MRet rd := fun A a r => Ok (a, r).
#[global] Instance rd_bind : MBind rd := fun A B f m r =>
  match m r with Ok (a, r') => f a r' | Throw e => Throw e end.

Definition underrun {A} : outcome A := Throw "buffer underrun".

(** [pos_ + n] does not wrap: [n] is at most [2^32] and a string is shorter than
    [2^63]. *)
Definition require (n : N) : rd unit := fun r =>
  if len_ r <? pos_ r + n then underrun else Ok (tt, r).

(** [data_[pos_++]] *)
Definition next : rd ascii := fun r =>
  match data_ r !! N.to_nat (pos_ r) with
  | Some b => Ok (b, mkReader (data_ r) (pos_ r + 1))
  | None => Throw "read past the end"
  end.

Definition getU8 : rd N := _ ← require 1; b ← next; mret (N_of_ascii b).

(** [for (i...) v |= static_cast<uintN_t>(data_[pos_++]) << (i * 8)], [k] rounds
    from round [i] on. *)
Fixpoint or_bytes (k i : nat) (v : N) : rd N :=
  match k with
  | O => mret v
  | S k' => b ← next; or_bytes k' (S i) (N.lor v (N.shiftl (N_of_ascii b) (N.of_nat i * 8)))
  end.

Definition getU32 : rd N := _ ← require 4; or_bytes 4 0 0.

Definition getU64 : rd N := _ ← require 8; or_bytes 8 0 0.

Definition getBool : rd bool := v ← getU8; mret (negb (v =? 0)).

(** [std::string(data_ + pos_, n); pos_ += n] *)
Definition slice (n : N) : rd bytes := fun r =>
  Ok (take (N.to_nat n) (drop (N.to_nat (pos_ r)) (data_ r)),
      mkReader (data_ r) (pos_ r + n)).

Definition getBytes : rd bytes := n ← getU32; _ ← require n; slice n.

Definition eof (r : Reader) : bool := len_ r <=? pos_ r.

Definition remaining (r : Reader) : N := len_ r - pos_ r.

(** A counted loop [for (uint32_t i = 0; i < n; i++) v.push_back(d(r))]. *)
Fixpoint read_n {A} (d : rd A) (n : nat) : rd (list A) :=
  match n with
  | O => mret []
  | S n' => x ← d; xs ← read_n d n'; mret (x :: xs)
  end.

(** ** Closed forms of the writer *)
Definition le_bytes (k : nat) (v : N) : bytes := byte_at v <$> seq 0 k.

Lemma fold_push_app {A B} (f : A -> B) l w :
  fold_left (fun buf i => buf ++ [f i]) l w = w ++ (f <$> l).
Proof.
  revert w; induction l as [|x l IH]; intros w; simpl; [by rewrite app_nil_r|].
  rewrite IH, <- app_assoc; done.
Qed.

Lemma putU32_app v w : putU32 v w = w ++ le_bytes 4 (u32 v).
Proof. apply fold_push_app. Qed.

Lemma putU64_app v w : putU64 v w = w ++ le_bytes 8 (u64 v).
Proof. apply fold_push_app. Qed.

Lemma putBytes_app s w : putBytes s w = w ++ le_bytes 4 (u32 (u32 (nlen s))) ++ s.
Proof. unfold putBytes; by rewrite putU32_app, <- app_assoc. Qed.

Lemma length_le_bytes k v : length (le_bytes k v) = k.
Proof. unfold le_bytes; by rewrite length_fmap, length_seq. Qed.

(** ** Parsing: the specification of decoders *)

(** The unread suffix, and the sanity of the position. *)
Definition rest (r : Reader) : bytes := drop (N.to_nat (pos_ r)) (data_ r).
Definition pos_ok (r : Reader) : Prop := pos_ r <= len_ r.

Record parses {A} (d : rd A) (s : bytes) (x : A) : Prop := {
  parses_all : forall r t, pos_ok r -> rest r = s ++ t ->
    d r = Ok (x, mkReader (data_ r) (pos_ r + nlen s));
  parses_cut : forall r, pos_ok r -> rest r `prefix_of` s -> rest r <> s -> d r = underrun
}.
Arguments parses_all {A d s x}.
Arguments parses_cut {A d s x}.

Lemma rest_length r s : pos_ok r -> rest r = s -> len_ r = pos_ r + nlen s.
Proof.
  unfold rest, pos_ok, len_, nlen; intros Hok H; apply length_drop_eq in H; lia.
Qed.

(** Moving past [s] leaves the suffix. *)
Lemma rest_advance r s t :
  pos_ok r -> rest r = s ++ t ->
  pos_ok (mkReader (data_ r) (pos_ r + nlen s)) /\
  rest (mkReader (data_ r) (pos_ r + nlen s)) = t.
Proof.
  intros Hok H. pose proof (rest_length _ _ Hok H) as Hl.
  unfold pos_ok, rest, len_ in *; simpl. rewrite nlen_app in Hl. split; [lia|].
  unfold nlen; replace (N.to_nat (pos_ r + N.of_nat (length s)))
    with (N.to_nat (pos_ r) + length s)%nat by lia.
  by rewrite <- drop_drop, H, drop_app_length.
Qed.

Lemma parses_ret {A} (x : A) : parses (mret x) [] x.
Proof.
  split.
  - intros [d p] t _ _; unfold mret, rd_ret; simpl; do 3 f_equal; unfold nlen; simpl; lia.
  - intros r _ Hp Hne; destruct Hne; by apply prefix_nil_inv.
Qed.

Lemma parses_bind {A B} (d : rd A) (f : A -> rd B) s s' x y :
  parses d s x -> parses (f x) s' y -> parses (d ≫= f) (s ++ s') y.
Proof.
  intros H1 H2; split.
  - intros r t Hok Hr; rewrite <- app_assoc in Hr.
    unfold mbind, rd_bind; rewrite (parses_all H1 r _ Hok Hr).
    destruct (rest_advance _ _ _ Hok Hr) as [Hok' Hr'].
    rewrite (parses_all H2 _ _ Hok' Hr'); simpl.
    rewrite nlen_app; do 3 f_equal; lia.
  - intros r Hok Hp Hne; unfold mbind, rd_bind.
    apply proper_prefix_app in Hp as [[Hp Hn]|(q & Hq & Hp & Hn)]; [| |done].
    + by rewrite (parses_cut H1 r Hok Hp Hn).
    + rewrite (parses_all H1 r _ Hok Hq).
      destruct (rest_advance _ _ _ Hok Hq) as [Hok' Hr'].
      apply (parses_cut H2); [done|by rewrite Hr'..].
Qed.

Lemma parses_eq {A} (d : rd A) s s' x x' :
  parses d s x -> s = s' -> x = x' -> parses d s' x'.
Proof. by intros ? <- <-. Qed.

Lemma parses_last {A B} (d : rd A) (f : A -> B) s x :
  parses d s x -> parses (y ← d; mret (f y)) s (f x).
Proof.
  intros H; eapply parses_eq; [eapply parses_bind, parses_ret; exact H|apply app_nil_r|done].
Qed.

(** ** Bytes of an integer *)
Lemma N_of_byte_at v i : N_of_ascii (byte_at v i) = N.land (N.shiftr v (N.of_nat i * 8)) 255.
Proof.
  unfold byte_at; apply N_ascii_embedding.
  change 255 with (N.ones 8); rewrite N.land_ones; apply N.mod_upper_bound; lia.
Qed.

Lemma low_bits_step v i :
  N.lor (v mod 2 ^ (N.of_nat i * 8))
        (N.shiftl (N.land (N.shiftr v (N.of_nat i * 8)) 255) (N.of_nat i * 8))
  = v mod 2 ^ (N.of_nat (S i) * 8).
Proof.
  rewrite <- !N.land_ones; change 255 with (N.ones 8).
  apply N.bits_inj; intros n; rewrite N.lor_spec, !N.land_spec.
  destruct (N.ltb_spec n (N.of_nat i * 8)).
  - rewrite N.shiftl_spec_low, !N.ones_spec_low by lia; by rewrite orb_false_r.
  - rewrite N.shiftl_spec_high', N.land_spec, N.shiftr_spec by lia.
    rewrite (N.ones_spec_high (N.of_nat i * 8)), andb_false_r by lia.
    replace (n - N.of_nat i * 8 + N.of_nat i * 8) with n by lia; rewrite orb_false_l.
    destruct (N.ltb_spec n (N.of_nat (S i) * 8));
      [rewrite !N.ones_spec_low by lia|rewrite !N.ones_spec_high by lia]; done.
Qed.

Lemma next_ok r b t : rest r = b :: t -> next r = Ok (b, mkReader (data_ r) (pos_ r + 1)).
Proof. unfold rest, next; intros H; by rewrite (drop_cons_lookup _ _ _ _ H). Qed.

Lemma or_bytes_ok v k i r t :
  pos_ok r -> rest r = (byte_at v <$> seq i k) ++ t ->
  or_bytes k i (v mod 2 ^ (N.of_nat i * 8)) r
  = Ok (v mod 2 ^ (N.of_nat (i + k) * 8), mkReader (data_ r) (pos_ r + N.of_nat k)).
Proof.
  revert i r; induction k as [|k IH]; intros i r Hok Hr.
  { destruct r; simpl; unfold mret, rd_ret; rewrite Nat.add_0_r, N.add_0_r; done. }
  simpl in Hr; simpl or_bytes; unfold mbind, rd_bind; rewrite (next_ok _ _ _ Hr).
  rewrite N_of_byte_at, low_bits_step.
  destruct (rest_advance r [byte_at v i] _ Hok Hr) as [Hok' Hr'].
  change (nlen [byte_at v i]) with 1 in *.
  rewrite (IH _ _ Hok' Hr'); simpl data_; simpl pos_; do 3 f_equal; [f_equal; lia|lia].
Qed.

Lemma require_ok r n t s : pos_ok r -> rest r = s ++ t -> n = nlen s -> require n r = Ok (tt, r).
Proof.
  intros Hok Hr ->; unfold require; rewrite (rest_length _ _ Hok Hr), nlen_app.
  case (N.ltb_spec _ _); [lia|done].
Qed.

Lemma require_cut r s n :
  pos_ok r -> rest r `prefix_of` s -> rest r <> s -> nlen s <= n -> require n r = underrun.
Proof.
  intros Hok Hp Hne Hn; unfold require; rewrite (rest_length _ _ Hok eq_refl).
  assert (nlen (rest r) < nlen s).
  { destruct Hp as [k Hk]; destruct k as [|c k].
    - rewrite app_nil_r in Hk; by destruct Hne.
    - rewrite Hk, nlen_app, nlen_cons; lia. }
  case (N.ltb_spec _ _); [done|lia].
Qed.

Lemma parses_le k v :
  v < 2 ^ (N.of_nat k * 8) ->
  parses (_ ← require (N.of_nat k); or_bytes k 0 0) (le_bytes k v) v.
Proof.
  intros Hv; assert (nlen (le_bytes k v) = N.of_nat k) as Hl
    by (unfold nlen; by rewrite length_le_bytes).
  split.
  - intros r t Hok Hr; unfold mbind, rd_bind.
    rewrite (require_ok _ _ _ _ Hok Hr) by done.
    pose proof (or_bytes_ok v k 0 r t Hok Hr) as H; simpl in H.
    rewrite N.mod_1_r, (N.mod_small v) in H by done; by rewrite H, Hl.
  - intros r Hok Hp Hne; unfold mbind, rd_bind.
    by rewrite (require_cut r _ (N.of_nat k) Hok Hp Hne) by (rewrite Hl; lia).
Qed.

Lemma parses_U32 v : v < U32 -> parses getU32 (le_bytes 4 (u32 v)) v.
Proof. intros H; rewrite u32_small by done; by apply (parses_le 4). Qed.

Lemma parses_U64 v : v < U64 -> parses getU64 (le_bytes 8 (u64 v)) v.
Proof. intros H; rewrite u64_small by done; by apply (parses_le 8). Qed.

Lemma parses_U8 v : v < U8 -> parses getU8 [ascii_of_N (u8 v)] v.
Proof.
  intros Hv; rewrite u8_small by done; split.
  - intros r t Hok Hr; unfold getU8, mbind, rd_bind.
    rewrite (require_ok _ _ _ _ Hok Hr), (next_ok _ _ _ Hr) by done.
    unfold mret, rd_ret; by rewrite N_ascii_embedding.
  - intros r Hok Hp Hne; unfold getU8, mbind, rd_bind.
    by rewrite (require_cut r _ 1 Hok Hp Hne).
Qed.

Lemma parses_Bool (b : bool) : parses getBool [ascii_of_N (u8 (if b then 1 else 0))] b.
Proof.
  eapply parses_eq; [apply (parses_last getU8 (fun v => negb (v =? 0))), (parses_U8 (if b then 1 else 0))|done|];
    by destruct b.
Qed.

Lemma parses_slice s : parses (_ ← require (nlen s); slice (nlen s)) s s.
Proof.
  split.
  - intros r t Hok Hr; unfold mbind, rd_bind; rewrite (require_ok _ _ _ _ Hok Hr) by done.
    unfold slice; do 3 f_equal; fold (rest r); rewrite Hr; unfold nlen.
    by rewrite Nat2N.id, take_app_length.
  - intros r Hok Hp Hne; unfold mbind, rd_bind; by rewrite (require_cut r _ _ Hok Hp Hne).
Qed.

Lemma parses_Bytes s : nlen s < U32 -> parses getBytes (le_bytes 4 (u32 (u32 (nlen s))) ++ s) s.
Proof.
  intros Hs; rewrite (u32_small (nlen s)) by done.
  by apply parses_bind with (x := nlen s); [apply parses_U32|apply parses_slice].
Qed.

(** ** Codecs *)
Class Codec (A : Type) := {
  encode : A -> Writer -> Writer;
  decode : rd A;
  valid : A -> Prop;
  encode_app : forall x w, encode x w = w ++ encode x [];
  decode_encode : forall x, valid x -> parses decode (encode x []) x
}.

Lemma parses_read_n {A} (d : rd A) (f : A -> bytes) l :
  Forall (fun x => parses d (f x) x) l -> parses (read_n d (length l)) (concat (f <$> l)) l.
Proof.
  induction 1 as [|x l Hx Hl IH]; simpl; [apply parses_ret|].
  eapply parses_bind; [exact Hx|]; by apply (parses_last _ (cons x)).
Qed.

(** The readable form of [parses] for a whole buffer: the decoder returns the
    value and consumes the whole buffer, and throws on any shorter one. *)
Lemma parses_whole {A} (d : rd A) s x :
  parses d s x ->
  d (Reader_of s) = Ok (x, mkReader s (nlen s)) /\
  (forall p, p `prefix_of` s -> p <> s -> d (Reader_of p) = underrun).
Proof.
  intros H; assert (forall p, pos_ok (Reader_of p)) as Hok
    by (intros p; unfold pos_ok, Reader_of; simpl; lia).
  split; [|intros p Hp Hne; by apply (parses_cut H); [apply Hok|..]].
  rewrite (parses_all H _ [] (Hok s)); [done|by rewrite app_nil_r].
Qed.

Lemma codec_decode {A} `{Codec A} (x : A) :
  valid x -> decode (Reader_of (encode x [])) = Ok (x, mkReader (encode x []) (nlen (encode x []))).
Proof. intros Hv; apply (parses_whole _ _ _ (decode_encode x Hv)). Qed.

(** ** Automation for decoders made of a sequence of fields

    [flatten_writer] turns a nest of [put] operations into appended bytes;
    [solve_parses] walks the decoder field by field, and leaves the width
    conditions of the fields when [lia] does not prove them. *)
Lemma putU8_app v w : putU8 v w = w ++ [ascii_of_N (u8 v)].
Proof. done. Qed.

Lemma putBool_app b w : putBool b w = w ++ [ascii_of_N (u8 (if b : bool then 1 else 0))].
Proof. done. Qed.

Create Rewrite HintDb writer.
#[export] Hint Rewrite putU8_app putBool_app putU32_app putU64_app putBytes_app : writer.
(** Width conditions of fields that are not plain hypotheses. *)
Create HintDb codec.

Ltac flatten_writer :=
  autorewrite with writer; rewrite <- ?app_assoc; rewrite ?app_nil_l, ?app_nil_r.

Ltac parse_field :=
  first [ eapply parses_U8 | eapply parses_U32 | eapply parses_U64
        | eapply parses_Bool | eapply parses_Bytes ].

Ltac solve_parses :=
  unshelve
    (eapply parses_eq;
     [ repeat first [ eapply parses_last; parse_field; shelve
                    | eapply parses_bind; [parse_field; shelve|] ]
     | symmetry; etransitivity; [flatten_writer; reflexivity|reflexivity]
     | simpl; rewrite ?u32_small by lia; reflexivity ]);
  simpl in *; try solve [lia | eauto with codec].
