(* ===== verification/Types.v ===== *)
(** * raft/types.h: log entries, cluster configurations and commands *)
From stdpp Require Import base tactics list gmap numbers strings.
From Stdlib Require Import Ascii NArith Lia.
From S2P Require Import Prelude.
From S2P Require Import Buffer.

Local Open Scope N_scope.

(** [NodeId] is [uint32_t], [Term] and [LogIndex] are [uint64_t]. *)
Abbreviation NodeId := N.
Abbreviation Term := N.
Abbreviation LogIndex := N.

(** ** Log entries

    An [enum class] with underlying type [uint8_t] can hold any of the 256
    values, and [decode] casts whatever byte it reads: the values without an
    enumerator are [EntryTypeOther]. *)
Inductive EntryType : Type := Command | Config | NoOp | EntryTypeOther (v : N).

#[global] Instance EntryType_eq_dec : EqDecision EntryType.
Proof. solve_decision. Defined.

Definition EntryType_to_u8 (t : EntryType) : N :=
  match t with Command => 0 | Config => 1 | NoOp => 2 | EntryTypeOther v => v end.

Definition EntryType_of_u8 (v : N) : EntryType :=
  match v with 0 => Command | 1 => Config | 2 => NoOp | _ => EntryTypeOther v end.

Record LogEntry := mkLogEntry {
  e_term : Term;
  e_index : LogIndex;
  e_type : EntryType;
  e_data : bytes
}.

#[global] Instance LogEntry_eq_dec : EqDecision LogEntry.
Proof. solve_decision. Defined.

Definition LogEntry_encode (e : LogEntry) (w : Writer) : Writer :=
  let w := putU64 (e_term e) w in
  let w := putU64 (e_index e) w in
  let w := putU8 (EntryType_to_u8 (e_type e)) w in
  putBytes (e_data e) w.

Definition LogEntry_decode : rd LogEntry :=
  term ← getU64;
  index ← getU64;
  ty ← getU8;
  data ← getBytes;
  mret (mkLogEntry term index (EntryType_of_u8 ty) data).

(** The values a C++ object of these types can hold (with data the 32-bit
    length prefix can describe). *)
Definition EntryType_valid (t : EntryType) : Prop :=
  match t with EntryTypeOther v => 3 <= v < U8 | _ => True end.

Definition LogEntry_valid (e : LogEntry) : Prop :=
  e_term e < U64 /\ e_index e < U64 /\ EntryType_valid (e_type e) /\ nlen (e_data e) < U32.

(** ** Cluster configurations *)
Record ClusterConfig := mkClusterConfig {
  voters : list NodeId;
  addresses : list (NodeId * bytes)
}.

#[global] Instance ClusterConfig_eq_dec : EqDecision ClusterConfig.
Proof. solve_decision. Defined.

Definition ClusterConfig_encode (c : ClusterConfig) (w : Writer) : Writer :=
  let w := putU32 (u32 (nlen (voters c))) w in
  let w := fold_left (fun w v => putU64 v w) (voters c) w in
  let w := putU32 (u32 (nlen (addresses c))) w in
  fold_left (fun w p => putBytes p.2 (putU64 p.1 w)) (addresses c) w.

Definition decode_voter : rd NodeId := v ← getU64; mret (u32 v).

Definition decode_address : rd (NodeId * bytes) :=
  id ← getU64; addr ← getBytes; mret (u32 id, addr).

Definition ClusterConfig_decode : rd ClusterConfig :=
  n ← getU32;
  vs ← read_n decode_voter (N.to_nat n);
  m ← getU32;
  ads ← read_n decode_address (N.to_nat m);
  mret (mkClusterConfig vs ads).

Definition hasVoter (c : ClusterConfig) (id : NodeId) : bool :=
  existsb (fun v => v =? id) (voters c).

Definition ClusterConfig_valid (c : ClusterConfig) : Prop :=
  nlen (voters c) < U32 /\ Forall (fun v => v < U32) (voters c) /\
  nlen (addresses c) < U32 /\ Forall (fun p => p.1 < U32 /\ nlen p.2 < U32) (addresses c).

(** ** Commands of the key-value state machine *)
Inductive CmdOp : Type := Put | Del | Cas | CmdOpOther (v : N).

Definition CmdOp_to_u8 (o : CmdOp) : N :=
  match o with Put => 0 | Del => 1 | Cas => 2 | CmdOpOther v => v end.

Definition CmdOp_of_u8 (v : N) : CmdOp :=
  match v with 0 => Put | 1 => Del | 2 => Cas | _ => CmdOpOther v end.

Record KvCommand := mkKvCommand {
  c_op : CmdOp;
  c_key : bytes;
  c_value : bytes;
  c_expect : bytes;
  c_clientId : N;
  c_requestSeq : N
}.

Definition KvCommand_encode (c : KvCommand) : bytes :=
  let w := putU8 (CmdOp_to_u8 (c_op c)) [] in
  let w := putBytes (c_key c) w in
  let w := putBytes (c_value c) w in
  let w := putBytes (c_expect c) w in
  let w := putU64 (c_clientId c) w in
  putU64 (c_requestSeq c) w.

Definition KvCommand_read : rd KvCommand :=
  op ← getU8;
  key ← getBytes;
  value ← getBytes;
  expect ← getBytes;
  clientId ← getU64;
  requestSeq ← getU64;
  mret (mkKvCommand (CmdOp_of_u8 op) key value expect clientId requestSeq).

Definition KvCommand_decode (s : bytes) : outcome KvCommand :=
  p ← KvCommand_read (Reader_of s); mret p.1.

Definition CmdOp_valid (o : CmdOp) : Prop :=
  match o with CmdOpOther v => 3 <= v < U8 | _ => True end.

Definition KvCommand_valid (c : KvCommand) : Prop :=
  CmdOp_valid (c_op c) /\ nlen (c_key c) < U32 /\ nlen (c_value c) < U32 /\
  nlen (c_expect c) < U32 /\ c_clientId c < U64 /\ c_requestSeq c < U64.

(** ** Round trips *)
Lemma EntryType_of_to t : EntryType_valid t -> EntryType_of_u8 (EntryType_to_u8 t) = t.
Proof. destruct t as [| | |[|[[]|[]|]]]; simpl; intros; try done; lia. Qed.

Lemma EntryType_to_bound t : EntryType_valid t -> EntryType_to_u8 t < U8.
Proof. destruct t; simpl; lia. Qed.

Lemma CmdOp_of_to t : CmdOp_valid t -> CmdOp_of_u8 (CmdOp_to_u8 t) = t.
Proof. destruct t as [| | |[|[[]|[]|]]]; simpl; intros; try done; lia. Qed.

Lemma CmdOp_to_bound t : CmdOp_valid t -> CmdOp_to_u8 t < U8.
Proof. destruct t; simpl; lia. Qed.

#[export] Hint Resolve EntryType_to_bound CmdOp_to_bound : codec.

Lemma LogEntry_parses e : LogEntry_valid e -> parses LogEntry_decode (LogEntry_encode e []) e.
Proof.
  destruct e as [t i ty d]; intros (Ht & Hi & Hty & Hd); simpl in *.
  rewrite <- (EntryType_of_to ty Hty) at 2.
  unfold LogEntry_decode, LogEntry_encode; simpl; solve_parses.
Qed.

Lemma LogEntry_encode_app e w : LogEntry_encode e w = w ++ LogEntry_encode e [].
Proof. unfold LogEntry_encode; by flatten_writer. Qed.

#[global] Instance LogEntry_codec : Codec LogEntry := {|
  encode := LogEntry_encode; decode := LogEntry_decode; valid := LogEntry_valid;
  encode_app := LogEntry_encode_app; decode_encode := LogEntry_parses |}.

Lemma fold_encode_app {A} (f : A -> Writer -> Writer) l w :
  (forall x w, f x w = w ++ f x []) ->
  fold_left (fun w x => f x w) l w = w ++ concat ((fun x => f x []) <$> l).
Proof.
  intros Hf; revert w; induction l as [|x l IH]; intros w; simpl; [by rewrite app_nil_r|].
  rewrite IH, (Hf x w), <- app_assoc; done.
Qed.

Lemma parses_counted {A} (d : rd A) (f : A -> bytes) l :
  nlen l < U32 -> Forall (fun x => parses d (f x) x) l ->
  parses (n ← getU32; read_n d (N.to_nat n)) (le_bytes 4 (u32 (u32 (nlen l))) ++ concat (f <$> l)) l.
Proof.
  intros Hl H; rewrite (u32_small (nlen l)) by done.
  eapply parses_bind; [by apply parses_U32|].
  unfold nlen; rewrite Nat2N.id; by apply parses_read_n.
Qed.

Lemma decode_voter_parses v : v < U32 -> parses decode_voter (putU64 v []) v.
Proof. intros H; unfold decode_voter; assert (v < U64) by lia; solve_parses. Qed.

Lemma decode_address_parses p :
  p.1 < U32 -> nlen p.2 < U32 -> parses decode_address (putBytes p.2 (putU64 p.1 [])) p.
Proof.
  destruct p as [id ad]; simpl; intros H H2; unfold decode_address.
  assert (id < U64) by lia; solve_parses.
Qed.

(** Reassociation of a counted loop with what follows it. *)
Lemma parses_bind_assoc {A B C} (m : rd A) (k : A -> rd B) (f : B -> rd C) s x :
  parses ((m ≫= k) ≫= f) s x -> parses (m ≫= (fun a => k a ≫= f)) s x.
Proof.
  assert (forall r, ((m ≫= k) ≫= f) r = (m ≫= (fun a => k a ≫= f)) r) as E.
  { intros r; unfold mbind, rd_bind; by destruct (m r) as [[]|]. }
  intros [H1 H2]; split; intros; rewrite <- E; eauto.
Qed.

Lemma ClusterConfig_encode_app c w :
  ClusterConfig_encode c w = w ++ ClusterConfig_encode c [].
Proof.
  assert (forall (p : N * bytes) w, putBytes p.2 (putU64 p.1 w) = w ++ putBytes p.2 (putU64 p.1 []))
    by (intros; by flatten_writer).
  unfold ClusterConfig_encode.
  rewrite !(fold_encode_app putU64), !(fold_encode_app (fun p w => putBytes p.2 (putU64 p.1 w)))
    by (auto; intros; by flatten_writer).
  by flatten_writer.
Qed.

Lemma ClusterConfig_parses c :
  ClusterConfig_valid c -> parses ClusterConfig_decode (ClusterConfig_encode c []) c.
Proof.
  destruct c as [vs ads]; intros (Hn & Hv & Hm & Ha); simpl in *.
  eapply parses_eq with (s := (le_bytes 4 (u32 (u32 (nlen vs))) ++ concat ((fun v => putU64 v []) <$> vs)) ++
    (le_bytes 4 (u32 (u32 (nlen ads))) ++ concat ((fun p => putBytes p.2 (putU64 p.1 [])) <$> ads)) ++ []); [| |done].
  - unfold ClusterConfig_decode; apply parses_bind_assoc; eapply parses_bind.
    { apply parses_counted; [done|]. eapply Forall_impl; [exact Hv|apply decode_voter_parses]. }
    apply parses_bind_assoc; eapply parses_bind; [|apply parses_ret].
    apply parses_counted; [done|]. eapply Forall_impl; [exact Ha|].
    intros p []; by apply decode_address_parses.
  - unfold ClusterConfig_encode.
    rewrite !(fold_encode_app putU64), !(fold_encode_app (fun p w => putBytes p.2 (putU64 p.1 w)))
      by (intros; by flatten_writer).
    by flatten_writer.
Qed.

#[global] Instance ClusterConfig_codec : Codec ClusterConfig := {|
  encode := ClusterConfig_encode; decode := ClusterConfig_decode; valid := ClusterConfig_valid;
  encode_app := ClusterConfig_encode_app; decode_encode := ClusterConfig_parses |}.

Lemma KvCommand_parses c : KvCommand_valid c -> parses KvCommand_read (KvCommand_encode c) c.
Proof.
  destruct c as [op k v x cid sq]; intros (Ho & Hk & Hv & Hx & Hc & Hs); simpl in *.
  rewrite <- (CmdOp_of_to op Ho) at 2.
  unfold KvCommand_read, KvCommand_encode; simpl; solve_parses.
Qed.

Lemma KvCommand_decode_encode c : KvCommand_valid c -> KvCommand_decode (KvCommand_encode c) = Ok c.
Proof.
  intros H; apply KvCommand_parses, parses_whole in H as [H _].
  unfold KvCommand_decode; by rewrite H.
Qed.

Lemma hasVoter_spec c id : hasVoter c id = true <-> id ∈ voters c.
Proof.
  unfold hasVoter; rewrite existsb_exists; setoid_rewrite N.eqb_eq.
  rewrite list_elem_of_In; naive_solver.
Qed.
