(* ===== verification/RpcMessages.v ===== *)
(** * raft/rpc_messages.h: the payloads of the peer RPCs *)
From stdpp Require Import base tactics list gmap numbers strings.
From Stdlib Require Import Ascii NArith Lia.
From S2P Require Import Prelude.
From S2P Require Import Buffer.
From S2P Require Import Types.

Local Open Scope N_scope.

(** ** RequestVote *)
Record RequestVoteReq := mkRequestVoteReq {
  rv_term : Term;
  rv_candidateId : NodeId;
  rv_lastLogIndex : LogIndex;
  rv_lastLogTerm : Term
}.

Definition RequestVoteReq_encode (m : RequestVoteReq) (w : Writer) : Writer :=
  let w := putU64 (rv_term m) w in
  let w := putU64 (rv_candidateId m) w in
  let w := putU64 (rv_lastLogIndex m) w in
  putU64 (rv_lastLogTerm m) w.

Definition RequestVoteReq_decode : rd RequestVoteReq :=
  term ← getU64; cid ← getU64; li ← getU64; lt ← getU64;
  mret (mkRequestVoteReq term (u32 cid) li lt).

Record RequestVoteResp := mkRequestVoteResp {
  rvr_term : Term;
  rvr_voteGranted : bool
}.

Definition RequestVoteResp_encode (m : RequestVoteResp) (w : Writer) : Writer :=
  let w := putU64 (rvr_term m) w in
  putBool (rvr_voteGranted m) w.

Definition RequestVoteResp_decode : rd RequestVoteResp :=
  t ← getU64; g ← getBool; mret (mkRequestVoteResp t g).

(** ** AppendEntries *)
Record AppendEntriesReq := mkAppendEntriesReq {
  ae_term : Term;
  ae_leaderId : NodeId;
  ae_prevLogIndex : LogIndex;
  ae_prevLogTerm : Term;
  ae_entries : list LogEntry;
  ae_leaderCommit : LogIndex
}.

Definition AppendEntriesReq_encode (m : AppendEntriesReq) (w : Writer) : Writer :=
  let w := putU64 (ae_term m) w in
  let w := putU64 (ae_leaderId m) w in
  let w := putU64 (ae_prevLogIndex m) w in
  let w := putU64 (ae_prevLogTerm m) w in
  let w := putU32 (u32 (nlen (ae_entries m))) w in
  let w := fold_left (fun w e => LogEntry_encode e w) (ae_entries m) w in
  putU64 (ae_leaderCommit m) w.

Definition AppendEntriesReq_decode : rd AppendEntriesReq :=
  term ← getU64; lid ← getU64; pi ← getU64; pt ← getU64;
  n ← getU32;
  es ← read_n LogEntry_decode (N.to_nat n);
  lc ← getU64;
  mret (mkAppendEntriesReq term (u32 lid) pi pt es lc).

(** The fields in the order of the source: aggregate initialisation in the
    handlers depends on it. *)
Record AppendEntriesResp := mkAppendEntriesResp {
  aer_term : Term;
  aer_success : bool;
  aer_matchIndex : LogIndex;
  aer_conflictIndex : LogIndex;
  aer_conflictTerm : Term
}.

Definition AppendEntriesResp_encode (m : AppendEntriesResp) (w : Writer) : Writer :=
  let w := putU64 (aer_term m) w in
  let w := putBool (aer_success m) w in
  let w := putU64 (aer_matchIndex m) w in
  let w := putU64 (aer_conflictIndex m) w in
  putU64 (aer_conflictTerm m) w.

Definition AppendEntriesResp_decode : rd AppendEntriesResp :=
  term ← getU64; success ← getBool; mi ← getU64; ci ← getU64; ct ← getU64;
  mret (mkAppendEntriesResp term success mi ci ct).

(** ** InstallSnapshot *)
Record InstallSnapshotReq := mkInstallSnapshotReq {
  is_term : Term;
  is_leaderId : NodeId;
  is_lastIncludedIndex : LogIndex;
  is_lastIncludedTerm : Term;
  is_data : bytes
}.

Definition InstallSnapshotReq_encode (m : InstallSnapshotReq) (w : Writer) : Writer :=
  let w := putU64 (is_term m) w in
  let w := putU64 (is_leaderId m) w in
  let w := putU64 (is_lastIncludedIndex m) w in
  let w := putU64 (is_lastIncludedTerm m) w in
  putBytes (is_data m) w.

Definition InstallSnapshotReq_decode : rd InstallSnapshotReq :=
  term ← getU64; lid ← getU64; li ← getU64; lt ← getU64; data ← getBytes;
  mret (mkInstallSnapshotReq term (u32 lid) li lt data).

Record InstallSnapshotResp := mkInstallSnapshotResp { isr_term : Term }.

Definition InstallSnapshotResp_encode (m : InstallSnapshotResp) (w : Writer) : Writer :=
  putU64 (isr_term m) w.

Definition InstallSnapshotResp_decode : rd InstallSnapshotResp :=
  t ← getU64; mret (mkInstallSnapshotResp t).

(** ** ReadIndex (declared by the source, sent by no one) *)
Record ReadIndexReq := mkReadIndexReq { ri_requester : NodeId }.

Definition ReadIndexReq_encode (m : ReadIndexReq) (w : Writer) : Writer :=
  putU64 (ri_requester m) w.

Definition ReadIndexReq_decode : rd ReadIndexReq :=
  v ← getU64; mret (mkReadIndexReq (u32 v)).

Record ReadIndexResp := mkReadIndexResp { rir_ok : bool; rir_readIndex : LogIndex }.

Definition ReadIndexResp_encode (m : ReadIndexResp) (w : Writer) : Writer :=
  let w := putBool (rir_ok m) w in
  putU64 (rir_readIndex m) w.

Definition ReadIndexResp_decode : rd ReadIndexResp :=
  ok ← getBool; ri ← getU64; mret (mkReadIndexResp ok ri).

(** ** Validity: every field within its C++ type *)
Definition RequestVoteReq_valid (m : RequestVoteReq) : Prop :=
  rv_term m < U64 /\ rv_candidateId m < U32 /\ rv_lastLogIndex m < U64 /\ rv_lastLogTerm m < U64.

Definition RequestVoteResp_valid (m : RequestVoteResp) : Prop := rvr_term m < U64.

Definition AppendEntriesReq_valid (m : AppendEntriesReq) : Prop :=
  ae_term m < U64 /\ ae_leaderId m < U32 /\ ae_prevLogIndex m < U64 /\ ae_prevLogTerm m < U64 /\
  nlen (ae_entries m) < U32 /\ Forall LogEntry_valid (ae_entries m) /\ ae_leaderCommit m < U64.

Definition AppendEntriesResp_valid (m : AppendEntriesResp) : Prop :=
  aer_term m < U64 /\ aer_matchIndex m < U64 /\ aer_conflictIndex m < U64 /\ aer_conflictTerm m < U64.

Definition InstallSnapshotReq_valid (m : InstallSnapshotReq) : Prop :=
  is_term m < U64 /\ is_leaderId m < U32 /\ is_lastIncludedIndex m < U64 /\
  is_lastIncludedTerm m < U64 /\ nlen (is_data m) < U32.

Definition InstallSnapshotResp_valid (m : InstallSnapshotResp) : Prop := isr_term m < U64.

(** ** Codec instances *)
Ltac solve_encode_app f := intros; unfold f; by flatten_writer.

Lemma RequestVoteReq_parses m :
  RequestVoteReq_valid m -> parses RequestVoteReq_decode (RequestVoteReq_encode m []) m.
Proof.
  destruct m; intros (? & ? & ? & ?); simpl in *.
  unfold RequestVoteReq_decode, RequestVoteReq_encode; simpl; solve_parses.
Qed.

#[global] Instance RequestVoteReq_codec : Codec RequestVoteReq.
Proof.
  refine {| encode := RequestVoteReq_encode; decode := RequestVoteReq_decode;
            valid := RequestVoteReq_valid; decode_encode := RequestVoteReq_parses |}.
  solve_encode_app RequestVoteReq_encode.
Defined.

Lemma RequestVoteResp_parses m :
  RequestVoteResp_valid m -> parses RequestVoteResp_decode (RequestVoteResp_encode m []) m.
Proof.
  destruct m; unfold RequestVoteResp_valid; intros ?; simpl in *.
  unfold RequestVoteResp_decode, RequestVoteResp_encode; simpl; solve_parses.
Qed.

#[global] Instance RequestVoteResp_codec : Codec RequestVoteResp.
Proof.
  refine {| encode := RequestVoteResp_encode; decode := RequestVoteResp_decode;
            valid := RequestVoteResp_valid; decode_encode := RequestVoteResp_parses |}.
  solve_encode_app RequestVoteResp_encode.
Defined.

Lemma AppendEntriesReq_encode_app m w :
  AppendEntriesReq_encode m w = w ++ AppendEntriesReq_encode m [].
Proof.
  unfold AppendEntriesReq_encode.
  rewrite !(fold_encode_app LogEntry_encode) by (intros; apply LogEntry_encode_app).
  by flatten_writer.
Qed.

Lemma AppendEntriesReq_parses m :
  AppendEntriesReq_valid m -> parses AppendEntriesReq_decode (AppendEntriesReq_encode m []) m.
Proof.
  destruct m as [t lid pi pt es lc]; intros (Ht & Hl & Hpi & Hpt & Hn & Hes & Hc); simpl in *.
  assert (lid < U64) by lia.
  unfold AppendEntriesReq_decode, AppendEntriesReq_encode; simpl.
  rewrite !(fold_encode_app LogEntry_encode) by (intros; apply LogEntry_encode_app).
  flatten_writer.
  do 4 (eapply parses_bind; [by apply parses_U64|]).
  rewrite app_assoc; apply parses_bind_assoc; eapply parses_bind.
  - apply parses_counted; [done|]. eapply Forall_impl; [exact Hes|apply LogEntry_parses].
  - rewrite u32_small by done; apply (parses_last getU64); by apply parses_U64.
Qed.

#[global] Instance AppendEntriesReq_codec : Codec AppendEntriesReq := {|
  encode := AppendEntriesReq_encode; decode := AppendEntriesReq_decode;
  valid := AppendEntriesReq_valid; encode_app := AppendEntriesReq_encode_app;
  decode_encode := AppendEntriesReq_parses |}.

Lemma AppendEntriesResp_parses m :
  AppendEntriesResp_valid m -> parses AppendEntriesResp_decode (AppendEntriesResp_encode m []) m.
Proof.
  destruct m; intros (? & ? & ? & ?); simpl in *.
  unfold AppendEntriesResp_decode, AppendEntriesResp_encode; simpl; solve_parses.
Qed.

#[global] Instance AppendEntriesResp_codec : Codec AppendEntriesResp.
Proof.
  refine {| encode := AppendEntriesResp_encode; decode := AppendEntriesResp_decode;
            valid := AppendEntriesResp_valid; decode_encode := AppendEntriesResp_parses |}.
  solve_encode_app AppendEntriesResp_encode.
Defined.

Lemma InstallSnapshotReq_parses m :
  InstallSnapshotReq_valid m -> parses InstallSnapshotReq_decode (InstallSnapshotReq_encode m []) m.
Proof.
  destruct m; intros (? & ? & ? & ? & ?); simpl in *.
  unfold InstallSnapshotReq_decode, InstallSnapshotReq_encode; simpl; solve_parses.
Qed.

#[global] Instance InstallSnapshotReq_codec : Codec InstallSnapshotReq.
Proof.
  refine {| encode := InstallSnapshotReq_encode; decode := InstallSnapshotReq_decode;
            valid := InstallSnapshotReq_valid; decode_encode := InstallSnapshotReq_parses |}.
  solve_encode_app InstallSnapshotReq_encode.
Defined.

Lemma InstallSnapshotResp_parses m :
  InstallSnapshotResp_valid m ->
  parses InstallSnapshotResp_decode (InstallSnapshotResp_encode m []) m.
Proof.
  destruct m; unfold InstallSnapshotResp_valid; intros ?; simpl in *.
  unfold InstallSnapshotResp_decode, InstallSnapshotResp_encode; simpl; solve_parses.
Qed.

#[global] Instance InstallSnapshotResp_codec : Codec InstallSnapshotResp.
Proof.
  refine {| encode := InstallSnapshotResp_encode; decode := InstallSnapshotResp_decode;
            valid := InstallSnapshotResp_valid; decode_encode := InstallSnapshotResp_parses |}.
  solve_encode_app InstallSnapshotResp_encode.
Defined.
