(* ===== verification/PersistentLog.v ===== *)
(** * raft/persistent_log.h: the durable log

    [PersistentLog] is the object's fields together with the contents of its
    directory [dir_].  A method that writes files is a change of the fields
    followed by a list of file-system operations ([fsop]); [crashed] gives the
    directories a crash during such a list can leave.  Completed file operations
    are taken to be durable and ordered. *)
From stdpp Require Import base tactics list gmap numbers strings.
From Stdlib Require Import Ascii NArith Lia.
From S2P Require Import Prelude.
From S2P Require Import Buffer.
From S2P Require Import Types.

Local Open Scope N_scope.

(** ** The directory *)
Abbreviation Dir := (gmap string (list ascii)).

(** [WriteFile] is an [ofstream] opened with [trunc], written, flushed and
    closed; [Rename] is [std::rename]. *)
Inductive fsop : Type :=
| WriteFile (f : string) (b : bytes)
| Rename (a b : string).

Definition run_fsop (d : Dir) (op : fsop) : Dir :=
  match op with
  | WriteFile f b => <[f := b]> d
  | Rename a b => match d !! a with Some x => <[b := x]> (delete a d) | None => d end
  end.

Definition run_fsops (ops : list fsop) (d : Dir) : Dir := fold_left run_fsop ops d.

(** A crash happens between two operations or in the middle of a write, which
    then leaves a prefix of the contents. *)
Inductive crashed : Dir -> list fsop -> Dir -> Prop :=
| crash_now d ops : crashed d ops d
| crash_torn d f b p ops : p `prefix_of` b -> crashed d (WriteFile f b :: ops) (<[f := p]> d)
| crash_later d op ops d' : crashed (run_fsop d op) ops d' -> crashed d (op :: ops) d'.

(** ** The object *)
Record PersistentLog := mkPersistentLog {
  dir_ : Dir;
  currentTerm_ : Term;
  votedFor_ : NodeId;
  snapshotIndex_ : LogIndex;
  snapshotTerm_ : Term;
  entries_ : list LogEntry
}.

Definition with_dir (d : Dir) (l : PersistentLog) : PersistentLog :=
  mkPersistentLog d (currentTerm_ l) (votedFor_ l) (snapshotIndex_ l) (snapshotTerm_ l) (entries_ l).

(** ** Reading *)
Definition lastIndex (l : PersistentLog) : LogIndex :=
  match last (entries_ l) with Some e => e_index e | None => snapshotIndex_ l end.

Definition lastTerm (l : PersistentLog) : Term :=
  match last (entries_ l) with Some e => e_term e | None => snapshotTerm_ l end.

Definition termAt (idx : LogIndex) (l : PersistentLog) : Term :=
  if idx =? snapshotIndex_ l then snapshotTerm_ l
  else if idx <? snapshotIndex_ l then 0
  else
    let off := sub64 (sub64 idx (snapshotIndex_ l)) 1 in
    if nlen (entries_ l) <=? off then 0
    else match entries_ l !! N.to_nat off with Some e => e_term e | None => 0 end.

Definition at_ (idx : LogIndex) (l : PersistentLog) : option LogEntry :=
  if idx <=? snapshotIndex_ l then None
  else
    let off := sub64 (sub64 idx (snapshotIndex_ l)) 1 in
    if nlen (entries_ l) <=? off then None else entries_ l !! N.to_nat off.

(** The loop of [entriesAfter] over the entries from [startOff] on. *)
Fixpoint collect (maxCount : N) (out rest : list LogEntry) : list LogEntry :=
  match rest with
  | [] => out
  | e :: rest' =>
      let out := out ++ [e] in
      if negb (maxCount =? 0) && (maxCount <=? nlen out) then out else collect maxCount out rest'
  end.

Definition entriesAfter (afterIdx : LogIndex) (maxCount : N) (l : PersistentLog) : list LogEntry :=
  if afterIdx <? snapshotIndex_ l then []
  else
    let startOff := sub64 afterIdx (snapshotIndex_ l) in
    if nlen (entries_ l) <=? startOff then []
    else collect maxCount [] (drop (N.to_nat startOff) (entries_ l)).

Definition loadSnapshotBytes (l : PersistentLog) : option bytes :=
  match dir_ l !! "snapshot.bin" with
  | None => None
  | Some data => if nlen data <? 16 then None else Some (drop 16 data)
  end.

(** ** Writing *)
Definition writeHardStateLocked (l : PersistentLog) : list fsop :=
  let w := putU64 (currentTerm_ l) [] in
  let w := putU32 (votedFor_ l) w in
  [ WriteFile "hardstate.tmp" w; Rename "hardstate.tmp" "hardstate" ].

Definition writeSnapshotLocked (snapshotBytes : bytes) (l : PersistentLog) : list fsop :=
  let w := putU64 (snapshotIndex_ l) [] in
  let w := putU64 (snapshotTerm_ l) w in
  [ WriteFile "snapshot.bin.tmp" (w ++ snapshotBytes); Rename "snapshot.bin.tmp" "snapshot.bin" ].

Definition rewriteWalLocked (l : PersistentLog) : list fsop :=
  let out := fold_left (fun out e => out ++ LogEntry_encode e []) (entries_ l) [] in
  [ WriteFile "wal.log.tmp" out; Rename "wal.log.tmp" "wal.log" ].

Definition set_hard_fields (term : Term) (votedFor : NodeId) (l : PersistentLog) : PersistentLog :=
  mkPersistentLog (dir_ l) term votedFor (snapshotIndex_ l) (snapshotTerm_ l) (entries_ l).

Definition setHardState (term : Term) (votedFor : NodeId) (l : PersistentLog) : PersistentLog :=
  let l := set_hard_fields term votedFor l in
  with_dir (run_fsops (writeHardStateLocked l) (dir_ l)) l.

(** The in-memory part of [appendAndSync] for a batch whose first index is
    [firstNew]. *)
Definition append_entries (firstNew : LogIndex) (newEntries : list LogEntry)
    (l : PersistentLog) : PersistentLog :=
  let keepOff := if snapshotIndex_ l <? firstNew
                 then sub64 (sub64 firstNew (snapshotIndex_ l)) 1 else 0 in
  let es := if keepOff <? nlen (entries_ l) then take (N.to_nat keepOff) (entries_ l)
            else entries_ l in
  mkPersistentLog (dir_ l) (currentTerm_ l) (votedFor_ l) (snapshotIndex_ l) (snapshotTerm_ l)
                  (es ++ newEntries).

Definition appendAndSync (newEntries : list LogEntry) (l : PersistentLog) : PersistentLog :=
  match newEntries with
  | [] => l
  | e :: _ =>
      let l := append_entries (e_index e) newEntries l in
      with_dir (run_fsops (rewriteWalLocked l) (dir_ l)) l
  end.

(** The in-memory part of [compactUpTo]. *)
Definition compact_entries (index : LogIndex) (termAtIndex : Term) (l : PersistentLog) : PersistentLog :=
  let dropOff := sub64 index (snapshotIndex_ l) in
  let es := if dropOff <=? nlen (entries_ l) then drop (N.to_nat dropOff) (entries_ l) else [] in
  mkPersistentLog (dir_ l) (currentTerm_ l) (votedFor_ l) index termAtIndex es.

Definition compact_ops (snapshotBytes : bytes) (l : PersistentLog) : list fsop :=
  writeSnapshotLocked snapshotBytes l ++ rewriteWalLocked l.

Definition compactUpTo (index : LogIndex) (termAtIndex : Term) (snapshotBytes : bytes)
    (l : PersistentLog) : PersistentLog :=
  if index <=? snapshotIndex_ l then l
  else
    let l := compact_entries index termAtIndex l in
    with_dir (run_fsops (compact_ops snapshotBytes l) (dir_ l)) l.

(** ** Recovery *)
Definition load_hardstate (d : Dir) : outcome (Term * NodeId) :=
  match d !! "hardstate" with
  | None => Ok (0, 0)
  | Some data =>
      if 12 <=? nlen data then
        p ← (t ← getU64; v ← getU32; mret (t, v)) (Reader_of data); mret p.1
      else Ok (0, 0)
  end.

Definition load_snapshot_header (d : Dir) : outcome (LogIndex * Term) :=
  match d !! "snapshot.bin" with
  | None => Ok (0, 0)
  | Some data =>
      if 16 <=? nlen data then
        p ← (i ← getU64; t ← getU64; mret (i, t)) (Reader_of data); mret p.1
      else Ok (0, 0)
  end.

(** [while (!r.eof()) try { push_back(decode(r)) } catch (...) { break; }].  Every
    record takes at least one byte, so the length of the file bounds the rounds. *)
Fixpoint load_records (fuel : nat) (r : Reader) (es : list LogEntry) : list LogEntry :=
  match fuel with
  | O => es
  | S fuel' =>
      if eof r then es
      else match LogEntry_decode r with
           | Ok (e, r') => load_records fuel' r' (es ++ [e])
           | Throw _ => es
           end
  end.

Definition load_wal (d : Dir) : list LogEntry :=
  match d !! "wal.log" with
  | None => []
  | Some data => load_records (length data) (Reader_of data) []
  end.

(** The constructor of [PersistentLog]. *)
Definition loadFromDisk (d : Dir) : outcome PersistentLog :=
  hs ← load_hardstate d;
  sn ← load_snapshot_header d;
  mret (mkPersistentLog d hs.1 hs.2 sn.1 sn.2 (load_wal d)).

(** ** Well-formedness

    [entries_] holds the consecutive indices after the snapshot; every field is
    within its C++ type. *)
Definition contiguous (base : LogIndex) (es : list LogEntry) : Prop :=
  forall i e, es !! i = Some e -> e_index e = base + 1 + N.of_nat i.

Record pl_wf (l : PersistentLog) : Prop := {
  wf_contig : contiguous (snapshotIndex_ l) (entries_ l);
  wf_bound : snapshotIndex_ l + nlen (entries_ l) < U64
}.

Record pl_valid (l : PersistentLog) : Prop := {
  pv_term : currentTerm_ l < U64;
  pv_voted : votedFor_ l < U32;
  pv_snapIndex : snapshotIndex_ l < U64;
  pv_snapTerm : snapshotTerm_ l < U64;
  pv_entries : Forall LogEntry_valid (entries_ l)
}.

(** The object a restart reads from the directory is the object itself. *)
Definition durable (l : PersistentLog) : Prop := loadFromDisk (dir_ l) = Ok l.

Lemma contiguous_nil b : contiguous b [].
Proof. intros i e H; done. Qed.

Lemma contiguous_take b es n : contiguous b es -> contiguous b (take n es).
Proof. intros H i e Hi; apply lookup_take_Some in Hi as [Hi _]; eauto. Qed.

Lemma contiguous_drop b es n : contiguous b es -> contiguous (b + N.of_nat n) (drop n es).
Proof. intros H i e Hi; rewrite lookup_drop in Hi; rewrite (H _ _ Hi); lia. Qed.

Lemma contiguous_app b es es' :
  contiguous b es -> contiguous (b + nlen es) es' -> contiguous b (es ++ es').
Proof.
  intros H H' i e Hi; apply lookup_app_Some in Hi as [Hi|[Hge Hi]]; [eauto|].
  rewrite (H' _ _ Hi); unfold nlen; lia.
Qed.

Lemma contiguous_cons b e es :
  contiguous b (e :: es) -> e_index e = b + 1 /\ contiguous (b + 1) es.
Proof.
  intros H; split; [rewrite (H 0%nat e eq_refl); lia|].
  intros i e' Hi; rewrite (H (S i) e' Hi); lia.
Qed.

(** ** Reading a well-formed log *)
Lemma lastIndex_wf l : pl_wf l -> lastIndex l = snapshotIndex_ l + nlen (entries_ l).
Proof.
  intros [Hc _]; unfold lastIndex; destruct (last (entries_ l)) as [e|] eqn:E.
  - rewrite last_lookup in E; rewrite (Hc _ _ E).
    apply lookup_lt_Some in E; unfold nlen; lia.
  - apply last_None in E; rewrite E; unfold nlen; simpl; lia.
Qed.

Lemma offset_small idx s : s < idx -> idx < U64 -> sub64 (sub64 idx s) 1 = idx - s - 1.
Proof. intros; rewrite (sub64_small idx s) by lia; apply sub64_small; lia. Qed.

Lemma at_spec idx l :
  idx < U64 ->
  at_ idx l = if decide (snapshotIndex_ l < idx)
              then entries_ l !! N.to_nat (idx - snapshotIndex_ l - 1) else None.
Proof.
  intros Hi; unfold at_; case (N.leb_spec idx (snapshotIndex_ l)); intros Hs;
    case_decide; try lia; [done|].
  rewrite offset_small by done; case (N.leb_spec _ _); [|done].
  unfold nlen; intros Hlen; symmetry; apply lookup_ge_None; lia.
Qed.

Lemma at_index idx l e : pl_wf l -> idx < U64 -> at_ idx l = Some e -> e_index e = idx.
Proof.
  intros [Hc _] Hi; rewrite at_spec by done; case_decide; [|done].
  intros H0; rewrite (Hc _ _ H0); lia.
Qed.

Lemma at_range idx l :
  pl_wf l -> idx < U64 -> is_Some (at_ idx l) <-> snapshotIndex_ l < idx <= lastIndex l.
Proof.
  intros Hwf Hi; rewrite at_spec, lastIndex_wf by done; case_decide.
  - rewrite lookup_lt_is_Some; unfold nlen; lia.
  - split; [by intros []|lia].
Qed.

Lemma termAt_at idx l :
  idx < U64 -> snapshotIndex_ l < idx ->
  termAt idx l = match at_ idx l with Some e => e_term e | None => 0 end.
Proof.
  intros Hi Hs; unfold termAt, at_.
  case (N.eqb_spec idx (snapshotIndex_ l)); [lia|intros _].
  case (N.ltb_spec idx (snapshotIndex_ l)); [lia|intros _].
  case (N.leb_spec idx (snapshotIndex_ l)); [lia|intros _].
  by destruct (_ <=? _).
Qed.

Lemma termAt_snapshot l : termAt (snapshotIndex_ l) l = snapshotTerm_ l.
Proof. unfold termAt; by rewrite N.eqb_refl. Qed.

Lemma collect_take m rest out :
  nlen out < m \/ m = 0 ->
  collect m out rest = out ++ (if m =? 0 then rest else take (N.to_nat (m - nlen out)) rest).
Proof.
  revert out; induction rest as [|e rest IH]; intros out Hm; simpl.
  { by destruct (m =? 0); rewrite ?take_nil, app_nil_r. }
  rewrite nlen_snoc.
  destruct (N.eqb_spec m 0) as [->|Hm0]; simpl.
  { rewrite IH by lia; simpl; by rewrite <- app_assoc. }
  case (N.leb_spec _ _); intros Hle.
  - replace (N.to_nat (m - nlen out)) with 1%nat by lia; simpl; by rewrite take_0.
  - rewrite IH by (rewrite nlen_snoc; lia).
    case (N.eqb_spec m 0); [lia|intros _].
    rewrite nlen_snoc.
    replace (N.to_nat (m - nlen out)) with (S (N.to_nat (m - (nlen out + 1)))) by lia.
    simpl; by rewrite <- app_assoc.
Qed.

Lemma entriesAfter_spec idx m l :
  pl_wf l -> idx < U64 -> snapshotIndex_ l <= idx ->
  entriesAfter idx m l =
    let suffix := drop (N.to_nat (idx - snapshotIndex_ l)) (entries_ l) in
    if m =? 0 then suffix else take (N.to_nat m) suffix.
Proof.
  intros Hwf Hi Hs; unfold entriesAfter.
  case (N.ltb_spec idx (snapshotIndex_ l)); [lia|intros _].
  rewrite sub64_small by lia; case (N.leb_spec _ _); intros Hle.
  - rewrite drop_ge by (unfold nlen in Hle; lia); by rewrite take_nil; destruct (m =? 0).
  - rewrite collect_take by (unfold nlen; simpl; lia); unfold nlen; simpl; by rewrite N.sub_0_r.
Qed.

(** ** Appending *)
Lemma append_entries_eq first new l :
  pl_wf l -> snapshotIndex_ l < first -> first <= lastIndex l + 1 -> first < U64 ->
  append_entries first new l =
  mkPersistentLog (dir_ l) (currentTerm_ l) (votedFor_ l) (snapshotIndex_ l) (snapshotTerm_ l)
    (take (N.to_nat (first - snapshotIndex_ l - 1)) (entries_ l) ++ new).
Proof.
  intros Hwf Hs Hle Hf; unfold append_entries.
  rewrite lastIndex_wf in Hle by done.
  case (N.ltb_spec (snapshotIndex_ l) first); [intros _|lia].
  rewrite offset_small by lia; case (N.ltb_spec _ _); intros Hk; [done|].
  f_equal; f_equal; symmetry; apply take_ge; unfold nlen in *; lia.
Qed.

Lemma append_entries_wf first new l :
  pl_wf l -> snapshotIndex_ l < first -> first <= lastIndex l + 1 ->
  contiguous (first - 1) new -> first + nlen new < U64 ->
  pl_wf (append_entries first new l).
Proof.
  intros Hwf Hs Hle Hc Hb; rewrite append_entries_eq by (done || lia).
  rewrite lastIndex_wf in Hle by done; unfold nlen in *.
  assert (length (take (N.to_nat (first - snapshotIndex_ l - 1)) (entries_ l))
          = N.to_nat (first - snapshotIndex_ l - 1)) as Ht by (rewrite length_take; lia).
  split; simpl.
  - apply contiguous_app; [apply contiguous_take, Hwf|].
    unfold nlen; rewrite Ht; by replace (snapshotIndex_ l + _) with (first - 1) by lia.
  - unfold nlen; rewrite length_app, Ht; lia.
Qed.

Lemma append_entries_at first new l idx :
  pl_wf l -> snapshotIndex_ l < first -> first <= lastIndex l + 1 -> first < U64 -> idx < U64 ->
  at_ idx (append_entries first new l) =
  if decide (idx < first) then at_ idx l else new !! N.to_nat (idx - first).
Proof.
  intros Hwf Hs Hle Hf Hi; rewrite append_entries_eq, !at_spec by done; simpl.
  rewrite lastIndex_wf in Hle by done; unfold nlen in *.
  assert (length (take (N.to_nat (first - snapshotIndex_ l - 1)) (entries_ l))
          = N.to_nat (first - snapshotIndex_ l - 1)) as Ht by (rewrite length_take; lia).
  do 2 case_decide; try done; try lia.
  - rewrite lookup_app_l by lia; apply lookup_take_lt; lia.
  - rewrite lookup_app_r, Ht by lia; f_equal; lia.
Qed.

(** [appendAndSync] changes the fields as [append_entries] does and leaves the
    rest of the object alone. *)
Lemma appendAndSync_fields new l :
  new <> [] -> exists d first,
  head new = Some first /\
  appendAndSync new l = with_dir d (append_entries (e_index first) new l).
Proof. destruct new as [|e new]; [done|]; intros _; simpl; eauto. Qed.

(** ** Compaction *)
Lemma compact_entries_eq index t l :
  snapshotIndex_ l < index -> index < U64 ->
  compact_entries index t l =
  mkPersistentLog (dir_ l) (currentTerm_ l) (votedFor_ l) index t
    (drop (N.to_nat (index - snapshotIndex_ l)) (entries_ l)).
Proof.
  intros Hs Hi; unfold compact_entries; rewrite sub64_small by lia.
  case (N.leb_spec _ _); [done|]; intros H; f_equal.
  symmetry; apply drop_ge; unfold nlen in *; lia.
Qed.

Lemma compact_entries_wf index t l :
  pl_wf l -> snapshotIndex_ l < index -> index < U64 -> pl_wf (compact_entries index t l).
Proof.
  intros [Hc Hb] Hs Hi; rewrite compact_entries_eq by done; split; simpl.
  - replace index with (snapshotIndex_ l + N.of_nat (N.to_nat (index - snapshotIndex_ l))) at 1 by lia.
    by apply contiguous_drop.
  - unfold nlen in *; rewrite length_drop; lia.
Qed.

Lemma compact_entries_at index t l idx :
  snapshotIndex_ l < index -> index < U64 -> idx < U64 ->
  at_ idx (compact_entries index t l) = if decide (idx <= index) then None else at_ idx l.
Proof.
  intros Hs Hi Hx; rewrite compact_entries_eq, !at_spec by done; simpl.
  repeat case_decide; try lia; try done.
  rewrite lookup_drop; f_equal; lia.
Qed.

Lemma at_with_dir idx d l : at_ idx (with_dir d l) = at_ idx l.
Proof. done. Qed.

Lemma wf_with_dir d l : pl_wf l -> pl_wf (with_dir d l).
Proof. intros []; by split. Qed.

(** ** What a restart reads *)
Definition tmp_ops (tmp name : string) (b : bytes) : list fsop :=
  [WriteFile tmp b; Rename tmp name].

Lemma tmp_ops_lookup tmp name b d c :
  tmp <> name -> run_fsops (tmp_ops tmp name b) d !! c =
  if decide (c = name) then Some b else if decide (c = tmp) then None else d !! c.
Proof.
  intros Hne; unfold run_fsops; simpl; rewrite lookup_insert_eq.
  repeat case_decide; subst; by simplify_map_eq.
Qed.

Lemma run_fsops_app ops ops' d : run_fsops (ops ++ ops') d = run_fsops ops' (run_fsops ops d).
Proof. unfold run_fsops; apply fold_left_app. Qed.

Lemma crashed_app ops ops' d d' :
  crashed d (ops ++ ops') d' -> crashed d ops d' \/ crashed (run_fsops ops d) ops' d'.
Proof.
  revert d; induction ops as [|op ops IH]; intros d H; simpl in *; [by right|].
  inversion H; subst; [left; constructor|left; by constructor|].
  edestruct IH as [?|?]; [eassumption|left; by constructor|by right].
Qed.

(** Write-then-rename is atomic: a crash leaves every file but the temporary one
    as it was, or all the work is done. *)
Lemma tmp_ops_crash tmp name b d d' :
  crashed d (tmp_ops tmp name b) d' ->
  (forall c, c <> tmp -> d' !! c = d !! c) \/ d' = run_fsops (tmp_ops tmp name b) d.
Proof.
  intros H; inversion H as [|????? Hp|??? d1 H1]; subst; [by left|left|].
  { intros c Hc; by rewrite lookup_insert_ne. }
  inversion H1 as [| |??? d2 H2]; subst.
  - left; intros c Hc; simpl; by rewrite lookup_insert_ne.
  - right; by inversion H2.
Qed.

Lemma load_hardstate_ext d d' :
  d !! "hardstate" = d' !! "hardstate" -> load_hardstate d = load_hardstate d'.
Proof. unfold load_hardstate; by intros ->. Qed.

Lemma load_snapshot_ext d d' :
  d !! "snapshot.bin" = d' !! "snapshot.bin" -> load_snapshot_header d = load_snapshot_header d'.
Proof. unfold load_snapshot_header; by intros ->. Qed.

Lemma load_wal_ext d d' : d !! "wal.log" = d' !! "wal.log" -> load_wal d = load_wal d'.
Proof. unfold load_wal; by intros ->. Qed.

Lemma durable_iff l :
  durable l <-> load_hardstate (dir_ l) = Ok (currentTerm_ l, votedFor_ l) /\
                load_snapshot_header (dir_ l) = Ok (snapshotIndex_ l, snapshotTerm_ l) /\
                load_wal (dir_ l) = entries_ l.
Proof.
  unfold durable, loadFromDisk; destruct l as [d t v si st es]; simpl; split.
  - destruct (load_hardstate d) as [[]|]; [|done]; simpl.
    destruct (load_snapshot_header d) as [[]|]; [|done]; simpl.
    intros [=]; subst; done.
  - by intros (-> & -> & <-).
Qed.

(** Decoding a known prefix of the data. *)
Lemma parses_prefix {A} (d : rd A) s x t :
  parses d s x -> exists r, d (Reader_of (s ++ t)) = Ok (x, r).
Proof.
  intros H; eexists; apply (parses_all H) with (t := t); [unfold pos_ok; simpl; lia|done].
Qed.

Lemma load_hardstate_written d t v :
  t < U64 -> v < U32 -> d !! "hardstate" = Some (putU32 v (putU64 t [])) ->
  load_hardstate d = Ok (t, v).
Proof.
  intros Ht Hv Hd; unfold load_hardstate; rewrite Hd.
  case (N.leb_spec _ _); [intros _|unfold nlen; flatten_writer; rewrite length_app, !length_le_bytes; done].
  assert (parses (t ← getU64; v ← getU32; mret (t, v)) (putU32 v (putU64 t [])) (t, v)) as H
    by solve_parses.
  destruct (parses_prefix _ _ _ [] H) as [r Hr]; rewrite app_nil_r in Hr; by rewrite Hr.
Qed.

Lemma load_snapshot_written d i t b :
  i < U64 -> t < U64 -> d !! "snapshot.bin" = Some (putU64 t (putU64 i []) ++ b) ->
  load_snapshot_header d = Ok (i, t).
Proof.
  intros Hi Ht Hd; unfold load_snapshot_header; rewrite Hd.
  case (N.leb_spec _ _); [intros _|unfold nlen; flatten_writer; rewrite !length_app, !length_le_bytes; lia].
  assert (parses (i ← getU64; t ← getU64; mret (i, t)) (putU64 t (putU64 i [])) (i, t)) as H
    by solve_parses.
  destruct (parses_prefix _ _ _ b H) as [r Hr]; by rewrite Hr.
Qed.

Lemma LogEntry_encode_length e : (21 <= length (LogEntry_encode e []))%nat.
Proof. unfold LogEntry_encode; flatten_writer; rewrite !length_app, !length_le_bytes; simpl; lia. Qed.

(** The bytes of a sequence of records. *)
Definition wal_bytes (es : list LogEntry) : bytes := concat ((fun e => LogEntry_encode e []) <$> es).

(** A record cut short: a proper prefix of the bytes of some entry. *)
Definition torn_record (t : bytes) : Prop :=
  exists e, LogEntry_valid e /\ t `prefix_of` LogEntry_encode e [] /\ t <> LogEntry_encode e [].

Lemma torn_record_nil : torn_record [].
Proof.
  exists (mkLogEntry 0 0 Command []); split_and!; [by repeat split|apply prefix_nil|done].
Qed.

Lemma load_records_written es t r acc fuel :
  Forall LogEntry_valid es -> torn_record t -> pos_ok r -> rest r = wal_bytes es ++ t ->
  (length (rest r) <= fuel)%nat -> load_records fuel r acc = acc ++ es.
Proof.
  intros Hes (et & Hv & Hp & Hne); revert r acc fuel; induction Hes as [|e es He Hes IH];
    intros r acc fuel Hok Hr Hf; rewrite Hr in Hf.
  - rewrite app_nil_r; destruct fuel as [|fuel]; [done|]; simpl.
    change (rest r = t) in Hr.
    destruct (eof r); [done|]; by rewrite (parses_cut (LogEntry_parses et Hv) r) by (rewrite ?Hr; done).
  - pose proof (LogEntry_encode_length e) as He21.
    change (wal_bytes (e :: es)) with (LogEntry_encode e [] ++ wal_bytes es) in Hr, Hf.
    rewrite <- app_assoc in Hr, Hf; rewrite length_app in Hf.
    destruct fuel as [|fuel]; [lia|]; simpl.
    assert (eof r = false) as ->.
    { unfold eof; rewrite (rest_length _ _ Hok Hr), nlen_app.
      apply N.leb_gt; unfold nlen; lia. }
    rewrite (parses_all (LogEntry_parses e He) r _ Hok Hr).
    destruct (rest_advance _ _ _ Hok Hr) as [Hok' Hr'].
    rewrite (IH _ _ _ Hok' Hr') by (rewrite Hr'; lia); by rewrite <- app_assoc.
Qed.

Lemma load_wal_written d es t :
  Forall LogEntry_valid es -> torn_record t -> d !! "wal.log" = Some (wal_bytes es ++ t) ->
  load_wal d = es.
Proof.
  intros Hes Ht Hd; unfold load_wal; rewrite Hd.
  rewrite (load_records_written es t) by (done || unfold pos_ok; simpl; lia); done.
Qed.

Lemma rewriteWal_ops l : rewriteWalLocked l = tmp_ops "wal.log.tmp" "wal.log" (wal_bytes (entries_ l)).
Proof.
  unfold rewriteWalLocked, tmp_ops, wal_bytes; do 2 f_equal.
  by rewrite (fold_encode_app (fun e w => w ++ LogEntry_encode e [])).
Qed.

Lemma run_compact_ops b l d :
  run_fsops (compact_ops b l) d =
  run_fsops (rewriteWalLocked l)
    (run_fsops (tmp_ops "snapshot.bin.tmp" "snapshot.bin"
                  (putU64 (snapshotTerm_ l) (putU64 (snapshotIndex_ l) []) ++ b)) d).
Proof. apply run_fsops_app. Qed.

Lemma compact_snapshot_file b l d :
  run_fsops (compact_ops b l) d !! "snapshot.bin"
  = Some (putU64 (snapshotTerm_ l) (putU64 (snapshotIndex_ l) []) ++ b).
Proof. by rewrite run_compact_ops, rewriteWal_ops, !tmp_ops_lookup. Qed.

(** ** Each write makes the fields durable *)
Lemma setHardState_durable t v l :
  durable l -> t < U64 -> v < U32 -> durable (setHardState t v l).
Proof.
  rewrite !durable_iff; intros (Hh & Hs & Hw) Ht Hv; split_and!.
  - apply load_hardstate_written; [done..|]; unfold setHardState; simpl.
    apply (tmp_ops_lookup "hardstate.tmp"); done.
  - etransitivity; [|exact Hs]; by apply load_snapshot_ext, (tmp_ops_lookup "hardstate.tmp").
  - etransitivity; [|exact Hw]; by apply load_wal_ext, (tmp_ops_lookup "hardstate.tmp").
Qed.

Lemma wal_durable l :
  load_hardstate (dir_ l) = Ok (currentTerm_ l, votedFor_ l) ->
  load_snapshot_header (dir_ l) = Ok (snapshotIndex_ l, snapshotTerm_ l) ->
  Forall LogEntry_valid (entries_ l) ->
  durable (with_dir (run_fsops (rewriteWalLocked l) (dir_ l)) l).
Proof.
  rewrite durable_iff, rewriteWal_ops; intros Hh Hs Hes; simpl dir_; split_and!; simpl.
  - rewrite <- Hh; by apply load_hardstate_ext, (tmp_ops_lookup "wal.log.tmp").
  - rewrite <- Hs; by apply load_snapshot_ext, (tmp_ops_lookup "wal.log.tmp").
  - apply load_wal_written with (t := []); [done|apply torn_record_nil|].
    rewrite app_nil_r; by apply (tmp_ops_lookup "wal.log.tmp" "wal.log").
Qed.

Lemma append_entries_valid first new l :
  pl_valid l -> Forall LogEntry_valid new -> pl_valid (append_entries first new l).
Proof.
  intros [] Hn; split; simpl; [done..|].
  apply Forall_app; split; [|done]; case (N.ltb_spec _ _); [by intros; apply Forall_take|done].
Qed.

Lemma appendAndSync_durable new l :
  durable l -> pl_valid l -> Forall LogEntry_valid new -> durable (appendAndSync new l).
Proof.
  destruct new as [|e new]; [done|]; rewrite durable_iff; intros (Hh & Hs & _) Hv Hn.
  apply wal_durable; [done..|]; by apply (append_entries_valid (e_index e) (e :: new) l).
Qed.

Lemma compact_entries_valid index t l :
  pl_valid l -> index < U64 -> t < U64 -> pl_valid (compact_entries index t l).
Proof.
  intros []; split; simpl; [done..|]; case (N.leb_spec _ _); [by intros; apply Forall_drop|done].
Qed.

Lemma compactUpTo_durable index t b l :
  durable l -> pl_valid l -> index < U64 -> t < U64 -> durable (compactUpTo index t b l).
Proof.
  intros Hd Hv Hi Ht; unfold compactUpTo; case (N.leb_spec _ _); [done|intros _].
  apply durable_iff in Hd as (Hh & _ & _).
  set (l1 := compact_entries index t l); rewrite run_compact_ops; simpl dir_.
  set (d1 := run_fsops (tmp_ops _ _ _) _).
  apply (wal_durable (with_dir d1 l1)); simpl.
  - rewrite <- Hh; by apply load_hardstate_ext, (tmp_ops_lookup "snapshot.bin.tmp").
  - apply (load_snapshot_written _ _ _ b); [done..|]; by apply (tmp_ops_lookup "snapshot.bin.tmp" "snapshot.bin").
  - by apply (pv_entries _ (compact_entries_valid index t l Hv Hi Ht)).
Qed.

(** What [compactUpTo] leaves, with the bytes a restart would restore. *)
Lemma compactUpTo_facts index t b l :
  pl_wf l -> snapshotIndex_ l < index -> index < U64 ->
  pl_wf (compactUpTo index t b l) /\ snapshotIndex_ (compactUpTo index t b l) = index /\
  loadSnapshotBytes (compactUpTo index t b l) = Some b /\
  forall idx, idx < U64 ->
    at_ idx (compactUpTo index t b l) = if decide (idx <= index) then None else at_ idx l.
Proof.
  intros Hwf Hs Hi; unfold compactUpTo; case (N.leb_spec index (snapshotIndex_ l)); [lia|intros _].
  pose proof (compact_entries_wf index t l Hwf Hs Hi) as Hwf'.
  cbv zeta; split_and!; [by apply wf_with_dir|done| |].
  - unfold loadSnapshotBytes; change (dir_ (with_dir ?d _)) with d.
    rewrite compact_snapshot_file; flatten_writer.
    rewrite !nlen_app; unfold nlen at 1 2; rewrite !length_le_bytes.
    case (N.ltb_spec _ _); [lia|done].
  - intros idx Hx; rewrite at_with_dir; by apply compact_entries_at.
Qed.

(** Appending the next entry. *)
Lemma append_next e l :
  pl_wf l -> lastIndex l + 2 < U64 -> e_index e = lastIndex l + 1 ->
  let l' := appendAndSync [e] l in
  pl_wf l' /\ entries_ l' = entries_ l ++ [e] /\ snapshotIndex_ l' = snapshotIndex_ l /\
  lastIndex l' = lastIndex l + 1 /\ currentTerm_ l' = currentTerm_ l /\
  at_ (lastIndex l + 1) l' = Some e.
Proof.
  intros Hwf Hb He l'; pose proof (lastIndex_wf _ Hwf) as Hli.
  assert (l' = with_dir (dir_ l') (append_entries (e_index e) [e] l)) as E by done.
  rewrite He in E.
  assert (pl_wf l') as Hwf'.
  { rewrite E; apply wf_with_dir, append_entries_wf; [done|lia|lia| |unfold nlen; simpl; lia].
    intros i x Hi; destruct i; simplify_eq/=; lia. }
  assert (entries_ l' = entries_ l ++ [e]) as Hes.
  { rewrite E, append_entries_eq by (done || lia); cbn [entries_ with_dir].
    rewrite take_ge; [done|]; unfold nlen in *; lia. }
  assert (snapshotIndex_ l' = snapshotIndex_ l) as Hsi by done.
  assert (lastIndex l' = lastIndex l + 1) as Hl'.
  { rewrite (lastIndex_wf _ Hwf'), Hes, nlen_snoc, Hsi; lia. }
  split_and!; try done.
  rewrite at_spec by lia; rewrite Hsi, decide_True, Hes by lia.
  replace (N.to_nat _) with (length (entries_ l)) by (unfold nlen in *; lia).
  by rewrite lookup_app_r, Nat.sub_diag.
Qed.
