(* ===== verification/PersistentLogSpec.v ===== *)
(** * What [PersistentLog] promises

    The functional behaviour of the three writing operations on a well-formed
    log, recovery after any sequence of operations, and the effect of a crash in
    the middle of one. *)
From stdpp Require Import base tactics list gmap numbers strings.
From Stdlib Require Import Ascii NArith Lia.
From S2P Require Import Prelude.
From S2P Require Import Buffer.
From S2P Require Import Types.
From S2P Require Import PersistentLog.

Local Open Scope N_scope.

(** ** Sequences of operations *)
Inductive pl_op : Type :=
| OpSetHardState (term : Term) (votedFor : NodeId)
| OpAppend (newEntries : list LogEntry)
| OpCompact (index : LogIndex) (term : Term) (snapshotBytes : bytes).

Definition run_pl_op (l : PersistentLog) (op : pl_op) : PersistentLog :=
  match op with
  | OpSetHardState t v => setHardState t v l
  | OpAppend new => appendAndSync new l
  | OpCompact i t b => compactUpTo i t b l
  end.

Definition run_pl_ops (ops : list pl_op) (l : PersistentLog) : PersistentLog :=
  fold_left run_pl_op ops l.

(** The arguments are values of their C++ types. *)
Definition pl_op_valid (op : pl_op) : Prop :=
  match op with
  | OpSetHardState t v => t < U64 /\ v < U32
  | OpAppend new => Forall LogEntry_valid new
  | OpCompact i t _ => i < U64 /\ t < U64
  end.

(** The object opened on an empty directory. *)
Definition pl_empty : PersistentLog := mkPersistentLog ∅ 0 0 0 0 [].

Lemma pl_empty_durable : durable pl_empty.
Proof. done. Qed.

Lemma pl_empty_valid : pl_valid pl_empty.
Proof. by split. Qed.

Lemma pl_empty_wf : pl_wf pl_empty.
Proof. split; [apply contiguous_nil|done]. Qed.

Lemma run_pl_op_invariant op l :
  durable l -> pl_valid l -> pl_op_valid op -> durable (run_pl_op l op) /\ pl_valid (run_pl_op l op).
Proof.
  intros Hd Hv; destruct op as [t v|new|i t b]; simpl.
  - intros [Ht Hvf]; split; [by apply setHardState_durable|by destruct Hv].
  - intros Hn; split; [by apply appendAndSync_durable|].
    destruct new as [|e new]; [done|]; simpl.
    by destruct (append_entries_valid (e_index e) (e :: new) l Hv Hn).
  - intros [Hi Ht]; split; [by apply compactUpTo_durable|].
    unfold compactUpTo; case (N.leb_spec _ _); [done|intros _].
    by destruct (compact_entries_valid i t l Hv Hi Ht).
Qed.

Lemma run_pl_ops_invariant ops l :
  durable l -> pl_valid l -> Forall pl_op_valid ops ->
  durable (run_pl_ops ops l) /\ pl_valid (run_pl_ops ops l).
Proof.
  intros Hd Hv Hops; revert l Hd Hv; induction Hops as [|op ops Hop _ IH]; intros l Hd Hv; [done|].
  destruct (run_pl_op_invariant op l Hd Hv Hop); by apply IH.
Qed.

(** C8: recovery is exact.  After any sequence of [setHardState], [appendAndSync]
    and [compactUpTo] calls on an object opened on an empty directory, a restart
    that reads the directory gets back the same term, vote, snapshot position
    and entries, without an exception. *)
Theorem recovery_exact (ops : list pl_op) (Hops : Forall pl_op_valid ops) :
  loadFromDisk (dir_ (run_pl_ops ops pl_empty)) = Ok (run_pl_ops ops pl_empty).
Proof. by apply run_pl_ops_invariant; [apply pl_empty_durable|apply pl_empty_valid|]. Qed.

Definition sample_ops : list pl_op :=
  [ OpSetHardState 3 7;
    OpAppend [mkLogEntry 3 1 NoOp []; mkLogEntry 3 2 Command (str "abc")];
    OpCompact 1 3 (str "snap");
    OpAppend [mkLogEntry 4 2 Config (str "x"); mkLogEntry 4 3 Command []] ].

Lemma sample_ops_valid : Forall pl_op_valid sample_ops.
Proof. repeat constructor. Qed.

Lemma recovery_exact_witness :
  loadFromDisk (dir_ (run_pl_ops sample_ops pl_empty)) = Ok (run_pl_ops sample_ops pl_empty) /\
  e_term <$> entries_ (run_pl_ops sample_ops pl_empty) = [4; 4].
Proof. split; [exact (recovery_exact sample_ops sample_ops_valid)|vm_compute; reflexivity]. Defined.

(** ** Functional behaviour *)

(** [appendAndSync] on a well-formed log with a batch of consecutive entries
    that starts after the snapshot and at most one past the end: the log stays
    well-formed, keeps everything before the first new index, holds the batch
    from there on, and ends with the batch (an existing suffix is dropped). *)
Theorem appendAndSync_spec (first : LogEntry) (new : list LogEntry) (l : PersistentLog)
    (Hwf : pl_wf l) (Hsnap : snapshotIndex_ l < e_index first)
    (Hend : e_index first <= lastIndex l + 1)
    (Hc : contiguous (e_index first - 1) (first :: new))
    (Hb : e_index first + nlen (first :: new) < U64) :
  let l' := appendAndSync (first :: new) l in
  pl_wf l' /\ snapshotIndex_ l' = snapshotIndex_ l /\
  lastIndex l' = e_index first + nlen new /\
  forall idx, idx < U64 ->
    at_ idx l' = if decide (idx < e_index first) then at_ idx l
                 else (first :: new) !! N.to_nat (idx - e_index first).
Proof.
  assert (pl_wf (append_entries (e_index first) (first :: new) l)) as Hwf'
    by (apply append_entries_wf; done).
  simpl; split_and!; [by apply wf_with_dir|done| |].
  - change (lastIndex (append_entries (e_index first) (first :: new) l) = e_index first + nlen new).
    rewrite lastIndex_wf, append_entries_eq by (done || lia); simpl.
    rewrite lastIndex_wf in Hend by done; unfold nlen in *.
    rewrite length_app, length_take; simpl; lia.
  - intros idx Hi; rewrite at_with_dir; apply append_entries_at; (done || lia).
Qed.

Definition two_entry_log : PersistentLog :=
  mkPersistentLog ∅ 5 1 2 1 [mkLogEntry 4 3 NoOp []; mkLogEntry 4 4 Command (str "a")].

Lemma two_entry_log_wf : pl_wf two_entry_log.
Proof. split; [intros [|[|i]] e; simpl; intros [=]; subst; done|done]. Qed.

Lemma appendAndSync_spec_witness :
  at_ 3 (appendAndSync [mkLogEntry 5 4 Command (str "b")] two_entry_log) = Some (mkLogEntry 4 3 NoOp []) /\
  lastIndex (appendAndSync [mkLogEntry 5 4 Command (str "b")] two_entry_log) = 4.
Proof.
  destruct (appendAndSync_spec (mkLogEntry 5 4 Command (str "b")) [] two_entry_log) as (_ & _ & Hl & Ha).
  - exact two_entry_log_wf.
  - reflexivity.
  - vm_compute; discriminate.
  - intros [|[|i]] e; simpl; intros [=]; subst; reflexivity.
  - reflexivity.
  - split; [rewrite (Ha 3 eq_refl); reflexivity|rewrite Hl; reflexivity].
Defined.

(** C38: compaction.  [compactUpTo] past the current snapshot of a well-formed log: the log
    stays well-formed, exactly the entries at or before the index disappear, the
    others keep their index, and the snapshot boundary remembers the given term;
    the snapshot bytes are what [loadSnapshotBytes] returns afterwards. *)
Theorem compactUpTo_spec (index : LogIndex) (t : Term) (b : bytes) (l : PersistentLog)
    (Hwf : pl_wf l) (Hs : snapshotIndex_ l < index) (Hi : index < U64) :
  let l' := compactUpTo index t b l in
  pl_wf l' /\ snapshotIndex_ l' = index /\ termAt index l' = t /\
  loadSnapshotBytes l' = Some b /\
  lastIndex l' = N.max index (lastIndex l) /\
  forall idx, idx < U64 -> at_ idx l' = if decide (idx <= index) then None else at_ idx l.
Proof.
  destruct (compactUpTo_facts index t b l Hwf Hs Hi) as (H1 & H2 & H3 & H4).
  cbv zeta; split_and!; [done|done| |done| |done].
  - rewrite <- H2 at 1; rewrite termAt_snapshot; unfold compactUpTo.
    case (N.leb_spec index (snapshotIndex_ l)); [lia|done].
  - rewrite (lastIndex_wf _ Hwf), (lastIndex_wf _ H1), H2; unfold compactUpTo.
    case (N.leb_spec index (snapshotIndex_ l)); [lia|intros _]; cbn [entries_ with_dir].
    rewrite compact_entries_eq by done; cbn [entries_]; unfold nlen; rewrite length_drop; lia.
Qed.

Lemma compactUpTo_spec_witness :
  at_ 4 (compactUpTo 3 4 (str "snap") two_entry_log) = Some (mkLogEntry 4 4 Command (str "a")) /\
  loadSnapshotBytes (compactUpTo 3 4 (str "snap") two_entry_log) = Some (str "snap").
Proof.
  destruct (compactUpTo_spec 3 4 (str "snap") two_entry_log) as (_ & _ & _ & Hb & _ & Ha);
    [exact two_entry_log_wf|reflexivity|reflexivity|].
  split; [rewrite (Ha 4 eq_refl); reflexivity|exact Hb].
Defined.

(** ** Damaged files *)

(** C31: a torn tail does not lose or invent records.  When [wal.log] holds the
    bytes of some entries followed by a record cut anywhere, recovery reads
    exactly those entries. *)
Theorem load_wal_torn_tail (d : Dir) (es : list LogEntry) (torn : bytes)
    (Hes : Forall LogEntry_valid es) (Ht : torn_record torn)
    (Hd : d !! "wal.log" = Some (wal_bytes es ++ torn)) :
  load_wal d = es.
Proof. by apply (load_wal_written d es torn). Qed.

Lemma load_wal_torn_tail_witness :
  load_wal {["wal.log" := wal_bytes (entries_ two_entry_log) ++ take 9 (LogEntry_encode (mkLogEntry 1 2 NoOp []) [])]}
  = entries_ two_entry_log.
Proof.
  apply (load_wal_torn_tail _ _ (take 9 (LogEntry_encode (mkLogEntry 1 2 NoOp []) []))).
  - repeat constructor.
  - exists (mkLogEntry 1 2 NoOp []); split; [repeat split|split; [apply prefix_take|]].
    vm_compute; discriminate.
  - reflexivity.
Defined.

Lemma or_bytes_total k i v r :
  pos_ r + N.of_nat k <= len_ r ->
  exists w, or_bytes k i v r = Ok (w, mkReader (data_ r) (pos_ r + N.of_nat k)).
Proof.
  revert i v r; induction k as [|k IH]; intros i v r H.
  { exists v; destruct r; simpl; unfold mret, rd_ret; by rewrite N.add_0_r. }
  unfold len_, nlen in H; simpl; unfold mbind, rd_bind, next.
  destruct (lookup_lt_is_Some_2 (data_ r) (N.to_nat (pos_ r))) as [b Hb]; [lia|].
  rewrite Hb; edestruct IH as [w Hw]; [|exists w; rewrite Hw; simpl; do 3 f_equal; lia].
  unfold len_, nlen; simpl; lia.
Qed.

Lemma getU64_total r : pos_ r + 8 <= len_ r ->
  exists w, getU64 r = Ok (w, mkReader (data_ r) (pos_ r + 8)).
Proof.
  intros H; unfold getU64, mbind, rd_bind, require.
  case (N.ltb_spec _ _); [lia|intros _]; by apply or_bytes_total.
Qed.

Lemma getU32_total r : pos_ r + 4 <= len_ r ->
  exists w, getU32 r = Ok (w, mkReader (data_ r) (pos_ r + 4)).
Proof.
  intros H; unfold getU32, mbind, rd_bind, require.
  case (N.ltb_spec _ _); [lia|intros _]; by apply or_bytes_total.
Qed.

(** Opening a log never throws: whatever bytes the three files hold,
    [loadFromDisk] returns an object on that directory. *)
Theorem loadFromDisk_total (d : Dir) : exists l, loadFromDisk d = Ok l /\ dir_ l = d.
Proof.
  assert (exists hs, load_hardstate d = Ok hs) as [hs Hh].
  { unfold load_hardstate; destruct (d !! "hardstate") as [b|]; [|eauto].
    case (N.leb_spec _ _); [intros Hb|eauto]; unfold mbind, rd_bind.
    destruct (getU64_total (Reader_of b)) as [t Ht]; [unfold len_; simpl; lia|]; rewrite Ht.
    edestruct getU32_total as [v Hv]; [|rewrite Hv; simpl; eauto]; unfold len_; simpl; lia. }
  assert (exists sn, load_snapshot_header d = Ok sn) as [sn Hs].
  { unfold load_snapshot_header; destruct (d !! "snapshot.bin") as [b|]; [|eauto].
    case (N.leb_spec _ _); [intros Hb|eauto]; unfold mbind, rd_bind.
    destruct (getU64_total (Reader_of b)) as [t Ht]; [unfold len_; simpl; lia|]; rewrite Ht.
    edestruct getU64_total as [v Hv]; [|rewrite Hv; simpl; eauto]; unfold len_; simpl; lia. }
  unfold loadFromDisk; rewrite Hh, Hs; simpl; eauto.
Qed.

(** ** Crashes *)
Lemma loadFromDisk_same_files d d' l :
  (forall c, c ∈ ["hardstate"; "snapshot.bin"; "wal.log"] -> d' !! c = d !! c) ->
  loadFromDisk d = Ok l -> loadFromDisk d' = Ok (with_dir d' l).
Proof.
  intros H; unfold loadFromDisk.
  rewrite (load_hardstate_ext d' d), (load_snapshot_ext d' d), (load_wal_ext d' d)
    by (apply H; set_solver).
  destruct (load_hardstate d); [|done]; destruct (load_snapshot_header d); [|done]; simpl.
  by intros [= <-].
Qed.

Lemma crash_atomic tmp name b l l1 d' :
  durable l -> tmp ∉ ["hardstate"; "snapshot.bin"; "wal.log"] ->
  crashed (dir_ l) (tmp_ops tmp name b) d' ->
  loadFromDisk (run_fsops (tmp_ops tmp name b) (dir_ l)) = Ok l1 ->
  loadFromDisk d' = Ok (with_dir d' l) \/ loadFromDisk d' = Ok l1.
Proof.
  intros Hd Ht Hc H1; apply tmp_ops_crash in Hc as [Hc| ->]; [left|by right].
  eapply loadFromDisk_same_files; [|exact Hd]; intros c Hc'; apply Hc; intros ->; done.
Qed.

(** Votes and terms survive crashes atomically.  A crash at any point of the
    file operations of [setHardState] (a partially written temporary file
    included) leaves a directory from which a restart reads either the state
    before the call or the state after it. *)
Theorem setHardState_crash_atomic (t : Term) (v : NodeId) (l : PersistentLog) (d' : Dir)
    (Hd : durable l) (Ht : t < U64) (Hv : v < U32)
    (Hc : crashed (dir_ l) (writeHardStateLocked (set_hard_fields t v l)) d') :
  loadFromDisk d' = Ok (with_dir d' l) \/ loadFromDisk d' = Ok (setHardState t v l).
Proof.
  eapply (crash_atomic "hardstate.tmp" "hardstate"); [done|by_decide|exact Hc|].
  exact (setHardState_durable t v l Hd Ht Hv).
Qed.

Lemma setHardState_crash_atomic_witness :
  exists d', crashed ∅ (writeHardStateLocked (set_hard_fields 1 2 pl_empty)) d' /\
    d' <> ∅ /\
    (loadFromDisk d' = Ok (with_dir d' pl_empty) \/ loadFromDisk d' = Ok (setHardState 1 2 pl_empty)).
Proof.
  exists (<["hardstate.tmp" := take 5 (putU32 2 (putU64 1 []))]> ∅).
  assert (crashed (∅ : Dir) (writeHardStateLocked (set_hard_fields 1 2 pl_empty))
            (<["hardstate.tmp" := take 5 (putU32 2 (putU64 1 []))]> ∅)) as H
    by (apply crash_torn, prefix_take).
  split; [exact H|split; [apply insert_non_empty|]].
  apply (setHardState_crash_atomic 1 2 pl_empty _ pl_empty_durable); [reflexivity|reflexivity|exact H].
Defined.

(** C30: appended entries survive crashes atomically: a crash at any point of
    [appendAndSync] leaves the log before the call or the log after it, never
    part of a batch. *)
Theorem appendAndSync_crash_atomic (e : LogEntry) (new : list LogEntry) (l : PersistentLog) (d' : Dir)
    (Hd : durable l) (Hv : pl_valid l) (Hn : Forall LogEntry_valid (e :: new))
    (Hc : crashed (dir_ l) (rewriteWalLocked (append_entries (e_index e) (e :: new) l)) d') :
  loadFromDisk d' = Ok (with_dir d' l) \/ loadFromDisk d' = Ok (appendAndSync (e :: new) l).
Proof.
  pose proof (appendAndSync_durable (e :: new) l Hd Hv Hn) as H; unfold durable in H; simpl in H.
  rewrite rewriteWal_ops in Hc; eapply (crash_atomic "wal.log.tmp" "wal.log"); [done|by_decide|exact Hc|].
  rewrite <- rewriteWal_ops; exact H.
Qed.

Lemma appendAndSync_crash_atomic_witness :
  exists d', crashed ∅ (rewriteWalLocked (append_entries 1 [mkLogEntry 1 1 NoOp []] pl_empty)) d' /\
    (loadFromDisk d' = Ok (with_dir d' pl_empty) \/
     loadFromDisk d' = Ok (appendAndSync [mkLogEntry 1 1 NoOp []] pl_empty)).
Proof.
  eexists; assert (crashed (∅ : Dir) (rewriteWalLocked (append_entries 1 [mkLogEntry 1 1 NoOp []] pl_empty))
            (<["wal.log.tmp" := take 5 (wal_bytes [mkLogEntry 1 1 NoOp []])]> ∅)) as H
    by (apply crash_torn, prefix_take).
  split; [exact H|].
  apply (appendAndSync_crash_atomic (mkLogEntry 1 1 NoOp []) [] pl_empty _ pl_empty_durable pl_empty_valid);
    [repeat constructor|exact H].
Defined.

(** The directory between the two renames of [compactUpTo]. *)
Definition compact_window (index : LogIndex) (t : Term) (b : bytes) (l : PersistentLog) : Dir :=
  run_fsops (writeSnapshotLocked b (compact_entries index t l)) (dir_ l).

Lemma load_mixed index t b l :
  durable l -> index < U64 -> t < U64 ->
  loadFromDisk (compact_window index t b l) =
  Ok (mkPersistentLog (compact_window index t b l) (currentTerm_ l) (votedFor_ l) index t (entries_ l)).
Proof.
  rewrite durable_iff; intros (Hh & _ & Hw) Hi Ht.
  set (l' := mkPersistentLog _ _ _ _ _ _); apply (durable_iff l'); simpl.
  unfold compact_window; change (writeSnapshotLocked b (compact_entries index t l))
    with (tmp_ops "snapshot.bin.tmp" "snapshot.bin" (putU64 t (putU64 index []) ++ b)).
  rewrite (load_hardstate_ext _ (dir_ l)), (load_wal_ext _ (dir_ l)) by (by rewrite tmp_ops_lookup).
  split_and!; [done| |done].
  apply (load_snapshot_written _ _ _ b); [done..|]; by rewrite tmp_ops_lookup.
Qed.

(** A crash during [compactUpTo] leaves one of three logs: the old one, the
    new one, or, between the two renames, the new snapshot header on top of the
    {e uncompacted} entries. *)
Theorem compactUpTo_crash (index : LogIndex) (t : Term) (b : bytes) (l : PersistentLog) (d' : Dir)
    (Hd : durable l) (Hv : pl_valid l) (Hs : snapshotIndex_ l < index)
    (Hi : index < U64) (Ht : t < U64)
    (Hc : crashed (dir_ l) (compact_ops b (compact_entries index t l)) d') :
  loadFromDisk d' = Ok (with_dir d' l) \/
  loadFromDisk d' = Ok (compactUpTo index t b l) \/
  loadFromDisk d' = Ok (mkPersistentLog d' (currentTerm_ l) (votedFor_ l) index t (entries_ l)).
Proof.
  pose proof (compactUpTo_durable index t b l Hd Hv Hi Ht) as Hnew.
  unfold compactUpTo in *; revert Hnew; case (N.leb_spec index (snapshotIndex_ l)); [lia|intros _].
  set (l1 := compact_entries index t l) in *; intros Hnew.
  unfold durable in Hnew; change (dir_ (with_dir ?d _)) with d in Hnew.
  apply crashed_app in Hc as [Hc|Hc].
  - apply (tmp_ops_crash "snapshot.bin.tmp" "snapshot.bin" (putU64 t (putU64 index []) ++ b)) in Hc
      as [Hc| ->]; [left|right; right].
    + eapply loadFromDisk_same_files; [|exact Hd]; intros c Hc'; apply Hc; intros ->.
      revert Hc'; by_decide.
    + by apply load_mixed.
  - rewrite rewriteWal_ops in Hc; apply tmp_ops_crash in Hc as [Hc| ->]; [right; right|right; left].
    + pose proof (load_mixed index t b l Hd Hi Ht) as Hm.
      apply (loadFromDisk_same_files _ d') in Hm; [exact Hm|].
      intros c Hc'; apply Hc; intros ->; revert Hc'; by_decide.
    + rewrite <- rewriteWal_ops, <- run_fsops_app; exact Hnew.
Qed.

Definition durable_two : PersistentLog :=
  appendAndSync [mkLogEntry 1 1 NoOp []; mkLogEntry 2 2 Command (str "a")] pl_empty.

Lemma durable_two_ok : durable durable_two /\ pl_valid durable_two.
Proof. split; [vm_compute; reflexivity|split; [reflexivity..|repeat constructor]]. Qed.

Lemma compactUpTo_crash_witness :
  exists d', crashed (dir_ durable_two) (compact_ops (str "s") (compact_entries 1 1 durable_two)) d' /\
    (loadFromDisk d' = Ok (with_dir d' durable_two) \/
     loadFromDisk d' = Ok (compactUpTo 1 1 (str "s") durable_two) \/
     loadFromDisk d' = Ok (mkPersistentLog d' 0 0 1 1 (entries_ durable_two))).
Proof.
  exists (compact_window 1 1 (str "s") durable_two).
  assert (crashed (dir_ durable_two) (compact_ops (str "s") (compact_entries 1 1 durable_two))
            (compact_window 1 1 (str "s") durable_two)) as H
    by (apply crash_later, crash_later, crash_now).
  split; [exact H|].
  apply (compactUpTo_crash 1 1 (str "s") durable_two _ (proj1 durable_two_ok) (proj2 durable_two_ok));
    [reflexivity|reflexivity|reflexivity|exact H].
Defined.

(** ** Two defects *)

(** The crash window of [compactUpTo] misplaces the log.  For every
    well-formed durable log and every compaction inside it, a crash between the
    two renames is recovered as a log in which the index right after the
    snapshot holds the old {e first} entry: [loadFromDisk] does not drop the
    entries the snapshot already covers, so every later index is read from the
    wrong offset. *)
Theorem compactUpTo_crash_misplaces (index : LogIndex) (t : Term) (b : bytes)
    (l : PersistentLog) (e : LogEntry)
    (Hwf : pl_wf l) (Hd : durable l) (He : head (entries_ l) = Some e)
    (Hs : snapshotIndex_ l < index) (Hi : index < lastIndex l) (Ht : t < U64) :
  exists d' l', crashed (dir_ l) (compact_ops b (compact_entries index t l)) d' /\
    loadFromDisk d' = Ok l' /\ at_ (index + 1) l' = Some e /\ e_index e <> index + 1.
Proof.
  pose proof (wf_bound _ Hwf); rewrite lastIndex_wf in Hi by done.
  eexists; eexists; split; [apply crash_later, crash_later, crash_now|].
  split; [apply (load_mixed index t b l Hd); [lia|done]|]; simpl.
  rewrite head_lookup in He; split.
  - rewrite at_spec by lia; simpl; case_decide; [|lia].
    by replace (N.to_nat (index + 1 - index - 1)) with 0%nat by lia.
  - rewrite (wf_contig _ Hwf _ _ He); lia.
Qed.

Lemma compactUpTo_crash_misplaces_witness :
  exists d' l', crashed (dir_ durable_two) (compact_ops (str "s") (compact_entries 1 1 durable_two)) d' /\
    loadFromDisk d' = Ok l' /\ at_ (1 + 1) l' = Some (mkLogEntry 1 1 NoOp []) /\
    e_index (mkLogEntry 1 1 NoOp []) <> 1 + 1.
Proof.
  apply (compactUpTo_crash_misplaces 1 1 (str "s") durable_two); [|apply durable_two_ok|reflexivity..].
  split; [intros [|[|i]] e; simpl; intros [=]; subst; reflexivity|reflexivity].
Defined.

(** [appendAndSync] does not drop the part of a batch that the snapshot
    already covers (the branch for it is empty): every batch of consecutive
    entries that starts at or before the snapshot index breaks the numbering of
    the log. *)
Theorem appendAndSync_overlap_breaks (first : LogEntry) (new : list LogEntry) (l : PersistentLog)
    (Hs : e_index first <= snapshotIndex_ l) (Hb : snapshotIndex_ l + 1 < U64) :
  ~ pl_wf (appendAndSync (first :: new) l) /\
  at_ (snapshotIndex_ l + 1) (appendAndSync (first :: new) l) = Some first.
Proof.
  assert (entries_ (appendAndSync (first :: new) l) = first :: new) as He.
  { simpl; case (N.ltb_spec (snapshotIndex_ l) (e_index first)); [lia|intros _].
    case (N.ltb_spec _ _); [done|]; unfold nlen; intros Hl.
    destruct (entries_ l); simpl in *; [done|lia]. }
  split.
  - intros [Hc _]; rewrite He in Hc; specialize (Hc 0%nat first eq_refl); simpl in Hc; lia.
  - rewrite at_spec, He by done; simpl; case_decide; [|lia].
    by replace (N.to_nat (snapshotIndex_ l + 1 - snapshotIndex_ l - 1)) with 0%nat by lia.
Qed.

Lemma appendAndSync_overlap_breaks_witness :
  at_ (2 + 1) (appendAndSync [mkLogEntry 4 2 NoOp []; mkLogEntry 4 3 NoOp []] two_entry_log)
  = Some (mkLogEntry 4 2 NoOp []).
Proof.
  apply (appendAndSync_overlap_breaks (mkLogEntry 4 2 NoOp []) [mkLogEntry 4 3 NoOp []] two_entry_log);
    [vm_compute; discriminate|reflexivity].
Defined.
