(* ===== verification/StateMachine.v ===== *)
(** * raft/state_machine.h: the interface of replicated state machines

    [RaftNode] is written against this interface.  [restore] replaces the whole
    state, so it takes the bytes only; both [apply] and [restore] decode bytes
    and can throw. *)
From stdpp Require Import base tactics list gmap numbers strings.
From Stdlib Require Import Ascii NArith Lia.
From S2P Require Import Prelude.

Class StateMachine (S : Type) := {
  sm_apply : bytes -> N -> S -> outcome (S * bytes);
  sm_snapshot : S -> bytes;
  sm_restore : bytes -> outcome S
}.

(** What an implementation promises to the consensus layer: a state within the
    limits of the snapshot format is read back from its own snapshot. *)
Class StateMachineLaws (S : Type) `{StateMachine S} := {
  sm_ok : S -> Prop;
  sm_restore_snapshot : forall s, sm_ok s -> sm_restore (sm_snapshot s) = Ok s
}.
