(* ===== verification/KvStore.v ===== *)
(** * kv/kv_store.h: the key-value state machine *)
From stdpp Require Import base tactics list gmap numbers strings.
From Stdlib Require Import Ascii NArith Lia.
From S2P Require Import Prelude.
From S2P Require Import Buffer.
From S2P Require Import Types.
From S2P Require Import StateMachine.

Local Open Scope N_scope.

(** ** State and operations *)
Record KvStore := mkKvStore {
  data_map : gmap (list ascii) (list ascii);
  lastSeq_ : gmap N (N * list ascii)
}.

Definition KvStore_init : KvStore := mkKvStore ∅ ∅.

(** The [switch] of [apply]: the new map and the result.  A value of [CmdOp]
    without an enumerator matches no case. *)
Definition execute (cmd : KvCommand) (data : gmap (list ascii) (list ascii)) :
    gmap (list ascii) (list ascii) * bytes :=
  match c_op cmd with
  | Put => (<[c_key cmd := c_value cmd]> data, str "OK")
  | Del => (delete (c_key cmd) data, str "OK")
  | Cas =>
      let cur := match data !! c_key cmd with None => [] | Some v => v end in
      if decide (cur = c_expect cmd) then (<[c_key cmd := c_value cmd]> data, str "OK")
      else (data, str "CAS_MISMATCH")
  | CmdOpOther _ => (data, [])
  end.

(** [apply] on a decoded command. *)
Definition KvStore_apply_cmd (cmd : KvCommand) (s : KvStore) : KvStore * bytes :=
  let run :=
    let '(data, result) := execute cmd (data_map s) in
    (mkKvStore data
       (if negb (c_clientId cmd =? 0)
        then <[c_clientId cmd := (c_requestSeq cmd, result)]> (lastSeq_ s) else lastSeq_ s),
     result) in
  if negb (c_clientId cmd =? 0) then
    match lastSeq_ s !! c_clientId cmd with
    | Some (seq, cached) => if c_requestSeq cmd <=? seq then (s, cached) else run
    | None => run
    end
  else run.

Definition KvStore_apply (commandBytes : bytes) (logIndex : N) (s : KvStore) : outcome (KvStore * bytes) :=
  cmd ← KvCommand_decode commandBytes; mret (KvStore_apply_cmd cmd s).

Definition KvStore_get (key : bytes) (s : KvStore) : option bytes := data_map s !! key.

Definition KvStore_size (s : KvStore) : N := N.of_nat (size (data_map s)).

(** The body of [snapshot] for a given iteration order of the two hash maps. *)
Definition snapshot_bytes (data : list (bytes * bytes)) (seqs : list (N * (N * bytes))) : bytes :=
  let w := putU32 (u32 (nlen data)) [] in
  let w := fold_left (fun w p => putBytes p.2 (putBytes p.1 w)) data w in
  let w := putU32 (u32 (nlen seqs)) w in
  fold_left (fun w p => putBytes p.2.2 (putU64 p.2.1 (putU64 p.1 w))) seqs w.

(** [std::unordered_map] fixes no iteration order: the bytes [snapshot] may
    return are those of any ordering of the elements. *)
Definition KvStore_snapshots (s : KvStore) (b : bytes) : Prop :=
  exists data seqs, data ≡ₚ map_to_list (data_map s) /\ seqs ≡ₚ map_to_list (lastSeq_ s) /\
    b = snapshot_bytes data seqs.

(** The order of the enumeration of [gmap], to have one to compute with. *)
Definition KvStore_snapshot (s : KvStore) : bytes :=
  snapshot_bytes (map_to_list (data_map s)) (map_to_list (lastSeq_ s)).

Definition read_pair : rd (bytes * bytes) := k ← getBytes; v ← getBytes; mret (k, v).

Definition read_seq : rd (N * (N * bytes)) :=
  cid ← getU64; seq ← getU64; res ← getBytes; mret (cid, (seq, res)).

(** [m[k] = v] for each element read, in order. *)
Definition insert_all {K V} `{Countable K} (l : list (K * V)) : gmap K V :=
  fold_left (fun m p => <[p.1 := p.2]> m) l ∅.

Definition KvStore_restore (snapshotBytes : bytes) : outcome KvStore :=
  if decide (snapshotBytes = []) then Ok KvStore_init
  else
    p ← (n ← getU32; data ← read_n read_pair (N.to_nat n);
         m ← getU32; seqs ← read_n read_seq (N.to_nat m);
         mret (mkKvStore (insert_all data) (insert_all seqs))) (Reader_of snapshotBytes);
    mret p.1.

#[global] Instance KvStore_StateMachine : StateMachine KvStore := {|
  sm_apply := KvStore_apply; sm_snapshot := KvStore_snapshot; sm_restore := KvStore_restore |}.

(** ** Snapshots *)

(** Within the limits of the format: counts and lengths in 32 bits. *)
Record KvStore_ok (s : KvStore) : Prop := {
  kv_size : N.of_nat (size (data_map s)) < U32;
  kv_strings : map_Forall (fun k v => nlen k < U32 /\ nlen v < U32) (data_map s);
  kv_clients : N.of_nat (size (lastSeq_ s)) < U32;
  kv_seqs : map_Forall (fun c p => c < U64 /\ p.1 < U64 /\ nlen p.2 < U32) (lastSeq_ s)
}.

Lemma insert_all_perm {K V} `{Countable K} (l : list (K * V)) (m : gmap K V) :
  l ≡ₚ map_to_list m -> insert_all l = m.
Proof.
  intros Hl; assert (NoDup l.*1) as Hnd by (rewrite Hl; apply NoDup_fst_map_to_list).
  assert (forall k, fold_left (fun m p => <[p.1 := p.2]> m) l (k : gmap K V) = list_to_map l ∪ k) as Hf.
  { clear Hl; revert Hnd; induction l as [|[i x] l IH]; intros Hnd k; simpl.
    - by rewrite (left_id ∅ (∪)).
    - apply NoDup_cons in Hnd as [Hi Hnd]; rewrite IH by done.
      rewrite <- insert_union_l, insert_union_r; [done|].
      by apply not_elem_of_list_to_map_1. }
  unfold insert_all; rewrite Hf, (right_id ∅ (∪)).
  rewrite (list_to_map_proper _ _ Hnd Hl); apply list_to_map_to_list.
Qed.

Lemma read_pair_parses p :
  nlen p.1 < U32 -> nlen p.2 < U32 -> parses read_pair (putBytes p.2 (putBytes p.1 [])) p.
Proof. destruct p; simpl; intros; unfold read_pair; solve_parses. Qed.

Lemma read_seq_parses p :
  p.1 < U64 -> p.2.1 < U64 -> nlen p.2.2 < U32 ->
  parses read_seq (putBytes p.2.2 (putU64 p.2.1 (putU64 p.1 []))) p.
Proof. destruct p as [? []]; simpl; intros; unfold read_seq; solve_parses. Qed.

Lemma snapshot_bytes_flat data seqs :
  snapshot_bytes data seqs =
  (le_bytes 4 (u32 (u32 (nlen data))) ++ concat ((fun p => putBytes p.2 (putBytes p.1 [])) <$> data)) ++
  (le_bytes 4 (u32 (u32 (nlen seqs))) ++
   concat ((fun p => putBytes p.2.2 (putU64 p.2.1 (putU64 p.1 []))) <$> seqs)).
Proof.
  unfold snapshot_bytes.
  rewrite (fold_encode_app (fun p w => putBytes p.2 (putBytes p.1 w))),
    (fold_encode_app (fun p w => putBytes p.2.2 (putU64 p.2.1 (putU64 p.1 w))))
    by (intros; by flatten_writer).
  flatten_writer; done.
Qed.

Lemma restore_snapshots s b : KvStore_ok s -> KvStore_snapshots s b -> KvStore_restore b = Ok s.
Proof.
  intros [H1 H2 H3 H4] (data & seqs & Hd & Hq & ->); unfold KvStore_restore.
  case_decide as Hne.
  { rewrite snapshot_bytes_flat in Hne; discriminate. }
  assert (parses (n ← getU32; data ← read_n read_pair (N.to_nat n);
         m ← getU32; seqs ← read_n read_seq (N.to_nat m);
         mret (mkKvStore (insert_all data) (insert_all seqs))) (snapshot_bytes data seqs)
         (mkKvStore (insert_all data) (insert_all seqs))) as Hp.
  { rewrite snapshot_bytes_flat.
    apply parses_bind_assoc; eapply parses_bind.
    - apply parses_counted; [unfold nlen; rewrite Hd; by rewrite length_map_to_list|].
      apply Forall_forall; intros p Hin; rewrite Hd in Hin; destruct p as [k v].
      apply elem_of_map_to_list, H2 in Hin as []; by apply read_pair_parses.
    - apply parses_bind_assoc.
      apply (parses_last _ (fun seqs => mkKvStore (insert_all data) (insert_all seqs))).
      apply parses_counted; [unfold nlen; rewrite Hq; by rewrite length_map_to_list|].
      apply Forall_forall; intros p Hin; rewrite Hq in Hin; destruct p as [c q].
      apply elem_of_map_to_list, H4 in Hin as (? & ? & ?); by apply read_seq_parses. }
  apply parses_whole in Hp as [-> _]; simpl.
  rewrite (insert_all_perm data _ Hd), (insert_all_perm seqs _ Hq); by destruct s.
Qed.

Lemma KvStore_snapshot_ok s : KvStore_snapshots s (KvStore_snapshot s).
Proof. by exists (map_to_list (data_map s)), (map_to_list (lastSeq_ s)). Qed.

#[global] Instance KvStore_Laws : StateMachineLaws KvStore.
Proof.
  refine {| sm_ok := KvStore_ok |}.
  intros s Hs; apply (restore_snapshots s _ Hs), KvStore_snapshot_ok.
Defined.

(** C13: a snapshot restores the store.  For every store within the format's
    limits and whatever order the two hash maps are enumerated in, [restore] on
    the bytes of [snapshot] returns the same data and the same per-client
    results, so a replica restored from a snapshot answers and de-duplicates like
    the one that took it. *)
Theorem restore_any_snapshot (s : KvStore) (b : bytes)
    (Hok : KvStore_ok s) (Hb : KvStore_snapshots s b) :
  KvStore_restore b = Ok s.
Proof. by apply restore_snapshots. Qed.

Definition sample_store : KvStore :=
  mkKvStore {[ str "a" := str "1"; str "b" := [] ]} {[ 42 := (7, str "OK") ]}.

Lemma restore_any_snapshot_witness :
  KvStore_restore (snapshot_bytes [(str "b", []); (str "a", str "1")] [(42, (7, str "OK"))])
  = Ok sample_store.
Proof.
  apply (restore_any_snapshot sample_store).
  - split; by_decide.
  - exists [(str "b", []); (str "a", str "1")], [(42, (7, str "OK"))].
    split; [by_decide|split; [by_decide|reflexivity]].
Defined.

(** ** Exactly-once application *)
Definition run_cmds (h : list KvCommand) (s : KvStore) : KvStore :=
  fold_left (fun s c => (KvStore_apply_cmd c s).1) h s.

(** Plain execution, without de-duplication. *)
Definition exec_all (h : list KvCommand) (d : gmap (list ascii) (list ascii)) :=
  fold_left (fun d c => (execute c d).1) h d.

(** The commands that are the first with their [(clientId, requestSeq)]; a
    command without a client id always counts. *)
Fixpoint first_occurrences (seen : gset (N * N)) (h : list KvCommand) : list KvCommand :=
  match h with
  | [] => []
  | c :: h' =>
      let k := (c_clientId c, c_requestSeq c) in
      let rest := first_occurrences ({[k]} ∪ seen) h' in
      if (c_clientId c =? 0) || bool_decide (k ∉ seen) then c :: rest else rest
  end.

(** Each client numbers its requests in order: a request of a client is a retry,
    with a number the client has used before, or its number is above all of them.
    A retry may come at any later time, also after newer requests of the client. *)
Fixpoint clients_in_order (seen : gset (N * N)) (h : list KvCommand) : Prop :=
  match h with
  | [] => True
  | c :: h' =>
      (c_clientId c = 0 \/ (c_clientId c, c_requestSeq c) ∈ seen \/
       set_Forall (fun k => k.1 = c_clientId c -> k.2 < c_requestSeq c) seen) /\
      clients_in_order ({[(c_clientId c, c_requestSeq c)]} ∪ seen) h'
  end.

(** [c] is covered by what the store remembers of its client. *)
Definition already (s : KvStore) (c : KvCommand) : Prop :=
  exists n r, lastSeq_ s !! c_clientId c = Some (n, r) /\ c_requestSeq c <= n.

#[global] Instance already_dec s c : Decision (already s c).
Proof.
  unfold already; destruct (lastSeq_ s !! c_clientId c) as [[n r]|]; [|right; naive_solver].
  destruct (decide (c_requestSeq c <= n)); [left|right]; naive_solver.
Defined.

Lemma apply_already c s : c_clientId c <> 0 -> already s c -> (KvStore_apply_cmd c s).1 = s.
Proof.
  intros Hc (n & r & Hn & Hle); unfold KvStore_apply_cmd; rewrite Hn.
  case (N.eqb_spec (c_clientId c) 0); [done|intros _]; simpl.
  case (N.leb_spec _ _); [done|lia].
Qed.

Lemma apply_runs c s :
  c_clientId c = 0 \/ ~ already s c ->
  data_map (KvStore_apply_cmd c s).1 = (execute c (data_map s)).1 /\
  lastSeq_ (KvStore_apply_cmd c s).1 =
    if c_clientId c =? 0 then lastSeq_ s
    else <[c_clientId c := (c_requestSeq c, (execute c (data_map s)).2)]> (lastSeq_ s).
Proof.
  intros H; unfold KvStore_apply_cmd; destruct (execute c (data_map s)) as [d r]; simpl.
  case (N.eqb_spec (c_clientId c) 0); [done|intros Hc]; simpl.
  destruct (lastSeq_ s !! c_clientId c) as [[n r']|] eqn:E; [|done].
  case (N.leb_spec _ _); [|done].
  intros Hle; destruct H as [H|H]; [done|]; destruct H; by exists n, r'.
Qed.

Lemma already_mono c h s : already s c -> c_clientId c <> 0 -> already (run_cmds h s) c.
Proof.
  revert s; induction h as [|a h IH]; intros s Hs Hc; [done|]; apply IH; [|done].
  destruct Hs as (n & r & Hn & Hle).
  destruct (decide (c_clientId a = 0)) as [Ha|Ha].
  { destruct (apply_runs a s) as [_ Hl]; [by left|]; exists n, r; by rewrite Hl, Ha. }
  destruct (decide (already s a)) as [Hal|Hal].
  { rewrite apply_already by done; by exists n, r. }
  destruct (apply_runs a s) as [_ Hl]; [by right|]; rewrite (proj2 (N.eqb_neq _ _) Ha) in Hl.
  destruct (decide (c_clientId a = c_clientId c)) as [E|E].
  - eexists _, _; rewrite Hl, E, lookup_insert_eq; split; [done|].
    destruct (N.le_gt_cases (c_requestSeq a) n) as [Hn'|Hn']; [|lia].
    destruct Hal; exists n, r; by rewrite E.
  - exists n, r; by rewrite Hl, lookup_insert_ne.
Qed.

Lemma apply_makes_already c s : c_clientId c <> 0 -> already (KvStore_apply_cmd c s).1 c.
Proof.
  intros Hc; destruct (decide (already s c)) as [Hal|Hal].
  { by rewrite apply_already. }
  destruct (apply_runs c s) as [_ Hl]; [by right|]; rewrite (proj2 (N.eqb_neq _ _) Hc) in Hl.
  eexists _, _; by rewrite Hl, lookup_insert_eq.
Qed.

(** A retried write is not applied twice.  Once a command with a client id
    has been applied, applying it again after any other commands of any clients
    leaves the whole store unchanged. *)
Theorem apply_retry (c : KvCommand) (h : list KvCommand) (s : KvStore) (Hc : c_clientId c <> 0) :
  let s' := run_cmds h (KvStore_apply_cmd c s).1 in
  (KvStore_apply_cmd c s').1 = s'.
Proof. apply apply_already; [done|]; by apply already_mono, Hc; apply apply_makes_already. Qed.

Definition put_cmd (k v : string) (cid seq : N) : KvCommand :=
  mkKvCommand Put (str k) (str v) [] cid seq.

Lemma apply_retry_witness :
  (KvStore_apply_cmd (put_cmd "k" "v" 42 1)
     (run_cmds [put_cmd "k" "w" 43 1] (KvStore_apply_cmd (put_cmd "k" "v" 42 1) KvStore_init).1)).1
  = run_cmds [put_cmd "k" "w" 43 1] (KvStore_apply_cmd (put_cmd "k" "v" 42 1) KvStore_init).1.
Proof. apply (apply_retry (put_cmd "k" "v" 42 1) [put_cmd "k" "w" 43 1] KvStore_init); discriminate. Defined.

(** The store remembers the largest number of each client. *)
Record remembers (seen : gset (N * N)) (s : KvStore) : Prop := {
  rm_some : forall k n r, k <> 0 -> lastSeq_ s !! k = Some (n, r) -> (k, n) ∈ seen;
  rm_max : forall k q, k <> 0 -> (k, q) ∈ seen -> exists n r, lastSeq_ s !! k = Some (n, r) /\ q <= n
}.

Lemma remembers_apply seen c s :
  remembers seen s -> remembers ({[(c_clientId c, c_requestSeq c)]} ∪ seen) (KvStore_apply_cmd c s).1.
Proof.
  intros [Hs Hm]; destruct (decide (c_clientId c = 0)) as [Hz|Hz].
  { destruct (apply_runs c s) as [_ Hl]; [by left|]; rewrite Hz in Hl; simpl in Hl; split; rewrite Hl.
    - intros k n r Hk Hn; apply elem_of_union_r; by eapply Hs.
    - intros k q Hk [Hq|Hq]%elem_of_union; [apply elem_of_singleton in Hq as [= -> _]; done|by apply Hm]. }
  destruct (decide (already s c)) as [Hal|Hal].
  { rewrite apply_already by done; split; [intros k n r Hk Hn; apply elem_of_union_r; by eapply Hs|].
    intros k q Hk [Hq|Hq]%elem_of_union; [apply elem_of_singleton in Hq as [= -> ->]; exact Hal|by apply Hm]. }
  destruct (apply_runs c s) as [_ Hl]; [by right|]; rewrite (proj2 (N.eqb_neq _ _) Hz) in Hl; split; rewrite Hl.
  - intros k n r Hk; rewrite lookup_insert; case_decide as E; [intros [= <- _]; rewrite E; apply elem_of_union_l; set_solver|].
    intros Hn; apply elem_of_union_r; by eapply Hs.
  - intros k q Hk Hq; rewrite lookup_insert; case_decide as E; [subst k; eexists _, _; split; [done|]|].
    + apply elem_of_union in Hq as [Hq|Hq]; [apply elem_of_singleton in Hq as [= ->]; done|].
      destruct (Hm _ _ Hk Hq) as (n & r & Hn & Hle); destruct (N.le_gt_cases (c_requestSeq c) n); [|lia].
      destruct Hal; by exists n, r.
    + apply elem_of_union in Hq as [Hq|Hq]; [apply elem_of_singleton in Hq as [= -> _]; done|by apply Hm].
Qed.

(** A request in order is covered by the store exactly when it is a retry. *)
Lemma already_seen seen c s :
  remembers seen s -> c_clientId c <> 0 ->
  (c_clientId c, c_requestSeq c) ∈ seen \/ set_Forall (fun k => k.1 = c_clientId c -> k.2 < c_requestSeq c) seen ->
  already s c <-> (c_clientId c, c_requestSeq c) ∈ seen.
Proof.
  intros [Hs Hm] Hz Hc; split; [|intros Hin; destruct (Hm _ _ Hz Hin) as (n & r & ? & ?); by exists n, r].
  intros (n & r & Hn & Hle); destruct Hc as [|Hc]; [done|exfalso].
  specialize (Hc _ (Hs _ _ _ Hz Hn) eq_refl); simpl in Hc; lia.
Qed.

Lemma remembers_run seen h s : remembers seen s -> exists seen', remembers seen' (run_cmds h s) /\
  (forall k, k ∈ seen' <-> k ∈ seen \/ k ∈ (fun c => (c_clientId c, c_requestSeq c)) <$> h).
Proof.
  revert seen s; induction h as [|c h IH]; intros seen s Hr; [exists seen; split; [done|]; intros k; set_solver|].
  destruct (IH _ _ (remembers_apply seen c s Hr)) as (seen' & Hr' & He); exists seen'; split; [exact Hr'|].
  intros k; rewrite He; simpl; rewrite elem_of_cons; set_solver.
Qed.

Lemma run_first_occurrences h s seen :
  clients_in_order seen h -> remembers seen s ->
  data_map (run_cmds h s) = exec_all (first_occurrences seen h) (data_map s).
Proof.
  revert s seen; induction h as [|c h IH]; intros s seen Hord Hr; [done|].
  destruct Hord as [Hc Hord]; pose proof (remembers_apply seen c s Hr) as Hr1; cbn [run_cmds fold_left first_occurrences].
  change (fold_left _ h _) with (run_cmds h (KvStore_apply_cmd c s).1); rewrite (IH _ _ Hord Hr1).
  case (N.eqb_spec (c_clientId c) 0); intros Hz; [by destruct (apply_runs c s) as [-> _]; [left|]|].
  destruct Hc as [|Hc]; [done|]; pose proof (already_seen seen c s Hr Hz Hc) as Ha; simpl; case_bool_decide as Hin.
  - by destruct (apply_runs c s) as [-> _]; [right; tauto|].
  - rewrite apply_already by (done || (apply Ha; by destruct (decide ((c_clientId c, c_requestSeq c) ∈ seen)))); done.
Qed.

Lemma remembers_init : remembers ∅ KvStore_init.
Proof. split; [intros k n r _; simpl; by rewrite lookup_empty|by intros k q _ ?%not_elem_of_empty]. Qed.

(** The store's memory of a client does not change while no newer request comes. *)
Lemma lastSeq_kept k n r h s :
  k <> 0 -> lastSeq_ s !! k = Some (n, r) -> Forall (fun c => c_clientId c = k -> c_requestSeq c <= n) h ->
  lastSeq_ (run_cmds h s) !! k = Some (n, r).
Proof.
  intros Hk Hs Hh; revert s Hs; induction Hh as [|c h Hc _ IH]; intros s Hs; [done|]; apply IH.
  destruct (decide (c_clientId c = 0)) as [Hz|Hz]; [destruct (apply_runs c s) as [_ Hl]; [by left|]; by rewrite Hl, Hz|].
  destruct (decide (already s c)) as [Hal|Hal]; [by rewrite apply_already|].
  destruct (apply_runs c s) as [_ Hl]; [by right|]; rewrite Hl, (proj2 (N.eqb_neq _ _) Hz), lookup_insert_ne; [done|].
  intros E; apply Hal; exists n, r; rewrite E; split; [done|by apply Hc].
Qed.

(** The request at a place of a history in order. *)
Lemma in_order_at (seen seen' : gset (N * N)) h c h' :
  clients_in_order seen (h ++ c :: h') ->
  (forall k, k ∈ seen' <-> k ∈ seen \/ k ∈ (fun x => (c_clientId x, c_requestSeq x)) <$> h) -> c_clientId c <> 0 ->
  (c_clientId c, c_requestSeq c) ∈ seen' \/ set_Forall (fun k => k.1 = c_clientId c -> k.2 < c_requestSeq c) seen'.
Proof.
  revert seen; induction h as [|a h IH]; intros seen [Ha Hord] He Hz.
  - assert (seen' = seen) as -> by set_solver; by destruct Ha.
  - apply (IH _ Hord); [|done]; intros k; rewrite He; simpl; rewrite elem_of_cons; set_solver.
Qed.

(** The answer of the store to [c]. *)
Definition answer (c : KvCommand) (s : KvStore) : bytes := (KvStore_apply_cmd c s).2.

(** A new request is answered with the result of its execution, which the store
    keeps. *)
Lemma answer_new c s :
  c_clientId c <> 0 -> ~ already s c ->
  answer c s = (execute c (data_map s)).2 /\
  lastSeq_ (KvStore_apply_cmd c s).1 !! c_clientId c = Some (c_requestSeq c, answer c s).
Proof.
  intros Hz Hal; assert (answer c s = (execute c (data_map s)).2) as E.
  { unfold answer, KvStore_apply_cmd; destruct (execute c (data_map s)) as [d r]; simpl.
    rewrite (proj2 (N.eqb_neq _ _) Hz); simpl; destruct (lastSeq_ s !! c_clientId c) as [[n r']|] eqn:En; [|done].
    destruct (N.leb_spec (c_requestSeq c) n); [|done]; destruct Hal; by exists n, r'. }
  split; [done|]; destruct (apply_runs c s) as [_ ->]; [by right|].
  by rewrite (proj2 (N.eqb_neq _ _) Hz), lookup_insert_eq, E.
Qed.

Lemma answer_cached c s n r :
  c_clientId c <> 0 -> lastSeq_ s !! c_clientId c = Some (n, r) -> c_requestSeq c <= n -> answer c s = r.
Proof.
  intros Hz Hn Hle; unfold answer, KvStore_apply_cmd; rewrite Hn.
  rewrite (proj2 (N.eqb_neq _ _) Hz); simpl; by rewrite (proj2 (N.leb_le _ _) Hle).
Qed.

(** C11: exactly-once semantics.  Over any committed history in which each client
    gives its new requests increasing numbers, with any number of retries of any
    request at any later place (also after newer requests of the same client), the
    store holds what executing each distinct request exactly once, in the order of
    first occurrence, produces.  A request is answered with the result of its own
    execution, and so is every retry that comes before a newer request of its
    client. *)
Theorem run_cmds_exactly_once (h : list KvCommand) (Hord : clients_in_order ∅ h) :
  data_map (run_cmds h KvStore_init) = exec_all (first_occurrences ∅ h) ∅ /\
  forall h1 c h2 c' h3, h = h1 ++ c :: h2 ++ c' :: h3 -> c_clientId c <> 0 ->
    (c_clientId c, c_requestSeq c) ∉ (fun x => (c_clientId x, c_requestSeq x)) <$> h1 ->
    (c_clientId c', c_requestSeq c') = (c_clientId c, c_requestSeq c) ->
    Forall (fun x => c_clientId x = c_clientId c -> c_requestSeq x <= c_requestSeq c) h2 ->
    let r := (execute c (data_map (run_cmds h1 KvStore_init))).2 in
    answer c (run_cmds h1 KvStore_init) = r /\ answer c' (run_cmds (h1 ++ c :: h2) KvStore_init) = r.
Proof.
  split; [apply run_first_occurrences; [done|apply remembers_init]|].
  intros h1 c h2 c' h3 -> Hz Hnew [= Ei Es] H2 r; set (s1 := run_cmds h1 KvStore_init).
  assert (~ already s1 c) as Hal.
  { destruct (remembers_run ∅ h1 _ remembers_init) as (seen & Hr & He).
    rewrite (already_seen seen c s1 Hr Hz); [rewrite He; intros [?%not_elem_of_empty|?]; done|].
    apply (in_order_at ∅ seen h1 c (h2 ++ c' :: h3) Hord); [intros k; by rewrite He|done]. }
  destruct (answer_new c s1 Hz Hal) as [E1 Hl]; split; [done|].
  assert (run_cmds (h1 ++ c :: h2) KvStore_init = run_cmds h2 (KvStore_apply_cmd c s1).1) as -> by (unfold run_cmds; by rewrite fold_left_app).
  transitivity (answer c s1); [|exact E1]; apply (answer_cached c' _ (c_requestSeq c)); rewrite ?Ei, ?Es; [done| |done]; by apply lastSeq_kept.
Qed.

(** The last command is a retry of a request after a newer one of its client. *)
Definition retried : list KvCommand :=
  [put_cmd "k" "1" 42 1; put_cmd "k" "2" 43 1; put_cmd "k" "1" 42 1; put_cmd "k" "3" 42 2; put_cmd "k" "1" 42 1].

Lemma run_cmds_exactly_once_witness :
  data_map (run_cmds retried KvStore_init) = exec_all (first_occurrences ∅ retried) ∅ /\
  length (first_occurrences ∅ retried) = 3%nat /\
  answer (put_cmd "k" "1" 42 1) (run_cmds (take 2 retried) KvStore_init) = str "OK".
Proof.
  destruct (run_cmds_exactly_once retried) as [Hd Ha].
  - repeat split; by_decide.
  - split; [exact Hd|]; split; [vm_compute; reflexivity|].
    destruct (Ha [] (put_cmd "k" "1" 42 1) [put_cmd "k" "2" 43 1] (put_cmd "k" "1" 42 1) (drop 3 retried)) as [_ E];
      [reflexivity|discriminate|by_decide|reflexivity|repeat constructor; discriminate|exact E].
Defined.
