(* ===== verification/RaftNode.v ===== *)
(** * raft/raft_node.h and raft_node.cpp: one node of a Raft group

    Each method is a function of the object's state.  The mutex makes every
    critical section atomic and every method below runs its sections one after
    the other; what a method sends is returned as a list of [Send] values, each
    with the variables its callback captures, and the callbacks are functions of
    their own ([on...]).  Methods that reach the state machine or decode bytes
    return an [outcome], because those can throw. *)
From stdpp Require Import base tactics list gmap numbers strings sorting.
From Stdlib Require Import Ascii NArith Lia.
From S2P Require Import Prelude.
From S2P Require Import Buffer.
From S2P Require Import Types.
From S2P Require Import RpcMessages.
From S2P Require Import PersistentLog.
From S2P Require Import StateMachine.

Local Open Scope N_scope.

(** ** Data *)
Inductive Role : Type := Follower | Candidate | Leader.

#[global] Instance Role_eq_dec : EqDecision Role.
Proof. solve_decision. Defined.

Record RaftOptions := mkRaftOptions {
  id : NodeId;
  electionTimeoutMinMs : N;
  electionTimeoutMaxMs : N;
  heartbeatIntervalMs : N;
  snapshotThresholdEntries : N
}.

Record ProposeResult := mkProposeResult {
  pr_isLeader : bool;
  pr_leaderHint : NodeId;
  pr_index : LogIndex;
  pr_term : Term
}.

Record ReadBarrier := mkReadBarrier { targetCommit : LogIndex; acks : N }.

(** The object.  Beside the fields of the class: [now_] is what the steady clock
    shows, [rng_] are the coming draws of the random generator, [lastHeartbeat_]
    is the local variable of the timer thread, and [votes_] holds the counters
    that [becomeCandidate] allocates with [make_shared]; a call's counter is
    named by its [newTerm], which no other call of the same object has. *)
Record RaftNode (S : Type) := mkRaftNode {
  opts_ : RaftOptions;
  sm_ : S;
  log_ : PersistentLog;
  role_ : Role;
  config_ : ClusterConfig;
  leaderId_ : NodeId;
  commitIndex_ : LogIndex;
  lastApplied_ : LogIndex;
  electionDeadline_ : N;
  nextIndex_ : gmap N N;
  matchIndex_ : gmap N N;
  pendingResults_ : gmap N (list ascii);
  pendingReadBarriers_ : list ReadBarrier;
  running_ : bool;
  rng_ : list N;
  now_ : N;
  lastHeartbeat_ : N;
  votes_ : gmap N N
}.
Arguments mkRaftNode {S}.
Arguments opts_ {S} _.
Arguments sm_ {S} _.
Arguments log_ {S} _.
Arguments role_ {S} _.
Arguments config_ {S} _.
Arguments leaderId_ {S} _.
Arguments commitIndex_ {S} _.
Arguments lastApplied_ {S} _.
Arguments electionDeadline_ {S} _.
Arguments nextIndex_ {S} _.
Arguments matchIndex_ {S} _.
Arguments pendingResults_ {S} _.
Arguments pendingReadBarriers_ {S} _.
Arguments running_ {S} _.
Arguments rng_ {S} _.
Arguments now_ {S} _.
Arguments lastHeartbeat_ {S} _.
Arguments votes_ {S} _.

Definition set_sm {S} (x : S) (n : RaftNode S) : RaftNode S :=
  mkRaftNode
    (opts_ n) x (log_ n) (role_ n) (config_ n) (leaderId_ n) (commitIndex_ n) (lastApplied_
    n) (electionDeadline_ n) (nextIndex_ n) (matchIndex_ n) (pendingResults_ n)
    (pendingReadBarriers_ n) (running_ n) (rng_ n) (now_ n) (lastHeartbeat_ n) (votes_ n).
Definition set_log {S} (x : PersistentLog) (n : RaftNode S) : RaftNode S :=
  mkRaftNode
    (opts_ n) (sm_ n) x (role_ n) (config_ n) (leaderId_ n) (commitIndex_ n) (lastApplied_
    n) (electionDeadline_ n) (nextIndex_ n) (matchIndex_ n) (pendingResults_ n)
    (pendingReadBarriers_ n) (running_ n) (rng_ n) (now_ n) (lastHeartbeat_ n) (votes_ n).
Definition set_role {S} (x : Role) (n : RaftNode S) : RaftNode S :=
  mkRaftNode
    (opts_ n) (sm_ n) (log_ n) x (config_ n) (leaderId_ n) (commitIndex_ n) (lastApplied_ n)
    (electionDeadline_ n) (nextIndex_ n) (matchIndex_ n) (pendingResults_ n)
    (pendingReadBarriers_ n) (running_ n) (rng_ n) (now_ n) (lastHeartbeat_ n) (votes_ n).
Definition set_config {S} (x : ClusterConfig) (n : RaftNode S) : RaftNode S :=
  mkRaftNode
    (opts_ n) (sm_ n) (log_ n) (role_ n) x (leaderId_ n) (commitIndex_ n) (lastApplied_ n)
    (electionDeadline_ n) (nextIndex_ n) (matchIndex_ n) (pendingResults_ n)
    (pendingReadBarriers_ n) (running_ n) (rng_ n) (now_ n) (lastHeartbeat_ n) (votes_ n).
Definition set_leaderId {S} (x : NodeId) (n : RaftNode S) : RaftNode S :=
  mkRaftNode
    (opts_ n) (sm_ n) (log_ n) (role_ n) (config_ n) x (commitIndex_ n) (lastApplied_ n)
    (electionDeadline_ n) (nextIndex_ n) (matchIndex_ n) (pendingResults_ n)
    (pendingReadBarriers_ n) (running_ n) (rng_ n) (now_ n) (lastHeartbeat_ n) (votes_ n).
Definition set_commitIndex {S} (x : LogIndex) (n : RaftNode S) : RaftNode S :=
  mkRaftNode
    (opts_ n) (sm_ n) (log_ n) (role_ n) (config_ n) (leaderId_ n) x (lastApplied_ n)
    (electionDeadline_ n) (nextIndex_ n) (matchIndex_ n) (pendingResults_ n)
    (pendingReadBarriers_ n) (running_ n) (rng_ n) (now_ n) (lastHeartbeat_ n) (votes_ n).
Definition set_lastApplied {S} (x : LogIndex) (n : RaftNode S) : RaftNode S :=
  mkRaftNode
    (opts_ n) (sm_ n) (log_ n) (role_ n) (config_ n) (leaderId_ n) (commitIndex_ n) x
    (electionDeadline_ n) (nextIndex_ n) (matchIndex_ n) (pendingResults_ n)
    (pendingReadBarriers_ n) (running_ n) (rng_ n) (now_ n) (lastHeartbeat_ n) (votes_ n).
Definition set_electionDeadline {S} (x : N) (n : RaftNode S) : RaftNode S :=
  mkRaftNode
    (opts_ n) (sm_ n) (log_ n) (role_ n) (config_ n) (leaderId_ n) (commitIndex_ n)
    (lastApplied_ n) x (nextIndex_ n) (matchIndex_ n) (pendingResults_ n)
    (pendingReadBarriers_ n) (running_ n) (rng_ n) (now_ n) (lastHeartbeat_ n) (votes_ n).
Definition set_nextIndex {S} (x : gmap N N) (n : RaftNode S) : RaftNode S :=
  mkRaftNode
    (opts_ n) (sm_ n) (log_ n) (role_ n) (config_ n) (leaderId_ n) (commitIndex_ n)
    (lastApplied_ n) (electionDeadline_ n) x (matchIndex_ n) (pendingResults_ n)
    (pendingReadBarriers_ n) (running_ n) (rng_ n) (now_ n) (lastHeartbeat_ n) (votes_ n).
Definition set_matchIndex {S} (x : gmap N N) (n : RaftNode S) : RaftNode S :=
  mkRaftNode
    (opts_ n) (sm_ n) (log_ n) (role_ n) (config_ n) (leaderId_ n) (commitIndex_ n)
    (lastApplied_ n) (electionDeadline_ n) (nextIndex_ n) x (pendingResults_ n)
    (pendingReadBarriers_ n) (running_ n) (rng_ n) (now_ n) (lastHeartbeat_ n) (votes_ n).
Definition set_pendingResults {S} (x : gmap N (list ascii)) (n : RaftNode S) : RaftNode S :=
  mkRaftNode
    (opts_ n) (sm_ n) (log_ n) (role_ n) (config_ n) (leaderId_ n) (commitIndex_ n)
    (lastApplied_ n) (electionDeadline_ n) (nextIndex_ n) (matchIndex_ n) x
    (pendingReadBarriers_ n) (running_ n) (rng_ n) (now_ n) (lastHeartbeat_ n) (votes_ n).
Definition set_pendingReadBarriers {S} (x : list ReadBarrier) (n : RaftNode S) : RaftNode S :=
  mkRaftNode
    (opts_ n) (sm_ n) (log_ n) (role_ n) (config_ n) (leaderId_ n) (commitIndex_ n)
    (lastApplied_ n) (electionDeadline_ n) (nextIndex_ n) (matchIndex_ n) (pendingResults_
    n) x (running_ n) (rng_ n) (now_ n) (lastHeartbeat_ n) (votes_ n).
Definition set_running {S} (x : bool) (n : RaftNode S) : RaftNode S :=
  mkRaftNode
    (opts_ n) (sm_ n) (log_ n) (role_ n) (config_ n) (leaderId_ n) (commitIndex_ n)
    (lastApplied_ n) (electionDeadline_ n) (nextIndex_ n) (matchIndex_ n) (pendingResults_
    n) (pendingReadBarriers_ n) x (rng_ n) (now_ n) (lastHeartbeat_ n) (votes_ n).
Definition set_rng {S} (x : list N) (n : RaftNode S) : RaftNode S :=
  mkRaftNode
    (opts_ n) (sm_ n) (log_ n) (role_ n) (config_ n) (leaderId_ n) (commitIndex_ n)
    (lastApplied_ n) (electionDeadline_ n) (nextIndex_ n) (matchIndex_ n) (pendingResults_
    n) (pendingReadBarriers_ n) (running_ n) x (now_ n) (lastHeartbeat_ n) (votes_ n).
Definition set_now {S} (x : N) (n : RaftNode S) : RaftNode S :=
  mkRaftNode
    (opts_ n) (sm_ n) (log_ n) (role_ n) (config_ n) (leaderId_ n) (commitIndex_ n)
    (lastApplied_ n) (electionDeadline_ n) (nextIndex_ n) (matchIndex_ n) (pendingResults_
    n) (pendingReadBarriers_ n) (running_ n) (rng_ n) x (lastHeartbeat_ n) (votes_ n).
Definition set_lastHeartbeat {S} (x : N) (n : RaftNode S) : RaftNode S :=
  mkRaftNode
    (opts_ n) (sm_ n) (log_ n) (role_ n) (config_ n) (leaderId_ n) (commitIndex_ n)
    (lastApplied_ n) (electionDeadline_ n) (nextIndex_ n) (matchIndex_ n) (pendingResults_
    n) (pendingReadBarriers_ n) (running_ n) (rng_ n) (now_ n) x (votes_ n).
Definition set_votes {S} (x : gmap N N) (n : RaftNode S) : RaftNode S :=
  mkRaftNode
    (opts_ n) (sm_ n) (log_ n) (role_ n) (config_ n) (leaderId_ n) (commitIndex_ n)
    (lastApplied_ n) (electionDeadline_ n) (nextIndex_ n) (matchIndex_ n) (pendingResults_
    n) (pendingReadBarriers_ n) (running_ n) (rng_ n) (now_ n) (lastHeartbeat_ n) x.

(** What a node hands to its transport, with the captures of the callback. *)
Inductive Send : Type :=
| SendRequestVote (peer : NodeId) (req : RequestVoteReq) (newTerm : Term) (majority : N)
| SendAppendEntries (peer : NodeId) (req : AppendEntriesReq) (term : Term)
| SendInstallSnapshot (peer : NodeId) (req : InstallSnapshotReq) (idx : LogIndex).

Section node.
Context {S : Type} `{StateMachine S}.
Implicit Types n : RaftNode S.

(** ** Timers and roles *)

(** [now + dist(rng_)] with [dist] uniform on the closed interval of the two
    timeouts. *)
Definition resetElectionDeadline n : RaftNode S :=
  let lo := electionTimeoutMinMs (opts_ n) in
  let hi := electionTimeoutMaxMs (opts_ n) in
  let draw := match rng_ n with [] => 0 | r :: _ => r end in
  let n := set_rng (tail (rng_ n)) n in
  set_electionDeadline (now_ n + (lo + draw mod (hi - lo + 1))) n.

Definition becomeFollower (term : Term) (leader : NodeId) n : RaftNode S :=
  let n := if currentTerm_ (log_ n) <? term then set_log (setHardState term 0 (log_ n)) n else n in
  let n := set_role Follower n in
  let n := set_leaderId leader n in
  resetElectionDeadline n.

(** ** Applying committed entries *)

Definition applyConfigEntry (e : LogEntry) n : outcome (RaftNode S) :=
  p ← ClusterConfig_decode (Reader_of (e_data e));
  let n := set_config p.1 n in
  if decide (role_ n = Leader) then
    mret (fold_left (fun n v =>
      match nextIndex_ n !! v with
      | Some _ => n
      | None => set_matchIndex (<[v := 0]> (matchIndex_ n))
                  (set_nextIndex (<[v := add64 (lastIndex (log_ n)) 1]> (nextIndex_ n)) n)
      end) (voters (config_ n)) n)
  else mret n.

(** The first critical section: [while (lastApplied_ < commitIndex_)].  A round
    that goes on consumes one entry of the log, so the number of entries bounds
    the rounds. *)
Fixpoint takeCommitted (fuel : nat) (toApply : list LogEntry) n : list LogEntry * RaftNode S :=
  match fuel with
  | O => (toApply, n)
  | Datatypes.S fuel' =>
      if lastApplied_ n <? commitIndex_ n then
        match at_ (add64 (lastApplied_ n) 1) (log_ n) with
        | None => (toApply, n)
        | Some e => takeCommitted fuel' (toApply ++ [e]) (set_lastApplied (add64 (lastApplied_ n) 1) n)
        end
      else (toApply, n)
  end.

(** One round of the loop over [toApply]. *)
Definition applyEntry (e : LogEntry) n : outcome (RaftNode S) :=
  q ← match e_type e with
      | Command => r ← sm_apply (e_data e) (e_index e) (sm_ n); mret (set_sm r.1 n, r.2)
      | Config => n ← applyConfigEntry e n; mret (n, [])
      | _ => mret (n, [])
      end;
  let '(n, result) := q in
  let n := set_pendingResults (<[e_index e := result]> (pendingResults_ n)) n in
  mret (set_pendingReadBarriers
          (filter (fun b => ~ (targetCommit b <= e_index e)) (pendingReadBarriers_ n)) n).

Fixpoint applyAll (es : list LogEntry) n : outcome (RaftNode S) :=
  match es with
  | [] => mret n
  | e :: es' => n ← applyEntry e n; applyAll es' n
  end.

(** Without interruption: the code takes the entries under [mu_] and applies them
    after it has released it; [RaftSections.applyCommittedEntries_p] is cut there. *)
Definition applyCommittedEntries n : outcome (RaftNode S) :=
  let '(toApply, n) := takeCommitted (Datatypes.S (length (entries_ (log_ n)))) [] n in
  applyAll toApply n.

(** ** Commit index *)

(** [std::sort] with [std::greater]. *)
Definition sort_desc (l : list LogIndex) : list LogIndex := merge_sort N.ge l.

Definition commitCandidate n : option LogIndex :=
  let others := filter (fun p => p.1 <> id (opts_ n)) (map_to_list (matchIndex_ n)) in
  let matches := sort_desc (lastIndex (log_ n) :: others.*2) in
  let majorityOff := nlen (voters (config_ n)) / 2 in
  if nlen matches <=? majorityOff then None else matches !! N.to_nat majorityOff.

Definition tryAdvanceCommitIndex n : outcome (RaftNode S) :=
  if decide (role_ n = Leader) then
    match commitCandidate n with
    | None => mret n
    | Some candidate =>
        if (commitIndex_ n <? candidate) && (termAt candidate (log_ n) =? currentTerm_ (log_ n))
        then applyCommittedEntries (set_commitIndex candidate n)
        else mret n
    end
  else mret n.

(** ** Proposals *)
Definition propose (commandBytes : bytes) (type : EntryType) n : outcome (RaftNode S * ProposeResult) :=
  if decide (role_ n = Leader) then
    let e := mkLogEntry (currentTerm_ (log_ n)) (add64 (lastIndex (log_ n)) 1) type commandBytes in
    let n := set_log (appendAndSync [e] (log_ n)) n in
    n ← tryAdvanceCommitIndex n;
    mret (n, mkProposeResult true (id (opts_ n)) (e_index e) (e_term e))
  else mret (n, mkProposeResult false (leaderId_ n) 0 0).

Definition addServer (newId : NodeId) (address : bytes) n : outcome (RaftNode S * ProposeResult) :=
  let newCfg := config_ n in
  let vs := if hasVoter newCfg newId then voters newCfg else voters newCfg ++ [newId] in
  let found := existsb (fun p => p.1 =? newId) (addresses newCfg) in
  let ads := (fun p : NodeId * bytes => if p.1 =? newId then (p.1, address) else p) <$> addresses newCfg in
  let ads := if found then ads else ads ++ [(newId, address)] in
  propose (ClusterConfig_encode (mkClusterConfig vs ads) []) Config n.

Definition removeServer (oldId : NodeId) n : outcome (RaftNode S * ProposeResult) :=
  let newCfg := config_ n in
  let vs := filter (fun v => v <> oldId) (voters newCfg) in
  propose (ClusterConfig_encode (mkClusterConfig vs (addresses newCfg)) []) Config n.

(** ** Replication *)
Definition nextIndexOf (peer : NodeId) n : LogIndex :=
  match nextIndex_ n !! peer with Some ni => ni | None => 1 end.

Definition sendAppendEntriesTo (peer : NodeId) n : list Send :=
  if decide (role_ n = Leader) then
    let term := currentTerm_ (log_ n) in
    let ni := nextIndexOf peer n in
    let prevIdx := sub64 ni 1 in
    let prevTerm := termAt prevIdx (log_ n) in
    let entries := entriesAfter prevIdx 200 (log_ n) in
    let commit := commitIndex_ n in
    [SendAppendEntries peer (mkAppendEntriesReq term (id (opts_ n)) prevIdx prevTerm entries commit) term]
  else [].

Definition sendInstallSnapshotTo (peer : NodeId) n : list Send :=
  if decide (role_ n = Leader) then
    let term := currentTerm_ (log_ n) in
    let idx := snapshotIndex_ (log_ n) in
    let snapTerm := snapshotTerm_ (log_ n) in
    let bytes := match loadSnapshotBytes (log_ n) with Some s => s | None => sm_snapshot (sm_ n) end in
    [SendInstallSnapshot peer (mkInstallSnapshotReq term (id (opts_ n)) idx snapTerm bytes) idx]
  else [].

Definition broadcastAppendEntries n : list Send :=
  if decide (role_ n = Leader) then
    flat_map (fun peer =>
      if peer =? id (opts_ n) then []
      else if nextIndexOf peer n <=? snapshotIndex_ (log_ n) then sendInstallSnapshotTo peer n
      else sendAppendEntriesTo peer n) (voters (config_ n))
  else [].

(** The callback of [sendAppendEntriesTo]. *)
Definition onAppendEntriesResp (peer : NodeId) (term : Term) (ok : bool) (resp : AppendEntriesResp) n :
    outcome (RaftNode S) :=
  if negb ok then mret n
  else if currentTerm_ (log_ n) <? aer_term resp then mret (becomeFollower (aer_term resp) 0 n)
  else if negb (bool_decide (role_ n = Leader)) || negb (currentTerm_ (log_ n) =? term) then mret n
  else if aer_success resp then
    let n := set_matchIndex (<[peer := aer_matchIndex resp]> (matchIndex_ n)) n in
    let n := set_nextIndex (<[peer := add64 (aer_matchIndex resp) 1]> (nextIndex_ n)) n in
    tryAdvanceCommitIndex n
  else
    let newNext := if 0 <? aer_conflictIndex resp then aer_conflictIndex resp else 1 in
    mret (set_nextIndex (<[peer := N.max 1 newNext]> (nextIndex_ n)) n).

(** The callback of [sendInstallSnapshotTo]. *)
Definition onInstallSnapshotResp (peer : NodeId) (idx : LogIndex) (ok : bool) (resp : InstallSnapshotResp) n :
    RaftNode S :=
  if negb ok then n
  else if currentTerm_ (log_ n) <? isr_term resp then becomeFollower (isr_term resp) 0 n
  else
    let n := set_matchIndex (<[peer := idx]> (matchIndex_ n)) n in
    set_nextIndex (<[peer := add64 idx 1]> (nextIndex_ n)) n.

(** ** Elections *)
Definition becomeLeader n : outcome (RaftNode S * list Send) :=
  if decide (role_ n = Candidate) then
    let n := set_role Leader n in
    let n := set_leaderId (id (opts_ n)) n in
    let cfg := config_ n in
    let last := lastIndex (log_ n) in
    let n := set_nextIndex ∅ n in
    let n := set_matchIndex ∅ n in
    let n := fold_left (fun n v =>
      set_matchIndex (<[v := 0]> (matchIndex_ n))
        (set_nextIndex (<[v := add64 last 1]> (nextIndex_ n)) n)) (voters cfg) n in
    q ← propose [] NoOp n;
    n ← tryAdvanceCommitIndex q.1;
    mret (n, broadcastAppendEntries n)
  else mret (n, []).

Definition becomeCandidate n : outcome (RaftNode S * list Send) :=
  let me := id (opts_ n) in
  let newTerm := add64 (currentTerm_ (log_ n)) 1 in
  let n := set_log (setHardState newTerm me (log_ n)) n in
  let n := set_role Candidate n in
  let n := set_leaderId 0 n in
  let n := resetElectionDeadline n in
  let cfg := config_ n in
  let lastIdx := lastIndex (log_ n) in
  let lastTerm := lastTerm (log_ n) in
  if negb (hasVoter cfg me) && (0 <? nlen (voters cfg)) then mret (n, [])
  else
    let n := set_votes (<[newTerm := 1]> (votes_ n)) n in
    let majority := nlen (voters cfg) / 2 + 1 in
    if majority <=? 1 then becomeLeader n
    else
      let req := mkRequestVoteReq newTerm me lastIdx lastTerm in
      mret (n, flat_map (fun peer =>
        if peer =? me then [] else [SendRequestVote peer req newTerm majority]) (voters cfg)).

(** The callback of the [RequestVote] calls of [becomeCandidate], without
    interruption: the code gives up [mu_] between the count and [becomeLeader]
    (raft_node.cpp:101), where [RaftSections.onRequestVoteResp_p] is cut. *)
Definition onRequestVoteResp (newTerm : Term) (majority : N) (ok : bool) (resp : RequestVoteResp) n :
    outcome (RaftNode S * list Send) :=
  if negb ok then mret (n, [])
  else if negb (bool_decide (role_ n = Candidate)) || negb (currentTerm_ (log_ n) =? newTerm) then mret (n, [])
  else if newTerm <? rvr_term resp then mret (becomeFollower (rvr_term resp) 0 n, [])
  else if rvr_voteGranted resp then
    let v := default 0 (votes_ n !! newTerm) + 1 in
    let n := set_votes (<[newTerm := v]> (votes_ n)) n in
    if majority <=? v then becomeLeader n else mret (n, [])
  else mret (n, []).

(** ** RPC handlers *)
Definition handleRequestVote (req : RequestVoteReq) n : RaftNode S * RequestVoteResp :=
  if rv_term req <? currentTerm_ (log_ n) then (n, mkRequestVoteResp (currentTerm_ (log_ n)) false)
  else
    let n := if currentTerm_ (log_ n) <? rv_term req then becomeFollower (rv_term req) 0 n else n in
    let canVote := (votedFor_ (log_ n) =? 0) || (votedFor_ (log_ n) =? rv_candidateId req) in
    let myLast := lastIndex (log_ n) in
    let myLastTerm := lastTerm (log_ n) in
    let logOk := (myLastTerm <? rv_lastLogTerm req) ||
                 ((rv_lastLogTerm req =? myLastTerm) && (myLast <=? rv_lastLogIndex req)) in
    if canVote && logOk then
      let n := set_log (setHardState (currentTerm_ (log_ n)) (rv_candidateId req) (log_ n)) n in
      let n := resetElectionDeadline n in
      (n, mkRequestVoteResp (currentTerm_ (log_ n)) true)
    else (n, mkRequestVoteResp (currentTerm_ (log_ n)) false).

(** [while (ci > snapshotIndex + 1 && termAt(ci - 1) == t) ci--;] *)
Fixpoint conflictStart (fuel : nat) (t : Term) (ci : LogIndex) (l : PersistentLog) : LogIndex :=
  match fuel with
  | O => ci
  | Datatypes.S fuel' =>
      if (add64 (snapshotIndex_ l) 1 <? ci) && (termAt (sub64 ci 1) l =? t)
      then conflictStart fuel' t (sub64 ci 1) l else ci
  end.

(** The consistency check of [handleAppendEntries]: the early returns, in the
    order of the fields of [AppendEntriesResp]. *)
Definition checkPrev (req : AppendEntriesReq) (l : PersistentLog) : option AppendEntriesResp :=
  if 0 <? ae_prevLogIndex req then
    let t := termAt (ae_prevLogIndex req) l in
    if (t =? 0) && (snapshotIndex_ l <? ae_prevLogIndex req) then
      Some (mkAppendEntriesResp (currentTerm_ l) false (add64 (lastIndex l) 1) 0 (lastIndex l))
    else if negb (t =? 0) && negb (t =? ae_prevLogTerm req) then
      let ci := conflictStart (Datatypes.S (length (entries_ l))) t (ae_prevLogIndex req) l in
      Some (mkAppendEntriesResp (currentTerm_ l) false ci t 0)
    else None
  else None.

Definition handleAppendEntries (req : AppendEntriesReq) n : outcome (RaftNode S * AppendEntriesResp) :=
  if ae_term req <? currentTerm_ (log_ n) then
    mret (n, mkAppendEntriesResp (currentTerm_ (log_ n)) false 0 0 0)
  else
    let n := becomeFollower (ae_term req) (ae_leaderId req) n in
    let n := resetElectionDeadline n in
    let n := set_leaderId (ae_leaderId req) n in
    match checkPrev req (log_ n) with
    | Some resp => mret (n, resp)
    | None =>
        let n := match ae_entries req with
                 | [] => n
                 | _ => set_log (appendAndSync (ae_entries req) (log_ n)) n
                 end in
        let newLast := match last (ae_entries req) with
                       | None => ae_prevLogIndex req
                       | Some e => e_index e
                       end in
        let n := if commitIndex_ n <? ae_leaderCommit req
                 then set_commitIndex (N.min (ae_leaderCommit req) newLast) n else n in
        n ← applyCommittedEntries n;
        mret (n, mkAppendEntriesResp (currentTerm_ (log_ n)) true newLast 0 0)
    end.

Definition handleInstallSnapshot (req : InstallSnapshotReq) n : outcome (RaftNode S * InstallSnapshotResp) :=
  if is_term req <? currentTerm_ (log_ n) then mret (n, mkInstallSnapshotResp (currentTerm_ (log_ n)))
  else
    let n := becomeFollower (is_term req) (is_leaderId req) n in
    if is_lastIncludedIndex req <=? snapshotIndex_ (log_ n) then
      mret (n, mkInstallSnapshotResp (currentTerm_ (log_ n)))
    else
      let n := set_log (compactUpTo (is_lastIncludedIndex req) (is_lastIncludedTerm req) (is_data req) (log_ n)) n in
      s ← sm_restore (is_data req);
      let n := set_sm s n in
      let n := set_commitIndex (N.max (commitIndex_ n) (is_lastIncludedIndex req)) n in
      let n := set_lastApplied (N.max (lastApplied_ n) (is_lastIncludedIndex req)) n in
      mret (n, mkInstallSnapshotResp (currentTerm_ (log_ n))).

(** ** Reads and waits

    The two waits are functions of the state in which the wait ends: [true] with
    the stored result when the predicate holds there, [false] on the timeout. *)
Definition waitApplied (index : LogIndex) n : bool * option bytes :=
  let ok := index <=? lastApplied_ n in
  (ok, if ok then pendingResults_ n !! index else None).

(** Up to the wait: the recorded target and the heartbeats, or [None] when the
    node is not the leader. *)
Definition readBarrier_begin n : option (LogIndex * list Send) :=
  if decide (role_ n = Leader) then Some (commitIndex_ n, broadcastAppendEntries n) else None.

Definition readBarrier_end (target : LogIndex) n : bool := target <=? lastApplied_ n.

(** The whole call when the state does not change meanwhile. *)
Definition linearizableReadBarrier n : bool * list Send :=
  match readBarrier_begin n with
  | None => (false, [])
  | Some (target, sends) => (readBarrier_end target n, sends)
  end.

(** ** Snapshots *)
Definition forceSnapshot n : RaftNode S :=
  let idx := lastApplied_ n in
  if idx <=? snapshotIndex_ (log_ n) then n
  else
    let term := termAt idx (log_ n) in
    let bytes := sm_snapshot (sm_ n) in
    set_log (compactUpTo idx term bytes (log_ n)) n.

Definition maybeSnapshot n : RaftNode S :=
  let last := lastApplied_ n in
  let snapIdx := snapshotIndex_ (log_ n) in
  if snapshotThresholdEntries (opts_ n) <=? sub64 last snapIdx then forceSnapshot n else n.

(** ** Life cycle *)

(** The constructor, on a directory and with a freshly constructed state
    machine. *)
Definition newRaftNode (opts : RaftOptions) (initialConfig : ClusterConfig) (d : Dir) (sm0 : S)
    (rng : list N) (now : N) : outcome (RaftNode S) :=
  l ← loadFromDisk d;
  s ← match loadSnapshotBytes l with Some b => sm_restore b | None => mret sm0 end;
  mret (mkRaftNode opts s l Follower initialConfig 0 (snapshotIndex_ l) (snapshotIndex_ l)
                   0 ∅ ∅ ∅ [] false rng now now ∅).

Definition start n : RaftNode S := resetElectionDeadline (set_running true n).

Definition stop n : RaftNode S := set_running false n.

(** One round of [runLoop] at time [now]. *)
Definition runLoopRound (now : N) n : outcome (RaftNode S * list Send) :=
  let n := set_now now n in
  q ← (if decide (role_ n = Leader) then
         if lastHeartbeat_ n + heartbeatIntervalMs (opts_ n) <=? now
         then mret (set_lastHeartbeat now n, broadcastAppendEntries n)
         else mret (n, [])
       else if electionDeadline_ n <=? now then becomeCandidate n
       else mret (n, []));
  mret (maybeSnapshot q.1, q.2).

End node.
