(* ===== verification/RaftNodeFacts.v ===== *)
(** * Facts about the methods of [RaftNode]

    Which part of the state each method touches, what the apply loop does, and
    the majority rule of [tryAdvanceCommitIndex]. *)
From stdpp Require Import base tactics list gmap numbers strings sorting.
From Stdlib Require Import Ascii NArith Lia.
From S2P Require Import Prelude.
From S2P Require Import Buffer.
From S2P Require Import Types.
From S2P Require Import RpcMessages.
From S2P Require Import PersistentLog.
From S2P Require Import StateMachine.
From S2P Require Import RaftNode.

Local Open Scope N_scope.

(** Case analysis on an [outcome] computation that succeeded. *)
Ltac inv_ok :=
  repeat match goal with
  | H : (_ ≫= _) = Ok _ |- _ => apply outcome_bind_Ok in H as (? & ? & H)
  | H : mret _ = Ok _ |- _ => injection H as H; subst
  | H : Ok _ = Ok _ |- _ => injection H as H; subst
  | H : Throw _ = Ok _ |- _ => discriminate H
  end.

Section facts.
Context {S : Type} `{StateMachine S}.
Implicit Types n : RaftNode S.

(** ** Frames

    The apply loop and the commit rule leave the persistent state, the role and
    the election bookkeeping alone. *)
Record frame n n' : Prop := {
  fr_opts : opts_ n' = opts_ n;
  fr_log : log_ n' = log_ n;
  fr_role : role_ n' = role_ n;
  fr_votes : votes_ n' = votes_ n;
  fr_running : running_ n' = running_ n;
  fr_config : Forall (fun e => e_type e <> Config) (entries_ (log_ n)) -> config_ n' = config_ n
}.

#[global] Instance frame_refl : Reflexive frame.
Proof. intros n; by split. Qed.

#[global] Instance frame_trans : Transitive frame.
Proof.
  intros a b c [] []; split; try congruence.
  intros Hc; rewrite fr_config1 by congruence; auto.
Qed.

(** ** The apply loop *)
Lemma takeCommitted_spec fuel acc n es n' :
  takeCommitted fuel acc n = (es, n') ->
  frame n n' /\ config_ n' = config_ n /\ sm_ n' = sm_ n /\ commitIndex_ n' = commitIndex_ n /\
  pendingResults_ n' = pendingResults_ n /\ nextIndex_ n' = nextIndex_ n /\
  matchIndex_ n' = matchIndex_ n /\
  exists new, es = acc ++ new /\ Forall (fun e => e ∈ entries_ (log_ n)) new.
Proof.
  revert acc n; induction fuel as [|fuel IH]; intros acc n; simpl.
  { intros [= <- <-]; split_and!; try done. exists []; by rewrite app_nil_r. }
  destruct (_ <? _); [|intros [= <- <-]; split_and!; try done; exists []; by rewrite app_nil_r].
  destruct (at_ _ _) as [e|] eqn:E; [|intros [= <- <-]; split_and!; try done; exists []; by rewrite app_nil_r].
  intros Hr; apply IH in Hr as (Hf & ? & ? & ? & ? & ? & ? & new & -> & Hnew); split_and!; try done.
  { etransitivity; [|exact Hf]; by split. }
  exists (e :: new); rewrite <- app_assoc; split; [done|]; constructor; [|done].
  unfold at_ in E; destruct (_ <=? _); [done|]; destruct (_ <=? _); [done|].
  by apply list_elem_of_lookup_2 in E.
Qed.

Lemma add_missing_peers_frame vs n :
  let n' := fold_left (fun n v =>
      match nextIndex_ n !! v with
      | Some _ => n
      | None => set_matchIndex (<[v := 0]> (matchIndex_ n))
                  (set_nextIndex (<[v := add64 (lastIndex (log_ n)) 1]> (nextIndex_ n)) n)
      end) vs n in
  opts_ n' = opts_ n /\ log_ n' = log_ n /\ role_ n' = role_ n /\ votes_ n' = votes_ n /\
  running_ n' = running_ n.
Proof.
  revert n; induction vs as [|v vs IH]; intros n; [done|]; simpl.
  destruct (IH (match nextIndex_ n !! v with
      | Some _ => n
      | None => set_matchIndex (<[v := 0]> (matchIndex_ n))
                  (set_nextIndex (<[v := add64 (lastIndex (log_ n)) 1]> (nextIndex_ n)) n)
      end)) as (-> & -> & -> & -> & ->).
  by destruct (nextIndex_ n !! v).
Qed.

Lemma applyConfigEntry_frame e n n' :
  applyConfigEntry e n = Ok n' ->
  opts_ n' = opts_ n /\ log_ n' = log_ n /\ role_ n' = role_ n /\ votes_ n' = votes_ n /\
  running_ n' = running_ n.
Proof.
  unfold applyConfigEntry; intros Hr; inv_ok; case_decide; inv_ok; [|done].
  match goal with |- context [set_config ?c n] => exact (add_missing_peers_frame (voters c) (set_config c n)) end.
Qed.

Lemma applyEntry_frame e n n' :
  applyEntry e n = Ok n' -> e ∈ entries_ (log_ n) -> frame n n'.
Proof.
  unfold applyEntry; intros Hr Hin; inv_ok.
  destruct x as [m r]; simpl in *; inv_ok.
  assert (frame n m) as Hm; [|etransitivity; [exact Hm|]; by split].
  destruct (e_type e) eqn:Et; inv_ok; simplify_eq/=; try done.
  match goal with H : applyConfigEntry _ _ = Ok _ |- _ =>
    apply applyConfigEntry_frame in H as (? & ? & ? & ? & ?) end.
  split; try done; intros Hf; rewrite Forall_forall in Hf; by apply Hf in Hin.
Qed.

Lemma applyAll_frame es n n' :
  applyAll es n = Ok n' -> Forall (fun e => e ∈ entries_ (log_ n)) es -> frame n n'.
Proof.
  intros Hr Hes; revert n Hr Hes; induction es as [|e es IH]; intros n Hr Hes; simpl in Hr; inv_ok; [done|].
  apply Forall_cons in Hes as [He Hes].
  match goal with H : applyEntry e n = Ok ?m |- _ => apply applyEntry_frame in H as Hm; [|done] end.
  etransitivity; [exact Hm|]; apply IH; [done|]; by rewrite (fr_log _ _ Hm).
Qed.

Lemma applyCommittedEntries_frame n n' : applyCommittedEntries n = Ok n' -> frame n n'.
Proof.
  unfold applyCommittedEntries; destruct (takeCommitted _ _ _) as [es m] eqn:E; intros Hr.
  apply takeCommitted_spec in E as (Hf & _ & _ & _ & _ & _ & _ & new & -> & Hnew).
  etransitivity; [exact Hf|]; eapply applyAll_frame; [exact Hr|]; by rewrite (fr_log _ _ Hf).
Qed.

Lemma tryAdvance_frame n n' : tryAdvanceCommitIndex n = Ok n' -> frame n n'.
Proof.
  unfold tryAdvanceCommitIndex; intros Hr; case_decide; inv_ok; [|done].
  destruct (commitCandidate n) as [c|]; inv_ok; [|done].
  destruct (_ && _); inv_ok; [|done].
  etransitivity; [|by apply applyCommittedEntries_frame]; by split.
Qed.

(** ** What the apply loop computes

    The closed form of the collecting loop on a well-formed log: the entries from
    [lastApplied_ + 1] up to the commit index or the end of the log. *)
Definition applyTarget n : LogIndex :=
  N.max (lastApplied_ n) (N.min (commitIndex_ n) (lastIndex (log_ n))).

Definition committedEntries n : list LogEntry :=
  take (N.to_nat (applyTarget n - lastApplied_ n))
    (drop (N.to_nat (lastApplied_ n - snapshotIndex_ (log_ n))) (entries_ (log_ n))).

Lemma set_lastApplied_same n : set_lastApplied (lastApplied_ n) n = n.
Proof. by destruct n. Qed.

Lemma takeCommitted_eq k fuel acc n :
  pl_wf (log_ n) -> snapshotIndex_ (log_ n) <= lastApplied_ n -> commitIndex_ n < U64 ->
  N.to_nat (applyTarget n - lastApplied_ n) = k -> (k < fuel)%nat ->
  takeCommitted fuel acc n = (acc ++ committedEntries n, set_lastApplied (applyTarget n) n).
Proof.
  revert fuel acc n; induction k as [|k IH]; intros fuel acc n Hwf Hla Hcb Hk Hf;
    (destruct fuel as [|fuel]; [lia|]); simpl; unfold committedEntries; rewrite Hk.
  - rewrite take_0, app_nil_r.
    assert (applyTarget n = lastApplied_ n) as Ht by (unfold applyTarget in *; lia).
    rewrite Ht, set_lastApplied_same.
    case (N.ltb_spec _ _); [|done]; intros Hlt.
    destruct (at_ _ _) as [e|] eqn:E; [|done].
    pose proof (wf_bound _ Hwf); pose proof (lastIndex_wf _ Hwf) as Hli.
    unfold applyTarget in Ht.
    rewrite add64_small in E by lia.
    assert (is_Some (at_ (lastApplied_ n + 1) (log_ n))) as Hs by eauto.
    apply at_range in Hs; [lia|done|lia].
  - pose proof (wf_bound _ Hwf); pose proof (lastIndex_wf _ Hwf) as Hli.
    assert (lastApplied_ n < commitIndex_ n /\ lastApplied_ n < lastIndex (log_ n)) as [Hc Hl]
      by (unfold applyTarget in Hk; lia).
    case (N.ltb_spec _ _); [intros _|lia]; rewrite add64_small by lia.
    destruct (proj2 (at_range (lastApplied_ n + 1) (log_ n) Hwf ltac:(lia))) as [e He]; [lia|].
    rewrite He; rewrite at_spec in He by lia; case_decide; [|lia].
    replace (N.to_nat (lastApplied_ n + 1 - snapshotIndex_ (log_ n) - 1))
      with (N.to_nat (lastApplied_ n - snapshotIndex_ (log_ n))) in He by lia.
    set (m := set_lastApplied (lastApplied_ n + 1) n).
    assert (applyTarget m = applyTarget n) as Ht by (unfold applyTarget, m in *; simpl; lia).
    rewrite (IH fuel _ m) by (try done; try lia; rewrite ?Ht; unfold m; simpl; lia).
    unfold committedEntries; rewrite Ht; f_equal; unfold m; simpl.
    rewrite <- app_assoc; f_equal; simpl.
    rewrite (drop_S _ e _ He); simpl.
    replace (N.to_nat (applyTarget n - (lastApplied_ n + 1))) with k by lia.
    by replace (N.to_nat (lastApplied_ n + 1 - snapshotIndex_ (log_ n)))
      with (Datatypes.S (N.to_nat (lastApplied_ n - snapshotIndex_ (log_ n)))) by lia.
Qed.

Lemma applyCommittedEntries_eq n :
  pl_wf (log_ n) -> snapshotIndex_ (log_ n) <= lastApplied_ n -> commitIndex_ n < U64 ->
  applyCommittedEntries n = applyAll (committedEntries n) (set_lastApplied (applyTarget n) n).
Proof.
  intros Hwf Hla Hc; unfold applyCommittedEntries.
  rewrite (takeCommitted_eq _ _ _ _ Hwf Hla Hc eq_refl); [done|].
  pose proof (lastIndex_wf _ Hwf); unfold applyTarget, nlen in *; lia.
Qed.

(** The effect of entries on the state machine alone: commands in order, other
    entries skipped. *)
Fixpoint sm_run (es : list LogEntry) (s : S) : outcome S :=
  match es with
  | [] => mret s
  | e :: es' =>
      match e_type e with
      | Command => r ← sm_apply (e_data e) (e_index e) s; sm_run es' r.1
      | _ => sm_run es' s
      end
  end.

Lemma applyConfigEntry_keeps e n n' :
  applyConfigEntry e n = Ok n' ->
  sm_ n' = sm_ n /\ lastApplied_ n' = lastApplied_ n /\ pendingResults_ n' = pendingResults_ n /\
  commitIndex_ n' = commitIndex_ n.
Proof.
  unfold applyConfigEntry; intros Hr; inv_ok; case_decide; inv_ok; [|done].
  match goal with |- context [fold_left ?f ?vs ?m] => set (m0 := m); generalize vs end.
  intros vs; change (sm_ n) with (sm_ m0); change (lastApplied_ n) with (lastApplied_ m0);
    change (pendingResults_ n) with (pendingResults_ m0); change (commitIndex_ n) with (commitIndex_ m0).
  clearbody m0; revert m0; induction vs as [|v vs IH]; intros m0; simpl; [done|].
  destruct (nextIndex_ m0 !! v); [apply IH|].
  by destruct (IH (set_matchIndex (<[v:=0]> (matchIndex_ m0))
    (set_nextIndex (<[v:=add64 (lastIndex (log_ m0)) 1]> (nextIndex_ m0)) m0))) as (-> & -> & -> & ->).
Qed.

Lemma applyEntry_sm e n n' :
  applyEntry e n = Ok n' ->
  lastApplied_ n' = lastApplied_ n /\ commitIndex_ n' = commitIndex_ n /\
  (exists r, pendingResults_ n' = <[e_index e := r]> (pendingResults_ n)) /\
  forall es, sm_run (e :: es) (sm_ n) = sm_run es (sm_ n').
Proof.
  unfold applyEntry; intros Hr; inv_ok; destruct x as [m r]; inv_ok; simpl.
  destruct (e_type e) eqn:Et; inv_ok; simplify_eq/=; try (split_and!; eauto; done).
  - match goal with H : sm_apply _ _ _ = _ |- _ => rewrite H end; split_and!; eauto.
  - match goal with H : applyConfigEntry _ _ = _ |- _ => apply applyConfigEntry_keeps in H as (-> & -> & -> & ->) end.
    split_and!; eauto.
Qed.

Lemma applyAll_sm es n n' :
  applyAll es n = Ok n' ->
  lastApplied_ n' = lastApplied_ n /\ commitIndex_ n' = commitIndex_ n /\
  sm_run es (sm_ n) = Ok (sm_ n') /\
  (forall i, is_Some (pendingResults_ n !! i) \/ i ∈ e_index <$> es -> is_Some (pendingResults_ n' !! i)).
Proof.
  revert n; induction es as [|e es IH]; intros n Hr; simpl in Hr; inv_ok.
  { split_and!; try done; set_solver. }
  match goal with H : applyEntry e n = Ok ?m |- _ => apply applyEntry_sm in H as (Hl & Hc & [r Hp] & Hs) end.
  apply IH in Hr as (Hl' & Hc' & Hs' & Hp'); rewrite Hs, Hl', Hc'; split_and!; try done.
  intros i Hi; apply Hp'; rewrite Hp, lookup_insert.
  case_decide; [by left|]; destruct Hi as [Hi|Hi]; [by left|].
  rewrite fmap_cons, elem_of_cons in Hi; destruct Hi; [congruence|by right].
Qed.

End facts.
