(* ===== verification/RaftCommit.v ===== *)
(** * The commit rule and the apply loop

    What [tryAdvanceCommitIndex] and [applyCommittedEntries] promise. *)
From stdpp Require Import base tactics list gmap numbers strings sorting.
From Stdlib Require Import Ascii NArith Lia.
From S2P Require Import Prelude.
From S2P Require Import Buffer.
From S2P Require Import Types.
From S2P Require Import RpcMessages.
From S2P Require Import PersistentLog.
From S2P Require Import StateMachine.
From S2P Require Import KvStore.
From S2P Require Import RaftNode.
From S2P Require Import RaftNodeFacts.

Local Open Scope N_scope.

(** ** Descending order *)
#[local] Instance N_ge_trans : Transitive N.ge.
Proof. intros a b c; lia. Qed.

#[local] Instance N_ge_total : Total N.ge.
Proof. intros a b; lia. Qed.

(** In a descending list, at least [k + 1] elements reach the one at [k], and at
    most [k] exceed it. *)
Lemma sorted_count (l : list N) (k : nat) (c : N) :
  StronglySorted N.ge l -> l !! k = Some c ->
  (k + 1 <= length (filter (fun x => (c <= x)%N) l))%nat /\
  forall c', c < c' -> (length (filter (fun x => (c' <= x)%N) l) <= k)%nat.
Proof.
  intros Hs Hk; pose proof (take_drop_middle _ _ _ Hk) as Hl.
  rewrite <- Hl in Hs |- *; pose proof (lookup_lt_Some _ _ _ Hk) as Hlt.
  apply StronglySorted_app in Hs as (H1 & _ & H2); apply StronglySorted_cons in H2 as [H2 _].
  assert (length (take k l) = k) as Ht by (rewrite length_take; lia).
  rewrite filter_app, length_app, filter_cons_True by done; split.
  - rewrite filter_all; [rewrite Ht; simpl; lia|].
    intros x Hx; specialize (H1 x c Hx ltac:(left)); lia.
  - intros c' Hc; rewrite filter_app, length_app.
    rewrite (filter_none _ (c :: _)); [|].
    + pose proof (length_filter (fun x => c' <= x) (take k l)); simpl; lia.
    + intros x [->|Hx]%elem_of_cons; [lia|].
      rewrite Forall_forall in H2; specialize (H2 x Hx); lia.
Qed.

Section commit.
Context {S : Type} `{StateMachine S}.
Implicit Types n : RaftNode S.

(** The last index the leader knows voter [v] to store. *)
Definition storedAt n (v : NodeId) : LogIndex :=
  if decide (v = id (opts_ n)) then lastIndex (log_ n) else default 0 (matchIndex_ n !! v).

(** How many voters store [idx]. *)
Definition replicas n (idx : LogIndex) : nat :=
  length (filter (fun v => idx <= storedAt n v) (voters (config_ n))).

(** The leader tracks exactly the voters of its configuration. *)
Record tracks_voters n : Prop := {
  tv_nodup : NoDup (voters (config_ n));
  tv_self : id (opts_ n) ∈ voters (config_ n);
  tv_dom : forall v, v ∈ voters (config_ n) <-> is_Some (matchIndex_ n !! v)
}.

Lemma matches_perm n :
  tracks_voters n ->
  lastIndex (log_ n) :: (filter (fun p => p.1 <> id (opts_ n)) (map_to_list (matchIndex_ n))).*2
  ≡ₚ storedAt n <$> voters (config_ n).
Proof.
  intros [Hnd Hself Hdom].
  assert (voters (config_ n) ≡ₚ id (opts_ n) ::
    (filter (fun p => p.1 <> id (opts_ n)) (map_to_list (matchIndex_ n))).*1) as ->.
  { apply NoDup_Permutation; [done| |].
    - apply NoDup_cons; split.
      + rewrite list_elem_of_fmap; intros ([a b] & -> & Hf); apply list_elem_of_filter in Hf as [Hf _]; done.
      + eapply sublist_NoDup; [apply NoDup_fst_map_to_list with (m := matchIndex_ n)|].
        apply fmap_sublist, sublist_filter.
    - intros v; rewrite elem_of_cons, list_elem_of_fmap; split.
      + intros Hv; destruct (decide (v = id (opts_ n))) as [->|Hne]; [by left|right].
        apply Hdom in Hv as [m Hm]; exists (v, m); split; [done|].
        apply list_elem_of_filter; split; [done|]; by apply elem_of_map_to_list.
      + intros [->|([a b] & -> & Hf)]; [done|]; apply list_elem_of_filter in Hf as [_ Hf].
        apply elem_of_map_to_list in Hf; apply Hdom; eauto. }
  rewrite fmap_cons; unfold storedAt at 1; rewrite decide_True by done.
  apply Permutation_cons; [done|]; rewrite <- list_fmap_compose.
  match goal with |- ?a ≡ₚ ?b => replace b with a; [done|] end.
  apply list_fmap_ext; intros i [a b] Hi; simpl.
  apply list_elem_of_lookup_2, list_elem_of_filter in Hi as [Hne Hi]; simpl in Hne.
  apply elem_of_map_to_list in Hi; unfold storedAt; by rewrite decide_False, Hi.
Qed.

(** The index considered is stored by a majority, and is the largest such. *)
Lemma commitCandidate_majority n c :
  tracks_voters n -> commitCandidate n = Some c ->
  (length (voters (config_ n)) / 2 + 1 <= replicas n c)%nat /\
  forall c', c < c' -> (replicas n c' <= length (voters (config_ n)) / 2)%nat.
Proof.
  intros Ht Hc; unfold commitCandidate in Hc; set (ms := _ :: _) in Hc.
  destruct (_ <=? _); [done|].
  rewrite nlen_half in Hc; apply sorted_count in Hc as [H1 H2]; [|apply StronglySorted_merge_sort; apply _].
  assert (forall x, length (filter (fun y => x <= y) (sort_desc ms)) = replicas n x) as Hr.
  { intros x; unfold sort_desc, replicas; rewrite merge_sort_Permutation.
    unfold ms; rewrite (matches_perm n Ht); apply filter_fmap_length. }
  split; [rewrite <- Hr; lia|]; intros c' Hlt; rewrite <- Hr; auto.
Qed.

(** A leader that tracks its voters always has a candidate. *)
Lemma commitCandidate_some n : tracks_voters n -> exists c, commitCandidate n = Some c.
Proof.
  intros Ht; unfold commitCandidate; set (ms := _ :: _).
  assert (length (sort_desc ms) = length (voters (config_ n))) as Hl.
  { unfold sort_desc; rewrite merge_sort_Permutation; unfold ms; rewrite (matches_perm n Ht).
    apply length_fmap. }
  assert (0 < length (voters (config_ n)))%nat.
  { destruct Ht as [_ Hs _]; destruct (voters (config_ n)); [by apply not_elem_of_nil in Hs|simpl; lia]. }
  assert (N.to_nat (nlen (voters (config_ n)) / 2) < length (sort_desc ms))%nat as Hk
    by (rewrite Hl, nlen_half; apply Nat.div_lt; lia).
  apply lookup_lt_is_Some_2 in Hk as [c Hc]; exists c; rewrite Hc.
  case (N.leb_spec _ _); [|done]; apply lookup_lt_Some in Hc; unfold nlen in *; lia.
Qed.

(** C10: the commit rule.  On a leader that tracks exactly its voters,
    [tryAdvanceCommitIndex] considers the largest index that a majority of the
    voters store (the leader counted once).  If that index is above the commit
    index and its entry is of the leader's current term, the commit index moves
    there and the entries are applied; otherwise nothing changes. *)
Theorem tryAdvanceCommitIndex_rule (n : RaftNode S) (Ht : tracks_voters n) (Hl : role_ n = Leader) :
  exists c, commitCandidate n = Some c /\
    (length (voters (config_ n)) / 2 + 1 <= replicas n c)%nat /\
    (forall c', c < c' -> (replicas n c' < length (voters (config_ n)) / 2 + 1)%nat) /\
    ((commitIndex_ n < c /\ termAt c (log_ n) = currentTerm_ (log_ n) /\
      tryAdvanceCommitIndex n = applyCommittedEntries (set_commitIndex c n)) \/
     ((c <= commitIndex_ n \/ termAt c (log_ n) <> currentTerm_ (log_ n)) /\
      tryAdvanceCommitIndex n = Ok n)).
Proof.
  destruct (commitCandidate_some n Ht) as [c Hc]; exists c; split; [done|].
  destruct (commitCandidate_majority n c Ht Hc) as [H1 H2].
  split; [done|]; split; [intros c' Hlt; specialize (H2 c' Hlt); lia|].
  unfold tryAdvanceCommitIndex; rewrite decide_True, Hc by done.
  case (N.ltb_spec _ _); simpl; [|intros; right; split; [by left|done]].
  case (N.eqb_spec _ _); intros; [left; done|right; split; [by right|done]].
Qed.

(** C9: one uninterrupted call of [applyCommittedEntries] hands entries to the
    state machine in log order, each exactly once. On a well-formed log it takes
    exactly the entries with indices [lastApplied_ + 1] to the commit index (or the
    end of the log), moves [lastApplied_] there, leaves the log alone, and runs the
    commands among them on the state machine in that order; afterwards every one of
    them has a result. (Calls that overlap may apply out of order:
    [applied_out_of_order].) *)
Theorem applyCommittedEntries_in_order (n : RaftNode S)
    (Hwf : pl_wf (log_ n)) (Hs : snapshotIndex_ (log_ n) <= lastApplied_ n) (Hc : commitIndex_ n < U64) :
  (forall i e, committedEntries n !! i = Some e -> e_index e = lastApplied_ n + 1 + N.of_nat i /\
     at_ (e_index e) (log_ n) = Some e) /\
  nlen (committedEntries n) = applyTarget n - lastApplied_ n /\
  match applyCommittedEntries n with
  | Ok n' =>
      lastApplied_ n' = applyTarget n /\ log_ n' = log_ n /\ commitIndex_ n' = commitIndex_ n /\
      sm_run (committedEntries n) (sm_ n) = Ok (sm_ n') /\
      forall e, e ∈ committedEntries n -> is_Some (pendingResults_ n' !! e_index e)
  | Throw _ => applyAll (committedEntries n) (set_lastApplied (applyTarget n) n)
               = applyCommittedEntries n
  end.
Proof.
  pose proof (wf_bound _ Hwf) as Hb; pose proof (lastIndex_wf _ Hwf) as Hli.
  split_and!.
  - intros i e Hi; apply lookup_take_Some in Hi as [Hi Hlt]; rewrite lookup_drop in Hi.
    pose proof (wf_contig _ Hwf _ _ Hi) as He; split; [lia|].
    apply lookup_lt_Some in Hi as Hlen; unfold nlen in Hb.
    rewrite at_spec by lia; rewrite decide_True by lia.
    rewrite <- Hi; f_equal; lia.
  - unfold committedEntries, nlen; rewrite length_take, length_drop.
    unfold applyTarget, nlen in *; lia.
  - rewrite (applyCommittedEntries_eq n Hwf Hs Hc); destruct (applyAll _ _) as [n'|msg] eqn:E; [|done].
    apply applyAll_sm in E as E'; simpl in E'; destruct E' as (-> & -> & Hsm & Hp).
    split_and!; try done.
    + eapply applyAll_frame in E as Hf; [by rewrite (fr_log _ _ Hf)|]; simpl.
      apply Forall_forall; intros e He; unfold committedEntries in He.
      eapply elem_of_sublist; [exact He|].
      etransitivity; [apply sublist_take|apply sublist_drop].
    + intros e He; apply Hp; right; apply list_elem_of_fmap; eauto.
Qed.

End commit.

(** ** A leader of three voters, to evaluate the statements on *)
Definition sample_opts (i : NodeId) : RaftOptions := mkRaftOptions i 150 300 50 10000.

Definition sample_cfg : ClusterConfig :=
  mkClusterConfig [1; 2; 3] [(1, str "n1"); (2, str "n2"); (3, str "n3")].

Definition sample_entries : list LogEntry :=
  [ mkLogEntry 2 1 NoOp [];
    mkLogEntry 2 2 Command (KvCommand_encode (put_cmd "k" "v" 42 1));
    mkLogEntry 2 3 Command (KvCommand_encode (put_cmd "k" "w" 42 2)) ].

Definition sample_log : PersistentLog := mkPersistentLog ∅ 2 1 0 0 sample_entries.

Definition sample_leader : RaftNode KvStore :=
  mkRaftNode (sample_opts 1) KvStore_init sample_log Leader sample_cfg 1 0 0 0
    {[1 := 1; 2 := 3; 3 := 1]} {[1 := 0; 2 := 2; 3 := 0]} ∅ [] true [] 0 0 ∅.

Lemma sample_log_wf : pl_wf sample_log.
Proof. split; [|reflexivity]; intros [|[|[|i]]] e; simpl; intros [=]; subst; reflexivity. Qed.

Lemma sample_leader_tracks : tracks_voters sample_leader.
Proof.
  split; [by_decide|by_decide|]; intros v; split.
  - revert v; apply (Forall_forall (fun v => is_Some (matchIndex_ sample_leader !! v))); by_decide.
  - intros [m Hm]; apply elem_of_map_to_list in Hm.
    apply (list_elem_of_fmap_2 fst) in Hm; revert Hm; vm_compute.
    intros Hm; repeat (apply elem_of_cons in Hm as [->|Hm]); set_solver.
Qed.

Lemma tryAdvanceCommitIndex_rule_witness :
  exists c, commitCandidate sample_leader = Some c /\ c = 2 /\ (2 <= replicas sample_leader c)%nat.
Proof.
  destruct (tryAdvanceCommitIndex_rule sample_leader sample_leader_tracks eq_refl) as (c & Hc & Hr & _).
  exists c; split; [exact Hc|split; [|exact Hr]].
  assert (commitCandidate sample_leader = Some 2) as E by (vm_compute; reflexivity).
  rewrite E in Hc; injection Hc as <-; reflexivity.
Defined.

Lemma applyCommittedEntries_in_order_witness :
  let n := set_commitIndex 2 sample_leader in
  nlen (committedEntries n) = 2 /\
  (data_map <$> (match applyCommittedEntries n with Ok n' => Some (sm_ n') | _ => None end))
  = Some {[ str "k" := str "v" ]}.
Proof.
  destruct (applyCommittedEntries_in_order (set_commitIndex 2 sample_leader)) as (_ & H & _);
    [exact sample_log_wf|discriminate|reflexivity|].
  split; [rewrite H; reflexivity|vm_compute; reflexivity].
Defined.
