(* ===== verification/RaftHandlers.v ===== *)
(** * The RPC handlers of [RaftNode]

    What each handler answers and how it changes the node, branch by branch, and
    the interplay of the conflict reply of [handleAppendEntries] with the
    back-off of [onAppendEntriesResp]. *)
From stdpp Require Import base tactics list gmap numbers strings sorting.
From Stdlib Require Import Ascii NArith Lia.
From S2P Require Import Prelude.
From S2P Require Import Buffer.
From S2P Require Import Types.
From S2P Require Import RpcMessages.
From S2P Require Import PersistentLog.
From S2P Require Import StateMachine.
From S2P Require Import KvStore.
From S2P Require Import RaftNode.
From S2P Require Import RaftNodeFacts.
From S2P Require Import RaftCommit.

Local Open Scope N_scope.

Section handlers.
Context {S : Type} `{StateMachine S}.
Implicit Types n : RaftNode S.

(** ** Shorthands *)
Definition nodeTerm n : Term := currentTerm_ (log_ n).
Definition nodeVote n : NodeId := votedFor_ (log_ n).

(** The entries and the snapshot position are the same. *)
Definition same_log (l l' : PersistentLog) : Prop :=
  entries_ l' = entries_ l /\ snapshotIndex_ l' = snapshotIndex_ l /\ snapshotTerm_ l' = snapshotTerm_ l.

#[global] Instance same_log_equiv : Equivalence same_log.
Proof.
  split; [intros l; by split|intros a b (? & ? & ?); by split|].
  intros a b c (? & ? & ?) (? & ? & ?); split_and!; congruence.
Qed.

Lemma same_log_at l l' i : same_log l l' -> at_ i l' = at_ i l.
Proof. unfold at_; by intros (-> & -> & _). Qed.

Lemma same_log_termAt l l' i : same_log l l' -> termAt i l' = termAt i l.
Proof. unfold termAt; by intros (-> & -> & ->). Qed.

Lemma same_log_last l l' : same_log l l' -> lastIndex l' = lastIndex l /\ lastTerm l' = lastTerm l.
Proof. unfold lastIndex, lastTerm; by intros (-> & -> & ->). Qed.

Lemma same_log_wf l l' : same_log l l' -> pl_wf l -> pl_wf l'.
Proof. intros (He & Hs & _) [Hc Hb]; split; rewrite He, Hs; done. Qed.

#[global] Instance same_log_wf_proper : Proper (same_log ==> iff) pl_wf.
Proof. intros l l' E; split; apply same_log_wf; [done|by symmetry]. Qed.

Lemma setHardState_same_log t v l : same_log l (setHardState t v l).
Proof. by split_and!. Qed.

Lemma becomeFollower_spec term leader n :
  let n' := becomeFollower term leader n in
  nodeTerm n' = N.max (nodeTerm n) term /\
  nodeVote n' = (if nodeTerm n <? term then 0 else nodeVote n) /\
  role_ n' = Follower /\ leaderId_ n' = leader /\ same_log (log_ n) (log_ n') /\
  opts_ n' = opts_ n /\ config_ n' = config_ n /\ votes_ n' = votes_ n /\ running_ n' = running_ n /\
  sm_ n' = sm_ n /\ commitIndex_ n' = commitIndex_ n /\ lastApplied_ n' = lastApplied_ n /\
  nextIndex_ n' = nextIndex_ n /\ matchIndex_ n' = matchIndex_ n.
Proof.
  unfold becomeFollower, nodeTerm, nodeVote.
  case (N.ltb_spec (currentTerm_ (log_ n)) term); intros Hlt; simpl; split_and!; try done; lia.
Qed.

(** ** RequestVote *)

(** At least as up to date as the log [l]. *)
Definition upToDate (lastLogTerm : Term) (lastLogIndex : LogIndex) (l : PersistentLog) : Prop :=
  lastTerm l < lastLogTerm \/ (lastLogTerm = lastTerm l /\ lastIndex l <= lastLogIndex).

Lemma handleRequestVote_facts (req : RequestVoteReq) (n : RaftNode S) :
  let '(n', resp) := handleRequestVote req n in
  (rvr_voteGranted resp = true <->
     nodeTerm n <= rv_term req /\
     (nodeTerm n < rv_term req \/ nodeVote n = 0 \/ nodeVote n = rv_candidateId req) /\
     upToDate (rv_lastLogTerm req) (rv_lastLogIndex req) (log_ n)) /\
  rvr_term resp = N.max (nodeTerm n) (rv_term req) /\
  nodeTerm n' = N.max (nodeTerm n) (rv_term req) /\
  nodeVote n' = (if rvr_voteGranted resp then rv_candidateId req
                 else if nodeTerm n <? rv_term req then 0 else nodeVote n) /\
  role_ n' = (if nodeTerm n <? rv_term req then Follower else role_ n) /\
  same_log (log_ n) (log_ n').
Proof.
  unfold handleRequestVote, upToDate, nodeTerm, nodeVote.
  case (N.ltb_spec (rv_term req) (currentTerm_ (log_ n))); intros Hold; simpl.
  { case (N.ltb_spec (currentTerm_ (log_ n)) (rv_term req)); [lia|intros _].
    split_and!; try done; [split; [done|lia]|lia..]. }
  set (m := if currentTerm_ (log_ n) <? rv_term req then becomeFollower (rv_term req) 0 n else n).
  assert (nodeTerm m = rv_term req /\ role_ m = (if currentTerm_ (log_ n) <? rv_term req then Follower else role_ n) /\
    nodeVote m = (if currentTerm_ (log_ n) <? rv_term req then 0 else votedFor_ (log_ n)) /\
    same_log (log_ n) (log_ m)) as (Ht & Hr & Hv & Hl).
  { unfold m; case (N.ltb_spec _ _); intros Hlt.
    - destruct (becomeFollower_spec (rv_term req) 0 n) as (-> & -> & -> & _ & ? & _).
      unfold nodeTerm; rewrite (proj2 (N.ltb_lt _ _) Hlt); split_and!; try done; lia.
    - unfold nodeTerm; split_and!; [lia|done..]. }
  clearbody m; unfold nodeTerm, nodeVote in *.
  destruct (same_log_last _ _ Hl) as [-> ->]; rewrite Hv.
  match goal with |- context [if ?c && ?k then _ else _] => set (cv := c); set (lo := k) end.
  assert (cv = true <-> currentTerm_ (log_ n) < rv_term req \/ votedFor_ (log_ n) = 0 \/
            votedFor_ (log_ n) = rv_candidateId req) as Hcv.
  { unfold cv; case (N.ltb_spec _ _); intros Hlt; simpl; [tauto|].
    rewrite orb_true_iff, !N.eqb_eq; intuition lia. }
  assert (lo = true <-> lastTerm (log_ n) < rv_lastLogTerm req \/
            rv_lastLogTerm req = lastTerm (log_ n) /\ lastIndex (log_ n) <= rv_lastLogIndex req) as Hlo.
  { unfold lo; rewrite orb_true_iff, andb_true_iff, N.ltb_lt, N.eqb_eq, N.leb_le; done. }
  destruct cv, lo; simpl; rewrite Ht, ?Hr, ?Hv; split_and!; try done; try lia;
    split; (done || intuition (try discriminate; try lia)).
Qed.

(** C37: voting.  A call of [handleRequestVote] that is not interrupted where it releases
    the mutex grants a vote exactly when the request's term
    is not old, the node has not voted for someone else in that term, and the
    candidate's log is at least as up to date as its own; the node's term becomes
    the larger one, the vote is recorded (or cleared when the term grew and the
    vote is refused), a larger term makes it a follower, and the log stays. *)
Theorem handleRequestVote_spec (req : RequestVoteReq) (n : RaftNode S) :
  let '(n', resp) := handleRequestVote req n in
  (rvr_voteGranted resp = true <->
     nodeTerm n <= rv_term req /\
     (nodeTerm n < rv_term req \/ nodeVote n = 0 \/ nodeVote n = rv_candidateId req) /\
     upToDate (rv_lastLogTerm req) (rv_lastLogIndex req) (log_ n)) /\
  rvr_term resp = N.max (nodeTerm n) (rv_term req) /\
  nodeTerm n' = N.max (nodeTerm n) (rv_term req) /\
  nodeVote n' = (if rvr_voteGranted resp then rv_candidateId req
                 else if nodeTerm n <? rv_term req then 0 else nodeVote n) /\
  role_ n' = (if nodeTerm n <? rv_term req then Follower else role_ n) /\
  same_log (log_ n) (log_ n').
Proof. apply handleRequestVote_facts. Qed.

(** ** AppendEntries *)
Lemma conflictStart_spec fuel t ci l :
  pl_wf l -> ci < U64 -> snapshotIndex_ l < ci -> (N.to_nat (ci - snapshotIndex_ l) <= fuel)%nat ->
  let r := conflictStart fuel t ci l in
  snapshotIndex_ l < r <= ci /\
  (forall j, r <= j < ci -> termAt j l = t) /\
  (r = snapshotIndex_ l + 1 \/ termAt (r - 1) l <> t).
Proof.
  intros Hwf; revert ci; induction fuel as [|fuel IH]; intros ci Hc Hs Hf; simpl; [lia|].
  rewrite add64_small by lia; rewrite sub64_small by lia.
  case (N.ltb_spec _ _); intros Hlt; simpl; [|split_and!; [lia|lia|intros; lia|left; lia]].
  case (N.eqb_spec _ _); intros Ht; [|split_and!; [lia|lia|intros; lia|by right]].
  destruct (IH (ci - 1)) as (H1 & H2 & H3); [lia..|]; split_and!; [lia|lia| |done].
  intros j Hj; destruct (decide (j = ci - 1)) as [->|]; [done|]; apply H2; lia.
Qed.

(** The conflict search.  When [handleAppendEntries] finds another term [t] at
    [prevLogIndex], its loop stops at the first index of the run of entries of
    term [t] that ends there: everything from it on has term [t], and the entry
    before it (if not compacted) has another term. *)
Theorem checkPrev_conflict (req : AppendEntriesReq) (l : PersistentLog) (t : Term)
    (Hwf : pl_wf l) (Hp : snapshotIndex_ l < ae_prevLogIndex req <= lastIndex l)
    (Ht : termAt (ae_prevLogIndex req) l = t) (H0 : t <> 0) (Hne : t <> ae_prevLogTerm req) :
  exists first,
    checkPrev req l = Some (mkAppendEntriesResp (currentTerm_ l) false first t 0) /\
    snapshotIndex_ l < first <= ae_prevLogIndex req /\
    (forall j, first <= j <= ae_prevLogIndex req -> termAt j l = t) /\
    (first = snapshotIndex_ l + 1 \/ termAt (first - 1) l <> t).
Proof.
  pose proof (wf_bound _ Hwf) as Hb; pose proof (lastIndex_wf _ Hwf) as Hli.
  unfold checkPrev; case (N.ltb_spec 0 (ae_prevLogIndex req)); [intros _|lia].
  rewrite Ht; case (N.eqb_spec t 0); [done|intros _]; cbn [andb negb].
  case (N.eqb_spec t (ae_prevLogTerm req)); [done|intros _]; cbn [andb negb].
  eexists; split; [done|].
  destruct (conflictStart_spec (Datatypes.S (length (entries_ l))) t (ae_prevLogIndex req) l)
    as (Hr1 & Hr2 & Hr3); [done|lia|lia|unfold nlen in *; lia|].
  split_and!; [lia|lia| |done].
  intros j Hj; destruct (decide (j = ae_prevLogIndex req)) as [->|]; [done|]; apply Hr2; lia.
Qed.

(** ** The back-off of the leader *)
Lemma checkPrev_fields req l resp :
  checkPrev req l = Some resp ->
  aer_term resp = currentTerm_ l /\ aer_success resp = false /\
  aer_conflictIndex resp = termAt (ae_prevLogIndex req) l.
Proof.
  unfold checkPrev; destruct (0 <? ae_prevLogIndex req); [|done].
  set (t := termAt _ _); clearbody t; destruct ((t =? 0) && _) eqn:E.
  - intros [= <-]; by apply andb_true_iff in E as [E%N.eqb_eq _].
  - destruct (negb (t =? 0) && _); [|done]; by intros [= <-].
Qed.

Lemma reject_reaction peer resp n :
  aer_success resp = false -> aer_term resp <= nodeTerm n -> role_ n = Leader ->
  onAppendEntriesResp peer (nodeTerm n) true resp n =
  Ok (set_nextIndex (<[peer := N.max 1 (aer_conflictIndex resp)]> (nextIndex_ n)) n).
Proof.
  unfold onAppendEntriesResp, nodeTerm; intros -> Ht Hr; simpl.
  case (N.ltb_spec _ _); [lia|intros _].
  rewrite bool_decide_eq_true_2, N.eqb_refl by done; simpl.
  case (N.ltb_spec 0 (aer_conflictIndex resp)); intros; [done|].
  unfold mret, outcome_ret; do 2 f_equal; f_equal; lia.
Qed.

(** The hint does not reach the leader.  Whatever index the follower's search
    found, a rejected [AppendEntries] makes the leader (still in the same term)
    continue at index 1 when the follower has no entry at [prevLogIndex], and at
    the index numbered by the conflicting {e term} otherwise: the replies fill
    [matchIndex], [conflictIndex], [conflictTerm] with (index, term, 0) and
    (last + 1, 0, last). *)
Theorem backoff_uses_term (req : AppendEntriesReq) (l : PersistentLog) (resp : AppendEntriesResp)
    (peer : NodeId) (n : RaftNode S)
    (Hr : checkPrev req l = Some resp) (Hlead : role_ n = Leader) (Ht : currentTerm_ l <= nodeTerm n) :
  onAppendEntriesResp peer (nodeTerm n) true resp n =
  Ok (set_nextIndex (<[peer := N.max 1 (termAt (ae_prevLogIndex req) l)]> (nextIndex_ n)) n).
Proof.
  apply checkPrev_fields in Hr as (E1 & E2 & <-); apply reject_reaction; by rewrite ?E1.
Qed.

(** One exchange between the leader and a peer: the leader's next request for the
    peer, the peer's consistency check on it, the leader's reaction. *)
Definition appendRound (peer : NodeId) (leader : RaftNode S) (l : PersistentLog) : option (RaftNode S) :=
  match sendAppendEntriesTo peer leader with
  | [SendAppendEntries _ req term] =>
      match checkPrev req l with
      | Some resp =>
          match onAppendEntriesResp peer term true resp leader with
          | Ok leader' => Some leader'
          | Throw _ => None
          end
      | None => None
      end
  | _ => None
  end.

(** Any number of rejected exchanges. *)
Fixpoint appendRounds (k : nat) (peer : NodeId) (leader : RaftNode S) (l : PersistentLog) : option (RaftNode S) :=
  match k with
  | O => Some leader
  | Datatypes.S k' => match appendRound peer leader l with
                      | Some leader' => appendRounds k' peer leader' l
                      | None => None
                      end
  end.

Lemma appendRound_fixpoint peer leader l t :
  role_ leader = Leader -> currentTerm_ l <= nodeTerm leader ->
  nextIndex_ leader !! peer = Some t -> 1 < t -> t < U64 ->
  termAt (t - 1) l = t -> termAt (t - 1) (log_ leader) <> t ->
  appendRound peer leader l = Some leader.
Proof.
  intros Hr Ht Hn H1 Hb Hf Hl; unfold appendRound, sendAppendEntriesTo.
  rewrite decide_True by done; unfold nextIndexOf; rewrite Hn, sub64_small by lia.
  set (req := mkAppendEntriesReq _ _ _ _ _ _).
  assert (exists resp, checkPrev req l = Some resp) as [resp Hresp].
  { unfold checkPrev; simpl; rewrite Hf.
    case (N.ltb_spec 0 (t - 1)); [intros _|lia]; case (N.eqb_spec t 0); [lia|intros _]; simpl.
    case (N.eqb_spec t _); [congruence|intros _]; simpl; eauto. }
  rewrite Hresp; change (currentTerm_ (log_ leader)) with (nodeTerm leader).
  apply checkPrev_fields in Hresp as (E1 & E2 & E3); simpl in E3.
  rewrite (reject_reaction peer resp leader) by (rewrite ?E1; done).
  rewrite E3, Hf, N.max_r, insert_id by (done || lia); by destruct leader.
Qed.

(** Replication can stop for good.  If the follower holds an entry of term
    [t] at index [t - 1], the leader holds something else there, and the leader's
    next index for it is [t], then every exchange is rejected and leaves the
    leader exactly as it was: after any number of rounds the leader sends the
    same request again and the follower never receives an entry. *)
Theorem backoff_livelock (k : nat) (peer : NodeId) (leader : RaftNode S) (l : PersistentLog) (t : Term)
    (Hr : role_ leader = Leader) (Ht : currentTerm_ l <= nodeTerm leader)
    (Hn : nextIndex_ leader !! peer = Some t) (H1 : 1 < t) (Hb : t < U64)
    (Hf : termAt (t - 1) l = t) (Hl : termAt (t - 1) (log_ leader) <> t) :
  appendRounds k peer leader l = Some leader.
Proof.
  induction k as [|k IH]; [done|]; simpl; by rewrite (appendRound_fixpoint peer leader l t).
Qed.

(** ** Accepting entries *)
Lemma checkPrev_accepts req l :
  snapshotIndex_ l <= ae_prevLogIndex req ->
  ae_prevLogIndex req = 0 \/ (termAt (ae_prevLogIndex req) l = ae_prevLogTerm req /\ ae_prevLogTerm req <> 0) ->
  checkPrev req l = None.
Proof.
  intros Hs Hp; unfold checkPrev; case (N.ltb_spec 0 (ae_prevLogIndex req)); intros Hlt; [|done].
  destruct Hp as [Hp|[Hp Hne]]; [lia|]; rewrite Hp, N.eqb_refl.
  case (N.eqb_spec (ae_prevLogTerm req) 0); done.
Qed.

Lemma last_contiguous b (es : list LogEntry) :
  contiguous b es -> match last es with None => b | Some e => e_index e end = b + nlen es.
Proof.
  intros Hc; destruct (last es) as [e|] eqn:E.
  - rewrite last_lookup in E; rewrite (Hc _ _ E); apply lookup_lt_Some in E; unfold nlen; lia.
  - apply last_None in E as ->; unfold nlen; simpl; lia.
Qed.

(** The log after an accepted request: everything up to [prevLogIndex] stays, and
    a non-empty batch replaces everything after it. *)
Definition accepted (req : AppendEntriesReq) (l l' : PersistentLog) : Prop :=
  pl_wf l' /\ snapshotIndex_ l' = snapshotIndex_ l /\
  lastIndex l' = (if decide (ae_entries req = []) then lastIndex l
                  else ae_prevLogIndex req + nlen (ae_entries req)) /\
  forall idx, idx < U64 ->
    at_ idx l' = if decide (idx <= ae_prevLogIndex req \/ ae_entries req = []) then at_ idx l
                 else ae_entries req !! N.to_nat (idx - ae_prevLogIndex req - 1).

Lemma append_accepted req l :
  pl_wf l -> snapshotIndex_ l <= ae_prevLogIndex req <= lastIndex l ->
  contiguous (ae_prevLogIndex req) (ae_entries req) ->
  ae_prevLogIndex req + nlen (ae_entries req) + 1 < U64 ->
  accepted req l (match ae_entries req with [] => l | _ => appendAndSync (ae_entries req) l end).
Proof.
  intros Hwf Hp Hc Hb; unfold accepted; destruct (ae_entries req) as [|e es]; simpl.
  { split_and!; try done; intros idx _; by rewrite decide_True by auto. }
  destruct (contiguous_cons _ _ _ Hc) as [He _]; rewrite nlen_cons in Hb.
  assert (contiguous (e_index e - 1) (e :: es)) as Hc' by (by replace (e_index e - 1) with (ae_prevLogIndex req) by lia).
  assert (pl_wf (append_entries (e_index e) (e :: es) l)) as Hwf'
    by (apply append_entries_wf; try done; rewrite ?nlen_cons; lia).
  split_and!; [by apply wf_with_dir|done| |].
  - change (lastIndex (append_entries (e_index e) (e :: es) l) = ae_prevLogIndex req + nlen (e :: es)).
    rewrite lastIndex_wf, append_entries_eq by (done || lia); simpl.
    pose proof (lastIndex_wf _ Hwf); unfold nlen in *; rewrite length_app, length_take; simpl; lia.
  - intros idx Hi; rewrite at_with_dir, append_entries_at by (done || lia).
    destruct (decide (idx < e_index e)).
    + rewrite decide_True by (left; lia); done.
    + rewrite decide_False by (intros [?|?]; [lia|done]); f_equal; lia.
Qed.

(** [handleAppendEntries] from the consistency check on. *)
Definition acceptEntries (req : AppendEntriesReq) n : outcome (RaftNode S * AppendEntriesResp) :=
  match checkPrev req (log_ n) with
  | Some resp => mret (n, resp)
  | None =>
      let n := match ae_entries req with
               | [] => n
               | _ => set_log (appendAndSync (ae_entries req) (log_ n)) n
               end in
      let newLast := match last (ae_entries req) with
                     | None => ae_prevLogIndex req
                     | Some e => e_index e
                     end in
      let n := if commitIndex_ n <? ae_leaderCommit req
               then set_commitIndex (N.min (ae_leaderCommit req) newLast) n else n in
      n ← applyCommittedEntries n;
      mret (n, mkAppendEntriesResp (currentTerm_ (log_ n)) true newLast 0 0)
  end.

Definition followed (req : AppendEntriesReq) n : RaftNode S :=
  set_leaderId (ae_leaderId req) (resetElectionDeadline (becomeFollower (ae_term req) (ae_leaderId req) n)).

Lemma handleAppendEntries_accept req n :
  currentTerm_ (log_ n) <= ae_term req -> handleAppendEntries req n = acceptEntries req (followed req n).
Proof.
  intros Ht; cbv delta [handleAppendEntries] beta; case (N.ltb_spec (ae_term req) (currentTerm_ (log_ n))); [lia|reflexivity].
Qed.

Lemma followed_fields req n : nodeTerm n <= ae_term req ->
  let n0 := followed req n in
  role_ n0 = Follower /\ leaderId_ n0 = ae_leaderId req /\ nodeTerm n0 = ae_term req /\ sm_ n0 = sm_ n /\
  lastApplied_ n0 = lastApplied_ n /\ commitIndex_ n0 = commitIndex_ n /\ same_log (log_ n) (log_ n0).
Proof.
  intros Ht; destruct (becomeFollower_spec (ae_term req) (ae_leaderId req) n)
    as (Hbt & _ & Hbr & _ & Hbl & _ & _ & _ & _ & Hbs & Hbc & Hba & _).
  unfold followed, nodeTerm in *; revert Hbt Hbr Hbl Hbs Hbc Hba; generalize (becomeFollower (ae_term req) (ae_leaderId req) n).
  intros b Hbt Hbr Hbl Hbs Hbc Hba; cbv zeta; split_and!; [exact Hbr|done| |exact Hbs|exact Hba|exact Hbc|exact Hbl].
  change (currentTerm_ (log_ b) = ae_term req); lia.
Qed.

(** The node right before [handleAppendEntries] applies. *)
Lemma handleAppendEntries_shape req n :
  nodeTerm n <= ae_term req -> snapshotIndex_ (log_ n) <= ae_prevLogIndex req ->
  contiguous (ae_prevLogIndex req) (ae_entries req) ->
  ae_prevLogIndex req = 0 \/
    (termAt (ae_prevLogIndex req) (log_ n) = ae_prevLogTerm req /\ ae_prevLogTerm req <> 0) ->
  exists n1,
    handleAppendEntries req n =
      (n' ← applyCommittedEntries n1;
       mret (n', mkAppendEntriesResp (currentTerm_ (log_ n')) true
                   (ae_prevLogIndex req + nlen (ae_entries req)) 0 0)) /\
    role_ n1 = Follower /\ leaderId_ n1 = ae_leaderId req /\ nodeTerm n1 = ae_term req /\
    sm_ n1 = sm_ n /\ lastApplied_ n1 = lastApplied_ n /\
    commitIndex_ n1 = (if commitIndex_ n <? ae_leaderCommit req
      then N.min (ae_leaderCommit req) (ae_prevLogIndex req + nlen (ae_entries req)) else commitIndex_ n) /\
    exists l0, same_log (log_ n) l0 /\
      log_ n1 = match ae_entries req with [] => l0 | _ => appendAndSync (ae_entries req) l0 end.
Proof.
  intros Ht Hs Hc Hp; rewrite handleAppendEntries_accept by done; destruct (followed_fields req n Ht) as (F1 & F2 & F3 & F4 & F5 & F6 & Hl).
  revert F1 F2 F3 F4 F5 F6 Hl; generalize (followed req n); intros n0 F1 F2 F3 F4 F5 F6 Hl.
  unfold acceptEntries; rewrite checkPrev_accepts; [|by destruct Hl as (_ & -> & _)|by rewrite (same_log_termAt _ _ _ Hl)].
  rewrite (last_contiguous _ _ Hc); set (n1 := match ae_entries req with [] => n0 | _ => _ end).
  assert (role_ n1 = Follower /\ leaderId_ n1 = ae_leaderId req /\ nodeTerm n1 = ae_term req /\
    sm_ n1 = sm_ n /\ lastApplied_ n1 = lastApplied_ n /\ commitIndex_ n1 = commitIndex_ n /\
    log_ n1 = match ae_entries req with [] => log_ n0 | _ => appendAndSync (ae_entries req) (log_ n0) end)
    as (E1 & E2 & E3 & E4 & E5 & E6 & E7) by (unfold n1; destruct (ae_entries req); split_and!; done).
  clearbody n1; exists (if commitIndex_ n1 <? ae_leaderCommit req
    then set_commitIndex (N.min (ae_leaderCommit req) (ae_prevLogIndex req + nlen (ae_entries req))) n1 else n1).
  split; [done|]; rewrite E6.
  by destruct (_ <? _); split_and!; try done; exists (log_ n0).
Qed.

(** C12: accepted entries. On a well-formed log, for a request that is not of an
    older term, whose [prevLogIndex] lies between the snapshot index and the end of
    the log, whose entry there matches (or that starts at 0), and whose entries are
    consecutive, [handleAppendEntries] makes the node a follower of the sender in
    the sender's term, keeps the log up to [prevLogIndex], replaces everything after
    it by a non-empty batch (also what agrees with the batch or goes beyond it,
    unlike the comment of [appendAndSync]), sets the commit index to the smaller
    of the leader's and the last index covered if the leader's is larger than its
    own and keeps it otherwise, applies, and answers success with that last index.
    *)
Theorem handleAppendEntries_accepts (req : AppendEntriesReq) (n : RaftNode S)
    (Hwf : pl_wf (log_ n)) (Ht : nodeTerm n <= ae_term req)
    (Hp : snapshotIndex_ (log_ n) <= ae_prevLogIndex req <= lastIndex (log_ n))
    (Hm : ae_prevLogIndex req = 0 \/
          (termAt (ae_prevLogIndex req) (log_ n) = ae_prevLogTerm req /\ ae_prevLogTerm req <> 0))
    (Hc : contiguous (ae_prevLogIndex req) (ae_entries req))
    (Hb : ae_prevLogIndex req + nlen (ae_entries req) + 1 < U64) :
  exists n1,
    handleAppendEntries req n =
      (n' ← applyCommittedEntries n1;
       mret (n', mkAppendEntriesResp (currentTerm_ (log_ n')) true
                   (ae_prevLogIndex req + nlen (ae_entries req)) 0 0)) /\
    role_ n1 = Follower /\ leaderId_ n1 = ae_leaderId req /\ nodeTerm n1 = ae_term req /\
    sm_ n1 = sm_ n /\ lastApplied_ n1 = lastApplied_ n /\
    commitIndex_ n1 = (if commitIndex_ n <? ae_leaderCommit req
      then N.min (ae_leaderCommit req) (ae_prevLogIndex req + nlen (ae_entries req)) else commitIndex_ n) /\
    accepted req (log_ n) (log_ n1).
Proof.
  destruct (handleAppendEntries_shape req n Ht (proj1 Hp) Hc Hm) as (n1 & E & ? & ? & ? & ? & ? & ? & l0 & Hl0 & Hl1).
  exists n1; split_and!; try done; rewrite Hl1.
  destruct (same_log_last _ _ Hl0) as [Hl _].
  assert (accepted req l0 (match ae_entries req with [] => l0 | _ => appendAndSync (ae_entries req) l0 end)) as Ha.
  { apply append_accepted; [by rewrite <- Hl0| |done..]. rewrite Hl; by destruct Hl0 as (_ & -> & _). }
  destruct Ha as (Ha1 & Ha2 & Ha3 & Ha4); split_and!; [done| | |].
  - rewrite Ha2; by destruct Hl0 as (_ & -> & _).
  - by rewrite Ha3, Hl.
  - intros idx Hi; rewrite (Ha4 idx Hi), (same_log_at _ _ idx Hl0); done.
Qed.

(** A stale or repeated request cuts the log.  When the batch is exactly what
    the log already holds after [prevLogIndex] (no conflict at all) and the log
    goes on, the handler still drops everything after the batch, committed
    entries included, and answers success. *)
Theorem stale_append_truncates (req : AppendEntriesReq) (n : RaftNode S)
    (Hwf : pl_wf (log_ n)) (Ht : nodeTerm n <= ae_term req)
    (Hp : snapshotIndex_ (log_ n) <= ae_prevLogIndex req <= lastIndex (log_ n))
    (Hm : ae_prevLogIndex req = 0 \/
          (termAt (ae_prevLogIndex req) (log_ n) = ae_prevLogTerm req /\ ae_prevLogTerm req <> 0))
    (Hne : ae_entries req <> [])
    (Hpre : ae_entries req `prefix_of` drop (N.to_nat (ae_prevLogIndex req - snapshotIndex_ (log_ n))) (entries_ (log_ n)))
    (Hmore : ae_prevLogIndex req + nlen (ae_entries req) < lastIndex (log_ n)) :
  exists n1,
    handleAppendEntries req n =
      (n' ← applyCommittedEntries n1;
       mret (n', mkAppendEntriesResp (currentTerm_ (log_ n')) true
                   (ae_prevLogIndex req + nlen (ae_entries req)) 0 0)) /\
    lastIndex (log_ n1) = ae_prevLogIndex req + nlen (ae_entries req) /\
    at_ (lastIndex (log_ n)) (log_ n1) = None.
Proof.
  pose proof (wf_bound _ Hwf); pose proof (lastIndex_wf _ Hwf) as Hli.
  assert (contiguous (ae_prevLogIndex req) (ae_entries req)) as Hc.
  { destruct Hpre as [k Hk]; intros i e Hi.
    assert (drop (N.to_nat (ae_prevLogIndex req - snapshotIndex_ (log_ n))) (entries_ (log_ n)) !! i = Some e) as Hd
      by (rewrite Hk; by apply lookup_app_l_Some).
    rewrite lookup_drop in Hd; rewrite (wf_contig _ Hwf _ _ Hd); lia. }
  destruct (handleAppendEntries_shape req n Ht (proj1 Hp) Hc Hm) as (n1 & E & _ & _ & _ & _ & _ & _ & l0 & Hl0 & Hl1).
  exists n1; split; [done|].
  destruct (same_log_last _ _ Hl0) as [Hl _].
  destruct (append_accepted req l0) as (Hwf1 & Hs1 & Hlast & _);
    [by rewrite <- Hl0|rewrite Hl; by destruct Hl0 as (_ & -> & _)|done|lia|].
  rewrite <- Hl1 in Hwf1, Hs1, Hlast; rewrite decide_False in Hlast by done; split; [done|].
  destruct (at_ (lastIndex (log_ n)) (log_ n1)) eqn:Ea; [|done].
  assert (is_Some (at_ (lastIndex (log_ n)) (log_ n1))) as Hx by eauto.
  apply at_range in Hx; [lia|done|lia].
Qed.

(** The commit index can go back.  An accepted request that covers fewer
    indices than the node has committed, from a leader that has committed more,
    lowers the node's commit index below what it was (and below what it has
    applied). *)
Theorem append_lowers_commit (req : AppendEntriesReq) (n : RaftNode S)
    (Ht : nodeTerm n <= ae_term req)
    (Hs : snapshotIndex_ (log_ n) <= ae_prevLogIndex req)
    (Hm : ae_prevLogIndex req = 0 \/
          (termAt (ae_prevLogIndex req) (log_ n) = ae_prevLogTerm req /\ ae_prevLogTerm req <> 0))
    (Hc : contiguous (ae_prevLogIndex req) (ae_entries req))
    (Hlow : ae_prevLogIndex req + nlen (ae_entries req) < commitIndex_ n)
    (Hlc : commitIndex_ n < ae_leaderCommit req) :
  exists n1,
    handleAppendEntries req n =
      (n' ← applyCommittedEntries n1;
       mret (n', mkAppendEntriesResp (currentTerm_ (log_ n')) true
                   (ae_prevLogIndex req + nlen (ae_entries req)) 0 0)) /\
    commitIndex_ n1 < commitIndex_ n /\ lastApplied_ n1 = lastApplied_ n.
Proof.
  destruct (handleAppendEntries_shape req n Ht Hs Hc Hm) as (n1 & E & _ & _ & _ & _ & Hla & Hci & _).
  exists n1; split_and!; [done| |done]; rewrite Hci.
  case (N.ltb_spec _ _); lia.
Qed.

End handlers.

(** ** InstallSnapshot *)
Section snapshots.
Context {S : Type} `{StateMachine S}.
Implicit Types n : RaftNode S.

Lemma handleInstallSnapshot_shape req n s :
  nodeTerm n <= is_term req -> snapshotIndex_ (log_ n) < is_lastIncludedIndex req ->
  sm_restore (is_data req) = Ok s ->
  exists n' l0,
    handleInstallSnapshot req n = Ok (n', mkInstallSnapshotResp (is_term req)) /\
    same_log (log_ n) l0 /\
    log_ n' = compactUpTo (is_lastIncludedIndex req) (is_lastIncludedTerm req) (is_data req) l0 /\
    nodeTerm n' = is_term req /\ role_ n' = Follower /\ sm_ n' = s /\
    commitIndex_ n' = N.max (commitIndex_ n) (is_lastIncludedIndex req) /\
    lastApplied_ n' = N.max (lastApplied_ n) (is_lastIncludedIndex req).
Proof.
  intros Ht Hs Hr; unfold handleInstallSnapshot, nodeTerm in *.
  case (N.ltb_spec (is_term req) (currentTerm_ (log_ n))); [lia|intros _].
  destruct (becomeFollower_spec (is_term req) (is_leaderId req) n)
    as (Hbt & _ & Hbr & _ & Hbl & _ & _ & _ & _ & Hbs & Hbc & Hba & _).
  set (m := becomeFollower (is_term req) (is_leaderId req) n) in *; clearbody m.
  destruct Hbl as (He & Hsi & Hst); unfold nodeTerm in Hbt.
  case (N.leb_spec _ _); [lia|intros _]; rewrite Hr; simpl.
  assert (forall i t b l, currentTerm_ (compactUpTo i t b l) = currentTerm_ l) as Hct
    by (intros i t b l; unfold compactUpTo; by destruct (_ <=? _)).
  eexists _, (log_ m); split; [unfold mret, outcome_ret; do 3 f_equal; rewrite Hct, Hbt; lia|].
  simpl; rewrite Hct, Hbc, Hba; split_and!; try done; lia.
Qed.

(** A snapshot that is ahead installs cleanly.  From a leader of a current or
    newer term, a snapshot beyond everything the node has applied replaces the
    state machine by the restored state, moves applied and commit positions to
    (at least) the snapshot, compacts the log there keeping later entries, and is
    what a restart would restore. *)
Theorem installSnapshot_ahead (req : InstallSnapshotReq) (n : RaftNode S) (s : S)
    (Hwf : pl_wf (log_ n)) (Ht : nodeTerm n <= is_term req)
    (Hs : snapshotIndex_ (log_ n) < is_lastIncludedIndex req) (Hb : is_lastIncludedIndex req < U64)
    (Ha : lastApplied_ n <= is_lastIncludedIndex req) (Hr : sm_restore (is_data req) = Ok s) :
  exists n', handleInstallSnapshot req n = Ok (n', mkInstallSnapshotResp (is_term req)) /\
    sm_ n' = s /\ lastApplied_ n' = is_lastIncludedIndex req /\
    is_lastIncludedIndex req <= commitIndex_ n' /\
    pl_wf (log_ n') /\ snapshotIndex_ (log_ n') = is_lastIncludedIndex req /\
    loadSnapshotBytes (log_ n') = Some (is_data req) /\
    forall idx, idx < U64 -> at_ idx (log_ n') =
      if decide (idx <= is_lastIncludedIndex req) then None else at_ idx (log_ n).
Proof.
  destruct (handleInstallSnapshot_shape req n s Ht Hs Hr) as (n' & l0 & E & Hl0 & Hl & _ & _ & Hsm & Hc & Hla).
  exists n'; rewrite Hl, Hc, Hla.
  assert (pl_wf l0) as Hwf0 by (by rewrite <- Hl0).
  destruct (compactUpTo_facts (is_lastIncludedIndex req) (is_lastIncludedTerm req) (is_data req) l0)
    as (H1 & H2 & H3 & H4); [done|by destruct Hl0 as (_ & -> & _)|done|].
  split_and!; try done; try lia.
  intros idx Hi; rewrite (H4 idx Hi), (same_log_at _ _ idx Hl0); done.
Qed.

(** A snapshot that is behind rewinds the state machine.  When the node has
    applied more than the snapshot covers (but has not compacted that far), the
    handler overwrites the state machine with the older state and leaves
    [lastApplied_] where it was, so the entries in between are in the log, count
    as applied, and are not applied again by the apply loop. *)
Theorem installSnapshot_rewinds (req : InstallSnapshotReq) (n : RaftNode S) (s : S)
    (Ht : nodeTerm n <= is_term req) (Hs : snapshotIndex_ (log_ n) < is_lastIncludedIndex req)
    (Ha : is_lastIncludedIndex req < lastApplied_ n) (Hc : commitIndex_ n <= lastApplied_ n)
    (Hr : sm_restore (is_data req) = Ok s) :
  exists n', handleInstallSnapshot req n = Ok (n', mkInstallSnapshotResp (is_term req)) /\
    sm_ n' = s /\ lastApplied_ n' = lastApplied_ n /\ applyCommittedEntries n' = Ok n'.
Proof.
  destruct (handleInstallSnapshot_shape req n s Ht Hs Hr) as (n' & l0 & E & _ & _ & _ & _ & Hsm & Hci & Hla).
  exists n'; split_and!; [done|done|lia|].
  unfold applyCommittedEntries; simpl; rewrite Hla, Hci.
  case (N.ltb_spec _ _); [lia|done].
Qed.

End snapshots.

(** ** Concrete instances *)
Definition follower_of (l : PersistentLog) : RaftNode KvStore :=
  mkRaftNode (sample_opts 2) KvStore_init l Follower sample_cfg 0 0 0 0 ∅ ∅ ∅ [] true [] 0 0 ∅.

(** The three entries of [sample_log] (term 2), as held by a follower. *)
Definition sample_follower : RaftNode KvStore := follower_of sample_log.

Lemma checkPrev_conflict_witness :
  exists first, checkPrev (mkAppendEntriesReq 3 1 3 1 [] 0) sample_log
                = Some (mkAppendEntriesResp 2 false first 2 0) /\ 0 < first <= 3.
Proof.
  destruct (checkPrev_conflict (mkAppendEntriesReq 3 1 3 1 [] 0) sample_log 2)
    as (first & E & Hf & _);
    [exact sample_log_wf|split; vm_compute; (reflexivity || discriminate)|reflexivity|discriminate|discriminate|].
  exists first; split; [exact E|exact Hf].
Defined.

Lemma backoff_uses_term_witness :
  onAppendEntriesResp 2 2 true (mkAppendEntriesResp 2 false 1 2 0) sample_leader
  = Ok (set_nextIndex (<[2 := 2]> (nextIndex_ sample_leader)) sample_leader).
Proof.
  apply (backoff_uses_term (mkAppendEntriesReq 3 1 3 1 [] 0) sample_log
           (mkAppendEntriesResp 2 false 1 2 0) 2 sample_leader);
    [reflexivity|reflexivity|vm_compute; discriminate].
Defined.

(** A leader of term 3 whose first entry is of term 1, and a follower whose first
    entry is of term 2. *)
Definition stuck_leader : RaftNode KvStore :=
  mkRaftNode (sample_opts 1) KvStore_init
    (mkPersistentLog ∅ 3 1 0 0 [mkLogEntry 1 1 NoOp []; mkLogEntry 3 2 NoOp []]) Leader sample_cfg 1 0 0 0
    {[1 := 2; 2 := 2; 3 := 2]} {[1 := 0; 2 := 0; 3 := 0]} ∅ [] true [] 0 0 ∅.

Definition stuck_follower_log : PersistentLog :=
  mkPersistentLog ∅ 3 0 0 0 [mkLogEntry 2 1 NoOp []].

Lemma backoff_livelock_witness :
  appendRounds 1000 2 stuck_leader stuck_follower_log = Some stuck_leader.
Proof.
  apply (backoff_livelock 1000 2 stuck_leader stuck_follower_log 2);
    [reflexivity|vm_compute; discriminate|reflexivity|reflexivity|reflexivity|reflexivity|discriminate].
Defined.

(** Index 3 again, with commit index 3. *)
Definition repeat_req (es : list LogEntry) (lc : LogIndex) : AppendEntriesReq :=
  mkAppendEntriesReq 2 1 0 0 es lc.

Lemma take_sample_contiguous k : contiguous 0 (take k sample_entries).
Proof. apply contiguous_take, (wf_contig _ sample_log_wf). Qed.

Lemma handleAppendEntries_accepts_witness :
  exists n1, handleAppendEntries (repeat_req sample_entries 2) (follower_of (mkPersistentLog ∅ 1 0 0 0 [])) =
      (n' ← applyCommittedEntries n1;
       mret (n', mkAppendEntriesResp (currentTerm_ (log_ n')) true (0 + nlen sample_entries) 0 0)) /\
    commitIndex_ n1 = 2 /\ lastIndex (log_ n1) = 3.
Proof.
  destruct (handleAppendEntries_accepts (repeat_req sample_entries 2) (follower_of (mkPersistentLog ∅ 1 0 0 0 [])))
    as (n1 & E & _ & _ & _ & _ & _ & Hc & Ha).
  - split; [apply contiguous_nil|reflexivity].
  - vm_compute; discriminate.
  - split; vm_compute; discriminate.
  - left; reflexivity.
  - exact (take_sample_contiguous 3).
  - reflexivity.
  - exists n1; split; [exact E|split; [exact Hc|]].
    destruct Ha as (_ & _ & Hl & _); exact Hl.
Defined.

Lemma stale_append_truncates_witness :
  exists n1, handleAppendEntries (repeat_req (take 1 sample_entries) 0) sample_follower =
      (n' ← applyCommittedEntries n1;
       mret (n', mkAppendEntriesResp (currentTerm_ (log_ n')) true (0 + nlen (take 1 sample_entries)) 0 0)) /\
    lastIndex (log_ n1) = 1 /\ lastIndex (log_ sample_follower) = 3.
Proof.
  destruct (stale_append_truncates (repeat_req (take 1 sample_entries) 0) sample_follower)
    as (n1 & E & Hl & _).
  - exact sample_log_wf.
  - vm_compute; discriminate.
  - split; vm_compute; discriminate.
  - left; reflexivity.
  - discriminate.
  - exact (prefix_take sample_entries 1).
  - reflexivity.
  - exists n1; split; [exact E|split; [exact Hl|reflexivity]].
Defined.

Lemma append_lowers_commit_witness :
  let n := set_lastApplied 2 (set_commitIndex 2 sample_follower) in
  exists n1, handleAppendEntries (repeat_req (take 1 sample_entries) 3) n =
      (n' ← applyCommittedEntries n1;
       mret (n', mkAppendEntriesResp (currentTerm_ (log_ n')) true (0 + nlen (take 1 sample_entries)) 0 0)) /\
    commitIndex_ n1 < 2 /\ lastApplied_ n1 = 2.
Proof.
  apply (append_lowers_commit (repeat_req (take 1 sample_entries) 3)
           (set_lastApplied 2 (set_commitIndex 2 sample_follower))).
  - vm_compute; discriminate.
  - vm_compute; discriminate.
  - left; reflexivity.
  - exact (take_sample_contiguous 1).
  - reflexivity.
  - reflexivity.
Defined.

(** The snapshot of a store that holds only what index 2 wrote. *)
Definition sample_snapshot : bytes :=
  KvStore_snapshot (KvStore_apply_cmd (put_cmd "k" "v" 42 1) KvStore_init).1.

Lemma installSnapshot_ahead_witness :
  exists n', handleInstallSnapshot (mkInstallSnapshotReq 2 1 2 2 sample_snapshot) sample_follower
             = Ok (n', mkInstallSnapshotResp 2) /\
    KvStore_get (str "k") (sm_ n') = Some (str "v") /\ lastApplied_ n' = 2.
Proof.
  destruct (installSnapshot_ahead (mkInstallSnapshotReq 2 1 2 2 sample_snapshot) sample_follower
    (KvStore_apply_cmd (put_cmd "k" "v" 42 1) KvStore_init).1) as (n' & E & Hs & Hl & _);
    [exact sample_log_wf|vm_compute; discriminate|reflexivity|reflexivity|discriminate|vm_compute; reflexivity|].
  exists n'; rewrite Hs; split; [exact E|split; [vm_compute; reflexivity|exact Hl]].
Defined.

Lemma installSnapshot_rewinds_witness :
  let n := set_sm (run_cmds [put_cmd "k" "v" 42 1; put_cmd "k" "w" 42 2] KvStore_init)
             (set_lastApplied 3 (set_commitIndex 3 sample_follower)) in
  KvStore_get (str "k") (sm_ n) = Some (str "w") /\
  exists n', handleInstallSnapshot (mkInstallSnapshotReq 2 1 2 2 sample_snapshot) n
             = Ok (n', mkInstallSnapshotResp 2) /\
    KvStore_get (str "k") (sm_ n') = Some (str "v") /\ lastApplied_ n' = 3.
Proof.
  split; [vm_compute; reflexivity|].
  destruct (installSnapshot_rewinds (mkInstallSnapshotReq 2 1 2 2 sample_snapshot)
    (set_sm (run_cmds [put_cmd "k" "v" 42 1; put_cmd "k" "w" 42 2] KvStore_init)
             (set_lastApplied 3 (set_commitIndex 3 sample_follower)))
    (KvStore_apply_cmd (put_cmd "k" "v" 42 1) KvStore_init).1) as (n' & E & Hs & Hl & _);
    [vm_compute; discriminate|reflexivity|reflexivity|vm_compute; discriminate|vm_compute; reflexivity|].
  exists n'; rewrite Hs; split; [exact E|split; [vm_compute; reflexivity|exact Hl]].
Defined.
