(* ===== verification/Cluster.v ===== *)
(** * A Raft group over an asynchronous network

    The nodes of one group, the messages under way between them, and the events
    that make the group move: a round of a node's timer loop, the delivery of a
    request or of a reply, loss and duplication of a message, a client proposal,
    a forced snapshot, a membership change, a crash with restart.  [exec] is a
    function, so a list of events is a schedule that can be run; every
    interleaving of critical sections at the granularity of a method is a
    schedule.

    The network is the one [net/transport.h] describes: a request reaches the
    handler of its target, whose answer comes back to the callback that was given
    with the request ([TcpTransport] and [TestTransport] both do this).  Delay and
    reordering are the choice of the packet that is delivered, partitions and
    failed connections are dropped packets, and [EvDuplicate] is the second copy
    [FaultyNetwork::deliver] may enqueue. *)
From stdpp Require Import base tactics list gmap numbers strings sorting.
From Stdlib Require Import Ascii NArith Lia.
From S2P Require Import Prelude.
From S2P Require Import Buffer.
From S2P Require Import Types.
From S2P Require Import RpcMessages.
From S2P Require Import PersistentLog.
From S2P Require Import StateMachine.
From S2P Require Import RaftNode.

Local Open Scope N_scope.

(** ** State *)

(** A request with its callback, or an answer on its way to the callback.  [inc]
    is the incarnation of the process that made the call: callbacks die with
    their process. *)
Inductive Packet : Type :=
| Request (src : NodeId) (inc : N) (s : Send)
| VoteReply (dst : NodeId) (inc : N) (peer : NodeId) (newTerm : Term) (majority : N) (resp : RequestVoteResp)
| AppendReply (dst : NodeId) (inc : N) (peer : NodeId) (term : Term) (resp : AppendEntriesResp)
| SnapshotReply (dst : NodeId) (inc : N) (peer : NodeId) (idx : LogIndex) (resp : InstallSnapshotResp).

Record Cluster (S : Type) := mkCluster {
  nodes : gmap N (RaftNode S);
  incarnation : gmap N N;
  net : list Packet
}.
Arguments mkCluster {S}.
Arguments nodes {S} _.
Arguments incarnation {S} _.
Arguments net {S} _.

Inductive Event : Type :=
| EvTick (i : NodeId) (now : N)
| EvDeliver (k : nat) (now : N)
| EvDrop (k : nat)
| EvDuplicate (k : nat)
| EvPropose (i : NodeId) (commandBytes : bytes)
| EvSnapshot (i : NodeId)
| EvAddServer (i : NodeId) (newId : NodeId) (address : bytes)
| EvRemoveServer (i : NodeId) (oldId : NodeId)
| EvRestart (i : NodeId) (rng : list N) (now : N).

Section cluster.
Context {S : Type} `{StateMachine S}.

(** The configuration every process is started with, and a fresh state machine. *)
Context (initialConfig : ClusterConfig) (freshSm : S).

Definition incOf (c : Cluster S) (i : NodeId) : N := default 0 (incarnation c !! i).

Definition launch (i : NodeId) (inc : N) (ss : list Send) : list Packet := Request i inc <$> ss.

(** Node [i] becomes [n] and sends [ss]; [rest] is what else is under way. *)
Definition update (c : Cluster S) (i : NodeId) (n : RaftNode S) (rest : list Packet) : Cluster S :=
  mkCluster (<[i := n]> (nodes c)) (incarnation c) rest.

Definition of_outcome {A} (o : outcome A) : option A :=
  match o with Ok a => Some a | Throw _ => None end.

(** ** Delivery *)

(** The target's handler runs on the request; its answer is under way. *)
Definition deliverRequest (c : Cluster S) (src : NodeId) (inc : N) (s : Send) (now : N)
    (rest : list Packet) : option (Cluster S) :=
  match s with
  | SendRequestVote peer req newTerm majority =>
      match nodes c !! peer with
      | None => Some (mkCluster (nodes c) (incarnation c) rest)
      | Some n =>
          let '(n', resp) := handleRequestVote req (set_now now n) in
          Some (update c peer n' (rest ++ [VoteReply src inc peer newTerm majority resp]))
      end
  | SendAppendEntries peer req term =>
      match nodes c !! peer with
      | None => Some (mkCluster (nodes c) (incarnation c) rest)
      | Some n =>
          '(n', resp) ← of_outcome (handleAppendEntries req (set_now now n));
          Some (update c peer n' (rest ++ [AppendReply src inc peer term resp]))
      end
  | SendInstallSnapshot peer req idx =>
      match nodes c !! peer with
      | None => Some (mkCluster (nodes c) (incarnation c) rest)
      | Some n =>
          '(n', resp) ← of_outcome (handleInstallSnapshot req (set_now now n));
          Some (update c peer n' (rest ++ [SnapshotReply src inc peer idx resp]))
      end
  end.

(** The callback runs at the caller, if its process is still the same. *)
Definition deliverReply (c : Cluster S) (p : Packet) (now : N) (rest : list Packet) : option (Cluster S) :=
  match p with
  | Request _ _ _ => None
  | VoteReply dst inc peer newTerm majority resp =>
      match nodes c !! dst with
      | Some n =>
          if inc =? incOf c dst then
            '(n', ss) ← of_outcome (onRequestVoteResp newTerm majority true resp (set_now now n));
            Some (update c dst n' (rest ++ launch dst inc ss))
          else Some (mkCluster (nodes c) (incarnation c) rest)
      | None => Some (mkCluster (nodes c) (incarnation c) rest)
      end
  | AppendReply dst inc peer term resp =>
      match nodes c !! dst with
      | Some n =>
          if inc =? incOf c dst then
            n' ← of_outcome (onAppendEntriesResp peer term true resp (set_now now n));
            Some (update c dst n' rest)
          else Some (mkCluster (nodes c) (incarnation c) rest)
      | None => Some (mkCluster (nodes c) (incarnation c) rest)
      end
  | SnapshotReply dst inc peer idx resp =>
      match nodes c !! dst with
      | Some n =>
          if inc =? incOf c dst then
            Some (update c dst (onInstallSnapshotResp peer idx true resp (set_now now n)) rest)
          else Some (mkCluster (nodes c) (incarnation c) rest)
      | None => Some (mkCluster (nodes c) (incarnation c) rest)
      end
  end.

(** ** Events

    Every method of [RaftNode] runs in one step here, although the code releases
    [mu_] inside some of them (in [becomeCandidate] before [becomeLeader], in
    [applyCommittedEntries] before the state machine is called, in the handlers
    around [becomeFollower]): this group is the one in which no two methods of a
    node overlap.  [RaftSections] and [RaftThreads] have the methods cut at every
    release, and [RaftRaces] has runs of them that no run of this group matches.

    [None] means that the event cannot happen, or that it ends a process with an
    uncaught exception. *)
Definition exec (c : Cluster S) (ev : Event) : option (Cluster S) :=
  match ev with
  | EvTick i now =>
      n ← nodes c !! i;
      if running_ n then
        '(n', ss) ← of_outcome (runLoopRound now n);
        Some (update c i n' (net c ++ launch i (incOf c i) ss))
      else None
  | EvDeliver k now =>
      p ← net c !! k;
      let rest := delete k (net c) in
      match p with
      | Request src inc s => deliverRequest c src inc s now rest
      | _ => deliverReply c p now rest
      end
  | EvDrop k => p ← net c !! k; Some (mkCluster (nodes c) (incarnation c) (delete k (net c)))
  | EvDuplicate k =>
      p ← net c !! k;
      match p with
      | Request _ _ _ => Some (mkCluster (nodes c) (incarnation c) (net c ++ [p]))
      | _ => None
      end
  | EvPropose i commandBytes =>
      n ← nodes c !! i;
      '(n', _) ← of_outcome (propose commandBytes Command n);
      Some (update c i n' (net c))
  | EvSnapshot i => n ← nodes c !! i; Some (update c i (forceSnapshot n) (net c))
  | EvAddServer i newId address =>
      n ← nodes c !! i;
      '(n', _) ← of_outcome (addServer newId address n);
      Some (update c i n' (net c))
  | EvRemoveServer i oldId =>
      n ← nodes c !! i;
      '(n', _) ← of_outcome (removeServer oldId n);
      Some (update c i n' (net c))
  | EvRestart i rng now =>
      n ← nodes c !! i;
      n' ← of_outcome (newRaftNode (opts_ n) initialConfig (dir_ (log_ n)) freshSm rng now);
      Some (mkCluster (<[i := start n']> (nodes c)) (<[i := incOf c i + 1]> (incarnation c)) (net c))
  end.

Fixpoint run (evs : list Event) (c : Cluster S) : option (Cluster S) :=
  match evs with
  | [] => Some c
  | ev :: evs' => c' ← exec c ev; run evs' c'
  end.

(** A fresh group: every node on an empty directory, started at time 0. *)
Definition freshNode (o : RaftOptions) : option (RaftNode S) :=
  n ← of_outcome (newRaftNode o initialConfig ∅ freshSm [] 0); Some (start n).

Definition freshCluster (os : list RaftOptions) : Cluster S :=
  mkCluster
    (fold_left (fun m o => match freshNode o with Some n => <[id o := n]> m | None => m end) os ∅)
    ∅ [].

End cluster.
