(* ===== verification/ClusterTraces.v ===== *)
(** * Schedules that break the promises of the protocol

    Concrete runs of a group of key-value nodes, each from fresh directories
    ([freshCluster]) and each replayable with [run]: a committed command that is
    replaced by another one, a linearizable read that misses an acknowledged
    write, a replication that has stopped for good, and two leaders in one term
    from a network that delivers a request twice.  Every message of a schedule is
    sent by the code itself. *)
From stdpp Require Import base tactics list gmap numbers strings sorting.
From Stdlib Require Import Ascii NArith Lia.
From S2P Require Import Prelude.
From S2P Require Import Buffer.
From S2P Require Import Types.
From S2P Require Import RpcMessages.
From S2P Require Import PersistentLog.
From S2P Require Import StateMachine.
From S2P Require Import KvStore.
From S2P Require Import RaftNode.
From S2P Require Import RaftNodeFacts.
From S2P Require Import RaftCommit.
From S2P Require Import RaftHandlers.
From S2P Require Import Cluster.

Local Open Scope N_scope.

(** ** The groups *)
Definition group3 : Cluster KvStore := freshCluster sample_cfg KvStore_init (sample_opts <$> [1; 2; 3]).

Definition run3 (evs : list Event) : option (Cluster KvStore) := run sample_cfg KvStore_init evs group3.

Definition cfg5 : ClusterConfig := mkClusterConfig [1; 2; 3; 4; 5] [].

Definition group5 : Cluster KvStore := freshCluster cfg5 KvStore_init (sample_opts <$> [1; 2; 3; 4; 5]).

Definition run5 (evs : list Event) : option (Cluster KvStore) := run cfg5 KvStore_init evs group5.

(** Events of a network that only delays, reorders and loses messages. *)
Definition isDuplicate (ev : Event) : bool := match ev with EvDuplicate _ => true | _ => false end.

Definition putCmd (v : string) (seq : N) : bytes := KvCommand_encode (put_cmd "k" v 42 seq).

(** What a client that asks node [i] for a linearizable read of [k] is told:
    [None] when the node refuses. *)
Definition readAt (c : Cluster KvStore) (i : NodeId) (k : bytes) : option (option bytes) :=
  n ← nodes c !! i;
  if (linearizableReadBarrier n).1 then Some (KvStore_get k (sm_ n)) else None.

(** The terms of the applied entry at [idx] on node [i]. *)
Definition appliedTerm (c : Cluster KvStore) (i : NodeId) (idx : LogIndex) : option Term :=
  n ← nodes c !! i;
  if idx <=? lastApplied_ n then Some (termAt idx (log_ n)) else None.

Definition leaderOf (c : Cluster KvStore) (i : NodeId) : option (Role * Term) :=
  n ← nodes c !! i; Some (role_ n, nodeTerm n).

(** ** Schedules *)

(** Node 1 is elected by node 2 and appends a command at index 2.  Its first
    heartbeat to node 2 (the no-op only) is delayed; the second one carries the
    command, which node 1 then commits and applies.  The delayed heartbeat now
    cuts the command off node 2's log; node 3 is elected by node 2 and commits
    an entry of its own at index 2. *)
Definition lost_commit : list Event :=
  [EvTick 1 1000; EvDeliver 0 1000; EvDeliver 1 1000; EvPropose 1 (putCmd "a" 1);
   EvTick 1 2000; EvDeliver 3 2000; EvDeliver 4 2000; EvDeliver 1 2000; EvDeliver 1 2000;
   EvTick 3 3000; EvDeliver 5 3000; EvDeliver 5 3000; EvDeliver 6 3000; EvDeliver 6 3000].

(** Node 1 commits [k = a] and is then cut off; node 2 is elected by node 3 and
    commits [k = b]. *)
Definition deposed_leader : list Event :=
  [EvTick 1 1000; EvDeliver 0 1000; EvDeliver 1 1000; EvPropose 1 (putCmd "a" 1);
   EvTick 1 2000; EvDeliver 3 2000; EvDeliver 4 2000;
   EvTick 2 4000; EvDeliver 5 4000; EvDeliver 5 4000; EvPropose 2 (putCmd "b" 2);
   EvTick 2 5000; EvDeliver 8 5000; EvDeliver 8 5000; EvTick 2 6000; EvDeliver 9 6000; EvDeliver 9 6000].

(** Node 1 leads term 1 and node 2 leads term 2, each with its no-op at index 1
    on its own log only; node 1 is then elected in term 3. *)
Definition diverged : list Event :=
  [EvTick 1 1000; EvDeliver 1 1000; EvDeliver 1 1000; EvTick 2 1000; EvTick 2 2000;
   EvDeliver 6 2000; EvDeliver 6 2000; EvDeliver 5 2000; EvTick 1 3000;
   EvDeliver 9 3000; EvDeliver 9 3000].

(** Nodes 1 and 3 stand in term 1; the one request that node 2 (of node 1), and
    that node 4 (of node 3), receives is delivered twice. *)
Definition doubled_votes : list Event :=
  [EvTick 1 1000; EvDuplicate 0; EvDeliver 0 1000; EvDeliver 3 1000; EvDeliver 3 1000; EvDeliver 3 1000;
   EvTick 3 1000; EvDuplicate 9; EvDeliver 9 1000; EvDeliver 10 1000; EvDeliver 10 1000; EvDeliver 10 1000].

(** ** What they show *)

(** A committed command can be lost.  Without any duplicated message and
    without a crash, three nodes reach a state in which two of them have applied
    different entries at index 2: node 1 the client's command of term 1, node 3
    an entry of term 2.  The cause is that [appendAndSync] truncates on a delayed
    request that brings nothing new. *)
Theorem committed_command_lost :
  existsb isDuplicate lost_commit = false /\
  exists c, run3 lost_commit = Some c /\ appliedTerm c 1 2 = Some 1 /\ appliedTerm c 3 2 = Some 2 /\
    (KvStore_get (str "k") ∘ sm_) <$> (nodes c !! 1) = Some (Some (str "a")) /\
    (KvStore_get (str "k") ∘ sm_) <$> (nodes c !! 3) = Some None.
Proof.
  split; [reflexivity|].
  eexists; split; [vm_compute; reflexivity|]; repeat split; vm_compute; reflexivity.
Qed.

(** [linearizableReadBarrier] does not make reads linearizable.  Node 1, which
    leads term 1 and has been replaced by node 2 in term 2, still lets a read of
    [k] through and answers with the overwritten value, although the new leader
    has committed and applied another one. *)
Theorem linearizable_read_is_stale :
  existsb isDuplicate deposed_leader = false /\
  exists c, run3 deposed_leader = Some c /\ leaderOf c 2 = Some (Leader, 2) /\
    readAt c 2 (str "k") = Some (Some (str "b")) /\ readAt c 1 (str "k") = Some (Some (str "a")).
Proof.
  split; [reflexivity|].
  eexists; split; [vm_compute; reflexivity|]; repeat split; vm_compute; reflexivity.
Qed.

(** The stuck replication is reachable.  After [diverged] node 1 leads term 3,
    and no number of exchanges of [AppendEntries] requests and replies between it
    and node 2 changes its state: node 2 never gets an entry from it. *)
Theorem stuck_replication_reachable :
  existsb isDuplicate diverged = false /\
  exists c leader follower, run3 diverged = Some c /\ nodes c !! 1 = Some leader /\ nodes c !! 2 = Some follower /\
    role_ leader = Leader /\ nodeTerm leader = 3 /\ lastIndex (log_ leader) = 2 /\
    forall k, appendRounds k 2 leader (log_ follower) = Some leader.
Proof.
  split; [reflexivity|].
  destruct (run3 diverged) as [c|] eqn:E; [|vm_compute in E; discriminate].
  exists c; vm_compute in E; injection E as <-.
  do 2 eexists; split; [reflexivity|split; [vm_compute; reflexivity|split; [vm_compute; reflexivity|]]].
  do 3 (split; [reflexivity|]).
  intros k; induction k as [|k IH]; [reflexivity|]; cbn [appendRounds].
  rewrite (appendRound_fixpoint 2 _ _ 2); [exact IH|..]; try reflexivity; vm_compute; discriminate.
Qed.

(** A network that delivers a request twice breaks election safety: votes are
    counted per reply and not per voter, so in a group of five two nodes become
    leaders of term 1 with the vote of one peer each. *)
Theorem duplicate_vote_two_leaders :
  exists c, run5 doubled_votes = Some c /\ leaderOf c 1 = Some (Leader, 1) /\ leaderOf c 3 = Some (Leader, 1).
Proof. eexists; split; [vm_compute; reflexivity|]; split; vm_compute; reflexivity. Qed.
