(* ===== verification/RaftInvariant.v ===== *)
(** * An invariant of every node of a running group

    Types, durability and the membership of a group whose configuration does not
    change: every field is within its C++ type, the directory of a node holds
    exactly its persistent state, its log has no configuration entry, and every
    message under way carries values of that kind.  Each method preserves the
    invariant, and relates the node before and after by [quiet]: the term never
    decreases, the vote of a term never changes, and a node takes office only in
    the methods of an election. *)
From stdpp Require Import base tactics list gmap numbers strings sorting.
From Stdlib Require Import Ascii NArith Lia.
From S2P Require Import Prelude.
From S2P Require Import Buffer.
From S2P Require Import Types.
From S2P Require Import RpcMessages.
From S2P Require Import PersistentLog.
From S2P Require Import StateMachine.
From S2P Require Import RaftNode.
From S2P Require Import RaftNodeFacts.
From S2P Require Import RaftHandlers.

Local Open Scope N_scope.

(** ** Logs *)
Definition entry_ok (e : LogEntry) : Prop := LogEntry_valid e /\ e_type e <> Config.

Record log_ok (l : PersistentLog) : Prop := {
  lo_durable : durable l;
  lo_valid : pl_valid l;
  lo_noconfig : Forall (fun e => e_type e <> Config) (entries_ l)
}.

Lemma log_ok_entries l : log_ok l -> Forall entry_ok (entries_ l).
Proof. intros [_ Hv Hc]; apply Forall_and; split; [apply Hv|done]. Qed.

Lemma log_ok_setHardState t v l : log_ok l -> t < U64 -> v < U32 -> log_ok (setHardState t v l).
Proof.
  intros [Hd Hv Hc] Ht Hv'; split; [by apply setHardState_durable| |done].
  destruct Hv; by split.
Qed.

Lemma with_dir_valid d l : pl_valid l -> pl_valid (with_dir d l).
Proof. intros []; by split. Qed.

Lemma log_ok_append es l : log_ok l -> Forall entry_ok es -> log_ok (appendAndSync es l).
Proof.
  intros [Hd Hv Hc] Hes; apply Forall_and in Hes as [Hes1 Hes2].
  split; [by apply appendAndSync_durable|..]; destruct es as [|e es]; try done; cbv [appendAndSync].
  - by apply with_dir_valid, append_entries_valid.
  - apply Forall_app; split; [|done].
    destruct (_ <? nlen _); [by apply Forall_take|done].
Qed.

Lemma log_ok_compact idx t b l : log_ok l -> idx < U64 -> t < U64 -> log_ok (compactUpTo idx t b l).
Proof.
  intros [Hd Hv Hc] Hi Ht; split; [by apply compactUpTo_durable|..]; unfold compactUpTo;
    destruct (idx <=? _); try done; cbv zeta.
  - by apply with_dir_valid, compact_entries_valid.
  - change (entries_ (with_dir _ ?m)) with (entries_ m); unfold compact_entries; cbn [entries_].
    destruct (_ <=? nlen _); [by apply Forall_drop|done].
Qed.

Lemma entry_at_valid l i e : log_ok l -> entries_ l !! i = Some e -> LogEntry_valid e.
Proof. intros Hl He; eapply Forall_lookup_1 in He; [|apply (log_ok_entries _ Hl)]; apply He. Qed.

Lemma log_ok_termAt idx l : log_ok l -> termAt idx l < U64.
Proof.
  intros Hl; unfold termAt; destruct (_ =? _); [apply Hl|]; destruct (_ <? _); [done|].
  destruct (_ <=? _); [done|]; destruct (entries_ l !! _) eqn:E; [|done].
  by apply (entry_at_valid _ _ _ Hl) in E as [].
Qed.

Lemma log_ok_lastIndex l : log_ok l -> lastIndex l < U64.
Proof.
  intros Hl; unfold lastIndex; destruct (last (entries_ l)) eqn:E; [|apply Hl].
  rewrite last_lookup in E; by apply (entry_at_valid _ _ _ Hl) in E as (_ & ? & _).
Qed.

Lemma collect_subset m out rest e : e ∈ collect m out rest -> e ∈ out \/ e ∈ rest.
Proof.
  revert out; induction rest as [|x rest IH]; intros out; simpl; [by left|].
  rewrite elem_of_cons; destruct (_ && _); [|intros He; apply IH in He; revert He];
    rewrite elem_of_app, list_elem_of_singleton; tauto.
Qed.

Lemma log_ok_entriesAfter i m l : log_ok l -> Forall entry_ok (entriesAfter i m l).
Proof.
  intros Hl; apply Forall_forall; intros e; unfold entriesAfter.
  destruct (_ <? _); [by rewrite elem_of_nil|]; destruct (_ <=? _); [by rewrite elem_of_nil|].
  intros He; apply collect_subset in He as [He|He]; [set_solver|].
  apply list_elem_of_lookup in He as [k Hk]; rewrite lookup_drop in Hk.
  exact (Forall_lookup_1 _ _ _ _ (log_ok_entries _ Hl) Hk).
Qed.

Section invariant.
Context {S : Type} `{StateMachine S}.
Implicit Types n : RaftNode S.

(** The configuration of the group. *)
Context (cfg : ClusterConfig).

(** ** Nodes and messages *)
Record node_ok (i : NodeId) n : Prop := {
  no_id : id (opts_ n) = i;
  no_range : 0 < i < U32;
  no_config : config_ n = cfg;
  no_log : log_ok (log_ n);
  no_applied : lastApplied_ n < U64
}.

Definition send_ok (s : Send) : Prop :=
  match s with
  | SendRequestVote _ req _ _ => rv_term req < U64 /\ rv_candidateId req < U32
  | SendAppendEntries _ req _ => ae_term req < U64 /\ Forall entry_ok (ae_entries req)
  | SendInstallSnapshot _ req _ =>
      is_term req < U64 /\ is_lastIncludedIndex req < U64 /\ is_lastIncludedTerm req < U64
  end.

Definition isVote (s : Send) : Prop :=
  match s with SendRequestVote _ _ _ _ => True | _ => False end.

(** The persistent election state moves forward. *)
Definition hs_le (l l' : PersistentLog) : Prop :=
  currentTerm_ l <= currentTerm_ l' /\
  (currentTerm_ l' = currentTerm_ l -> votedFor_ l <> 0 -> votedFor_ l' = votedFor_ l).

#[global] Instance hs_le_preorder : PreOrder hs_le.
Proof.
  split; [intros l; by split|]; intros a b c [H1 H2] [H3 H4]; split; [lia|].
  intros Ht Hv; rewrite H4; [apply H2; [lia|done]|lia|]. rewrite H2; [done|lia|done].
Qed.

(** A method that does not take part in an election as a candidate. *)
Record quiet n n' : Prop := {
  qu_opts : opts_ n' = opts_ n;
  qu_hs : hs_le (log_ n) (log_ n');
  qu_role : role_ n' = Follower \/
            (role_ n' = role_ n /\ nodeTerm n' = nodeTerm n /\ votes_ n' = votes_ n)
}.

#[global] Instance quiet_preorder : PreOrder quiet.
Proof.
  split; [intros n; split; [done|done|by right]|].
  intros a b c [H1 H2 H3] [H4 H5 H6]; split; [congruence|by etransitivity|].
  destruct H6 as [?|(? & ? & ?)]; [by left|]; destruct H3 as [?|(? & ? & ?)]; [left|right]; split_and?; congruence.
Qed.

(** The whole step: invariant and relation together. *)
Definition good i n n' : Prop := node_ok i n' /\ quiet n n'.

Lemma good_refl i n : node_ok i n -> good i n n.
Proof. by split. Qed.

Lemma good_trans i a b c : good i a b -> (node_ok i b -> good i b c) -> good i a c.
Proof. intros [H1 H2] H3; destruct (H3 H1) as [H4 H5]; split; [done|by etransitivity]. Qed.

(** Assignments to fields the invariant does not mention. *)
Lemma good_fields i n n' :
  node_ok i n -> opts_ n' = opts_ n -> config_ n' = config_ n -> log_ n' = log_ n ->
  lastApplied_ n' < U64 -> role_ n' = role_ n -> votes_ n' = votes_ n -> good i n n'.
Proof.
  intros [] Ho Hc Hl Ha Hr Hv; split; [split; congruence|].
  split; [done|by rewrite Hl|right]; unfold nodeTerm; by rewrite Hl.
Qed.

Lemma good_log i n l :
  node_ok i n -> log_ok l -> hs_le (log_ n) l -> currentTerm_ l = currentTerm_ (log_ n) -> good i n (set_log l n).
Proof. intros [] Hl Hh Ht; split; [by split|]; split; [done|done|by right]. Qed.

(** ** The methods *)
Lemma becomeFollower_good i term leader n :
  node_ok i n -> term < U64 -> good i n (becomeFollower term leader n).
Proof.
  intros [? ? ? Hl ?] Ht; unfold becomeFollower; case (N.ltb_spec _ _); intros Hlt; split; split; simpl; auto.
  - apply log_ok_setHardState; [done|done|lia].
  - split; simpl; lia.
  - done.
Qed.

Lemma takeCommitted_applied fuel acc n es n' :
  takeCommitted fuel acc n = (es, n') -> lastApplied_ n < U64 -> lastApplied_ n' < U64.
Proof.
  revert acc n; induction fuel as [|fuel IH]; intros acc n; simpl; [by intros [= <- <-]|].
  destruct (_ <? _); [|by intros [= <- <-]].
  destruct (at_ _ _); [|by intros [= <- <-]].
  intros Hr _; eapply IH; [exact Hr|]; simpl; apply add64_bound.
Qed.

Lemma applyCommittedEntries_good i n n' :
  node_ok i n -> applyCommittedEntries n = Ok n' -> good i n n'.
Proof.
  intros Hn Hr; pose proof (applyCommittedEntries_frame _ _ Hr) as [].
  apply good_fields; auto; [apply fr_config, Hn|].
  unfold applyCommittedEntries in Hr; destruct (takeCommitted _ _ _) as [es m] eqn:E.
  apply takeCommitted_applied in E; [|apply Hn].
  by apply applyAll_sm in Hr as (-> & _).
Qed.

Lemma tryAdvance_good i n n' : node_ok i n -> tryAdvanceCommitIndex n = Ok n' -> good i n n'.
Proof.
  intros Hn; unfold tryAdvanceCommitIndex; intros Hr; case_decide; inv_ok; [|by apply good_refl].
  destruct (commitCandidate n) as [c|]; inv_ok; [|by apply good_refl].
  destruct (_ && _); inv_ok; [|by apply good_refl].
  apply (good_trans _ _ (set_commitIndex c n)); [|by intros; apply applyCommittedEntries_good].
  apply good_fields; try done; apply Hn.
Qed.

Lemma propose_good i b t n n' r :
  node_ok i n -> nlen b < U32 -> EntryType_valid t -> t <> Config ->
  propose b t n = Ok (n', r) -> good i n n'.
Proof.
  intros Hn Hb Ht Hc; unfold propose; intros Hr; case_decide; inv_ok; [|by apply good_refl].
  simplify_eq; eapply (good_trans _ _ (set_log _ n)); [|intros; by eapply tryAdvance_good].
  apply good_log; [done| |by split|done].
  apply log_ok_append; [apply Hn|]; constructor; [|done]; split; [|done].
  split_and!; [apply Hn|apply add64_bound|done|done].
Qed.

Lemma onAppendEntriesResp_good i peer term ok resp n n' :
  node_ok i n -> aer_term resp < U64 -> onAppendEntriesResp peer term ok resp n = Ok n' -> good i n n'.
Proof.
  intros Hn Ht; unfold onAppendEntriesResp; intros Hr.
  destruct (negb ok); inv_ok; [by apply good_refl|].
  destruct (_ <? _); inv_ok; [by apply becomeFollower_good|].
  destruct (_ || _); inv_ok; [by apply good_refl|].
  destruct (aer_success resp); inv_ok; [|apply good_fields; try done; apply Hn].
  eapply good_trans; [|intros; by eapply tryAdvance_good].
  apply good_fields; try done; apply Hn.
Qed.

Lemma onInstallSnapshotResp_good i peer idx ok resp n :
  node_ok i n -> isr_term resp < U64 -> good i n (onInstallSnapshotResp peer idx ok resp n).
Proof.
  intros Hn Ht; unfold onInstallSnapshotResp.
  destruct (negb ok); [by apply good_refl|].
  destruct (_ <? _); [by apply becomeFollower_good|].
  apply good_fields; try done; apply Hn.
Qed.

(** ** What a leader sends *)
Lemma broadcast_ok i n :
  node_ok i n -> Forall (fun s => send_ok s /\ ~ isVote s) (broadcastAppendEntries n).
Proof.
  intros [? ? ? Hl ?]; unfold broadcastAppendEntries; case_decide; [|done].
  apply Forall_forall; intros s Hs; apply list_elem_of_In, in_flat_map in Hs as (p & _ & Hs).
  destruct (_ =? _); [done|]; destruct (_ <=? _);
    unfold sendInstallSnapshotTo, sendAppendEntriesTo in Hs; case_decide; try done;
    destruct Hs as [<-|[]]; simpl.
  - split; [|tauto]; split_and!; apply Hl.
  - split; [|tauto]; split; [apply Hl|by apply log_ok_entriesAfter].
Qed.

(** ** Elections *)

(** The node was a candidate and has taken office in its term (or has stepped
    down again). *)
Record elected n n' : Prop := {
  el_opts : opts_ n' = opts_ n;
  el_hs : hs_le (log_ n) (log_ n');
  el_vote : nodeTerm n' = nodeTerm n /\ nodeVote n' = nodeVote n;
  el_role : role_ n' = Follower \/ (role_ n' = Leader /\ nodeTerm n' = nodeTerm n)
}.

Lemma reset_peers_fields vs last n :
  let n' := fold_left (fun n v =>
      set_matchIndex (<[v := 0]> (matchIndex_ n))
        (set_nextIndex (<[v := add64 last 1]> (nextIndex_ n)) n)) vs n in
  opts_ n' = opts_ n /\ config_ n' = config_ n /\ log_ n' = log_ n /\ lastApplied_ n' = lastApplied_ n /\
  role_ n' = role_ n /\ votes_ n' = votes_ n.
Proof.
  revert n; induction vs as [|v vs IH]; intros n; [done|]; simpl.
  by destruct (IH (set_matchIndex (<[v := 0]> (matchIndex_ n))
        (set_nextIndex (<[v := add64 last 1]> (nextIndex_ n)) n))) as (-> & -> & -> & -> & -> & ->).
Qed.

Lemma reset_peers_match vs last n :
  let n' := fold_left (fun n v =>
      set_matchIndex (<[v := 0]> (matchIndex_ n))
        (set_nextIndex (<[v := add64 last 1]> (nextIndex_ n)) n)) vs n in
  forall v, matchIndex_ n' !! v = if decide (v ∈ vs) then Some 0 else matchIndex_ n !! v.
Proof.
  revert n; induction vs as [|x vs IH]; intros n n' v; [unfold n'; by rewrite decide_False by apply not_elem_of_nil|].
  unfold n'; simpl; rewrite IH; simpl; destruct (decide (v ∈ vs)), (decide (v ∈ x :: vs)) as [Hin|Hin]; try done.
  - by destruct Hin; right.
  - apply elem_of_cons in Hin as [->|?]; [by rewrite lookup_insert_eq|done].
  - rewrite lookup_insert_ne; [done|]; intros ->; apply Hin; left.
Qed.


Lemma propose_vote b t n n' r :
  propose b t n = Ok (n', r) -> nodeTerm n' = nodeTerm n /\ nodeVote n' = nodeVote n.
Proof.
  unfold propose; intros Hr; case_decide; inv_ok; simplify_eq; [|done].
  match goal with H : tryAdvanceCommitIndex _ = Ok _ |- _ => apply tryAdvance_frame in H as [_ Hl _ _ _ _] end.
  unfold nodeTerm, nodeVote; by rewrite Hl.
Qed.

Lemma becomeLeader_elected i n n' ss :
  node_ok i n -> role_ n = Candidate -> becomeLeader n = Ok (n', ss) ->
  node_ok i n' /\ elected n n' /\ Forall (fun s => send_ok s /\ ~ isVote s) ss.
Proof.
  intros Hn Hc; unfold becomeLeader; rewrite decide_True by done; intros Hr; inv_ok.
  simplify_eq.
  match goal with H1 : propose _ _ ?x = Ok _ |- _ => set (m := x) in * end.
  assert (opts_ m = opts_ n /\ config_ m = config_ n /\ log_ m = log_ n /\ lastApplied_ m = lastApplied_ n /\
          role_ m = Leader /\ votes_ m = votes_ n) as (Ho & Hcf & Hl & Ha & Hrl & Hv).
  { unfold m; match goal with |- context [fold_left _ ?vs ?x] =>
      exact (reset_peers_fields vs (lastIndex (log_ n)) x) end. }
  clearbody m.
  assert (node_ok i m) as Hm by (destruct Hn; split; congruence).
  match goal with H1 : propose _ _ m = Ok ?x, H2 : tryAdvanceCommitIndex _ = Ok n' |- _ =>
    destruct x as [m1 r]; apply propose_vote in H1 as Hpv; apply tryAdvance_frame in H2 as Hfr;
    apply (propose_good i) in H1; [|done..]; destruct H1 as [Hm1 Hq1];
    apply (tryAdvance_good i) in H2; [|done]; destruct H2 as [Hm2 Hq2] end.
  assert (quiet m n') as [Hqo Hqh Hqr] by (by etransitivity).
  split_and!; [done| |by apply (broadcast_ok i)].
  split; [congruence|by rewrite <- Hl| |].
  { destruct Hfr as [_ Hfl _ _ _ _]; unfold nodeTerm, nodeVote in *; cbn [fst] in Hfl; rewrite Hfl, <- Hl; exact Hpv. }
  destruct Hqr as [?|(? & ? & ?)]; [by left|right]; unfold nodeTerm in *; split; congruence.
Qed.

(** The state and the requests of a candidate that has to ask its peers. *)
Definition voteRequests (me : NodeId) (term : Term) (lastIdx : LogIndex) (lastTrm : Term) : list Send :=
  flat_map (fun peer =>
    if peer =? me then []
    else [SendRequestVote peer (mkRequestVoteReq term me lastIdx lastTrm) term (nlen (voters cfg) / 2 + 1)])
    (voters cfg).

Record standing i n m : Prop := {
  st_ok : node_ok i m;
  st_opts : opts_ m = opts_ n;
  st_term : nodeTerm m = add64 (nodeTerm n) 1;
  st_vote : nodeVote m = i;
  st_role : role_ m = Candidate
}.

Lemma becomeCandidate_cases i n n' ss :
  node_ok i n -> becomeCandidate n = Ok (n', ss) ->
  exists m, standing i n m /\
    ((hasVoter cfg i = false /\ voters cfg <> [] /\ n' = m /\ ss = []) \/
     ((hasVoter cfg i = true \/ voters cfg = []) /\ votes_ m !! nodeTerm m = Some 1 /\
      ((nlen (voters cfg) / 2 + 1 <= 1 /\ node_ok i n' /\ elected m n' /\
        Forall (fun s => send_ok s /\ ~ isVote s) ss) \/
       (n' = m /\ ss = voteRequests i (nodeTerm m) (lastIndex (log_ m)) (lastTerm (log_ m)))))).
Proof.
  intros [Hid Hrg Hcf Hl Ha]; unfold becomeCandidate.
  set (m0 := resetElectionDeadline _).
  assert (standing i n m0) as Hst.
  { split; try done; split; try done.
    unfold m0; simpl; apply log_ok_setHardState; [done|apply add64_bound|lia]. }
  assert (config_ m0 = cfg) as -> by apply Hst.
  assert (add64 (currentTerm_ (log_ n)) 1 = nodeTerm m0) as -> by (symmetry; apply Hst).
  rewrite Hid; clearbody m0; intros Hr.
  destruct (negb (hasVoter cfg i) && (0 <? nlen (voters cfg))) eqn:E; inv_ok.
  { apply andb_true_iff in E as [E1%negb_true_iff E2%N.ltb_lt]; simplify_eq; exists n'; split; [done|left].
    split_and!; try done; intros Hv; rewrite Hv in E2; unfold nlen in E2; simpl in E2; lia. }
  set (m := set_votes (<[nodeTerm m0 := 1]> (votes_ m0)) m0) in *.
  assert (standing i n m) as Hst' by (destruct Hst as [[] ? ? ? ?]; repeat (split; try done)).
  assert (votes_ m !! nodeTerm m = Some 1) as Hvm by (apply lookup_insert_eq).
  exists m; split; [done|right]; split_and!; [|done|].
  { apply andb_false_iff in E as [E%negb_false_iff|E%N.ltb_ge]; [by left|right].
    destruct (voters cfg); [done|]; rewrite nlen_cons in E; lia. }
  destruct (N.leb_spec (nlen (voters cfg) / 2 + 1) 1) as [Hm|Hm]; inv_ok.
  - left; split; [done|]; apply becomeLeader_elected; [apply Hst'|apply Hst'|done].
  - right; simplify_eq; done.
Qed.

Lemma voteRequests_elem me t li lt s :
  s ∈ voteRequests me t li lt <->
  exists peer, peer ∈ voters cfg /\ peer <> me /\
    s = SendRequestVote peer (mkRequestVoteReq t me li lt) t (nlen (voters cfg) / 2 + 1).
Proof.
  unfold voteRequests; rewrite list_elem_of_In, in_flat_map; split.
  - intros (p & Hp%list_elem_of_In & Hs); destruct (N.eqb_spec p me); [done|].
    destruct Hs as [<-|[]]; eauto.
  - intros (p & Hp & Hne & ->); exists p; split; [by apply list_elem_of_In|].
    destruct (N.eqb_spec p me); [done|by left].
Qed.

Lemma onRequestVoteResp_cases i newTerm majority resp n n' ss :
  node_ok i n -> rvr_term resp < U64 -> onRequestVoteResp newTerm majority true resp n = Ok (n', ss) ->
  (good i n n' /\ ss = []) \/
  (role_ n = Candidate /\ nodeTerm n = newTerm /\ rvr_term resp <= newTerm /\ rvr_voteGranted resp = true /\
   let v := default 0 (votes_ n !! newTerm) + 1 in
   let m := set_votes (<[newTerm := v]> (votes_ n)) n in
   (v < majority /\ n' = m /\ ss = []) \/
   (majority <= v /\ node_ok i n' /\ elected n n' /\ Forall (fun s => send_ok s /\ ~ isVote s) ss)).
Proof.
  intros Hn Ht; unfold onRequestVoteResp; cbn [negb]; intros Hr.
  destruct (bool_decide (role_ n = Candidate)) eqn:Er; cbn [negb orb] in Hr;
    [apply bool_decide_eq_true in Er|inv_ok; simplify_eq; left; by split; [apply good_refl|]].
  destruct (N.eqb_spec (currentTerm_ (log_ n)) newTerm) as [Et|]; cbn [negb] in Hr;
    [|inv_ok; simplify_eq; left; by split; [apply good_refl|]].
  destruct (N.ltb_spec newTerm (rvr_term resp)); inv_ok.
  { simplify_eq; left; split; [by apply becomeFollower_good|done]. }
  destruct (rvr_voteGranted resp) eqn:Eg; inv_ok; [|simplify_eq; left; by split; [apply good_refl|]].
  right; split_and!; try done; cbv zeta.
  destruct (N.leb_spec majority (default 0 (votes_ n !! newTerm) + 1)); inv_ok; [right|left].
  - split; [done|]; apply (becomeLeader_elected i) in Hr as (? & [] & ?); [|destruct Hn; by split|done].
    split; [done|]; split; [by split|done].
  - simplify_eq; done.
Qed.

(** ** The handlers *)
Lemma setVote_good i v n :
  node_ok i n -> v < U32 -> nodeVote n = 0 \/ nodeVote n = v ->
  good i n (set_log (setHardState (nodeTerm n) v (log_ n)) n).
Proof.
  intros Hn Hv Hc; apply good_log; [done| |split; [done|]; simpl; unfold nodeVote in *; intros; destruct Hc; congruence|done].
  apply log_ok_setHardState; [apply Hn|apply Hn|done].
Qed.

Lemma handleRequestVote_good i req n n' resp :
  node_ok i n -> rv_term req < U64 -> rv_candidateId req < U32 -> handleRequestVote req n = (n', resp) ->
  good i n n' /\ rvr_term resp < U64 /\
  (rvr_voteGranted resp = true -> nodeTerm n' = rv_term req /\ nodeVote n' = rv_candidateId req /\
     nodeTerm n <= rv_term req /\ (nodeTerm n = rv_term req -> nodeVote n = 0 \/ nodeVote n = rv_candidateId req)).
Proof.
  intros Hn Ht Hc; unfold handleRequestVote; case (N.ltb_spec _ _); intros Hlt.
  { intros [= <- <-]; split_and!; [by apply good_refl|apply Hn|done]. }
  set (m := if _ <? _ then _ else n).
  assert (good i n m /\ nodeTerm m = rv_term req /\ (nodeTerm n = rv_term req -> nodeVote n = nodeVote m))
    as (Hm & Hmt & Hmv).
  { unfold m, nodeTerm in *; case (N.ltb_spec _ _); intros Hlt'; [|split_and!; [by apply good_refl|lia|done]].
    destruct (becomeFollower_spec (rv_term req) 0 n) as (E & _).
    split_and!; [by apply becomeFollower_good|unfold nodeTerm in E; lia|lia]. }
  clearbody m; destruct ((_ || _) && _) eqn:E; intros [= <- <-].
  - apply andb_true_iff in E as [E%orb_true_iff _]; rewrite !N.eqb_eq in E.
    split_and!; [|apply Hm|].
    + eapply good_trans; [exact Hm|]; intros Hmo.
      eapply good_trans; [by apply (setVote_good i (rv_candidateId req))|].
      intros Hm1; apply good_fields; try done; apply Hmo.
    + intros _; split_and!; [done|done|done|]; intros Heq; rewrite (Hmv Heq); done.
  - split_and!; [done|apply Hm|done].
Qed.

Lemma handleAppendEntries_good i req n n' resp :
  node_ok i n -> ae_term req < U64 -> Forall entry_ok (ae_entries req) ->
  handleAppendEntries req n = Ok (n', resp) -> good i n n' /\ aer_term resp < U64.
Proof.
  intros Hn Ht He; unfold handleAppendEntries; case (N.ltb_spec _ _); intros Hlt Hr.
  { inv_ok; simplify_eq; split; [by apply good_refl|apply Hn]. }
  set (m := set_leaderId _ _) in Hr.
  assert (good i n m) as Hm.
  { eapply good_trans; [by apply (becomeFollower_good i (ae_term req) (ae_leaderId req))|].
    intros Hb; apply good_fields; try done; apply Hb. }
  clearbody m; destruct (checkPrev req (log_ m)) as [r|] eqn:Ec; inv_ok.
  { simplify_eq; split; [done|]; apply checkPrev_fields in Ec as (-> & _); apply Hm. }
  simplify_eq; match goal with H : applyCommittedEntries _ = Ok _ |- _ => rename H into Ha end.
  assert (good i n n') as Hg; [|split; [done|apply Hg]].
  eapply good_trans; [exact Hm|]; clear Hm; intros Hm.
  set (m1 := match ae_entries req with [] => m | _ => _ end) in Ha.
  assert (good i m m1) as Hm1.
  { unfold m1; destruct (ae_entries req) as [|e es]; [by apply good_refl|].
    apply good_log; [done|apply log_ok_append; [apply Hm|done]|by split|done]. }
  clearbody m1; eapply good_trans; [exact Hm1|]; clear Hm Hm1; intros Hm1.
  eapply good_trans; [|intros; by eapply applyCommittedEntries_good].
  destruct (_ <? _); [|by apply good_refl]; apply good_fields; try done; apply Hm1.
Qed.

Lemma handleInstallSnapshot_good i req n n' resp :
  node_ok i n -> is_term req < U64 -> is_lastIncludedIndex req < U64 -> is_lastIncludedTerm req < U64 ->
  handleInstallSnapshot req n = Ok (n', resp) -> good i n n' /\ isr_term resp < U64.
Proof.
  intros Hn Ht Hi Htm; unfold handleInstallSnapshot; case (N.ltb_spec _ _); intros Hlt Hr.
  { inv_ok; simplify_eq; split; [by apply good_refl|apply Hn]. }
  assert (good i n (becomeFollower (is_term req) (is_leaderId req) n)) as Hm by by apply becomeFollower_good.
  set (m := becomeFollower _ _ _) in *; clearbody m.
  destruct (_ <=? _); inv_ok; simplify_eq.
  { split; [done|apply Hm]. }
  match goal with |- good i n ?x /\ _ => assert (good i n x) as Hg; [|split; [done|apply Hg]] end.
  eapply good_trans; [exact Hm|]; clear Hm; intros Hm.
  set (lg := compactUpTo _ _ _ _).
  assert (good i m (set_log lg m)) as Hl.
  { assert (currentTerm_ lg = currentTerm_ (log_ m) /\ votedFor_ lg = votedFor_ (log_ m)) as [E1 E2]
      by (unfold lg, compactUpTo; by destruct (_ <=? _)).
    apply good_log; [done|apply log_ok_compact; [apply Hm|done..]| |done].
    split; [by rewrite E1|by rewrite E2]. }
  eapply good_trans; [exact Hl|]; intros Hm1; apply good_fields; try done; simpl.
  pose proof (no_applied _ _ Hm); lia.
Qed.

(** ** Snapshots, the timer loop, restarts *)
Lemma forceSnapshot_good i n : node_ok i n -> good i n (forceSnapshot n).
Proof.
  intros Hn; unfold forceSnapshot; destruct (_ <=? _); [by apply good_refl|].
  set (lg := compactUpTo _ _ _ _).
  assert (currentTerm_ lg = currentTerm_ (log_ n) /\ votedFor_ lg = votedFor_ (log_ n)) as [E1 E2]
    by (unfold lg, compactUpTo; by destruct (_ <=? _)).
  apply good_log; [done| |split; [by rewrite E1|by rewrite E2]|done].
  apply log_ok_compact; [apply Hn|apply Hn|apply log_ok_termAt, Hn].
Qed.

Lemma maybeSnapshot_good i n : node_ok i n -> good i n (maybeSnapshot n).
Proof.
  intros Hn; unfold maybeSnapshot; destruct (_ <=? _); [by apply forceSnapshot_good|by apply good_refl].
Qed.

Lemma set_now_good i now n : node_ok i n -> good i n (set_now now n).
Proof. intros Hn; apply good_fields; try done; apply Hn. Qed.

Lemma runLoopRound_cases i now n n' ss :
  node_ok i n -> runLoopRound now n = Ok (n', ss) ->
  (good i n n' /\ Forall (fun s => send_ok s /\ ~ isVote s) ss) \/
  (exists m, becomeCandidate (set_now now n) = Ok (m, ss) /\ n' = maybeSnapshot m).
Proof.
  intros Hn; unfold runLoopRound; intros Hr; inv_ok; simplify_eq.
  pose proof (set_now_good i now n Hn) as Hw; destruct x as [m s]; simpl in *.
  match goal with H : (if decide _ then _ else _) = Ok _ |- _ => rename H into Hx end.
  case_decide; [left|].
  - assert (good i n m /\ Forall (fun s => send_ok s /\ ~ isVote s) s) as [Hm Hs].
    { destruct (_ <=? _); inv_ok; simplify_eq; [|done]; split; [|by apply (broadcast_ok i), Hw].
      eapply good_trans; [exact Hw|]; intros; apply good_fields; try done; apply Hn. }
    split; [|done]; eapply good_trans; [exact Hm|]; apply maybeSnapshot_good.
  - destruct (_ <=? _); inv_ok; [right; eauto|simplify_eq; left]; split; [|done].
    eapply good_trans; [exact Hw|]; apply maybeSnapshot_good.
Qed.

(** A restart from the directory of a good node: the persistent state is read
    back and the node is a follower again. *)
Lemma restart_good i sm0 rng now n n' :
  node_ok i n -> newRaftNode (opts_ n) cfg (dir_ (log_ n)) sm0 rng now = Ok n' -> good i n (start n').
Proof.
  intros [Hid Hrg Hcf Hl Ha]; unfold newRaftNode; rewrite (lo_durable _ Hl); intros Hr; inv_ok.
  simplify_eq; split; split; try done; [apply Hl|by left].
Qed.

Lemma fresh_good o sm0 rng now n :
  0 < id o < U32 -> newRaftNode o cfg ∅ sm0 rng now = Ok n ->
  node_ok (id o) (start n) /\ nodeTerm (start n) = 0 /\ role_ (start n) = Follower.
Proof.
  intros Hid; unfold newRaftNode.
  change (loadFromDisk ∅) with (Ok (mkPersistentLog ∅ 0 0 0 0 [])); intros Hr; inv_ok; simplify_eq.
  split_and!; try done; split; try done; split; try done; by split.
Qed.

End invariant.
