(* ===== verification/ElectionSafety.v ===== *)
(** * Election safety of a group with a fixed configuration

    At most one node leads a term, at any two times of a run: under delay,
    reordering and loss of messages, under crashes and restarts of any node, and
    under duplication of every message but the vote requests.  The proof follows
    the code's own bookkeeping: a ghost set records every vote ever granted, the
    counter of a candidate never exceeds the number of distinct voters behind it,
    and two majorities of the voters meet. *)
From stdpp Require Import base tactics list gmap numbers strings sorting relations.
From Stdlib Require Import Ascii NArith Lia.
From S2P Require Import Prelude.
From S2P Require Import Buffer.
From S2P Require Import Types.
From S2P Require Import RpcMessages.
From S2P Require Import PersistentLog.
From S2P Require Import StateMachine.
From S2P Require Import KvStore.
From S2P Require Import RaftNode.
From S2P Require Import RaftNodeFacts.
From S2P Require Import RaftCommit.
From S2P Require Import RaftHandlers.
From S2P Require Import Cluster.
From S2P Require Import RaftInvariant.

Local Open Scope N_scope.

(** ** The messages of an election *)

(** The candidate, the term and the peer of a vote request or its reply. *)
Definition voteKey (p : Packet) : option (NodeId * Term * NodeId) :=
  match p with
  | Request src _ (SendRequestVote peer _ t _) => Some (src, t, peer)
  | VoteReply dst _ peer t _ _ => Some (dst, t, peer)
  | _ => None
  end.

Definition voteKeys (net : list Packet) : list (NodeId * Term * NodeId) := omap voteKey net.

Lemma voteKeys_app ps qs : voteKeys (ps ++ qs) = voteKeys ps ++ voteKeys qs.
Proof. apply omap_app. Qed.

Lemma voteKeys_delete net k p :
  net !! k = Some p ->
  voteKeys net ≡ₚ match voteKey p with Some x => x :: voteKeys (delete k net) | None => voteKeys (delete k net) end.
Proof.
  intros Hk; unfold voteKeys at 1; rewrite (delete_Permutation _ _ _ Hk); simpl.
  by destruct (voteKey p).
Qed.

Lemma voteKeys_quiet i inc ss : Forall (fun s => ~ isVote s) ss -> voteKeys (launch i inc ss) = [].
Proof.
  induction 1 as [|s ss Hs _ IH]; [done|].
  unfold voteKeys, launch in *; simpl; destruct s; simpl in *; tauto.
Qed.

Lemma NoDup_submseteq_down {A} (l k : list A) : l ⊆+ k -> NoDup k -> NoDup l.
Proof.
  intros Hs Hk; apply submseteq_Permutation in Hs as [m Hm]; rewrite Hm in Hk.
  by apply NoDup_app in Hk as [? _].
Qed.

Section election.
Context {S : Type} `{StateMachine S}.
Context (cfg : ClusterConfig) (freshSm : S).
Implicit Types (c : Cluster S) (n : RaftNode S) (ns : gmap N (RaftNode S)) (net : list Packet)
  (g : gset (N * N * N)) (Q : gset N).

Definition majorityOf : N := nlen (voters cfg) / 2 + 1.

(** ** Typed messages *)
Definition packet_ok (p : Packet) : Prop :=
  match p with
  | Request src _ s => send_ok s /\
      match s with
      | SendRequestVote peer req t m =>
          rv_term req = t /\ rv_candidateId req = src /\ m = majorityOf /\ peer ∈ voters cfg
      | _ => True
      end
  | VoteReply _ _ peer _ m resp => rvr_term resp < U64 /\ m = majorityOf /\ peer ∈ voters cfg
  | AppendReply _ _ _ _ resp => aer_term resp < U64
  | SnapshotReply _ _ _ _ resp => isr_term resp < U64
  end.

Record cluster_ok ns net : Prop := {
  co_nodes : forall i n, ns !! i = Some n -> node_ok cfg i n;
  co_net : Forall packet_ok net
}.

(** ** The votes of a run *)

(** A candidate's counter is covered by voters that granted and whose message is
    no longer under way; a candidate that is no voter has asked nobody. *)
Definition cand_ok net g (i : NodeId) n : Prop :=
  (forall p, (i, nodeTerm n, p) ∉ voteKeys net) \/
  exists Q, default 0 (votes_ n !! nodeTerm n) <= N.of_nat (size Q) /\
    forall q, q ∈ Q -> q ∈ voters cfg /\ (q, nodeTerm n, i) ∈ g /\ (i, nodeTerm n, q) ∉ voteKeys net.

Definition leader_ok g (i : NodeId) n : Prop :=
  exists Q, nlen (voters cfg) < 2 * N.of_nat (size Q) /\
    forall q, q ∈ Q -> q ∈ voters cfg /\ (q, nodeTerm n, i) ∈ g.

Record elect_inv ns net g : Prop := {
  ei_unique : forall v t a b, (v, t, a) ∈ g -> (v, t, b) ∈ g -> a = b;
  ei_known : forall v t a, (v, t, a) ∈ g ->
    a <> 0 /\ exists n, ns !! v = Some n /\ t <= nodeTerm n /\ (nodeTerm n = t -> nodeVote n = a);
  ei_keys : NoDup (voteKeys net);
  ei_asked : forall a t p, (a, t, p) ∈ voteKeys net -> exists n, ns !! a = Some n /\ t <= nodeTerm n;
  ei_reply : forall a inc v t m resp, VoteReply a inc v t m resp ∈ net ->
    rvr_voteGranted resp = true -> rvr_term resp <= t -> (v, t, a) ∈ g;
  ei_cand : forall i n, ns !! i = Some n -> role_ n = Candidate -> cand_ok net g i n;
  ei_leader : forall i n, ns !! i = Some n -> role_ n = Leader -> leader_ok g i n
}.

(** ** Changes that preserve it *)
Lemma cand_ok_mono net net' g g' i n :
  voteKeys net' ⊆ voteKeys net -> g ⊆ g' -> cand_ok net g i n -> cand_ok net' g' i n.
Proof.
  intros Hn Hg [Hp|(Q & Hs & Hq)]; [left; intros p Hp'; by apply (Hp p), Hn|right].
  exists Q; split; [done|]; intros q Hin; destruct (Hq q Hin) as (? & ? & Hk).
  split_and!; [done|by apply Hg|]; intros Hk'; by apply Hk, Hn.
Qed.

Lemma leader_ok_mono g g' i n : g ⊆ g' -> leader_ok g i n -> leader_ok g' i n.
Proof.
  intros Hg (Q & Hs & Hq); exists Q; split; [done|]; intros q Hin; destruct (Hq q Hin); auto.
Qed.

Lemma elect_net ns net net' g :
  elect_inv ns net g -> voteKeys net' ⊆+ voteKeys net ->
  (forall a inc v t m resp, VoteReply a inc v t m resp ∈ net' -> rvr_voteGranted resp = true ->
     rvr_term resp <= t -> VoteReply a inc v t m resp ∈ net \/ (v, t, a) ∈ g) ->
  elect_inv ns net' g.
Proof.
  intros [] Hk Hr; assert (voteKeys net' ⊆ voteKeys net) as Hsub
    by (intros x Hx; by eapply elem_of_submseteq).
  split; eauto using NoDup_submseteq_down.
  - intros a inc v t m resp Hin Hg Ht; destruct (Hr _ _ _ _ _ _ Hin Hg Ht); eauto.
  - intros i n Hi Hc; eapply cand_ok_mono; eauto.
Qed.

Lemma elect_update ns net g i n n' :
  elect_inv ns net g -> ns !! i = Some n -> hs_le (log_ n) (log_ n') ->
  (role_ n' = Candidate -> cand_ok net g i n') -> (role_ n' = Leader -> leader_ok g i n') ->
  elect_inv (<[i := n']> ns) net g.
Proof.
  intros [] Hi [Ht Hv] Hc Hl; split; try done.
  - intros v t a Hin; destruct (ei_known0 _ _ _ Hin) as (Ha & m & Hm & Htm & Hvm); split; [done|].
    destruct (decide (v = i)) as [->|]; [|exists m; by rewrite lookup_insert_ne].
    exists n'; rewrite lookup_insert_eq; simplify_eq; split_and!; [done|unfold nodeTerm in *; lia|].
    unfold nodeTerm, nodeVote in *; intros Heq; rewrite Hv; [apply Hvm; lia|lia|].
    rewrite Hvm; [done|lia].
  - intros a t p Hin; destruct (ei_asked0 _ _ _ Hin) as (m & Hm & Htm).
    destruct (decide (a = i)) as [->|]; [|exists m; by rewrite lookup_insert_ne].
    exists n'; rewrite lookup_insert_eq; simplify_eq; split; [done|]; unfold nodeTerm in *; lia.
  - intros j m; rewrite lookup_insert; case_decide; [intros [= <-]; subst; auto|eauto].
  - intros j m; rewrite lookup_insert; case_decide; [intros [= <-]; subst; auto|eauto].
Qed.

Lemma elect_quiet ns net g i n n' :
  elect_inv ns net g -> ns !! i = Some n -> quiet n n' -> elect_inv (<[i := n']> ns) net g.
Proof.
  intros He Hi [Ho Hh Hr]; eapply elect_update; [done..| |].
  - intros Hc; destruct Hr as [Hr|(Hr & Ht & Hv)]; [congruence|].
    rewrite Hc in Hr; symmetry in Hr; pose proof (ei_cand _ _ _ He i n Hi Hr) as Hn.
    unfold cand_ok in *; by rewrite Ht, Hv.
  - intros Hc; destruct Hr as [Hr|(Hr & Ht & Hv)]; [congruence|].
    rewrite Hc in Hr; symmetry in Hr; pose proof (ei_leader _ _ _ He i n Hi Hr) as Hn.
    unfold leader_ok in *; by rewrite Ht.
Qed.

(** A vote on record is granted. *)
Lemma elect_grant ns net g v n a :
  elect_inv ns net g -> ns !! v = Some n -> nodeVote n = a -> a <> 0 ->
  elect_inv ns net (g ∪ {[ (v, nodeTerm n, a) ]}).
Proof.
  intros He Hv Ha H0.
  assert (forall b, (v, nodeTerm n, b) ∈ g -> b = a) as Hu.
  { intros b Hb; destruct (ei_known _ _ _ He _ _ _ Hb) as (_ & m & Hm & _ & Hvm).
    simplify_eq; symmetry; auto. }
  destruct He; split; try done.
  - intros w t b b'; rewrite !elem_of_union, !elem_of_singleton; intros [H1|E1] [H2|E2];
      simplify_eq; eauto; symmetry; eauto.
  - intros w t b; rewrite elem_of_union, elem_of_singleton; intros [H1|[= -> -> ->]]; [eauto|].
    split; [done|]; exists n; split_and!; done.
  - intros; apply elem_of_union_l; eauto.
  - intros i m Hi Hc; eapply cand_ok_mono; [done|apply union_subseteq_l|eauto].
  - intros i m Hi Hc; eapply leader_ok_mono; [apply union_subseteq_l|eauto].
Qed.

(** The reply of a voter the candidate has not counted yet. *)
Lemma elect_count ns net g k i inc peer m resp n :
  elect_inv ns net g -> net !! k = Some (VoteReply i inc peer (nodeTerm n) m resp) ->
  ns !! i = Some n -> role_ n = Candidate -> peer ∈ voters cfg ->
  rvr_voteGranted resp = true -> rvr_term resp <= nodeTerm n ->
  exists Q, default 0 (votes_ n !! nodeTerm n) + 1 <= N.of_nat (size Q) /\
    forall q, q ∈ Q -> q ∈ voters cfg /\ (q, nodeTerm n, i) ∈ g /\ (i, nodeTerm n, q) ∉ voteKeys (delete k net).
Proof.
  intros He Hk Hi Hc Hp Hg Ht; pose proof (voteKeys_delete _ _ _ Hk) as Hperm; simpl in Hperm.
  assert ((i, nodeTerm n, peer) ∉ voteKeys (delete k net)) as Hfresh.
  { pose proof (ei_keys _ _ _ He) as Hnd; rewrite Hperm in Hnd; by apply NoDup_cons in Hnd as []. }
  destruct (ei_cand _ _ _ He i n Hi Hc) as [Hno|(Q & Hs & Hq)].
  { exfalso; apply (Hno peer); rewrite Hperm; by left. }
  exists (Q ∪ {[ peer ]}); split.
  - rewrite size_union, size_singleton; [lia|].
    apply disjoint_singleton_r; intros Hin; destruct (Hq _ Hin) as (_ & _ & Hn).
    apply Hn; rewrite Hperm; by left.
  - intros q; rewrite elem_of_union, elem_of_singleton; intros [Hin| ->].
    + destruct (Hq _ Hin) as (? & ? & Hn); split_and!; [done..|]; intros Hd; apply Hn; rewrite Hperm; by right.
    + split_and!; [done| |done]; eapply (ei_reply _ _ _ He); [by eapply list_elem_of_lookup_2|done..].
Qed.

(** A candidate asks its peers in a term in which it has asked nobody. *)
Lemma voteKeys_requests i inc t li lt :
  voteKeys (launch i inc (voteRequests cfg i t li lt)) = (fun p => (i, t, p)) <$> filter (fun p => p <> i) (voters cfg).
Proof.
  unfold voteRequests, voteKeys, launch; generalize (nlen (voters cfg) / 2 + 1) as m; intros m.
  induction (voters cfg) as [|p ps IH]; [done|]; simpl; rewrite filter_cons.
  destruct (N.eqb_spec p i); simpl; [rewrite decide_False by tauto; exact IH|].
  rewrite decide_True by done; simpl; f_equal; exact IH.
Qed.

Lemma elect_ask ns net g i inc n t li lt :
  elect_inv ns net g -> NoDup (voters cfg) -> ns !! i = Some n -> t <= nodeTerm n ->
  (forall p, (i, t, p) ∉ voteKeys net) -> i ∈ voters cfg -> (i, t, i) ∈ g ->
  votes_ n !! t = Some 1 ->
  elect_inv ns (net ++ launch i inc (voteRequests cfg i t li lt)) g.
Proof.
  intros He Hnd Hi Hc Hno Hv Hg H1.
  set (ps := launch _ _ _); assert (voteKeys ps = _) as Hps by apply voteKeys_requests.
  assert (forall a t' p, (a, t', p) ∈ voteKeys ps -> a = i /\ t' = t /\ p <> i) as Hin.
  { intros a t' p; rewrite Hps, list_elem_of_fmap; intros (q & [= -> -> ->] & Hq).
    by apply list_elem_of_filter in Hq as []. }
  destruct He; split; try done.
  - rewrite voteKeys_app; apply NoDup_app; split_and!; [done| |].
    + intros [[a t'] p] Hold Hnew; apply Hin in Hnew as (-> & -> & _); by apply (Hno p).
    + rewrite Hps; apply NoDup_fmap_2; [by intros ?? [=]|by apply NoDup_filter].
  - intros a t' p; rewrite voteKeys_app, elem_of_app; intros [Hold|Hnew]; [eauto|].
    apply Hin in Hnew as (-> & -> & _); by exists n.
  - intros a inc' v t' m resp; rewrite elem_of_app; intros [Hold|Hnew]; [eauto|].
    unfold ps, launch in Hnew; by apply list_elem_of_fmap in Hnew as (s & ? & _).
  - intros j m Hj Hjc; destruct (decide (j = i /\ nodeTerm m = t)) as [[-> Ht]|Hne].
    + simplify_eq; right; exists {[ i ]}; rewrite H1, size_singleton; split; [done|].
      intros q ->%elem_of_singleton; split_and!; [done..|].
      rewrite voteKeys_app, elem_of_app; intros [Hold|Hnew]; [by apply (Hno i)|].
      by apply Hin in Hnew as (_ & _ & ?).
    + destruct (ei_cand0 _ _ Hj Hjc) as [Hn|(Q & Hs & Hq)]; [left|right].
      * intros p; rewrite voteKeys_app, elem_of_app; intros [Hold|Hnew]; [by apply (Hn p)|].
        apply Hin in Hnew as (? & ? & _); tauto.
      * exists Q; split; [done|]; intros q Hqi; destruct (Hq q Hqi) as (? & ? & Hk); split_and!; [done..|].
        rewrite voteKeys_app, elem_of_app; intros [Hold|Hnew]; [done|]; apply Hin in Hnew as (? & ? & _); tauto.
Qed.

(** ** The invariant of a run *)
Definition Inv ns net g : Prop := cluster_ok ns net /\ elect_inv ns net g.

(** The votes of a run only grow, and a vote that is new is the one on record at
    its voter. *)
Definition granted ns g g' : Prop :=
  g ⊆ g' /\ forall v t a, (v, t, a) ∈ g' -> (v, t, a) ∈ g \/ exists n, ns !! v = Some n /\ nodeTerm n = t /\ nodeVote n = a.

Lemma granted_refl ns g : granted ns g g.
Proof. split; [done|by left]. Qed.

Lemma granted_add ns g v n t a :
  ns !! v = Some n -> nodeTerm n = t -> nodeVote n = a -> granted ns g (g ∪ {[ (v, t, a) ]}).
Proof.
  intros Hv Ht Ha; split; [apply union_subseteq_l|]; intros w u b.
  rewrite elem_of_union, elem_of_singleton; intros [?|[= -> -> ->]]; [by left|right; eauto].
Qed.

(** Changes of a node that leave term and vote alone. *)
Lemma granted_same ns g g' v n n' :
  granted (<[v := n]> ns) g g' -> nodeTerm n' = nodeTerm n -> nodeVote n' = nodeVote n ->
  granted (<[v := n']> ns) g g'.
Proof.
  intros [Hg Hn] Ht Hv; split; [done|]; intros w t a Hin; destruct (Hn _ _ _ Hin) as [?|(m & Hm & ? & ?)]; [by left|right].
  rewrite lookup_insert in Hm; case_decide; subst; [injection Hm as <-; exists n'; rewrite lookup_insert_eq|exists m; rewrite lookup_insert_ne by done];
    split_and!; congruence.
Qed.

(** The replies of [net'] are those of [net], or their votes are on record. *)
Definition replies_known net net' g : Prop :=
  forall a inc v t m resp, VoteReply a inc v t m resp ∈ net' -> rvr_voteGranted resp = true ->
    rvr_term resp <= t -> VoteReply a inc v t m resp ∈ net \/ (v, t, a) ∈ g.

Lemma cluster_ok_update ns net net' i n' :
  cluster_ok ns net -> node_ok cfg i n' -> Forall packet_ok net' -> cluster_ok (<[i := n']> ns) net'.
Proof.
  intros [Hn _] Hi Hp; split; [|done].
  intros j m; rewrite lookup_insert; case_decide; [intros [= <-]; by subst|apply Hn].
Qed.

Lemma launch_ok i inc ss :
  Forall (fun s => send_ok s /\ ~ isVote s) ss -> Forall packet_ok (launch i inc ss).
Proof.
  intros Hs; apply Forall_fmap; eapply Forall_impl; [exact Hs|]; intros s [H1 H2].
  split; [done|]; by destruct s.
Qed.

Lemma launch_keys i inc ss :
  Forall (fun s => send_ok s /\ ~ isVote s) ss -> voteKeys (launch i inc ss) = [].
Proof. intros Hs; apply voteKeys_quiet; eapply Forall_impl; [exact Hs|]; by intros s []. Qed.

Lemma launch_replies net net' g i inc ss : replies_known net net' g -> replies_known net (net' ++ launch i inc ss) g.
Proof.
  intros Hr a inc' v t m resp; rewrite elem_of_app; intros [?|Hin]; [eauto|].
  by apply list_elem_of_fmap in Hin as (s & ? & _).
Qed.

Lemma delete_ok net k : Forall packet_ok net -> Forall packet_ok (delete k net).
Proof. intros Hp; by apply Forall_delete. Qed.

Lemma delete_keys net k p : net !! k = Some p -> voteKeys (delete k net) ⊆+ voteKeys net.
Proof.
  intros E; rewrite (voteKeys_delete _ _ _ E); destruct (voteKey p); [by apply submseteq_cons|done].
Qed.

Lemma delete_replies net k g : replies_known net (delete k net) g.
Proof. intros ? ? ? ? ? ? Hin _ _; left; by apply list_elem_of_delete_inv in Hin. Qed.

Lemma self_replies net g : replies_known net net g.
Proof. by left. Qed.

(** A method that is not part of an election. *)
Lemma inv_quiet ns net net' g i n n' :
  Inv ns net g -> ns !! i = Some n -> good cfg i n n' -> Forall packet_ok net' ->
  voteKeys net' ⊆+ voteKeys net -> replies_known net net' g -> Inv (<[i := n']> ns) net' g.
Proof.
  intros [Hc He] Hi [Hg Hq] Hp Hk Hr; split; [by eapply cluster_ok_update|].
  eapply elect_net; [by eapply elect_quiet|done|done].
Qed.

(** A candidate with a majority behind it. *)
Lemma inv_elected ns net g i n n' inc ss Q :
  Inv ns net g -> ns !! i = Some n -> node_ok cfg i n' -> elected n n' ->
  Forall (fun s => send_ok s /\ ~ isVote s) ss -> majorityOf <= N.of_nat (size Q) ->
  (forall q, q ∈ Q -> q ∈ voters cfg /\ (q, nodeTerm n, i) ∈ g) ->
  Inv (<[i := n']> ns) (net ++ launch i inc ss) g.
Proof.
  intros [Hc He] Hi Hn' [Ho Hh _ Hr] Hss Hm HQ; split.
  { eapply cluster_ok_update; [done..|]; apply Forall_app; split; [apply Hc|by apply launch_ok]. }
  eapply elect_net with (net := net).
  - eapply elect_update; [done..| |].
    + intros; destruct Hr as [|[]]; congruence.
    + intros Hl; destruct Hr as [|[_ Ht]]; [congruence|]; exists Q; rewrite Ht; split; [|done].
      unfold majorityOf in Hm; pose proof (N.mod_lt (nlen (voters cfg)) 2); pose proof (N.div_mod (nlen (voters cfg)) 2); lia.
  - by rewrite voteKeys_app, launch_keys, app_nil_r.
  - apply launch_replies, self_replies.
Qed.

(** ** Every event keeps it *)
Context (Hnd : NoDup (voters cfg)) (Hne : voters cfg <> []).

(** Standing for election: the term is new, so nobody has been asked in it, and
    the vote for oneself is on record. *)
Lemma inv_standing ns net g i n (m : RaftNode S) :
  Inv ns net g -> ns !! i = Some n -> standing cfg i n m -> nodeTerm n + 1 < U64 ->
  Inv (<[i := m]> ns) net (g ∪ {[ (i, nodeTerm m, i) ]}) /\ forall p, (i, nodeTerm m, p) ∉ voteKeys net.
Proof.
  intros [Hc He] Hi [Hm Ho Ht Hv Hr] Hb; rewrite add64_small in Ht by done.
  assert (forall p, (i, nodeTerm m, p) ∉ voteKeys net) as Hno.
  { intros p Hp; destruct (ei_asked _ _ _ He _ _ _ Hp) as (x & Hx & Hle); simplify_eq; lia. }
  split; [|done]; split; [eapply cluster_ok_update; [done..|apply Hc]|].
  apply elect_grant; [|by rewrite lookup_insert_eq|done|destruct (no_range _ _ _ Hm); lia].
  eapply elect_update; [done..| |by left|congruence].
  split; unfold nodeTerm in *; [lia|intros; lia].
Qed.

Lemma hasVoter_elem i : hasVoter cfg i = true -> i ∈ voters cfg.
Proof. unfold hasVoter; rewrite existsb_exists; intros (x & Hx & ->%N.eqb_eq); by apply list_elem_of_In. Qed.

Lemma voteRequests_ok i inc (m : RaftNode S) :
  node_ok cfg i m -> Forall packet_ok (launch i inc (voteRequests cfg i (nodeTerm m) (lastIndex (log_ m)) (lastTerm (log_ m)))).
Proof.
  intros Hm; apply Forall_fmap, Forall_forall; intros s Hs.
  apply voteRequests_elem in Hs as (p & Hp & _ & ->); simpl; split; [|done].
  split; [apply Hm|apply Hm].
Qed.

Lemma inv_candidate ns net g i n n' inc ss :
  Inv ns net g -> ns !! i = Some n -> nodeTerm n + 1 < U64 -> becomeCandidate n = Ok (n', ss) ->
  exists g', granted (<[i := n']> ns) g g' /\ Inv (<[i := n']> ns) (net ++ launch i inc ss) g'.
Proof.
  intros Hinv Hi Hb Hr; pose proof (co_nodes _ _ (proj1 Hinv) _ _ Hi) as Hn.
  apply (becomeCandidate_cases cfg i) in Hr as (m & Hst & Hcases); [|done].
  destruct (inv_standing _ _ _ _ _ _ Hinv Hi Hst Hb) as [HI Hno].
  assert (<[i := m]> ns !! i = Some m) as Him by apply lookup_insert_eq.
  assert (granted (<[i := m]> ns) g (g ∪ {[ (i, nodeTerm m, i) ]})) as Hgr
    by (eapply granted_add; [exact Him|done|apply (st_vote _ _ _ _ Hst)]).
  exists (g ∪ {[ (i, nodeTerm m, i) ]}).
  destruct Hcases as [(_ & _ & -> & ->)|(Hv & H1 & [(Hm & Hn' & He & Hss)|(-> & ->)])]; (split; [try exact Hgr|]).
  - by rewrite app_nil_r.
  - eapply granted_same; [exact Hgr|apply (el_vote _ _ He)..].
  - rewrite <- (insert_insert_eq ns i n' m).
    destruct Hv as [Hv%hasVoter_elem|Hv]; [|done].
    eapply (inv_elected _ _ _ _ _ _ _ _ {[ i ]}); try done; [by rewrite size_singleton|].
    intros q ->%elem_of_singleton; split; [done|]; by apply elem_of_union_r, elem_of_singleton.
  - destruct HI as [HC HE]; split.
    + split; [apply HC|]; apply Forall_app; split; [apply HC|apply voteRequests_ok, Hst].
    + destruct Hv as [Hv%hasVoter_elem|Hv]; [|done].
      apply (elect_ask _ _ _ i inc m); try done; [by apply elem_of_union_r, elem_of_singleton].
Qed.

Lemma maybeSnapshot_hard n : nodeTerm (maybeSnapshot n) = nodeTerm n /\ nodeVote (maybeSnapshot n) = nodeVote n.
Proof.
  unfold maybeSnapshot, forceSnapshot, compactUpTo; destruct (snapshotThresholdEntries _ <=? _); [|done].
  by destruct (lastApplied_ n <=? _).
Qed.

Lemma inv_tick ns net g i n n' now inc ss :
  Inv ns net g -> ns !! i = Some n -> nodeTerm n + 1 < U64 -> runLoopRound now n = Ok (n', ss) ->
  exists g', granted (<[i := n']> ns) g g' /\ Inv (<[i := n']> ns) (net ++ launch i inc ss) g'.
Proof.
  intros Hinv Hi Hb Hr; pose proof (co_nodes _ _ (proj1 Hinv) _ _ Hi) as Hn.
  pose proof (set_now_good cfg i now n Hn) as Hw.
  apply (runLoopRound_cases cfg i) in Hr as [[Hg Hss]|(m & Hm & ->)]; [| |done].
  - exists g; split; [apply granted_refl|]; eapply inv_quiet; [done..| | |by apply launch_replies, self_replies].
    + apply Forall_app; split; [apply Hinv|by apply launch_ok].
    + by rewrite voteKeys_app, launch_keys, app_nil_r.
  - rewrite <- (insert_insert_eq ns i _ (set_now now n)).
    assert (Inv (<[i := set_now now n]> ns) net g) as HI.
    { eapply inv_quiet; [done..|apply Hinv|done|apply self_replies]. }
    eapply inv_candidate in Hm as (g' & Hsub & HI'); [|done|by rewrite lookup_insert_eq|done].
    exists g'; split; [eapply granted_same; [exact Hsub|apply maybeSnapshot_hard..]|]; rewrite <- (insert_insert_eq _ i _ m).
    eapply inv_quiet; [done|by rewrite lookup_insert_eq| |apply HI'|done|apply self_replies].
    apply maybeSnapshot_good, (co_nodes _ _ (proj1 HI') i); by rewrite lookup_insert_eq.
Qed.

(** A delivered vote request: the answer takes the place of the request, and a
    granted vote is on record before the answer leaves. *)
Lemma inv_ballot ns net g k src inc peer req t m n n' resp :
  Inv ns net g -> net !! k = Some (Request src inc (SendRequestVote peer req t m)) ->
  ns !! peer = Some n -> good cfg peer n n' -> rvr_term resp < U64 ->
  (rvr_voteGranted resp = true -> rvr_term resp <= t -> nodeTerm n' = t /\ nodeVote n' = rv_candidateId req) ->
  exists g', granted (<[peer := n']> ns) g g' /\ Inv (<[peer := n']> ns) (delete k net ++ [VoteReply src inc peer t m resp]) g'.
Proof.
  intros Hinv Hk Hp Hg Ht Hgr.
  pose proof (Forall_lookup_1 _ _ _ _ (co_net _ _ (proj1 Hinv)) Hk) as ([Hq1 Hq2] & <- & Hsrc & -> & Hpv).
  assert (src <> 0) as H0.
  { destruct (ei_asked _ _ _ (proj2 Hinv) src (rv_term req) peer) as (x & Hx & _).
    - apply list_elem_of_omap; eexists; split; [by eapply list_elem_of_lookup_2|done].
    - apply (co_nodes _ _ (proj1 Hinv)) in Hx; destruct (no_range _ _ _ Hx); lia. }
  assert (Inv (<[peer := n']> ns) net g) as HI.
  { eapply inv_quiet; [done..|apply Hinv|done|apply self_replies]. }
  set (g' := if rvr_voteGranted resp && (rvr_term resp <=? rv_term req) then g ∪ {[ (peer, rv_term req, src) ]} else g).
  assert (elect_inv (<[peer := n']> ns) net g') as HE.
  { unfold g'; destruct (_ && _) eqn:E; [|apply HI]; apply andb_true_iff in E as [E1 E2%N.leb_le].
    destruct (Hgr E1 E2) as [<- Hvt]; apply elect_grant; [apply HI|by rewrite lookup_insert_eq|congruence|done]. }
  exists g'; split.
  { unfold g'; destruct (_ && _) eqn:E; [|apply granted_refl]; apply andb_true_iff in E as [E1 E2%N.leb_le].
    destruct (Hgr E1 E2) as [Hgt Hgv]; eapply granted_add; [apply lookup_insert_eq|done|congruence]. }
  split.
  - split; [apply HI|]; apply Forall_app; split; [apply delete_ok, Hinv|by repeat constructor].
  - eapply elect_net; [exact HE| |].
    + rewrite (voteKeys_delete _ _ _ Hk), voteKeys_app; simpl.
      by rewrite Permutation_app_comm.
    + intros a inc' v t m' resp'; rewrite elem_of_app, list_elem_of_singleton; intros [Hin|[= -> -> -> -> -> ->]] Hgt Hle.
      * left; by apply list_elem_of_delete_inv in Hin.
      * right; unfold g'; rewrite Hgt, (proj2 (N.leb_le _ _) Hle); by apply elem_of_union_r, elem_of_singleton.
Qed.

Lemma inv_vote ns net g k src inc peer req t m n n' resp now :
  Inv ns net g -> net !! k = Some (Request src inc (SendRequestVote peer req t m)) ->
  ns !! peer = Some n -> handleRequestVote req (set_now now n) = (n', resp) -> 
  exists g', granted (<[peer := n']> ns) g g' /\ Inv (<[peer := n']> ns) (delete k net ++ [VoteReply src inc peer t m resp]) g'.
Proof.
  intros Hinv Hk Hp Hr; pose proof (co_nodes _ _ (proj1 Hinv) _ _ Hp) as Hn.
  pose proof (Forall_lookup_1 _ _ _ _ (co_net _ _ (proj1 Hinv)) Hk) as ([Hq1 Hq2] & <- & _).
  apply (handleRequestVote_good cfg peer) in Hr as (Hg & Ht & Hgr); [|apply set_now_good, Hn|done..].
  eapply inv_ballot; try done; [eapply good_trans; [by apply set_now_good|done]|].
  intros Hgt _; by destruct (Hgr Hgt) as (? & ? & _).
Qed.

Lemma inv_drop ns net g k p : Inv ns net g -> net !! k = Some p -> Inv ns (delete k net) g.
Proof.
  intros [HC HE] Hk; split; [split; [apply HC|apply delete_ok, HC]|].
  eapply elect_net; [done|by eapply delete_keys|apply delete_replies].
Qed.

(** A vote is counted: the counter goes up, and the voters behind it with it. *)
Lemma inv_tally ns net g k i inc peer m resp n :
  Inv ns net g -> net !! k = Some (VoteReply i inc peer (nodeTerm n) m resp) -> ns !! i = Some n ->
  role_ n = Candidate -> rvr_voteGranted resp = true -> rvr_term resp <= nodeTerm n ->
  let v := default 0 (votes_ n !! nodeTerm n) + 1 in
  Inv (<[i := set_votes (<[nodeTerm n := v]> (votes_ n)) n]> ns) (delete k net) g /\
  exists Q, v <= N.of_nat (size Q) /\ forall q, q ∈ Q -> q ∈ voters cfg /\ (q, nodeTerm n, i) ∈ g.
Proof.
  intros Hinv Hk Hi Hc Hgr Hle v; pose proof (co_nodes _ _ (proj1 Hinv) _ _ Hi) as Hn.
  pose proof (Forall_lookup_1 _ _ _ _ (co_net _ _ (proj1 Hinv)) Hk) as (_ & -> & Hpv).
  destruct (elect_count _ _ _ _ _ _ _ _ _ _ (proj2 Hinv) Hk Hi Hc Hpv Hgr Hle) as (Q & HQ & Hq).
  split; [|exists Q; split; [exact HQ|]; intros q Hin; by destruct (Hq q Hin) as (? & ? & _)].
  destruct (inv_drop _ _ _ _ _ Hinv Hk) as [HC HE]; split.
  - eapply cluster_ok_update; [done| |apply HC]; destruct Hn; by split.
  - eapply elect_update; [done..| |intros Hl; change (role_ n = Leader) in Hl; congruence]; intros _; right; exists Q.
    change (nodeTerm (set_votes ?v ?x)) with (nodeTerm n); cbn [votes_ set_votes]; rewrite lookup_insert_eq.
    split; [exact HQ|done].
Qed.

(** A delivered vote reply. *)
Lemma inv_count ns net g k i inc peer t m resp n n' now ss :
  Inv ns net g -> net !! k = Some (VoteReply i inc peer t m resp) ->
  ns !! i = Some n -> onRequestVoteResp t m true resp (set_now now n) = Ok (n', ss) ->
  Inv (<[i := n']> ns) (delete k net ++ launch i inc ss) g.
Proof.
  intros Hinv Hk Hi Hr; pose proof (co_nodes _ _ (proj1 Hinv) _ _ Hi) as Hn.
  pose proof (set_now_good cfg i now n Hn) as Hw.
  pose proof (Forall_lookup_1 _ _ _ _ (co_net _ _ (proj1 Hinv)) Hk) as (Ht & -> & Hpv).
  apply (onRequestVoteResp_cases cfg i) in Hr as [[Hg ->]|(Hc & <- & Hle & Hgr & Hcnt)]; [| |apply Hw|done].
  { rewrite app_nil_r; eapply inv_quiet; [done..| |by apply delete_ok, Hinv|by eapply delete_keys|apply delete_replies].
    eapply good_trans; [exact Hw|done]. }
  change (nodeTerm (set_now now n)) with (nodeTerm n) in *; change (role_ n = Candidate) in Hc.
  destruct (inv_tally _ _ _ _ _ _ _ _ _ _ Hinv Hk Hi Hc Hgr Hle) as (HT & Q & HQ & Hq).
  destruct Hcnt as [(_ & -> & ->)|(Hm & Hn' & He & Hss)].
  - set (m := set_votes (<[nodeTerm n := default 0 (votes_ n !! nodeTerm n) + 1]> (votes_ n)) n) in HT.
    rewrite app_nil_r, <- (insert_insert_eq ns i _ m); eapply inv_quiet; [exact HT|by rewrite lookup_insert_eq| |apply HT|done|apply self_replies].
    apply (set_now_good cfg i now m), (co_nodes _ _ (proj1 HT) i); by rewrite lookup_insert_eq.
  - eapply inv_elected with (n := n) (Q := Q); try done; [by eapply inv_drop|destruct He; by split|by etransitivity].
Qed.

(** An answer to a request that is not about votes. *)
Lemma inv_answer ns net g k p i n n' r :
  Inv ns net g -> net !! k = Some p -> ns !! i = Some n -> good cfg i n n' -> packet_ok r -> voteKey r = None ->
  Inv (<[i := n']> ns) (delete k net ++ [r]) g.
Proof.
  intros Hinv Hk Hi Hg Hr Hv; eapply inv_quiet; [done..| | |].
  - apply Forall_app; split; [apply delete_ok, Hinv|by constructor].
  - rewrite voteKeys_app; change (voteKeys [r]) with (match voteKey r with Some y => [y] | None => [] end).
    rewrite Hv, app_nil_r; by eapply delete_keys.
  - intros a inc v t m resp; rewrite elem_of_app, list_elem_of_singleton; intros [Hin| <-]; [|done].
    left; by apply list_elem_of_delete_inv in Hin.
Qed.

Lemma deliverRequest_inv c c' g k src inc s now :
  Inv (nodes c) (net c) g -> net c !! k = Some (Request src inc s) ->
  deliverRequest c src inc s now (delete k (net c)) = Some c' ->
  exists g', granted (nodes c') g g' /\ Inv (nodes c') (net c') g'.
Proof.
  intros Hinv Hk Hd; pose proof (inv_drop _ _ _ _ _ Hinv Hk) as Hdrop.
  pose proof (Forall_lookup_1 _ _ _ _ (co_net _ _ (proj1 Hinv)) Hk) as [Hs _].
  destruct s as [peer req t m|peer req t|peer req idx]; simpl in Hd, Hs;
    (destruct (nodes c !! peer) as [n|] eqn:Hp; [|simplify_eq; exists g; split; [apply granted_refl|done]]);
    pose proof (co_nodes _ _ (proj1 Hinv) _ _ Hp) as Hn; pose proof (set_now_good cfg peer now n Hn) as Hw.
  - destruct (handleRequestVote req (set_now now n)) as [n' resp] eqn:E; simplify_eq; simpl.
    by eapply inv_vote.
  - destruct (handleAppendEntries req (set_now now n)) as [[n' resp]|] eqn:E; simplify_eq/=.
    destruct Hs as [Hs1 Hs2]; apply (handleAppendEntries_good cfg peer) in E as [Hg Ht]; [|apply Hw|done..].
    exists g; split; [apply granted_refl|]; eapply inv_answer; try done; by eapply good_trans.
  - destruct (handleInstallSnapshot req (set_now now n)) as [[n' resp]|] eqn:E; simplify_eq/=.
    destruct Hs as (Hs1 & Hs2 & Hs3).
    apply (handleInstallSnapshot_good cfg peer) in E as [Hg Ht]; [|apply Hw|done..].
    exists g; split; [apply granted_refl|]; eapply inv_answer; try done; by eapply good_trans.
Qed.

Lemma deliverReply_inv c c' g k p now :
  Inv (nodes c) (net c) g -> net c !! k = Some p ->
  deliverReply c p now (delete k (net c)) = Some c' -> Inv (nodes c') (net c') g.
Proof.
  intros Hinv Hk Hd; pose proof (inv_drop _ _ _ _ _ Hinv Hk) as Hdrop.
  pose proof (Forall_lookup_1 _ _ _ _ (co_net _ _ (proj1 Hinv)) Hk) as Hp.
  destruct p as [|dst inc peer t m resp|dst inc peer t resp|dst inc peer idx resp]; simpl in Hd; [done|..];
    (destruct (nodes c !! dst) as [n|] eqn:Hi; [|by simplify_eq]);
    (destruct (inc =? incOf c dst); [|by simplify_eq]);
    pose proof (co_nodes _ _ (proj1 Hinv) _ _ Hi) as Hn; pose proof (set_now_good cfg dst now n Hn) as Hw.
  - destruct (onRequestVoteResp t m true resp (set_now now n)) as [[n' ss]|] eqn:E; simplify_eq/=.
    by eapply inv_count.
  - destruct (onAppendEntriesResp peer t true resp (set_now now n)) as [n'|] eqn:E; simplify_eq/=.
    apply (onAppendEntriesResp_good cfg dst) in E; [|apply Hw|done].
    eapply inv_quiet; [exact Hinv|done|by eapply good_trans|by apply delete_ok, Hinv|by eapply delete_keys|apply delete_replies].
  - simplify_eq/=.
    eapply inv_quiet; [exact Hinv|done| |by apply delete_ok, Hinv|by eapply delete_keys|apply delete_replies].
    eapply good_trans; [exact Hw|]; intros; by apply onInstallSnapshotResp_good.
Qed.

(** ** Runs *)

(** The events the theorems below speak of: the membership is fixed, vote
    requests are not duplicated, terms stay below the limit of their type, and a
    command fits its length field. *)
Definition admissible c (ev : Event) : bool :=
  match ev with
  | EvTick i _ => match nodes c !! i with Some n => nodeTerm n + 1 <? U64 | None => true end
  | EvDuplicate k => match net c !! k with Some p => bool_decide (voteKey p = None) | None => true end
  | EvPropose _ b => nlen b <? U32
  | EvAddServer _ _ _ | EvRemoveServer _ _ => false
  | _ => true
  end.

Inductive step c c' : Prop :=
| step_event ev : admissible c ev = true -> exec cfg freshSm c ev = Some c' -> step c c'.

Lemma of_outcome_Some {A} (o : outcome A) x : of_outcome o = Some x -> o = Ok x.
Proof. destruct o; by intros [=]; subst. Qed.

Lemma step_inv c c' g :
  Inv (nodes c) (net c) g -> step c c' -> exists g', granted (nodes c') g g' /\ Inv (nodes c') (net c') g'.
Proof.
  intros Hinv [ev Ha Hx]; destruct ev as [i now|k now|k|k|i b|i|i x a|i x|i rng now]; simpl in Ha, Hx; try done;
    apply bind_Some_inv in Hx as (n & Hi & Hx).
  - rewrite Hi in Ha; apply N.ltb_lt in Ha; destruct (running_ n); [|done].
    apply bind_Some_inv in Hx as ([n' ss] & Hr%of_outcome_Some & Hx); simplify_eq/=; by eapply inv_tick.
  - destruct n; [by eapply deliverRequest_inv|..]; exists g; (split; [apply granted_refl|]); by eapply deliverReply_inv.
  - simplify_eq/=; exists g; split; [apply granted_refl|]; by eapply inv_drop.
  - rewrite Hi in Ha; apply bool_decide_eq_true in Ha; destruct n as [src inc s| | |]; simplify_eq/=.
    exists g; split; [apply granted_refl|]; destruct Hinv as [HC HE].
    pose proof (Forall_lookup_1 _ _ _ _ (co_net _ _ HC) Hi) as Hp; split.
    + split; [apply HC|]; apply Forall_app; split; [apply HC|by constructor].
    + eapply elect_net; [done| |].
      * rewrite voteKeys_app; unfold voteKeys at 2; simpl; by rewrite Ha, app_nil_r.
      * intros a inc' v t m resp; rewrite elem_of_app, list_elem_of_singleton; intros [Hin|Heq]; [by left|done].
  - apply bind_Some_inv in Hx as ([n' r] & Hr%of_outcome_Some & Hx); simplify_eq/=; apply N.ltb_lt in Ha.
    apply (propose_good cfg i) in Hr; [|by eapply Hinv|done..].
    exists g; split; [apply granted_refl|]; eapply inv_quiet; [done..|apply Hinv|done|apply self_replies].
  - simplify_eq/=; exists g; split; [apply granted_refl|].
    eapply inv_quiet; [done..|apply forceSnapshot_good; by eapply Hinv|apply Hinv|done|apply self_replies].
  - apply bind_Some_inv in Hx as (n' & Hr%of_outcome_Some & Hx); simplify_eq/=.
    apply (restart_good cfg i) in Hr; [|by eapply Hinv].
    exists g; split; [apply granted_refl|]; eapply inv_quiet; [done..|apply Hinv|done|apply self_replies].
Qed.

Lemma steps_inv c c' g :
  rtc step c c' -> Inv (nodes c) (net c) g -> exists g', g ⊆ g' /\ Inv (nodes c') (net c') g'.
Proof.
  intros Hs; revert g; induction Hs as [c|a b d Hab _ IH]; intros g HI; [by exists g|].
  destruct (step_inv _ _ _ HI Hab) as (g1 & [H1 _] & HI1).
  destruct (IH _ HI1) as (g2 & H2 & HI2); exists g2; split; [by etransitivity|done].
Qed.

(** ** The start *)
Lemma freshCluster_nodes os i n :
  nodes (freshCluster cfg freshSm os) !! i = Some n ->
  exists o, o ∈ os /\ id o = i /\ freshNode cfg freshSm o = Some n.
Proof.
  unfold freshCluster; cbn [nodes].
  assert (forall m0 : gmap N (RaftNode S),
    fold_left (fun m o => match freshNode cfg freshSm o with Some x => <[id o := x]> m | None => m end) os m0 !! i = Some n ->
    m0 !! i = Some n \/ exists o, o ∈ os /\ id o = i /\ freshNode cfg freshSm o = Some n) as Hgen.
  { induction os as [|o os IH]; intros m0 Hl; [by left|]; simpl in Hl.
    destruct (IH _ Hl) as [Hm|(o' & Ho & ?)]; [|right; exists o'; split; [by right|done]].
    destruct (freshNode cfg freshSm o) as [x|] eqn:E; [|by left].
    rewrite lookup_insert in Hm; case_decide; [|by left]; simplify_eq.
    right; exists o; split; [by left|done]. }
  intros Hl; destruct (Hgen ∅ Hl) as [Hm|?]; [by rewrite lookup_empty in Hm|done].
Qed.

Lemma freshCluster_inv os :
  Forall (fun o => 0 < id o < U32) os ->
  Inv (nodes (freshCluster cfg freshSm os)) (net (freshCluster cfg freshSm os)) ∅.
Proof.
  intros Hos; assert (forall i n, nodes (freshCluster cfg freshSm os) !! i = Some n ->
    node_ok cfg i n /\ role_ n = Follower) as Hn.
  { intros i n Hl; apply freshCluster_nodes in Hl as (o & Ho & <- & Hf).
    rewrite Forall_forall in Hos; unfold freshNode in Hf.
    apply bind_Some_inv in Hf as (m & Hm%of_outcome_Some & Hf); simplify_eq.
    apply (fresh_good cfg) in Hm as (? & _ & ?); [done|by apply Hos]. }
  split; [split; [intros i n Hl; by apply Hn|constructor]|].
  split.
  - intros v t a b Hin; by apply not_elem_of_empty in Hin.
  - intros v t a Hin; by apply not_elem_of_empty in Hin.
  - constructor.
  - intros a t p Hin; by apply elem_of_nil in Hin.
  - intros a inc v t m resp Hin; by apply elem_of_nil in Hin.
  - intros i n Hl Hc; apply Hn in Hl as [_ Hr]; congruence.
  - intros i n Hl Hc; apply Hn in Hl as [_ Hr]; congruence.
Qed.

(** A schedule of admissible events. *)
Fixpoint run_admissible (evs : list Event) c : option (Cluster S) :=
  match evs with
  | [] => Some c
  | ev :: evs' => if admissible c ev then c' ← exec cfg freshSm c ev; run_admissible evs' c' else None
  end.

Lemma run_admissible_steps evs c c' : run_admissible evs c = Some c' -> rtc step c c'.
Proof.
  revert c; induction evs as [|ev evs IH]; intros c; simpl; [by intros [= <-]|].
  destruct (admissible c ev) eqn:Ha; [|done]; intros (c1 & H1 & H2)%bind_Some_inv.
  eapply rtc_l; [by econstructor|by apply IH].
Qed.

(** Two majorities of the voters have a member in common. *)
Lemma quorums_meet Q1 Q2 :
  (forall q, q ∈ Q1 -> q ∈ voters cfg) -> (forall q, q ∈ Q2 -> q ∈ voters cfg) ->
  nlen (voters cfg) < 2 * N.of_nat (size Q1) -> nlen (voters cfg) < 2 * N.of_nat (size Q2) ->
  exists q, q ∈ Q1 /\ q ∈ Q2.
Proof.
  intros H1 H2 Hs1 Hs2; destruct (decide (Q1 ∩ Q2 = ∅)) as [He|He]; [exfalso|].
  - assert (size (Q1 ∪ Q2) = size Q1 + size Q2)%nat as Hu by (apply size_union; set_solver).
    assert (size (Q1 ∪ Q2) <= size (list_to_set (voters cfg) : gset N))%nat as Hle.
    { apply subseteq_size; intros q; rewrite elem_of_union, elem_of_list_to_set; intros []; auto. }
    rewrite size_list_to_set in Hle by done; unfold nlen in *; lia.
  - apply set_choose_L in He as [q Hq]; exists q; set_solver.
Qed.

(** The leaders of a term are the same node, now and later. *)
Lemma leaders_meet ns1 ns2 net1 net2 g1 g2 i j (n1 n2 : RaftNode S) :
  Inv ns1 net1 g1 -> Inv ns2 net2 g2 -> g1 ⊆ g2 -> ns1 !! i = Some n1 -> ns2 !! j = Some n2 ->
  role_ n1 = Leader -> role_ n2 = Leader -> nodeTerm n1 = nodeTerm n2 -> i = j.
Proof.
  intros [_ HE1] [_ HE2] Hsub Hi Hj Hl1 Hl2 Ht.
  destruct (ei_leader _ _ _ HE1 _ _ Hi Hl1) as (Q1 & Hs1 & HQ1), (ei_leader _ _ _ HE2 _ _ Hj Hl2) as (Q2 & Hs2 & HQ2).
  destruct (quorums_meet Q1 Q2) as (q & H1 & H2); [intros q Hq; by apply HQ1|intros q Hq; by apply HQ2|done..|].
  apply (ei_unique _ _ _ HE2 q (nodeTerm n2)); [apply Hsub; rewrite <- Ht|]; [by apply HQ1|by apply HQ2].
Qed.

End election.

(** ** The theorems *)
Section theorems.
Context {S : Type} `{StateMachine S}.

(** C3: election safety of uninterrupted methods. Each call of a method of
    [RaftNode] (a round of the timer, a handler, a callback, [propose]) runs without
    interruption, as one step: the releases of [mu_] inside the methods are not
    interleaved here; [interleaved_election_safety] treats those, under a condition
    that [two_leaders_in_gap] shows to be needed. In such runs of a group that
    starts from empty directories and whose membership is fixed, no two nodes ever
    lead the same term: if [i] leads a term in a reachable state and [j] leads the
    same term in the same or any later state, they are the same node, whatever the
    network delays, reorders, loses or (vote requests apart) duplicates and
    whichever nodes crash and restart between methods; terms stay below 2^64. *)
Theorem election_safety (cfg : ClusterConfig) (freshSm : S) (os : list RaftOptions)
    (c1 c2 : Cluster S) (i j : NodeId) (n1 n2 : RaftNode S)
    (Hnd : NoDup (voters cfg)) (Hne : voters cfg <> []) (Hos : Forall (fun o => 0 < id o < U32) os)
    (Hr1 : rtc (step cfg freshSm) (freshCluster cfg freshSm os) c1) (Hr2 : rtc (step cfg freshSm) c1 c2)
    (Hi : nodes c1 !! i = Some n1) (Hj : nodes c2 !! j = Some n2)
    (Hl1 : role_ n1 = Leader) (Hl2 : role_ n2 = Leader) (Ht : nodeTerm n1 = nodeTerm n2) :
  i = j.
Proof.
  destruct (steps_inv cfg freshSm Hnd Hne _ _ _ Hr1 (freshCluster_inv cfg freshSm os Hos)) as (g1 & _ & HI1).
  destruct (steps_inv cfg freshSm Hnd Hne _ _ _ Hr2 HI1) as (g2 & Hsub & HI2).
  exact (leaders_meet cfg Hnd Hne _ _ _ _ _ _ i j n1 n2 HI1 HI2 Hsub Hi Hj Hl1 Hl2 Ht).
Qed.

(** A leader has its majority on record.  In every reachable state, more than
    half of the voters have reached the term of a leader, and each of them that is
    still in that term has the leader as its recorded vote. *)
Theorem leader_backed_by_majority (cfg : ClusterConfig) (freshSm : S) (os : list RaftOptions)
    (c : Cluster S) (i : NodeId) (n : RaftNode S)
    (Hnd : NoDup (voters cfg)) (Hne : voters cfg <> []) (Hos : Forall (fun o => 0 < id o < U32) os)
    (Hr : rtc (step cfg freshSm) (freshCluster cfg freshSm os) c)
    (Hi : nodes c !! i = Some n) (Hl : role_ n = Leader) :
  exists Q : gset N, nlen (voters cfg) < 2 * N.of_nat (size Q) /\
    forall q, q ∈ Q -> q ∈ voters cfg /\
      exists m, nodes c !! q = Some m /\ nodeTerm n <= nodeTerm m /\ (nodeTerm m = nodeTerm n -> nodeVote m = i).
Proof.
  destruct (steps_inv cfg freshSm Hnd Hne _ _ _ Hr (freshCluster_inv cfg freshSm os Hos)) as (g & _ & HC & HE).
  destruct (ei_leader _ _ _ _ HE _ _ Hi Hl) as (Q & Hs & HQ); exists Q; split; [done|].
  intros q Hq; destruct (HQ q Hq) as [Hv Hg]; split; [done|].
  by destruct (ei_known _ _ _ _ HE _ _ _ Hg) as (_ & m & ?); exists m.
Qed.

End theorems.

(** ** An elected leader of three nodes *)
Definition election_run : list Event := [EvTick 1 1000; EvDeliver 0 1000; EvDeliver 1 1000].

Definition elected3 : Cluster KvStore :=
  default (mkCluster ∅ ∅ [])
    (run_admissible sample_cfg KvStore_init election_run
       (freshCluster sample_cfg KvStore_init (sample_opts <$> [1; 2; 3]))).

Definition replicated3 : Cluster KvStore :=
  default (mkCluster ∅ ∅ [])
    (run_admissible sample_cfg KvStore_init [EvRestart 3 [] 1000; EvDeliver 1 1000; EvTick 1 2000] elected3).

Definition node_of (c : Cluster KvStore) (i : NodeId) : RaftNode KvStore :=
  default (mkRaftNode (sample_opts 0) KvStore_init (mkPersistentLog ∅ 0 0 0 0 []) Follower sample_cfg 0 0 0 0
             ∅ ∅ ∅ [] false [] 0 0 ∅) (nodes c !! i).

Lemma sample_voters_nodup : NoDup (voters sample_cfg).
Proof. by_decide. Qed.

Lemma sample_ids : Forall (fun o => 0 < id o < U32) (sample_opts <$> [1; 2; 3]).
Proof. repeat constructor. Qed.

Lemma elected3_reachable :
  rtc (step sample_cfg KvStore_init) (freshCluster sample_cfg KvStore_init (sample_opts <$> [1; 2; 3])) elected3.
Proof. apply (run_admissible_steps _ _ election_run); vm_compute; reflexivity. Qed.

Lemma replicated3_reachable : rtc (step sample_cfg KvStore_init) elected3 replicated3.
Proof.
  apply (run_admissible_steps _ _ [EvRestart 3 [] 1000; EvDeliver 1 1000; EvTick 1 2000]); vm_compute; reflexivity.
Qed.

Lemma election_safety_witness :
  role_ (node_of elected3 1) = Leader /\ role_ (node_of replicated3 1) = Leader /\ 1 = 1.
Proof.
  split; [vm_compute; reflexivity|]; split; [vm_compute; reflexivity|].
  apply (election_safety sample_cfg KvStore_init (sample_opts <$> [1; 2; 3]) elected3 replicated3 1 1
           (node_of elected3 1) (node_of replicated3 1) sample_voters_nodup ltac:(discriminate) sample_ids
           elected3_reachable replicated3_reachable); vm_compute; reflexivity.
Defined.

Lemma leader_backed_by_majority_witness :
  exists Q : gset N, 3 < 2 * N.of_nat (size Q) /\
    forall q, q ∈ Q -> q ∈ [1; 2; 3] /\
      exists m, nodes elected3 !! q = Some m /\ nodeTerm (node_of elected3 1) <= nodeTerm m /\
        (nodeTerm m = nodeTerm (node_of elected3 1) -> nodeVote m = 1).
Proof.
  apply (leader_backed_by_majority sample_cfg KvStore_init (sample_opts <$> [1; 2; 3]) elected3 1
           (node_of elected3 1) sample_voters_nodup ltac:(discriminate) sample_ids elected3_reachable);
    vm_compute; reflexivity.
Defined.
