(* ===== verification/RaftLogMoves.v ===== *)
(** * How each method of [RaftNode] changes the log

    In a group that takes no snapshots, a method leaves the entries alone, appends
    one entry of the current term as leader (in office or on taking office), or
    replaces the entries after [prevLogIndex] by those of a request.  [log_move]
    is the union of these, with what the method does to term and role. *)
From stdpp Require Import base tactics list gmap numbers strings sorting.
From Stdlib Require Import Ascii NArith Lia.
From S2P Require Import Prelude.
From S2P Require Import Buffer.
From S2P Require Import Types.
From S2P Require Import RpcMessages.
From S2P Require Import PersistentLog.
From S2P Require Import StateMachine.
From S2P Require Import RaftNode.
From S2P Require Import RaftNodeFacts.
From S2P Require Import RaftHandlers.
From S2P Require Import RaftInvariant.

Local Open Scope N_scope.

Section moves.
Context {S : Type} `{StateMachine S}.
Implicit Types n : RaftNode S.

(** A node that has taken no snapshot. *)
Record plain n : Prop := {
  pn_wf : pl_wf (log_ n);
  pn_snap : snapshotIndex_ (log_ n) = 0
}.

(** ** Methods that leave the entries alone *)
Record still n n' : Prop := {
  sl_log : same_log (log_ n) (log_ n');
  sl_opts : opts_ n' = opts_ n;
  sl_term : nodeTerm n <= nodeTerm n';
  sl_role : role_ n' = Follower \/ (role_ n' = role_ n /\ nodeTerm n' = nodeTerm n)
}.

#[global] Instance still_preorder : PreOrder still.
Proof.
  split; [intros n; split; [done|done|done|by right]|].
  intros a b c [H1 H2 H3 H4] [H5 H6 H7 H8]; split; [by etransitivity|congruence|lia|].
  destruct H8 as [?|[? ?]]; [by left|]; destruct H4 as [?|[? ?]]; [left|right]; split_and?; congruence.
Qed.

Lemma still_fields n n' : log_ n' = log_ n -> opts_ n' = opts_ n -> role_ n' = role_ n -> still n n'.
Proof. intros Hl Ho Hr; split; unfold nodeTerm; rewrite ?Hl; [done|done|done|by right]. Qed.

Lemma still_frame n n' : frame n n' -> still n n'.
Proof. intros []; by apply still_fields. Qed.

Lemma still_follower term leader n : still n (becomeFollower term leader n).
Proof.
  destruct (becomeFollower_spec term leader n) as (Ht & _ & Hr & _ & Hl & Ho & _).
  split; [done|done|lia|by left].
Qed.

Lemma apply_still n n' : applyCommittedEntries n = Ok n' -> still n n'.
Proof. intros; by apply still_frame, applyCommittedEntries_frame. Qed.

Lemma advance_still n n' : tryAdvanceCommitIndex n = Ok n' -> still n n'.
Proof. intros; by apply still_frame, tryAdvance_frame. Qed.

(** ** Moves *)
Definition appends n (e : LogEntry) n' : Prop :=
  entries_ (log_ n') = entries_ (log_ n) ++ [e] /\ e_index e = lastIndex (log_ n) + 1 /\
  e_term e = nodeTerm n' /\ role_ n' = Leader.

(** The request matches the log at [prevLogIndex] and its entries replace the rest. *)
Definition follows (req : AppendEntriesReq) n n' : Prop :=
  (ae_prevLogIndex req = 0 \/ exists e, at_ (ae_prevLogIndex req) (log_ n) = Some e /\ e_term e = ae_prevLogTerm req) /\
  ae_prevLogIndex req <= lastIndex (log_ n) /\
  entries_ (log_ n') = take (N.to_nat (ae_prevLogIndex req)) (entries_ (log_ n)) ++ ae_entries req /\
  role_ n' = Follower.

(** [req] is the request being handled, if any. *)
Record log_move (req : option AppendEntriesReq) n n' : Prop := {
  lm_opts : opts_ n' = opts_ n;
  lm_term : nodeTerm n <= nodeTerm n';
  lm_wf : pl_wf (log_ n');
  lm_snap : snapshotIndex_ (log_ n') = snapshotIndex_ (log_ n);
  lm_cand : role_ n' = Candidate -> (role_ n = Candidate /\ nodeTerm n' = nodeTerm n) \/ nodeTerm n < nodeTerm n';
  lm_log : (entries_ (log_ n') = entries_ (log_ n) /\ (role_ n' = Leader -> role_ n = Leader /\ nodeTerm n' = nodeTerm n)) \/
           (exists e, appends n e n' /\
             ((role_ n = Leader /\ nodeTerm n' = nodeTerm n) \/ (role_ n = Candidate /\ nodeTerm n' = nodeTerm n) \/
              nodeTerm n < nodeTerm n')) \/
           (exists r, req = Some r /\ ae_entries r <> [] /\ follows r n n')
}.

Lemma move_still req n n' : plain n -> still n n' -> log_move req n n'.
Proof.
  intros Hp [Hl Ho Ht Hr]; split; [done|done|by rewrite <- Hl; apply Hp|apply Hl| |].
  - intros Hc; left; destruct Hr as [|[? ?]]; [congruence|]; split; congruence.
  - left; split; [apply Hl|]; intros Hc; destruct Hr as [|[? ?]]; [congruence|]; split; congruence.
Qed.

(** What follows a move without touching the log belongs to it. *)
Lemma move_then_still req n m n' : log_move req n m -> log_ n' = log_ m -> opts_ n' = opts_ m -> role_ n' = role_ m -> log_move req n n'.
Proof.
  intros [H1 H2 H3 H4 H5 H6] Hl Ho Hr; unfold appends, follows, nodeTerm in *.
  split; unfold appends, follows, nodeTerm; rewrite ?Hl, ?Ho, ?Hr; done.
Qed.

Lemma propose_move b t n n' r :
  plain n -> lastIndex (log_ n) + 2 < U64 -> propose b t n = Ok (n', r) ->
  log_move None n n' /\
  (role_ n = Leader -> exists e, appends n e n' /\ nodeTerm n' = nodeTerm n /\ snapshotIndex_ (log_ n') = 0 /\
     pl_wf (log_ n') /\ opts_ n' = opts_ n).
Proof.
  intros Hp Hb; unfold propose; case_decide as Hl; intros Hr; inv_ok; simplify_eq.
  2: { split; [by apply move_still|done]. }
  set (e := mkLogEntry _ _ _ _) in *.
  destruct (append_next e (log_ n) (pn_wf _ Hp) Hb) as (Hwf & Hes & Hsi & Hli & Hct & _); [apply add64_small; lia|].
  match goal with H : tryAdvanceCommitIndex _ = Ok _ |- _ => apply tryAdvance_frame in H as [] end.
  cbn [set_log log_ opts_ role_] in *.
  assert (appends n e n') as Ha.
  { unfold appends, nodeTerm; rewrite fr_log, Hct; split_and!; [done|apply add64_small; lia|done|congruence]. }
  assert (nodeTerm n' = nodeTerm n) as Ht by (unfold nodeTerm; by rewrite fr_log).
  split.
  - split; [done|lia|by rewrite fr_log|by rewrite fr_log|intros; congruence|].
    right; left; exists e; split; [done|by left].
  - intros _; exists e; split_and!; try done; [by rewrite fr_log, Hsi, (pn_snap _ Hp)|by rewrite fr_log].
Qed.

Lemma becomeLeader_move n n' ss :
  plain n -> lastIndex (log_ n) + 2 < U64 -> role_ n = Candidate -> becomeLeader n = Ok (n', ss) ->
  (exists e, appends n e n') /\ nodeTerm n' = nodeTerm n /\ pl_wf (log_ n') /\
  snapshotIndex_ (log_ n') = snapshotIndex_ (log_ n) /\ opts_ n' = opts_ n /\ ss = broadcastAppendEntries n'.
Proof.
  intros Hp Hb Hc; unfold becomeLeader; rewrite decide_True by done; intros Hr; inv_ok; simplify_eq.
  match goal with H1 : propose _ _ ?x = Ok _ |- _ => set (m := x) in * end.
  assert (opts_ m = opts_ n /\ log_ m = log_ n /\ role_ m = Leader) as (Ho & Hl & Hrl).
  { unfold m; match goal with |- context [fold_left _ ?vs ?x] =>
      destruct (reset_peers_fields vs (lastIndex (log_ n)) x) as (E1 & _ & E2 & _ & E3 & _) end.
    split_and!; [exact E1|exact E2|exact E3]. }
  clearbody m; destruct x as [m1 r].
  match goal with H1 : propose _ _ m = Ok _, H2 : tryAdvanceCommitIndex _ = Ok _ |- _ =>
    apply propose_move in H1 as [_ Hpr]; [|destruct Hp; split; congruence|by rewrite Hl];
    apply tryAdvance_frame in H2 as [] end.
  destruct (Hpr Hrl) as (e & (H1 & H2 & H3 & H4) & Ht & Hsi & Hwf & Ho'); cbn [fst] in *.
  unfold nodeTerm in *; rewrite fr_log; rewrite Hl in *.
  split_and!; [|congruence|done|rewrite Hsi; symmetry; apply Hp|congruence|done].
  exists e; unfold appends, nodeTerm; rewrite fr_log, fr_role; done.
Qed.

(** Standing for election, and taking office at once in a group of one. *)
Lemma becomeCandidate_move n n' ss :
  plain n -> lastIndex (log_ n) + 2 < U64 -> nodeTerm n + 1 < U64 -> becomeCandidate n = Ok (n', ss) ->
  log_move None n n' /\ (Forall isVote ss \/ ss = broadcastAppendEntries n').
Proof.
  intros Hp Hb Ht; unfold becomeCandidate; set (m0 := resetElectionDeadline _).
  assert (same_log (log_ n) (log_ m0) /\ opts_ m0 = opts_ n /\ nodeTerm m0 = nodeTerm n + 1 /\ role_ m0 = Candidate)
    as (Hl & Ho & Htm & Hr) by (split_and!; [apply setHardState_same_log|done|by apply add64_small|done]).
  clearbody m0; intros Hx.
  assert (forall m, same_log (log_ n) (log_ m) -> opts_ m = opts_ n -> nodeTerm m = nodeTerm n + 1 -> role_ m = Candidate ->
    log_move None n m) as Hstand.
  { intros m H1 H2 H3 H4; split; [done|lia|rewrite <- H1; apply Hp|apply H1|intros _; right; lia|].
    left; split; [apply H1|congruence]. }
  destruct (_ && _); inv_ok; [simplify_eq; split; [by apply Hstand|by left]|].
  destruct (_ <=? _); inv_ok.
  2: { simplify_eq; split; [by apply Hstand|left]; apply Forall_forall; intros s Hs.
    apply list_elem_of_In, in_flat_map in Hs as (p & _ & Hs); destruct (p =? _); [done|]; by destruct Hs as [<-|[]]. }
  match type of Hx with becomeLeader ?x = _ => set (m := x) in * end.
  change (opts_ m0) with (opts_ m) in Ho; change (nodeTerm m0) with (nodeTerm m) in Htm;
    change (role_ m0) with (role_ m) in Hr; change (log_ m0) with (log_ m) in Hl; clearbody m.
  destruct (same_log_last _ _ Hl) as [Hli _].
  apply becomeLeader_move in Hx as ((e & H1 & H2 & H3 & H4) & Ht' & Hwf & Hsi & Ho' & Hss); [| |by rewrite Hli|done].
  - split; [|by right]; split; [congruence|lia|done|rewrite Hsi; apply Hl|congruence|].
    right; left; exists e; split; [|right; right; lia].
    split_and!; [by rewrite H1, (proj1 Hl)|congruence|done|done].
  - destruct Hp as [Hwf0 Hs0]; split; [by rewrite <- Hl|by rewrite (proj1 (proj2 Hl))].
Qed.

Lemma onRequestVoteResp_move t m resp n n' ss :
  plain n -> lastIndex (log_ n) + 2 < U64 -> onRequestVoteResp t m true resp n = Ok (n', ss) ->
  log_move None n n' /\ (ss = [] \/ ss = broadcastAppendEntries n').
Proof.
  intros Hp Hb; unfold onRequestVoteResp; cbn [negb]; intros Hr.
  destruct (bool_decide (role_ n = Candidate)) eqn:Er; cbn [negb orb] in Hr;
    [apply bool_decide_eq_true in Er|inv_ok; simplify_eq; split; [by apply move_still|by left]].
  destruct (_ =? _); cbn [negb] in Hr; [|inv_ok; simplify_eq; split; [by apply move_still|by left]].
  destruct (_ <? _); inv_ok; [simplify_eq; split; [by apply move_still, still_follower|by left]|].
  destruct (rvr_voteGranted resp); inv_ok; [|simplify_eq; split; [by apply move_still|by left]].
  destruct (_ <=? _); inv_ok; [|simplify_eq; split; [by apply move_still, still_fields|by left]].
  apply becomeLeader_move in Hr as ((e & H1 & H2 & H3 & H4) & Ht & Hwf & Hsi & Ho & Hss); [|destruct Hp; by split|done|done].
  split; [|by right]; split; [done|by rewrite Ht|done|done|congruence|].
  right; left; exists e; split; [done|right; left; done].
Qed.

Lemma onAppendEntriesResp_move peer term resp n n' :
  plain n -> onAppendEntriesResp peer term true resp n = Ok n' -> log_move None n n'.
Proof.
  intros Hp; unfold onAppendEntriesResp; cbn [negb]; intros Hr; apply move_still; [done|].
  destruct (_ <? _); inv_ok; [apply still_follower|]; destruct (_ || _); inv_ok; [done|].
  destruct (aer_success resp); inv_ok; [|by apply still_fields].
  apply advance_still in Hr; etransitivity; [|exact Hr]; by apply still_fields.
Qed.

Lemma onInstallSnapshotResp_move peer idx resp n :
  plain n -> log_move None n (onInstallSnapshotResp peer idx true resp n).
Proof.
  intros Hp; apply move_still; [done|]; unfold onInstallSnapshotResp; cbn [negb].
  destruct (_ <? _); [apply still_follower|by apply still_fields].
Qed.

Lemma handleRequestVote_move req n : plain n -> log_move None n (handleRequestVote req n).1.
Proof.
  intros Hp; apply move_still; [done|]; unfold handleRequestVote.
  destruct (_ <? _); [done|]; set (m := if _ <? _ then _ else n).
  assert (still n m) as Hm by (unfold m; destruct (_ <? _); [apply still_follower|done]).
  clearbody m; destruct (_ && _); [|done]; etransitivity; [exact Hm|].
  split; [apply setHardState_same_log|done|done|by right].
Qed.

Lemma handleInstallSnapshot_move req n n' resp :
  plain n -> is_lastIncludedIndex req = 0 -> handleInstallSnapshot req n = Ok (n', resp) -> log_move None n n'.
Proof.
  intros Hp H0; unfold handleInstallSnapshot; destruct (_ <? _); intros Hr; inv_ok; [simplify_eq; by apply move_still|].
  rewrite H0 in Hr; destruct (N.leb_spec 0 (snapshotIndex_ (log_ (becomeFollower (is_term req) (is_leaderId req) n)))); [|lia].
  inv_ok; simplify_eq; by apply move_still, still_follower.
Qed.

Lemma forceSnapshot_plain n : snapshotIndex_ (log_ (forceSnapshot n)) = 0 -> forceSnapshot n = n.
Proof.
  unfold forceSnapshot; destruct (N.leb_spec (lastApplied_ n) (snapshotIndex_ (log_ n))) as [|Hlt]; [done|].
  unfold compactUpTo; destruct (N.leb_spec (lastApplied_ n) (snapshotIndex_ (log_ n))); [lia|].
  cbn [set_log log_]; change (snapshotIndex_ (with_dir _ ?m)) with (snapshotIndex_ m); unfold compact_entries; cbn [snapshotIndex_]; lia.
Qed.

Lemma maybeSnapshot_plain n : snapshotIndex_ (log_ (maybeSnapshot n)) = 0 -> maybeSnapshot n = n.
Proof. unfold maybeSnapshot; destruct (_ <=? _); [apply forceSnapshot_plain|done]. Qed.

Lemma move_plain req n n' : plain n -> log_move req n n' -> plain n'.
Proof. intros [] []; split; [done|congruence]. Qed.

Lemma runLoopRound_move now n n' ss :
  plain n -> lastIndex (log_ n) + 2 < U64 -> nodeTerm n + 1 < U64 -> runLoopRound now n = Ok (n', ss) ->
  snapshotIndex_ (log_ n') = 0 -> log_move None n n' /\
  (Forall isVote ss \/ ss = broadcastAppendEntries n' \/
   (ss = broadcastAppendEntries n /\ log_ n' = log_ n /\ role_ n' = role_ n)).
Proof.
  intros Hp Hb Ht; unfold runLoopRound; intros Hr H0; inv_ok; destruct x as [m s]; simplify_eq/=.
  assert (plain (set_now now n)) as Hp' by (destruct Hp; by split).
  match goal with H : (if decide _ then _ else _) = Ok _ |- _ => rename H into Hx end.
  assert (log_move None n m /\ (Forall isVote s \/ s = broadcastAppendEntries m \/
    (s = broadcastAppendEntries n /\ log_ m = log_ n /\ role_ m = role_ n))) as [Hm Hs].
  { case_decide.
    - destruct (_ <=? _); inv_ok; simplify_eq; (split; [by apply move_still, still_fields|]); [by right; right|by left].
    - destruct (_ <=? _); inv_ok; [|simplify_eq; split; [by apply move_still, still_fields|by left]].
      apply becomeCandidate_move in Hx as [Hx Hs]; [|done..].
      split; [destruct Hx; by split|]; destruct Hs as [?|?]; [by left|by right; left]. }
  by rewrite maybeSnapshot_plain.
Qed.

Lemma still_heard leader n : still n (set_leaderId leader (resetElectionDeadline n)).
Proof. by apply still_fields. Qed.

Lemma heard_role leader n : role_ (set_leaderId leader (resetElectionDeadline n)) = role_ n.
Proof. done. Qed.

(** A handled append is refused or brings nothing, or its entries are appended. *)
Lemma handleAppendEntries_cases req n n' resp :
  handleAppendEntries req n = Ok (n', resp) ->
  still n n' \/
  exists m, still n m /\ checkPrev req (log_ m) = None /\ ae_entries req <> [] /\ role_ n' = Follower /\
    opts_ n' = opts_ m /\ log_ n' = appendAndSync (ae_entries req) (log_ m).
Proof.
  unfold handleAppendEntries; destruct (_ <? _); intros Hr; inv_ok; [simplify_eq; by left|].
  pose proof (still_follower (ae_term req) (ae_leaderId req) n) as Hm0.
  destruct (becomeFollower_spec (ae_term req) (ae_leaderId req) n) as (_ & _ & Hmr & _).
  set (m0 := becomeFollower (ae_term req) (ae_leaderId req) n) in *; clearbody m0.
  pose proof (still_heard (ae_leaderId req) m0) as Hm1; rewrite <- (heard_role (ae_leaderId req) m0) in Hmr.
  set (m := set_leaderId _ _) in *; clearbody m.
  assert (still n m) as Hm by (by etransitivity); clear Hm0 Hm1.
  destruct (checkPrev req (log_ m)) as [r|] eqn:Ec; inv_ok; [simplify_eq; by left|].
  match goal with H : applyCommittedEntries _ = Ok _ |- _ => apply applyCommittedEntries_frame in H as Hf end.
  simplify_eq; destruct (ae_entries req) as [|e es].
  - left; etransitivity; [exact Hm|]; etransitivity; [|by apply still_frame].
    destruct (_ <? _); by apply still_fields.
  - right; exists m; set (l1 := appendAndSync (e :: es) (log_ m)) in *; clearbody l1.
    destruct Hf as [Ho Hl Hro _ _ _]; destruct (_ <? ae_leaderCommit req);
      cbn [opts_ log_ role_ set_commitIndex set_log] in *; split_and!; try done; congruence.
Qed.

(** The check passed, so the request agrees with the log at [prevLogIndex]. *)
Lemma checkPrev_passed req l :
  pl_wf l -> snapshotIndex_ l = 0 -> ae_prevLogIndex req < U64 -> checkPrev req l = None ->
  (ae_prevLogIndex req = 0 \/ exists e, at_ (ae_prevLogIndex req) l = Some e /\ e_term e = ae_prevLogTerm req /\ e_term e <> 0) /\
  ae_prevLogIndex req <= lastIndex l.
Proof.
  intros Hwf Hs0 Hb Ec.
  assert (ae_prevLogIndex req = 0 \/ exists e, at_ (ae_prevLogIndex req) l = Some e /\ e_term e = ae_prevLogTerm req /\ e_term e <> 0) as Hprev.
  { unfold checkPrev in Ec; destruct (N.ltb_spec 0 (ae_prevLogIndex req)) as [Hpos|]; [right|left; lia].
    rewrite termAt_at in Ec by lia; destruct (at_ (ae_prevLogIndex req) l) as [e|] eqn:Ea.
    - exists e; split; [done|]; destruct (N.eqb_spec (e_term e) 0) as [E0|E0]; cbn [andb negb] in Ec.
      + destruct (N.ltb_spec (snapshotIndex_ l) (ae_prevLogIndex req)); [done|lia].
      + destruct (N.eqb_spec (e_term e) (ae_prevLogTerm req)); done.
    - rewrite N.eqb_refl in Ec; cbn [andb] in Ec.
      destruct (N.ltb_spec (snapshotIndex_ l) (ae_prevLogIndex req)); [done|lia]. }
  split; [done|]; destruct Hprev as [->|(e & He & _)]; [lia|].
  assert (is_Some (at_ (ae_prevLogIndex req) l)) as Hs by eauto; apply at_range in Hs; [lia|done|done].
Qed.

(** Only the entries matter to the check. *)
Lemma checkPrev_same req l l' : same_log l l' -> checkPrev req l' = None -> checkPrev req l = None.
Proof.
  intros Hl; unfold checkPrev; rewrite (same_log_termAt _ _ _ Hl), (proj1 (proj2 Hl)).
  destruct (0 <? _); [|done]; destruct (_ && _); [done|]; by destruct (_ && _).
Qed.

Lemma handleAppendEntries_move req n n' resp :
  plain n ->
  (ae_entries req <> [] -> contiguous (ae_prevLogIndex req) (ae_entries req) /\
     ae_prevLogIndex req + nlen (ae_entries req) + 2 < U64) ->
  handleAppendEntries req n = Ok (n', resp) -> log_move (Some req) n n'.
Proof.
  intros Hp Hcb Hr; apply handleAppendEntries_cases in Hr as [?|(m & Hm & Ec & Hne & Hro & Ho & Hl)]; [by apply move_still|].
  destruct (Hcb Hne) as [Hc Hb].
  assert (pl_wf (log_ m)) as Hwf by (rewrite <- (sl_log _ _ Hm); apply Hp).
  assert (snapshotIndex_ (log_ m) = 0) as Hs0 by (rewrite (proj1 (proj2 (sl_log _ _ Hm))); apply Hp).
  destruct (same_log_last _ _ (sl_log _ _ Hm)) as [Hli _].
  assert (ae_prevLogIndex req < U64) as Hpb by lia.
  destruct (checkPrev_passed _ _ Hwf Hs0 Hpb Ec) as [Hprev Hle].
  destruct (appendAndSync_fields (ae_entries req) (log_ m) Hne) as (d & e0 & Hh & E); rewrite E in Hl; clear E.
  assert (e_index e0 = ae_prevLogIndex req + 1) as He0.
  { destruct (ae_entries req) as [|e es]; simplify_eq/=; by apply contiguous_cons in Hc as []. }
  rewrite He0 in Hl.
  assert (pl_wf (append_entries (ae_prevLogIndex req + 1) (ae_entries req) (log_ m))) as Hwf'
    by (apply append_entries_wf; [done|lia|lia|by rewrite N.add_sub|lia]).
  rewrite append_entries_eq in Hl, Hwf' by (done || lia).
  set (es' := take _ _ ++ _) in *.
  assert (es' = take (N.to_nat (ae_prevLogIndex req)) (entries_ (log_ n)) ++ ae_entries req) as Hes.
  { unfold es'; rewrite (proj1 (sl_log _ _ Hm)), Hs0; do 2 f_equal; lia. }
  clearbody es'; split.
  - rewrite Ho; apply (sl_opts _ _ Hm).
  - unfold nodeTerm; rewrite Hl; apply (sl_term _ _ Hm).
  - rewrite Hl; by apply wf_with_dir.
  - rewrite Hl; cbn [snapshotIndex_ with_dir]; rewrite Hs0; symmetry; apply Hp.
  - congruence.
  - right; right; exists req; split_and!; [done|done|]; unfold follows.
    rewrite <- (same_log_at _ _ _ (sl_log _ _ Hm)), <- Hli; split_and!; [|done| |done].
    + destruct Hprev as [?|(e & ? & ? & _)]; [by left|by right; exists e].
    + by rewrite Hl, <- Hes.
Qed.

End moves.
