(* ===== verification/LogMatching.v ===== *)
(** * Log matching

    In a run without snapshots and with a fixed membership, two logs that have an
    entry of the same term at the same index are equal up to that index.  A ghost
    map records the log of the leader of each term: a leader only appends to it,
    there is one leader per term, every append request is a segment of it, and
    every log of the group agrees, up to each of its entries, with the record of
    that entry's term. *)
From stdpp Require Import base tactics list gmap numbers strings sorting relations.
From Stdlib Require Import Ascii NArith Lia.
From S2P Require Import Prelude.
From S2P Require Import Buffer.
From S2P Require Import Types.
From S2P Require Import RpcMessages.
From S2P Require Import PersistentLog.
From S2P Require Import StateMachine.
From S2P Require Import KvStore.
From S2P Require Import RaftNode.
From S2P Require Import RaftNodeFacts.
From S2P Require Import RaftCommit.
From S2P Require Import RaftHandlers.
From S2P Require Import Cluster.
From S2P Require Import RaftInvariant.
From S2P Require Import ElectionSafety.
From S2P Require Import RaftLogMoves.

Local Open Scope N_scope.

(** ** The logs of the leaders of each term *)
Abbreviation Terms := (gmap N (list LogEntry)).

Definition history (T : Terms) (L : list LogEntry) : Prop :=
  forall k e, L !! k = Some e -> exists L', T !! e_term e = Some L' /\ take (S k) L = take (S k) L'.

(** The records only grow. *)
Definition grows (T T' : Terms) : Prop :=
  forall t L, T !! t = Some L -> exists L', T' !! t = Some L' /\ L `prefix_of` L'.

#[global] Instance grows_refl : Reflexive grows.
Proof. intros T t L Ht; by exists L. Qed.

Lemma grows_snoc T t L e : T !! t = Some L -> grows T (<[t := L ++ [e]]> T).
Proof.
  intros Ht u M Hu; rewrite lookup_insert; case_decide; [|by exists M].
  simplify_eq; eexists; split; [done|by apply prefix_app_r].
Qed.

Lemma grows_new T t L : T !! t = None -> grows T (<[t := L]> T).
Proof. intros Ht u M Hu; exists M; rewrite lookup_insert_ne; [done|congruence]. Qed.

Lemma take_prefix (L L' : list LogEntry) k : (k <= length L)%nat -> L `prefix_of` L' -> take k L' = take k L.
Proof. intros Hk [M ->]; by rewrite take_app_le. Qed.

Lemma history_mono T T' L : grows T T' -> history T L -> history T' L.
Proof.
  intros Hg HL k e Hk; destruct (HL k e Hk) as (M & HM & Heq).
  destruct (Hg _ _ HM) as (M' & HM' & Hp); exists M'; split; [done|].
  rewrite (take_prefix M M'); [done| |done].
  apply lookup_lt_Some in Hk; apply (f_equal length) in Heq; rewrite !length_take in Heq; lia.
Qed.

Lemma history_take T L n : history T L -> history T (take n L).
Proof.
  intros HL k e Hk; apply lookup_take_Some in Hk as [Hk Hlt].
  destruct (HL k e Hk) as (M & HM & Heq); exists M; split; [done|].
  rewrite take_take, Nat.min_l; [done|lia].
Qed.

Lemma history_snoc T L e : history T L -> T !! e_term e = Some (L ++ [e]) -> history T (L ++ [e]).
Proof.
  intros HL Ht k x Hk; apply lookup_app_Some in Hk as [Hk|[Hge Hk]].
  - destruct (HL k x Hk) as (M & HM & Heq); exists M; split; [done|].
    rewrite take_app_le; [done|]; apply lookup_lt_Some in Hk; lia.
  - apply list_lookup_singleton_Some in Hk as [_ <-]; by exists (L ++ [e]).
Qed.

Lemma history_agree T L M k e f :
  history T L -> history T M -> L !! k = Some e -> M !! k = Some f -> e_term e = e_term f ->
  take (S k) L = take (S k) M.
Proof.
  intros HL HM He Hf Ht; destruct (HL _ _ He) as (X & HX & EX), (HM _ _ Hf) as (Y & HY & EY).
  rewrite Ht in HX; simplify_eq; congruence.
Qed.

(** ** Requests *)
Definition segment (req : AppendEntriesReq) (L : list LogEntry) : Prop :=
  (ae_prevLogIndex req = 0 \/
   exists e, L !! N.to_nat (ae_prevLogIndex req - 1) = Some e /\ e_term e = ae_prevLogTerm req) /\
  ae_entries req `prefix_of` drop (N.to_nat (ae_prevLogIndex req)) L.

Lemma segment_mono req L L' : L `prefix_of` L' -> segment req L -> segment req L'.
Proof.
  intros [M ->] [Hp He]; split.
  - destruct Hp as [?|(e & He' & ?)]; [by left|right]; exists e; split; [|done].
    by apply lookup_app_l_Some.
  - rewrite drop_app; by apply prefix_app_r.
Qed.

(** The entries fit where they are put. *)
Lemma segment_fits req L :
  segment req L -> ae_entries req <> [] -> contiguous 0 L ->
  contiguous (ae_prevLogIndex req) (ae_entries req) /\ ae_prevLogIndex req + nlen (ae_entries req) <= nlen L.
Proof.
  intros [_ [M HM]] Hne Hc; split.
  - intros k e Hk; assert (L !! (N.to_nat (ae_prevLogIndex req) + k)%nat = Some e) as Hl.
    { rewrite <- lookup_drop, HM; by apply lookup_app_l_Some. }
    rewrite (Hc _ _ Hl); lia.
  - apply (f_equal length) in HM; rewrite length_drop, length_app in HM; unfold nlen.
    destruct (ae_entries req); [done|]; simpl in *; lia.
Qed.

(** A log that passes the check at [prevLogIndex] becomes a prefix of the record. *)
Lemma segment_follow T req L M :
  history T L -> history T M -> segment req L ->
  (ae_prevLogIndex req = 0 \/
   exists e, M !! N.to_nat (ae_prevLogIndex req - 1) = Some e /\ e_term e = ae_prevLogTerm req) ->
  take (N.to_nat (ae_prevLogIndex req)) M ++ ae_entries req =
  take (N.to_nat (ae_prevLogIndex req) + length (ae_entries req)) L.
Proof.
  intros HL HM [Hl [R HR]] Hm; set (p := N.to_nat (ae_prevLogIndex req)) in *.
  assert (take p M = take p L) as Hp.
  { destruct Hm as [H0|(f & Hf & Htf)]; [by replace p with 0%nat by (unfold p; lia)|].
    destruct Hl as [H0|(e & He & Hte)]; [by replace p with 0%nat by (unfold p; lia)|].
    destruct (decide (ae_prevLogIndex req = 0)) as [H0|]; [by replace p with 0%nat by (unfold p; lia)|].
    replace p with (S (N.to_nat (ae_prevLogIndex req - 1))) by (unfold p; lia).
    eapply history_agree; [done..|congruence]. }
  rewrite Hp, <- take_take_drop, HR, take_app_length; done.
Qed.

Definition packet_hist (T : Terms) (p : Packet) : Prop :=
  match p with
  | Request _ _ (SendAppendEntries _ req _) =>
      ae_entries req <> [] -> exists L, T !! ae_term req = Some L /\ segment req L
  | Request _ _ (SendInstallSnapshot _ req _) => is_lastIncludedIndex req = 0
  | _ => True
  end.

Lemma packet_hist_mono T T' p : grows T T' -> packet_hist T p -> packet_hist T' p.
Proof.
  intros Hg; destruct p as [src inc [| |]| | |]; simpl; try done.
  intros Hp Hne; destruct (Hp Hne) as (L & HL & Hs); destruct (Hg _ _ HL) as (L' & HL' & Hpre).
  exists L'; split; [done|]; by eapply segment_mono.
Qed.

Lemma packet_hist_vote T i inc ss : Forall isVote ss -> Forall (packet_hist T) (launch i inc ss).
Proof. intros Hs; apply Forall_fmap; eapply Forall_impl; [exact Hs|]; by intros []. Qed.

Section matching.
Context {S : Type} `{StateMachine S}.
Context (cfg : ClusterConfig) (freshSm : S).
Context (Hnd : NoDup (voters cfg)) (Hne : voters cfg <> []).
Implicit Types (c : Cluster S) (n : RaftNode S) (ns : gmap N (RaftNode S)) (net : list Packet)
  (g : gset (N * N * N)) (T : Terms).

(** ** The invariant *)

(** A majority has voted for [i] in term [t]. *)
Definition led_by g (t : Term) (i : NodeId) : Prop :=
  exists Q : gset N, nlen (voters cfg) < 2 * N.of_nat (size Q) /\
    forall q, q ∈ Q -> q ∈ voters cfg /\ (q, t, i) ∈ g.

Record logs_inv ns net g T : Prop := {
  li_plain : forall i n, ns !! i = Some n -> plain n;
  li_nodes : forall i n, ns !! i = Some n -> history T (entries_ (log_ n));
  li_terms : forall t L, T !! t = Some L -> history T L /\ contiguous 0 L /\ nlen L + 2 < U64;
  li_leader : forall i n, ns !! i = Some n -> role_ n = Leader -> T !! nodeTerm n = Some (entries_ (log_ n));
  li_led : forall t L, T !! t = Some L -> exists i n, ns !! i = Some n /\ led_by g t i /\
    t <= nodeTerm n /\ (nodeTerm n = t -> role_ n <> Candidate);
  li_net : Forall (packet_hist T) net
}.

Lemma led_by_mono g g' t i : g ⊆ g' -> led_by g t i -> led_by g' t i.
Proof.
  intros Hg (Q & Hs & HQ); exists Q; split; [done|]; intros q Hq; destruct (HQ q Hq); auto.
Qed.

Lemma led_by_unique ns net g t i j : elect_inv cfg ns net g -> led_by g t i -> led_by g t j -> i = j.
Proof.
  intros He (Q1 & Hs1 & HQ1) (Q2 & Hs2 & HQ2).
  destruct (quorums_meet cfg Hnd Hne Q1 Q2) as (q & H1 & H2);
    [intros q Hq; by apply HQ1|intros q Hq; by apply HQ2|done..|].
  by apply (ei_unique _ _ _ _ He q t); [apply HQ1|apply HQ2].
Qed.

Lemma plain_last n : plain n -> lastIndex (log_ n) = nlen (entries_ (log_ n)).
Proof. intros [Hw H0]; rewrite lastIndex_wf by done; rewrite H0; lia. Qed.

(** A node moves, and the records grow by its new log at most. *)
Lemma logs_set ns net net' g g' T T' i n n' req :
  logs_inv ns net g T -> ns !! i = Some n -> g ⊆ g' -> elect_inv cfg (<[i := n']> ns) net' g' ->
  log_move req n n' -> grows T T' -> history T' (entries_ (log_ n')) ->
  (forall t L, T' !! t = Some L -> T !! t = Some L \/
     (t = nodeTerm n' /\ L = entries_ (log_ n') /\ role_ n' = Leader /\ nlen L + 2 < U64)) ->
  (role_ n' = Leader -> T' !! nodeTerm n' = Some (entries_ (log_ n'))) ->
  logs_inv (<[i := n']> ns) net g' T'.
Proof.
  intros [Hpl Hno Hte Hle Hld Hnet] Hi Hg He Hm Hgr Hh Hnew Hlead.
  assert (plain n') as Hp' by (eapply move_plain; eauto).
  assert (<[i := n']> ns !! i = Some n') as Hi' by apply lookup_insert_eq.
  split.
  - intros j m; rewrite lookup_insert; case_decide; [by intros [= <-]|eauto].
  - intros j m; rewrite lookup_insert; case_decide; [by intros [= <-]|]; eauto using history_mono.
  - intros t L HL; destruct (Hnew _ _ HL) as [HT|(_ & -> & _ & Hb)].
    + destruct (Hte _ _ HT) as (? & ? & ?); eauto using history_mono.
    + split_and!; [done| |done]; rewrite <- (pn_snap _ Hp'); apply Hp'.
  - intros j m; rewrite lookup_insert; case_decide as Hj; [by intros [= <-]|]; intros Hjm Hl.
    destruct (Hgr _ _ (Hle _ _ Hjm Hl)) as (L' & HL' & _).
    destruct (Hnew _ _ HL') as [HT|(Ht & _ & Hr & _)]; [rewrite HL', <- HT; eauto|].
    exfalso; apply Hj; eapply led_by_unique; [exact He|apply (ei_leader _ _ _ _ He i n'); done|].
    rewrite <- Ht; apply (ei_leader _ _ _ _ He j m); [by rewrite lookup_insert_ne by congruence|done].
  - intros t L HL; destruct (Hnew _ _ HL) as [HT|(-> & -> & Hr & _)].
    + destruct (Hld _ _ HT) as (j & m & Hj & Hq & Ht & Hc); exists j.
      apply (led_by_mono _ g') in Hq; [|done].
      destruct (decide (i = j)) as [<-|]; [|exists m; by rewrite lookup_insert_ne by congruence].
      exists n'; rewrite lookup_insert_eq; simplify_eq; pose proof (lm_term _ _ _ Hm); split_and!; try done; [lia|].
      intros Heq Hr; destruct (lm_cand _ _ _ Hm Hr) as [[? ?]|?]; [apply Hc; [lia|done]|lia].
    + exists i, n'; split_and!; try done; [|congruence]. apply (ei_leader _ _ _ _ He i n'); done.
  - eapply Forall_impl; [exact Hnet|]; intros p; by apply packet_hist_mono.
Qed.

(** The records grow, and what is new is the log of a leader of the new state. *)
Definition recorded ns T T' : Prop :=
  grows T T' /\ forall t L, T' !! t = Some L -> T !! t = Some L \/
    exists i n, ns !! i = Some n /\ role_ n = Leader /\ nodeTerm n = t /\ entries_ (log_ n) = L.

Lemma recorded_refl ns T : recorded ns T T.
Proof. split; [done|by left]. Qed.

(** The term of a new leader has no record yet. *)
Lemma new_leader_fresh ns net net' g g' T i n n' :
  logs_inv ns net g T -> ns !! i = Some n -> g ⊆ g' -> elect_inv cfg (<[i := n']> ns) net' g' ->
  role_ n' = Leader -> (role_ n = Candidate /\ nodeTerm n' = nodeTerm n) \/ nodeTerm n < nodeTerm n' ->
  T !! nodeTerm n' = None.
Proof.
  intros HL Hi Hg He Hr Hc; destruct (T !! nodeTerm n') as [L|] eqn:HT; [exfalso|done].
  destruct (li_led _ _ _ _ HL _ _ HT) as (j & m & Hj & Hq & Ht & Hn).
  assert (j = i) as ->.
  { eapply led_by_unique; [exact He|by eapply led_by_mono|].
    apply (ei_leader _ _ _ _ He i n'); [apply lookup_insert_eq|done]. }
  simplify_eq; destruct Hc as [[? ?]|?]; [by apply Hn|lia].
Qed.

Lemma logs_move ns net net' g g' T i n n' req :
  logs_inv ns net g T -> ns !! i = Some n -> g ⊆ g' -> elect_inv cfg (<[i := n']> ns) net' g' ->
  log_move req n n' -> lastIndex (log_ n) + 3 < U64 ->
  (forall r, req = Some r -> ae_entries r <> [] -> exists L, T !! ae_term r = Some L /\ segment r L) ->
  exists T', recorded (<[i := n']> ns) T T' /\ logs_inv (<[i := n']> ns) net g' T'.
Proof.
  intros HL Hi Hg He Hm Hb Hreq; pose proof (li_plain _ _ _ _ HL _ _ Hi) as Hp.
  destruct (lm_log _ _ _ Hm) as [[Hes Hl]|[(e & (Ha & Hx & Het & Hr) & Hc)|(r & Hrq & Hne' & Hf)]].
  - exists T; split; [apply recorded_refl|]; eapply logs_set; try done; rewrite ?Hes; [by eapply li_nodes|by left|].
    intros Hr; destruct (Hl Hr) as [? ->]; by eapply li_leader.
  - assert (grows T (<[nodeTerm n' := entries_ (log_ n')]> T)) as Hgr.
    { destruct Hc as [[Hr0 Ht]|Hc]; [|by eapply grows_new, new_leader_fresh].
      rewrite Ha; apply grows_snoc; rewrite Ht; by eapply li_leader. }
    exists (<[nodeTerm n' := entries_ (log_ n')]> T); split.
    { split; [done|]; intros t L; rewrite lookup_insert; case_decide; [intros [= <-]; right|by left].
      exists i, n'; by rewrite lookup_insert_eq. }
    eapply logs_set; try done.
    + rewrite Ha at 2; apply history_snoc; [eapply history_mono; [done|by eapply li_nodes]|].
      by rewrite Het, lookup_insert_eq, Ha.
    + intros t L; rewrite lookup_insert; case_decide; [|by left]; intros [= <-]; right.
      split_and!; try done; rewrite plain_last in Hb by done; rewrite Ha; unfold nlen in *; rewrite length_app; simpl; lia.
    + intros _; apply lookup_insert_eq.
  - destruct Hf as (Hprev & Hle & Hes & Hr); destruct (Hreq r Hrq Hne') as (L & HT & Hs).
    exists T; split; [apply recorded_refl|]; eapply logs_set; try done; [|by left|congruence].
    rewrite Hes, (segment_follow T r L); [apply history_take|..]; try done;
      [by eapply li_terms|by eapply li_terms|by eapply li_nodes|].
    destruct Hprev as [?|(e & Hat & ?)]; [by left|right]; exists e; split; [|done].
    pose proof (plain_last _ Hp) as Hlast; rewrite at_spec in Hat by lia.
    rewrite (pn_snap _ Hp), N.sub_0_r in Hat; by case_decide.
Qed.

(** What a leader with a record sends. *)
Lemma broadcast_hist T i inc n :
  plain n -> (role_ n = Leader -> T !! nodeTerm n = Some (entries_ (log_ n))) ->
  Forall (packet_hist T) (launch i inc (broadcastAppendEntries n)).
Proof.
  intros Hp Hl; apply Forall_fmap, Forall_forall; intros s; unfold broadcastAppendEntries.
  case_decide as Hr; [|by intros ?%elem_of_nil]; specialize (Hl Hr).
  intros (p & _ & Hs)%list_elem_of_In%in_flat_map.
  destruct (_ =? _); [done|]; destruct (_ <=? _);
    unfold sendInstallSnapshotTo, sendAppendEntriesTo in Hs; rewrite decide_True in Hs by done;
    destruct Hs as [<-|[]]; simpl; [apply Hp|].
  set (prev := sub64 _ _); assert (prev < U64) as Hb by apply u64_bound; clearbody prev.
  rewrite entriesAfter_spec by (rewrite ?(pn_snap _ Hp); done || lia || apply Hp).
  rewrite (pn_snap _ Hp), N.sub_0_r; simpl; set (es := take _ _); intros Hes.
  eexists; split; [exact Hl|]; split; simpl.
  2: { exists (drop (N.to_nat 200) (drop (N.to_nat prev) (entries_ (log_ n)))); symmetry; apply take_drop. }
  destruct (decide (prev = 0)) as [|H0]; [by left|right].
  assert (N.to_nat prev < length (entries_ (log_ n)))%nat as Hlt.
  { destruct (decide (length (entries_ (log_ n)) <= N.to_nat prev)%nat); [|lia].
    unfold es in Hes; by rewrite drop_ge, take_nil in Hes by done. }
  destruct (lookup_lt_is_Some_2 (entries_ (log_ n)) (N.to_nat (prev - 1))) as [e Hlk]; [lia|].
  exists e; split; [done|]; rewrite termAt_at, at_spec by (rewrite ?(pn_snap _ Hp); lia).
  by rewrite (pn_snap _ Hp), N.sub_0_r, decide_True, Hlk by lia.
Qed.

Lemma logs_net ns net net' g g' T :
  logs_inv ns net g T -> g ⊆ g' -> Forall (packet_hist T) net' -> logs_inv ns net' g' T.
Proof.
  intros [H1 H2 H3 H4 H5 H6] Hg Hn; split; try done; intros t L HL.
  destruct (H5 t L HL) as (i & n & ? & ? & ?); exists i, n; eauto using led_by_mono.
Qed.

(** ** Runs without snapshots *)

(** Every index the group uses is below the limit of its type. *)
Definition roomy c : Prop := map_Forall (fun _ n => lastIndex (log_ n) + 3 < U64) (nodes c).
Definition unsnapped c : Prop := map_Forall (fun _ n => snapshotIndex_ (log_ n) = 0) (nodes c).

Inductive plain_step c c' : Prop :=
| plain_event : step cfg freshSm c c' -> roomy c -> unsnapped c' -> plain_step c c'.

(** Node [i] moves and sends [ss]; [rest] of the network stays. *)
Lemma logs_event c c' g g' T i n n' req rest new :
  logs_inv (nodes c) (net c) g T -> roomy c -> nodes c !! i = Some n -> g ⊆ g' ->
  Inv cfg (nodes c') (net c') g' -> nodes c' = <[i := n']> (nodes c) -> net c' = rest ++ new ->
  rest ⊆ net c -> log_move req n n' ->
  (forall r, req = Some r -> ae_entries r <> [] -> exists L, T !! ae_term r = Some L /\ segment r L) ->
  (forall T', grows T T' -> logs_inv (<[i := n']> (nodes c)) (net c) g' T' -> Forall (packet_hist T') new) ->
  exists T', recorded (nodes c') T T' /\ logs_inv (nodes c') (net c') g' T'.
Proof.
  intros HL Hroom Hi Hg [_ He] Hns Hnet Hrest Hm Hreq Hnew; rewrite Hns in He |- *; rewrite Hnet.
  destruct (logs_move _ _ _ _ _ _ _ _ _ _ HL Hi Hg He Hm (Hroom i n Hi) Hreq) as (T' & Hrec & HL').
  exists T'; split; [done|]; eapply logs_net; [exact HL'|done|]; apply Forall_app; split; [|apply Hnew; [apply Hrec|done]].
  apply Forall_forall; intros p Hp; eapply (Forall_forall (packet_hist T')); [|by apply Hrest]; apply HL'.
Qed.

Lemma move_now req now n n' : log_move req (set_now now n) n' -> log_move req n n'.
Proof. intros []; by split. Qed.

Lemma plain_now now n : plain n -> plain (set_now now n).
Proof. intros []; by split. Qed.

Lemma delete_incl net k : delete k net ⊆ net.
Proof. intros p Hp; by apply list_elem_of_delete_inv in Hp. Qed.

(** The parts of a step, as the cases below use them. *)
Section cases.
Context (c c' : Cluster S) (g g' : gset (N * N * N)) (T : Terms).
Context (HL : logs_inv (nodes c) (net c) g T) (Hroom : roomy c) (Hg : g ⊆ g')
  (HI : Inv cfg (nodes c') (net c') g') (Hun : unsnapped c').

Let room2 i n : nodes c !! i = Some n -> lastIndex (log_ n) + 2 < U64.
Proof. intros Hi; pose proof (Hroom i n Hi); simpl in *; lia. Qed.

Let answer i n n' req rest new Hi := logs_event c c' g g' T i n n' req rest new HL Hroom Hi Hg HI.

Lemma logs_tick i now n n' ss :
  nodes c !! i = Some n -> nodeTerm n + 1 < U64 -> runLoopRound now n = Ok (n', ss) ->
  c' = update c i n' (net c ++ launch i (incOf c i) ss) -> exists T', recorded (nodes c') T T' /\ logs_inv (nodes c') (net c') g' T'.
Proof.
  intros Hi Ht Hr Hc; pose proof (li_plain _ _ _ _ HL _ _ Hi) as Hp.
  apply runLoopRound_move in Hr as [Hm Hss]; [|by eauto..|].
  2: { apply (Hun i n'); rewrite Hc; apply lookup_insert_eq. }
  apply (answer i n n' None (net c) (launch i (incOf c i) ss) Hi); try (by rewrite Hc); try done.
  intros T' Hgr HL'; destruct Hss as [Hv|[->|(-> & Hlog & Hro)]]; [by apply packet_hist_vote|..].
  - apply broadcast_hist; [by eapply move_plain|]; apply (li_leader _ _ _ _ HL' i n'), lookup_insert_eq.
  - apply broadcast_hist; [done|]; intros Hl; pose proof (li_leader _ _ _ _ HL' i n') as Hlead.
    unfold nodeTerm in *; rewrite Hlog in Hlead; apply Hlead; [apply lookup_insert_eq|congruence].
Qed.

Lemma logs_request k src inc s now :
  net c !! k = Some (Request src inc s) -> deliverRequest c src inc s now (delete k (net c)) = Some c' ->
  exists T', recorded (nodes c') T T' /\ logs_inv (nodes c') (net c') g' T'.
Proof.
  intros Hk Hd; pose proof (Forall_lookup_1 _ _ _ _ (li_net _ _ _ _ HL) Hk) as Hpk.
  destruct s as [peer req t m|peer req t|peer req idx]; simpl in Hd, Hpk;
    (destruct (nodes c !! peer) as [n|] eqn:Hi;
      [|simplify_eq/=; exists T; split; [apply recorded_refl|]; eapply logs_net; [done..|]; apply Forall_delete, HL]);
    pose proof (plain_now now _ (li_plain _ _ _ _ HL _ _ Hi)) as Hp.
  - destruct (handleRequestVote req (set_now now n)) as [n' resp] eqn:E; simplify_eq/=.
    pose proof (handleRequestVote_move req _ Hp) as Hm; rewrite E in Hm; simpl in Hm.
    apply (answer peer n n' None (delete k (net c)) [VoteReply src inc peer t m resp] Hi); eauto using move_now, delete_incl; by repeat constructor.
  - destruct (handleAppendEntries req (set_now now n)) as [[n' resp]|] eqn:E; simplify_eq/=.
    apply handleAppendEntries_move in E; [|done|].
    + apply (answer peer n n' (Some req) (delete k (net c)) [AppendReply src inc peer t resp] Hi); eauto using move_now, delete_incl; [by intros r [= <-]|by repeat constructor].
    + intros Hes; destruct (Hpk Hes) as (L & HT & Hs).
      destruct (li_terms _ _ _ _ HL _ _ HT) as (_ & Hc & Hb).
      destruct (segment_fits _ _ Hs Hes Hc) as [? ?]; split; [done|lia].
  - destruct (handleInstallSnapshot req (set_now now n)) as [[n' resp]|] eqn:E; simplify_eq/=.
    apply handleInstallSnapshot_move in E; [|done..].
    apply (answer peer n n' None (delete k (net c)) [SnapshotReply src inc peer idx resp] Hi); eauto using move_now, delete_incl; by repeat constructor.
Qed.

Lemma logs_reply k p now :
  net c !! k = Some p -> deliverReply c p now (delete k (net c)) = Some c' ->
  exists T', recorded (nodes c') T T' /\ logs_inv (nodes c') (net c') g' T'.
Proof.
  intros Hk Hd; assert (logs_inv (nodes c) (delete k (net c)) g' T) as Hdrop.
  { eapply logs_net; [done..|]; apply Forall_delete, HL. }
  destruct p as [|dst inc peer t m resp|dst inc peer t resp|dst inc peer idx resp]; simpl in Hd; [done|..];
    (destruct (nodes c !! dst) as [n|] eqn:Hi; [|simplify_eq/=; exists T; split; [apply recorded_refl|done]]);
    (destruct (inc =? incOf c dst); [|simplify_eq/=; exists T; split; [apply recorded_refl|done]]);
    pose proof (plain_now now _ (li_plain _ _ _ _ HL _ _ Hi)) as Hp.
  - destruct (onRequestVoteResp t m true resp (set_now now n)) as [[n' ss]|] eqn:E; simplify_eq/=.
    apply onRequestVoteResp_move in E as [Hm Hss]; [|done|by apply (room2 _ _ Hi)].
    apply move_now in Hm.
    apply (answer dst n n' None (delete k (net c)) (launch dst inc ss) Hi); eauto using delete_incl; [done|].
    intros T' Hgr HL'; destruct Hss as [->| ->]; [by constructor|].
    apply broadcast_hist; [eapply move_plain; [exact (li_plain _ _ _ _ HL _ _ Hi)|done]|].
    apply (li_leader _ _ _ _ HL' dst n'), lookup_insert_eq.
  - destruct (onAppendEntriesResp peer t true resp (set_now now n)) as [n'|] eqn:E; simplify_eq/=.
    apply onAppendEntriesResp_move in E; [|done].
    apply (answer dst n n' None (delete k (net c)) [] Hi); eauto using move_now, delete_incl; simpl; by rewrite ?app_nil_r.
  - simplify_eq/=.
    eapply (answer dst n _ None (delete k (net c)) [] Hi); eauto using move_now, delete_incl, onInstallSnapshotResp_move; simpl; by rewrite ?app_nil_r.
Qed.

(** A node moves and sends nothing. *)
Lemma logs_silent i n n' inc :
  nodes c !! i = Some n -> log_move None n n' -> c' = mkCluster (<[i := n']> (nodes c)) inc (net c) ->
  exists T', recorded (nodes c') T T' /\ logs_inv (nodes c') (net c') g' T'.
Proof.
  intros Hi Hm Hc; apply (answer i n n' None (net c) [] Hi); try done; rewrite Hc; simpl; by rewrite ?app_nil_r.
Qed.

Lemma logs_propose i b n n' r :
  nodes c !! i = Some n -> propose b Command n = Ok (n', r) -> c' = update c i n' (net c) ->
  exists T', recorded (nodes c') T T' /\ logs_inv (nodes c') (net c') g' T'.
Proof.
  intros Hi Hr Hc; apply propose_move in Hr as [Hm _]; [|by eapply li_plain|by eapply room2].
  by eapply logs_silent.
Qed.

Lemma logs_snapshot i n :
  nodes c !! i = Some n -> c' = update c i (forceSnapshot n) (net c) ->
  exists T', recorded (nodes c') T T' /\ logs_inv (nodes c') (net c') g' T'.
Proof.
  intros Hi Hc; assert (forceSnapshot n = n) as Hf.
  { apply forceSnapshot_plain, (Hun i); rewrite Hc; apply lookup_insert_eq. }
  rewrite Hf in Hc; eapply logs_silent; [done| |exact Hc]; apply move_still; [by eapply li_plain|done].
Qed.

Lemma logs_restart i n n' rng now inc :
  node_ok cfg i n -> nodes c !! i = Some n ->
  newRaftNode (opts_ n) cfg (dir_ (log_ n)) freshSm rng now = Ok n' ->
  c' = mkCluster (<[i := start n']> (nodes c)) inc (net c) -> exists T', recorded (nodes c') T T' /\ logs_inv (nodes c') (net c') g' T'.
Proof.
  intros [_ _ _ Hl _] Hi Hr Hc; eapply logs_silent; [done| |exact Hc]; apply move_still; [by eapply li_plain|].
  unfold newRaftNode in Hr; rewrite (lo_durable _ Hl) in Hr; inv_ok; simplify_eq.
  split; [done|done|done|by left].
Qed.

End cases.

Definition matched c : Prop :=
  exists g T, Inv cfg (nodes c) (net c) g /\ logs_inv (nodes c) (net c) g T.

Lemma plain_step_logs c c' g T :
  Inv cfg (nodes c) (net c) g -> logs_inv (nodes c) (net c) g T -> plain_step c c' ->
  exists g' T', granted (nodes c') g g' /\ recorded (nodes c') T T' /\
    Inv cfg (nodes c') (net c') g' /\ logs_inv (nodes c') (net c') g' T'.
Proof.
  intros HI HL [Hs Hroom Hun].
  destruct (step_inv cfg freshSm Hnd Hne _ _ _ HI Hs) as (g' & Hgr & HI').
  pose proof (proj1 Hgr) as Hg.
  assert (exists T', recorded (nodes c') T T' /\ logs_inv (nodes c') (net c') g' T') as (T' & Hrec & HL'); [|by exists g', T'].
  destruct Hs as [ev Ha Hx]; destruct ev as [i now|k now|k|k|i b|i|i x a|i x|i rng now]; simpl in Ha, Hx; try done;
    apply bind_Some_inv in Hx as (n & Hi & Hx).
  - rewrite Hi in Ha; apply N.ltb_lt in Ha; destruct (running_ n); [|done].
    apply bind_Some_inv in Hx as ([n' ss] & Hr%of_outcome_Some & [= Hx]); by eapply logs_tick.
  - destruct n; [by eapply logs_request|by eapply logs_reply..].
  - simplify_eq/=; exists T; split; [apply recorded_refl|]; eapply logs_net; [done..|]; apply Forall_delete, HL.
  - destruct n; simplify_eq/=; exists T; split; [apply recorded_refl|]; eapply logs_net; [done..|]; apply Forall_app; split; [apply HL|].
    constructor; [|done]; exact (Forall_lookup_1 _ _ _ _ (li_net _ _ _ _ HL) Hi).
  - apply bind_Some_inv in Hx as ([n' r] & Hr%of_outcome_Some & [= Hx]); by eapply logs_propose.
  - injection Hx as Hx; by eapply logs_snapshot.
  - apply bind_Some_inv in Hx as (n' & Hr%of_outcome_Some & [= Hx]).
    eapply logs_restart; try done; by apply (co_nodes _ _ _ (proj1 HI)).
Qed.

Lemma plain_step_matched c c' : matched c -> plain_step c c' -> matched c'.
Proof.
  intros (g & T & HI & HL) Hs; destruct (plain_step_logs _ _ _ _ HI HL Hs) as (g' & T' & _ & _ & ? & ?).
  by exists g', T'.
Qed.

Lemma plain_steps_matched c c' : rtc plain_step c c' -> matched c -> matched c'.
Proof. induction 1; eauto using plain_step_matched. Qed.

Lemma fresh_logs os : logs_inv (nodes (freshCluster cfg freshSm os)) (net (freshCluster cfg freshSm os)) ∅ ∅.
Proof.
  assert (forall i n, nodes (freshCluster cfg freshSm os) !! i = Some n ->
    entries_ (log_ n) = [] /\ snapshotIndex_ (log_ n) = 0 /\ role_ n = Follower) as Hn.
  { intros i n Hl; apply freshCluster_nodes in Hl as (o & _ & _ & Hf); unfold freshNode in Hf.
    apply bind_Some_inv in Hf as (m & Hm%of_outcome_Some & Hf); simplify_eq.
    unfold newRaftNode in Hm; change (loadFromDisk ∅) with (Ok (mkPersistentLog ∅ 0 0 0 0 [])) in Hm.
    inv_ok; by simplify_eq. }
  split; try (by intros t L; rewrite lookup_empty).
  - intros i n Hl; destruct (Hn _ _ Hl) as (He & Hs & _); split; [|done]; split; rewrite He, Hs; [apply contiguous_nil|done].
  - intros i n Hl; destruct (Hn _ _ Hl) as (He & _); rewrite He; by intros k e.
  - intros i n Hl Hr; destruct (Hn _ _ Hl) as (_ & _ & ?); congruence.
  - constructor.
Qed.

Lemma fresh_matched os :
  Forall (fun o => 0 < id o < U32) os -> matched (freshCluster cfg freshSm os).
Proof. intros Hos; exists ∅, ∅; split; [by apply freshCluster_inv|apply fresh_logs]. Qed.

(** A schedule of such events. *)
#[local] Instance roomy_dec c : Decision (roomy c).
Proof. unfold roomy; apply _. Defined.
#[local] Instance unsnapped_dec c : Decision (unsnapped c).
Proof. unfold unsnapped; apply _. Defined.

Fixpoint run_plain (evs : list Event) c : option (Cluster S) :=
  match evs with
  | [] => Some c
  | ev :: evs' =>
      if admissible c ev && bool_decide (roomy c)
      then c' ← exec cfg freshSm c ev; if bool_decide (unsnapped c') then run_plain evs' c' else None
      else None
  end.

Lemma run_plain_steps evs c c' : run_plain evs c = Some c' -> rtc plain_step c c'.
Proof.
  revert c; induction evs as [|ev evs IH]; intros c; simpl; [by intros [= <-]|].
  destruct (admissible c ev) eqn:Ha; [|done]; case_bool_decide as Hr; [|done]; cbn [andb].
  intros (c1 & H1 & H2)%bind_Some_inv; case_bool_decide as Hu; [|done].
  eapply rtc_l; [|by apply IH]; split; [by econstructor|done|done].
Qed.

End matching.

(** ** The theorem *)
Section theorems.
Context {S : Type} `{StateMachine S}.

(** C4: log matching of uninterrupted methods. Each call of a method of [RaftNode]
    (a round of the timer, a handler, a callback, [propose]) runs without
    interruption, as one step: the releases of [mu_] inside the methods are not
    interleaved (two leaders of one term, as in [two_leaders_in_gap], would break
    the claim). In such runs of a group that starts from empty directories, whose
    membership is fixed and which take no snapshot, if the logs of two nodes have an
    entry of the same term at the same index, then they are equal at every index up
    to that one, whatever the network delays, reorders, duplicates (vote requests
    apart) or loses and whichever nodes crash and restart between methods; terms and
    indices stay below 2^64. *)
Theorem log_matching (cfg : ClusterConfig) (freshSm : S) (os : list RaftOptions)
    (c : Cluster S) (i j : NodeId) (n1 n2 : RaftNode S) (idx k : LogIndex) (e1 e2 : LogEntry)
    (Hnd : NoDup (voters cfg)) (Hne : voters cfg <> []) (Hos : Forall (fun o => 0 < id o < U32) os)
    (Hr : rtc (plain_step cfg freshSm) (freshCluster cfg freshSm os) c)
    (Hi : nodes c !! i = Some n1) (Hj : nodes c !! j = Some n2) (Hb : idx < U64)
    (H1 : at_ idx (log_ n1) = Some e1) (H2 : at_ idx (log_ n2) = Some e2) (Ht : e_term e1 = e_term e2)
    (Hk : k <= idx) :
  at_ k (log_ n1) = at_ k (log_ n2).
Proof.
  destruct (plain_steps_matched cfg freshSm Hnd Hne _ _ Hr (fresh_matched cfg freshSm os Hos)) as (g & T & _ & HL).
  pose proof (li_plain _ _ _ _ _ HL _ _ Hi) as [_ Hs1]; pose proof (li_plain _ _ _ _ _ HL _ _ Hj) as [_ Hs2].
  rewrite at_spec in H1, H2 |- * by lia; rewrite at_spec by lia; rewrite Hs1, Hs2, N.sub_0_r in *.
  case_decide; [|done]; case_decide; [|done].
  pose proof (history_agree T _ _ _ _ _ (li_nodes _ _ _ _ _ HL _ _ Hi) (li_nodes _ _ _ _ _ HL _ _ Hj) H1 H2 Ht) as Hag.
  rewrite <- (lookup_take_lt (entries_ (log_ n1)) (Datatypes.S (N.to_nat (idx - 1)))), Hag by lia.
  by rewrite lookup_take_lt by lia.
Qed.

End theorems.

(** ** A replicated command in a group of three *)
Definition matching_run : list Event :=
  election_run ++ [EvDeliver 1 1000; EvPropose 1 (KvCommand_encode (put_cmd "k" "v" 7 1)); EvDeliver 2 1000; EvTick 1 2000; EvDeliver 2 2000].

Definition matched3 : Cluster KvStore :=
  default (mkCluster ∅ ∅ [])
    (run_plain sample_cfg KvStore_init matching_run
       (freshCluster sample_cfg KvStore_init (sample_opts <$> [1; 2; 3]))).

Lemma matched3_reachable :
  rtc (plain_step sample_cfg KvStore_init) (freshCluster sample_cfg KvStore_init (sample_opts <$> [1; 2; 3])) matched3.
Proof. apply (run_plain_steps _ _ matching_run); vm_compute; reflexivity. Qed.

Definition second_entry : LogEntry := mkLogEntry 1 2 Command (KvCommand_encode (put_cmd "k" "v" 7 1)).

Lemma log_matching_witness :
  at_ 2 (log_ (node_of matched3 1)) = Some second_entry /\ at_ 2 (log_ (node_of matched3 2)) = Some second_entry /\
  at_ 1 (log_ (node_of matched3 1)) = at_ 1 (log_ (node_of matched3 2)).
Proof.
  split; [vm_compute; reflexivity|]; split; [vm_compute; reflexivity|].
  apply (log_matching sample_cfg KvStore_init (sample_opts <$> [1; 2; 3]) matched3 1 2
           (node_of matched3 1) (node_of matched3 2) 2 1 second_entry second_entry
           sample_voters_nodup ltac:(discriminate) sample_ids matched3_reachable); vm_compute; done.
Defined.
