(* ===== verification/RaftActs.v ===== *)
(** * What each method of [RaftNode] does, for the proof of state machine safety

    [RaftLogMoves] says what a method does to the log.  The proof that committed
    entries stay needs more: the vote it records, the progress it writes down for
    a peer, how it moves the commit index and what it applies.  [act] classifies
    the change of the persistent state, the role and [matchIndex_]; [advance] is
    one round of committing or applying; [turn] is a whole method: an act, then
    rounds of [advance].  [emits] says which messages a method sends. *)
From stdpp Require Import base tactics list gmap numbers strings sorting relations.
From Stdlib Require Import Ascii NArith Lia.
From S2P Require Import Prelude.
From S2P Require Import Buffer.
From S2P Require Import Types.
From S2P Require Import RpcMessages.
From S2P Require Import PersistentLog.
From S2P Require Import StateMachine.
From S2P Require Import RaftNode.
From S2P Require Import RaftNodeFacts.
From S2P Require Import RaftHandlers.
From S2P Require Import Cluster.
From S2P Require Import RaftInvariant.
From S2P Require Import RaftLogMoves.

Local Open Scope N_scope.

Section acts.
Context {S : Type} `{StateMachine S}.
Implicit Types (n m : RaftNode S) (inp : option Packet).
(** [re] tells whether the process is being restarted. *)
Context (cfg : ClusterConfig) (freshSm : S) (re : bool).

(** ** Committing and applying *)
Inductive advance n : RaftNode S -> Prop :=
| adv_apply n' : applyCommittedEntries n = Ok n' -> advance n n'
| adv_commit k : role_ n = Leader -> commitCandidate n = Some k -> commitIndex_ n < k ->
    termAt k (log_ n) = currentTerm_ (log_ n) -> advance n (set_commitIndex k n).

(** The fields an act speaks of, which [advance] leaves alone. *)
Record same_core n n' : Prop := {
  sc_opts : opts_ n' = opts_ n;
  sc_config : config_ n' = config_ n;
  sc_log : log_ n' = log_ n;
  sc_role : role_ n' = role_ n;
  sc_match : matchIndex_ n' = matchIndex_ n
}.

#[global] Instance same_core_equiv : Equivalence same_core.
Proof.
  split; [intros n; by split|intros a b []; by split|].
  intros a b c [] []; split; congruence.
Qed.

Definition unconfigured n : Prop := Forall (fun e => e_type e <> Config) (entries_ (log_ n)).

Lemma applyEntry_core e n n' : e_type e <> Config -> applyEntry e n = Ok n' -> same_core n n'.
Proof.
  unfold applyEntry; intros He Hr; inv_ok; destruct x as [m r]; inv_ok.
  assert (same_core n m) as Hm; [|etransitivity; [exact Hm|]; by split].
  destruct (e_type e); inv_ok; simplify_eq/=; try done; by split.
Qed.

Lemma applyAll_core es n n' : Forall (fun e => e_type e <> Config) es -> applyAll es n = Ok n' -> same_core n n'.
Proof.
  intros Hes; revert n; induction Hes as [|e es He _ IH]; intros n Hr; simpl in Hr; inv_ok; [done|].
  etransitivity; [by eapply applyEntry_core|by apply IH].
Qed.

Lemma advance_core n n' : unconfigured n -> advance n n' -> same_core n n'.
Proof.
  intros Hu [n1 Hr|k]; [|by split].
  unfold applyCommittedEntries in Hr; destruct (takeCommitted _ _ _) as [es m] eqn:E.
  apply takeCommitted_spec in E as ([Ho Hl Hro _ _ _] & Hc & _ & _ & _ & _ & Hm & new & -> & Hnew).
  transitivity m; [by split|]; eapply applyAll_core; [|exact Hr].
  eapply Forall_impl; [exact Hnew|]; intros e He; exact (proj1 (Forall_forall _ _) Hu e He).
Qed.

Lemma advances_core n n' : unconfigured n -> rtc advance n n' -> same_core n n'.
Proof.
  intros Hu Hr; induction Hr as [|a b c Hab _ IH]; [done|].
  pose proof (advance_core _ _ Hu Hab) as Hc; etransitivity; [exact Hc|]; apply IH.
  unfold unconfigured; by rewrite (sc_log _ _ Hc).
Qed.

Lemma tryAdvance_advances n n' : tryAdvanceCommitIndex n = Ok n' -> rtc advance n n'.
Proof.
  unfold tryAdvanceCommitIndex; intros Hr; case_decide; inv_ok; [|done].
  destruct (commitCandidate n) as [k|] eqn:Ek; inv_ok; [|done].
  destruct (N.ltb_spec (commitIndex_ n) k); cbn [andb] in Hr; inv_ok; [|done].
  destruct (N.eqb_spec (termAt k (log_ n)) (currentTerm_ (log_ n))); inv_ok; [|done].
  eapply rtc_l; [by apply (adv_commit _ k)|]; eapply rtc_once; by apply adv_apply.
Qed.

(** ** Acts *)

(** The request being handled, as a vote request and as an append request, and
    the progress of a peer that a reply reports. *)
Definition polled inp (r : RequestVoteReq) : Prop :=
  exists src inc peer t k, inp = Some (Request src inc (SendRequestVote peer r t k)).
Definition heard inp (r : AppendEntriesReq) : Prop :=
  exists src inc peer t, inp = Some (Request src inc (SendAppendEntries peer r t)).
Definition reported inp n (v : NodeId) (k : LogIndex) : Prop :=
  match inp with
  | Some (AppendReply _ _ peer t resp) =>
      v = peer /\ k = aer_matchIndex resp /\ aer_success resp = true /\ t = nodeTerm n
  | Some (SnapshotReply _ _ peer idx _) => v = peer /\ k = idx
  | _ => False
  end.

(** The recorded vote stays, is cleared, or is given to the sender of a request. *)
Definition ballot inp n m : Prop :=
  (nodeTerm m = nodeTerm n /\ nodeVote m = nodeVote n) \/ nodeVote m = 0 \/
  (exists r, polled inp r /\ nodeTerm m = rv_term r /\ nodeVote m = rv_candidateId r /\
     upToDate (rv_lastLogTerm r) (rv_lastLogIndex r) (log_ n)).

(** The entries of an accepted request, up to its last index, are in the log. *)
Definition reach (r : AppendEntriesReq) : LogIndex := ae_prevLogIndex r + nlen (ae_entries r).

Record accepts (r : AppendEntriesReq) n m : Prop := {
  ac_old : nodeTerm n <= ae_term r;
  ac_term : nodeTerm m = ae_term r;
  ac_role : role_ m = Follower;
  ac_vote : (nodeTerm m = nodeTerm n /\ nodeVote m = nodeVote n) \/ nodeVote m = 0;
  ac_check : checkPrev r (log_ n) = None;
  ac_prev : ae_prevLogIndex r = 0 \/
    exists e, at_ (ae_prevLogIndex r) (log_ n) = Some e /\ e_term e = ae_prevLogTerm r /\ e_term e <> 0;
  ac_fits : ae_prevLogIndex r <= lastIndex (log_ n);
  ac_log : entries_ (log_ m) =
    if decide (ae_entries r = []) then entries_ (log_ n)
    else take (N.to_nat (ae_prevLogIndex r)) (entries_ (log_ n)) ++ ae_entries r
}.

(** Nothing is known of the peers yet. *)
Definition fresh_match m : Prop :=
  (forall v k, matchIndex_ m !! v = Some k -> k = 0 /\ v ∈ voters (config_ m)) /\
  (forall v, v ∈ voters (config_ m) -> is_Some (matchIndex_ m !! v)).

Inductive act (i : NodeId) inp n m : Prop :=
| act_keep :
    same_log (log_ n) (log_ m) -> nodeTerm n <= nodeTerm m ->
    role_ m = Follower \/ (role_ m = role_ n /\ nodeTerm m = nodeTerm n) -> ballot inp n m ->
    (role_ m = Leader -> forall v k, matchIndex_ m !! v = Some k -> matchIndex_ n !! v = Some k \/ reported inp n v k) ->
    (role_ m = Leader -> forall v, is_Some (matchIndex_ n !! v) -> is_Some (matchIndex_ m !! v)) ->
    act i inp n m
| act_stand :
    same_log (log_ n) (log_ m) -> nodeTerm m = nodeTerm n + 1 -> nodeVote m = i -> role_ m = Candidate ->
    act i inp n m
| act_elect e :
    entries_ (log_ m) = entries_ (log_ n) ++ [e] -> e_term e = nodeTerm m -> role_ m = Leader -> fresh_match m ->
    (role_ n = Candidate /\ nodeTerm m = nodeTerm n /\ nodeVote m = nodeVote n /\
       exists inc peer t k resp, inp = Some (VoteReply i inc peer t k resp)) \/
    (nodeTerm m = nodeTerm n + 1 /\ nodeVote m = i /\ i ∈ voters (config_ m)) ->
    act i inp n m
| act_append e :
    entries_ (log_ m) = entries_ (log_ n) ++ [e] -> e_term e = nodeTerm m -> role_ n = Leader -> role_ m = Leader ->
    nodeTerm m = nodeTerm n -> nodeVote m = nodeVote n -> matchIndex_ m = matchIndex_ n ->
    act i inp n m
| act_accept r : heard inp r -> accepts r n m -> act i inp n m.

(** The configuration and the absence of a snapshot are carried along. *)
Record carried n m : Prop := {
  ca_opts : opts_ m = opts_ n;
  ca_config : config_ m = config_ n;
  ca_snapTerm : snapshotTerm_ (log_ m) = snapshotTerm_ (log_ n);
  ca_snapFile : dir_ (log_ m) !! "snapshot.bin" = dir_ (log_ n) !! "snapshot.bin"
}.

#[global] Instance carried_preorder : PreOrder carried.
Proof.
  split; [intros n; by split|]; intros a b c [] []; split; congruence.
Qed.

(** Commit index, applied index and state machine after the act. *)
Inductive booked inp n m : Prop :=
| bk_same : commitIndex_ m = commitIndex_ n -> lastApplied_ m = lastApplied_ n -> sm_ m = sm_ n -> booked inp n m
| bk_heard r : heard inp r -> accepts r n m -> commitIndex_ m = N.min (ae_leaderCommit r) (reach r) ->
    lastApplied_ m = lastApplied_ n -> sm_ m = sm_ n -> booked inp n m
| bk_restart : re = true -> role_ m = Follower -> commitIndex_ m = 0 -> lastApplied_ m = 0 -> sm_ m = freshSm -> booked inp n m.

(** A whole method. *)
Record turn (i : NodeId) inp n n' : Prop := {
  tn_act : act i inp n n';
  tn_carried : carried n n';
  tn_booked : exists m, same_core m n' /\ booked inp n m /\ rtc advance m n'
}.

Lemma turn_intro i inp n m n' :
  act i inp n m -> carried n m -> booked inp n m -> unconfigured m -> rtc advance m n' -> turn i inp n n'.
Proof.
  intros Ha Hc Hb Hu Hr; pose proof (advances_core _ _ Hu Hr) as Hs; pose proof Hs as [Ho Hcf Hl Hro Hm]; split.
  - destruct Ha as [H1 H2 H3 H4 H5 H6|H1 H2 H3 H4|e H1 H2 H3 [H4 H5] H6|e H1 H2 H3 H4 H5 H6 H7|r H1 [H2 H3 H4 H5 H6 H7 H8 H9]];
      [apply act_keep|apply act_stand|apply (act_elect _ _ _ _ e)|apply (act_append _ _ _ _ e)|apply (act_accept _ _ _ _ r); [done|split]];
      unfold ballot, fresh_match, nodeTerm, nodeVote in *; rewrite ?Hl, ?Hro, ?Hm, ?Hcf; done.
  - destruct Hc; split; rewrite ?Hl; congruence.
  - by exists m.
Qed.

(** ** The methods *)
Lemma append_file es l : dir_ (appendAndSync es l) !! "snapshot.bin" = dir_ l !! "snapshot.bin".
Proof.
  destruct es as [|e es]; [done|]; unfold appendAndSync; set (l1 := append_entries _ _ _).
  change (dir_ (with_dir ?d _)) with d; rewrite rewriteWal_ops, tmp_ops_lookup by done.
  done.
Qed.

Lemma hard_file t v l : dir_ (setHardState t v l) !! "snapshot.bin" = dir_ l !! "snapshot.bin".
Proof.
  unfold setHardState; change (dir_ (with_dir ?d _)) with d.
  change (writeHardStateLocked ?x) with (tmp_ops "hardstate.tmp" "hardstate" (putU32 (votedFor_ x) (putU64 (currentTerm_ x) []))).
  by rewrite tmp_ops_lookup by done.
Qed.

Lemma turn_still i inp n n' : act i inp n n' -> carried n n' -> booked inp n n' -> turn i inp n n'.
Proof. intros; split; [done..|]; by exists n'. Qed.

(** A method that only changes fields nobody speaks of. *)
Lemma turn_idle i inp n n' :
  same_core n n' -> commitIndex_ n' = commitIndex_ n -> lastApplied_ n' = lastApplied_ n -> sm_ n' = sm_ n ->
  turn i inp n n'.
Proof.
  intros [Ho Hc Hl Hr Hm] H1 H2 H3; apply turn_still; [|split; by rewrite ?Hl|by apply bk_same].
  apply act_keep; unfold ballot, nodeTerm, nodeVote; rewrite ?Hl, ?Hm; try done; [by right|by left|by left].
Qed.

Lemma turn_follower i inp term leader n : turn i inp n (becomeFollower term leader n).
Proof.
  destruct (becomeFollower_spec term leader n)
    as (Ht & Hv & Hr & _ & Hl & Ho & Hc & _ & _ & Hs & Hci & Hla & _ & _).
  apply turn_still.
  - apply act_keep; [done|lia|by left| |by rewrite Hr|by rewrite Hr].
    destruct (N.ltb_spec (nodeTerm n) term); [by right; left|left]; split; [lia|done].
  - split; [done|done|apply Hl|]; unfold becomeFollower; destruct (_ <? term); [apply hard_file|done].
  - by apply bk_same.
Qed.

Lemma turn_propose i inp b t n n' r :
  plain n -> unconfigured n -> t <> Config -> lastIndex (log_ n) + 2 < U64 -> propose b t n = Ok (n', r) -> turn i inp n n'.
Proof.
  intros Hp Hu Ht Hb; unfold propose; case_decide as Hl; intros Hr; inv_ok; simplify_eq; [|by apply turn_idle].
  set (e := mkLogEntry _ _ _ _) in *.
  destruct (append_next e (log_ n) (pn_wf _ Hp) Hb) as (_ & Hes & _ & _ & Hct & _); [apply add64_small; lia|].
  apply (turn_intro i inp n (set_log (appendAndSync [e] (log_ n)) n)).
  - by apply (act_append _ _ _ _ e).
  - split; [done..|apply append_file].
  - by apply bk_same.
  - unfold unconfigured; cbn [log_ set_log]; rewrite Hes; apply Forall_app; split; [done|by constructor].
  - by apply tryAdvance_advances.
Qed.

(** The peers' progress is unknown when a leader takes office. *)
Lemma reset_peers_book vs last n :
  let n' := fold_left (fun n v =>
      set_matchIndex (<[v := 0]> (matchIndex_ n))
        (set_nextIndex (<[v := add64 last 1]> (nextIndex_ n)) n)) vs n in
  commitIndex_ n' = commitIndex_ n /\ sm_ n' = sm_ n.
Proof.
  revert n; induction vs as [|w vs IH]; intros n; [done|]; simpl.
  by destruct (IH (set_matchIndex (<[w := 0]> (matchIndex_ n))
        (set_nextIndex (<[w := add64 last 1]> (nextIndex_ n)) n))) as (-> & ->).
Qed.

Record taking_office n m : Prop := {
  to_log : exists e, entries_ (log_ m) = entries_ (log_ n) ++ [e] /\ e_term e = nodeTerm m /\ e_type e <> Config;
  to_role : role_ m = Leader;
  to_match : fresh_match m;
  to_hard : nodeTerm m = nodeTerm n /\ nodeVote m = nodeVote n;
  to_carried : carried n m;
  to_book : commitIndex_ m = commitIndex_ n /\ lastApplied_ m = lastApplied_ n /\ sm_ m = sm_ n
}.

Lemma becomeLeader_office n n' ss :
  plain n -> unconfigured n -> lastIndex (log_ n) + 2 < U64 -> role_ n = Candidate -> becomeLeader n = Ok (n', ss) ->
  exists m, taking_office n m /\ rtc advance m n' /\ ss = broadcastAppendEntries n'.
Proof.
  intros Hp Hu Hb Hc; unfold becomeLeader; rewrite decide_True by done; intros Hr; inv_ok; simplify_eq.
  match goal with H1 : propose _ _ ?x = Ok _ |- _ => set (m0 := x) in * end.
  assert (opts_ m0 = opts_ n /\ log_ m0 = log_ n /\ role_ m0 = Leader /\ config_ m0 = config_ n /\
    commitIndex_ m0 = commitIndex_ n /\ lastApplied_ m0 = lastApplied_ n /\ sm_ m0 = sm_ n /\
    forall v, matchIndex_ m0 !! v = if decide (v ∈ voters (config_ n)) then Some 0 else (∅ : gmap N N) !! v)
    as (Ho & Hl & Hrl & Hcf & Hci & Hla & Hsm & Hm).
  { unfold m0; match goal with |- context [fold_left _ ?vs ?x] =>
      destruct (reset_peers_fields vs (lastIndex (log_ n)) x) as (E1 & E2 & E3 & E4 & E5 & _);
      destruct (reset_peers_book vs (lastIndex (log_ n)) x) as (E6 & E7);
      pose proof (reset_peers_match vs (lastIndex (log_ n)) x) as E8 end.
    split_and!; [exact E1|exact E3|exact E5|exact E2|exact E6|exact E4|exact E7|exact E8]. }
  assert (fresh_match m0) as Hfm.
  { unfold fresh_match; rewrite Hcf; split; intros v; [intros k|]; rewrite Hm; case_decide; try done; by intros [= <-]. }
  clearbody m0; unfold propose in *; destruct x as [m1 r].
  match goal with H1 : (if decide (role_ m0 = Leader) then _ else _) = _ |- _ => rewrite decide_True in H1 by done; rename H1 into Hpr end.
  inv_ok; simplify_eq; rewrite Hl in *; set (e := mkLogEntry _ _ _ _) in *.
  destruct (append_next e (log_ n) (pn_wf _ Hp) Hb) as (_ & Hes & _ & _ & Hct & _); [apply add64_small; lia|].
  exists (set_log (appendAndSync [e] (log_ n)) m0); split; [split; try done|].
  - by exists e.
  - split; [done..|apply append_file].
  - split; [|done]; etransitivity; apply tryAdvance_advances; done.
Qed.

(** What a method hands to the transport. *)
Inductive sends (i : NodeId) n' : list Send -> Prop :=
| sn_none : sends i n' []
| sn_poll : i ∈ voters cfg -> role_ n' = Candidate ->
    sends i n' (voteRequests cfg i (nodeTerm n') (lastIndex (log_ n')) (lastTerm (log_ n')))
| sn_replicate : sends i n' (broadcastAppendEntries n').

Lemma turn_office i inp n m m' n' :
  carried n m -> commitIndex_ m = commitIndex_ n -> lastApplied_ m = lastApplied_ n -> sm_ m = sm_ n ->
  entries_ (log_ m) = entries_ (log_ n) -> unconfigured n -> taking_office m m' -> rtc advance m' n' ->
  (role_ n = Candidate /\ nodeTerm m = nodeTerm n /\ nodeVote m = nodeVote n /\
     exists inc peer t k resp, inp = Some (VoteReply i inc peer t k resp)) \/
  (nodeTerm m = nodeTerm n + 1 /\ nodeVote m = i /\ i ∈ voters (config_ n)) ->
  turn i inp n n'.
Proof.
  intros Hc H1 H2 H3 He Hu [(e & Hes & Het & Hty) Hr Hm [Ht Hv] Hc' (H4 & H5 & H6)] Hadv Hcase.
  assert (carried n m') as Hcn by (by etransitivity).
  apply (turn_intro i inp n m'); try done.
  - apply (act_elect _ _ _ _ e); [by rewrite Hes, He|done..|].
    rewrite (ca_config _ _ Hcn), Ht, Hv; exact Hcase.
  - apply bk_same; congruence.
  - unfold unconfigured; rewrite Hes, He; apply Forall_app; split; [exact Hu|by constructor].
Qed.

Lemma turn_candidate i inp n n' ss :
  node_ok cfg i n -> voters cfg <> [] -> plain n -> lastIndex (log_ n) + 2 < U64 -> nodeTerm n + 1 < U64 ->
  becomeCandidate n = Ok (n', ss) -> turn i inp n n' /\ sends i n' ss.
Proof.
  intros [Hid Hrg Hcf Hl Ha] Hne Hp Hb Ht; unfold becomeCandidate.
  set (m0 := resetElectionDeadline _).
  assert (config_ m0 = cfg) as E by done; rewrite E; clear E.
  assert (same_log (log_ n) (log_ m0) /\ opts_ m0 = opts_ n /\ nodeTerm m0 = nodeTerm n + 1 /\ nodeVote m0 = i /\
    role_ m0 = Candidate /\ carried n m0 /\ commitIndex_ m0 = commitIndex_ n /\ lastApplied_ m0 = lastApplied_ n /\ sm_ m0 = sm_ n)
    as (Hlg & Ho & Htm & Hvm & Hr & Hca & H1 & H2 & H3).
  { split_and!; try done; [by apply add64_small|]; split; try done; apply hard_file. }
  assert (add64 (currentTerm_ (log_ n)) 1 = nodeTerm m0) as E by (rewrite Htm; by apply add64_small).
  rewrite E, Hid; clear E Hid; clearbody m0; intros Hx.
  assert (forall vs, turn i inp n (set_votes vs m0)) as Hstand.
  { intros vs; apply turn_still; [by apply act_stand|destruct Hca; by split|by apply bk_same]. }
  destruct (negb (hasVoter cfg i) && (0 <? nlen (voters cfg))) eqn:Ev.
  { injection Hx as <- <-; split; [|constructor]; specialize (Hstand (votes_ m0)); by destruct m0. }
  assert (i ∈ voters cfg) as Hin.
  { apply andb_false_iff in Ev as [Ev%negb_false_iff|Ev%N.ltb_ge].
    - unfold hasVoter in Ev; apply existsb_exists in Ev as (x & Hx' & ->%N.eqb_eq); by apply list_elem_of_In.
    - destruct (voters cfg); [done|]; rewrite nlen_cons in Ev; lia. }
  set (vs := <[nodeTerm m0 := 1]> (votes_ m0)) in *; specialize (Hstand vs).
  destruct (_ <=? 1); [|injection Hx as <- <-; split; [done|]; by apply (sn_poll i (set_votes vs m0))].
  assert (plain (set_votes vs m0)) as Hp'.
  { destruct Hp as [Hwf Hs0]; split; [cbn; by rewrite <- Hlg|cbn; by rewrite (proj1 (proj2 Hlg))]. }
  assert (unconfigured n) as Hu by apply Hl.
  apply becomeLeader_office in Hx as (m & Hm & Hadv & ->); [split; [|constructor]|done| | |done].
  - eapply (turn_office i inp n (set_votes vs m0) m); try done; [destruct Hca; by split|apply Hlg|right].
    by rewrite Hcf.
  - unfold unconfigured; cbn; by rewrite (proj1 Hlg).
  - by rewrite <- (proj1 (same_log_last _ _ Hlg)) in Hb.
Qed.

Lemma turn_voted i inc peer t k resp n n' ss :
  plain n -> unconfigured n -> lastIndex (log_ n) + 2 < U64 ->
  onRequestVoteResp t k true resp n = Ok (n', ss) ->
  turn i (Some (VoteReply i inc peer t k resp)) n n' /\ sends i n' ss.
Proof.
  intros Hp Hu Hb; unfold onRequestVoteResp; cbn [negb]; intros Hr.
  destruct (bool_decide (role_ n = Candidate)) eqn:Er; cbn [negb orb] in Hr;
    [apply bool_decide_eq_true in Er|inv_ok; simplify_eq; split; [by apply turn_idle|constructor]].
  destruct (_ =? _); cbn [negb] in Hr; [|inv_ok; simplify_eq; split; [by apply turn_idle|constructor]].
  destruct (_ <? _); inv_ok; [simplify_eq; split; [apply turn_follower|constructor]|].
  destruct (rvr_voteGranted resp); inv_ok; [|simplify_eq; split; [by apply turn_idle|constructor]].
  destruct (_ <=? _); inv_ok; [|simplify_eq; split; [by apply turn_idle|constructor]].
  apply becomeLeader_office in Hr as (m & Hm & Hadv & ->); [split; [|constructor]|destruct Hp; by split|done..].
  eapply (turn_office i _ n (set_votes _ n) m); try done; left; by eauto 10.
Qed.

Lemma turn_acked i dst inc peer t resp n n' :
  unconfigured n -> onAppendEntriesResp peer t true resp n = Ok n' ->
  turn i (Some (AppendReply dst inc peer t resp)) n n'.
Proof.
  intros Hu; unfold onAppendEntriesResp; cbn [negb]; intros Hr.
  destruct (_ <? _); inv_ok; [apply turn_follower|].
  destruct (bool_decide (role_ n = Leader)) eqn:Er; cbn [negb orb] in Hr; clear Er; [|inv_ok; by apply turn_idle].
  destruct (N.eqb_spec (currentTerm_ (log_ n)) t); cbn [negb] in Hr; [|inv_ok; by apply turn_idle].
  destruct (aer_success resp) eqn:Es; inv_ok; [|by apply turn_idle].
  eapply turn_intro; [| | | |by apply tryAdvance_advances]; [|by split|by apply bk_same|done].
  apply act_keep; try done; [by right|by left| |]; intros _ v; cbn [matchIndex_ set_nextIndex set_matchIndex];
    [intros k|]; rewrite lookup_insert; case_decide; subst; [intros [= <-]; right; by split_and!|by left|done|done].
Qed.

Lemma turn_installed i dst inc peer idx resp n :
  turn i (Some (SnapshotReply dst inc peer idx resp)) n (onInstallSnapshotResp peer idx true resp n).
Proof.
  unfold onInstallSnapshotResp; cbn [negb]; destruct (_ <? _); [apply turn_follower|].
  apply turn_still; [|by split|by apply bk_same].
  apply act_keep; try done; [by right|by left| |]; intros _ v; cbn [matchIndex_ set_nextIndex set_matchIndex];
    [intros k|]; rewrite lookup_insert; case_decide; subst; [intros [= <-]; by right|by left|done|done].
Qed.

(** Reading the clock first changes nothing. *)
Lemma turn_now i inp now n n' : turn i inp (set_now now n) n' -> turn i inp n n'.
Proof.
  intros [Ha [] (m & Hm & Hb & Hadv)]; split; [|by split|exists m; split; [done|split; [|done]]].
  - destruct Ha as [| |e|e|r ? []]; [by apply act_keep|by apply act_stand|by apply (act_elect _ _ _ _ e)|by apply (act_append _ _ _ _ e)|].
    by apply (act_accept _ _ _ _ r).
  - destruct Hb as [|r ? []|]; [by apply bk_same|by apply (bk_heard _ _ _ r)|by apply bk_restart].
Qed.

(** A vote that is granted goes to a candidate whose log is up to date. *)
Lemma handleRequestVote_fields req n :
  let n' := (handleRequestVote req n).1 in
  carried n n' /\ matchIndex_ n' = matchIndex_ n /\ commitIndex_ n' = commitIndex_ n /\
  lastApplied_ n' = lastApplied_ n /\ sm_ n' = sm_ n.
Proof.
  unfold handleRequestVote; destruct (_ <? _); [done|]; set (m := if _ <? _ then _ else n).
  assert (carried n m /\ matchIndex_ m = matchIndex_ n /\ commitIndex_ m = commitIndex_ n /\
    lastApplied_ m = lastApplied_ n /\ sm_ m = sm_ n) as (Hc & H1 & H2 & H3 & H4).
  { unfold m; destruct (_ <? _); [|done]; split; [apply (turn_follower 0 None)|].
    by destruct (becomeFollower_spec (rv_term req) 0 n) as (_ & _ & _ & _ & _ & _ & _ & _ & _ & ? & ? & ? & _ & ?). }
  clearbody m; destruct (_ && _); [|done]; cbn [fst]; split; [|done].
  destruct Hc as [? ? ? Hf]; split; try done; rewrite <- Hf; apply hard_file.
Qed.

Lemma turn_polled i src inc peer req t k n n' resp :
  handleRequestVote req n = (n', resp) ->
  turn i (Some (Request src inc (SendRequestVote peer req t k))) n n'.
Proof.
  intros E; destruct (handleRequestVote_fields req n) as (Hc & Hm & H1 & H2 & H3).
  pose proof (handleRequestVote_facts req n) as Hf; rewrite E in Hc, Hm, H1, H2, H3, Hf; cbn [fst] in *.
  destruct Hf as (Hgr & _ & Ht & Hv & Hr & Hl).
  apply turn_still; [|done|by apply bk_same].
  apply act_keep; try done; [lia| | |rewrite Hm; auto|by rewrite Hm].
  - destruct (N.ltb_spec (nodeTerm n) (rv_term req)); [by left|right]; split; [done|lia].
  - unfold ballot; destruct (rvr_voteGranted resp); [right; right|destruct (N.ltb_spec (nodeTerm n) (rv_term req)); [by right; left|left]].
    + destruct (proj1 Hgr eq_refl) as (Hle & _ & Hup); exists req; split_and!; try done; [by do 5 eexists|lia].
    + split; [lia|done].
Qed.

Lemma turn_snapshot i src inc peer req idx n n' resp :
  is_lastIncludedIndex req = 0 -> handleInstallSnapshot req n = Ok (n', resp) ->
  turn i (Some (Request src inc (SendInstallSnapshot peer req idx))) n n'.
Proof.
  intros H0; unfold handleInstallSnapshot; destruct (_ <? _); intros Hr; inv_ok; [simplify_eq; by apply turn_idle|].
  rewrite H0 in Hr; destruct (N.leb_spec 0 (snapshotIndex_ (log_ (becomeFollower (is_term req) (is_leaderId req) n)))); [|lia].
  inv_ok; simplify_eq; apply turn_follower.
Qed.

Lemma turn_loop i now n n' ss :
  node_ok cfg i n -> voters cfg <> [] -> plain n -> lastIndex (log_ n) + 2 < U64 -> nodeTerm n + 1 < U64 ->
  runLoopRound now n = Ok (n', ss) -> snapshotIndex_ (log_ n') = 0 -> turn i None n n' /\ sends i n' ss.
Proof.
  intros Hn Hne Hp Hb Ht; unfold runLoopRound; intros Hr H0; inv_ok; destruct x as [m s]; simplify_eq/=.
  rewrite maybeSnapshot_plain by done.
  match goal with H : (if decide _ then _ else _) = Ok _ |- _ => rename H into Hx end; case_decide.
  - destruct (_ <=? _); inv_ok; simplify_eq; (split; [by apply turn_idle|]); [|constructor].
    exact (sn_replicate i (set_lastHeartbeat now (set_now now n))).
  - destruct (_ <=? _); inv_ok; [|simplify_eq; split; [by apply turn_idle|constructor]].
    apply (turn_candidate i None) in Hx as [Hx Hs]; try done; [split; [by eapply turn_now|done]|destruct Hn; by split|destruct Hp; by split].
Qed.

Record heard_core n m : Prop := {
  hc_carried : carried n m;
  hc_same : same_log (log_ n) (log_ m);
  hc_role : role_ m = Follower;
  hc_vote : (nodeTerm m = nodeTerm n /\ nodeVote m = nodeVote n) \/ nodeVote m = 0;
  hc_book : commitIndex_ m = commitIndex_ n /\ lastApplied_ m = lastApplied_ n /\ sm_ m = sm_ n
}.

Lemma heard_core_intro term leader n :
  nodeTerm n <= term ->
  let m := set_leaderId leader (resetElectionDeadline (becomeFollower term leader n)) in
  heard_core n m /\ nodeTerm m = term.
Proof.
  intros Hle m; destruct (becomeFollower_spec term leader n)
    as (Ht & Hv & Hr & _ & Hl & Ho & Hc & _ & _ & Hs & Hci & Hla & _ & _).
  split; [|unfold nodeTerm in *; cbn in Ht |- *; lia]; split; [|done|done| |done].
  - pose proof (tn_carried _ _ _ _ (turn_follower 0 None term leader n)) as []; by split.
  - destruct (N.ltb_spec (nodeTerm n) term); [by right|left]; split; [|done]; unfold nodeTerm in *; cbn in Ht |- *; lia.
Qed.

(** The entries replace what follows [prevLogIndex]. *)
Lemma heard_append r m :
  plain m -> contiguous (ae_prevLogIndex r) (ae_entries r) -> (ae_entries r <> [] -> reach r + 2 < U64) ->
  ae_prevLogIndex r <= lastIndex (log_ m) ->
  let m1 := match ae_entries r with [] => m | _ => set_log (appendAndSync (ae_entries r) (log_ m)) m end in
  carried m m1 /\ role_ m1 = role_ m /\ nodeTerm m1 = nodeTerm m /\ nodeVote m1 = nodeVote m /\
  commitIndex_ m1 = commitIndex_ m /\ lastApplied_ m1 = lastApplied_ m /\ sm_ m1 = sm_ m /\
  entries_ (log_ m1) = if decide (ae_entries r = []) then entries_ (log_ m)
                       else take (N.to_nat (ae_prevLogIndex r)) (entries_ (log_ m)) ++ ae_entries r.
Proof.
  intros [Hwf Hs0] Hc Hb Hfit m1; destruct (decide (ae_entries r = [])) as [E|Hne].
  { unfold m1; rewrite E; done. }
  assert (m1 = set_log (appendAndSync (ae_entries r) (log_ m)) m) as -> by (unfold m1; by destruct (ae_entries r)).
  specialize (Hb Hne); unfold reach in Hb; destruct (appendAndSync_fields (ae_entries r) (log_ m) Hne) as (d & e0 & Hh & E).
  assert (e_index e0 = ae_prevLogIndex r + 1) as He0.
  { destruct (ae_entries r) as [|e es]; simplify_eq/=; by apply contiguous_cons in Hc as []. }
  split; [split; try done; [cbn; by rewrite E|apply append_file]|].
  unfold nodeTerm, nodeVote; cbn [log_ set_log]; rewrite E, He0; split_and!; try done.
  rewrite append_entries_eq by (done || lia); cbn [entries_ with_dir]; rewrite Hs0.
  do 2 f_equal; lia.
Qed.

Lemma turn_heard i src inc peer t r n n' resp :
  plain n -> unconfigured n -> Forall (fun e => e_type e <> Config) (ae_entries r) -> ae_prevLogIndex r < U64 ->
  contiguous (ae_prevLogIndex r) (ae_entries r) -> (ae_entries r <> [] -> reach r + 2 < U64) ->
  handleAppendEntries r n = Ok (n', resp) ->
  turn i (Some (Request src inc (SendAppendEntries peer r t))) n n' /\
  (aer_success resp = true -> accepts r n n' /\ aer_matchIndex resp = reach r).
Proof.
  intros Hp Hu Hnc Hpb Hct Hb; unfold handleAppendEntries.
  destruct (N.ltb_spec (ae_term r) (currentTerm_ (log_ n))) as [|Hle]; intros Hr; inv_ok; [simplify_eq; split; [by apply turn_idle|done]|].
  destruct (heard_core_intro (ae_term r) (ae_leaderId r) n Hle) as [Hm Ht].
  set (m := set_leaderId _ _) in *; clearbody m; pose proof Hm as [Hca Hl Hro Hv (H1 & H2 & H3)].
  destruct (checkPrev r (log_ m)) as [rj|] eqn:Ec; inv_ok.
  { simplify_eq; split; [|apply checkPrev_fields in Ec as (_ & -> & _); done].
    apply turn_still; [|done|by apply bk_same]; apply act_keep; [done|unfold nodeTerm in *; lia|by left| |congruence|congruence].
    destruct Hv; [by left|by right; left]. }
  assert (pl_wf (log_ m) /\ snapshotIndex_ (log_ m) = 0) as [Hwf Hs0].
  { destruct Hp as [Hwf Hs0]; split; [by rewrite <- Hl|by rewrite (proj1 (proj2 Hl))]. }
  destruct (checkPrev_passed _ _ Hwf Hs0 Hpb Ec) as [Hprev Hfit]; rewrite (same_log_at _ _ _ Hl) in Hprev.
  destruct (same_log_last _ _ Hl) as [Hli _]; rewrite Hli in Hfit.
  apply (checkPrev_same _ _ _ Hl) in Ec.
  match goal with H : applyCommittedEntries _ = Ok _ |- _ => rewrite (last_contiguous _ _ Hct) in H; fold (reach r) in H; rename H into Hap end.
  cbn [aer_success aer_matchIndex]; rewrite (last_contiguous _ _ Hct); fold (reach r).
  destruct (heard_append r m) as (Hca1 & Hr1 & Ht1 & Hv1 & Hc1 & Hla1 & Hs1 & Hes); [done..|by rewrite Hli|].
  set (m1 := match ae_entries r with [] => m | _ => _ end) in *; clearbody m1.
  rewrite (proj1 Hl) in Hes; rewrite Hc1, H1 in Hap; set (m2 := if _ <? _ then _ else m1) in Hap.
  assert (same_core m1 m2) as Hc2 by (unfold m2; by destruct (_ <? _)).
  assert (unconfigured m2) as Hu2.
  { unfold unconfigured; rewrite (sc_log _ _ Hc2), Hes; case_decide; [done|]; apply Forall_app; split; [by apply Forall_take|done]. }
  pose proof (advance_core _ _ Hu2 (adv_apply _ _ Hap)) as Hc3.
  assert (forall x, same_core m1 x -> accepts r n x) as Hac.
  { intros x [_ _ Hlx Hrx _]; unfold nodeTerm, nodeVote in *; split; unfold nodeTerm, nodeVote; rewrite ?Hlx, ?Hrx; try done; [congruence..|].
    destruct Hv as [[? ?]|?]; [left; split; congruence|right; congruence]. }
  split; [|intros _; split; [apply Hac; by etransitivity|done]].
  apply (turn_intro i _ n m2); [| | |done|by apply rtc_once, adv_apply].
  - apply (act_accept _ _ _ _ r); [by do 4 eexists|by apply Hac].
  - transitivity m1; [by etransitivity|]; destruct Hc2 as [? ? Hlg _ _]; split; by rewrite ?Hlg.
  - unfold m2 in *; destruct (_ <? _); [apply (bk_heard _ _ _ r)|apply bk_same]; cbn [commitIndex_ lastApplied_ sm_ set_commitIndex]; try congruence; [by do 4 eexists|by apply Hac].
Qed.

(** A restart reads the log back and starts from a fresh state machine. *)
Lemma turn_restart i n n' rng now :
  node_ok cfg i n -> plain n -> dir_ (log_ n) !! "snapshot.bin" = None ->
  re = true -> newRaftNode (opts_ n) cfg (dir_ (log_ n)) freshSm rng now = Ok n' -> turn i None n (start n').
Proof.
  intros [Hid Hrg Hcf Hl Ha] Hp Hf Hre; unfold newRaftNode; rewrite (lo_durable _ Hl); intros Hr; inv_ok.
  unfold loadSnapshotBytes in *; rewrite Hf in *; inv_ok.
  apply turn_still; [|by split|].
  - apply act_keep; try done; [by left|by left].
  - apply bk_restart; try done; apply Hp.
Qed.

Lemma turn_force i n : snapshotIndex_ (log_ (forceSnapshot n)) = 0 -> turn i None n (forceSnapshot n).
Proof. intros H0; rewrite (forceSnapshot_plain _ H0); by apply turn_idle. Qed.

End acts.
