(* ===== verification/LeaderCompleteness.v ===== *)
(** * Leader completeness

    An entry of a leader's own term that a majority has acknowledged is in the
    log of every later leader.  A ghost set records every acknowledgement
    [(q, t, m)]: the node [q] has told the leader of term [t] that it stores the
    first [m] entries of that leader's log (a leader counts its own).  An entry
    is [choosable] as long as a majority either has acknowledged it or can still
    do so, because its term has not passed: this only becomes harder as a run
    goes on, and it is what the records of later terms, the logs of the voters
    and the votes they have given are held against.

    The one behaviour of the code that breaks the argument is [appendAndSync]
    cutting a log on a request that brings nothing new; the runs of this file are
    the runs in which no delivered request does that. *)
From stdpp Require Import base tactics list gmap numbers strings sorting relations.
From Stdlib Require Import Ascii NArith Lia.
From S2P Require Import Prelude.
From S2P Require Import Buffer.
From S2P Require Import Types.
From S2P Require Import RpcMessages.
From S2P Require Import PersistentLog.
From S2P Require Import StateMachine.
From S2P Require Import RaftNode.
From S2P Require Import RaftNodeFacts.
From S2P Require Import RaftCommit.
From S2P Require Import RaftHandlers.
From S2P Require Import Cluster.
From S2P Require Import RaftInvariant.
From S2P Require Import ElectionSafety.
From S2P Require Import RaftLogMoves.
From S2P Require Import LogMatching.
From S2P Require Import RaftActs.

Local Open Scope N_scope.

(** ** Prefixes *)
Lemma prefix_comparable {A} (l1 l2 k : list A) :
  l1 `prefix_of` k -> l2 `prefix_of` k -> l1 `prefix_of` l2 \/ (l2 `prefix_of` l1 /\ (length l2 < length l1)%nat).
Proof.
  intros H1 H2; destruct (prefix_weak_total _ _ _ H1 H2) as [?|H3]; [by left|].
  destruct (decide (length l2 < length l1)%nat); [by right|left].
  by rewrite (prefix_length_eq _ _ H3) by lia.
Qed.

(** [take j l] is a prefix of a list that agrees with [l] so far. *)
Lemma take_prefix_eq {A} (l k : list A) j i :
  take i l = take i k -> (j <= i)%nat -> (j <= length l)%nat -> take j l `prefix_of` k.
Proof.
  intros Heq Hji Hl; exists (drop j k); rewrite <- (take_drop j k) at 1; f_equal.
  rewrite <- (Nat.min_l j i Hji), <- !take_take; by rewrite Heq.
Qed.

Lemma take_prefix_mono {A} (l l' : list A) j k e :
  l `prefix_of` l' -> l !! j = Some e -> (k <= S j)%nat -> take k l' = take k l.
Proof. intros [m ->] He Hk; apply lookup_lt_Some in He; rewrite take_app_le; [done|lia]. Qed.

(** ** Acknowledgements *)
Abbreviation Acks := (gset (N * N * N)).
Abbreviation Polls := (gmap (N * N) (N * N)).

Definition acked (A : Acks) (q : NodeId) (t : Term) (k : nat) : Prop :=
  exists m, (q, t, m) ∈ A /\ N.of_nat k < m.

(** The record of term [t] has an entry of its own term at offset [k]. *)
Definition sealed (T : Terms) (t : Term) (k : nat) (L : list LogEntry) : Prop :=
  T !! t = Some L /\ exists e, L !! k = Some e /\ e_term e = t.

(** The last term and the last index of a log, and their order. *)
Definition tip (M : list LogEntry) : Term * LogIndex := (from_option e_term 0 (last M), nlen M).
Definition tip_le (x y : Term * LogIndex) : Prop := x.1 < y.1 \/ (y.1 = x.1 /\ x.2 <= y.2).
Definition covers (x : Term * LogIndex) (t : Term) (k : nat) : Prop := t < x.1 \/ (x.1 = t /\ N.of_nat k < x.2).

Lemma covers_le x y t k : covers x t k -> tip_le x y -> covers y t k.
Proof. unfold covers, tip_le; lia. Qed.

Lemma acked_mono A A' q t k : A ⊆ A' -> acked A q t k -> acked A' q t k.
Proof. intros Hs (m & Hm & ?); exists m; auto. Qed.

Lemma sealed_mono T T' t k L L' : grows T T' -> sealed T t k L -> T' !! t = Some L' -> sealed T' t k L' /\ take (S k) L' = take (S k) L.
Proof.
  intros Hg [HT (e & He & Het)] HT'; destruct (Hg _ _ HT) as (L1 & HL1 & Hp); simplify_eq.
  split; [|by eapply take_prefix_mono]; split; [done|]; exists e; split; [by eapply prefix_lookup_Some|done].
Qed.

(** Terms along a log with a history never decrease. *)
Definition bounded (T : Terms) : Prop := forall t L, T !! t = Some L -> Forall (fun e => e_term e <= t) L.

Lemma tip_last M e : last M = Some e -> M !! (length M - 1)%nat = Some e /\ (tip M).1 = e_term e /\ M <> [].
Proof. intros E; unfold tip; rewrite E; split_and!; [|done|by intros ->]; by rewrite last_lookup, <- Nat.sub_1_r in E. Qed.

(** A log that holds the sealed prefix covers it. *)
Lemma holds_covers T M t k L :
  history T M -> bounded T -> sealed T t k L -> take (S k) L `prefix_of` M -> covers (tip M) t k.
Proof.
  intros HM Hb [HT (e & He & Het)] Hp.
  assert (M !! k = Some e) as Hk.
  { eapply prefix_lookup_Some; [|exact Hp]; by rewrite lookup_take_lt by lia. }
  assert (k < length M)%nat as Hlt by (by eapply lookup_lt_Some).
  destruct (last M) as [f|] eqn:El; [|by apply last_None in El as ->].
  destruct (tip_last _ _ El) as (Hf & Htf & _); destruct (HM _ _ Hf) as (L' & HL' & Heq).
  assert (L' !! k = Some e) as Hk'.
  { rewrite <- (lookup_take_lt L' (S (length M - 1))), <- Heq by lia; by rewrite lookup_take_lt by lia. }
  pose proof (Forall_lookup_1 _ _ _ _ (Hb _ _ HL') Hk') as Hle; simpl in Hle.
  unfold covers; rewrite Htf; cbn [tip snd]; unfold nlen; destruct (decide (e_term f = t)); [right|left]; lia.
Qed.

(** A log that covers it holds it, if the record of its last term does. *)
Lemma covers_holds T M t k L :
  history T M -> bounded T -> sealed T t k L -> covers (tip M) t k -> M <> [] ->
  (forall L', t < (tip M).1 -> T !! (tip M).1 = Some L' -> take (S k) L `prefix_of` L') ->
  take (S k) L `prefix_of` M.
Proof.
  intros HM Hb [HT (e & He & Het)] Hc Hne Hs.
  destruct (last M) as [f|] eqn:El; [|by apply last_None in El].
  destruct (tip_last _ _ El) as (Hf & Htf & _); destruct (HM _ _ Hf) as (L' & HL' & Heq).
  assert (length M <> 0%nat) as H0 by (by destruct M).
  replace (S (length M - 1)) with (length M) in Heq by lia; rewrite take_ge in Heq by lia.
  apply lookup_lt_Some in He as Hlk.
  destruct Hc as [Hlt|[Heq' Hlen]].
  - assert (take (S k) L `prefix_of` L') as Hp by (apply Hs; [done|by rewrite Htf]).
    assert (k < length M - 1)%nat as Hkm.
    { destruct (decide (k < length M - 1)%nat); [done|exfalso].
      assert (L' !! (length M - 1)%nat = Some f) as Hf'.
      { rewrite <- (lookup_take_lt L' (length M)), <- Heq by lia; done. }
      assert (L !! (length M - 1)%nat = Some f) as Hf2.
      { destruct (lookup_lt_is_Some_2 L (length M - 1)) as [f' Hf2]; [lia|].
        assert (take (S k) L !! (length M - 1)%nat = Some f') as Hf3 by (rewrite lookup_take_lt by lia; done).
        eapply prefix_lookup_Some in Hf3; [|exact Hp]; congruence. }
      pose proof (Forall_lookup_1 _ _ _ _ (Hb _ _ HT) Hf2) as Hle; simpl in Hle; rewrite Htf in Hlt; lia. }
    destruct (prefix_comparable (take (S k) L) M L') as [?|[_ Hl]]; [done|rewrite Heq; apply prefix_take|done|].
    rewrite length_take in Hl; lia.
  - cbn [tip snd] in Hlen; unfold nlen in Hlen; rewrite Htf in Heq'; rewrite Heq' in HL'; simplify_eq.
    apply (take_prefix_eq _ _ _ (length M)); [rewrite <- Heq; by rewrite take_ge|lia|lia].
Qed.

Section completeness.
Context {S : Type} `{StateMachine S}.
Context (cfg : ClusterConfig) (Hnd : NoDup (voters cfg)) (Hne : voters cfg <> []).
Implicit Types (c : Cluster S) (n : RaftNode S) (ns : gmap N (RaftNode S)) (net : list Packet)
  (g : gset (N * N * N)) (T : Terms) (A : Acks) (P : Polls).

(** ** Entries that can still be committed *)
Definition majority (Q : gset N) : Prop :=
  nlen (voters cfg) < 2 * N.of_nat (size Q) /\ forall q, q ∈ Q -> q ∈ voters cfg.

Definition behind ns (q : NodeId) (t : Term) : Prop := forall n, ns !! q = Some n -> nodeTerm n <= t.

Definition choosable ns A (t : Term) (k : nat) : Prop :=
  exists Q, majority Q /\ forall q, q ∈ Q -> acked A q t k \/ behind ns q t.

(** [q] has voted for [a] in term [t]. *)
Definition voted ns g (q : NodeId) (t : Term) (a : NodeId) : Prop :=
  (q, t, a) ∈ g \/ exists n, ns !! q = Some n /\ nodeTerm n = t /\ nodeVote n = a /\ a <> 0.

(** [P] records the last term and index each candidate stood with. *)
Record complete ns g T A P : Prop := {
  cp_acks : forall q t m, (q, t, m) ∈ A ->
    exists L n, T !! t = Some L /\ m <= nlen L /\ ns !! q = Some n /\ t <= nodeTerm n;
  cp_hold : forall q n t k L, ns !! q = Some n -> acked A q t k -> sealed T t k L -> choosable ns A t k ->
    take (Datatypes.S k) L `prefix_of` entries_ (log_ n);
  cp_safe : forall t t' k L L', t < t' -> sealed T t k L -> choosable ns A t k -> T !! t' = Some L' ->
    take (Datatypes.S k) L `prefix_of` L';
  cp_votes : forall q t' a t k L, voted ns g q t' a -> t < t' -> acked A q t k -> sealed T t k L -> choosable ns A t k ->
    exists x, P !! (a, t') = Some x /\ covers x t k;
  cp_bounded : bounded T;
  cp_nodes : forall i n, ns !! i = Some n -> Forall (fun e => e_term e <= nodeTerm n) (entries_ (log_ n))
}.

Lemma voted_term ns net g q t a : elect_inv cfg ns net g -> voted ns g q t a -> exists n, ns !! q = Some n /\ t <= nodeTerm n.
Proof.
  intros He [Hg|(n & Hn & <- & _)]; [|by exists n].
  destruct (ei_known _ _ _ _ He _ _ _ Hg) as (_ & n & ? & ? & _); by exists n.
Qed.

(** A majority of voters of a later term meets the majority of a choosable entry
    in a node that has acknowledged it. *)
Lemma choosable_voter ns net g A t t' j k :
  elect_inv cfg ns net g -> led_by cfg g t' j -> t < t' -> choosable ns A t k ->
  exists q, acked A q t k /\ (q, t', j) ∈ g.
Proof.
  intros He (Q1 & Hs1 & HQ1) Hlt (Q2 & [Hs2 Hv2] & HQ2).
  destruct (quorums_meet cfg Hnd Hne Q1 Q2) as (q & H1 & H2); [intros q Hq; by apply HQ1|done..|].
  exists q; destruct (HQ1 q H1) as [_ Hg]; split; [|done].
  destruct (HQ2 q H2) as [?|Hb]; [done|exfalso].
  destruct (ei_known _ _ _ _ He _ _ _ Hg) as (_ & n & Hn & Ht & _); specialize (Hb n Hn); lia.
Qed.

(** ** A step of a node *)
Section step.
Context (ns : gmap N (RaftNode S)) (net net' : list Packet) (g g' : gset (N * N * N)) (T T' : Terms)
  (A A' : Acks) (P P' : Polls) (i : NodeId) (n n' : RaftNode S).
Let ns' := <[i := n']> ns.
Context (HC : complete ns g T A P) (HL : logs_inv cfg ns net g T) (HE : elect_inv cfg ns net g)
  (HL' : logs_inv cfg ns' net' g' T') (HE' : elect_inv cfg ns' net' g').
Context (Hi : ns !! i = Some n) (Hterm : nodeTerm n <= nodeTerm n') (Hgr : grows T T').

(** A record is new when the node takes office, or longer by the entry it
    appends as a leader. *)
Context (HT : forall t L, T' !! t = Some L -> T !! t = Some L \/
  (t = nodeTerm n' /\ role_ n' = Leader /\ L = entries_ (log_ n') /\ (exists e, entries_ (log_ n') = entries_ (log_ n) ++ [e]) /\
   (T !! t = Some (entries_ (log_ n)) \/ (T !! t = None /\ P' !! (i, t) = Some (tip (entries_ (log_ n))))))).

(** An acknowledgement is new when the node stores what it acknowledges. *)
Context (HA : forall q t m, (q, t, m) ∈ A' -> (q, t, m) ∈ A \/
  (q = i /\ t = nodeTerm n' /\ exists L, T' !! t = Some L /\ m <= nlen L /\
   take (N.to_nat m) (entries_ (log_ n')) = take (N.to_nat m) L)).

(** The log grows, or becomes a prefix of the record of its term that is not a
    proper prefix of what it was. *)
Context (Hlog : entries_ (log_ n) `prefix_of` entries_ (log_ n') \/
  exists L, T !! nodeTerm n' = Some L /\ entries_ (log_ n') `prefix_of` L /\
    ~ (entries_ (log_ n') `prefix_of` entries_ (log_ n) /\ (length (entries_ (log_ n')) < length (entries_ (log_ n)))%nat)).

(** A vote is new when the log of the candidate is up to date. *)
Context (HP : P ⊆ P') (HV : forall q t a, voted ns' g' q t a -> voted ns g q t a \/
  (q = i /\ t = nodeTerm n' /\ exists x, P' !! (a, t) = Some x /\ tip_le (tip (entries_ (log_ n))) x)).

Lemma behind_back q t : behind ns' q t -> behind ns q t.
Proof.
  intros Hb m Hm; destruct (decide (q = i)) as [->|]; [|apply Hb; unfold ns'; by rewrite lookup_insert_ne].
  specialize (Hb n' (lookup_insert_eq _ _ _)); simplify_eq; lia.
Qed.

Lemma acked_new q t k : acked A' q t k -> acked A q t k \/ (q = i /\ t = nodeTerm n').
Proof. intros (m & Hm & Hk); destruct (HA _ _ _ Hm) as [?|(? & ? & _)]; [left; by exists m|by right]. Qed.

Lemma choosable_back t k : choosable ns' A' t k -> choosable ns A t k.
Proof.
  intros (Q & HQ & Hq); exists Q; split; [done|]; intros q Hin; destruct (Hq q Hin) as [Ha|Hb]; [|right; by apply behind_back].
  destruct (acked_new _ _ _ Ha) as [?|[-> ->]]; [by left|right]; intros m Hm; by simplify_eq.
Qed.

(** A sealed entry is an old one, or the last entry of the log. *)
Lemma sealed_new t k L' :
  sealed T' t k L' ->
  (exists L, sealed T t k L /\ take (Datatypes.S k) L' = take (Datatypes.S k) L) \/
  (t = nodeTerm n' /\ L' = entries_ (log_ n') /\ (forall q, acked A' q t k -> q = i)).
Proof.
  intros [HT' (e & He & Het)]; destruct (HT _ _ HT') as [?|(-> & Hr & -> & (x & Hx) & Hold)].
  { left; exists L'; split; [|done]; split; [done|by exists e]. }
  destruct (decide (k < length (entries_ (log_ n)))%nat) as [Hk|Hk].
  - rewrite Hx, lookup_app_l in He by done; destruct Hold as [Hold|[Hnone _]].
    + left; exists (entries_ (log_ n)); split; [split; [done|by exists e]|]; rewrite Hx, take_app_le; [done|lia].
    + exfalso; destruct (li_nodes _ _ _ _ _ HL _ _ Hi _ _ He) as (L & HL1 & _); congruence.
  - right; split_and!; [done..|]; intros q (m & Hm & Hkm).
    destruct (HA _ _ _ Hm) as [Hm'|(-> & _)]; [exfalso|done].
    destruct (cp_acks _ _ _ _ _ HC _ _ _ Hm') as (L & _ & HL1 & Hlen & _).
    destruct Hold as [Hold|[Hnone _]]; [|congruence]; simplify_eq; unfold nlen in *; lia.
Qed.

(** What the record of the node's term holds, the log keeps. *)
Lemma log_keeps X :
  X `prefix_of` entries_ (log_ n) -> (forall L, T !! nodeTerm n' = Some L -> X `prefix_of` L) ->
  X `prefix_of` entries_ (log_ n').
Proof.
  intros Hx HXL; destruct Hlog as [?|(L & HTL & Hp & Hno)]; [by etransitivity|].
  destruct (prefix_comparable X (entries_ (log_ n')) L) as [?|[Hp' Hlen]]; [by apply HXL|done|done|exfalso].
  apply Hno; split; [by etransitivity|]; apply prefix_length in Hx; by eapply Nat.lt_le_trans.
Qed.

Lemma record_keeps t k L :
  sealed T t k L -> choosable ns A t k -> t <= nodeTerm n' ->
  forall L', T !! nodeTerm n' = Some L' -> take (Datatypes.S k) L `prefix_of` L'.
Proof.
  intros Hs Hc Hle L' HL1; destruct (decide (t = nodeTerm n')) as [->|]; [|eapply (cp_safe _ _ _ _ _ HC t); eauto; lia].
  destruct Hs as [Hs _]; simplify_eq; apply prefix_take.
Qed.

Lemma hold_step q m t k L' :
  ns' !! q = Some m -> acked A' q t k -> sealed T' t k L' -> choosable ns' A' t k ->
  take (Datatypes.S k) L' `prefix_of` entries_ (log_ m).
Proof.
  intros Hm Ha Hs Hc%choosable_back; destruct (sealed_new _ _ _ Hs) as [(L & HsL & ->)|(-> & -> & Hq)].
  2: { rewrite (Hq q Ha) in Hm; unfold ns' in Hm; rewrite lookup_insert_eq in Hm; injection Hm as <-; apply prefix_take. }
  destruct Ha as (x & Hx & Hkx); destruct (HA _ _ _ Hx) as [Hx'|(-> & -> & L1 & HL1 & Hlen & Heq)].
  - assert (acked A q t k) as Ha by (by exists x).
    unfold ns' in Hm; rewrite lookup_insert in Hm; case_decide as Hqi; [subst q; injection Hm as <-|by eapply (cp_hold _ _ _ _ _ HC)].
    apply log_keeps; [by eapply (cp_hold _ _ _ _ _ HC)|]; apply (record_keeps t k L); [done..|].
    destruct (cp_acks _ _ _ _ _ HC _ _ _ Hx') as (_ & n0 & _ & _ & Hn0 & ?); rewrite Hi in Hn0; injection Hn0 as <-; lia.
  - unfold ns' in Hm; rewrite lookup_insert_eq in Hm; injection Hm as <-.
    destruct (sealed_mono _ _ _ _ _ _ Hgr HsL HL1) as [[_ (e & He & _)] <-].
    apply lookup_lt_Some in He; apply (take_prefix_eq _ _ _ (N.to_nat x)); [done|lia|lia].
Qed.

Lemma votes_step q t' a t k L' :
  voted ns' g' q t' a -> t < t' -> acked A' q t k -> sealed T' t k L' -> choosable ns' A' t k ->
  exists x, P' !! (a, t') = Some x /\ covers x t k.
Proof.
  intros Hv Hlt Ha Hs Hc%choosable_back.
  assert (forall m, ns !! q = Some m -> t' <= nodeTerm m -> q = i -> t = nodeTerm n' -> False) as Hpast.
  { intros m Hm Hle -> ->; simplify_eq; lia. }
  destruct (HV _ _ _ Hv) as [Hv0|(-> & -> & x & Hx & Hup)].
  - destruct (voted_term _ _ _ _ _ _ HE Hv0) as (m & Hm & Hle).
    destruct (sealed_new _ _ _ Hs) as [(L & HsL & _)|(-> & _ & Hq)]; [|exfalso; eauto].
    destruct (acked_new _ _ _ Ha) as [Ha0|[? ?]]; [|exfalso; eauto].
    destruct (cp_votes _ _ _ _ _ HC _ _ _ _ _ _ Hv0 Hlt Ha0 HsL Hc) as (x & Hx & ?); exists x; split; [|done].
    by eapply lookup_weaken.
  - exists x; split; [done|].
    destruct (sealed_new _ _ _ Hs) as [(L & HsL & _)|(-> & _ & _)]; [|lia].
    destruct (acked_new _ _ _ Ha) as [Ha0|[_ ->]]; [|lia].
    eapply covers_le; [|exact Hup]; eapply holds_covers; [by eapply (li_nodes _ _ _ _ _ HL)|apply HC|done|].
    by eapply (cp_hold _ _ _ _ _ HC).
Qed.

Lemma safe_step t t' k L1 L2 :
  t < t' -> sealed T' t k L1 -> choosable ns' A' t k -> T' !! t' = Some L2 -> take (Datatypes.S k) L1 `prefix_of` L2.
Proof.
  intros Hlt Hs Hc HT2; pose proof (choosable_back _ _ Hc) as Hc0.
  destruct (HT _ _ HT2) as [Hold|(-> & Hr & -> & (e & He) & Hcase)].
  - destruct (sealed_new _ _ _ Hs) as [(L & HsL & ->)|(-> & _ & Hq)]; [by eapply (cp_safe _ _ _ _ _ HC)|exfalso].
    destruct (li_led _ _ _ _ _ HL' _ _ HT2) as (j & _ & _ & Hled & _).
    destruct (choosable_voter _ _ _ _ _ _ _ _ HE' Hled Hlt Hc) as (q & Ha & Hg); rewrite (Hq q Ha) in Hg.
    destruct (ei_known _ _ _ _ HE' _ _ _ Hg) as (_ & m & Hm & Hle & _).
    unfold ns' in Hm; rewrite lookup_insert_eq in Hm; injection Hm as <-; lia.
  - destruct (sealed_new _ _ _ Hs) as [(L & HsL & ->)|(-> & _ & _)]; [|lia].
    rewrite He; apply prefix_app_r; destruct Hcase as [Hold|[_ Hpoll]]; [by eapply (cp_safe _ _ _ _ _ HC)|].
    pose proof (ei_leader _ _ _ _ HE' i n' (lookup_insert_eq _ _ _) Hr) as Hled.
    destruct (choosable_voter _ _ _ _ _ _ _ _ HE' Hled Hlt Hc) as (q & Ha & Hg).
    destruct (votes_step q _ i t k L1 (or_introl Hg) Hlt Ha Hs Hc) as (x & Hx & Hcov).
    rewrite Hpoll in Hx; injection Hx as <-.
    apply (covers_holds T _ t); [by eapply (li_nodes _ _ _ _ _ HL)|apply HC|done|done| |].
    + intros E; rewrite E in Hcov; unfold covers, tip, nlen in Hcov; cbn in Hcov; lia.
    + intros L' Hlt' HL1; by eapply (cp_safe _ _ _ _ _ HC).
Qed.

Context (Hnb : Forall (fun e => e_term e <= nodeTerm n') (entries_ (log_ n'))).

Lemma complete_step : complete ns' g' T' A' P'.
Proof.
  split; [|exact hold_step|exact safe_step|exact votes_step| |].
  - intros q t m Hm; destruct (HA _ _ _ Hm) as [Hm'|(-> & -> & L & HL1 & Hlen & _)].
    + destruct (cp_acks _ _ _ _ _ HC _ _ _ Hm') as (L & x & HTL & Hlen & Hx & Hle).
      destruct (Hgr _ _ HTL) as (L' & HTL' & Hp); apply prefix_length in Hp; exists L'.
      unfold ns'; destruct (decide (q = i)) as [->|]; [exists n'|exists x; rewrite lookup_insert_ne by done].
      * rewrite lookup_insert_eq; rewrite Hi in Hx; injection Hx as <-; unfold nlen in *; split_and!; [done|lia|done|lia].
      * unfold nlen in *; split_and!; [done|lia|done|lia].
    + exists L, n'; unfold ns'; by rewrite lookup_insert_eq.
  - intros t L HTL; destruct (HT _ _ HTL) as [?|(-> & _ & -> & _)]; [by apply (cp_bounded _ _ _ _ _ HC)|done].
  - intros j x; unfold ns'; rewrite lookup_insert; case_decide; [by intros [= <-]|apply HC].
Qed.
End step.

(** ** Leaders, candidates and messages *)

(** A leader counts an entry for a peer only when the peer has acknowledged it. *)
Record leads A (i : NodeId) n : Prop := {
  ld_voter : i ∈ voters cfg;
  ld_self : (i, nodeTerm n, nlen (entries_ (log_ n))) ∈ A;
  ld_match : forall v k, matchIndex_ n !! v = Some k -> v ∈ voters cfg /\ (k = 0 \/ (v, nodeTerm n, k) ∈ A);
  ld_all : forall v, v ∈ voters cfg -> is_Some (matchIndex_ n !! v)
}.

(** A request is a segment of the record of its term, except that a request
    without entries may name an index the record does not have, with term 0. *)
Definition drawn (r : AppendEntriesReq) (L : list LogEntry) : Prop :=
  (ae_prevLogIndex r = 0 \/ ae_prevLogTerm r = 0 \/
   exists e, L !! N.to_nat (ae_prevLogIndex r - 1) = Some e /\ e_term e = ae_prevLogTerm r) /\
  ae_entries r `prefix_of` drop (N.to_nat (ae_prevLogIndex r)) L.

Definition packet_acked T A P (p : Packet) : Prop :=
  match p with
  | Request src _ (SendRequestVote _ r t _) =>
      src ∈ voters cfg /\ P !! (src, t) = Some (rv_lastLogTerm r, rv_lastLogIndex r)
  | Request _ _ (SendAppendEntries peer r t) =>
      peer ∈ voters cfg /\ t = ae_term r /\ ae_prevLogIndex r < U64 /\ exists L, T !! t = Some L /\ drawn r L
  | Request _ _ (SendInstallSnapshot peer _ idx) => peer ∈ voters cfg /\ idx = 0
  | VoteReply dst _ _ _ _ _ => dst ∈ voters cfg
  | AppendReply _ _ peer t resp =>
      peer ∈ voters cfg /\ (aer_success resp = true -> (peer, t, aer_matchIndex resp) ∈ A)
  | SnapshotReply _ _ peer idx _ => peer ∈ voters cfg /\ idx = 0
  end.

Record office ns net T A P : Prop := {
  of_cand : forall i n, ns !! i = Some n -> role_ n = Candidate -> P !! (i, nodeTerm n) = Some (tip (entries_ (log_ n)));
  of_polls : forall i t x, P !! (i, t) = Some x -> exists n, ns !! i = Some n /\ t <= nodeTerm n;
  of_lead : forall i n, ns !! i = Some n -> role_ n = Leader -> leads A i n;
  of_clean : forall i n, ns !! i = Some n -> snapshotTerm_ (log_ n) = 0 /\ dir_ (log_ n) !! "snapshot.bin" = None;
  of_net : Forall (packet_acked T A P) net
}.

Lemma leads_mono A A' i n : A ⊆ A' -> leads A i n -> leads A' i n.
Proof.
  intros Hs [H1 H2 H3 H4]; split; auto; intros v k Hk; destruct (H3 v k Hk) as [? [?|?]]; auto.
Qed.

Lemma drawn_mono r L L' : L `prefix_of` L' -> drawn r L -> drawn r L'.
Proof.
  intros [M ->] [Hp He]; split; [|rewrite drop_app; by apply prefix_app_r].
  destruct Hp as [?|[?|(e & ? & ?)]]; [by left|by right; left|right; right]; exists e; split; [|done].
  by apply lookup_app_l_Some.
Qed.

Lemma packet_acked_mono T T' A A' P P' p :
  grows T T' -> A ⊆ A' -> P ⊆ P' -> packet_acked T A P p -> packet_acked T' A' P' p.
Proof.
  intros Hg Ha Hp; destruct p as [src inc [peer r t k|peer r t|peer r idx]| | |]; cbn [packet_acked]; try done.
  - intros [? ?]; split; [done|by eapply lookup_weaken].
  - intros (? & ? & ? & L & HL & Hd); split_and!; try done.
    destruct (Hg _ _ HL) as (L' & ? & ?); exists L'; split; [done|by eapply drawn_mono].
  - intros [? ?]; split; auto.
Qed.

Lemma tip_log n : plain n -> snapshotTerm_ (log_ n) = 0 -> (lastTerm (log_ n), lastIndex (log_ n)) = tip (entries_ (log_ n)).
Proof. intros Hp H0; rewrite plain_last by done; unfold tip, lastTerm; rewrite H0; by destruct (last _). Qed.

(** ** Accepting a request *)

(** A request that brings nothing new to a longer log, and cuts it. *)
Definition stale (r : AppendEntriesReq) n : Prop :=
  nodeTerm n <= ae_term r /\ ae_entries r <> [] /\ checkPrev r (log_ n) = None /\
  ae_entries r `prefix_of` drop (N.to_nat (ae_prevLogIndex r)) (entries_ (log_ n)) /\
  (N.to_nat (ae_prevLogIndex r) + length (ae_entries r) < length (entries_ (log_ n)))%nat.

#[global] Instance stale_dec r n : Decision (stale r n).
Proof. unfold stale; apply _. Defined.

Lemma accept_segment T r n m L :
  plain n -> history T (entries_ (log_ n)) -> history T L -> drawn r L -> accepts r n m ->
  segment r L /\ take (N.to_nat (ae_prevLogIndex r)) (entries_ (log_ n)) ++ ae_entries r = take (N.to_nat (reach r)) L.
Proof.
  intros Hp HM HL [Hd Hpre] Hac; pose proof (ac_prev _ _ _ Hac) as Hprev; pose proof (ac_fits _ _ _ Hac) as Hfit.
  pose proof (plain_last _ Hp) as Hlast; destruct Hp as [Hwf Hs0]; pose proof (wf_bound _ Hwf) as Hb.
  assert (ae_prevLogIndex r = 0 \/ exists e, entries_ (log_ n) !! N.to_nat (ae_prevLogIndex r - 1) = Some e /\
    e_term e = ae_prevLogTerm r /\ e_term e <> 0) as Hm.
  { destruct Hprev as [?|(e & Hat & ? & ?)]; [by left|right; exists e; split_and!; try done].
    rewrite at_spec in Hat by (rewrite Hs0 in Hb; lia); rewrite Hs0, N.sub_0_r in Hat; by case_decide. }
  assert (segment r L) as Hseg.
  { split; [|done]; destruct Hm as [?|(e & _ & He & H0)]; [by left|].
    destruct Hd as [?|[?|?]]; [by left|congruence|by right]. }
  split; [done|]; rewrite (segment_follow T r L); [|done..|destruct Hm as [?|(e & ? & ? & _)]; [by left|right; by exists e]].
  f_equal; unfold reach, nlen; lia.
Qed.

Lemma reach_le r L : segment r L -> reach r <= nlen L.
Proof.
  intros [Hp [M HM]]; unfold reach, nlen; apply (f_equal length) in HM; rewrite length_drop, length_app in HM.
  destruct Hp as [H0|(e & He & _)]; [lia|]; apply lookup_lt_Some in He; lia.
Qed.

Lemma accept_agrees T r n m L :
  plain n -> history T (entries_ (log_ n)) -> history T L -> drawn r L -> accepts r n m ->
  reach r <= nlen L /\ take (N.to_nat (reach r)) (entries_ (log_ m)) = take (N.to_nat (reach r)) L.
Proof.
  intros Hp HM HL Hd Hac; destruct (accept_segment _ _ _ _ _ Hp HM HL Hd Hac) as [Hseg Heq].
  split; [by apply reach_le|]; rewrite (ac_log _ _ _ Hac); case_decide as E.
  - unfold reach in *; rewrite E in *; rewrite app_nil_r in Heq; unfold nlen in *; cbn [length] in *.
    by rewrite N.add_0_r in *.
  - by rewrite Heq, take_take, Nat.min_id.
Qed.

Lemma accept_log T r n m L :
  plain n -> history T (entries_ (log_ n)) -> history T L -> drawn r L -> accepts r n m -> ~ stale r n ->
  entries_ (log_ n) `prefix_of` entries_ (log_ m) \/
  (entries_ (log_ m) `prefix_of` L /\
   ~ (entries_ (log_ m) `prefix_of` entries_ (log_ n) /\ (length (entries_ (log_ m)) < length (entries_ (log_ n)))%nat)).
Proof.
  intros Hp HM HL Hd Hac Hst; destruct (accept_segment _ _ _ _ _ Hp HM HL Hd Hac) as [Hseg Heq].
  rewrite (ac_log _ _ _ Hac); case_decide as E; [by left|right]; split; [rewrite Heq; apply prefix_take|].
  intros [Hpre Hlen]; apply Hst; split_and!; [apply Hac|done|apply Hac| |].
  - rewrite <- (take_drop (N.to_nat (ae_prevLogIndex r)) (entries_ (log_ n))) in Hpre at 2; by apply prefix_app_inv in Hpre.
  - rewrite length_app, length_take in Hlen.
    pose proof (ac_fits _ _ _ Hac) as Hfit; rewrite plain_last in Hfit by done; unfold nlen in Hfit; lia.
Qed.

(** ** The acts of a node *)
Section act_step.
Context (ns : gmap N (RaftNode S)) (net net' : list Packet) (g g' : gset (N * N * N)) (T T' : Terms)
  (A : Acks) (P : Polls) (i : NodeId) (inp : option Packet) (n n' : RaftNode S).
Let ns' := <[i := n']> ns.
Context (HI : Inv cfg ns net g) (HL : logs_inv cfg ns net g T) (HC : complete ns g T A P) (HO : office ns net T A P)
  (HI' : Inv cfg ns' net' g') (HL' : logs_inv cfg ns' net' g' T').
Context (Hi : ns !! i = Some n) (Hgr : granted ns' g g') (Hrec : recorded ns' T T')
  (Hact : act i inp n n') (Hcar : carried n n').
Context (Hinp : forall p, inp = Some p -> p ∈ net) (Huncut : forall r, heard inp r -> ~ stale r n).

Let Hi' : ns' !! i = Some n' := lookup_insert_eq _ _ _.
Let Hp : plain n := li_plain _ _ _ _ _ HL _ _ Hi.

Lemma inp_ok p : inp = Some p -> packet_ok cfg p /\ packet_acked T A P p.
Proof.
  intros E; specialize (Hinp p E); split.
  - eapply (Forall_forall (packet_ok cfg)); [apply HI|done].
  - eapply (Forall_forall (packet_acked T A P)); [apply HO|done].
Qed.

Lemma heard_record r : heard inp r -> exists L, T !! ae_term r = Some L /\ drawn r L.
Proof. intros (src & inc & peer & t & E); destruct (inp_ok _ E) as [_ (_ & -> & _ & ?)]; done. Qed.

Lemma act_term : nodeTerm n <= nodeTerm n'.
Proof. destruct Hact as [| |e ? ? ? ? [(_ & ? & _)|(? & _)]|e|r ? []]; lia. Qed.

(** Whoever takes office stood with the log it had. *)
Definition polls_after : Polls :=
  if decide (nodeTerm n' = nodeTerm n + 1) then <[(i, nodeTerm n') := tip (entries_ (log_ n))]> P else P.

Lemma polls_grow : P ⊆ polls_after.
Proof.
  unfold polls_after; case_decide; [|done]; apply insert_subseteq.
  destruct (P !! (i, nodeTerm n')) eqn:E; [exfalso|done].
  destruct (of_polls _ _ _ _ _ HO _ _ _ E) as (x & Hx & ?); rewrite Hi in Hx; injection Hx as <-; lia.
Qed.

Lemma polls_stood : nodeTerm n' = nodeTerm n + 1 -> polls_after !! (i, nodeTerm n') = Some (tip (entries_ (log_ n))).
Proof. intros E; unfold polls_after; rewrite decide_True by done; apply lookup_insert_eq. Qed.

Lemma act_record t L :
  T' !! t = Some L -> T !! t = Some L \/
  (t = nodeTerm n' /\ role_ n' = Leader /\ L = entries_ (log_ n') /\ (exists e, entries_ (log_ n') = entries_ (log_ n) ++ [e]) /\
   (T !! t = Some (entries_ (log_ n)) \/ (T !! t = None /\ polls_after !! (i, t) = Some (tip (entries_ (log_ n)))))).
Proof.
  intros HTL; destruct (proj2 Hrec _ _ HTL) as [?|(j & m & Hm & Hr & <- & <-)]; [by left|].
  unfold ns' in Hm; rewrite lookup_insert in Hm; case_decide; [injection Hm as <-; subst j|left; by eapply (li_leader _ _ _ _ _ HL)].
  destruct Hact as [Hl _ Hro _ _ _|_ _ _ ?|e He _ _ _ Hc|e He _ Hr0 _ Ht _ _|r _ []]; [|congruence| | |congruence].
  - left; destruct Hro as [?|[Hro Ht]]; [congruence|]; rewrite Ht, (proj1 Hl); eapply (li_leader _ _ _ _ _ HL); [done|congruence].
  - right; split_and!; try done; [by exists e|right; split].
    + eapply (new_leader_fresh cfg Hnd Hne); [exact HL|exact Hi|exact (proj1 Hgr)|exact (proj2 HI')|done|].
      destruct Hc as [(? & ? & _)|(? & _)]; [by left|right; lia].
    + destruct Hc as [(Hc & Ht & _)|(Ht & _)]; [|by apply polls_stood].
      rewrite Ht; eapply lookup_weaken; [by apply (of_cand _ _ _ _ _ HO)|apply polls_grow].
  - right; split_and!; try done; [by exists e|left; rewrite Ht; by eapply (li_leader _ _ _ _ _ HL)].
Qed.

Lemma act_log :
  entries_ (log_ n) `prefix_of` entries_ (log_ n') \/
  exists L, T !! nodeTerm n' = Some L /\ entries_ (log_ n') `prefix_of` L /\
    ~ (entries_ (log_ n') `prefix_of` entries_ (log_ n) /\ (length (entries_ (log_ n')) < length (entries_ (log_ n)))%nat).
Proof.
  destruct Hact as [Hl|Hl|e He|e He|r Hh Hac]; [left; by rewrite (proj1 Hl)|left; by rewrite (proj1 Hl)|left; rewrite He; by apply prefix_app_r..|].
  destruct (heard_record r Hh) as (L & HTL & Hd).
  destruct (accept_log T r n n' L) as [?|?]; [done|by eapply (li_nodes _ _ _ _ _ HL)|by eapply (li_terms _ _ _ _ _ HL)|done|done|by apply Huncut|by left|].
  right; exists L; split; [by rewrite (ac_term _ _ _ Hac)|done].
Qed.

Lemma act_bounded : Forall (fun e => e_term e <= nodeTerm n') (entries_ (log_ n')).
Proof.
  pose proof act_term as Hle.
  assert (Forall (fun e => e_term e <= nodeTerm n') (entries_ (log_ n))) as Hn.
  { eapply Forall_impl; [by apply (cp_nodes _ _ _ _ _ HC i n)|]; simpl; lia. }
  destruct Hact as [Hl|Hl|e He Het|e He Het|r Hh Hac]; [by rewrite (proj1 Hl)|by rewrite (proj1 Hl)|..];
    [rewrite He; apply Forall_app; split; [done|]; constructor; [lia|done]..|].
  destruct (heard_record r Hh) as (L & HTL & Hd).
  destruct (accept_segment T r n n' L) as [_ Heq]; [done|by eapply (li_nodes _ _ _ _ _ HL)|by eapply (li_terms _ _ _ _ _ HL)|done|done|].
  rewrite (ac_log _ _ _ Hac); case_decide; [done|]; rewrite Heq, (ac_term _ _ _ Hac).
  by apply Forall_take, (cp_bounded _ _ _ _ _ HC).
Qed.

Lemma upToDate_tip lt li : upToDate lt li (log_ n) -> tip_le (tip (entries_ (log_ n))) (lt, li).
Proof.
  intros Hu; rewrite <- (tip_log n Hp) by (by apply (of_clean _ _ _ _ _ HO i n)).
  unfold upToDate in Hu; unfold tip_le; cbn [fst snd]; lia.
Qed.

Lemma act_vote : nodeVote n' <> 0 ->
  (nodeTerm n' = nodeTerm n /\ nodeVote n' = nodeVote n) \/
  (exists x, polls_after !! (nodeVote n', nodeTerm n') = Some x /\ tip_le (tip (entries_ (log_ n))) x).
Proof.
  intros H0; assert (nodeTerm n' = nodeTerm n + 1 -> nodeVote n' = i ->
    exists x, polls_after !! (nodeVote n', nodeTerm n') = Some x /\ tip_le (tip (entries_ (log_ n))) x) as Hstood.
  { intros Ht ->; exists (tip (entries_ (log_ n))); split; [by apply polls_stood|right; split; [done|lia]]. }
  destruct Hact as [_ _ _ Hb _ _| |e _ _ _ _ [(_ & Ht & Hv & _)|(? & ? & _)]|e|r _ []]; [|by auto|by left|by auto|by left|].
  - destruct Hb as [?|[?|(r & (src & inc & peer & t & k & E) & Ht & Hv & Hup)]]; [by left|done|right].
    destruct (inp_ok _ E) as [(_ & Hrt & Hsrc & _) (_ & HPs)].
    exists (rv_lastLogTerm r, rv_lastLogIndex r); split; [|by apply upToDate_tip].
    rewrite Hv, Ht, Hrt, Hsrc; eapply lookup_weaken; [exact HPs|apply polls_grow].
  - destruct ac_vote as [?|?]; [by left|done].
Qed.

Lemma act_voted q t a :
  voted ns' g' q t a -> voted ns g q t a \/
  (q = i /\ t = nodeTerm n' /\ exists x, polls_after !! (a, t) = Some x /\ tip_le (tip (entries_ (log_ n))) x).
Proof.
  intros Hv; assert (voted ns g q t a \/ exists m, ns' !! q = Some m /\ nodeTerm m = t /\ nodeVote m = a /\ a <> 0) as [?|(m & Hm & <- & <- & H0)]; [|by left|].
  { destruct Hv as [Hg|?]; [|by right]; pose proof (ei_known _ _ _ _ (proj2 HI') _ _ _ Hg) as [H0 _].
    destruct (proj2 Hgr _ _ _ Hg) as [?|(m & ? & ? & ?)]; [by left; left|right; by exists m]. }
  unfold ns' in Hm; rewrite lookup_insert in Hm; case_decide; [injection Hm as <-; subst q|left; right; by exists m].
  destruct (act_vote H0) as [[-> Hv']|?]; [left; right; exists n; rewrite Hv' in *; done|by right].
Qed.

Lemma reported_ok v k : reported inp n v k -> v ∈ voters cfg /\ (k = 0 \/ (v, nodeTerm n, k) ∈ A).
Proof.
  pose proof inp_ok as Hin; unfold reported; destruct inp as [[| |dst inc peer t resp|dst inc peer idx resp]|]; try done.
  - intros (-> & -> & Hs & ->); destruct (Hin _ eq_refl) as [_ [? Ha]]; auto.
  - intros (-> & ->); destruct (Hin _ eq_refl) as [_ [? ?]]; auto.
Qed.

(** What is acknowledged now: by a leader its own log, by a follower that answers
    with success ([ok]) the entries up to the end of the request. *)
Definition reach_of : LogIndex :=
  match inp with Some (Request _ _ (SendAppendEntries _ r _)) => reach r | _ => 0 end.
Context (ok : bool) (Hok : ok = true -> exists r, heard inp r /\ accepts r n n').
Definition acks_after : Acks :=
  A ∪ (if decide (role_ n' = Leader) then {[ (i, nodeTerm n', nlen (entries_ (log_ n'))) ]} else ∅)
    ∪ (if ok then {[ (i, nodeTerm n', reach_of) ]} else ∅).

Lemma acks_grow : A ⊆ acks_after.
Proof. intros x Hx; unfold acks_after; rewrite !elem_of_union; by left; left. Qed.

Lemma acks_sound q t k :
  (q, t, k) ∈ acks_after -> (q, t, k) ∈ A \/
  (q = i /\ t = nodeTerm n' /\ exists L, T' !! t = Some L /\ k <= nlen L /\
   take (N.to_nat k) (entries_ (log_ n')) = take (N.to_nat k) L).
Proof.
  unfold acks_after; rewrite !elem_of_union; intros [[?|Hk]|Hk]; [by left|right..].
  - case_decide; [|by apply elem_of_empty in Hk]; apply elem_of_singleton in Hk as [= -> -> ->]; split_and!; [done..|].
    exists (entries_ (log_ n')); split_and!; [by eapply (li_leader _ _ _ _ _ HL')|done|done].
  - destruct ok; [|by apply elem_of_empty in Hk]; apply elem_of_singleton in Hk as [= -> -> ->]; split_and!; [done..|].
    destruct (Hok eq_refl) as (r & Hh & Hac); destruct (heard_record r Hh) as (L & HTL & Hd).
    assert (reach_of = reach r) as -> by (unfold reach_of; by destruct Hh as (? & ? & ? & ? & ->)).
    rewrite (ac_term _ _ _ Hac); destruct (proj1 Hrec _ _ HTL) as (L' & HTL' & Hpre); exists L'.
    destruct (accept_agrees T r n n' L) as [Hle Heq]; [done|by eapply (li_nodes _ _ _ _ _ HL)|by eapply (li_terms _ _ _ _ _ HL)|done|done|].
    pose proof (prefix_length _ _ Hpre); rewrite Heq; unfold nlen in *; split_and!; [done|lia|].
    symmetry; apply take_prefix; [lia|done].
Qed.

Lemma complete_after : complete ns' g' T' acks_after polls_after.
Proof.
  eapply (complete_step ns net net' g g' T T' A acks_after P polls_after i n n'); try done.
  - exact (proj2 HI).
  - exact (proj2 HI').
  - apply act_term.
  - apply Hrec.
  - apply act_record.
  - apply acks_sound.
  - apply act_log.
  - apply polls_grow.
  - apply act_voted.
  - apply act_bounded.
Qed.

Lemma act_leads : role_ n' = Leader -> leads acks_after i n'.
Proof.
  intros Hr; assert (node_ok cfg i n') as Hn' by (by apply (co_nodes _ _ _ (proj1 HI'))).
  assert ((i, nodeTerm n', nlen (entries_ (log_ n'))) ∈ acks_after) as Hself.
  { unfold acks_after; rewrite decide_True by done; set_solver. }
  destruct Hact as [Hl _ Hro _ Hm Hall|_ _ _ ?|e _ _ _ [Hm Hall] Hc|e _ _ Hr0 _ Ht _ Hm|r _ []]; [|congruence| | |congruence].
  - destruct Hro as [?|[Hro Ht]]; [congruence|].
    destruct (leads_mono _ _ _ _ acks_grow (of_lead _ _ _ _ _ HO i n Hi ltac:(congruence))) as [H1 _ H3 H4].
    split; [done|done| |by auto]; rewrite Ht; intros v k Hk; destruct (Hm Hr v k Hk) as [?|Hrep]; [by apply H3|].
    destruct (reported_ok _ _ Hrep) as [? [?|?]]; split; auto; right; by apply acks_grow.
  - rewrite (no_config _ _ _ Hn') in *; split; [|done| |done].
    + destruct Hc as [(_ & _ & _ & inc & peer & t & k & resp & E)|(_ & _ & ?)]; [|done]; by destruct (inp_ok _ E).
    + intros v k Hk; destruct (Hm v k Hk); split; [done|by left].
  - destruct (leads_mono _ _ _ _ acks_grow (of_lead _ _ _ _ _ HO i n Hi Hr0)) as [H1 _ H3 H4].
    split; rewrite ?Hm; try done; by rewrite Ht.
Qed.

Lemma act_cand : role_ n' = Candidate -> polls_after !! (i, nodeTerm n') = Some (tip (entries_ (log_ n'))).
Proof.
  intros Hr; destruct Hact as [Hl _ Hro _ _ _|Hl Ht _ _|e _ _ ?|e _ _ _ ?|r _ []]; [| |congruence..].
  - destruct Hro as [?|[Hro Ht]]; [congruence|]; rewrite Ht, (proj1 Hl).
    eapply lookup_weaken; [apply (of_cand _ _ _ _ _ HO); [done|congruence]|apply polls_grow].
  - rewrite (proj1 Hl); by apply polls_stood.
Qed.

Lemma act_clean : snapshotTerm_ (log_ n') = 0 /\ dir_ (log_ n') !! "snapshot.bin" = None.
Proof. rewrite (ca_snapTerm _ _ Hcar), (ca_snapFile _ _ Hcar); by apply (of_clean _ _ _ _ _ HO i n). Qed.

Lemma office_after (Hnew : Forall (packet_acked T' acks_after polls_after) net') : office ns' net' T' acks_after polls_after.
Proof.
  split; [| | | |done].
  - intros j m; unfold ns'; rewrite lookup_insert; case_decide; [intros [= <-] Hr; subst j; by apply act_cand|intros Hm Hr].
    eapply lookup_weaken; [by apply (of_cand _ _ _ _ _ HO)|apply polls_grow].
  - intros j t x; unfold polls_after, ns'; pose proof act_term as Hle.
    assert (forall y, P !! (j, t) = Some y -> exists m, <[i:=n']> ns !! j = Some m /\ t <= nodeTerm m) as Hold.
    { intros y Hy; destruct (of_polls _ _ _ _ _ HO _ _ _ Hy) as (m & Hm & Ht).
      destruct (decide (j = i)) as [->|]; [|exists m; by rewrite lookup_insert_ne].
      exists n'; rewrite lookup_insert_eq; rewrite Hi in Hm; injection Hm as <-; split; [done|lia]. }
    case_decide; [|by apply Hold]; rewrite lookup_insert; case_decide as E; [|by apply Hold].
    injection E as <- <-; intros _; exists n'; by rewrite lookup_insert_eq.
  - intros j m; unfold ns'; rewrite lookup_insert; case_decide; [intros [= <-] Hr; subst j; by apply act_leads|intros Hm Hr].
    eapply leads_mono; [apply acks_grow|by apply (of_lead _ _ _ _ _ HO)].
  - intros j m; unfold ns'; rewrite lookup_insert; case_decide; [intros [= <-]; apply act_clean|apply HO].
Qed.

(** The messages the node sends: the answer to a request, or its own. *)
Inductive emits : list Packet -> Prop :=
| em_none : emits []
| em_voted src inc peer r t k resp :
    inp = Some (Request src inc (SendRequestVote peer r t k)) -> emits [VoteReply src inc peer t k resp]
| em_acked src inc r t resp :
    inp = Some (Request src inc (SendAppendEntries i r t)) ->
    (aer_success resp = true -> ok = true /\ accepts r n n' /\ aer_matchIndex resp = reach r) ->
    emits [AppendReply src inc i t resp]
| em_installed src inc peer r idx resp :
    inp = Some (Request src inc (SendInstallSnapshot peer r idx)) -> emits [SnapshotReply src inc peer idx resp]
| em_sent inc ss : sends cfg i n' ss -> emits (launch i inc ss).

Lemma polled_acked inc :
  i ∈ voters cfg -> role_ n' = Candidate ->
  Forall (packet_acked T' acks_after polls_after)
    (launch i inc (voteRequests cfg i (nodeTerm n') (lastIndex (log_ n')) (lastTerm (log_ n')))).
Proof.
  intros Hin Hr; apply Forall_fmap, Forall_forall; intros s Hs.
  apply voteRequests_elem in Hs as (p & _ & _ & ->); simpl; split; [done|].
  rewrite (act_cand Hr); f_equal; symmetry; apply tip_log; [by eapply (li_plain _ _ _ _ _ HL')|apply act_clean].
Qed.

Lemma broadcast_acked inc : Forall (packet_acked T' acks_after polls_after) (launch i inc (broadcastAppendEntries n')).
Proof.
  pose proof (li_plain _ _ _ _ _ HL' _ _ Hi') as Hp'.
  assert (config_ n' = cfg) as Hcf by (apply (no_config _ i), (co_nodes _ _ _ (proj1 HI')); done).
  apply Forall_fmap, Forall_forall; intros s; unfold broadcastAppendEntries.
  case_decide as Hr; [|by intros ?%elem_of_nil]; pose proof (li_leader _ _ _ _ _ HL' _ _ Hi' Hr) as Hl.
  rewrite Hcf; intros (p & Hpv%list_elem_of_In & Hs)%list_elem_of_In%in_flat_map.
  destruct (_ =? _); [done|]; destruct (_ <=? _);
    unfold sendInstallSnapshotTo, sendAppendEntriesTo in Hs; rewrite decide_True in Hs by done;
    destruct Hs as [<-|[]]; simpl; [split; [done|apply Hp']|].
  set (prev := sub64 _ _); assert (prev < U64) as Hb by apply u64_bound; clearbody prev.
  rewrite entriesAfter_spec by (rewrite ?(pn_snap _ Hp'); done || lia || apply Hp').
  rewrite (pn_snap _ Hp'), N.sub_0_r; simpl; split_and!; try done.
  exists (entries_ (log_ n')); split; [exact Hl|]; split; cbn [ae_prevLogIndex ae_prevLogTerm ae_entries]; [|apply prefix_take].
  destruct (decide (prev = 0)) as [|H0]; [by left|right].
  rewrite termAt_at, at_spec by (rewrite ?(pn_snap _ Hp'); lia).
  rewrite (pn_snap _ Hp'), N.sub_0_r, decide_True by lia.
  destruct (entries_ (log_ n') !! _) as [e|] eqn:E; [right; by exists e|by left].
Qed.

Lemma emits_acked new : emits new -> Forall (packet_acked T' acks_after polls_after) new.
Proof.
  pose proof inp_ok as Hin; intros [|src inc peer r t k resp E|src inc r t resp E Hs|src inc peer r idx resp E|inc ss [|Hv Hr|]];
    [done| | | |constructor|by apply polled_acked|apply broadcast_acked];
    destruct (Hin _ E) as [_ Hpk]; cbn [packet_acked] in Hpk; (constructor; [|done]); cbn [packet_acked].
  - apply Hpk.
  - destruct Hpk as (Hiv & Ht & _); split; [done|]; intros Hsu; destruct (Hs Hsu) as (-> & Hac & ->).
    unfold acks_after, reach_of; rewrite E, Ht, <- (ac_term _ _ _ Hac); set_solver.
  - apply Hpk.
Qed.
End act_step.

End completeness.
