(* ===== verification/StateMachineSafety.v ===== *)
(** * State machine safety

    What a node has applied is never lost and never contradicted: at any two
    times of a run, two replicas have applied the same entries at the indices
    both have applied, and replicas that have applied equally many entries are in
    the same state.  Every index a node counts as committed lies below an entry
    of a leader's own term that a majority has acknowledged ([settled]); with
    leader completeness, two such indices have the same entries below them.

    The runs are those of [LogMatching] (fixed membership, no snapshots) in which
    no delivered request cuts a log it agrees with; [lost_commit] of
    [ClusterTraces] shows that without this condition the statement fails. *)
From stdpp Require Import base tactics list gmap numbers strings sorting relations.
From Stdlib Require Import Ascii NArith Lia.
From S2P Require Import Prelude.
From S2P Require Import Buffer.
From S2P Require Import Types.
From S2P Require Import RpcMessages.
From S2P Require Import PersistentLog.
From S2P Require Import StateMachine.
From S2P Require Import KvStore.
From S2P Require Import RaftNode.
From S2P Require Import RaftNodeFacts.
From S2P Require Import RaftCommit.
From S2P Require Import RaftHandlers.
From S2P Require Import Cluster.
From S2P Require Import ClusterTraces.
From S2P Require Import RaftInvariant.
From S2P Require Import ElectionSafety.
From S2P Require Import RaftLogMoves.
From S2P Require Import LogMatching.
From S2P Require Import RaftActs.
From S2P Require Import LeaderCompleteness.

Local Open Scope N_scope.

Section safety.
Context {S : Type} `{StateMachine S}.
Context (cfg : ClusterConfig) (freshSm : S) (Hnd : NoDup (voters cfg)) (Hne : voters cfg <> []).
Implicit Types (c : Cluster S) (n : RaftNode S) (ns : gmap N (RaftNode S)) (net : list Packet)
  (g : gset (N * N * N)) (T : Terms) (A : Acks) (P : Polls).

(** ** Runs in which no request cuts a log *)

(** The event delivers a request whose entries the target already has, with more
    after them: [appendAndSync] will drop what follows. *)
Definition cutting c (ev : Event) : Prop :=
  match ev with
  | EvDeliver k _ =>
      match net c !! k with
      | Some (Request _ _ (SendAppendEntries peer r _)) =>
          match nodes c !! peer with Some n => stale r n | None => False end
      | _ => False
      end
  | _ => False
  end.

#[global] Instance cutting_dec c ev : Decision (cutting c ev).
Proof.
  unfold cutting; destruct ev as [|k now| | | | | | |]; try apply _.
  destruct (net c !! k) as [[src inc [| |]| | |]|]; try apply _; destruct (nodes c !! _); apply _.
Defined.

Inductive uncut_step c c' : Prop :=
| uncut_event ev : admissible c ev = true -> exec cfg freshSm c ev = Some c' -> roomy c -> unsnapped c' ->
    ~ cutting c ev -> uncut_step c c'.

(** ** Every event is a turn of one node, or of the network only *)
Definition isRestart (ev : Event) : bool := match ev with EvRestart _ _ _ => true | _ => false end.

Inductive moved (re : bool) c c' : Prop :=
| mv_net : nodes c' = nodes c -> net c' ⊆ net c -> moved re c c'
| mv_turn i n n' inp ok rest new :
    nodes c !! i = Some n -> nodes c' = <[i := n']> (nodes c) -> net c' = rest ++ new -> rest ⊆ net c ->
    (forall p, inp = Some p -> p ∈ net c) -> (forall r, heard inp r -> ~ stale r n) ->
    turn freshSm re i inp n n' -> (ok = true -> exists r, heard inp r /\ accepts r n n') ->
    emits cfg i inp n n' ok new -> moved re c c'.

Section events.
Context (re : bool) (c c' : Cluster S) (g : gset (N * N * N)) (T : Terms) (A : Acks) (P : Polls).
Context (HI : Inv cfg (nodes c) (net c) g) (HL : logs_inv cfg (nodes c) (net c) g T)
  (HO : office cfg (nodes c) (net c) T A P) (Hroom : roomy c) (Hun : unsnapped c').

Let room i n : nodes c !! i = Some n -> lastIndex (log_ n) + 2 < U64.
Proof. intros Hi; pose proof (Hroom i n Hi); simpl in *; lia. Qed.

Let ok_node i n : nodes c !! i = Some n -> node_ok cfg i n /\ plain n /\ unconfigured n.
Proof.
  intros Hi; pose proof (co_nodes _ _ _ (proj1 HI) _ _ Hi) as Hn.
  split_and!; [done|by eapply (li_plain _ _ _ _ _ HL)|apply Hn].
Qed.

(** A node acts on its own. *)
Lemma moved_alone i n n' inc ss new :
  nodes c !! i = Some n -> nodes c' = <[i := n']> (nodes c) -> net c' = net c ++ new ->
  turn freshSm re i None n n' -> sends cfg i n' ss -> new = launch i inc ss -> moved re c c'.
Proof.
  intros Hi Hns Hnet Ht Hs ->; apply (mv_turn _ _ _ i n n' None false (net c) (launch i inc ss)); try done.
  - by intros r (? & ? & ? & ? & ?).
  - by apply em_sent.
Qed.

Lemma moved_silent i n n' :
  nodes c !! i = Some n -> nodes c' = <[i := n']> (nodes c) -> net c' = net c -> turn freshSm re i None n n' -> moved re c c'.
Proof.
  intros Hi Hns Hnet Ht; eapply (moved_alone i n n' 0 []); try done; [|constructor].
  simpl; by rewrite app_nil_r.
Qed.

(** A packet is taken out of the network and handled. *)
Lemma moved_on k p i n n' ok new :
  net c !! k = Some p -> nodes c !! i = Some n -> nodes c' = <[i := n']> (nodes c) ->
  net c' = delete k (net c) ++ new -> (forall r, heard (Some p) r -> ~ stale r n) ->
  turn freshSm re i (Some p) n n' -> (ok = true -> exists r, heard (Some p) r /\ accepts r n n') ->
  emits cfg i (Some p) n n' ok new -> moved re c c'.
Proof.
  intros Hk Hi Hns Hnet Hst Ht Hok Hem; eapply (mv_turn _ _ _ i n n' (Some p) ok (delete k (net c)) new); try done.
  - apply delete_incl.
  - intros q [= <-]; by eapply list_elem_of_lookup_2.
Qed.

(** The entries of a request fit behind [prevLogIndex]. *)
Lemma drawn_fits r L :
  drawn r L -> T !! ae_term r = Some L ->
  contiguous (ae_prevLogIndex r) (ae_entries r) /\ (ae_entries r <> [] -> reach r + 2 < U64).
Proof.
  intros [_ [M HM]] HT; destruct (li_terms _ _ _ _ _ HL _ _ HT) as (_ & Hc & Hb); split.
  - intros j e Hj; assert (L !! (N.to_nat (ae_prevLogIndex r) + j)%nat = Some e) as Hl.
    { rewrite <- lookup_drop, HM; by apply lookup_app_l_Some. }
    rewrite (Hc _ _ Hl); lia.
  - intros Hes; apply (f_equal length) in HM; rewrite length_drop, length_app in HM.
    unfold reach, nlen in *; destruct (ae_entries r); [done|]; simpl in *; lia.
Qed.

Lemma moved_request k src inc s now :
  net c !! k = Some (Request src inc s) -> deliverRequest c src inc s now (delete k (net c)) = Some c' ->
  ~ cutting c (EvDeliver k now) -> moved re c c'.
Proof.
  intros Hk Hd Hcut; pose proof (Forall_lookup_1 _ _ _ _ (of_net _ _ _ _ _ _ HO) Hk) as Hpk.
  pose proof (Forall_lookup_1 _ _ _ _ (li_net _ _ _ _ _ HL) Hk) as Hph.
  pose proof (Forall_lookup_1 _ _ _ _ (co_net _ _ _ (proj1 HI)) Hk) as [Hso _].
  destruct s as [peer r t m|peer r t|peer r idx]; simpl in Hd;
    (destruct (nodes c !! peer) as [n|] eqn:Hi; [|simplify_eq/=; apply mv_net; [done|apply delete_incl]]);
    destruct (ok_node _ _ Hi) as (Hn & Hp & Hu).
  - destruct (handleRequestVote r (set_now now n)) as [n' resp] eqn:E; injection Hd as Hd.
    eapply (moved_on k _ peer n n' false); [done|done|by rewrite <- Hd|by rewrite <- Hd| | |done|by eapply em_voted].
    + by intros ? (? & ? & ? & ? & ?).
    + by eapply turn_now, turn_polled.
  - destruct (handleAppendEntries r (set_now now n)) as [[n' resp]|] eqn:E; [|done]; injection Hd as Hd.
    destruct Hpk as (Hv & -> & Hpb & L & HTL & Hdr); destruct (drawn_fits r L Hdr HTL) as [Hc Hb].
    eapply (turn_heard freshSm re peer src inc peer (ae_term r)) in E as [Ht Hs]; try done;
      [|by destruct Hp|destruct Hso as [_ Hso]; eapply Forall_impl; [exact Hso|]; by intros e []].
    assert (forall x, accepts r (set_now now n) x -> accepts r n x) as Hnow by (intros x []; by split).
    eapply (moved_on k _ peer n n' (aer_success resp)); [done|done|by rewrite <- Hd|by rewrite <- Hd| |by eapply turn_now| |].
    + intros r' (? & ? & ? & ? & [= <- <- <- <- <-]) Hst; apply Hcut; unfold cutting; by rewrite Hk, Hi.
    + intros Hsu; exists r; split; [by do 4 eexists|]; apply Hnow, Hs, Hsu.
    + eapply em_acked; [done|]; intros Hsu; destruct (Hs Hsu); auto.
  - destruct (handleInstallSnapshot r (set_now now n)) as [[n' resp]|] eqn:E; [|done]; injection Hd as Hd.
    eapply (moved_on k _ peer n n' false); [done|done|by rewrite <- Hd|by rewrite <- Hd| | |done|by eapply em_installed].
    + by intros ? (? & ? & ? & ? & ?).
    + by eapply turn_now, turn_snapshot.
Qed.

Lemma moved_reply k p now :
  net c !! k = Some p -> deliverReply c p now (delete k (net c)) = Some c' -> moved re c c'.
Proof.
  intros Hk Hd; assert (c' = mkCluster (nodes c) (incarnation c) (delete k (net c)) -> moved re c c') as Hdrop.
  { intros E; apply mv_net; rewrite E; [done|apply delete_incl]. }
  destruct p as [|dst inc peer t m resp|dst inc peer t resp|dst inc peer idx resp]; simpl in Hd; [done|..];
    (destruct (nodes c !! dst) as [n|] eqn:Hi; [|injection Hd as Hd; by apply Hdrop]);
    (destruct (inc =? incOf c dst); [|injection Hd as Hd; by apply Hdrop]);
    destruct (ok_node _ _ Hi) as (Hn & Hp & Hu).
  - destruct (onRequestVoteResp t m true resp (set_now now n)) as [[n' ss]|] eqn:E; [|done]; injection Hd as Hd.
    eapply (turn_voted cfg freshSm re dst inc peer) in E as [Ht Hs]; [|by destruct Hp|done|by apply (room _ _ Hi)].
    eapply (moved_on k _ dst n n' false); [done|done|by rewrite <- Hd|by rewrite <- Hd| |by eapply turn_now|done|by eapply em_sent].
    by intros ? (? & ? & ? & ? & ?).
  - destruct (onAppendEntriesResp peer t true resp (set_now now n)) as [n'|] eqn:E; [|done]; injection Hd as Hd.
    eapply (turn_acked freshSm re dst dst inc peer t) in E as Ht; [|done].
    eapply (moved_on k _ dst n n' false []); [done|done|by rewrite <- Hd|by rewrite <- Hd, app_nil_r| |by eapply turn_now|done|constructor].
    by intros ? (? & ? & ? & ? & ?).
  - injection Hd as Hd.
    eapply (moved_on k _ dst n _ false []); [done|done|by rewrite <- Hd|by rewrite <- Hd, app_nil_r| |by eapply turn_now, turn_installed|done|constructor].
    by intros ? (? & ? & ? & ? & ?).
Qed.

Lemma exec_moved ev :
  re = isRestart ev -> admissible c ev = true -> exec cfg freshSm c ev = Some c' -> ~ cutting c ev -> moved re c c'.
Proof.
  intros Hre Ha Hx Hcut; destruct ev as [i now|k now|k|k|i b|i|i x a|i x|i rng now]; simpl in Ha, Hx; try done;
    apply bind_Some_inv in Hx as (n & Hi & Hx).
  - destruct (ok_node _ _ Hi) as (Hn & Hp & Hu); rewrite Hi in Ha; apply N.ltb_lt in Ha; destruct (running_ n); [|done].
    apply bind_Some_inv in Hx as ([n' ss] & Hr%of_outcome_Some & [= Hx]).
    apply (turn_loop cfg freshSm re i) in Hr as [Ht Hs]; try done; [|by eapply room|apply (Hun i n'); rewrite <- Hx; apply lookup_insert_eq].
    eapply (moved_alone i n n' (incOf c i) ss); try done; by rewrite <- Hx.
  - destruct n; [by eapply moved_request|by eapply moved_reply..].
  - injection Hx as Hx; apply mv_net; rewrite <- Hx; [done|apply delete_incl].
  - destruct n; [|done..]; injection Hx as Hx; apply mv_net; rewrite <- Hx; [done|].
    intros q; cbn [net]; rewrite elem_of_app, list_elem_of_singleton; intros [?| ->]; [done|by eapply list_elem_of_lookup_2].
  - apply bind_Some_inv in Hx as ([n' r] & Hr%of_outcome_Some & [= Hx]); destruct (ok_node _ _ Hi) as (Hn & Hp & Hu).
    eapply (moved_silent i n n'); [done|by rewrite <- Hx|by rewrite <- Hx|]; eapply turn_propose; [..|exact Hr]; try done; by eapply room.
  - injection Hx as Hx; eapply (moved_silent i n); [done|by rewrite <- Hx|by rewrite <- Hx|]; apply turn_force.
    apply (Hun i); rewrite <- Hx; apply lookup_insert_eq.
  - apply bind_Some_inv in Hx as (n' & Hr%of_outcome_Some & [= Hx]); destruct (ok_node _ _ Hi) as (Hn & Hp & Hu).
    eapply (moved_silent i n (start n')); [done|by rewrite <- Hx|by rewrite <- Hx|].
    eapply turn_restart; try done; by apply (of_clean _ _ _ _ _ _ HO i n).
Qed.
End events.

(** ** Committed entries *)
Definition committed T A (t : Term) (k : nat) (L : list LogEntry) : Prop :=
  sealed T t k L /\ exists Q, majority cfg Q /\ forall q, q ∈ Q -> acked A q t k.

(** The first [idx] entries of [M] are below a committed entry of a term up to [u]. *)
Definition settled T A (u : Term) (idx : LogIndex) (M : list LogEntry) : Prop :=
  idx = 0 \/ exists t k L, committed T A t k L /\ t <= u /\ idx <= N.of_nat k + 1 /\ take (N.to_nat idx) L `prefix_of` M.

Lemma committed_choosable ns T A t k L : committed T A t k L -> choosable cfg ns A t k.
Proof. intros [_ (Q & HQ & Ha)]; exists Q; split; [done|]; intros q Hq; left; by apply Ha. Qed.

Lemma committed_length T A t k L idx : committed T A t k L -> idx <= N.of_nat k + 1 -> length (take (N.to_nat idx) L) = N.to_nat idx.
Proof. intros [[_ (e & He & _)] _] Hi; apply lookup_lt_Some in He; rewrite length_take; lia. Qed.

Lemma settled_le T A u idx M : settled T A u idx M -> idx <= nlen M.
Proof.
  intros [->|(t & k & L & Hc & _ & Hi & Hp)]; [lia|].
  apply prefix_length in Hp; rewrite (committed_length _ _ _ _ _ _ Hc Hi) in Hp; unfold nlen; lia.
Qed.

Lemma committed_mono T T' A A' t k L :
  grows T T' -> A ⊆ A' -> committed T A t k L ->
  exists L', committed T' A' t k L' /\ take (Datatypes.S k) L' = take (Datatypes.S k) L.
Proof.
  intros Hg Ha [Hs (Q & HQ & Hq)]; destruct (Hg _ _ (proj1 Hs)) as (L' & HL' & _).
  destruct (sealed_mono _ _ _ _ _ _ Hg Hs HL') as [Hs' Heq]; exists L'; split; [|done]; split; [done|].
  exists Q; split; [done|]; intros q Hin; by eapply acked_mono, Hq.
Qed.

Lemma take_take_le {X} (l l' : list X) i j : take j l = take j l' -> (i <= j)%nat -> take i l = take i l'.
Proof. intros E Hij; rewrite <- (Nat.min_l i j Hij), <- !take_take; by rewrite E. Qed.

Lemma settled_mono T T' A A' u u' idx M M' :
  grows T T' -> A ⊆ A' -> u <= u' -> M `prefix_of` M' -> settled T A u idx M -> settled T' A' u' idx M'.
Proof.
  intros Hg Ha Hu Hm [->|(t & k & L & Hc & Ht & Hi & Hp)]; [by left|right].
  destruct (committed_mono _ _ _ _ _ _ _ Hg Ha Hc) as (L' & Hc' & Heq).
  exists t, k, L'; split_and!; [done|lia|done|]; rewrite (take_take_le _ _ _ _ Heq) by lia; by etransitivity.
Qed.

(** An index below a settled one. *)
Lemma settled_below T A u idx j M M' :
  settled T A u idx M -> j <= idx -> take (N.to_nat j) M = take (N.to_nat j) M' -> settled T A u j M'.
Proof.
  intros Hs Hj Heq; pose proof (settled_le _ _ _ _ _ Hs) as Hle; destruct Hs as [->|(t & k & L & Hc & Ht & Hi & Hp)]; [left; lia|right].
  exists t, k, L; split_and!; [done|done|lia|].
  assert (take (N.to_nat j) L = take (N.to_nat j) M') as ->; [|apply prefix_take].
  rewrite <- Heq; destruct Hp as [R ->]; rewrite take_app_le, take_take, Nat.min_l; [done|lia|].
  rewrite (committed_length _ _ _ _ _ _ Hc Hi); lia.
Qed.

(** Two settled indices have the same entries below them. *)
Lemma settled_agree ns g T A P u1 u2 i1 i2 M1 M2 (j : nat) :
  complete cfg ns g T A P -> settled T A u1 i1 M1 -> settled T A u2 i2 M2 ->
  (j <= N.to_nat i1)%nat -> (j <= N.to_nat i2)%nat -> take j M1 = take j M2.
Proof.
  intros HC [->|(t1 & k1 & L1 & Hc1 & _ & Hi1 & Hp1)] [->|(t2 & k2 & L2 & Hc2 & _ & Hi2 & Hp2)] H1 H2;
    try (by replace j with 0%nat by lia).
  assert (take j M1 = take j L1 /\ take j M2 = take j L2) as [-> ->].
  { split; [destruct Hp1 as [R ->]|destruct Hp2 as [R ->]]; (rewrite take_app_le, take_take, Nat.min_l; [done|lia|]);
      [rewrite (committed_length _ _ _ _ _ _ Hc1 Hi1)|rewrite (committed_length _ _ _ _ _ _ Hc2 Hi2)]; lia. }
  assert (forall t t' k k' L L', committed T A t k L -> committed T A t' k' L' -> t < t' -> (j <= Datatypes.S k)%nat ->
    take j L = take j L') as Hlt.
  { intros t t' k k' L L' Hc [[HT' _] _] Htt Hj.
    pose proof (cp_safe _ _ _ _ _ _ HC t t' k L L' Htt (proj1 Hc) (committed_choosable _ _ _ _ _ _ Hc) HT') as [R ->].
    destruct Hc as [[_ (e & He & _)] _]; apply lookup_lt_Some in He.
    rewrite take_app_le by (rewrite length_take; lia); by rewrite take_take, Nat.min_l by lia. }
  destruct (N.lt_trichotomy t1 t2) as [?|[->|?]]; [by eapply Hlt; try done; lia| |symmetry; by eapply Hlt; try done; lia].
  destruct Hc1 as [[E1 _] _], Hc2 as [[E2 _] _]; congruence.
Qed.

(** A leader of that term or a later one has them. *)
Lemma settled_leader ns g T A P u u' idx M L :
  complete cfg ns g T A P -> settled T A u idx M -> u <= u' -> T !! u' = Some L -> take (N.to_nat idx) M = take (N.to_nat idx) L.
Proof.
  intros HC Hs Hu HT; pose proof (settled_le _ _ _ _ _ Hs) as Hle; destruct Hs as [->|(t & k & L0 & Hc & Ht & Hi & Hp)]; [done|].
  assert (take (N.to_nat idx) M = take (N.to_nat idx) L0) as ->.
  { destruct Hp as [R ->]; rewrite take_app_le, take_take, Nat.min_id; [done|].
    rewrite (committed_length _ _ _ _ _ _ Hc Hi); lia. }
  destruct (decide (t = u')) as [->|]; [destruct Hc as [[E _] _]; congruence|].
  pose proof (cp_safe _ _ _ _ _ _ HC t u' k L0 L ltac:(lia) (proj1 Hc) (committed_choosable _ _ _ _ _ _ Hc) HT) as [R ->].
  destruct Hc as [[_ (e & He & _)] _]; apply lookup_lt_Some in He.
  rewrite take_app_le by (rewrite length_take; lia); by rewrite take_take, Nat.min_l by lia.
Qed.

(** ** Commit index, applied index and state *)
Record node_settled T A n : Prop := {
  nt_commit : settled T A (nodeTerm n) (commitIndex_ n) (entries_ (log_ n));
  nt_applied : settled T A (nodeTerm n) (lastApplied_ n) (entries_ (log_ n));
  nt_sm : sm_run (take (N.to_nat (lastApplied_ n)) (entries_ (log_ n))) freshSm = Ok (sm_ n)
}.

Definition packet_settled T A (p : Packet) : Prop :=
  match p with
  | Request _ _ (SendAppendEntries _ r _) =>
      exists L, T !! ae_term r = Some L /\ settled T A (ae_term r) (ae_leaderCommit r) L
  | _ => True
  end.

Lemma packet_settled_mono T T' A A' p : grows T T' -> A ⊆ A' -> packet_settled T A p -> packet_settled T' A' p.
Proof.
  intros Hg Ha; destruct p as [src inc [| |]| | |]; try done; intros (L & HL & Hs).
  destruct (Hg _ _ HL) as (L' & HL' & Hp); exists L'; split; [done|]; by eapply settled_mono.
Qed.

Lemma sm_run_app es es' (s : S) : sm_run (es ++ es') s = (sm_run es s ≫= sm_run es').
Proof.
  revert s; induction es as [|e es IH]; intros s; [done|]; simpl; destruct (e_type e); try apply IH.
  destruct (sm_apply _ _ _) as [r|]; [|done]; simpl; apply IH.
Qed.

Lemma apply_settled T A n n' :
  plain n -> node_settled T A n -> applyCommittedEntries n = Ok n' -> log_ n' = log_ n ->
  node_settled T A n' /\ lastApplied_ n <= lastApplied_ n'.
Proof.
  intros Hp [Hc Ha Hs] Hr Hlog; pose proof (plain_last _ Hp) as Hlast; destruct Hp as [Hwf H0].
  pose proof (settled_le _ _ _ _ _ Hc) as Hcl; pose proof (settled_le _ _ _ _ _ Ha) as Hal; pose proof (wf_bound _ Hwf) as Hb.
  rewrite applyCommittedEntries_eq in Hr by (done || lia).
  apply applyAll_sm in Hr as (Hla & Hci & Hsm & _); cbn [lastApplied_ commitIndex_ sm_ set_lastApplied] in *.
  assert (applyTarget n = N.max (lastApplied_ n) (commitIndex_ n)) as Ht by (unfold applyTarget; lia).
  split; [|rewrite Hla; lia].
  split; unfold nodeTerm; rewrite ?Hlog, ?Hci, ?Hla, ?Ht; [done| |].
  - by destruct (N.max_spec (lastApplied_ n) (commitIndex_ n)) as [[_ ->]|[_ ->]].
  - unfold committedEntries in Hsm; rewrite Ht, H0, N.sub_0_r in Hsm.
    replace (N.to_nat (N.max (lastApplied_ n) (commitIndex_ n))) with
      (N.to_nat (lastApplied_ n) + N.to_nat (N.max (lastApplied_ n) (commitIndex_ n) - lastApplied_ n))%nat by lia.
    rewrite <- take_take_drop, sm_run_app, Hs; exact Hsm.
Qed.

(** The commit rule: a majority has acknowledged an entry of the leader's term. *)
Lemma candidate_committed ns g T A P i n k :
  complete cfg ns g T A P -> leads cfg A i n -> T !! nodeTerm n = Some (entries_ (log_ n)) -> plain n ->
  config_ n = cfg -> id (opts_ n) = i -> commitCandidate n = Some k -> 0 < k ->
  termAt k (log_ n) = currentTerm_ (log_ n) ->
  committed T A (nodeTerm n) (N.to_nat (k - 1)) (entries_ (log_ n)) /\ k <= nlen (entries_ (log_ n)).
Proof.
  intros HC [Hv Hself Hm Hall] HT Hp Hcf Hid Hk H0 Htk.
  assert (tracks_voters n) as Htr.
  { split; rewrite Hcf, ?Hid; [done..|]; intros v; split; [by apply Hall|]; intros [x Hx]; by apply (Hm v x). }
  destruct (commitCandidate_majority n k Htr Hk) as [Hmaj _]; rewrite Hcf in Hmaj; unfold replicas in Hmaj; rewrite Hcf in Hmaj.
  set (vs := filter _ _) in Hmaj; assert (NoDup vs) as Hndv by (by apply NoDup_filter).
  assert (forall q, q ∈ vs -> q ∈ voters cfg /\ acked A q (nodeTerm n) (N.to_nat (k - 1))) as Hq.
  { intros q Hin; apply list_elem_of_filter in Hin as [Hst Hqv]; split; [done|]; unfold storedAt in Hst; case_decide as E.
    - rewrite plain_last in Hst by done; exists (nlen (entries_ (log_ n))); split; [by rewrite E, Hid|lia].
    - destruct (Hall q Hqv) as [x Hx]; rewrite Hx in Hst; cbn [default] in Hst.
      destruct (Hm q x Hx) as [_ [->|Hx']]; [cbn in Hst; lia|]; exists x; split; [done|cbn in Hst; lia]. }
  assert (majority cfg (list_to_set vs) /\ forall q, q ∈ (list_to_set vs : gset N) -> acked A q (nodeTerm n) (N.to_nat (k - 1))) as [HQ HQa].
  { split; [split|]; [|intros q; rewrite elem_of_list_to_set; by intros [? ?]%Hq..].
    rewrite size_list_to_set by done; unfold nlen.
    pose proof (Nat.div_mod_eq (length (voters cfg)) 2); pose proof (Nat.mod_upper_bound (length (voters cfg)) 2); lia. }
  assert (k <= nlen (entries_ (log_ n))) as Hkl.
  { destruct vs as [|q vs'] eqn:E; [simpl in Hmaj; lia|].
    destruct (HQa q) as (x & Hx & Hkx); [set_solver|].
    destruct (cp_acks _ _ _ _ _ _ HC _ _ _ Hx) as (L & _ & HL & Hlen & _); rewrite HT in HL; injection HL as <-; lia. }
  split; [|done]; split; [split; [done|]|by exists (list_to_set vs)].
  destruct (lookup_lt_is_Some_2 (entries_ (log_ n)) (N.to_nat (k - 1))) as [e He]; [unfold nlen in Hkl; lia|].
  exists e; split; [done|]; destruct Hp as [Hwf Hs0]; pose proof (wf_bound _ Hwf) as Hb.
  rewrite termAt_at, at_spec in Htk by (rewrite ?Hs0; unfold nlen in *; lia); rewrite Hs0, N.sub_0_r, decide_True, He in Htk by lia.
  exact Htk.
Qed.

(** What committing and applying is judged by. *)
Record ready T A i n : Prop := {
  rd_plain : plain n;
  rd_config : config_ n = cfg;
  rd_id : id (opts_ n) = i;
  rd_unconfigured : unconfigured n;
  rd_record : role_ n = Leader -> T !! nodeTerm n = Some (entries_ (log_ n));
  rd_leads : role_ n = Leader -> leads cfg A i n
}.

Lemma ready_core T A i n n' : same_core n n' -> ready T A i n -> ready T A i n'.
Proof.
  intros [Ho Hc Hl Hr Hm] [[? ?] ? ? ? H5 H6]; unfold unconfigured, nodeTerm in *; split; unfold unconfigured, nodeTerm; rewrite ?Ho, ?Hc, ?Hl, ?Hr; try done.
  - split; by rewrite Hl.
  - intros Hld; destruct (H6 Hld); split; unfold nodeTerm in *; rewrite ?Hl, ?Hm; done.
Qed.

Lemma advance_settled ns g T A P i n n' :
  complete cfg ns g T A P -> ready T A i n -> node_settled T A n -> advance n n' ->
  node_settled T A n' /\ lastApplied_ n <= lastApplied_ n'.
Proof.
  intros HC Hrd Hn Hadv; pose proof (advance_core _ _ (rd_unconfigured _ _ _ _ Hrd) Hadv) as Hsc.
  destruct Hadv as [n1 Hr|k Hr Hk Hlt Htk]; [eapply apply_settled; [apply Hrd|done..|apply Hsc]|].
  destruct Hrd as [Hp Hcf Hid _ Hrec Hld], Hn as [H1 H2 H3].
  destruct (candidate_committed _ _ _ _ _ _ _ _ HC (Hld Hr) (Hrec Hr) Hp Hcf Hid Hk ltac:(lia) Htk) as [Hco Hkl].
  split; [|done]; split; [|done|done]; right; exists (nodeTerm n), (N.to_nat (k - 1)), (entries_ (log_ n)).
  split_and!; [done|done|cbn [commitIndex_ set_commitIndex]; lia|apply prefix_take].
Qed.

Lemma advances_settled ns g T A P i n n' :
  complete cfg ns g T A P -> ready T A i n' -> same_core n n' -> node_settled T A n -> rtc advance n n' ->
  node_settled T A n' /\ lastApplied_ n <= lastApplied_ n'.
Proof.
  intros HC Hrd Hsc Hn Hr; assert (ready T A i n) as Hr0 by (eapply ready_core; [by symmetry|done]); clear Hrd Hsc.
  induction Hr as [|a b d Hab _ IH]; [done|]; destruct (advance_settled _ _ _ _ _ _ _ _ HC Hr0 Hn Hab) as [Hb Hle].
  destruct (IH Hb) as [? ?]; [|split; [done|lia]].
  eapply ready_core; [|done]; eapply advance_core; [apply Hr0|done].
Qed.

(** ** The invariant of a run *)
Record group c g T A P : Prop := {
  gr_inv : Inv cfg (nodes c) (net c) g;
  gr_logs : logs_inv cfg (nodes c) (net c) g T;
  gr_complete : complete cfg (nodes c) g T A P;
  gr_office : office cfg (nodes c) (net c) T A P;
  gr_nodes : forall i n, nodes c !! i = Some n -> node_settled T A n;
  gr_net : Forall (packet_settled T A) (net c)
}.

(** The network loses or repeats a message. *)
Lemma recorded_same ns net g T T' : logs_inv cfg ns net g T -> recorded ns T T' -> T' = T.
Proof.
  intros HL [Hg Hn]; assert (forall t L, T' !! t = Some L -> T !! t = Some L) as Hback.
  { intros t L HT; destruct (Hn t L HT) as [?|(i & n & Hi & Hr & <- & <-)]; [done|by eapply (li_leader _ _ _ _ _ HL)]. }
  apply map_eq; intros t; destruct (T' !! t) as [L|] eqn:E; [symmetry; by apply Hback|].
  destruct (T !! t) as [L|] eqn:E2; [|done]; destruct (Hg _ _ E2) as (L' & ? & _); congruence.
Qed.

Lemma complete_votes ns net g g' T A P :
  complete cfg ns g T A P -> granted ns g g' -> elect_inv cfg ns net g' -> complete cfg ns g' T A P.
Proof.
  intros [H1 H2 H3 H4 H5 H6] [_ Hn] He; split; try done; intros q t' a t k L Hv; apply (H4 q t' a t k L).
  destruct Hv as [Hg|?]; [|by right]; destruct (Hn _ _ _ Hg) as [?|(n & ? & ? & ?)]; [by left|right].
  exists n; destruct (ei_known _ _ _ _ He _ _ _ Hg); done.
Qed.

Lemma group_net c c' g g' T T' A P :
  group c g T A P -> nodes c' = nodes c -> net c' ⊆ net c -> granted (nodes c') g g' -> recorded (nodes c') T T' ->
  Inv cfg (nodes c') (net c') g' -> logs_inv cfg (nodes c') (net c') g' T' -> group c' g' T A P /\ T' = T.
Proof.
  intros [HI HL HC HO Hns Hnet] Hn Hsub Hg Hr HI' HL'; rewrite Hn in *.
  assert (T' = T) as -> by (by eapply recorded_same); split; [|done]; split; rewrite ?Hn; try done.
  - eapply complete_votes; [done..|apply HI'].
  - destruct HO as [? ? ? ? Hpk]; split; try done; apply Forall_forall; intros p Hp; rewrite Forall_forall in Hpk; auto.
  - apply Forall_forall; intros p Hp; rewrite Forall_forall in Hnet; auto.
Qed.

(** A node takes a turn. *)
Section turns.
Context (c c' : Cluster S) (g g' : gset (N * N * N)) (T T' : Terms) (A : Acks) (P : Polls)
  (re : bool) (i : NodeId) (inp : option Packet) (n n' : RaftNode S) (ok : bool) (rest new : list Packet).
Context (HG : group c g T A P) (HI' : Inv cfg (<[i := n']> (nodes c)) (net c') g')
  (HL' : logs_inv cfg (<[i := n']> (nodes c)) (net c') g' T')
  (Hgr : granted (<[i := n']> (nodes c)) g g') (Hrec : recorded (<[i := n']> (nodes c)) T T').
Context (Hi : nodes c !! i = Some n) (Hnet : net c' = rest ++ new) (Hrest : rest ⊆ net c)
  (Hinp : forall p, inp = Some p -> p ∈ net c) (Huncut : forall r, heard inp r -> ~ stale r n)
  (Ht : turn freshSm re i inp n n') (Hok : ok = true -> exists r, heard inp r /\ accepts r n n')
  (Hem : emits cfg i inp n n' ok new).

Let A' := acks_after A i inp n' ok.
Let P' := polls_after P i n n'.
Let Hi' : <[i := n']> (nodes c) !! i = Some n' := lookup_insert_eq _ _ _.

Lemma turn_complete : complete cfg (<[i := n']> (nodes c)) g' T' A' P'.
Proof. destruct HG, Ht; by eapply complete_after. Qed.

Lemma turn_packets : Forall (packet_acked cfg T' A' P') (net c').
Proof.
  destruct HG as [HI HL HC HO _ _], Ht; rewrite Hnet; apply Forall_app; split; [|by eapply emits_acked].
  apply Forall_forall; intros p Hp; eapply packet_acked_mono; [apply Hrec|apply acks_grow|by eapply polls_grow|].
  eapply (Forall_forall (packet_acked cfg T A P)); [apply HO|by apply Hrest].
Qed.

Lemma turn_offices : office cfg (<[i := n']> (nodes c)) (net c') T' A' P'.
Proof. destruct HG, Ht; eapply office_after; try done; apply turn_packets. Qed.

Lemma turn_ready : ready T' A' i n'.
Proof.
  pose proof (co_nodes _ _ _ (proj1 HI') _ _ Hi') as Hn'; split; try apply Hn'.
  - by eapply (li_plain _ _ _ _ _ HL').
  - by eapply (li_leader _ _ _ _ _ HL').
  - by eapply (of_lead _ _ _ _ _ _ turn_offices).
Qed.

(** A settled prefix of the log stays. *)
Lemma turn_keeps idx :
  settled T A (nodeTerm n) idx (entries_ (log_ n)) -> take (N.to_nat idx) (entries_ (log_ n')) = take (N.to_nat idx) (entries_ (log_ n)).
Proof.
  intros Hs; destruct HG as [HI HL HC HO _ _], Ht as [Hact Hcar _]; pose proof (settled_le _ _ _ _ _ Hs) as Hle.
  assert (take (N.to_nat idx) (entries_ (log_ n)) `prefix_of` entries_ (log_ n')) as [R ->].
  2: { rewrite take_app_le by (rewrite length_take; unfold nlen in Hle; lia); by rewrite take_take, Nat.min_id. }
  eapply (log_keeps T); [by eapply act_log|apply prefix_take|]; intros L HTL.
  rewrite (settled_leader _ _ _ _ _ _ (nodeTerm n') _ _ L HC Hs); [apply prefix_take| |done].
  by eapply act_term.
Qed.

Lemma turn_settled idx :
  settled T A (nodeTerm n) idx (entries_ (log_ n)) -> settled T' A' (nodeTerm n') idx (entries_ (log_ n')).
Proof.
  intros Hs; eapply settled_below; [|done|symmetry; by apply turn_keeps].
  eapply settled_mono; [apply Hrec|apply acks_grow| |done|exact Hs]; destruct Ht; by eapply act_term.
Qed.

Lemma turn_node_applied : node_settled T' A' n' /\ (re = false -> lastApplied_ n <= lastApplied_ n').
Proof.
  pose proof (tn_booked _ _ _ _ _ _ Ht) as (m & Hm & Hb & Hadv); pose proof (gr_nodes _ _ _ _ _ HG _ _ Hi) as [H1 H2 H3].
  assert (node_settled T' A' m -> node_settled T' A' n' /\ (re = false -> lastApplied_ n <= lastApplied_ n')) as Hgo.
  { intros Hn; destruct (advances_settled _ _ _ _ _ i m n' turn_complete turn_ready Hm Hn Hadv) as [? Hle]; split; [done|].
    intros Hre; destruct Hb as [_ <- _|r _ _ _ <- _|? _ _ _ _]; [done|done|congruence]. }
  apply Hgo; clear Hgo.
  assert (nodeTerm m = nodeTerm n' /\ entries_ (log_ m) = entries_ (log_ n')) as [Etm Eem]
    by (destruct Hm as [_ _ Hl _ _]; unfold nodeTerm; by rewrite Hl).
  assert (sm_run (take (N.to_nat (lastApplied_ n)) (entries_ (log_ n'))) freshSm = Ok (sm_ n)) as H4 by (by rewrite turn_keeps).
  destruct Hb as [E1 E2 E3|r Hh Hac E1 E2 E3|_ _ E1 E2 E3]; split; rewrite ?Etm, ?Eem, ?E1, ?E2, ?E3; try done;
    try (by apply turn_settled); try (by left).
  pose proof Hh as (src & inc & peer & t & E); pose proof (gr_net _ _ _ _ _ HG) as Hpk.
  rewrite Forall_forall in Hpk; destruct (Hpk _ (Hinp _ E)) as (L & HTL & HsL).
  pose proof (gr_office _ _ _ _ _ HG) as HO; pose proof (of_net _ _ _ _ _ _ HO) as Hpa; rewrite Forall_forall in Hpa.
  destruct (Hpa _ (Hinp _ E)) as (_ & -> & _ & L1 & HTL1 & Hdr); rewrite HTL in HTL1; injection HTL1 as <-.
  pose proof (gr_logs _ _ _ _ _ HG) as HL.
  assert (accepts r n n') as Hac' by (destruct Hac as [h1 h2 h3 h4 h5 h6 h7 h8], Hm as [_ _ Hl Hr _]; unfold nodeTerm, nodeVote in *; split; unfold nodeTerm, nodeVote; rewrite ?Hl, ?Hr; done).
  destruct (accept_agrees T r n n' L) as [_ Heq];
    [by eapply (li_plain _ _ _ _ _ HL)|by eapply (li_nodes _ _ _ _ _ HL)|by eapply (li_terms _ _ _ _ _ HL)|done|done|].
  rewrite (ac_term _ _ _ Hac').
  eapply (settled_mono T _ A _ (ae_term r) _ _ (entries_ (log_ n'))); [apply Hrec|apply acks_grow|done|done|].
  eapply settled_below; [exact HsL|lia|]; symmetry; eapply take_take_le; [exact Heq|lia].
Qed.

Lemma turn_node : node_settled T' A' n'.
Proof. apply turn_node_applied. Qed.

Lemma turn_sent : Forall (packet_settled T' A') new.
Proof.
  pose proof (nt_commit _ _ _ turn_node) as Hc; destruct Hem as [| | | |inc ss [|Hv Hr|]]; try (by repeat constructor).
  - apply Forall_fmap, Forall_forall; intros s Hs; by apply voteRequests_elem in Hs as (p & _ & _ & ->).
  - apply Forall_fmap, Forall_forall; intros s; unfold broadcastAppendEntries.
    case_decide as Hr; [|by intros ?%elem_of_nil]; intros (p & _ & Hs)%list_elem_of_In%in_flat_map.
    destruct (_ =? _); [done|]; destruct (_ <=? _);
      unfold sendInstallSnapshotTo, sendAppendEntriesTo in Hs; rewrite decide_True in Hs by done;
      destruct Hs as [<-|[]]; [done|]; cbn [packet_settled compose ae_term ae_leaderCommit].
    exists (entries_ (log_ n')); split; [by eapply (li_leader _ _ _ _ _ HL')|done].
Qed.

Lemma group_turn : nodes c' = <[i := n']> (nodes c) -> group c' g' T' A' P'.
Proof.
  intros Hns; split; rewrite ?Hns; try done; [apply turn_complete|apply turn_offices| |].
  - intros j m; rewrite lookup_insert; case_decide; [intros [= <-]; apply turn_node|intros Hm].
    destruct (gr_nodes _ _ _ _ _ HG _ _ Hm) as [H1 H2 H3]; split; [| |done]; (eapply settled_mono; [apply Hrec|apply acks_grow|done..]).
  - rewrite Hnet; apply Forall_app; split; [|apply turn_sent].
    apply Forall_forall; intros p Hp; eapply packet_settled_mono; [apply Hrec|apply acks_grow|].
    eapply (Forall_forall (packet_settled T A)); [apply HG|by apply Hrest].
Qed.
End turns.

(** The nodes after an event: one of them has moved, and has applied no less than
    before unless it was restarted. *)
Definition applies (re : bool) c c' : Prop :=
  nodes c' = nodes c \/
  exists i n n', nodes c !! i = Some n /\ nodes c' = <[i := n']> (nodes c) /\ (re = false -> lastApplied_ n <= lastApplied_ n').

Lemma group_event c c' ev g T A P :
  group c g T A P -> admissible c ev = true -> exec cfg freshSm c ev = Some c' -> roomy c -> unsnapped c' -> ~ cutting c ev ->
  applies (isRestart ev) c c' /\ exists g' T' A' P', grows T T' /\ A ⊆ A' /\ group c' g' T' A' P'.
Proof.
  intros HG Ha Hx Hroom Hun Hcut; pose proof HG as [HI HL _ HO _ _].
  destruct (plain_step_logs cfg freshSm Hnd Hne c c' _ _ HI HL) as (g' & T' & Hgr & Hrec & HI' & HL');
    [split; [by econstructor|done|done]|].
  destruct (exec_moved (isRestart ev) c c' g T A P HI HL HO Hroom Hun ev eq_refl Ha Hx Hcut)
    as [Hn Hsub|i n n' inp ok rest new Hi Hns Hnet Hrest Hinp Huncut Ht Hok Hem].
  - destruct (group_net c c' g g' T T' A P HG) as [HG' ->]; try done; split; [by left|by exists g', T, A, P].
  - pose proof Hns as Hns'; rewrite Hns in HI', HL', Hgr, Hrec; split.
    + right; exists i, n, n'; split_and!; [done..|]; by eapply turn_node_applied.
    + exists g', T', (acks_after A i inp n' ok), (polls_after P i n n'); split_and!; [apply Hrec|apply acks_grow|].
      by eapply group_turn.
Qed.

Lemma group_step c c' g T A P :
  group c g T A P -> uncut_step c c' -> exists g' T' A' P', grows T T' /\ A ⊆ A' /\ group c' g' T' A' P'.
Proof. intros HG [ev Ha Hx Hroom Hun Hcut]; by eapply group_event. Qed.

#[local] Instance grows_trans : Transitive grows.
Proof.
  intros T1 T2 T3 H1 H2 t L Ht; destruct (H1 _ _ Ht) as (L2 & HL2 & Hp); destruct (H2 _ _ HL2) as (L3 & ? & ?).
  exists L3; split; [done|by etransitivity].
Qed.

Lemma group_steps c c' g T A P :
  rtc uncut_step c c' -> group c g T A P -> exists g' T' A' P', grows T T' /\ A ⊆ A' /\ group c' g' T' A' P'.
Proof.
  intros Hs; revert g T A P; induction Hs as [c|a b d Hab _ IH]; intros g T A P HG; [by exists g, T, A, P|].
  destruct (group_step _ _ _ _ _ _ HG Hab) as (g1 & T1 & A1 & P1 & H1 & H2 & HG1).
  destruct (IH _ _ _ _ HG1) as (g2 & T2 & A2 & P2 & H3 & H4 & HG2).
  exists g2, T2, A2, P2; split_and!; [by etransitivity..|done].
Qed.

Lemma freshCluster_node os i n :
  nodes (freshCluster cfg freshSm os) !! i = Some n ->
  log_ n = mkPersistentLog ∅ 0 0 0 0 [] /\ role_ n = Follower /\ commitIndex_ n = 0 /\ lastApplied_ n = 0 /\ sm_ n = freshSm.
Proof.
  intros Hl; apply freshCluster_nodes in Hl as (o & _ & _ & Hf); unfold freshNode in Hf.
  apply bind_Some_inv in Hf as (m & Hm%of_outcome_Some & Hf); simplify_eq.
  unfold newRaftNode in Hm; change (loadFromDisk ∅) with (Ok (mkPersistentLog ∅ 0 0 0 0 [])) in Hm.
  inv_ok; unfold loadSnapshotBytes in *; cbn [dir_] in *; rewrite lookup_empty in *; inv_ok; done.
Qed.

Lemma fresh_group os :
  Forall (fun o => 0 < id o < U32) os -> group (freshCluster cfg freshSm os) ∅ ∅ ∅ ∅.
Proof.
  intros Hos; pose proof (freshCluster_node os) as Hn.
  assert (forall q t k, ~ acked ∅ q t k) as Hno by (by intros q t k (m & ?%not_elem_of_empty & _)).
  assert (forall t L, (∅ : Terms) !! t <> Some L) as HnoT by (intros t L; by rewrite lookup_empty).
  split; [by apply freshCluster_inv|apply fresh_logs| | | |constructor]; split.
  - by intros q t m ?%not_elem_of_empty.
  - intros q n t k L _ Ha; by apply Hno in Ha.
  - by intros t t' k L L' _ [?%HnoT _].
  - by intros q t' a t k L _ _ ?%Hno.
  - by intros t L ?%HnoT.
  - intros i n (-> & _)%Hn; constructor.
  - intros i n (_ & ? & _)%Hn; congruence.
  - intros i t x; by rewrite lookup_empty.
  - intros i n (_ & ? & _)%Hn; congruence.
  - intros i n (-> & _)%Hn; split; [done|apply lookup_empty].
  - constructor.
  - destruct (Hn _ _ H0) as (_ & _ & -> & _); by left.
  - destruct (Hn _ _ H0) as (_ & _ & _ & -> & _); by left.
  - destruct (Hn _ _ H0) as (_ & _ & _ & -> & ->); done.
Qed.

(** ** Schedules *)
#[local] Instance roomy_decision c : Decision (roomy c).
Proof. unfold roomy; apply _. Defined.
#[local] Instance unsnapped_decision c : Decision (unsnapped c).
Proof. unfold unsnapped; apply _. Defined.

Fixpoint run_uncut (evs : list Event) c : option (Cluster S) :=
  match evs with
  | [] => Some c
  | ev :: evs' =>
      if admissible c ev && bool_decide (roomy c) && bool_decide (~ cutting c ev)
      then c' ← exec cfg freshSm c ev; if bool_decide (unsnapped c') then run_uncut evs' c' else None
      else None
  end.

Lemma run_uncut_steps evs c c' : run_uncut evs c = Some c' -> rtc uncut_step c c'.
Proof.
  revert c; induction evs as [|ev evs IH]; intros c; simpl; [by intros [= <-]|].
  destruct (admissible c ev) eqn:Ha; [|done]; case_bool_decide as Hr; [|done]; case_bool_decide as Hk; [|done]; cbn [andb].
  intros (c1 & H1 & H2)%bind_Some_inv; case_bool_decide as Hu; [|done].
  eapply rtc_l; [by econstructor|by apply IH].
Qed.

(** The entries of equal prefixes are equal. *)
Lemma at_prefix n1 n2 (idx k : N) :
  plain n1 -> plain n2 -> 0 < idx -> idx <= k -> k <= nlen (entries_ (log_ n1)) ->
  take (N.to_nat k) (entries_ (log_ n1)) = take (N.to_nat k) (entries_ (log_ n2)) ->
  is_Some (at_ idx (log_ n1)) /\ at_ idx (log_ n2) = at_ idx (log_ n1).
Proof.
  intros [Hw1 Hs1] [Hw2 Hs2] H0 Hk Hl Heq; pose proof (wf_bound _ Hw1) as Hb; unfold nlen in *.
  rewrite !at_spec by (rewrite Hs1 in Hb; lia); rewrite Hs1, Hs2, !N.sub_0_r, !decide_True by lia.
  split; [apply lookup_lt_is_Some_2; lia|].
  rewrite <- (lookup_take_lt (entries_ (log_ n2)) (N.to_nat k)), <- Heq by lia; by rewrite lookup_take_lt by lia.
Qed.

End safety.

(** ** The theorems *)
Section theorems.
Context {S : Type} `{StateMachine S}.

(** C1: state machine safety of uninterrupted methods. Each call of a method of
    [RaftNode] (a round of the timer, a handler, a callback, [propose]) runs without
    interruption, as one step: the releases of [mu_] inside the methods are not
    interleaved here ([applied_out_of_order] of [RaftRaces] shows what interleaving
    does to the order of application). In such runs of a group that starts from
    empty directories, with a fixed membership and no snapshots, and as long as no
    delivered append request cuts a log it agrees with: whatever node [i] has
    applied by some time and node [j] by the same or any later time, at every index
    both have applied they have applied the same entry; the state of a replica is
    the replay of its applied entries; and two replicas that have applied equally
    many entries are in the same state. Messages may be delayed, reordered, lost and
    (vote requests apart) duplicated, and nodes may crash and restart between
    methods; terms and indices stay below 2^64. *)
Theorem state_machine_safety (cfg : ClusterConfig) (freshSm : S) (os : list RaftOptions)
    (c1 c2 : Cluster S) (i j : NodeId) (n1 n2 : RaftNode S)
    (Hnd : NoDup (voters cfg)) (Hne : voters cfg <> []) (Hos : Forall (fun o => 0 < id o < U32) os)
    (Hr1 : rtc (uncut_step cfg freshSm) (freshCluster cfg freshSm os) c1) (Hr2 : rtc (uncut_step cfg freshSm) c1 c2)
    (Hi : nodes c1 !! i = Some n1) (Hj : nodes c2 !! j = Some n2) :
  (forall idx, 0 < idx -> idx <= lastApplied_ n1 -> idx <= lastApplied_ n2 ->
     is_Some (at_ idx (log_ n1)) /\ at_ idx (log_ n2) = at_ idx (log_ n1)) /\
  sm_run (take (N.to_nat (lastApplied_ n1)) (entries_ (log_ n1))) freshSm = Ok (sm_ n1) /\
  (lastApplied_ n1 = lastApplied_ n2 -> sm_ n1 = sm_ n2).
Proof.
  destruct (group_steps cfg freshSm Hnd Hne _ _ _ _ _ _ Hr1 (fresh_group cfg freshSm os Hos)) as (g1 & T1 & A1 & P1 & _ & _ & HG1).
  destruct (group_steps cfg freshSm Hnd Hne _ _ _ _ _ _ Hr2 HG1) as (g2 & T2 & A2 & P2 & HT & HA & HG2).
  destruct (gr_nodes _ _ _ _ _ _ _ HG1 _ _ Hi) as [_ Ha1 Hs1], (gr_nodes _ _ _ _ _ _ _ HG2 _ _ Hj) as [_ Ha2 Hs2].
  pose proof (settled_le _ _ _ _ _ _ Ha1) as Hl1.
  eapply (settled_mono cfg _ T2 _ A2) in Ha1; [|done..].
  assert (forall k, k <= lastApplied_ n1 -> k <= lastApplied_ n2 ->
    take (N.to_nat k) (entries_ (log_ n1)) = take (N.to_nat k) (entries_ (log_ n2))) as Hag.
  { intros k H1 H2; eapply (settled_agree cfg); [apply HG2|exact Ha1|exact Ha2|lia|lia]. }
  split_and!; [|done|].
  - intros idx H0 H1 H2; apply (at_prefix n1 n2 idx idx); [|..|by apply Hag]; [| |done|done|lia].
    + by eapply (li_plain _ _ _ _ _ (gr_logs _ _ _ _ _ _ _ HG1)).
    + by eapply (li_plain _ _ _ _ _ (gr_logs _ _ _ _ _ _ _ HG2)).
  - intros E; rewrite (Hag (lastApplied_ n1)), E in Hs1 by lia; rewrite Hs1 in Hs2; by injection Hs2.
Qed.

(** C5: leader completeness of uninterrupted methods. Each call of a method of
    [RaftNode] (a round of the timer, a handler, a callback, [propose]) runs without
    interruption, as one step: the releases of [mu_] inside the methods are not
    interleaved. In such runs of a group from empty directories with a fixed
    membership and no snapshots, as long as no delivered append request cuts a log
    it agrees with and no vote request is duplicated: an index that node [i] counts
    as committed by some time holds the same entry in the log of every node that
    leads the same or a later term at that or any later time, so no election loses a
    committed entry. *)
Theorem leader_completeness (cfg : ClusterConfig) (freshSm : S) (os : list RaftOptions)
    (c1 c2 : Cluster S) (i j : NodeId) (n1 n2 : RaftNode S) (idx : LogIndex)
    (Hnd : NoDup (voters cfg)) (Hne : voters cfg <> []) (Hos : Forall (fun o => 0 < id o < U32) os)
    (Hr1 : rtc (uncut_step cfg freshSm) (freshCluster cfg freshSm os) c1) (Hr2 : rtc (uncut_step cfg freshSm) c1 c2)
    (Hi : nodes c1 !! i = Some n1) (Hj : nodes c2 !! j = Some n2)
    (H0 : 0 < idx) (Hc : idx <= commitIndex_ n1) (Hl : role_ n2 = Leader) (Ht : nodeTerm n1 <= nodeTerm n2) :
  is_Some (at_ idx (log_ n1)) /\ at_ idx (log_ n2) = at_ idx (log_ n1).
Proof.
  destruct (group_steps cfg freshSm Hnd Hne _ _ _ _ _ _ Hr1 (fresh_group cfg freshSm os Hos)) as (g1 & T1 & A1 & P1 & _ & _ & HG1).
  destruct (group_steps cfg freshSm Hnd Hne _ _ _ _ _ _ Hr2 HG1) as (g2 & T2 & A2 & P2 & HT & HA & HG2).
  destruct (gr_nodes _ _ _ _ _ _ _ HG1 _ _ Hi) as [Hc1 _ _].
  pose proof (settled_le _ _ _ _ _ _ Hc1) as Hl1; eapply (settled_mono cfg _ T2 _ A2) in Hc1; [|done..].
  apply (at_prefix n1 n2 idx (commitIndex_ n1)); [| |done|done|done|].
  - by eapply (li_plain _ _ _ _ _ (gr_logs _ _ _ _ _ _ _ HG1)).
  - by eapply (li_plain _ _ _ _ _ (gr_logs _ _ _ _ _ _ _ HG2)).
  - eapply (settled_leader cfg); [apply HG2|exact Hc1|done|by eapply (li_leader _ _ _ _ _ (gr_logs _ _ _ _ _ _ _ HG2))].
Qed.

End theorems.

(** ** A change of leader, and the schedule that the condition excludes *)
Definition committed3 : Cluster KvStore :=
  default (mkCluster ∅ ∅ []) (run_uncut sample_cfg KvStore_init (take 7 deposed_leader) group3).
Definition deposed3 : Cluster KvStore :=
  default (mkCluster ∅ ∅ []) (run_uncut sample_cfg KvStore_init (drop 7 deposed_leader) committed3).

Lemma committed3_reachable : rtc (uncut_step sample_cfg KvStore_init) group3 committed3.
Proof. apply (run_uncut_steps _ _ (take 7 deposed_leader)); vm_compute; reflexivity. Qed.

Lemma deposed3_reachable : rtc (uncut_step sample_cfg KvStore_init) committed3 deposed3.
Proof. apply (run_uncut_steps _ _ (drop 7 deposed_leader)); vm_compute; reflexivity. Qed.

(** Node 1 has applied two entries, node 2 leads term 2 later and has applied four. *)
Lemma state_machine_safety_witness :
  lastApplied_ (node_of committed3 1) = 2 /\ lastApplied_ (node_of deposed3 2) = 4 /\
  is_Some (at_ 2 (log_ (node_of committed3 1))) /\
  at_ 2 (log_ (node_of deposed3 2)) = at_ 2 (log_ (node_of committed3 1)).
Proof.
  split; [vm_compute; reflexivity|]; split; [vm_compute; reflexivity|].
  apply (state_machine_safety sample_cfg KvStore_init (sample_opts <$> [1; 2; 3]) committed3 deposed3 1 2
           (node_of committed3 1) (node_of deposed3 2) sample_voters_nodup ltac:(discriminate) sample_ids
           committed3_reachable deposed3_reachable); vm_compute; (reflexivity || discriminate).
Defined.

Lemma leader_completeness_witness :
  role_ (node_of deposed3 2) = Leader /\ commitIndex_ (node_of committed3 1) = 2 /\
  is_Some (at_ 1 (log_ (node_of committed3 1))) /\
  at_ 1 (log_ (node_of deposed3 2)) = at_ 1 (log_ (node_of committed3 1)).
Proof.
  split; [vm_compute; reflexivity|]; split; [vm_compute; reflexivity|].
  apply (leader_completeness sample_cfg KvStore_init (sample_opts <$> [1; 2; 3]) committed3 deposed3 1 2
           (node_of committed3 1) (node_of deposed3 2) 1 sample_voters_nodup ltac:(discriminate) sample_ids
           committed3_reachable deposed3_reachable); vm_compute; (reflexivity || discriminate).
Defined.

(** The condition is what the loss of a committed command violates: the eighth
    event of [lost_commit] cuts the log of node 2, and the run, which satisfies
    every other condition, ends with two nodes that have applied different
    entries at index 2. *)
Lemma lost_commit_cuts :
  exists c, run_uncut sample_cfg KvStore_init (take 7 lost_commit) group3 = Some c /\
    bool_decide (cutting c (EvDeliver 1 2000)) = true /\
    exists c', run_plain sample_cfg KvStore_init (drop 7 lost_commit) c = Some c' /\
      appliedTerm c' 1 2 = Some 1 /\ appliedTerm c' 3 2 = Some 2.
Proof.
  eexists; split; [vm_compute; reflexivity|]; split; [vm_compute; reflexivity|].
  eexists; split; [vm_compute; reflexivity|]; split; vm_compute; reflexivity.
Qed.
