(* ===== verification/RaftValidity.v ===== *)
(** * Validity: replicas execute only what clients proposed

    Every command in a log, in a request under way or applied by a state machine
    is one that some call of [propose] was given.  The argument is local: each
    method of [RaftNode] keeps a property of log entries that holds of every
    entry that is no command and of the command being proposed. *)
From stdpp Require Import base tactics list gmap numbers strings sorting relations.
From Stdlib Require Import Ascii NArith Lia.
From S2P Require Import Prelude.
From S2P Require Import Buffer.
From S2P Require Import Types.
From S2P Require Import RpcMessages.
From S2P Require Import PersistentLog.
From S2P Require Import StateMachine.
From S2P Require Import KvStore.
From S2P Require Import RaftNode.
From S2P Require Import RaftNodeFacts.
From S2P Require Import RaftCommit.
From S2P Require Import RaftHandlers.
From S2P Require Import Cluster.
From S2P Require Import ClusterTraces.
From S2P Require Import RaftInvariant.
From S2P Require Import ElectionSafety.
From S2P Require Import RaftLogMoves.
From S2P Require Import LogMatching.

Local Open Scope N_scope.

Section keeping.
Context {S : Type} `{StateMachine S}.
Implicit Types n : RaftNode S.
Context (Q : LogEntry -> Prop) (HQ : forall e, e_type e <> Command -> Q e).

(** ** Properties of entries that the methods keep *)
Definition all_log n : Prop := Forall Q (entries_ (log_ n)).
Definition all_sent (s : Send) : Prop :=
  match s with SendAppendEntries _ r _ => Forall Q (ae_entries r) | _ => True end.

Lemma all_append es l : Forall Q (entries_ l) -> Forall Q es -> Forall Q (entries_ (appendAndSync es l)).
Proof.
  intros Hl Hes; destruct es as [|e es]; [done|]; cbv [appendAndSync]; apply Forall_app; split; [|done].
  destruct (_ <? nlen _); [by apply Forall_take|done].
Qed.

Lemma all_compact idx t b l : Forall Q (entries_ l) -> Forall Q (entries_ (compactUpTo idx t b l)).
Proof.
  intros Hl; unfold compactUpTo; destruct (idx <=? _); [done|].
  change (entries_ (with_dir _ ?m)) with (entries_ m); unfold compact_entries; cbn [entries_].
  destruct (_ <=? nlen _); [by apply Forall_drop|done].
Qed.

Lemma all_same n n' : same_log (log_ n) (log_ n') -> all_log n -> all_log n'.
Proof. unfold all_log; by intros (-> & _). Qed.

Lemma all_follower term leader n : all_log n -> all_log (becomeFollower term leader n).
Proof. apply all_same; by destruct (becomeFollower_spec term leader n) as (_ & _ & _ & _ & ? & _). Qed.

Lemma all_apply n n' : applyCommittedEntries n = Ok n' -> all_log n -> all_log n'.
Proof. intros Hr; unfold all_log; by rewrite (fr_log _ _ (applyCommittedEntries_frame _ _ Hr)). Qed.

Lemma all_advance n n' : tryAdvanceCommitIndex n = Ok n' -> all_log n -> all_log n'.
Proof. intros Hr; unfold all_log; by rewrite (fr_log _ _ (tryAdvance_frame _ _ Hr)). Qed.

Lemma all_propose b t n n' r :
  (forall term idx, Q (mkLogEntry term idx t b)) -> propose b t n = Ok (n', r) -> all_log n -> all_log n'.
Proof.
  intros Hb; unfold propose; intros Hr Hn; case_decide; inv_ok; simplify_eq; [|done].
  eapply all_advance; [done|]; apply all_append; [done|by constructor].
Qed.

Lemma all_after i m l : Forall Q (entries_ l) -> Forall Q (entriesAfter i m l).
Proof.
  intros Hl; apply Forall_forall; intros e; unfold entriesAfter.
  destruct (_ <? _); [by rewrite elem_of_nil|]; destruct (_ <=? _); [by rewrite elem_of_nil|].
  intros [He|He]%collect_subset; [by apply elem_of_nil in He|].
  apply list_elem_of_lookup in He as [k Hk]; rewrite lookup_drop in Hk; exact (Forall_lookup_1 _ _ _ _ Hl Hk).
Qed.

Lemma all_broadcast n : all_log n -> Forall all_sent (broadcastAppendEntries n).
Proof.
  intros Hn; unfold broadcastAppendEntries; case_decide; [|done].
  apply Forall_forall; intros s Hs; apply list_elem_of_In, in_flat_map in Hs as (p & _ & Hs).
  destruct (_ =? _); [done|]; destruct (_ <=? _);
    unfold sendInstallSnapshotTo, sendAppendEntriesTo in Hs; case_decide; try done; destruct Hs as [<-|[]]; [done|].
  by apply all_after.
Qed.

Lemma all_leader n n' ss : becomeLeader n = Ok (n', ss) -> all_log n -> all_log n' /\ Forall all_sent ss.
Proof.
  unfold becomeLeader; case_decide; intros Hr Hn; inv_ok; simplify_eq; [|done].
  match goal with H1 : propose _ _ ?x = Ok _ |- _ => set (m := x) in * end.
  assert (all_log m) as Hm.
  { assert (log_ m = log_ n) as E; [|unfold all_log; by rewrite E].
    unfold m; match goal with |- context [fold_left _ ?vs ?x] =>
      destruct (reset_peers_fields vs (lastIndex (log_ n)) x) as (_ & _ & E & _); exact E end. }
  destruct x as [m1 r]; match goal with H1 : propose _ _ m = Ok _, H2 : tryAdvanceCommitIndex _ = Ok _ |- _ =>
    apply all_propose in H1; [|intros; by apply HQ|done]; apply all_advance in H2; [|done] end.
  split; [done|by apply all_broadcast].
Qed.

Lemma all_candidate n n' ss : becomeCandidate n = Ok (n', ss) -> all_log n -> all_log n' /\ Forall all_sent ss.
Proof.
  unfold becomeCandidate; set (m0 := resetElectionDeadline _); intros Hr Hn.
  assert (all_log m0) as Hm by exact Hn; clearbody m0.
  destruct (_ && _); inv_ok; [by simplify_eq|]; destruct (_ <=? 1); inv_ok; [eapply all_leader; [exact Hr|exact Hm]|].
  simplify_eq; split; [exact Hm|]; apply Forall_forall; intros s Hs.
  apply list_elem_of_In, in_flat_map in Hs as (p & _ & Hs); destruct (p =? _); [done|]; by destruct Hs as [<-|[]].
Qed.

Lemma all_voted t k resp n n' ss :
  onRequestVoteResp t k true resp n = Ok (n', ss) -> all_log n -> all_log n' /\ Forall all_sent ss.
Proof.
  unfold onRequestVoteResp; cbn [negb]; intros Hr Hn.
  destruct (_ || _); inv_ok; [by simplify_eq|]; destruct (_ <? _); inv_ok; [simplify_eq; split; [by apply all_follower|done]|].
  destruct (rvr_voteGranted resp); inv_ok; [|by simplify_eq]; destruct (_ <=? _); inv_ok; [|by simplify_eq].
  by eapply all_leader.
Qed.

Lemma all_acked peer t resp n n' : onAppendEntriesResp peer t true resp n = Ok n' -> all_log n -> all_log n'.
Proof.
  unfold onAppendEntriesResp; cbn [negb]; intros Hr Hn.
  destruct (_ <? _); inv_ok; [by apply all_follower|]; destruct (_ || _); inv_ok; [done|].
  destruct (aer_success resp); inv_ok; [|done]; by eapply all_advance.
Qed.

Lemma all_installed peer idx resp n : all_log n -> all_log (onInstallSnapshotResp peer idx true resp n).
Proof. intros Hn; unfold onInstallSnapshotResp; cbn [negb]; destruct (_ <? _); [by apply all_follower|done]. Qed.

Lemma all_polled req n : all_log n -> all_log (handleRequestVote req n).1.
Proof.
  pose proof (handleRequestVote_facts req n) as Hf; destruct (handleRequestVote req n) as [n' resp].
  destruct Hf as (_ & _ & _ & _ & _ & Hl); by apply all_same.
Qed.

Lemma all_heard r n n' resp :
  Forall Q (ae_entries r) -> handleAppendEntries r n = Ok (n', resp) -> all_log n -> all_log n'.
Proof.
  intros Hr; unfold handleAppendEntries; destruct (_ <? _); intros Hx Hn; inv_ok; [by simplify_eq|].
  pose proof (all_follower (ae_term r) (ae_leaderId r) n Hn) as Hm0; set (m0 := becomeFollower _ _ n) in *; clearbody m0.
  assert (all_log (set_leaderId (ae_leaderId r) (resetElectionDeadline m0))) as Hm by exact Hm0.
  set (m := set_leaderId _ _) in *; clearbody m; destruct (checkPrev r (log_ m)); inv_ok; [by simplify_eq|].
  simplify_eq; eapply all_apply; [done|].
  set (m1 := match ae_entries r with [] => m | _ => _ end); assert (all_log m1) as Hm1.
  { unfold m1; destruct (ae_entries r) as [|e es]; [done|]; by apply all_append. }
  clearbody m1; by destruct (commitIndex_ m1 <? _).
Qed.

Lemma all_snapshot r n n' resp : handleInstallSnapshot r n = Ok (n', resp) -> all_log n -> all_log n'.
Proof.
  unfold handleInstallSnapshot; destruct (_ <? _); intros Hx Hn; inv_ok; [by simplify_eq|].
  pose proof (all_follower (is_term r) (is_leaderId r) n Hn) as Hm; set (m := becomeFollower _ _ n) in *; clearbody m.
  destruct (_ <=? _); inv_ok; simplify_eq; [done|]; by apply all_compact.
Qed.

Lemma all_force n : all_log n -> all_log (forceSnapshot n).
Proof. intros Hn; unfold forceSnapshot; destruct (_ <=? _); [done|]; by apply all_compact. Qed.

Lemma all_loop now n n' ss : runLoopRound now n = Ok (n', ss) -> all_log n -> all_log n' /\ Forall all_sent ss.
Proof.
  unfold runLoopRound; intros Hr Hn; inv_ok; destruct x as [m s]; simplify_eq/=.
  assert (all_log m /\ Forall all_sent s) as [Hm Hs].
  { match goal with H : (if decide _ then _ else _) = Ok _ |- _ => rename H into Hx end; case_decide.
    - destruct (_ <=? _); inv_ok; simplify_eq; [|done]; split; [done|by apply all_broadcast].
    - destruct (_ <=? _); inv_ok; [by eapply all_candidate|by simplify_eq]. }
  split; [|done]; unfold maybeSnapshot; destruct (snapshotThresholdEntries _ <=? _); [by apply all_force|done].
Qed.
End keeping.

(** ** The group *)
Section validity.
Context {S : Type} `{StateMachine S}.
Context (cfg : ClusterConfig) (freshSm : S).
Implicit Types (c : Cluster S) (n : RaftNode S).

(** The commands a schedule hands to [propose]. *)
Definition proposal (ev : Event) : option bytes := match ev with EvPropose _ b => Some b | _ => None end.
Definition proposals (evs : list Event) : list bytes := omap proposal evs.

Definition requested (bs : list bytes) (e : LogEntry) : Prop := e_type e = Command -> e_data e ∈ bs.

Definition packet_valid (bs : list bytes) (p : Packet) : Prop :=
  match p with Request _ _ s => all_sent (requested bs) s | _ => True end.

Record valid (bs : list bytes) c : Prop := {
  va_nodes : forall i n, nodes c !! i = Some n -> all_log (requested bs) n;
  va_net : Forall (packet_valid bs) (net c)
}.

Lemma requested_other bs e : e_type e <> Command -> requested bs e.
Proof. by intros ? ?. Qed.

#[local] Hint Resolve requested_other : core.

Lemma requested_mono bs bs' e : bs ⊆ bs' -> requested bs e -> requested bs' e.
Proof. intros Hs He Hc; by apply Hs, He. Qed.

Lemma valid_mono bs bs' c : bs ⊆ bs' -> valid bs c -> valid bs' c.
Proof.
  intros Hs [Hn Hp]; split.
  - intros i n Hi; eapply Forall_impl; [by eapply Hn|]; intros e; by apply requested_mono.
  - eapply Forall_impl; [exact Hp|]; intros [src inc [| |]| | |]; try done; intros He.
    eapply Forall_impl; [exact He|]; intros e; by apply requested_mono.
Qed.

Lemma valid_update bs c c' i n' rest :
  valid bs c -> nodes c' = <[i := n']> (nodes c) -> net c' = rest -> all_log (requested bs) n' ->
  Forall (packet_valid bs) rest -> valid bs c'.
Proof.
  intros [Hn _] Hns Hnet Hn' Hr; split; [|by rewrite Hnet].
  intros j m; rewrite Hns, lookup_insert; case_decide; [by intros [= <-]|apply Hn].
Qed.

Lemma valid_launch bs i inc ss : Forall (all_sent (requested bs)) ss -> Forall (packet_valid bs) (launch i inc ss).
Proof. intros Hs; unfold launch; by apply Forall_fmap. Qed.

Lemma valid_shrink bs c c' : valid bs c -> nodes c' = nodes c -> net c' ⊆ net c -> valid bs c'.
Proof.
  intros [Hn Hp] E Hs; split; [by rewrite E|]; rewrite Forall_forall in *; intros p ?; by apply Hp, Hs.
Qed.

Lemma valid_request bs c c' k src inc s now :
  valid bs c -> net c !! k = Some (Request src inc s) -> deliverRequest c src inc s now (delete k (net c)) = Some c' ->
  valid bs c'.
Proof.
  intros Hv Hk Hd; pose proof (Forall_lookup_1 _ _ _ _ (va_net _ _ Hv) Hk) as Hs.
  assert (Forall (packet_valid bs) (delete k (net c))) as Hrest by (by apply Forall_delete, Hv).
  destruct s as [peer r t m|peer r t|peer r idx]; simpl in Hd;
    (destruct (nodes c !! peer) as [n|] eqn:Hi; [|simplify_eq/=; by eapply valid_shrink; [exact Hv| |apply delete_incl]]);
    pose proof (va_nodes _ _ Hv _ _ Hi : all_log (requested bs) (set_now now n)) as Hn.
  - pose proof (all_polled _ r _ Hn) as Hp; destruct (handleRequestVote r (set_now now n)) as [n' resp]; simplify_eq/=.
    eapply valid_update; [done..|]; apply Forall_app; split; [done|by repeat constructor].
  - destruct (handleAppendEntries r (set_now now n)) as [[n' resp]|] eqn:E; [|done]; simplify_eq/=.
    apply (all_heard _ _ _ _ _ Hs) in E; [|done].
    eapply valid_update; [done..|]; apply Forall_app; split; [done|by repeat constructor].
  - destruct (handleInstallSnapshot r (set_now now n)) as [[n' resp]|] eqn:E; [|done]; simplify_eq/=.
    apply (all_snapshot (requested bs)) in E; [|done].
    eapply valid_update; [done..|]; apply Forall_app; split; [done|by repeat constructor].
Qed.

Lemma valid_reply bs c c' k p now :
  valid bs c -> net c !! k = Some p -> deliverReply c p now (delete k (net c)) = Some c' -> valid bs c'.
Proof.
  intros Hv Hk Hd; assert (Forall (packet_valid bs) (delete k (net c))) as Hrest
    by (by apply Forall_delete, Hv).
  assert (c' = mkCluster (nodes c) (incarnation c) (delete k (net c)) -> valid bs c') as Hdrop
    by (intros ->; by eapply valid_shrink; [exact Hv| |apply delete_incl]).
  destruct p as [|dst inc peer t m resp|dst inc peer t resp|dst inc peer idx resp]; simpl in Hd; [done|..];
    (destruct (nodes c !! dst) as [n|] eqn:Hi; [|injection Hd as Hd; by apply Hdrop]);
    (destruct (inc =? incOf c dst); [|injection Hd as Hd; by apply Hdrop]);
    pose proof (va_nodes _ _ Hv _ _ Hi : all_log (requested bs) (set_now now n)) as Hn.
  - destruct (onRequestVoteResp t m true resp (set_now now n)) as [[n' ss]|] eqn:E; [|done]; simplify_eq/=.
    apply (all_voted (requested bs)) in E as [Hl Hs]; [|auto..].
    eapply valid_update; [done..|]; apply Forall_app; split; [done|by apply valid_launch].
  - destruct (onAppendEntriesResp peer t true resp (set_now now n)) as [n'|] eqn:E; [|done]; simplify_eq/=.
    apply (all_acked (requested bs)) in E; [|done]; by eapply valid_update.
  - simplify_eq/=; eapply valid_update; [done..| |done]; by apply all_installed.
Qed.

Lemma valid_event bs c c' ev g :
  Inv cfg (nodes c) (net c) g -> admissible c ev = true -> exec cfg freshSm c ev = Some c' ->
  valid bs c -> valid (bs ++ option_list (proposal ev)) c'.
Proof.
  intros HI Ha Hx Hv0; assert (valid (bs ++ option_list (proposal ev)) c) as Hv
    by (eapply valid_mono; [|exact Hv0]; set_solver); clear Hv0.
  assert (forall b, proposal ev = Some b -> b ∈ bs ++ option_list (proposal ev)) as Hprop by (intros b ->; set_solver).
  set (bs' := bs ++ _) in *; clearbody bs'.
  destruct ev as [i now|k now|k|k|i b|i|i x a|i x|i rng now]; simpl in Ha, Hx; try done;
    apply bind_Some_inv in Hx as (n & Hi & Hx); try pose proof (va_nodes _ _ Hv _ _ Hi) as Hn.
  - destruct (running_ n); [|done]; apply bind_Some_inv in Hx as ([n' ss] & Hr%of_outcome_Some & Hx); simplify_eq/=.
    destruct (all_loop _ (requested_other bs') _ _ _ _ Hr Hn) as [Hl Hs].
    eapply valid_update; [done..|]; apply Forall_app; split; [apply Hv|by apply valid_launch].
  - destruct n; [by eapply valid_request|by eapply valid_reply..].
  - simplify_eq/=; eapply valid_shrink; [exact Hv|done|apply delete_incl].
  - destruct n; [|done..]; simplify_eq/=; eapply valid_shrink; [exact Hv|done|].
    intros q; cbn [net]; rewrite elem_of_app, list_elem_of_singleton; intros [?| ->]; [done|by eapply list_elem_of_lookup_2].
  - apply bind_Some_inv in Hx as ([n' r] & Hr%of_outcome_Some & Hx); simplify_eq/=.
    apply (all_propose (requested bs')) in Hr; [|intros t idx _; by apply Hprop|done].
    eapply valid_update; [done..|apply Hv].
  - simplify_eq/=; eapply valid_update; [done..|by apply all_force|apply Hv].
  - apply bind_Some_inv in Hx as (n' & Hr%of_outcome_Some & Hx); simplify_eq/=.
    eapply valid_update; [done..| |apply Hv].
    unfold newRaftNode in Hr; rewrite (lo_durable _ (no_log _ _ _ (co_nodes _ _ _ (proj1 HI) _ _ Hi))) in Hr; by inv_ok.
Qed.

Context (Hnd : NoDup (voters cfg)) (Hne : voters cfg <> []).

Lemma valid_run evs bs c c' g :
  Inv cfg (nodes c) (net c) g -> run_admissible cfg freshSm evs c = Some c' -> valid bs c -> valid (bs ++ proposals evs) c'.
Proof.
  revert bs c g; induction evs as [|ev evs IH]; intros bs c g HI Hr Hv; simpl in Hr.
  - injection Hr as <-; by rewrite app_nil_r.
  - destruct (admissible c ev) eqn:Ha; [|done]; apply bind_Some_inv in Hr as (c1 & H1 & H2).
    destruct (step_inv cfg freshSm Hnd Hne _ _ _ HI (step_event _ _ _ _ _ Ha H1)) as (g1 & _ & HI1).
    pose proof (valid_event _ _ _ _ _ HI Ha H1 Hv) as Hv1; eapply (IH _ _ _ HI1 H2) in Hv1.
    eapply valid_mono; [|exact Hv1]; unfold proposals; simpl; destruct (proposal ev); set_solver.
Qed.

Lemma fresh_valid os : valid [] (freshCluster cfg freshSm os).
Proof.
  split; [|constructor]; intros i n (o & _ & _ & Hf)%freshCluster_nodes; unfold freshNode in Hf.
  apply bind_Some_inv in Hf as (m & Hm%of_outcome_Some & Hf); simplify_eq.
  unfold newRaftNode in Hm; change (loadFromDisk ∅) with (Ok (mkPersistentLog ∅ 0 0 0 0 [])) in Hm.
  inv_ok; constructor.
Qed.
End validity.

(** ** The theorem *)
Section theorems.
Context {S : Type} `{StateMachine S}.

(** C6: validity. In a group with a fixed membership that starts from empty
    directories, each method running as one step, every command in the log of any
    node was handed to [propose] by an event of the run: elections, replication,
    retransmission, cuts, snapshots, crashes and restarts add no command of their
    own and change none. *)
Theorem only_proposed_commands (cfg : ClusterConfig) (freshSm : S) (os : list RaftOptions) (evs : list Event)
    (c : Cluster S) (i : NodeId) (n : RaftNode S) (e : LogEntry)
    (Hnd : NoDup (voters cfg)) (Hne : voters cfg <> []) (Hos : Forall (fun o => 0 < id o < U32) os)
    (Hr : run_admissible cfg freshSm evs (freshCluster cfg freshSm os) = Some c)
    (Hi : nodes c !! i = Some n) (He : e ∈ entries_ (log_ n)) (Hc : e_type e = Command) :
  e_data e ∈ proposals evs.
Proof.
  pose proof (valid_run cfg freshSm Hnd Hne evs [] _ c ∅ (freshCluster_inv cfg freshSm os Hos) Hr (fresh_valid cfg freshSm os)) as Hv.
  exact (proj1 (Forall_forall _ _) (va_nodes _ _ Hv _ _ Hi) _ He Hc).
Qed.

End theorems.

(** Node 2 holds the command of the deposed leader, 3 its own. *)
Lemma only_proposed_commands_witness :
  exists c n, run_admissible sample_cfg KvStore_init deposed_leader group3 = Some c /\ nodes c !! 2 = Some n /\
    nlen (entries_ (log_ n)) = 4 /\ putCmd "a" 1 ∈ proposals deposed_leader.
Proof.
  eexists (default (mkCluster ∅ ∅ []) (run_admissible sample_cfg KvStore_init deposed_leader group3)),
    (node_of (default (mkCluster ∅ ∅ []) (run_admissible sample_cfg KvStore_init deposed_leader group3)) 2).
  split; [vm_compute; reflexivity|]; split; [vm_compute; reflexivity|]; split; [vm_compute; reflexivity|].
  apply (only_proposed_commands sample_cfg KvStore_init (sample_opts <$> [1; 2; 3]) deposed_leader
           (default (mkCluster ∅ ∅ []) (run_admissible sample_cfg KvStore_init deposed_leader group3)) 2
           (node_of (default (mkCluster ∅ ∅ []) (run_admissible sample_cfg KvStore_init deposed_leader group3)) 2)
           (mkLogEntry 1 2 Command (putCmd "a" 1)) sample_voters_nodup ltac:(discriminate) sample_ids);
    [vm_compute; reflexivity|vm_compute; reflexivity| |reflexivity].
  apply (list_elem_of_lookup_2 _ 1); vm_compute; reflexivity.
Defined.
