(* ===== verification/RaftRefinement.v ===== *)
(** * The replicated group implements one state machine

    The specification has no terms, votes, messages or logs: the commands that
    were requested, one growing sequence of chosen entries, and for each replica
    how far it has executed that sequence.  Every run of the group, with its
    elections, retransmissions, losses, crashes and restarts, is a run of this
    specification in which each replica's state is the execution of a prefix of
    the chosen sequence.  The runs are those of [StateMachineSafety]. *)
From stdpp Require Import base tactics list gmap numbers strings sorting relations.
From Stdlib Require Import Ascii NArith Lia.
From S2P Require Import Prelude.
From S2P Require Import Buffer.
From S2P Require Import Types.
From S2P Require Import RpcMessages.
From S2P Require Import PersistentLog.
From S2P Require Import StateMachine.
From S2P Require Import KvStore.
From S2P Require Import RaftNode.
From S2P Require Import RaftNodeFacts.
From S2P Require Import RaftCommit.
From S2P Require Import RaftHandlers.
From S2P Require Import Cluster.
From S2P Require Import ClusterTraces.
From S2P Require Import RaftInvariant.
From S2P Require Import ElectionSafety.
From S2P Require Import RaftLogMoves.
From S2P Require Import LogMatching.
From S2P Require Import RaftActs.
From S2P Require Import LeaderCompleteness.
From S2P Require Import StateMachineSafety.
From S2P Require Import RaftValidity.

Local Open Scope N_scope.

(** ** The specification *)
Record Replicated : Type := mkReplicated {
  asked : list bytes;
  chosen : list LogEntry;
  position : gmap NodeId nat
}.

(** What one event may do.  A command becomes chosen only when it was requested
    and a replica executes it; a replica never goes back, except by a restart,
    which starts it from the beginning. *)
Inductive spec_step (ev : Event) (s : Replicated) : Replicated -> Prop :=
| sp_idle : spec_step ev s (mkReplicated (asked s ++ option_list (proposal ev)) (chosen s) (position s))
| sp_execute i p p' new :
    isRestart ev = false -> position s !! i = Some p -> (p <= p')%nat -> (p' <= length (chosen s ++ new))%nat ->
    (new = [] \/ p' = length (chosen s ++ new)) ->
    Forall (requested (asked s ++ option_list (proposal ev))) new ->
    spec_step ev s (mkReplicated (asked s ++ option_list (proposal ev)) (chosen s ++ new) (<[i := p']> (position s)))
| sp_restart i p rng now :
    ev = EvRestart i rng now -> position s !! i = Some p ->
    spec_step ev s (mkReplicated (asked s) (chosen s) (<[i := 0%nat]> (position s))).

Fixpoint spec_run (evs : list Event) (s s' : Replicated) : Prop :=
  match evs with
  | [] => s' = s
  | ev :: evs' => exists s1, spec_step ev s s1 /\ spec_run evs' s1 s'
  end.

(** In the specification the past is fixed: what is chosen stays chosen. *)
Lemma spec_run_chosen evs s s' : spec_run evs s s' -> chosen s `prefix_of` chosen s'.
Proof.
  revert s; induction evs as [|ev evs IH]; intros s; simpl; [by intros ->|].
  intros (s1 & Hs & Hr%IH); etransitivity; [|exact Hr]; destruct Hs; simpl; [done|by apply prefix_app_r|done].
Qed.

Section refinement.
Context {S : Type} `{StateMachine S}.
Context (cfg : ClusterConfig) (freshSm : S) (Hnd : NoDup (voters cfg)) (Hne : voters cfg <> []).
Implicit Types (c : Cluster S) (n : RaftNode S) (ns : gmap N (RaftNode S)) (s : Replicated)
  (g : gset (N * N * N)) (T : Terms) (A : Acks) (P : Polls).

Definition positions c : gmap NodeId nat := (fun n => N.to_nat (lastApplied_ n)) <$> nodes c.

(** A replica has the first entries of the chosen sequence and their effect. *)
Definition replica (l : list LogEntry) n : Prop :=
  (N.to_nat (lastApplied_ n) <= length l)%nat /\
  take (N.to_nat (lastApplied_ n)) (entries_ (log_ n)) = take (N.to_nat (lastApplied_ n)) l /\
  sm_run (take (N.to_nat (lastApplied_ n)) l) freshSm = Ok (sm_ n).

Record represents c s : Prop := {
  rp_position : position s = positions c;
  rp_replica : forall i n, nodes c !! i = Some n -> replica (chosen s) n
}.

(** The relation the induction keeps. *)
Record simulated c s g T A P : Prop := {
  si_group : group cfg freshSm c g T A P;
  si_valid : valid (asked s) c;
  si_chosen : exists u, settled cfg T A u (nlen (chosen s)) (chosen s);
  si_represents : represents c s
}.

Lemma replica_settled ns g T A P u l n :
  complete cfg ns g T A P -> settled cfg T A u (nlen l) l -> node_settled cfg freshSm T A n ->
  lastApplied_ n <= nlen l -> replica l n.
Proof.
  intros HC Hl [_ Ha Hs] Hle; unfold nlen in *; split; [lia|].
  assert (take (N.to_nat (lastApplied_ n)) (entries_ (log_ n)) = take (N.to_nat (lastApplied_ n)) l) as E
    by (eapply (settled_agree cfg); [done|exact Ha|exact Hl|lia|unfold nlen; lia]).
  by rewrite <- E.
Qed.

(** The chosen sequence of a settled prefix and a longer one. *)
Lemma chosen_extends ns g T A P u l n :
  complete cfg ns g T A P -> settled cfg T A u (nlen l) l -> node_settled cfg freshSm T A n -> nlen l <= lastApplied_ n ->
  exists new, take (N.to_nat (lastApplied_ n)) (entries_ (log_ n)) = l ++ new /\
    length (l ++ new) = N.to_nat (lastApplied_ n) /\ settled cfg T A (nodeTerm n) (nlen (l ++ new)) (l ++ new).
Proof.
  intros HC Hl [_ Ha _] Hle; pose proof (settled_le cfg _ _ _ _ _ Ha) as Hlen; unfold nlen in *.
  assert (take (length l) (entries_ (log_ n)) = l) as E.
  { rewrite <- (firstn_all l) at 2; eapply (settled_agree cfg); [done|exact Ha|exact Hl|lia|unfold nlen; lia]. }
  set (k := N.to_nat (lastApplied_ n)) in *; exists (drop (length l) (take k (entries_ (log_ n)))).
  assert (take k (entries_ (log_ n)) = l ++ drop (length l) (take k (entries_ (log_ n)))) as Eq.
  { rewrite <- (take_drop (length l) (take k _)) at 1; f_equal; rewrite take_take, Nat.min_l by lia; exact E. }
  rewrite <- Eq; assert (length (take k (entries_ (log_ n))) = k) as Hk by (rewrite length_take; lia).
  split_and!; [done|done|]; unfold nlen; rewrite Hk; subst k; rewrite N2Nat.id.
  eapply (settled_below cfg); [exact Ha|done|]; by rewrite take_take, Nat.min_id.
Qed.

(** What a replica has applied past the chosen sequence becomes chosen. *)
Lemma chosen_grows c g T A P u bs l i n :
  group cfg freshSm c g T A P -> valid bs c -> settled cfg T A u (nlen l) l -> nodes c !! i = Some n ->
  exists new u', (new = [] \/ N.to_nat (lastApplied_ n) = length (l ++ new)) /\ lastApplied_ n <= nlen (l ++ new) /\
    settled cfg T A u' (nlen (l ++ new)) (l ++ new) /\ Forall (requested bs) new.
Proof.
  intros HG Hv Hs Hi; destruct (decide (lastApplied_ n <= nlen l)) as [?|Hgt]; [exists [], u; rewrite app_nil_r; by auto|].
  destruct (chosen_extends _ _ _ _ _ _ _ _ (gr_complete _ _ _ _ _ _ _ HG) Hs (gr_nodes _ _ _ _ _ _ _ HG _ _ Hi))
    as (new & Htk & Hlen & Hs'); [lia|].
  exists new, (nodeTerm n); split_and!; [by right|unfold nlen; lia|done|].
  pose proof (Forall_take _ (N.to_nat (lastApplied_ n)) _ (va_nodes _ _ Hv _ _ Hi)) as Hall.
  rewrite Htk in Hall; by apply Forall_app in Hall as [_ ?].
Qed.

Lemma represents_update c c' s s' i n' g T A P u :
  represents c s -> group cfg freshSm c' g T A P -> settled cfg T A u (nlen (chosen s')) (chosen s') ->
  chosen s `prefix_of` chosen s' -> nodes c' = <[i := n']> (nodes c) -> lastApplied_ n' <= nlen (chosen s') ->
  position s' = <[i := N.to_nat (lastApplied_ n')]> (position s) -> represents c' s'.
Proof.
  intros [Hp Hr] HG Hs Hpre Hns Hle Hpos; split.
  - unfold positions; by rewrite Hpos, Hns, fmap_insert, Hp.
  - intros j m Hj; eapply (replica_settled (nodes c')); [apply HG|exact Hs|by eapply HG|].
    rewrite Hns, lookup_insert in Hj; case_decide; [by injection Hj as <-|].
    destruct (Hr _ _ Hj) as (Hm & _); apply prefix_length in Hpre; unfold nlen; lia.
Qed.

(** The files of an unsnapped node hold no snapshot: a restart applies from the start. *)
Lemma restart_position c c' i rng now g T A P :
  group cfg freshSm c g T A P -> exec cfg freshSm c (EvRestart i rng now) = Some c' ->
  exists n n', nodes c !! i = Some n /\ nodes c' = <[i := n']> (nodes c) /\ lastApplied_ n' = 0.
Proof.
  intros HG Hx; apply bind_Some_inv in Hx as (n & Hi & Hx); apply bind_Some_inv in Hx as (n' & Hr%of_outcome_Some & [= Hx]).
  exists n, (start n'); split_and!; [done|by rewrite <- Hx|].
  unfold newRaftNode in Hr; rewrite (lo_durable _ (no_log _ _ _ (co_nodes _ _ _ (proj1 (gr_inv _ _ _ _ _ _ _ HG)) _ _ Hi))) in Hr.
  inv_ok; by destruct (li_plain _ _ _ _ _ (gr_logs _ _ _ _ _ _ _ HG) _ _ Hi).
Qed.

Lemma simulated_restart c c' s i rng now g T A P g' T' A' P' u :
  simulated c s g T A P -> exec cfg freshSm c (EvRestart i rng now) = Some c' -> group cfg freshSm c' g' T' A' P' ->
  valid (asked s) c' -> settled cfg T' A' u (nlen (chosen s)) (chosen s) ->
  exists s', spec_step (EvRestart i rng now) s s' /\ simulated c' s' g' T' A' P'.
Proof.
  intros [HG _ _ HR] Hx HG' Hv Hs; destruct (restart_position _ _ _ _ _ _ _ _ _ HG Hx) as (n & n' & Hi & Hns & H0).
  eexists; split; [eapply sp_restart; [done|]|].
  - rewrite (rp_position _ _ HR); unfold positions; by rewrite lookup_fmap, Hi.
  - split; [done|done|by exists u|]; eapply represents_update; [exact HR|exact HG'|exact Hs|done|exact Hns|lia|].
    simpl; by rewrite H0.
Qed.

Lemma simulated_event c c' ev s g T A P :
  simulated c s g T A P -> admissible c ev = true -> exec cfg freshSm c ev = Some c' -> roomy c -> unsnapped c' -> ~ cutting c ev ->
  exists s' g' T' A' P', spec_step ev s s' /\ simulated c' s' g' T' A' P'.
Proof.
  intros HS Ha Hx Hroom Hun Hcut; pose proof HS as [HG Hv [u Hs] HR].
  destruct (group_event cfg freshSm Hnd Hne _ _ _ _ _ _ _ HG Ha Hx Hroom Hun Hcut) as (Happ & g' & T' & A' & P' & HT & HA & HG').
  apply (valid_event cfg freshSm _ _ _ _ _ (gr_inv _ _ _ _ _ _ _ HG) Ha Hx) in Hv.
  eapply (settled_mono cfg _ T' _ A') in Hs; [|done..|reflexivity|reflexivity].
  destruct (isRestart ev) eqn:Hre.
  { destruct ev as [| | | | | | | |i rng now]; try done; rewrite app_nil_r in Hv.
    destruct (simulated_restart _ _ _ _ _ _ _ _ _ _ _ _ _ _ _ HS Hx HG' Hv Hs) as (s' & ? & ?); by exists s', g', T', A', P'. }
  destruct Happ as [Hns|(i & n & n' & Hi & Hns & Hle)].
  { eexists _, g', T', A', P'; split; [apply sp_idle|]; split; [done|done|by exists u|].
    destruct HR as [Hp Hr]; split; unfold positions; by rewrite Hns. }
  assert (nodes c' !! i = Some n') as Hi' by (rewrite Hns; apply lookup_insert_eq).
  destruct (chosen_grows _ _ _ _ _ _ _ _ _ _ HG' Hv Hs Hi') as (new & u' & Hnew & Hlen & Hs' & Hreq).
  eexists _, g', T', A', P'; split.
  - eapply (sp_execute ev s i (N.to_nat (lastApplied_ n)) (N.to_nat (lastApplied_ n')) new); try done;
      [|specialize (Hle eq_refl); lia|unfold nlen in Hlen; lia].
    rewrite (rp_position _ _ HR); unfold positions; by rewrite lookup_fmap, Hi.
  - split; [done|done|by exists u'|].
    eapply represents_update; [exact HR|exact HG'|exact Hs'|by apply prefix_app_r|exact Hns|exact Hlen|done].
Qed.

Lemma simulated_run evs c c' s g T A P :
  simulated c s g T A P -> run_uncut cfg freshSm evs c = Some c' ->
  exists s' g' T' A' P', spec_run evs s s' /\ simulated c' s' g' T' A' P'.
Proof.
  revert c s g T A P; induction evs as [|ev evs IH]; intros c s g T A P HS; simpl.
  - intros [= <-]; by exists s, g, T, A, P.
  - destruct (admissible c ev) eqn:Ha; [|done]; case_bool_decide as Hr; [|done]; case_bool_decide as Hk; [|done]; cbn [andb].
    intros (c1 & H1 & H2)%bind_Some_inv; case_bool_decide as Hu; [|done].
    destruct (simulated_event _ _ _ _ _ _ _ _ HS Ha H1 Hr Hu Hk) as (s1 & g1 & T1 & A1 & P1 & Hs1 & HS1).
    destruct (IH _ _ _ _ _ _ HS1 H2) as (s' & g' & T' & A' & P' & Hrun & HS').
    exists s', g', T', A', P'; split; [by exists s1|done].
Qed.

(** The start: nothing requested, nothing chosen. *)
Definition spec_init (c : Cluster S) : Replicated := mkReplicated [] [] ((fun _ => 0%nat) <$> nodes c).

Lemma fresh_simulated os :
  Forall (fun o => 0 < id o < U32) os ->
  simulated (freshCluster cfg freshSm os) (spec_init (freshCluster cfg freshSm os)) ∅ ∅ ∅ ∅.
Proof.
  intros Hos; split; [by apply fresh_group|apply fresh_valid|exists 0; by left|].
  assert (forall i n, nodes (freshCluster cfg freshSm os) !! i = Some n -> lastApplied_ n = 0 /\ sm_ n = freshSm) as Hn
    by (intros i n Hi; by destruct (freshCluster_node _ _ _ _ _ Hi) as (_ & _ & _ & ? & ?)).
  split.
  - apply map_eq; intros i; unfold positions, spec_init; cbn [position]; rewrite !lookup_fmap.
    destruct (nodes (freshCluster cfg freshSm os) !! i) as [n|] eqn:E; [|done]; simpl; by destruct (Hn _ _ E) as [-> _].
  - intros i n Hi; destruct (Hn _ _ Hi) as [Hla Hsm]; unfold replica; rewrite Hla, Hsm; split_and!; [simpl; lia|done|done].
Qed.
End refinement.

(** ** The theorem *)
Section theorems.
Context {S : Type} `{StateMachine S}.

(** C2: the group implements one replicated state machine, when methods are not
    interrupted. Each call of a method of [RaftNode] (a round of the timer, a
    handler, a callback, [propose]) runs without interruption, as one step: the
    releases of [mu_] inside the methods are not interleaved ([applied_out_of_order]
    of [RaftRaces] breaks the claim when they are). Such a run of a group with a
    fixed membership from empty directories, without snapshots and in which no
    delivered request cuts a log it agrees with, is event by event a run of the
    specification: commands are chosen only when requested, the chosen sequence only
    grows, a replica only moves forward in it unless it restarts, and the state of
    every replica is the execution of the chosen entries up to its position. Vote
    requests are not duplicated; terms and indices stay below 2^64. *)
Theorem replication_refines (cfg : ClusterConfig) (freshSm : S) (os : list RaftOptions) (evs : list Event) (c : Cluster S)
    (Hnd : NoDup (voters cfg)) (Hne : voters cfg <> []) (Hos : Forall (fun o => 0 < id o < U32) os)
    (Hr : run_uncut cfg freshSm evs (freshCluster cfg freshSm os) = Some c) :
  exists s, spec_run evs (spec_init (freshCluster cfg freshSm os)) s /\ represents freshSm c s.
Proof.
  destruct (simulated_run cfg freshSm Hnd Hne evs _ _ _ _ _ _ _ (fresh_simulated cfg freshSm os Hos) Hr)
    as (s & g & T & A & P & Hrun & [_ _ _ HR]).
  by exists s.
Qed.

End theorems.

(** Two leaders and two commands: replica 2 has executed four entries at the end. *)
Lemma replication_refines_witness :
  lastApplied_ (node_of deposed3 2) = 4 /\
  exists s, spec_run deposed_leader (spec_init group3) s /\ represents KvStore_init deposed3 s.
Proof.
  split; [vm_compute; reflexivity|].
  apply (replication_refines sample_cfg KvStore_init (sample_opts <$> [1; 2; 3]) deposed_leader deposed3
           sample_voters_nodup ltac:(discriminate) sample_ids).
  vm_compute; reflexivity.
Defined.
