(* ===== verification/RaftLifecycle.v ===== *)
(** * raft/raft_node.cpp: the timer thread, [start], [stop] and the destructor

    [start] sets [running_] and starts the thread of [runLoop]; [stop] clears the
    flag with an exchange and joins the thread; the destructor calls [stop] and
    then destroys the members.  Calls may come from several threads, and each is
    modelled as the statements it consists of.  A [std::thread] that is assigned
    to or destroyed while it is joinable ends the process, and so does an
    exception that leaves [runLoop]; both are states of the model. *)
From stdpp Require Import base tactics list gmap numbers strings sorting relations.
From Stdlib Require Import Ascii NArith Lia.
From S2P Require Import Prelude.
From S2P Require Import Buffer.
From S2P Require Import Types.
From S2P Require Import PersistentLog.
From S2P Require Import StateMachine.
From S2P Require Import KvStore.
From S2P Require Import RaftNode.
From S2P Require Import RaftNodeFacts.
From S2P Require Import RaftCommit.
From S2P Require Import RaftHandlers.
From S2P Require Import Cluster.

Local Open Scope N_scope.


(** Where the timer thread is: before its first statement, at the test of the
    loop, in the body, or past the loop. *)
Inductive TimerThread : Type := Spawned | AtWhile | InBody | Returned.

#[global] Instance TimerThread_eq_dec : EqDecision TimerThread.
Proof. solve_decision. Defined.

(** The statements a call has still to execute. *)
Inductive Call : Type :=
| StartFlag | StartDeadline | StartThread
| StopExchange (destroying : bool) | StopJoinable (destroying : bool) | StopJoin (destroying : bool)
| DestroyMembers.

#[global] Instance Call_eq_dec : EqDecision Call.
Proof. solve_decision. Defined.

(** How the object or the process has ended. *)
Inductive Status : Type := Alive | Destroyed | Uncaught | ThreadOverwritten | ThreadDestroyed.

#[global] Instance Status_eq_dec : EqDecision Status.
Proof. solve_decision. Defined.

Section lifecycle.
Context {S : Type} `{StateMachine S}.
Implicit Types n : RaftNode S.

Record Life := mkLife {
  self : RaftNode S;
  loopThread_ : option TimerThread;  (* [None]: not joinable *)
  calls : list Call;
  status : Status;
  sent : list Send
}.
Implicit Types l : Life.

Definition set_self x l := mkLife x (loopThread_ l) (calls l) (status l) (sent l).
Definition set_thread x l := mkLife (self l) x (calls l) (status l) (sent l).
Definition set_calls x l := mkLife (self l) (loopThread_ l) x (status l) (sent l).
Definition set_status x l := mkLife (self l) (loopThread_ l) (calls l) x (sent l).
Definition send ss l := mkLife (self l) (loopThread_ l) (calls l) (status l) (sent l ++ ss).

Definition joinable l : bool := match loopThread_ l with Some _ => true | None => false end.

(** The constructor's object: no thread. *)
Definition constructed n : Life := mkLife n None [] Alive [].

(** ** One statement of each thread *)

(** [runLoop]; the body is one round at time [now]. *)
Definition timerStep (now : N) l : option Life :=
  match loopThread_ l with
  | Some Spawned => Some (set_thread (Some AtWhile) (set_self (set_lastHeartbeat now (self l)) l))
  | Some AtWhile => Some (set_thread (Some (if running_ (self l) then InBody else Returned)) l)
  | Some InBody =>
      match runLoopRound now (self l) with
      | Ok (n', ss) => Some (set_thread (Some AtWhile) (send ss (set_self n' l)))
      | Throw _ => Some (set_status Uncaught l)
      end
  | Some Returned | None => None
  end.

(** What follows [stop]: nothing, or the destruction of the members. *)
Definition afterStop (destroying : bool) : list Call := if destroying then [DestroyMembers] else [].

(** The next statement of call [c]; the result has the calls that replace it. *)
Definition callStep (c : Call) l : option (Life * list Call) :=
  match c with
  | StartFlag => Some (set_self (set_running true (self l)) l, [StartDeadline])
  | StartDeadline => Some (set_self (resetElectionDeadline (self l)) l, [StartThread])
  | StartThread =>
      match loopThread_ l with
      | None => Some (set_thread (Some Spawned) l, [])
      | Some _ => Some (set_status ThreadOverwritten l, [])
      end
  | StopExchange d =>
      Some (set_self (set_running false (self l)) l, if running_ (self l) then [StopJoinable d] else afterStop d)
  | StopJoinable d => Some (l, match loopThread_ l with Some _ => [StopJoin d] | None => afterStop d end)
  | StopJoin d =>
      if decide (loopThread_ l = Some Returned) then Some (set_thread None l, afterStop d) else None
  | DestroyMembers =>
      match loopThread_ l with
      | None => Some (set_status Destroyed l, [])
      | Some _ => Some (set_status ThreadDestroyed l, [])
      end
  end.

Inductive LEvent : Type :=
| LCall (c : Call)
| LAdvance (k : nat)
| LTimer (now : N)
| LOther (n' : RaftNode S).

(** A call of [start], [stop] or the destructor. *)
Definition entry (c : Call) : bool :=
  match c with StartFlag | StopExchange _ => true | _ => false end.

(** [LOther]: another thread runs a method, which leaves [running_] alone. *)
Definition lexec (ev : LEvent) l : option Life :=
  if negb (bool_decide (status l = Alive)) then None
  else match ev with
  | LCall c => if entry c then Some (set_calls (calls l ++ [c]) l) else None
  | LAdvance k =>
      c ← calls l !! k;
      '(l', cs) ← callStep c l;
      Some (set_calls (take k (calls l) ++ cs ++ drop (Datatypes.S k) (calls l)) l')
  | LTimer now => timerStep now l
  | LOther n' => if Bool.eqb (running_ n') (running_ (self l)) then Some (set_self n' l) else None
  end.

Fixpoint lrun (evs : list LEvent) l : option Life :=
  match evs with
  | [] => Some l
  | ev :: evs' => l' ← lexec ev l; lrun evs' l'
  end.

(** ** A round leaves [running_] alone *)
Lemma reset_peers_running vs last n :
  running_ (fold_left (fun n v => set_matchIndex (<[v := 0]> (matchIndex_ n))
     (set_nextIndex (<[v := add64 last 1]> (nextIndex_ n)) n)) vs n) = running_ n.
Proof. revert n; induction vs as [|v vs IH]; intros n; [done|]; simpl; by rewrite IH. Qed.

Lemma propose_running b t n n' r : propose b t n = Ok (n', r) -> running_ n' = running_ n.
Proof.
  unfold propose; intros Hr; case_decide; inv_ok; simplify_eq; [|done].
  match goal with H : tryAdvanceCommitIndex _ = Ok _ |- _ => by rewrite (fr_running _ _ (tryAdvance_frame _ _ H)) end.
Qed.

Lemma becomeLeader_running n n' ss : becomeLeader n = Ok (n', ss) -> running_ n' = running_ n.
Proof.
  unfold becomeLeader; intros Hr; case_decide; inv_ok; simplify_eq; [|done]; destruct x as [m r].
  match goal with H1 : propose _ _ _ = Ok _, H2 : tryAdvanceCommitIndex _ = Ok _ |- _ =>
    apply propose_running in H1; rewrite reset_peers_running in H1;
    rewrite (fr_running _ _ (tryAdvance_frame _ _ H2)); exact H1 end.
Qed.

Lemma becomeCandidate_running n n' ss : becomeCandidate n = Ok (n', ss) -> running_ n' = running_ n.
Proof.
  unfold becomeCandidate; set (m := resetElectionDeadline _); intros Hr.
  assert (running_ m = running_ n) as <- by done; clearbody m.
  destruct (_ && _); inv_ok; [by simplify_eq|]; destruct (_ <=? 1); inv_ok; [by apply becomeLeader_running in Hr|by simplify_eq].
Qed.

Lemma runLoopRound_running now n n' ss : runLoopRound now n = Ok (n', ss) -> running_ n' = running_ n.
Proof.
  unfold runLoopRound; intros Hr; inv_ok; destruct x as [m s]; simplify_eq/=.
  assert (running_ (maybeSnapshot m) = running_ m) as ->.
  { unfold maybeSnapshot, forceSnapshot; destruct (snapshotThresholdEntries _ <=? _); [|done]; by destruct (lastApplied_ m <=? _). }
  match goal with H : (if decide _ then _ else _) = Ok _ |- _ => rename H into Hx end; case_decide.
  - destruct (_ <=? _); inv_ok; by simplify_eq.
  - destruct (_ <=? _); inv_ok; [by apply becomeCandidate_running in Hx|by simplify_eq].
Qed.

(** ** [stop] and the timer thread *)
Definition isTimer (ev : LEvent) : bool := match ev with LTimer _ => true | _ => false end.
Definition callsStart (ev : LEvent) : bool := match ev with LCall StartFlag => true | _ => false end.

(** A pending call of [start], and one of [stop] that will join. *)
Definition starting (c : Call) : bool := match c with StartFlag | StartDeadline | StartThread => true | _ => false end.
Definition joining (c : Call) : bool := match c with StopJoinable _ | StopJoin _ => true | _ => false end.

(** The statements left to the timer thread once [running_] is false. *)
Definition timerLeft l : nat :=
  match loopThread_ l with
  | Some Spawned | Some InBody => 2
  | Some AtWhile => 1
  | Some Returned | None => 0
  end.

(** After the exchange of [stop], as long as nobody calls [start]. *)
Record stopping l : Prop := {
  sg_flag : running_ (self l) = false;
  sg_start : Forall (fun c => starting c = false) (calls l);
  sg_one : (length (List.filter joining (calls l)) <= 1)%nat;
  sg_thread : forall d, StopJoin d ∈ calls l -> loopThread_ l <> None
}.

Lemma calls_split k l c : calls l !! k = Some c -> calls l = take k (calls l) ++ c :: drop (Datatypes.S k) (calls l).
Proof. intros Hk; by rewrite take_drop_middle. Qed.

Lemma filter_absent {X} (f : X -> bool) (a : list X) x : (length (List.filter f a) = 0)%nat -> x ∈ a -> f x = false.
Proof.
  intros Ha Hx; destruct (f x) eqn:E; [|done]; exfalso.
  assert (In x (List.filter f a)) as Hin by (apply List.filter_In; split; [by apply list_elem_of_In|done]).
  by destruct (List.filter f a).
Qed.

(** A pending call is replaced by what is left of it. *)
Lemma stopping_replace a b c cs l l' :
  stopping l -> calls l = a ++ c :: b -> running_ (self l') = false -> Forall (fun c => starting c = false) cs ->
  (length (List.filter joining cs) <= length (List.filter joining [c]))%nat ->
  (forall d, StopJoin d ∈ cs -> loopThread_ l' <> None) -> loopThread_ l' = loopThread_ l \/ joining c = true ->
  stopping (set_calls (a ++ cs ++ b) l').
Proof.
  intros [_ Hs Ho Ht] Hsp Hf Hcs Hj Hnew Hth; rewrite Hsp in Hs, Ho, Ht.
  apply Forall_app in Hs as [Hsa Hsc]; apply Forall_cons in Hsc as [_ Hsb].
  rewrite List.filter_app in Ho; cbn [List.filter] in Ho, Hj; rewrite length_app in Ho.
  split; cbn [self calls loopThread_ set_calls]; [done|by repeat apply Forall_app_2| |].
  - rewrite !List.filter_app, !length_app; destruct (joining c); simpl in *; lia.
  - intros d; rewrite !elem_of_app; intros Hd; destruct (decide (StopJoin d ∈ cs)) as [?|Hncs]; [by eapply Hnew|].
    assert (StopJoin d ∈ a \/ StopJoin d ∈ b) as Hab by (destruct Hd as [?|[?|?]]; [by left|done|by right]).
    destruct Hth as [->|Hjc]; [apply (Ht d); rewrite elem_of_app, elem_of_cons; destruct Hab; [by left|by right; right]|].
    rewrite Hjc in Ho; simpl in Ho; destruct Hab as [Hd'|Hd']; apply (filter_absent joining) in Hd'; try done; lia.
Qed.

(** A statement of a pending call that is no part of [start]. *)
Lemma stopping_advance k l c l' cs :
  stopping l -> calls l !! k = Some c -> callStep c l = Some (l', cs) ->
  stopping (set_calls (take k (calls l) ++ cs ++ drop (Datatypes.S k) (calls l)) l') /\ (timerLeft l' <= timerLeft l)%nat.
Proof.
  intros Hst Hk Hc; pose proof (calls_split _ _ _ Hk) as Hsp.
  pose proof (Forall_lookup_1 _ _ _ _ (sg_start _ Hst) Hk) as Hnot; pose proof (sg_flag _ Hst) as Hf.
  destruct c as [| | |d|d|d|]; try done; simpl in Hc.
  - rewrite Hf in Hc; injection Hc as <- <-; split; [|done].
    eapply stopping_replace; [done|exact Hsp|done|..]; destruct d; try (by left); try (by repeat constructor);
      intros d' Hd; by repeat (apply elem_of_cons in Hd as [Hd|Hd] || apply elem_of_nil in Hd).
  - injection Hc as <- <-; split; [|done]; eapply stopping_replace; [done|exact Hsp|done|..|by left];
      destruct (loopThread_ l), d; try (by repeat constructor); try done; try (simpl; lia);
      intros d' Hd; by repeat (apply elem_of_cons in Hd as [Hd|Hd] || apply elem_of_nil in Hd).
  - case_decide as Hr; [|done]; injection Hc as <- <-; split; [|unfold timerLeft; rewrite Hr; simpl; lia].
    eapply stopping_replace; [done|exact Hsp|done|..|by right]; destruct d; try (by repeat constructor); try (simpl; lia);
      intros d' Hd; by repeat (apply elem_of_cons in Hd as [Hd|Hd] || apply elem_of_nil in Hd).
  - destruct (loopThread_ l) eqn:E; injection Hc as <- <-; (split; [|unfold timerLeft; simpl; rewrite E; lia]);
      (eapply stopping_replace; [done|exact Hsp|done|constructor|done|by intros d' Hd%elem_of_nil|by left]).
Qed.

Lemma stopping_timer now l l' : stopping l -> timerStep now l = Some l' ->
  stopping l' /\ (status l' = Alive -> (timerLeft l' < timerLeft l)%nat).
Proof.
  intros [Hf Hs Ho Ht] Hx; unfold timerStep in Hx; destruct (loopThread_ l) as [[]|] eqn:E; try done.
  - injection Hx as <-; split; [by split|]; intros _; unfold timerLeft; simpl; rewrite E; lia.
  - injection Hx as <-; rewrite Hf; split; [by split|]; intros _; unfold timerLeft; simpl; rewrite E; lia.
  - destruct (runLoopRound now (self l)) as [[n' ss]|] eqn:Er; injection Hx as <-.
    + apply runLoopRound_running in Er; split; [split; simpl; [congruence|done..]|]; intros _; unfold timerLeft; simpl; rewrite E; lia.
    + split; [split; simpl; [done..|by rewrite E]|done].
Qed.

Lemma stopping_event ev l l' :
  stopping l -> status l = Alive -> callsStart ev = false -> lexec ev l = Some l' ->
  stopping l' /\ (status l' = Alive -> (timerLeft l' + (if isTimer ev then 1 else 0) <= timerLeft l)%nat).
Proof.
  intros Hst Ha Hev; unfold lexec; rewrite bool_decide_true by done; cbn [negb]; destruct ev as [c|k|now|n']; intros Hx.
  - destruct (entry c) eqn:Hc; [|done]; injection Hx as <-; split; [|intros _; simpl; unfold timerLeft; simpl; lia].
    destruct Hst as [Hf Hs Ho Ht]; split; simpl; [done| | |].
    + apply Forall_app_2; [done|]; repeat constructor; by destruct c.
    + rewrite List.filter_app, length_app; destruct c; simpl; (done || lia).
    + intros d; rewrite elem_of_app, list_elem_of_singleton; intros [?| <-]; [by eapply Ht|done].
  - apply bind_Some_inv in Hx as (c & Hk & Hx); apply bind_Some_inv in Hx as ([m cs] & Hc & [= <-]).
    apply (stopping_advance k) in Hc as [H1 H2]; [|done..]; split; [done|]; intros _; unfold timerLeft in *; simpl in *; lia.
  - apply stopping_timer in Hx as [H1 H2]; [|done]; split; [done|]; intros Hl; simpl; specialize (H2 Hl); lia.
  - destruct (Bool.eqb _ _) eqn:E; [|done]; injection Hx as <-; apply Bool.eqb_prop in E.
    split; [destruct Hst; split; simpl; [congruence|done..]|]; intros _; unfold timerLeft; simpl; lia.
Qed.

Lemma stopping_run evs l l' :
  stopping l -> status l = Alive -> Forall (fun ev => callsStart ev = false) evs -> lrun evs l = Some l' -> status l' = Alive ->
  stopping l' /\ (length (List.filter isTimer evs) + timerLeft l' <= timerLeft l)%nat.
Proof.
  revert l; induction evs as [|ev evs IH]; intros l Hst Ha Hev Hr Hl'; simpl in Hr; [injection Hr as <-; by simpl|].
  apply bind_Some_inv in Hr as (l1 & H1 & H2); apply Forall_cons in Hev as [He Hevs].
  destruct (stopping_event _ _ _ Hst Ha He H1) as [Hs1 Hm].
  assert (status l1 = Alive) as Ha1.
  { destruct evs as [|ev2 evs]; [simpl in H2; by injection H2 as ->|]; simpl in H2; apply bind_Some_inv in H2 as (? & Hx & _).
    unfold lexec in Hx; case_bool_decide; [done|]; by cbn [negb] in Hx. }
  destruct (IH l1 Hs1 Ha1 Hevs H2 Hl') as [? ?]; split; [done|]; specialize (Hm Ha1); simpl; destruct (isTimer ev); simpl; lia.
Qed.

(** The exchange of the only [stop] at work, in a running node. *)
Lemma exchange_stopping k d l l' :
  status l = Alive -> running_ (self l) = true -> calls l !! k = Some (StopExchange d) ->
  Forall (fun c => starting c = false /\ joining c = false) (calls l) -> lexec (LAdvance k) l = Some l' ->
  stopping l' /\ status l' = Alive /\ calls l' !! k = Some (StopJoinable d) /\ (timerLeft l' <= 2)%nat.
Proof.
  intros Ha Hr Hk Hf; unfold lexec; rewrite bool_decide_true, Hk by done; cbn [negb]; simpl; rewrite Hr; intros [= <-].
  pose proof (lookup_lt_Some _ _ _ Hk) as Hlt.
  assert (Forall (fun c => starting c = false /\ joining c = false) (take k (calls l)) /\
          Forall (fun c => starting c = false /\ joining c = false) (drop (Datatypes.S k) (calls l))) as [Ht Hd]
    by (split; [by apply Forall_take|by apply Forall_drop]).
  assert (forall a, Forall (fun c => starting c = false /\ joining c = false) a -> List.filter joining a = []) as Hnone
    by (induction 1 as [|x a [_ E] _ IH]; simpl; [done|by rewrite E]).
  split_and!; [split; simpl|done| |unfold timerLeft; simpl; by destruct (loopThread_ l) as [[]|]; lia].
  - done.
  - apply Forall_app_2; [by eapply Forall_impl; [exact Ht|]; intros ? []|]; constructor; [done|].
    by eapply Forall_impl; [exact Hd|]; intros ? [].
  - rewrite List.filter_app; simpl; by rewrite (Hnone _ Ht), (Hnone _ Hd).
  - intros d'; rewrite elem_of_app, elem_of_cons; intros [Hj|[Hj|Hj]]; [|done|];
      [pose proof (proj1 (Forall_forall _ _) Ht _ Hj)|pose proof (proj1 (Forall_forall _ _) Hd _ Hj)]; naive_solver.
  - simpl; rewrite lookup_app_r by (rewrite length_take; lia); rewrite length_take, Nat.min_l, Nat.sub_diag by lia; done.
Qed.

(** C40: [RaftNode::stop] terminates.  Called while no other call is starting or joining
    the thread, once its exchange has cleared [running_], as long as nobody calls
    [start]: the timer thread makes at most two more steps (the
    round it is in and the test of the loop), whatever the handlers, callbacks and
    further calls of [stop] do in between; and while a [stop] that has to join is
    pending, the timer thread or that call can go on. *)
Theorem stop_joins_timer (k : nat) (d : bool) (l l1 l2 : Life) (evs : list LEvent)
    (Ha : status l = Alive) (Hr : running_ (self l) = true) (Hk : calls l !! k = Some (StopExchange d))
    (Hf : Forall (fun c => starting c = false /\ joining c = false) (calls l))
    (H1 : lexec (LAdvance k) l = Some l1) (Hev : Forall (fun ev => callsStart ev = false) evs)
    (H2 : lrun evs l1 = Some l2) (Ha2 : status l2 = Alive) :
  (length (List.filter isTimer evs) <= 2)%nat /\
  forall j c, calls l2 !! j = Some c -> joining c = true ->
    (forall now, is_Some (lexec (LTimer now) l2)) \/ is_Some (lexec (LAdvance j) l2).
Proof.
  destruct (exchange_stopping _ _ _ _ Ha Hr Hk Hf H1) as (Hs1 & Ha1 & _ & Hm).
  destruct (stopping_run _ _ _ Hs1 Ha1 Hev H2 Ha2) as [Hs2 Hl]; split; [lia|].
  intros j c Hj Hc; unfold lexec; rewrite bool_decide_true, Hj by done; cbn [negb]; simpl.
  destruct c as [| | |d'|d'|d'|]; try done; [right; by eexists|]; simpl.
  pose proof (sg_thread _ Hs2 d' (list_elem_of_lookup_2 _ _ _ Hj)) as Hth.
  unfold timerStep; destruct (loopThread_ l2) as [[]|] eqn:E; try done.
  - left; intros now; by eexists.
  - left; intros now; by eexists.
  - left; intros now; destruct (runLoopRound now (self l2)) as [[]|]; by eexists.
  - right; rewrite decide_True by done; by eexists.
Qed.

(** ** One owner *)

(** The owner makes one call at a time, and starts a node that does not run. *)
Definition serial (ev : LEvent) l : bool :=
  match ev with
  | LCall StartFlag => bool_decide (calls l = []) && negb (running_ (self l))
  | LCall _ => bool_decide (calls l = [])
  | _ => true
  end.

Fixpoint lserial (evs : list LEvent) l : option Life :=
  match evs with
  | [] => Some l
  | ev :: evs' => if serial ev l then l' ← lexec ev l; lserial evs' l' else None
  end.

(** The flag and the thread go together, except inside a call. *)
Definition owned l : Prop :=
  match calls l with
  | [] | [StopExchange _] => running_ (self l) = joinable l /\ loopThread_ l <> Some Returned
  | [StartFlag] | [DestroyMembers] => running_ (self l) = false /\ loopThread_ l = None
  | [StartDeadline] | [StartThread] => running_ (self l) = true /\ loopThread_ l = None
  | [StopJoinable _] | [StopJoin _] => running_ (self l) = false /\ is_Some (loopThread_ l)
  | _ => False
  end.

(** What an owner can see: the object lives, was destroyed after its thread was
    joined, or a round threw. *)
Definition orderly l : Prop :=
  match status l with
  | Alive => owned l
  | Destroyed => loopThread_ l = None
  | Uncaught => True
  | ThreadOverwritten | ThreadDestroyed => False
  end.

Lemma owned_advance l c cs l' :
  status l = Alive -> owned l -> calls l = [c] -> callStep c l = Some (l', cs) -> orderly (set_calls cs l').
Proof.
  intros Ha Ho Hc Hx; unfold owned in Ho; rewrite Hc in Ho; destruct c as [| | |d|d|d|]; simpl in Hx.
  - injection Hx as <- <-; unfold orderly; simpl; rewrite Ha; unfold owned; simpl; by destruct Ho.
  - injection Hx as <- <-; unfold orderly; simpl; rewrite Ha; exact Ho.
  - destruct Ho as [Hr Ht]; rewrite Ht in Hx; injection Hx as <- <-; unfold orderly; simpl; rewrite Ha; unfold owned; simpl.
    by rewrite Hr.
  - destruct Ho as [Hr Ht]; injection Hx as <- <-; unfold orderly; simpl; rewrite Ha; unfold owned; simpl.
    unfold joinable in Hr; destruct (loopThread_ l) eqn:E; rewrite Hr; [split; [done|by eexists]|].
    destruct d; simpl; [done|]; unfold joinable; simpl; by rewrite E.
  - destruct Ho as [Hr [t Ht]]; rewrite Ht in Hx; injection Hx as <- <-; unfold orderly; simpl; rewrite Ha; unfold owned; simpl.
    rewrite Ht; split; [done|by eexists].
  - destruct Ho as [Hr _]; case_decide; [|done]; injection Hx as <- <-; unfold orderly; simpl; rewrite Ha; unfold owned.
    by destruct d.
  - destruct Ho as [_ Ht]; rewrite Ht in Hx; injection Hx as <- <-; by unfold orderly.
Qed.

Lemma owned_timer now l l' : status l = Alive -> owned l -> timerStep now l = Some l' -> orderly l'.
Proof.
  intros Ha Ho Hx; unfold timerStep in Hx.
  assert (exists t, loopThread_ l = Some t /\ t <> Returned) as (t & Ht & Hnr) by (destruct (loopThread_ l) as [[]|]; by eauto).
  assert (forall n' t' ss, running_ n' = running_ (self l) -> (running_ n' = true -> t' <> Returned) ->
    orderly (set_thread (Some t') (send ss (set_self n' l)))) as Hstep.
  { intros n' t' ss Hn Hr; unfold orderly; simpl; rewrite Ha; unfold owned in *; cbn [calls set_thread send set_self self loopThread_].
    unfold joinable in *; cbn [loopThread_ set_thread send set_self] in *; rewrite Ht in Ho.
    destruct (calls l) as [|c cs]; [destruct Ho; split; [congruence|intros [= ->]; by apply Hr; [congruence|]]|].
    destruct c, cs; try done; destruct Ho as [Hr0 Ht0]; try (by split; [congruence|by eexists]); try done.
    split; [congruence|intros [= ->]; by apply Hr; [congruence|]]. }
  rewrite Ht in Hx; destruct t; [..|done].
  - injection Hx as <-; specialize (Hstep (set_lastHeartbeat now (self l)) AtWhile [] eq_refl ltac:(done)).
    unfold send in Hstep; simpl in Hstep; by rewrite app_nil_r in Hstep.
  - injection Hx as <-; specialize (Hstep (self l) (if running_ (self l) then InBody else Returned) [] eq_refl).
    unfold send in Hstep; simpl in Hstep; rewrite app_nil_r in Hstep; apply Hstep; by destruct (running_ (self l)).
  - destruct (runLoopRound now (self l)) as [[n' ss]|] eqn:Er; injection Hx as <-; [|done].
    apply runLoopRound_running in Er; by apply Hstep.
Qed.

Lemma owned_event ev l l' : status l = Alive -> owned l -> serial ev l = true -> lexec ev l = Some l' -> orderly l'.
Proof.
  intros Ha Ho Hs; unfold lexec; rewrite bool_decide_true by done; cbn [negb]; destruct ev as [c|k|now|n']; intros Hx.
  - destruct (entry c) eqn:Hc; [|done]; injection Hx as <-; unfold orderly; simpl; rewrite Ha; unfold owned in *.
    cbn [calls set_calls self loopThread_]; destruct c; try done; simpl in Hs.
    + apply andb_true_iff in Hs as [Hs%bool_decide_eq_true Hr%negb_true_iff]; rewrite Hs in *; simpl.
      split; [done|]; destruct Ho as [Ho _]; rewrite Hr in Ho; unfold joinable in Ho; by destruct (loopThread_ l).
    + apply bool_decide_eq_true in Hs; by rewrite Hs in *.
  - apply bind_Some_inv in Hx as (c & Hk & Hx); apply bind_Some_inv in Hx as ([m cs] & Hc & [= <-]).
    assert (calls l = [c] /\ k = 0%nat) as [Hcs ->].
    { unfold owned in Ho; destruct (calls l) as [|c0 [|c1 r]]; [done| |by destruct c0].
      destruct k; [by injection Hk as ->|done]. }
    rewrite Hcs; simpl; rewrite app_nil_r; by eapply owned_advance.
  - by eapply owned_timer.
  - destruct (Bool.eqb _ _) eqn:E; [|done]; injection Hx as <-; apply Bool.eqb_prop in E.
    unfold orderly; simpl; rewrite Ha; unfold owned in *; cbn [calls set_self self loopThread_]; by rewrite E.
Qed.

Lemma owned_run evs l l' : orderly l -> lserial evs l = Some l' -> orderly l'.
Proof.
  revert l; induction evs as [|ev evs IH]; intros l Ho Hr; simpl in Hr; [by injection Hr as <-|].
  destruct (serial ev l) eqn:Hs; [|done]; apply bind_Some_inv in Hr as (l1 & H1 & H2); apply (IH l1); [|done].
  assert (status l = Alive) as Ha by (unfold lexec in H1; case_bool_decide; [done|by cbn [negb] in H1]).
  unfold orderly in Ho; rewrite Ha in Ho; by eapply owned_event.
Qed.

(** C36: the life of a node with one owner.  When [start], [stop] and the destructor are
    called one after the other, and [start] only on a node that does not run, with
    the timer thread, handlers and callbacks in between as they come: no thread
    object is overwritten or destroyed while its thread may run, the object is
    destroyed only after the thread was joined, and between calls the flag
    [running_] says whether there is a thread. *)
Theorem owner_lifecycle (n : RaftNode S) (evs : list LEvent) (l : Life)
    (Hn : running_ n = false) (Hr : lserial evs (constructed n) = Some l) :
  status l <> ThreadOverwritten /\ status l <> ThreadDestroyed /\
  (status l = Destroyed -> loopThread_ l = None) /\
  (status l = Alive -> calls l = [] -> running_ (self l) = joinable l).
Proof.
  apply owned_run in Hr; [|by unfold orderly, owned].
  unfold orderly, owned in Hr; destruct (status l) eqn:E; split_and!; try done.
  intros _ Hc; rewrite Hc in Hr; apply Hr.
Qed.
End lifecycle.

Arguments Life : clear implicits.

(** ** Runs *)
Definition node1 : RaftNode KvStore :=
  mkRaftNode (sample_opts 1) KvStore_init (mkPersistentLog ∅ 0 0 0 0 []) Follower sample_cfg 0 0 0 0 ∅ ∅ ∅ [] false [] 0 0 ∅.

Lemma node1_constructed : newRaftNode (sample_opts 1) sample_cfg ∅ KvStore_init [] 0 = Ok node1.
Proof. vm_compute; reflexivity. Qed.

(** [start]; a round; [stop] from the middle of the second round; the destructor. *)
Definition started : list (LEvent (S := KvStore)) := LCall StartFlag :: replicate 3 (LAdvance 0).
Definition lived : list (LEvent (S := KvStore)) :=
  started ++ (LTimer <$> [0; 0; 10; 10]) ++ [LCall (StopExchange false); LAdvance 0; LAdvance 0; LTimer 20; LTimer 20; LAdvance 0] ++
  [LCall (StopExchange true); LAdvance 0; LAdvance 0].

Definition ended (evs : list (LEvent (S := KvStore))) : option (bool * option TimerThread * list Call * Status) :=
  (fun l => (running_ (self l), loopThread_ l, calls l, status l)) <$> lrun evs (constructed node1).

Lemma owner_lifecycle_witness :
  exists l, lserial lived (constructed node1) = Some l /\ status l = Destroyed /\ loopThread_ l = None.
Proof.
  exists (default (constructed node1) (lserial lived (constructed node1))).
  split; [vm_compute; reflexivity|]; split; [vm_compute; reflexivity|].
  apply (owner_lifecycle node1 lived); vm_compute; reflexivity.
Defined.

(** A node in the body of its loop, with [stop] called. *)
Definition called : Life KvStore :=
  default (constructed node1) (lrun (started ++ [LTimer 0; LTimer 0; LCall (StopExchange false)]) (constructed node1)).

Lemma stop_joins_timer_witness :
  exists l1 l2, lexec (LAdvance 0) called = Some l1 /\ lrun [LAdvance 0; LTimer 10] l1 = Some l2 /\
    ((forall now, is_Some (lexec (LTimer now) l2)) \/ is_Some (lexec (LAdvance 0) l2)).
Proof.
  eexists (default called (lexec (LAdvance 0) called)), (default called (lrun [LAdvance 0; LAdvance 0; LTimer 10] called)).
  split; [vm_compute; reflexivity|]; split; [vm_compute; reflexivity|].
  apply (stop_joins_timer 0 false called (default called (lexec (LAdvance 0) called))
           (default called (lrun [LAdvance 0; LAdvance 0; LTimer 10] called)) [LAdvance 0; LTimer 10]) with (c := StopJoin false);
    try (vm_compute; reflexivity); repeat (constructor; try (vm_compute; split; reflexivity)).
Defined.

(** ** What concurrent calls can do *)

(** A second [stop] does not wait: it finds [running_] false and returns while the
    timer thread is in its round and the first [stop] is joining it. *)
Theorem second_stop_returns_early :
  ended (started ++ [LTimer 0; LTimer 0; LCall (StopExchange false); LAdvance 0; LAdvance 0; LCall (StopExchange false); LAdvance 1]) =
  Some (false, Some InBody, [StopJoin false], Alive).
Proof. vm_compute; reflexivity. Qed.

(** A [stop] between the first and the last statement of [start] finds no thread to
    join, and no later [stop] will: the destructor destroys a joinable thread, which
    ends the process. *)
Theorem stop_inside_start :
  ended ([LCall StartFlag; LAdvance 0; LCall (StopExchange false); LAdvance 1; LAdvance 1; LAdvance 0; LAdvance 0] ++
         (LTimer <$> [0; 0]) ++ [LCall (StopExchange true); LAdvance 0; LAdvance 0]) =
  Some (false, Some Returned, [], ThreadDestroyed).
Proof. vm_compute; reflexivity. Qed.

(** A second [start] assigns to the running thread, which ends the process. *)
Theorem start_twice : ended (started ++ started) = Some (true, Some Spawned, [], ThreadOverwritten).
Proof. vm_compute; reflexivity. Qed.
