(* ===== verification/RaftProgress.v ===== *)
(** * Progress of a Raft group

    What can always happen next: from every reachable state in which no member of a
    majority leads, timer rounds of one of them and deliveries of messages make it
    the leader.  The schedule is constructed; nothing is lost, repeated or restarted
    in it, and messages that are under way already do not have to be delivered. *)
From stdpp Require Import base tactics list gmap numbers strings sorting relations.
From Stdlib Require Import Ascii NArith Lia.
From S2P Require Import Prelude.
From S2P Require Import Buffer.
From S2P Require Import Types.
From S2P Require Import RpcMessages.
From S2P Require Import PersistentLog.
From S2P Require Import StateMachine.
From S2P Require Import KvStore.
From S2P Require Import RaftNode.
From S2P Require Import RaftNodeFacts.
From S2P Require Import RaftCommit.
From S2P Require Import RaftHandlers.
From S2P Require Import Cluster.
From S2P Require Import RaftInvariant.
From S2P Require Import ElectionSafety.

Local Open Scope N_scope.

Lemma length_filter_neq {A} `{EqDecision A} (x : A) (l : list A) :
  NoDup l -> x ∈ l -> Datatypes.S (length (filter (fun y => y <> x) l)) = length l.
Proof.
  induction 1 as [|y l Hy Hnd IH]; [by intros ?%elem_of_nil|]; rewrite filter_cons; intros [->|Hx]%elem_of_cons.
  - rewrite decide_False by tauto; simpl; do 2 f_equal; clear IH Hnd; induction l as [|z l IH]; [done|].
    rewrite filter_cons, decide_True by (intros ->; apply Hy; left); f_equal; apply IH; intros ?; apply Hy; by right.
  - rewrite decide_True by congruence; simpl; by rewrite IH.
Qed.

Section progress.
Context {S : Type} `{StateMachine S}.
Context (cfg : ClusterConfig) (freshSm : S).
Implicit Types (c : Cluster S) (n m : RaftNode S).

(** ** Taking office *)
(** A leader that knows of nothing new at its peers commits nothing. *)
Lemma tryAdvance_behind n :
  tracks_voters n -> (forall v, v ∈ voters (config_ n) -> v <> id (opts_ n) -> default 0 (matchIndex_ n !! v) <= commitIndex_ n) ->
  (2 <= length (voters (config_ n)))%nat -> tryAdvanceCommitIndex n = Ok n.
Proof.
  intros Ht H0 Hlen; unfold tryAdvanceCommitIndex; case_decide; [|done].
  destruct (commitCandidate_some n Ht) as [c Hc]; rewrite Hc; destruct (N.ltb_spec (commitIndex_ n) c) as [Hlt|]; [exfalso|done].
  destruct (commitCandidate_majority n c Ht Hc) as [Hm _].
  assert (replicas n c <= 1)%nat; [|pose proof (Nat.Div0.div_le_mono 2 (length (voters (config_ n))) 2 Hlen); simpl in *; lia].
  unfold replicas; destruct Ht as [Hnd _ _].
  assert (forall x, x ∈ filter (fun v => c <= storedAt n v) (voters (config_ n)) -> x = id (opts_ n)) as Hall.
  { intros x [Hx Hin]%list_elem_of_filter; destruct (decide (x = id (opts_ n))) as [|Hd]; [done|].
    unfold storedAt in Hx; rewrite decide_False in Hx by done; specialize (H0 x Hin Hd); lia. }
  apply (NoDup_filter (fun v => c <= storedAt n v)) in Hnd; destruct (filter _ _) as [|x [|y l]]; simpl; [lia|lia|exfalso].
  apply NoDup_cons in Hnd as [Hni _]; apply Hni; rewrite (Hall x), (Hall y) by set_solver; left.
Qed.

Lemma becomeLeader_returns n :
  role_ n = Candidate -> NoDup (voters (config_ n)) -> id (opts_ n) ∈ voters (config_ n) -> (2 <= length (voters (config_ n)))%nat ->
  exists n' ss, becomeLeader n = Ok (n', ss) /\ role_ n' = Leader /\ nodeTerm n' = nodeTerm n.
Proof.
  intros Hc Hnd Hin Hlen.
  assert (exists m, becomeLeader n = (q ← propose [] NoOp m; n ← tryAdvanceCommitIndex q.1; mret (n, broadcastAppendEntries n)) /\
    opts_ m = opts_ n /\ config_ m = config_ n /\ log_ m = log_ n /\ role_ m = Leader /\
    forall v, matchIndex_ m !! v = if decide (v ∈ voters (config_ n)) then Some 0 else None) as (m & -> & Ho & Hcf & Hl & Hr & Hm).
  { eexists; split; [unfold becomeLeader; rewrite decide_True by done; reflexivity|].
    match goal with |- context [fold_left ?f ?vs ?x] =>
      destruct (reset_peers_fields vs (lastIndex (log_ n)) x) as (? & ? & ? & _ & ? & _);
      pose proof (reset_peers_match vs (lastIndex (log_ n)) x) as Hm; split_and!; [done..|exact Hm] end. }
  unfold propose; rewrite decide_True by done.
  set (m1 := set_log _ m).
  assert (config_ m1 = config_ n /\ opts_ m1 = opts_ n /\ role_ m1 = Leader /\ matchIndex_ m1 = matchIndex_ m) as (Hc1 & Ho1 & Hr1 & Hm1) by done.
  assert (nodeTerm m1 = nodeTerm n) as Ht1.
  { unfold nodeTerm, m1; cbn [log_ set_log]; unfold appendAndSync; rewrite <- Hl; by destruct (log_ m). }
  clearbody m1; assert (tryAdvanceCommitIndex m1 = Ok m1) as Ht.
  { apply tryAdvance_behind; [split| |]; rewrite Hc1, ?Ho1, ?Hm1; try done.
    - intros v; rewrite Hm; case_decide; ((split; [done|by intros []]) || (by split; [eexists|])).
    - intros v Hv _; rewrite Hm, decide_True by done; simpl; lia. }
  rewrite Ht; cbn [mbind outcome_bind mret outcome_ret fst]; rewrite Ht; by do 2 eexists.
Qed.

(** ** One vote *)
Lemma vote_granted req m :
  nodeTerm m < rv_term req -> upToDate (rv_lastLogTerm req) (rv_lastLogIndex req) (log_ m) ->
  exists m', handleRequestVote req m = (m', mkRequestVoteResp (rv_term req) true).
Proof.
  intros Ht Hu; unfold handleRequestVote, nodeTerm in *.
  destruct (N.ltb_spec (rv_term req) (currentTerm_ (log_ m))); [lia|]; destruct (N.ltb_spec (currentTerm_ (log_ m)) (rv_term req)); [|lia].
  destruct (becomeFollower_spec (rv_term req) 0 m) as (Et & Ev & _ & _ & El & _); set (m1 := becomeFollower _ _ _) in *.
  unfold nodeTerm, nodeVote in *; destruct (N.ltb_spec (currentTerm_ (log_ m)) (rv_term req)); [|lia].
  destruct (same_log_last _ _ El) as [-> ->]; rewrite Ev; cbn [N.eqb orb].
  assert ((lastTerm (log_ m) <? rv_lastLogTerm req) || (rv_lastLogTerm req =? lastTerm (log_ m)) && (lastIndex (log_ m) <=? rv_lastLogIndex req) = true) as ->.
  { destruct Hu as [Hu|[Hu1 Hu2]]; [by rewrite (proj2 (N.ltb_lt _ _) Hu)|].
    rewrite (proj2 (N.eqb_eq _ _) Hu1), (proj2 (N.leb_le _ _) Hu2); apply orb_true_r. }
  clearbody m1; cbn [andb]; eexists; f_equal; f_equal; cbn; lia.
Qed.

(** Node [i] stands in term [t] with [v] votes; [Q] are voters that would vote for
    it and whose requests are under way. *)
Definition ballot (i : NodeId) (t : Term) (li : LogIndex) (lt : Term) : RequestVoteReq := mkRequestVoteReq t i li lt.

Record campaign (i : NodeId) (t : Term) (li : LogIndex) (lt : Term) (v : N) (Q : list NodeId) c : Prop := {
  ca_node : exists n, nodes c !! i = Some n /\ role_ n = Candidate /\ nodeTerm n = t /\ votes_ n !! t = Some v /\
    config_ n = cfg /\ id (opts_ n) = i;
  ca_asked : forall j, j ∈ Q -> Request i (incOf c i) (SendRequestVote j (ballot i t li lt) t (majorityOf cfg)) ∈ net c;
  ca_voters : forall j, j ∈ Q -> exists m, nodes c !! j = Some m /\ nodeTerm m < t /\ upToDate lt li (log_ m)
}.

Lemma elem_of_delete {A} (l : list A) k x y : l !! k = Some x -> y ∈ l -> y <> x -> y ∈ delete k l.
Proof.
  intros Hk Hy Hne; apply delete_Permutation in Hk; rewrite Hk in Hy; apply elem_of_cons in Hy as [->|Hy]; done.
Qed.

Definition delivery (ev : Event) : bool := match ev with EvDeliver _ _ => true | _ => false end.

(** The request to [j] is answered and the answer is counted. *)
Lemma campaign_vote i t li lt v j Q c (now : N) :
  NoDup (voters cfg) -> i ∈ voters cfg -> (2 <= length (voters cfg))%nat -> i ∉ j :: Q -> NoDup (j :: Q) ->
  campaign i t li lt v (j :: Q) c ->
  exists evs c', forallb delivery evs = true /\ run_admissible cfg freshSm evs c = Some c' /\
    (if majorityOf cfg <=? v + 1 then exists n', nodes c' !! i = Some n' /\ role_ n' = Leader /\ nodeTerm n' = t
     else campaign i t li lt (v + 1) Q c').
Proof.
  intros Hnd Hi Hlen Hni [Hj HQ]%NoDup_cons [(n & Hn & Hrole & Ht & Hv & Hcf & Hid) Hask Hvot].
  destruct (proj1 (list_elem_of_lookup _ _) (Hask j ltac:(left))) as [k Hk]; destruct (Hvot j ltac:(left)) as (m & Hm & Hmt & Hup).
  destruct (vote_granted (ballot i t li lt) (set_now now m) Hmt Hup) as [m' Hg].
  set (reply := VoteReply i (incOf c i) j t (majorityOf cfg) (mkRequestVoteResp t true)).
  set (c1 := update c j m' (delete k (net c) ++ [reply])).
  assert (run_admissible cfg freshSm [EvDeliver k now] c = Some c1) as H1 by (simpl; rewrite Hk; simpl; by rewrite Hm, Hg).
  assert (j <> i) as Hji by (intros ->; apply Hni; left).
  assert (nodes c1 !! i = Some n) as Hn1 by (simpl; by rewrite lookup_insert_ne).
  assert (net c1 !! length (delete k (net c)) = Some reply) as Hk1 by (simpl; by rewrite list_lookup_middle).
  assert (delete (length (delete k (net c))) (net c1) = delete k (net c)) as Hd1 by (simpl; by rewrite delete_middle, app_nil_r).
  assert (incOf c1 i = incOf c i) as Hinc by done.
  assert (exists n' ss, onRequestVoteResp t (majorityOf cfg) true (mkRequestVoteResp t true) (set_now now n) = Ok (n', ss) /\
    if majorityOf cfg <=? v + 1 then role_ n' = Leader /\ nodeTerm n' = t
    else role_ n' = Candidate /\ nodeTerm n' = t /\ votes_ n' !! t = Some (v + 1) /\ config_ n' = cfg /\ id (opts_ n') = i) as (n' & ss & Hon & Hafter).
  { unfold onRequestVoteResp; cbn [negb role_ set_now log_ rvr_term rvr_voteGranted votes_]; rewrite bool_decide_eq_true_2 by done.
    unfold nodeTerm in Ht; rewrite Ht, N.eqb_refl, N.ltb_irrefl, Hv; cbn [negb orb]; change (default 0 (Some v)) with v.
    destruct (majorityOf cfg <=? v + 1).
    - set (n1 := set_votes _ _); destruct (becomeLeader_returns n1) as (n' & ss & Hb & Hl & Htm); unfold n1; cbn; rewrite ?Hcf, ?Hid; try done.
      exists n', ss; split; [exact Hb|]; split; [done|]; rewrite Htm; exact Ht.
    - do 2 eexists; split; [reflexivity|]; cbn; rewrite lookup_insert_eq; by split_and!. }
  exists [EvDeliver k now; EvDeliver (length (delete k (net c))) now], (update c1 i n' (delete k (net c) ++ launch i (incOf c i) ss)).
  split; [done|]; split.
  { assert (exec cfg freshSm c1 (EvDeliver (length (delete k (net c))) now) = Some (update c1 i n' (delete k (net c) ++ launch i (incOf c i) ss))) as H2.
    { unfold exec; rewrite Hk1, Hd1; unfold reply, mbind, option_bind, deliverReply; rewrite Hn1, Hinc, N.eqb_refl, Hon; done. }
    cbn [run_admissible admissible] in H1 |- *; destruct (exec cfg freshSm c (EvDeliver k now)) as [c2|]; [|done]; injection H1 as ->.
    cbn [mbind option_bind]; by rewrite H2. }
  destruct (majorityOf cfg <=? v + 1); [exists n'; split; [apply lookup_insert_eq|exact Hafter]|].
  split.
  - exists n'; split; [apply lookup_insert_eq|exact Hafter].
  - intros x Hx; cbn [net update]; apply elem_of_app; left; eapply elem_of_delete; [exact Hk|apply Hask; by right|].
    intros [= E]; congruence.
  - intros x Hx; destruct (Hvot x ltac:(by right)) as (mx & Hmx & ?); exists mx; split; [|done]; cbn [nodes update c1].
    rewrite !lookup_insert_ne; [done| |]; intros ->; [done|apply Hni; by right].
Qed.

Lemma run_admissible_app evs evs' c c1 c2 :
  run_admissible cfg freshSm evs c = Some c1 -> run_admissible cfg freshSm evs' c1 = Some c2 ->
  run_admissible cfg freshSm (evs ++ evs') c = Some c2.
Proof.
  revert c; induction evs as [|ev evs IH]; intros c; simpl; [by intros [= ->]|].
  destruct (admissible c ev); [|done]; intros (c' & -> & Hr)%bind_Some_inv Hr'; simpl; by apply IH.
Qed.

Lemma campaign_wins i t li lt Q : forall v c (now : N),
  NoDup (voters cfg) -> i ∈ voters cfg -> (2 <= length (voters cfg))%nat -> i ∉ Q -> NoDup Q ->
  v < majorityOf cfg -> majorityOf cfg <= v + nlen Q -> campaign i t li lt v Q c ->
  exists evs c' n', forallb delivery evs = true /\ run_admissible cfg freshSm evs c = Some c' /\
    nodes c' !! i = Some n' /\ role_ n' = Leader /\ nodeTerm n' = t.
Proof.
  induction Q as [|j Q IH]; intros v c now Hnd Hi Hlen Hni HQ Hv Hm Hc; [unfold nlen in Hm; simpl in Hm; lia|].
  destruct (campaign_vote i t li lt v j Q c now Hnd Hi Hlen Hni HQ Hc) as (evs & c1 & Hd & Hr & Hafter).
  destruct (N.leb_spec (majorityOf cfg) (v + 1)) as [_|Hlt]; [destruct Hafter as (n' & ?); by exists evs, c1, n'|].
  apply NoDup_cons in HQ as [_ HQ]; rewrite nlen_cons in Hm.
  destruct (IH (v + 1) c1 now) as (evs' & c' & n' & Hd' & Hr' & Hl); [done|done|done|set_solver|done|done|lia|done|].
  exists (evs ++ evs'), c', n'; split; [by rewrite forallb_app, Hd, Hd'|]; split; [by eapply run_admissible_app|done].
Qed.

(** ** Standing for election *)

(** No snapshot is due. *)
Definition compact n : Prop := (snapshotThresholdEntries (opts_ n) <=? sub64 (lastApplied_ n) (snapshotIndex_ (log_ n))) = false.

#[global] Instance compact_dec n : Decision (compact n).
Proof. unfold compact; apply _. Defined.

(** A running node that does not lead and has no snapshot to take. *)
Record eligible (i : NodeId) n : Prop := {
  eg_id : id (opts_ n) = i;
  eg_config : config_ n = cfg;
  eg_running : running_ n = true;
  eg_role : role_ n <> Leader;
  eg_compact : compact n
}.

Lemma stand_once i n c :
  nodes c !! i = Some n -> eligible i n -> i ∈ voters cfg -> (2 <= length (voters cfg))%nat -> nodeTerm n + 1 < U64 ->
  exists c' n', run_admissible cfg freshSm [EvTick i (electionDeadline_ n)] c = Some c' /\ nodes c' = <[i := n']> (nodes c) /\
    incOf c' i = incOf c i /\
    net c' = net c ++ launch i (incOf c i) (voteRequests cfg i (nodeTerm n + 1) (lastIndex (log_ n)) (lastTerm (log_ n))) /\
    eligible i n' /\ role_ n' = Candidate /\ nodeTerm n' = nodeTerm n + 1 /\ votes_ n' !! (nodeTerm n + 1) = Some 1 /\ same_log (log_ n) (log_ n').
Proof.
  intros Hn [Hid Hcf Hrun Hrole Hcomp] Hi Hlen Ht; set (now := electionDeadline_ n).
  set (n0 := resetElectionDeadline (set_leaderId 0 (set_role Candidate (set_log (setHardState (nodeTerm n + 1) i (log_ n)) (set_now now n))))).
  set (n' := set_votes (<[nodeTerm n + 1 := 1]> (votes_ n)) n0).
  assert (hasVoter cfg i = true) as Hhv by (unfold hasVoter; apply existsb_exists; exists i; split; [by apply list_elem_of_In|apply N.eqb_refl]).
  assert (becomeCandidate (set_now now n) = Ok (n', voteRequests cfg i (nodeTerm n + 1) (lastIndex (log_ n)) (lastTerm (log_ n)))) as Hb.
  { unfold becomeCandidate; cbn [opts_ set_now log_]; rewrite Hid; fold (nodeTerm n); rewrite add64_small by done; fold n0.
    assert (config_ n0 = cfg) as -> by exact Hcf; rewrite Hhv; cbn [negb andb].
    assert ((nlen (voters cfg) / 2 + 1 <=? 1) = false) as ->; [|done].
    apply N.leb_gt; pose proof (N.Div0.div_le_mono 2 (nlen (voters cfg)) 2) as Hd; unfold nlen in *; change (2 / 2) with 1 in Hd; lia. }
  assert (runLoopRound now n = Ok (n', voteRequests cfg i (nodeTerm n + 1) (lastIndex (log_ n)) (lastTerm (log_ n)))) as Hr.
  { unfold runLoopRound; rewrite decide_False by done; cbn [electionDeadline_ set_now]; unfold now at 1; rewrite N.leb_refl, Hb; cbn [mbind outcome_bind fst snd].
    assert (maybeSnapshot n' = n') as ->; [|done]; unfold maybeSnapshot; change (opts_ n') with (opts_ n); change (lastApplied_ n') with (lastApplied_ n).
    change (snapshotIndex_ (log_ n')) with (snapshotIndex_ (log_ n)); by rewrite Hcomp. }
  exists (update c i n' (net c ++ launch i (incOf c i) (voteRequests cfg i (nodeTerm n + 1) (lastIndex (log_ n)) (lastTerm (log_ n))))), n'.
  split.
  { cbn [run_admissible admissible exec]; rewrite Hn, (proj2 (N.ltb_lt _ _) Ht); cbn [mbind option_bind]; by rewrite Hrun, Hr. }
  split_and!; try done; cbn; apply lookup_insert_eq.
Qed.

(** Until its term is at least [t]. *)
Lemma stand_until i d : forall n c,
  nodes c !! i = Some n -> eligible i n -> i ∈ voters cfg -> (2 <= length (voters cfg))%nat -> nodeTerm n + N.of_nat d < U64 ->
  exists evs c' n', Forall (fun ev => exists now, ev = EvTick i now) evs /\ run_admissible cfg freshSm evs c = Some c' /\
    nodes c' = <[i := n']> (nodes c) /\ eligible i n' /\ nodeTerm n' = nodeTerm n + N.of_nat d /\ same_log (log_ n) (log_ n').
Proof.
  induction d as [|d IH]; intros n c Hn He Hi Hlen Ht.
  { exists [], c, n; rewrite insert_id by done; split_and!; try done; lia. }
  destruct (stand_once i n c Hn He Hi Hlen ltac:(lia)) as (c1 & n1 & Hr & Hns & _ & _ & He1 & _ & Ht1 & _ & Hl1).
  destruct (IH n1 c1) as (evs & c' & n' & Hev & Hr' & Hns' & He' & Ht' & Hl'); [by rewrite Hns, lookup_insert_eq|done|done|done|lia|].
  exists (EvTick i (electionDeadline_ n) :: evs), c', n'; split_and!; [constructor; [by eexists|done]|by eapply (run_admissible_app [_])| |done|lia|by etransitivity].
  by rewrite Hns', Hns, insert_insert_eq.
Qed.

(** ** Who can win *)
Lemma upToDate_refl (l : PersistentLog) : upToDate (lastTerm l) (lastIndex l) l.
Proof. right; split; [done|lia]. Qed.

(** Among finitely many logs one is at least as up to date as the others. *)
Lemma most_up_to_date (ls : list (NodeId * RaftNode S)) : ls <> [] ->
  exists i n, (i, n) ∈ ls /\ forall j m, (j, m) ∈ ls -> upToDate (lastTerm (log_ n)) (lastIndex (log_ n)) (log_ m).
Proof.
  induction ls as [|[i n] ls IH]; [done|intros _]; destruct (decide (ls = [])) as [->|Hne].
  { exists i, n; split; [left|]; intros j m [= -> ->]%list_elem_of_singleton; apply upToDate_refl. }
  destruct (IH Hne) as (k & p & Hin & Hmax).
  assert (upToDate (lastTerm (log_ n)) (lastIndex (log_ n)) (log_ p) \/ upToDate (lastTerm (log_ p)) (lastIndex (log_ p)) (log_ n)) as [Hu|Hu]
    by (unfold upToDate; lia).
  - exists i, n; split; [left|]; intros j m [[= -> ->]|Hj]%elem_of_cons; [apply upToDate_refl|].
    specialize (Hmax _ _ Hj); unfold upToDate in *; lia.
  - exists k, p; split; [by right|]; intros j m [[= -> ->]|Hj]%elem_of_cons; [done|by eapply Hmax].
Qed.

Lemma of_quorum c (Q : list NodeId) :
  (forall j, j ∈ Q -> exists m, nodes c !! j = Some m) ->
  exists ls : list (NodeId * RaftNode S), ls.*1 = Q /\ forall j m, (j, m) ∈ ls -> nodes c !! j = Some m.
Proof.
  induction Q as [|j Q IH]; intros HQ; [exists []; split; [done|]; by intros j m ?%elem_of_nil|].
  destruct IH as (ls & <- & Hls); [intros; apply HQ; by right|]; destruct (HQ j ltac:(left)) as [m Hm].
  exists ((j, m) :: ls); split; [done|]; intros k p [[= -> ->]|Hk]%elem_of_cons; [done|by apply Hls].
Qed.

(** The rounds and deliveries that make [i] the leader of term [T + 1]. *)
Lemma win_election i n T Q c :
  nodes c !! i = Some n -> eligible i n -> NoDup (voters cfg) -> (2 <= length (voters cfg))%nat ->
  NoDup Q -> i ∈ Q -> (forall j, j ∈ Q -> j ∈ voters cfg) -> nlen (voters cfg) < 2 * nlen Q ->
  nodeTerm n <= T -> T + 1 < U64 ->
  (forall j, j ∈ Q -> exists m, nodes c !! j = Some m /\ nodeTerm m <= T /\ upToDate (lastTerm (log_ n)) (lastIndex (log_ n)) (log_ m)) ->
  exists evs c' n', Forall (fun ev => match ev with EvTick x _ => x = i | EvDeliver _ _ => True | _ => False end) evs /\
    run_admissible cfg freshSm evs c = Some c' /\ nodes c' !! i = Some n' /\ role_ n' = Leader /\ nodeTerm n' = T + 1.
Proof.
  intros Hn He Hnd Hlen HndQ Hi Hsub Hmaj Ht HT Hvot; pose proof (Hsub i Hi) as Hiv.
  destruct (stand_until i (N.to_nat (T - nodeTerm n)) n c Hn He Hiv Hlen ltac:(lia)) as (ev1 & c1 & n1 & Hev1 & Hr1 & Hns1 & He1 & Ht1 & Hl1).
  assert (nodes c1 !! i = Some n1) as Hn1 by (by rewrite Hns1, lookup_insert_eq); assert (nodeTerm n1 = T) as Et by lia.
  destruct (stand_once i n1 c1 Hn1 He1 Hiv Hlen ltac:(lia)) as (c2 & n2 & Hr2 & Hns2 & Hinc2 & Hnet2 & He2 & Hc2 & Ht2 & Hv2 & _).
  destruct (same_log_last _ _ Hl1) as [El1 El2]; rewrite Et, El1, El2 in *.
  set (Q' := filter (fun j => j <> i) Q).
  assert (nlen Q = nlen Q' + 1) as HQ'.
  { unfold nlen, Q'; rewrite <- (length_filter_neq i Q HndQ Hi); lia. }
  destruct (campaign_wins i (T + 1) (lastIndex (log_ n)) (lastTerm (log_ n)) Q' 1 c2 0) as (ev3 & c3 & n3 & Hev3 & Hr3 & Hl3); try done.
  - unfold Q'; intros [? _]%list_elem_of_filter; done.
  - by apply NoDup_filter.
  - unfold majorityOf; pose proof (N.Div0.div_le_mono 2 (nlen (voters cfg)) 2) as Hd; unfold nlen in *; change (2 / 2) with 1 in Hd; lia.
  - unfold majorityOf; pose proof (N.Div0.div_lt_upper_bound (nlen (voters cfg)) 2 (nlen Q)); lia.
  - split.
    + exists n2; rewrite Hns2, lookup_insert_eq; destruct He2; by split_and!.
    + intros j [Hji Hj]%list_elem_of_filter; rewrite Hnet2, Hinc2; apply elem_of_app; right; unfold launch; apply list_elem_of_fmap_2.
      apply voteRequests_elem; exists j; split_and!; [by apply Hsub|done|done].
    + intros j [Hji Hj]%list_elem_of_filter; destruct (Hvot j Hj) as (m & Hm & Hmt & Hu); exists m.
      rewrite Hns2, Hns1, !lookup_insert_ne by done; split_and!; [done|lia|done].
  - exists ((ev1 ++ [EvTick i (electionDeadline_ n1)]) ++ ev3), c3, n3; split; [|split; [by eapply run_admissible_app; [eapply run_admissible_app|]|exact Hl3]].
    rewrite !Forall_app; split; [split; [|by repeat constructor]|].
    + eapply Forall_impl; [exact Hev1|]; by intros ev [now ->].
    + apply Forall_forall; intros ev Hin; rewrite forallb_forall in Hev3; assert (delivery ev = true) by (by apply Hev3, list_elem_of_In); by destruct ev.
Qed.
End progress.

(** ** The theorem *)

(** C14: a leader can always be elected. In every reachable state of a group with a
    fixed membership of at least two, each method running as one step, whatever has
    been lost, delayed or restarted so far: if a majority of the voters is running,
    none of them leads and no snapshot is due, then there is a schedule of rounds of
    the timer of one of them and deliveries of messages, without any loss,
    repetition or restart, that makes it the leader of the term after theirs. *)
Theorem election_possible {S : Type} `{StateMachine S} (cfg : ClusterConfig) (freshSm : S) (os : list RaftOptions) (c : Cluster S)
    (Q : list NodeId) (T : Term)
    (Hnd : NoDup (voters cfg)) (Hlen : (2 <= length (voters cfg))%nat) (Hos : Forall (fun o => 0 < id o < U32) os)
    (Hr : rtc (step cfg freshSm) (freshCluster cfg freshSm os) c)
    (HndQ : NoDup Q) (Hsub : forall j, j ∈ Q -> j ∈ voters cfg) (Hmaj : nlen (voters cfg) < 2 * nlen Q)
    (Hup : forall j, j ∈ Q -> exists m, nodes c !! j = Some m /\ running_ m = true /\ role_ m <> Leader /\ compact m /\ nodeTerm m <= T)
    (HT : T + 1 < U64) :
  exists i evs c' n, i ∈ Q /\ Forall (fun ev => match ev with EvTick x _ => x = i | EvDeliver _ _ => True | _ => False end) evs /\
    run_admissible cfg freshSm evs c = Some c' /\ nodes c' !! i = Some n /\ role_ n = Leader /\ nodeTerm n = T + 1.
Proof.
  assert (voters cfg <> []) as Hne by (intros E; rewrite E in Hlen; simpl in Hlen; lia).
  destruct (steps_inv cfg freshSm Hnd Hne _ _ _ Hr (freshCluster_inv cfg freshSm os Hos)) as (g & _ & HC & _).
  destruct (of_quorum c Q) as (ls & HQ & Hls); [intros j Hj; destruct (Hup j Hj) as (m & ? & _); by exists m|].
  destruct (most_up_to_date ls) as (i & n & Hin & Hmax); [intros ->; subst Q; unfold nlen in Hmaj; simpl in Hmaj; lia|].
  assert (forall j m, (j, m) ∈ ls -> j ∈ Q) as HlsQ by (intros j m Hj; rewrite <- HQ; by apply (list_elem_of_fmap_2 fst ls (j, m))).
  pose proof (HlsQ _ _ Hin) as Hi; pose proof (Hls _ _ Hin) as Hn; destruct (co_nodes _ _ _ HC _ _ Hn) as [Hid _ Hcf _ _].
  destruct (Hup i Hi) as (n0 & Hn0 & Hrun & Hrole & Hcomp & Ht); rewrite Hn in Hn0; injection Hn0 as <-.
  destruct (win_election cfg freshSm i n T Q c) as (evs & c' & n' & ?); try done; [|by exists i, evs, c', n'].
  - intros j Hj; destruct (Hup j Hj) as (m & Hm & _ & _ & _ & Hmt); exists m; split_and!; [done|done|].
    assert (exists m', (j, m') ∈ ls) as [m' Hm'].
    { rewrite <- HQ in Hj; apply list_elem_of_fmap in Hj as ([j' m'] & -> & ?); by exists m'. }
    pose proof (Hls _ _ Hm') as E; rewrite Hm in E; injection E as <-; by eapply Hmax.
Qed.

(** After the election of [elected3] node 1 has crashed and restarted: nodes 2 and 3,
    or 1 and 2, can elect a leader of term 2. *)
Lemma election_possible_witness :
  exists c, run_admissible sample_cfg KvStore_init [EvRestart 1 [] 1000] elected3 = Some c /\
    exists i evs c' n, i ∈ [2; 3] /\ Forall (fun ev => match ev with EvTick x _ => x = i | EvDeliver _ _ => True | _ => False end) evs /\
      run_admissible sample_cfg KvStore_init evs c = Some c' /\ nodes c' !! i = Some n /\ role_ n = Leader /\ nodeTerm n = 2.
Proof.
  destruct (replayed (fun c => (fun i => (fun m : RaftNode KvStore => (running_ m, role_ m, bool_decide (compact m), nodeTerm m <=? 1)) <$> nodes c !! i) <$> [2; 3])
    (run_admissible sample_cfg KvStore_init [EvRestart 1 [] 1000] elected3)
    [Some (true, Follower, true, true); Some (true, Follower, true, true)]) as (c & Hc & Hv); [vm_compute; reflexivity|].
  exists c; split; [done|].
  assert (rtc (step sample_cfg KvStore_init) (freshCluster sample_cfg KvStore_init (sample_opts <$> [1; 2; 3])) c) as Hr.
  { etransitivity; [exact elected3_reachable|by eapply run_admissible_steps]. }
  apply (election_possible sample_cfg KvStore_init (sample_opts <$> [1; 2; 3]) c [2; 3] 1);
    [exact sample_voters_nodup|simpl; lia|exact sample_ids|exact Hr|by_decide|intros j Hj; by right|reflexivity| |reflexivity].
  clear Hr Hc; injection Hv as H2 H3; intros j [->|[->|[]%elem_of_nil]%elem_of_cons]%elem_of_cons.
  - destruct (nodes c !! 2) as [m|]; [|discriminate]; injection H2 as Ha Hb Hd He; exists m; split_and!; try done; [by rewrite Hb|by apply bool_decide_eq_true in Hd|by apply N.leb_le].
  - destruct (nodes c !! 3) as [m|]; [|discriminate]; injection H3 as Ha Hb Hd He; exists m; split_and!; try done; [by rewrite Hb|by apply bool_decide_eq_true in Hd|by apply N.leb_le].
Defined.
