(* ===== verification/WriteProgress.v ===== *)
(** * Progress of writes

    A leader whose log is committed and applied, and a majority whose logs end like
    the leader's: a proposed command is replicated by the next heartbeat round,
    committed by the answers, applied, and its result is there for the client.  The
    followers may be behind with their commit index and with applying, as they are
    after a write, and the round may take a snapshot. *)
From stdpp Require Import base tactics list gmap numbers strings sorting relations.
From Stdlib Require Import Ascii NArith Lia.
From S2P Require Import Prelude.
From S2P Require Import Buffer.
From S2P Require Import Types.
From S2P Require Import RpcMessages.
From S2P Require Import PersistentLog.
From S2P Require Import StateMachine.
From S2P Require Import KvStore.
From S2P Require Import RaftNode.
From S2P Require Import RaftNodeFacts.
From S2P Require Import RaftCommit.
From S2P Require Import RaftHandlers.
From S2P Require Import Cluster.
From S2P Require Import RaftInvariant.
From S2P Require Import ElectionSafety.
From S2P Require Import RaftProgress.

Local Open Scope N_scope.

Section writes.
Context {S : Type} `{StateMachine S}.
Context (cfg : ClusterConfig) (freshSm : S).
Implicit Types (c : Cluster S) (n m : RaftNode S).

(** A leader that has committed and applied its whole log, which ends at [L]. *)
Record steady (i : NodeId) (L : LogIndex) n : Prop := {
  sd_id : id (opts_ n) = i;
  sd_config : config_ n = cfg;
  sd_running : running_ n = true;
  sd_role : role_ n = Leader;
  sd_wf : pl_wf (log_ n);
  sd_last : lastIndex (log_ n) = L;
  sd_commit : commitIndex_ n = L;
  sd_applied : lastApplied_ n = L;
  sd_bound : L + 2 < U64;
  sd_term : nodeTerm n + 1 < U64;
  sd_tracks : tracks_voters n;
  sd_match : forall v, v <> i -> default 0 (matchIndex_ n !! v) <= L;
  sd_prev : L = 0 \/ termAt L (log_ n) <> 0
}.

(** A follower of a leader of term [t] whose log ends at [L] with term [pt]: its log
    ends there too, it may not know yet how much is committed, and its state
    machine accepts the entries it has still to apply. *)
Record synced (t : Term) (L : LogIndex) (pt : Term) m : Prop := {
  sy_term : nodeTerm m <= t;
  sy_wf : pl_wf (log_ m);
  sy_last : lastIndex (log_ m) = L;
  sy_prev : termAt L (log_ m) = pt;
  sy_commit : commitIndex_ m <= L;
  sy_applied : snapshotIndex_ (log_ m) <= lastApplied_ m <= L;
  sy_accepts : exists m', applyCommittedEntries (set_commitIndex L m) = Ok m'
}.

(** ** The proposal *)
Definition newEntry (t : Term) (L : LogIndex) (b : bytes) : LogEntry := mkLogEntry t (L + 1) Command b.

(** A leader that has appended [e] and has it acknowledged by the voters [A]. *)
Record writing (i : NodeId) (t : Term) (L : LogIndex) (e : LogEntry) (s : S) (A : list NodeId) n : Prop := {
  wr_id : id (opts_ n) = i;
  wr_config : config_ n = cfg;
  wr_role : role_ n = Leader;
  wr_term : nodeTerm n = t;
  wr_wf : pl_wf (log_ n);
  wr_entries : exists es, entries_ (log_ n) = es ++ [e] /\ snapshotIndex_ (log_ n) + nlen es = L;
  wr_commit : commitIndex_ n = L;
  wr_applied : lastApplied_ n = L;
  wr_bound : L + 2 < U64;
  wr_sm : sm_ n = s;
  wr_tracks : tracks_voters n;
  wr_acked : forall v, v ∈ A -> v ∈ voters cfg /\ v <> i /\ matchIndex_ n !! v = Some (L + 1);
  wr_others : forall v, v <> i -> v ∉ A -> default 0 (matchIndex_ n !! v) <= L
}.

Lemma writing_last i t L e s A n : e_index e = L + 1 -> writing i t L e s A n -> lastIndex (log_ n) = L + 1 /\ at_ (L + 1) (log_ n) = Some e.
Proof.
  intros He [_ _ _ _ Hwf (es & Hes & HL) _ _ Hb _ _ _ _]; assert (lastIndex (log_ n) = L + 1) as Hl.
  { rewrite (lastIndex_wf _ Hwf), Hes, nlen_snoc; lia. }
  split; [done|]; rewrite at_spec by lia; rewrite decide_True, Hes by lia.
  replace (N.to_nat (L + 1 - snapshotIndex_ (log_ n) - 1)) with (length es) by (unfold nlen in HL; lia); by rewrite list_lookup_middle.
Qed.

Lemma propose_steady i L n b :
  steady i L n -> (2 <= length (voters cfg))%nat ->
  let e := newEntry (nodeTerm n) L b in
  let n1 := set_log (appendAndSync [e] (log_ n)) n in
  exists r, propose b Command n = Ok (n1, r) /\ writing i (nodeTerm n) L e (sm_ n) [] n1.
Proof.
  intros [Hid Hcf Hrun Hrl Hwf Hlast Hcm Hap Hb _ Htr Hm _] Hlen e n1.
  destruct (append_next e (log_ n) Hwf ltac:(lia) ltac:(by rewrite Hlast)) as (Hwf1 & Hes & Hsi & Hl1 & Ht1 & _).
  assert (tryAdvanceCommitIndex n1 = Ok n1) as Hadv.
  { apply tryAdvance_behind; [|unfold n1; cbn|unfold n1; cbn; by rewrite Hcf].
    - destruct Htr; by split.
    - intros v _ Hv; rewrite Hcm; apply Hm; congruence. }
  unfold propose; rewrite decide_True by done; rewrite Hlast, add64_small by lia.
  fold (nodeTerm n); fold (newEntry (nodeTerm n) L b); fold e; fold n1; rewrite Hadv; cbn [mbind outcome_bind]; eexists; split; [done|].
  split; unfold n1; cbn; try done.
  - exists (entries_ (log_ n)); split; [done|]; rewrite <- Hlast, (lastIndex_wf _ Hwf); done.
  - destruct Htr; by split.
  - intros v Hv; by apply elem_of_nil in Hv.
  - intros v Hv _; by apply Hm.
Qed.

(** ** The answers *)

(** How many voters store the new entry. *)
Lemma writing_replicas i t L e s A n :
  e_index e = L + 1 -> NoDup A -> i ∉ A -> writing i t L e s A n -> replicas n (L + 1) = Datatypes.S (length A).
Proof.
  intros He HA Hi Hw; pose proof (writing_last _ _ _ _ _ _ _ He Hw) as [Hl _].
  destruct Hw as [Hid Hcf _ _ _ _ _ _ _ _ [Hnd Hself _] Hack Hoth]; unfold replicas.
  change (Datatypes.S (length A)) with (length (i :: A)); apply Permutation_length, NoDup_Permutation.
  - by apply NoDup_filter.
  - by apply NoDup_cons.
  - intros v; rewrite list_elem_of_filter, elem_of_cons; unfold storedAt; rewrite Hid, Hcf in *; split.
    + intros [Hv Hin]; case_decide as Hd; [by left|right]; destruct (decide (v ∈ A)) as [|Hna]; [done|].
      specialize (Hoth v Hd Hna); lia.
    + intros [->|Hin]; [rewrite decide_True by done; split; [lia|done]|].
      destruct (Hack v Hin) as (Hv & Hne & ->); rewrite decide_False by done; simpl; split; [lia|done].
Qed.

Lemma writing_stored i t L e s A n v :
  e_index e = L + 1 -> writing i t L e s A n -> storedAt n v <= L + 1.
Proof.
  intros He Hw; pose proof (writing_last _ _ _ _ _ _ _ He Hw) as [Hl _]; destruct Hw as [Hid _ _ _ _ _ _ _ _ _ _ Hack Hoth].
  unfold storedAt; case_decide as Hd; [lia|]; rewrite Hid in Hd; destruct (decide (v ∈ A)) as [Hin|Hna].
  - destruct (Hack v Hin) as (_ & _ & ->); done.
  - specialize (Hoth v Hd Hna); lia.
Qed.

(** The index that is considered for commitment. *)
Lemma writing_candidate i t L e s A n :
  e_index e = L + 1 -> NoDup A -> i ∉ A -> writing i t L e s A n ->
  exists k, commitCandidate n = Some k /\
    if (length (voters cfg) / 2 <? Datatypes.S (length A))%nat then k = L + 1 else k <= L.
Proof.
  intros He HA Hi Hw; pose proof (writing_replicas _ _ _ _ _ _ _ He HA Hi Hw) as Hrep.
  pose proof (wr_tracks _ _ _ _ _ _ _ Hw) as Ht; pose proof (wr_config _ _ _ _ _ _ _ Hw) as Hcf.
  destruct (commitCandidate_some n Ht) as [k Hk]; exists k; split; [done|].
  destruct (commitCandidate_majority n k Ht Hk) as [Hmaj Hmax]; rewrite Hcf in *.
  assert (k <= L + 1) as Hle.
  { destruct (decide (k <= L + 1)) as [|Hgt]; [done|exfalso]; unfold replicas in Hmaj.
    rewrite filter_none in Hmaj; [simpl in Hmaj; lia|]; intros v _ Hv.
    pose proof (writing_stored _ _ _ _ _ _ _ v He Hw); lia. }
  destruct (Nat.ltb_spec (length (voters cfg) / 2) (Datatypes.S (length A))).
  - destruct (decide (k = L + 1)) as [|Hne]; [done|]; specialize (Hmax (L + 1) ltac:(lia)); lia.
  - destruct (decide (k = L + 1)) as [->|Hne]; [lia|lia].
Qed.

(** The new entry is the only one to apply. *)
Definition done_with (i : NodeId) (L : LogIndex) (s : S) (r : bytes) n : Prop :=
  role_ n = Leader /\ commitIndex_ n = L + 1 /\ sm_ n = s /\ waitApplied (L + 1) n = (true, Some r).

Lemma writing_applies i t L b s s' r A n :
  writing i t L (newEntry t L b) s A n -> sm_apply b (L + 1) s = Ok (s', r) ->
  exists n', applyCommittedEntries (set_commitIndex (L + 1) n) = Ok n' /\ done_with i L s' r n'.
Proof.
  intros [_ _ Hrl _ Hwf (es & Hes & HL) Hcm Hap Hb Hsm _ _ _] Hsa.
  set (m := set_commitIndex (L + 1) n); assert (lastIndex (log_ m) = L + 1) as Hlast.
  { change (lastIndex (log_ n) = L + 1); rewrite (lastIndex_wf _ Hwf), Hes, nlen_snoc; lia. }
  assert (applyTarget m = L + 1) as Htg.
  { unfold applyTarget; rewrite Hlast; change (lastApplied_ m) with (lastApplied_ n); change (commitIndex_ m) with (L + 1); lia. }
  assert (committedEntries m = [newEntry t L b]) as Hce.
  { unfold committedEntries; rewrite Htg; change (lastApplied_ m) with (lastApplied_ n); change (log_ m) with (log_ n); rewrite Hap, Hes.
    replace (N.to_nat (L - snapshotIndex_ (log_ n))) with (length es) by (unfold nlen in HL; lia); rewrite drop_app_length.
    by replace (N.to_nat (L + 1 - L)) with 1%nat by lia. }
  rewrite (applyCommittedEntries_eq m Hwf ltac:(change (snapshotIndex_ (log_ n) <= lastApplied_ n); lia) ltac:(change (L + 1 < U64); lia)), Hce, Htg.
  cbn [applyAll]; unfold applyEntry; cbn [e_type newEntry e_data e_index sm_ set_lastApplied].
  change (sm_ m) with (sm_ n); rewrite Hsm, Hsa; cbn [mbind outcome_bind mret outcome_ret fst snd]; eexists; split; [reflexivity|].
  unfold done_with, waitApplied; cbn; rewrite N.leb_refl, lookup_insert_eq; by split_and!.
Qed.

(** An acknowledgement: the entry is committed and applied, or one more voter is
    known to store it. *)
Lemma writing_ack i t L b s s' r A n j :
  writing i t L (newEntry t L b) s A n -> NoDup (j :: A) -> i ∉ j :: A -> j ∈ voters cfg -> sm_apply b (L + 1) s = Ok (s', r) ->
  exists n', onAppendEntriesResp j t true (mkAppendEntriesResp t true (L + 1) 0 0) n = Ok n' /\
    if (length (voters cfg) / 2 <? Datatypes.S (Datatypes.S (length A)))%nat then done_with i L s' r n'
    else writing i t L (newEntry t L b) s (j :: A) n'.
Proof.
  intros Hw HA Hi Hj Hsa; set (n1 := set_nextIndex (<[j := add64 (L + 1) 1]> (nextIndex_ n)) (set_matchIndex (<[j := L + 1]> (matchIndex_ n)) n)).
  assert (writing i t L (newEntry t L b) s (j :: A) n1) as Hw1.
  { destruct Hw as [Hid Hcf Hrl Htm Hwf Hes Hcm Hap Hb Hsm [Hnd Hself Hdom] Hack Hoth]; split; unfold n1; cbn; try done.
    - split; cbn; [done|done|]; intros v; rewrite lookup_insert_is_Some'; split; [intros Hv; right; by apply Hdom|]; intros [<-|Hv]; [by rewrite Hcf|by apply Hdom].
    - intros v [->|Hv]%elem_of_cons; [rewrite lookup_insert_eq; split_and!; [done|set_solver|done]|].
      destruct (Hack v Hv) as (? & ? & ?); rewrite lookup_insert_ne; [done|]; intros ->; apply NoDup_cons in HA as [? _]; done.
    - intros v Hv Hni; rewrite lookup_insert_ne by set_solver; apply Hoth; set_solver. }
  assert (onAppendEntriesResp j t true (mkAppendEntriesResp t true (L + 1) 0 0) n = tryAdvanceCommitIndex n1) as ->.
  { unfold onAppendEntriesResp; cbn [negb aer_term aer_success aer_matchIndex]; pose proof (wr_term _ _ _ _ _ _ _ Hw) as Htm; unfold nodeTerm in Htm.
    rewrite Htm, N.ltb_irrefl, N.eqb_refl, bool_decide_eq_true_2 by apply Hw; done. }
  destruct (writing_candidate i t L (newEntry t L b) s (j :: A) n1 eq_refl HA Hi Hw1) as (k & Hk & Hcase).
  pose proof (writing_last i t L (newEntry t L b) s (j :: A) n1 eq_refl Hw1) as [Hl Hat]; cbn [length] in Hcase.
  unfold tryAdvanceCommitIndex; rewrite decide_True, Hk by apply Hw1; rewrite (wr_commit _ _ _ _ _ _ _ Hw1).
  destruct (length (voters cfg) / 2 <? _)%nat; [subst k|].
  - rewrite (proj2 (N.ltb_lt L (L + 1))) by lia; destruct (wr_entries _ _ _ _ _ _ _ Hw1) as (es & _ & HL).
    pose proof (wr_bound _ _ _ _ _ _ _ Hw1); rewrite termAt_at, Hat by lia; cbn [e_term newEntry].
    pose proof (wr_term _ _ _ _ _ _ _ Hw1) as Ht; unfold nodeTerm in Ht; rewrite Ht, N.eqb_refl; cbn [andb].
    by eapply writing_applies.
  - destruct (N.ltb_spec L k); [lia|]; by exists n1.
Qed.

(** ** The requests *)
Definition entryRequest (i : NodeId) (t : Term) (L : LogIndex) (pt : Term) (e : LogEntry) : AppendEntriesReq :=
  mkAppendEntriesReq t i L pt [e] L.

(** Whether entries can be applied depends on the state machine only. *)
Lemma applyEntry_ok e n m n' :
  sm_ n = sm_ m -> applyEntry e n = Ok n' -> exists m', applyEntry e m = Ok m' /\ sm_ n' = sm_ m'.
Proof.
  intros Hs; unfold applyEntry, applyConfigEntry; intros Hr; destruct (e_type e); simpl in Hr |- *.
  - rewrite Hs in Hr; destruct (sm_apply (e_data e) (e_index e) (sm_ m)) as [[s1 r1]|]; [|done]; simpl in *; injection Hr as <-; by eexists.
  - destruct (ClusterConfig_decode _) as [[p q]|]; [|done]; simpl in *.
    assert (forall vs (x : RaftNode S), sm_ (fold_left (fun n v =>
      match nextIndex_ n !! v with Some _ => n | None => set_matchIndex (<[v := 0]> (matchIndex_ n))
        (set_nextIndex (<[v := add64 (lastIndex (log_ n)) 1]> (nextIndex_ n)) n) end) vs x) = sm_ x) as Hf.
    { induction vs as [|v vs IH]; intros x; [done|]; simpl; rewrite IH; by destruct (nextIndex_ x !! v). }
    do 2 case_decide; simpl in *; injection Hr as <-; eexists; (split; [done|]); simpl; by rewrite ?Hf.
  - injection Hr as <-; by eexists.
  - injection Hr as <-; by eexists.
Qed.

Lemma applyAll_ok es n m n' : sm_ n = sm_ m -> applyAll es n = Ok n' -> exists m', applyAll es m = Ok m'.
Proof.
  revert n m; induction es as [|e es IH]; intros n m Hs; cbn [applyAll]; [by eexists|]; intros Hr.
  apply outcome_bind_Ok in Hr as (n1 & H1 & H2); destruct (applyEntry_ok e n m n1 Hs H1) as (m1 & -> & Hs1); cbn [mbind outcome_bind]; by eapply IH.
Qed.

(** The entries of a log that ends at [L] are applied as well when another one follows. *)
Lemma apply_below n L e (k : RaftNode S) :
  pl_wf (log_ n) -> lastIndex (log_ n) = L -> L + 2 < U64 -> e_index e = L + 1 -> snapshotIndex_ (log_ n) <= lastApplied_ n <= L ->
  (exists n', applyCommittedEntries (set_commitIndex L n) = Ok n') ->
  sm_ k = sm_ n -> lastApplied_ k = lastApplied_ n -> commitIndex_ k = L -> same_log (appendAndSync [e] (log_ n)) (log_ k) ->
  exists k', applyCommittedEntries k = Ok k'.
Proof.
  intros Hwf Hl Hb He Ha [n' Hn'] Hs Hla Hc (Hke & Hks & _).
  destruct (append_next e (log_ n) Hwf ltac:(lia) ltac:(by rewrite Hl)) as (Hwf1 & Hes & Hsi & Hl1 & _).
  rewrite (applyCommittedEntries_eq (set_commitIndex L n)) in Hn' by (exact Hwf || (cbn; lia)).
  assert (pl_wf (log_ k)) as Hwfk by (destruct Hwf1; split; by rewrite ?Hke, ?Hks).
  assert (lastIndex (log_ k) = L + 1) as Hlk by (rewrite (lastIndex_wf _ Hwfk), Hke, Hks, <- (lastIndex_wf _ Hwf1), Hl1; lia).
  assert (snapshotIndex_ (log_ k) = snapshotIndex_ (log_ n)) as Hsk by congruence.
  rewrite (applyCommittedEntries_eq k Hwfk) by (rewrite ?Hsk, ?Hla, ?Hc; lia).
  assert (applyTarget k = L /\ applyTarget (set_commitIndex L n) = L) as [Etk Etn].
  { unfold applyTarget; rewrite Hla, Hc, Hlk; cbn; rewrite Hl; lia. }
  assert (committedEntries k = committedEntries (set_commitIndex L n)) as ->.
  { unfold committedEntries; rewrite Etk, Etn, Hla, Hsk, Hke, Hes; cbn; pose proof (lastIndex_wf _ Hwf) as Hlw; unfold nlen in Hlw.
    rewrite drop_app_le by lia; rewrite take_app_le; [done|]; rewrite length_drop; lia. }
  eapply applyAll_ok; [|exact Hn']; by cbn.
Qed.

(** A follower whose log ends like the leader's takes the entry. *)
Lemma synced_accepts i t L pt b m now :
  synced t L pt m -> L = 0 \/ pt <> 0 -> L + 2 < U64 ->
  exists m', handleAppendEntries (entryRequest i t L pt (newEntry t L b)) (set_now now m) = Ok (m', mkAppendEntriesResp t true (L + 1) 0 0).
Proof.
  intros [Ht Hwf Hl Hpt Hcm Hap Hok] Hprev Hb; set (req := entryRequest i t L pt (newEntry t L b)); set (e := newEntry t L b) in *.
  assert (e_index e = L + 1) as Hei by done.
  assert (ae_term req = t /\ ae_entries req = [e] /\ ae_leaderCommit req = L /\ ae_prevLogIndex req = L /\ ae_prevLogTerm req = pt)
    as (Ert & Ere & Erc & Erp & Erl) by done; clearbody req e.
  rewrite handleAppendEntries_accept by (rewrite Ert; exact Ht).
  destruct (followed_fields req (set_now now m)) as (_ & _ & Htm & Hsm & Hla & Hco & Hlg); [rewrite Ert; exact Ht|].
  revert Htm Hsm Hla Hco Hlg; generalize (followed req (set_now now m)) as f; intros f Htm Hsm Hla Hco Hlg; unfold nodeTerm in Htm.
  change (same_log (log_ m) (log_ f)) in Hlg; change (sm_ f = sm_ m) in Hsm.
  change (lastApplied_ f = lastApplied_ m) in Hla; change (commitIndex_ f = commitIndex_ m) in Hco.
  assert (checkPrev req (log_ f) = None) as Hcp.
  { apply checkPrev_accepts; rewrite Erp; [destruct Hlg as (_ & -> & _); lia|].
    rewrite (same_log_termAt _ _ _ Hlg), Erl; destruct Hprev; [by left|by right]. }
  unfold acceptEntries; rewrite Hcp, Ere; cbn [last]; rewrite Erc, Hei, N.min_l by lia.
  set (g := set_log (appendAndSync [e] (log_ f)) f); set (k := if commitIndex_ g <? L then set_commitIndex L g else g).
  assert (sm_ k = sm_ m /\ lastApplied_ k = lastApplied_ m /\ commitIndex_ k = L /\ log_ k = appendAndSync [e] (log_ f)) as (Ks & Ka & Kc & Kl).
  { unfold k; change (commitIndex_ g) with (commitIndex_ f); rewrite Hco; destruct (N.ltb_spec (commitIndex_ m) L); cbn; split_and!; try done; lia. }
  destruct (apply_below m L e k) as [k' Hk']; try done.
  { rewrite Kl; destruct Hlg as (E1 & E2 & E3); unfold same_log, appendAndSync; cbn; rewrite E1, E2, E3; done. }
  rewrite Hk'; cbn [mbind outcome_bind mret outcome_ret]; exists k'; rewrite (fr_log _ _ (applyCommittedEntries_frame _ _ Hk')), Kl.
  change (currentTerm_ (appendAndSync [e] (log_ f))) with (currentTerm_ (log_ f)); by rewrite Htm, Ert.
Qed.

(** A snapshot of the applied entries keeps the new one. *)
Lemma writing_snapshot i t L e s A n : writing i t L e s A n -> writing i t L e s A (maybeSnapshot n).
Proof.
  intros Hw; unfold maybeSnapshot; destruct (snapshotThresholdEntries _ <=? _); [|done]; unfold forceSnapshot.
  destruct (N.leb_spec (lastApplied_ n) (snapshotIndex_ (log_ n))) as [|Hlt]; [done|].
  destruct Hw as [Hid Hcf Hrl Htm Hwf (es & Hes & HL) Hcm Hap Hb Hsm [Hnd Hself Hdom] Hack Hoth]; rewrite Hap in *.
  set (tm := termAt L (log_ n)); set (by_ := sm_snapshot (sm_ n)); clearbody tm by_.
  destruct (compactUpTo_facts L tm by_ (log_ n) Hwf ltac:(lia) ltac:(lia)) as (Hwf' & Hsi & _ & _).
  assert (entries_ (compactUpTo L tm by_ (log_ n)) = [e] /\ currentTerm_ (compactUpTo L tm by_ (log_ n)) = currentTerm_ (log_ n)) as [Hes' Ht'].
  { unfold compactUpTo; destruct (N.leb_spec L (snapshotIndex_ (log_ n))); [lia|]; split; [|done].
    change (entries_ (with_dir _ ?x)) with (entries_ x); unfold compact_entries; cbn [entries_]; rewrite sub64_small by lia.
    rewrite Hes, nlen_app; destruct (N.leb_spec (L - snapshotIndex_ (log_ n)) (nlen es + nlen [e])); [|lia].
    replace (N.to_nat (L - snapshotIndex_ (log_ n))) with (length es) by (unfold nlen in HL; lia); by rewrite drop_app_length. }
  split; try done; cbn [log_ set_log].
  - unfold nodeTerm in *; cbn [log_ set_log]; by rewrite Ht'.
  - exists []; split; [exact Hes'|rewrite Hsi; unfold nlen; simpl; lia].
Qed.

(** The heartbeat round sends the entry to every voter that is in step. *)
Lemma writing_broadcast i t L b s n n1 j :
  steady i L n -> n1 = set_log (appendAndSync [newEntry t L b] (log_ n)) n -> t = nodeTerm n ->
  nextIndex_ n !! j = Some (L + 1) -> j ∈ voters cfg -> j <> i -> writing i t L (newEntry t L b) s [] n1 ->
  SendAppendEntries j (entryRequest i t L (termAt L (log_ n)) (newEntry t L b)) t ∈ broadcastAppendEntries n1.
Proof.
  intros [Hid Hcf _ Hrl Hwf Hlast Hcm _ Hb _ _ _ _] -> -> Hnx Hj Hji Hw.
  destruct (wr_entries _ _ _ _ _ _ _ Hw) as (es & Hes & HL); pose proof (wr_wf _ _ _ _ _ _ _ Hw) as Hwf1.
  set (n1 := set_log _ n) in *; assert (nextIndex_ n1 = nextIndex_ n /\ config_ n1 = cfg /\ opts_ n1 = opts_ n /\ role_ n1 = Leader /\ commitIndex_ n1 = L) as (En & Ec & Eo & Er & Em) by done.
  assert (snapshotIndex_ (log_ n1) = snapshotIndex_ (log_ n) /\ currentTerm_ (log_ n1) = nodeTerm n /\ snapshotTerm_ (log_ n1) = snapshotTerm_ (log_ n)) as (Es & Et & Ep) by done.
  destruct (append_next (newEntry (nodeTerm n) L b) (log_ n) Hwf ltac:(lia) ltac:(by rewrite Hlast)) as (_ & Hes0 & _).
  change (entries_ (log_ n1) = entries_ (log_ n) ++ [newEntry (nodeTerm n) L b]) in Hes0; rewrite Hes in Hes0; apply app_inj_tail in Hes0 as [-> _].
  assert (termAt L (log_ n1) = termAt L (log_ n)) as Etm.
  { destruct (decide (L = snapshotIndex_ (log_ n))) as [E|E].
    - rewrite E at 2; rewrite termAt_snapshot, <- Ep, <- termAt_snapshot; congruence.
    - rewrite !termAt_at, !at_spec by lia; rewrite Es, Hes; destruct (decide (snapshotIndex_ (log_ n) < L)); [|done].
      rewrite lookup_app_l; [done|]; unfold nlen in HL; lia. }
  unfold broadcastAppendEntries; rewrite decide_True by done; apply list_elem_of_In, in_flat_map; exists j; split; [by rewrite Ec; apply list_elem_of_In|].
  rewrite Eo, Hid, (proj2 (N.eqb_neq j i) Hji); unfold nextIndexOf; rewrite En, Hnx.
  destruct (N.leb_spec (L + 1) (snapshotIndex_ (log_ n1))); [lia|]; unfold sendAppendEntriesTo; rewrite decide_True by done; left.
  unfold nextIndexOf; rewrite En, Hnx, sub64_small by lia; replace (L + 1 - 1) with L by lia; rewrite Eo, Hid, Et, Etm, Em.
  unfold entryRequest; do 2 f_equal; rewrite entriesAfter_spec by (done || lia); cbn [N.eqb].
  rewrite Hes; replace (N.to_nat (L - snapshotIndex_ (log_ n1))) with (length (entries_ (log_ n))) by (unfold nlen in HL; lia).
  by rewrite drop_app_length.
Qed.

(** ** In the group *)

(** The leader [i] waits for the answers of [Q]; its log before the entry ends with term [pt]. *)
Record replicating (i : NodeId) (t : Term) (L : LogIndex) (b : bytes) (s : S) (pt : Term) (A Q : list NodeId) c : Prop := {
  rp_node : exists n, nodes c !! i = Some n /\ writing i t L (newEntry t L b) s A n;
  rp_asked : forall j, j ∈ Q -> Request i (incOf c i) (SendAppendEntries j (entryRequest i t L pt (newEntry t L b)) t) ∈ net c;
  rp_peers : forall j, j ∈ Q -> j ∈ voters cfg /\ exists m, nodes c !! j = Some m /\ synced t L pt m
}.

Lemma replicating_step i t L b s s' r pt A j Q c (now : N) :
  L = 0 \/ pt <> 0 -> L + 2 < U64 -> sm_apply b (L + 1) s = Ok (s', r) ->
  i ∉ j :: Q ++ A -> NoDup (j :: Q ++ A) -> replicating i t L b s pt A (j :: Q) c ->
  exists evs c', forallb delivery evs = true /\ run_admissible cfg freshSm evs c = Some c' /\
    (if (length (voters cfg) / 2 <? Datatypes.S (Datatypes.S (length A)))%nat
     then exists n', nodes c' !! i = Some n' /\ done_with i L s' r n'
     else replicating i t L b s pt (j :: A) Q c').
Proof.
  intros Hprev Hb Hsa Hni HndA [(n & Hn & Hw) Hask Hpeers]; assert (j <> i) as Hji by (intros ->; apply Hni; left).
  apply NoDup_cons in HndA as [Hj (HQ & HQA & HA)%NoDup_app].
  destruct (proj1 (list_elem_of_lookup _ _) (Hask j ltac:(left))) as [k Hk]; destruct (Hpeers j ltac:(left)) as (Hjv & m & Hm & Hmy).
  destruct (synced_accepts i t L pt b m now Hmy Hprev Hb) as [m' Hg].
  set (reply := AppendReply i (incOf c i) j t (mkAppendEntriesResp t true (L + 1) 0 0)).
  set (c1 := update c j m' (delete k (net c) ++ [reply])).
  assert (run_admissible cfg freshSm [EvDeliver k now] c = Some c1) as H1 by (simpl; rewrite Hk; simpl; rewrite Hm; simpl; by rewrite Hg).
  assert (nodes c1 !! i = Some n) as Hn1 by (simpl; by rewrite lookup_insert_ne).
  assert (net c1 !! length (delete k (net c)) = Some reply) as Hk1 by (simpl; by rewrite list_lookup_middle).
  assert (delete (length (delete k (net c))) (net c1) = delete k (net c)) as Hd1 by (simpl; by rewrite delete_middle, app_nil_r).
  assert (incOf c1 i = incOf c i) as Hinc by done.
  assert (writing i t L (newEntry t L b) s A (set_now now n)) as Hwn by (destruct Hw as [? ? ? ? ? ? ? ? ? ? [] ? ?]; by split).
  destruct (writing_ack i t L b s s' r A (set_now now n) j Hwn) as (n' & Hon & Hafter); [by apply NoDup_cons; split; [set_solver|]|set_solver|done|done|].
  exists [EvDeliver k now; EvDeliver (length (delete k (net c))) now], (update c1 i n' (delete k (net c))); split; [done|]; split.
  { assert (exec cfg freshSm c1 (EvDeliver (length (delete k (net c))) now) = Some (update c1 i n' (delete k (net c)))) as H2.
    { unfold exec; rewrite Hk1, Hd1; unfold reply, mbind, option_bind, deliverReply; rewrite Hn1, Hinc, N.eqb_refl, Hon; done. }
    cbn [run_admissible admissible] in H1 |- *; destruct (exec cfg freshSm c (EvDeliver k now)) as [c2|]; [|done]; injection H1 as ->.
    cbn [mbind option_bind]; by rewrite H2. }
  destruct (_ <? _)%nat; [exists n'; split; [apply lookup_insert_eq|exact Hafter]|]; split.
  - exists n'; split; [apply lookup_insert_eq|exact Hafter].
  - intros x Hx; cbn [net update]; eapply elem_of_delete; [exact Hk|apply Hask; by right|]; intros [= E]; subst x; set_solver.
  - intros x Hx; destruct (Hpeers x ltac:(by right)) as (Hxv & mx & Hmx & ?); split; [done|]; exists mx; split; [|done]; cbn [nodes update c1].
    rewrite !lookup_insert_ne; [done| |]; intros ->; set_solver.
Qed.

Lemma replicating_commits i t L b s s' r pt Q : forall A c (now : N),
  L = 0 \/ pt <> 0 -> L + 2 < U64 -> sm_apply b (L + 1) s = Ok (s', r) ->
  i ∉ Q ++ A -> NoDup (Q ++ A) -> (Datatypes.S (length A) <= length (voters cfg) / 2 < Datatypes.S (length A + length Q))%nat ->
  replicating i t L b s pt A Q c ->
  exists evs c' n', forallb delivery evs = true /\ run_admissible cfg freshSm evs c = Some c' /\ nodes c' !! i = Some n' /\ done_with i L s' r n'.
Proof.
  induction Q as [|j Q IH]; intros A c now Hprev Hb Hsa Hni Hnd Hm Hc; [simpl in Hm; lia|].
  destruct (replicating_step i t L b s s' r pt A j Q c now Hprev Hb Hsa Hni Hnd Hc) as (evs & c1 & Hd & Hr & Hafter).
  destruct (Nat.ltb_spec (length (voters cfg) / 2) (Datatypes.S (Datatypes.S (length A)))) as [_|Hge]; [destruct Hafter as (n' & ?); by exists evs, c1, n'|].
  assert (j :: Q ++ A ≡ₚ Q ++ j :: A) as Hp by apply Permutation_middle.
  destruct (IH (j :: A) c1 now) as (evs' & c' & n' & Hd' & Hr' & Hl); [done..|by rewrite <- Hp|by rewrite <- Hp|simpl in *; lia|done|].
  exists (evs ++ evs'), c', n'; split; [by rewrite forallb_app, Hd, Hd'|]; split; [by eapply run_admissible_app|done].
Qed.

(** The proposal and the heartbeat round after it. *)
Lemma write_sent i L n b c :
  nodes c !! i = Some n -> steady i L n -> (2 <= length (voters cfg))%nat -> nlen b < U32 ->
  let t := nodeTerm n in
  exists now c', run_admissible cfg freshSm [EvPropose i b; EvTick i now] c = Some c' /\ incOf c' i = incOf c i /\
    (exists n', nodes c' = <[i := n']> (nodes c) /\ writing i t L (newEntry t L b) (sm_ n) [] n') /\
    forall j, nextIndex_ n !! j = Some (L + 1) -> j ∈ voters cfg -> j <> i ->
      Request i (incOf c i) (SendAppendEntries j (entryRequest i t L (termAt L (log_ n)) (newEntry t L b)) t) ∈ net c'.
Proof.
  intros Hn Hst Hlen Hbl t; destruct (propose_steady i L n b Hst Hlen) as (r & Hpr & Hw); fold t in Hpr, Hw.
  set (n1 := set_log (appendAndSync [newEntry t L b] (log_ n)) n) in *; set (now := lastHeartbeat_ n + heartbeatIntervalMs (opts_ n)).
  set (c1 := update c i n1 (net c)); set (n2 := maybeSnapshot (set_lastHeartbeat now (set_now now n1))).
  assert (run_admissible cfg freshSm [EvPropose i b] c = Some c1) as H1.
  { cbn [run_admissible admissible exec]; rewrite (proj2 (N.ltb_lt _ _) Hbl), Hn; cbn [mbind option_bind]; by rewrite Hpr. }
  assert (broadcastAppendEntries (set_now now n1) = broadcastAppendEntries n1) as Hbc by done.
  assert (runLoopRound now n1 = Ok (n2, broadcastAppendEntries n1)) as Hr.
  { unfold runLoopRound; assert (role_ (set_now now n1) = Leader) as Hrl by apply Hw; rewrite decide_True by exact Hrl.
    assert ((lastHeartbeat_ (set_now now n1) + heartbeatIntervalMs (opts_ (set_now now n1)) <=? now) = true) as -> by (apply N.leb_refl).
    cbn [mbind outcome_bind fst snd mret outcome_ret]; by rewrite Hbc. }
  assert (nodes c1 !! i = Some n1) as Hn1 by apply lookup_insert_eq.
  assert (running_ n1 = true /\ nodeTerm n1 + 1 < U64) as [Hrun1 Ht1] by (split; apply Hst).
  exists now, (update c1 i n2 (net c1 ++ launch i (incOf c1 i) (broadcastAppendEntries n1))); split_and!.
  - apply (run_admissible_app cfg freshSm [EvPropose i b] [EvTick i now] c c1 _ H1); cbn [run_admissible admissible exec].
    rewrite Hn1, (proj2 (N.ltb_lt _ _) Ht1); cbn [mbind option_bind]; by rewrite Hrun1, Hr.
  - done.
  - exists n2; split; [cbn [nodes update c1]; by rewrite insert_insert_eq|]; apply writing_snapshot; destruct Hw as [? ? ? ? ? ? ? ? ? ? [] ? ?]; by split.
  - intros j Hj Hjv Hji; cbn [net update]; apply elem_of_app; right; unfold launch; apply list_elem_of_fmap_2.
    by eapply writing_broadcast.
Qed.
End writes.

(** ** The theorem *)

(** C15: a write in a healthy group completes.  Node [i] leads, runs, and has committed
    and applied its log, which ends at [L] (its tables cover exactly the voters); with
    it, a majority of at least two voters has a log that ends at [L] in the same term,
    is not in a later term, and is next to get entry [L + 1] from the leader; how much
    of the log these followers have committed and applied is free, their state
    machines must accept what is left and the leader's the new command.  Then the
    proposal, one round of the leader's timer and deliveries of messages lead to a
    state in which the command is committed and applied at the leader at [L + 1], and
    [waitApplied] returns exactly what the state machine answered.  Each method runs
    as one step, and the schedule is one that can happen, not one that must. *)
Theorem write_completes {S : Type} `{StateMachine S} (cfg : ClusterConfig) (freshSm : S) (c : Cluster S) (i : NodeId) (n : RaftNode S)
    (L : LogIndex) (Q : list NodeId) (b : bytes) (s' : S) (r : bytes)
    (Hlen : (2 <= length (voters cfg))%nat) (Hn : nodes c !! i = Some n) (Hst : steady cfg i L n)
    (HQ : NoDup Q) (Hi : i ∉ Q) (Hmaj : nlen (voters cfg) < 2 * (nlen Q + 1))
    (Hsy : forall j, j ∈ Q -> j ∈ voters cfg /\ nextIndex_ n !! j = Some (L + 1) /\
       exists m, nodes c !! j = Some m /\ synced (nodeTerm n) L (termAt L (log_ n)) m)
    (Hb : nlen b < U32) (Hsm : sm_apply b (L + 1) (sm_ n) = Ok (s', r)) :
  exists now evs c' n', forallb delivery evs = true /\
    run_admissible cfg freshSm (EvPropose i b :: EvTick i now :: evs) c = Some c' /\ nodes c' !! i = Some n' /\
    role_ n' = Leader /\ commitIndex_ n' = L + 1 /\ sm_ n' = s' /\ waitApplied (L + 1) n' = (true, Some r).
Proof.
  destruct (write_sent cfg freshSm i L n b c Hn Hst Hlen Hb) as (now & c1 & Hr1 & Hinc & (n1 & Hns & Hw) & Hnet).
  destruct (replicating_commits cfg freshSm i (nodeTerm n) L b (sm_ n) s' r (termAt L (log_ n)) Q [] c1 now) as (evs & c' & n' & Hev & Hr & Hn' & Hd);
    [apply Hst|apply Hst|done|by rewrite app_nil_r|by rewrite app_nil_r| | |].
  - pose proof (Nat.Div0.div_le_mono 2 (length (voters cfg)) 2 Hlen) as H2; pose proof (Nat.div_mod_eq (length (voters cfg)) 2).
    pose proof (Nat.mod_upper_bound (length (voters cfg)) 2); unfold nlen in Hmaj; simpl in *; lia.
  - split.
    + exists n1; by rewrite Hns, lookup_insert_eq.
    + intros j Hj; destruct (Hsy j Hj) as (Hjv & Hnx & _); rewrite Hinc; apply Hnet; [done|done|]; by intros ->.
    + intros j Hj; destruct (Hsy j Hj) as (Hjv & _ & m & Hm & Hsn); split; [done|]; exists m; by rewrite Hns, lookup_insert_ne by (by intros ->).
  - exists now, evs, c', n'; split; [done|]; split; [by apply (run_admissible_app cfg freshSm [EvPropose i b; EvTick i now] evs c c1)|].
    split; [done|exact Hd].
Qed.

(** ** A leader and a follower in step *)

(** After [elected3] node 2 gets the leader's first entry and its answer commits it;
    node 2 has not heard that it is committed, and node 3 has heard of nothing. *)
Definition settling : list Event := [EvDeliver 1 1000; EvDeliver 2 1000].

Definition leader_view (m : RaftNode KvStore) :=
  (id (opts_ m), config_ m, running_ m, role_ m, currentTerm_ (log_ m), (snapshotIndex_ (log_ m), snapshotTerm_ (log_ m), entries_ (log_ m)),
    (commitIndex_ m, lastApplied_ m), matchIndex_ m, nextIndex_ m !! 2, sm_ m).

Definition follower_view (m : RaftNode KvStore) :=
  (currentTerm_ (log_ m), (snapshotIndex_ (log_ m), snapshotTerm_ (log_ m), entries_ (log_ m)), (commitIndex_ m, lastApplied_ m),
    match applyCommittedEntries (set_commitIndex 1 m) with Ok _ => true | Throw _ => false end).

Definition first_entry : list LogEntry := [mkLogEntry 1 1 NoOp []].

Lemma write_completes_witness :
  exists c, run_admissible sample_cfg KvStore_init settling elected3 = Some c /\
    exists evs c' n' r, run_admissible sample_cfg KvStore_init evs c = Some c' /\ nodes c' !! 1 = Some n' /\
      KvStore_get (str "k") (sm_ n') = Some (str "a") /\ waitApplied 2 n' = (true, Some r).
Proof.
  destruct (replayed (fun c => (leader_view <$> nodes c !! 1, follower_view <$> nodes c !! 2))
    (run_admissible sample_cfg KvStore_init settling elected3)
    (Some (1, sample_cfg, true, Leader, 1, (0, 0, first_entry), (1, 1), (<[1 := 0]> (<[2 := 1]> {[3 := 0]})) : gmap N N, Some 2, KvStore_init),
     Some (1, (0, 0, first_entry), (0, 0), true))) as (c & Hc & Hv); [vm_compute; reflexivity|].
  exists c; split; [done|]; clear Hc; injection Hv as H1 H2.
  destruct (nodes c !! 1) as [n|] eqn:En; [|discriminate]; destruct (nodes c !! 2) as [m|] eqn:Em; [|discriminate].
  unfold leader_view in H1; unfold follower_view in H2; simpl in H1, H2.
  injection H1 as Hid Hcf Hrun Hrl Ht Hsi Hst He Hcm Hap Hmt Hnx Hsm; injection H2 as Ht2 Hsi2 Hst2 He2 Hcm2 Hap2 Hok2.
  assert (forall l, snapshotIndex_ l = 0 -> entries_ l = first_entry -> pl_wf l /\ lastIndex l = 1 /\ termAt 1 l = 1) as Hlog.
  { intros l El1 El2; assert (pl_wf l) as Hl by (split; rewrite El1, El2; [intros [|[|k]] e' Hk; inversion Hk; done|reflexivity]).
    split; [done|]; rewrite (lastIndex_wf _ Hl), El1, El2; split; [done|]; unfold termAt, at_; by rewrite El1, El2. }
  destruct (Hlog (log_ n) Hsi He) as (Hwf & Hlast & Htn); destruct (Hlog (log_ m) Hsi2 He2) as (Hwf2 & Hlast2 & Htm).
  destruct (write_completes sample_cfg KvStore_init c 1 n 1 [2] (KvCommand_encode (put_cmd "k" "a" 7 1))
    (KvStore_apply_cmd (put_cmd "k" "a" 7 1) KvStore_init).1 (KvStore_apply_cmd (put_cmd "k" "a" 7 1) KvStore_init).2)
    as (now & evs & c' & n' & _ & Hr & Hn' & _ & _ & Hs & Hw).
  - simpl; lia.
  - exact En.
  - split; try done.
    + unfold nodeTerm; by rewrite Ht.
    + split; rewrite ?Hcf, ?Hid, ?Hmt; [exact sample_voters_nodup|by left|].
      intros v; rewrite <- elem_of_dom; transitivity (v ∈ list_to_set (C := gset N) [1; 2; 3]); [by rewrite elem_of_list_to_set|].
      assert (dom (<[1:=0]> (<[2:=1]> {[3:=0]}) : gmap N N) = list_to_set (C := gset N) [1; 2; 3]) as -> by (vm_compute; reflexivity); done.
    + intros v Hv; rewrite Hmt; destruct (decide (v = 2)) as [->|]; [vm_compute; discriminate|].
      rewrite !lookup_insert_ne by done; destruct (decide (v = 3)) as [->|]; [vm_compute; discriminate|by rewrite lookup_singleton_ne].
    + right; by rewrite Htn.
  - by_decide.
  - by_decide.
  - reflexivity.
  - intros j [->|[]%elem_of_nil]%elem_of_cons; split; [by_decide|]; split; [done|]; exists m; split; [done|]; rewrite Htn; split; try done.
    + unfold nodeTerm; by rewrite Ht, Ht2.
    + by rewrite Hcm2.
    + by rewrite Hsi2, Hap2.
    + destruct (applyCommittedEntries (set_commitIndex 1 m)) as [m'|]; [by exists m'|done].
  - reflexivity.
  - rewrite Hsm; vm_compute; reflexivity.
  - exists (EvPropose 1 (KvCommand_encode (put_cmd "k" "a" 7 1)) :: EvTick 1 now :: evs), c', n'; eexists; split; [exact Hr|]; split; [exact Hn'|]; split; [rewrite Hs; vm_compute; reflexivity|exact Hw].
Defined.
