(* ===== verification/FaultyNetwork.v ===== *)
(** * The fault-injecting network of the tests

    [net/test_transport.h]: [FaultyNetwork] connects the nodes of a group inside
    one process and injects partitions, dead nodes, loss, delay and duplication;
    [TestTransport] is a node's end of it.  A message is a closure in [timers_],
    ordered by its time, then a job in [jobQueue_], then a job a worker is
    running: first the handler of its target, then the callback of its sender.

    Handlers and callbacks are single steps here, as in [Cluster]: the workers do not
    move inside one another's.  With that, every run of this network is a run of
    [Cluster] (the simulation below), so what holds of all schedules there holds
    under this network; without duplication this includes election safety.

    The random generator is an input: [Roll] has the outcomes of the calls of
    [roll] during one [deliver].  Nodes are registered before the run. *)
From stdpp Require Import base tactics list gmap numbers strings sorting relations.
From Stdlib Require Import Ascii NArith ZArith QArith Lia.
From S2P Require Import Prelude.
From S2P Require Import Buffer.
From S2P Require Import Types.
From S2P Require Import RpcMessages.
From S2P Require Import PersistentLog.
From S2P Require Import StateMachine.
From S2P Require Import KvStore.
From S2P Require Import RaftNode.
From S2P Require Import RaftNodeFacts.
From S2P Require Import RaftCommit.
From S2P Require Import RaftHandlers.
From S2P Require Import Cluster.
From S2P Require Import ElectionSafety.

Local Close Scope Q_scope.
Local Open Scope N_scope.

(** ** State *)

(** A scheduled closure: whether [find] had a target when it was made, and the
    call it will make.  A job whose handler has run carries the reply. *)
Record Job := mkJob { j_target : bool; j_packet : Packet }.

(** [dist(rng)] for the loss and for the duplication, and the truncated product
    of the third one with the width of the delay interval. *)
Record Roll := mkRoll { r_drop : Q; r_duplicate : Q; r_delay : Z }.

Record FaultyNetwork (S : Type) := mkFaultyNetwork {
  nodes_ : gmap N (RaftNode S);
  partitioned_ : bool;
  groupA_ : gset N;
  dead_ : gset N;
  dropRate_ : Q;
  duplicateRate_ : Q;
  delayMinMs_ : Z;
  delayMaxMs_ : Z;
  timers_ : list (Z * Job);
  jobQueue_ : list Job;
  working_ : list Job;
  workers_ : nat
}.
Arguments mkFaultyNetwork {S}.
Arguments nodes_ {S} _.
Arguments partitioned_ {S} _.
Arguments groupA_ {S} _.
Arguments dead_ {S} _.
Arguments dropRate_ {S} _.
Arguments duplicateRate_ {S} _.
Arguments delayMinMs_ {S} _.
Arguments delayMaxMs_ {S} _.
Arguments timers_ {S} _.
Arguments jobQueue_ {S} _.
Arguments working_ {S} _.
Arguments workers_ {S} _.

(** [r < rate] *)
Definition below (r rate : Q) : bool := negb (Qle_bool rate r).

(** [std::multimap::emplace]: after the elements with the same key. *)
Fixpoint emplace (t : Z) (j : Job) (l : list (Z * Job)) : list (Z * Job) :=
  match l with
  | [] => [(t, j)]
  | (t', j') :: l' => if (t <? t')%Z then (t, j) :: l else (t', j') :: emplace t j l'
  end.

Section network.
Context {S : Type} `{StateMachine S}.
Context (cfg : ClusterConfig) (freshSm : S).
Implicit Types (f : FaultyNetwork S) (n : RaftNode S) (c : Cluster S).

Definition set_nodes (x : gmap N (RaftNode S)) f : FaultyNetwork S :=
  mkFaultyNetwork x (partitioned_ f) (groupA_ f) (dead_ f) (dropRate_ f) (duplicateRate_ f)
    (delayMinMs_ f) (delayMaxMs_ f) (timers_ f) (jobQueue_ f) (working_ f) (workers_ f).
Definition set_jobs (ts : list (Z * Job)) (q w : list Job) f : FaultyNetwork S :=
  mkFaultyNetwork (nodes_ f) (partitioned_ f) (groupA_ f) (dead_ f) (dropRate_ f) (duplicateRate_ f)
    (delayMinMs_ f) (delayMaxMs_ f) ts q w (workers_ f).

(** ** Faults *)
Definition partition (groupA : gset N) f : FaultyNetwork S :=
  mkFaultyNetwork (nodes_ f) true groupA (dead_ f) (dropRate_ f) (duplicateRate_ f)
    (delayMinMs_ f) (delayMaxMs_ f) (timers_ f) (jobQueue_ f) (working_ f) (workers_ f).
Definition healPartition f : FaultyNetwork S :=
  mkFaultyNetwork (nodes_ f) false (groupA_ f) (dead_ f) (dropRate_ f) (duplicateRate_ f)
    (delayMinMs_ f) (delayMaxMs_ f) (timers_ f) (jobQueue_ f) (working_ f) (workers_ f).
Definition setDropRate (p : Q) f : FaultyNetwork S :=
  mkFaultyNetwork (nodes_ f) (partitioned_ f) (groupA_ f) (dead_ f) p (duplicateRate_ f)
    (delayMinMs_ f) (delayMaxMs_ f) (timers_ f) (jobQueue_ f) (working_ f) (workers_ f).
Definition setDuplicateRate (p : Q) f : FaultyNetwork S :=
  mkFaultyNetwork (nodes_ f) (partitioned_ f) (groupA_ f) (dead_ f) (dropRate_ f) p
    (delayMinMs_ f) (delayMaxMs_ f) (timers_ f) (jobQueue_ f) (working_ f) (workers_ f).
Definition setDelayMs (minMs maxMs : Z) f : FaultyNetwork S :=
  mkFaultyNetwork (nodes_ f) (partitioned_ f) (groupA_ f) (dead_ f) (dropRate_ f) (duplicateRate_ f)
    minMs maxMs (timers_ f) (jobQueue_ f) (working_ f) (workers_ f).
Definition set_dead (d : gset N) f : FaultyNetwork S :=
  mkFaultyNetwork (nodes_ f) (partitioned_ f) (groupA_ f) d (dropRate_ f) (duplicateRate_ f)
    (delayMinMs_ f) (delayMaxMs_ f) (timers_ f) (jobQueue_ f) (working_ f) (workers_ f).
Definition killNode (i : NodeId) f : FaultyNetwork S := set_dead (dead_ f ∪ {[ i ]}) f.
Definition reviveNode (i : NodeId) f : FaultyNetwork S := set_dead (dead_ f ∖ {[ i ]}) f.

Definition reachable (a b : NodeId) f : bool :=
  if bool_decide (a ∈ dead_ f) || bool_decide (b ∈ dead_ f) then false
  else if negb (partitioned_ f) then true
  else Bool.eqb (bool_decide (a ∈ groupA_ f)) (bool_decide (b ∈ groupA_ f)).

Definition registerNode (i : NodeId) (node : RaftNode S) f : FaultyNetwork S := set_nodes (<[i := node]> (nodes_ f)) f.

Definition find (i : NodeId) f : option (RaftNode S) := nodes_ f !! i.

(** ** Sending *)
Definition deliver (j : Job) (r : Roll) (now : Z) f : FaultyNetwork S :=
  if below (r_drop r) (dropRate_ f) then f
  else
    let copies := if below (r_duplicate r) (duplicateRate_ f) then 2%nat else 1%nat in
    let lo := delayMinMs_ f in
    let hi := delayMaxMs_ f in
    let delay := if (hi <=? lo)%Z then lo else (lo + r_delay r)%Z in
    let fireAt := (now + delay)%Z in
    set_jobs (Nat.iter copies (emplace fireAt j) (timers_ f)) (jobQueue_ f) (working_ f) f.

Definition peerOf (s : Send) : NodeId :=
  match s with
  | SendRequestVote peer _ _ _ | SendAppendEntries peer _ _ | SendInstallSnapshot peer _ _ => peer
  end.

(** [cb(false, {})] *)
Definition callbackFailed (s : Send) n : outcome (RaftNode S) :=
  match s with
  | SendRequestVote _ _ newTerm majority =>
      q ← onRequestVoteResp newTerm majority false (mkRequestVoteResp 0 false) n; mret q.1
  | SendAppendEntries peer _ term => onAppendEntriesResp peer term false (mkAppendEntriesResp 0 false 0 0 0) n
  | SendInstallSnapshot peer _ idx => mret (onInstallSnapshotResp peer idx false (mkInstallSnapshotResp 0) n)
  end.

Definition failCall (self : NodeId) (s : Send) f : FaultyNetwork S :=
  match nodes_ f !! self with
  | Some n => match callbackFailed s n with Ok n' => set_nodes (<[self := n']> (nodes_ f)) f | Throw _ => f end
  | None => f
  end.

(** [TestTransport::sendRequestVote], [sendAppendEntries], [sendInstallSnapshot] *)
Definition transportSend (self : NodeId) (s : Send) (r : Roll) (now : Z) f : FaultyNetwork S :=
  if negb (reachable self (peerOf s) f) then failCall self s f
  else
    let target := bool_decide (is_Some (find (peerOf s) f)) in
    deliver (mkJob target (Request self 0 s)) r now f.

(** The calls of one method, in order; [rolls] has an element for each. *)
Fixpoint sendAll (self : NodeId) (ss : list Send) (rolls : list Roll) (now : Z) f : FaultyNetwork S :=
  match ss with
  | [] => f
  | s :: ss' => sendAll self ss' (tail rolls) now (transportSend self s (default (mkRoll 0 0 0) (head rolls)) now f)
  end.

(** ** The threads *)

(** One iteration of the inner loop of [schedulerLoop]. *)
Definition schedulerStep (now : Z) f : option (FaultyNetwork S) :=
  match timers_ f with
  | (t, fn) :: rest => if (t <=? now)%Z then Some (set_jobs rest (jobQueue_ f ++ [fn]) (working_ f) f) else None
  | [] => None
  end.

(** A free thread of [workerLoop] takes a job. *)
Definition workerTake f : option (FaultyNetwork S) :=
  match jobQueue_ f with
  | job :: rest =>
      if (length (working_ f) <? workers_ f)%nat then Some (set_jobs (timers_ f) rest (working_ f ++ [job]) f) else None
  | [] => None
  end.

(** The calls among the packets. *)
Definition sendsOf (ps : list Packet) : list Send :=
  omap (fun p => match p with Request _ _ s => Some s | _ => None end) ps.

(** The nodes as a group without messages: [deliverRequest] and [deliverReply] run
    a handler and a callback on it. *)
Definition group f : Cluster S := mkCluster (nodes_ f) ∅ [].

(** A worker runs its job up to the end of the handler, or the callback, in one step:
    the other workers do not move inside it. [RaftThreads] has the handlers and callbacks
    cut where they release [mu_]. *)
Definition workerRun (k : nat) (rolls : list Roll) (now : N) f : option (FaultyNetwork S) :=
  job ← working_ f !! k;
  let rest := delete k (working_ f) in
  match j_packet job with
  | Request src inc s =>
      if negb (j_target job) || negb (reachable src (peerOf s) f)
      then Some (failCall src s (set_jobs (timers_ f) (jobQueue_ f) rest f))
      else
        c' ← deliverRequest (group f) src inc s now [];
        Some (set_nodes (nodes c') (set_jobs (timers_ f) (jobQueue_ f) (rest ++ (mkJob true <$> net c')) f))
  | VoteReply dst _ _ _ _ _ | AppendReply dst _ _ _ _ | SnapshotReply dst _ _ _ _ =>
      c' ← deliverReply (group f) (j_packet job) now [];
      Some (sendAll dst (sendsOf (net c')) rolls (Z.of_N now)
        (set_nodes (nodes c') (set_jobs (timers_ f) (jobQueue_ f) rest f)))
  end.

(** ** Runs *)
Inductive NetEvent : Type :=
| NTick (i : NodeId) (now : N) (rolls : list Roll)
| NPropose (i : NodeId) (commandBytes : bytes)
| NFire (now : Z)
| NTake
| NRun (k : nat) (rolls : list Roll) (now : N)
| NPartition (groupA : gset N)
| NHeal
| NKill (i : NodeId)
| NRevive (i : NodeId)
| NDropRate (p : Q)
| NDuplicateRate (p : Q)
| NDelay (minMs maxMs : Z).

Definition net_exec f (ev : NetEvent) : option (FaultyNetwork S) :=
  match ev with
  | NTick i now rolls =>
      n ← nodes_ f !! i;
      if running_ n then
        '(n', ss) ← of_outcome (runLoopRound now n);
        Some (sendAll i ss rolls (Z.of_N now) (set_nodes (<[i := n']> (nodes_ f)) f))
      else None
  | NPropose i commandBytes =>
      n ← nodes_ f !! i;
      '(n', _) ← of_outcome (propose commandBytes Command n);
      Some (set_nodes (<[i := n']> (nodes_ f)) f)
  | NFire now => schedulerStep now f
  | NTake => workerTake f
  | NRun k rolls now => workerRun k rolls now f
  | NPartition groupA => Some (partition groupA f)
  | NHeal => Some (healPartition f)
  | NKill i => Some (killNode i f)
  | NRevive i => Some (reviveNode i f)
  | NDropRate p => Some (setDropRate p f)
  | NDuplicateRate p => Some (setDuplicateRate p f)
  | NDelay minMs maxMs => Some (setDelayMs minMs maxMs f)
  end.

(** The constructor, and the nodes of a fresh group registered. *)
Definition freshNetwork (workers : nat) (os : list RaftOptions) : FaultyNetwork S :=
  mkFaultyNetwork (nodes (freshCluster cfg freshSm os)) false ∅ ∅ 0 0 0 0 [] [] [] workers.

(** ** Simulation *)

(** The messages of the network, wherever they are. *)
Definition jobs f : list Job := (timers_ f).*2 ++ jobQueue_ f ++ working_ f.
Definition packets f : list Packet := j_packet <$> jobs f.

(** A message of this network was made by the first incarnation of its sender. *)
Definition incOne (p : Packet) : Prop :=
  match p with
  | Request _ inc _ | VoteReply _ inc _ _ _ _ | AppendReply _ inc _ _ _ | SnapshotReply _ inc _ _ _ => inc = 0
  end.

Record simulates f c (pending : list Packet) : Prop := {
  si_nodes : nodes c = nodes_ f;
  si_inc : incarnation c = ∅;
  si_net : net c ≡ₚ packets f ++ pending;
  si_one : Forall incOne (packets f)
}.

(** Events of the group, duplication only if [dup]. *)
Definition allowed (dup : bool) c (ev : Event) : bool := admissible c ev || (dup && match ev with EvDuplicate _ => true | _ => false end).

Inductive gstep (dup : bool) c c' : Prop :=
| gstep_event ev : allowed dup c ev = true -> exec cfg freshSm c ev = Some c' -> gstep dup c c'.

Lemma failCall_id self s f : failCall self s f = f.
Proof.
  unfold failCall; destruct (nodes_ f !! self) as [n|] eqn:E; [|done].
  assert (callbackFailed s n = Ok n) as -> by (by destruct s).
  rewrite insert_id by done; by destruct f.
Qed.

Lemma perm_pick {A} (l : list A) p rest : l ≡ₚ p :: rest -> exists k, l !! k = Some p /\ delete k l ≡ₚ rest.
Proof.
  intros Hp; assert (p ∈ l) as [k Hk]%list_elem_of_lookup by (rewrite Hp; by left).
  exists k; split; [done|]; rewrite (delete_Permutation _ _ _ Hk) in Hp.
  by apply Permutation_cons_inv in Hp.
Qed.

(** A message is lost. *)
Lemma sim_drop dup f f' c p pending :
  simulates f c (p :: pending) -> nodes_ f' = nodes_ f -> packets f' ≡ₚ packets f ->
  exists c', rtc (gstep dup) c c' /\ simulates f' c' pending.
Proof.
  intros [Hn Hi Hp Ho] Hf Hpk; destruct (perm_pick (net c) p (packets f ++ pending)) as (k & Hk & Hd).
  { by rewrite Hp, <- Permutation_middle. }
  exists (mkCluster (nodes c) (incarnation c) (delete k (net c))); split.
  - apply rtc_once; exists (EvDrop k); [done|]; simpl; by rewrite Hk.
  - split; simpl; [congruence|done|by rewrite Hd, Hpk|by rewrite Hpk].
Qed.

Lemma emplace_perm t j l : (emplace t j l).*2 ≡ₚ j :: l.*2.
Proof.
  induction l as [|[t' j'] l IH]; simpl; [done|]; destruct (t <? t')%Z; simpl; [done|].
  rewrite IH; apply Permutation_swap.
Qed.

Lemma deliver_packets j r now f :
  packets (deliver j r now f) ≡ₚ
    (if below (r_drop r) (dropRate_ f) then []
     else if below (r_duplicate r) (duplicateRate_ f) then [j_packet j; j_packet j] else [j_packet j]) ++ packets f.
Proof.
  unfold deliver; destruct (below _ _); [done|]; unfold packets, jobs; destruct (below _ _); simpl;
    by rewrite !emplace_perm.
Qed.

Lemma deliver_nodes j r now f : nodes_ (deliver j r now f) = nodes_ f.
Proof. unfold deliver; by destruct (below _ _). Qed.

(** What is duplicated may be: [dup], or the rate is not positive. *)
Definition dupFree (dup : bool) f (rolls : list Roll) : Prop :=
  dup = true \/ (Qle_bool (duplicateRate_ f) 0 = true /\ Forall (fun r => Qle_bool 0 (r_duplicate r) = true) rolls).

Lemma dupFree_sound dup f rolls r :
  dupFree dup f rolls -> r = default (mkRoll 0 0 0) (head rolls) ->
  below (r_duplicate r) (duplicateRate_ f) = true -> dup = true.
Proof.
  intros [?|[Hd Hr]] -> Hb; [done|exfalso]; unfold below in Hb; apply negb_true_iff in Hb.
  assert (Qle_bool 0 (r_duplicate (default (mkRoll 0 0 0) (head rolls))) = true) as H0.
  { destruct rolls as [|x rolls]; [done|]; by apply Forall_cons in Hr as [? _]. }
  rewrite Qle_bool_iff in Hd, H0; pose proof (Qle_trans _ _ _ Hd H0) as Hle.
  rewrite <- Qle_bool_iff in Hle; congruence.
Qed.

Lemma sim_send dup self s rolls r now f c pending :
  simulates f c (Request self 0 s :: pending) -> dupFree dup f rolls ->
  r = default (mkRoll 0 0 0) (head rolls) ->
  exists c', rtc (gstep dup) c c' /\ simulates (transportSend self s r now f) c' pending.
Proof.
  intros Hs Hdup Hr; unfold transportSend; destruct (reachable self (peerOf s) f); simpl.
  2: { rewrite failCall_id; by eapply sim_drop. }
  set (j := mkJob _ _); assert (j_packet j = Request self 0 s) as Hj by done; clearbody j.
  pose proof (deliver_packets j r now f) as Hp; pose proof (deliver_nodes j r now f) as Hn.
  rewrite !Hj in Hp; set (f' := deliver j r now f) in *; clearbody f'.
  destruct (below (r_drop r) (dropRate_ f)); [by eapply sim_drop|].
  assert (Forall incOne (packets f')) as Ho.
  { rewrite Hp; apply Forall_app; split; [|apply Hs]; destruct (below _ _); by repeat constructor. }
  destruct (below (r_duplicate r) (duplicateRate_ f)) eqn:Eb; destruct Hs as [Hsn Hi Hnet _].
  - destruct (perm_pick (net c) (Request self 0 s) (packets f ++ pending)) as (k & Hk & _).
    { by rewrite Hnet, <- Permutation_middle. }
    exists (mkCluster (nodes c) (incarnation c) (net c ++ [Request self 0 s])); split.
    + apply rtc_once; exists (EvDuplicate k); [|simpl; by rewrite Hk].
      unfold allowed; rewrite (dupFree_sound _ _ _ _ Hdup Hr Eb); apply orb_true_r.
    + split; simpl; [congruence|done| |done].
      rewrite Hnet, Hp; simpl; rewrite <- !Permutation_middle, app_nil_r; done.
  - exists c; split; [done|]; split; [congruence|done| |done].
    rewrite Hnet, Hp; simpl; by rewrite <- Permutation_middle.
Qed.

Lemma transportSend_rate self s r now f : duplicateRate_ (transportSend self s r now f) = duplicateRate_ f.
Proof.
  unfold transportSend, deliver; rewrite failCall_id.
  destruct (negb _); [done|]; by destruct (below _ _).
Qed.

Lemma sim_sendAll dup self ss rolls now f c :
  simulates f c (Request self 0 <$> ss) -> dupFree dup f rolls ->
  exists c', rtc (gstep dup) c c' /\ simulates (sendAll self ss rolls now f) c' [].
Proof.
  revert rolls f c; induction ss as [|s ss IH]; intros rolls f c Hs Hd; [by exists c|]; simpl.
  destruct (sim_send dup self s rolls _ now f c _ Hs Hd eq_refl) as (c1 & H1 & Hs1).
  destruct (IH (tail rolls) _ _ Hs1) as (c2 & H2 & Hs2).
  - destruct Hd as [?|[? Hr]]; [by left|right]; rewrite transportSend_rate; split; [done|].
    destruct rolls; [done|]; by apply Forall_cons in Hr as [_ ?].
  - exists c2; split; [by etransitivity|done].
Qed.

(** Delivery in the group without messages and in a group with more. *)
Lemma deliverRequest_frame c src s now rest f c0 :
  nodes c = nodes_ f -> deliverRequest (group f) src 0 s now [] = Some c0 ->
  deliverRequest c src 0 s now rest = Some (mkCluster (nodes c0) (incarnation c) (rest ++ net c0)) /\
  Forall incOne (net c0).
Proof.
  intros Hn; unfold group; destruct s as [peer req t m|peer req t|peer req idx]; simpl; rewrite Hn;
    (destruct (nodes_ f !! peer) as [n|]; [|by intros [= <-]; simpl; rewrite ?Hn, app_nil_r]).
  - destruct (handleRequestVote req (set_now now n)) as [n' resp]; intros [= <-]; unfold update; simpl; rewrite ?Hn; split; [done|by repeat constructor].
  - destruct (handleAppendEntries req (set_now now n)) as [[n' resp]|]; [|done].
    intros [= <-]; unfold update; simpl; rewrite ?Hn; split; [done|by repeat constructor].
  - destruct (handleInstallSnapshot req (set_now now n)) as [[n' resp]|]; [|done].
    intros [= <-]; unfold update; simpl; rewrite ?Hn; split; [done|by repeat constructor].
Qed.

Definition dstOf (p : Packet) : NodeId :=
  match p with
  | Request src _ _ => src
  | VoteReply dst _ _ _ _ _ | AppendReply dst _ _ _ _ | SnapshotReply dst _ _ _ _ => dst
  end.

Lemma sendsOf_launch i ss : sendsOf (launch i 0 ss) = ss.
Proof. unfold sendsOf, launch; induction ss as [|s ss IH]; [done|]; simpl; by f_equal. Qed.

Lemma deliverReply_frame c p now rest f c0 :
  nodes c = nodes_ f -> incarnation c = ∅ -> incOne p -> deliverReply (group f) p now [] = Some c0 ->
  deliverReply c p now rest = Some (mkCluster (nodes c0) ∅ (rest ++ (Request (dstOf p) 0 <$> sendsOf (net c0)))).
Proof.
  intros Hn Hi; destruct p as [|dst inc peer t m resp|dst inc peer t resp|dst inc peer idx resp]; simpl; [done|..];
    intros ->; unfold incOf; rewrite Hn, Hi; simpl; rewrite lookup_empty; simpl;
    (destruct (nodes_ f !! dst) as [n|]; [|by intros [= <-]; simpl; rewrite ?Hn, app_nil_r]).
  - destruct (onRequestVoteResp t m true resp (set_now now n)) as [[n' ss]|]; [|done].
    intros [= <-]; unfold update; simpl; rewrite sendsOf_launch, ?Hn, ?Hi; done.
  - destruct (onAppendEntriesResp peer t true resp (set_now now n)) as [n'|]; [|done].
    intros [= <-]; unfold update; simpl; rewrite ?Hn, ?Hi, app_nil_r; done.
  - intros [= <-]; unfold update; simpl; rewrite ?Hn, ?Hi, app_nil_r; done.
Qed.

Lemma working_pick f k job :
  working_ f !! k = Some job ->
  packets f ≡ₚ j_packet job :: packets (set_jobs (timers_ f) (jobQueue_ f) (delete k (working_ f)) f).
Proof.
  intros Hk; unfold packets, jobs; simpl; rewrite (delete_Permutation _ _ _ Hk) at 1.
  by rewrite <- !Permutation_middle.
Qed.

Definition net_admissible (dup : bool) f (ev : NetEvent) : Prop :=
  match ev with
  | NTick i _ rolls =>
      match nodes_ f !! i with Some n => nodeTerm n + 1 < U64 | None => True end /\ dupFree dup f rolls
  | NPropose _ b => nlen b < U32
  | NRun _ rolls _ => dupFree dup f rolls
  | _ => True
  end.

Inductive net_step (dup : bool) f f' : Prop :=
| net_event ev : net_admissible dup f ev -> net_exec f ev = Some f' -> net_step dup f f'.

Lemma allowed_admissible dup c ev : admissible c ev = true -> allowed dup c ev = true.
Proof. unfold allowed; by intros ->. Qed.

(** A change of the network that moves no message and no node. *)
Lemma sim_same dup f f' c :
  simulates f c [] -> nodes_ f' = nodes_ f -> packets f' ≡ₚ packets f ->
  exists c', rtc (gstep dup) c c' /\ simulates f' c' [].
Proof.
  intros [Hn Hi Hp Ho] Hf Hpk; exists c; split; [done|]; split; [congruence|done|by rewrite Hp, Hpk|by rewrite Hpk].
Qed.

Lemma sim_tick dup i now rolls n n' ss f c :
  simulates f c [] -> nodes_ f !! i = Some n -> nodeTerm n + 1 < U64 -> dupFree dup f rolls -> running_ n = true ->
  runLoopRound now n = Ok (n', ss) ->
  exists c', rtc (gstep dup) c c' /\
    simulates (sendAll i ss rolls (Z.of_N now) (set_nodes (<[i := n']> (nodes_ f)) f)) c' [].
Proof.
  intros [Hn Hi Hp Ho] Hl Ht Hd Hr Hx.
  set (c1 := mkCluster (<[i := n']> (nodes c)) (incarnation c) (net c ++ launch i 0 ss)).
  destruct (sim_sendAll dup i ss rolls (Z.of_N now) (set_nodes (<[i := n']> (nodes_ f)) f) c1) as (c2 & H2 & Hs2).
  - split; simpl; [by rewrite Hn|done|by rewrite Hp, app_nil_r|done].
  - done.
  - exists c2; split; [|done]; eapply rtc_l; [|exact H2]; exists (EvTick i now).
    + apply allowed_admissible; simpl; rewrite Hn, Hl; by apply N.ltb_lt.
    + simpl; rewrite Hn, Hl; simpl; rewrite Hr, Hx; simpl; unfold incOf; by rewrite Hi, lookup_empty.
Qed.

Lemma sim_propose dup i b n n' r f c :
  simulates f c [] -> nodes_ f !! i = Some n -> nlen b < U32 -> propose b Command n = Ok (n', r) ->
  exists c', rtc (gstep dup) c c' /\ simulates (set_nodes (<[i := n']> (nodes_ f)) f) c' [].
Proof.
  intros [Hn Hi Hp Ho] Hl Hb Hx; exists (update c i n' (net c)); split.
  - apply rtc_once; exists (EvPropose i b); [apply allowed_admissible; simpl; by apply N.ltb_lt|].
    simpl; rewrite Hn, Hl; simpl; by rewrite Hx.
  - split; simpl; [by rewrite Hn|done|done|done].
Qed.

Lemma packets_of_jobs (l : list Packet) : j_packet <$> (mkJob true <$> l) = l.
Proof. induction l as [|p l IH]; [done|]; simpl; by f_equal. Qed.

(** A worker runs the callback of a call; [rest] is what the others hold. *)
Lemma sim_callback dup p rolls now f f' c x rest :
  nodes c = nodes_ f -> incarnation c = ∅ -> dupFree dup f rolls -> incOne p ->
  delete x (net c) ≡ₚ packets (set_jobs (timers_ f) (jobQueue_ f) rest f) ->
  Forall incOne (packets (set_jobs (timers_ f) (jobQueue_ f) rest f)) ->
  (forall c1, deliverReply c p now (delete x (net c)) = Some c1 -> gstep dup c c1) ->
  (c' ← deliverReply (group f) p now [];
   Some (sendAll (dstOf p) (sendsOf (net c')) rolls (Z.of_N now)
     (set_nodes (nodes c') (set_jobs (timers_ f) (jobQueue_ f) rest f)))) = Some f' ->
  exists c', rtc (gstep dup) c c' /\ simulates f' c' [].
Proof.
  intros Hn Hi Hd Hone Hx Ho Hstep (c0 & H0 & [= <-])%bind_Some_inv.
  pose proof (deliverReply_frame c _ now (delete x (net c)) f c0 Hn Hi Hone H0) as Hdl.
  set (f1 := set_jobs _ _ rest f) in *.
  destruct (sim_sendAll dup (dstOf p) (sendsOf (net c0)) rolls (Z.of_N now) (set_nodes (nodes c0) f1)
    (mkCluster (nodes c0) ∅ (delete x (net c) ++ (Request (dstOf p) 0 <$> sendsOf (net c0))))) as (c2 & H2 & Hs2).
  - split; simpl; [done|done|by rewrite Hx|done].
  - exact Hd.
  - exists c2; split; [eapply rtc_l; [by apply Hstep|exact H2]|exact Hs2].
Qed.

Lemma sim_run dup k rolls now f f' c :
  simulates f c [] -> dupFree dup f rolls -> workerRun k rolls now f = Some f' ->
  exists c', rtc (gstep dup) c c' /\ simulates f' c' [].
Proof.
  intros Hs Hd; unfold workerRun; intros (job & Hk & Hx)%bind_Some_inv.
  pose proof (working_pick _ _ _ Hk) as Hpk; set (f1 := set_jobs _ _ (delete k _) f) in *.
  assert (incOne (j_packet job) /\ Forall incOne (packets f1)) as [Hone Hones].
  { pose proof (si_one _ _ _ Hs) as Ho; rewrite Hpk in Ho; by apply Forall_cons in Ho. }
  destruct Hs as [Hn Hi Hp Ho]; rewrite app_nil_r in Hp.
  assert (simulates f1 c [j_packet job]) as Hs1.
  { split; [done|done| |done]; rewrite Hp, Hpk; apply Permutation_cons_append. }
  destruct (perm_pick (net c) (j_packet job) (packets f1)) as (x & Hx1 & Hx2); [by rewrite Hp|].
  assert (forall c1, match j_packet job with
      | Request src inc s => deliverRequest c src inc s now (delete x (net c))
      | _ => deliverReply c (j_packet job) now (delete x (net c)) end = Some c1 -> gstep dup c c1) as Hstep.
  { intros c1 Hc1; exists (EvDeliver x now); [by apply allowed_admissible|]; simpl; rewrite Hx1; simpl; by destruct (j_packet job). }
  destruct (j_packet job) as [src inc s|dst inc peer t m resp|dst inc peer t resp|dst inc peer idx resp] eqn:Ej.
  - destruct (_ || _).
    { injection Hx as <-; rewrite failCall_id; by eapply sim_drop. }
    apply bind_Some_inv in Hx as (c0 & H0 & [= <-]); rewrite Hone in *.
    destruct (deliverRequest_frame c src s now (delete x (net c)) f c0 Hn H0) as [Hdl Hones0].
    eexists; split; [by apply rtc_once, Hstep|]; split; simpl; [done|done| |].
    + rewrite Hx2, app_nil_r; unfold packets, jobs; simpl.
      rewrite !fmap_app, <- !app_assoc; by rewrite packets_of_jobs.
    + unfold packets, jobs in *; simpl in *; rewrite !fmap_app in *; rewrite !Forall_app in *.
      split_and!; try tauto; by rewrite packets_of_jobs.
  - by eapply (sim_callback _ (VoteReply dst inc peer t m resp)).
  - by eapply (sim_callback _ (AppendReply dst inc peer t resp)).
  - by eapply (sim_callback _ (SnapshotReply dst inc peer idx resp)).
Qed.

Lemma net_step_simulated dup f f' c :
  simulates f c [] -> net_step dup f f' -> exists c', rtc (gstep dup) c c' /\ simulates f' c' [].
Proof.
  intros Hs [ev Ha Hx]; destruct ev as [i now rolls|i b|now| |k rolls now| | | | | | |]; simpl in Ha, Hx;
    try (injection Hx as <-; by eapply sim_same).
  - apply bind_Some_inv in Hx as (n & Hl & Hx); rewrite Hl in Ha; destruct (running_ n) eqn:Hr; [|done].
    apply bind_Some_inv in Hx as ([n' ss] & Hx%of_outcome_Some & [= <-]); destruct Ha; by eapply sim_tick.
  - apply bind_Some_inv in Hx as (n & Hl & Hx).
    apply bind_Some_inv in Hx as ([n' r] & Hx%of_outcome_Some & [= <-]); by eapply sim_propose.
  - unfold schedulerStep in Hx; destruct (timers_ f) as [|[t j] rest] eqn:E; [done|].
    destruct (_ <=? _)%Z; [|done]; injection Hx as <-; eapply sim_same; [done..|].
    unfold packets, jobs; cbn [timers_ jobQueue_ working_ set_jobs]; rewrite E.
    rewrite fmap_cons; cbn [snd]; apply fmap_Permutation; rewrite <- app_assoc; simpl.
    by rewrite app_assoc, <- Permutation_middle, app_assoc.
  - unfold workerTake in Hx; destruct (jobQueue_ f) as [|j rest] eqn:E; [done|].
    destruct (_ <? _)%nat; [|done]; injection Hx as <-; eapply sim_same; [done..|].
    unfold packets, jobs; simpl; rewrite E; apply fmap_Permutation, Permutation_app_head; simpl.
    rewrite app_assoc; by rewrite <- Permutation_cons_append.
  - by eapply sim_run.
Qed.

Lemma net_steps_simulated dup f f' c :
  rtc (net_step dup) f f' -> simulates f c [] -> exists c', rtc (gstep dup) c c' /\ simulates f' c' [].
Proof.
  intros Hr; revert c; induction Hr as [f|f f1 f2 H1 _ IH]; intros c Hs; [by exists c|].
  destruct (net_step_simulated _ _ _ _ Hs H1) as (c1 & Hc1 & Hs1).
  destruct (IH _ Hs1) as (c2 & Hc2 & Hs2); exists c2; split; [by etransitivity|done].
Qed.

Lemma fresh_simulates workers os : simulates (freshNetwork workers os) (freshCluster cfg freshSm os) [].
Proof. by split. Qed.

Lemma gstep_step c c' : gstep false c c' -> step cfg freshSm c c'.
Proof. intros [ev Ha Hx]; unfold allowed in Ha; rewrite orb_false_r in Ha; by exists ev. Qed.

(** ** Schedules *)
#[local] Instance net_admissible_dec dup f ev : Decision (net_admissible dup f ev).
Proof.
  destruct ev as [i now rolls| | | |k rolls now| | | | | | |]; simpl; unfold dupFree; try apply _.
  destruct (nodes_ f !! i); apply _.
Defined.

Fixpoint run_net (dup : bool) (evs : list NetEvent) f : option (FaultyNetwork S) :=
  match evs with
  | [] => Some f
  | ev :: evs' => if decide (net_admissible dup f ev) then f' ← net_exec f ev; run_net dup evs' f' else None
  end.

Lemma run_net_steps dup evs f f' : run_net dup evs f = Some f' -> rtc (net_step dup) f f'.
Proof.
  revert f; induction evs as [|ev evs IH]; intros f; simpl; [by intros [= <-]|].
  case_decide; [|done]; intros (f1 & H1 & H2)%bind_Some_inv.
  eapply rtc_l; [by econstructor|by apply IH].
Qed.

(** ** The order of delivery *)
Definition timers_ordered f : Prop := StronglySorted Z.le (timers_ f).*1.

Lemma emplace_times t j l : (emplace t j l).*1 ≡ₚ t :: l.*1.
Proof.
  induction l as [|[t' j'] l IH]; simpl; [done|]; destruct (t <? t')%Z; simpl; [done|].
  rewrite IH; apply Permutation_swap.
Qed.

Lemma emplace_ordered t j l : StronglySorted Z.le l.*1 -> StronglySorted Z.le (emplace t j l).*1.
Proof.
  induction l as [|[t' j'] l IH]; simpl; intros Hs; [repeat constructor|].
  apply StronglySorted_inv in Hs as [Hs Hf]; destruct (Z.ltb_spec t t'); simpl.
  - constructor; [by constructor|]; constructor; [lia|].
    eapply Forall_impl; [exact Hf|]; simpl; lia.
  - constructor; [by apply IH|]; rewrite emplace_times; constructor; [lia|done].
Qed.

Lemma deliver_ordered j r now f : timers_ordered f -> timers_ordered (deliver j r now f).
Proof.
  intros Hf; unfold deliver; destruct (below _ _); [done|]; unfold timers_ordered.
  destruct (below _ _); simpl; eauto using emplace_ordered.
Qed.

Lemma sendAll_ordered self ss rolls now f : timers_ordered f -> timers_ordered (sendAll self ss rolls now f).
Proof.
  revert rolls f; induction ss as [|s ss IH]; intros rolls f Hf; [done|]; simpl; apply IH.
  unfold transportSend; rewrite failCall_id; destruct (negb _); [done|]; by apply deliver_ordered.
Qed.

Lemma net_step_ordered dup f f' : timers_ordered f -> net_step dup f f' -> timers_ordered f'.
Proof.
  intros Hf [ev _ Hx]; destruct ev as [i now rolls|i b|now| |k rolls now| | | | | | |]; simpl in Hx;
    try (injection Hx as <-; exact Hf).
  - apply bind_Some_inv in Hx as (n & _ & Hx); destruct (running_ n); [|done].
    apply bind_Some_inv in Hx as ([n' ss] & _ & [= <-]); by apply sendAll_ordered.
  - apply bind_Some_inv in Hx as (n & _ & Hx); by apply bind_Some_inv in Hx as ([n' r] & _ & [= <-]).
  - unfold schedulerStep in Hx; unfold timers_ordered in *; destruct (timers_ f) as [|[t j] rest]; [done|].
    destruct (_ <=? _)%Z; [|done]; injection Hx as <-; by apply StronglySorted_inv in Hf as [? _].
  - unfold workerTake in Hx; destruct (jobQueue_ f); [done|]; destruct (_ <? _)%nat; [|done]; by injection Hx as <-.
  - unfold workerRun in Hx; apply bind_Some_inv in Hx as (job & _ & Hx).
    destruct (j_packet job); [destruct (_ || _); [injection Hx as <-; by rewrite failCall_id|]|..];
      apply bind_Some_inv in Hx as (c' & _ & [= <-]); [done|by apply sendAll_ordered..].
Qed.

(** The scheduler fires the message with the earliest time: nothing that stays
    behind was due before it. *)
Theorem scheduler_earliest dup workers os f f' now :
  rtc (net_step dup) (freshNetwork workers os) f -> schedulerStep now f = Some f' ->
  exists t j, timers_ f = (t, j) :: timers_ f' /\ jobQueue_ f' = jobQueue_ f ++ [j] /\ (t <= now)%Z /\
    Forall (fun x => (t <= x.1)%Z) (timers_ f').
Proof.
  intros Hr; assert (timers_ordered f) as Ho.
  { assert (timers_ordered (freshNetwork workers os)) as H0 by constructor.
    clear -Hr H0; induction Hr; eauto using net_step_ordered. }
  unfold schedulerStep, timers_ordered in *; destruct (timers_ f) as [|[t j] rest]; [done|].
  destruct (Z.leb_spec t now); [|done]; intros [= <-]; exists t, j; split_and!; try done.
  apply StronglySorted_inv in Ho as [_ Hf]; exact (proj1 (Forall_fmap _ _ _) Hf).
Qed.

(** A message between nodes that cannot reach each other when it is run changes
    no node. *)
Lemma partition_isolates k rolls now f f' job src inc s :
  working_ f !! k = Some job -> j_packet job = Request src inc s -> reachable src (peerOf s) f = false ->
  workerRun k rolls now f = Some f' ->
  nodes_ f' = nodes_ f /\ working_ f' = delete k (working_ f) /\ timers_ f' = timers_ f.
Proof.
  intros Hk Hj Hr; unfold workerRun; rewrite Hk; simpl; rewrite Hj, Hr, orb_true_r, failCall_id.
  by intros [= <-].
Qed.

(** How many messages a call puts on the network. *)
Definition copiesOf (self : NodeId) (s : Send) (r : Roll) f : nat :=
  if reachable self (peerOf s) f && negb (below (r_drop r) (dropRate_ f))
  then if below (r_duplicate r) (duplicateRate_ f) then 2 else 1 else 0.

Lemma transportSend_copies self s r now f :
  nodes_ (transportSend self s r now f) = nodes_ f /\
  packets (transportSend self s r now f) ≡ₚ repeat (Request self 0 s) (copiesOf self s r f) ++ packets f.
Proof.
  unfold transportSend, copiesOf; rewrite failCall_id; destruct (reachable _ _ _); [|done]; simpl.
  rewrite deliver_nodes, deliver_packets; split; [done|]; by destruct (below _ _); [|destruct (below _ _)].
Qed.

End network.

(** ** The theorems *)
Section theorems.
Context {S : Type} `{StateMachine S}.

(** C29: the test network refines the group model.  For nodes registered before the
    run, with timer rounds, proposals, partitions, dead nodes, losses, delays and
    duplications in any order (no membership changes and no explicit snapshots), each
    handler and each callback running as one step, so that the workers do not move
    inside one another's: every state under [FaultyNetwork] is reached by a schedule
    of [Cluster] events, with the same nodes and with the messages of [timers_],
    [jobQueue_] and the workers as the messages under way, duplicating a message only
    if the network was allowed to.  A call puts its message on the network once, twice
    if it is duplicated, and not at all if the nodes cannot reach each other or it is
    lost; and a request that a worker runs when its nodes cannot reach each other
    disappears without a change of any node. *)
Theorem faulty_network_refines (cfg : ClusterConfig) (freshSm : S) (workers : nat) (os : list RaftOptions)
    (dup : bool) (f : FaultyNetwork S)
    (Hr : rtc (net_step dup) (freshNetwork cfg freshSm workers os) f) :
  (exists c, rtc (gstep cfg freshSm dup) (freshCluster cfg freshSm os) c /\
     nodes c = nodes_ f /\ net c ≡ₚ packets f) /\
  (forall self s r now, nodes_ (transportSend self s r now f) = nodes_ f /\
     packets (transportSend self s r now f) ≡ₚ repeat (Request self 0 s) (copiesOf self s r f) ++ packets f) /\
  (forall k rolls now f' job src inc s,
     working_ f !! k = Some job -> j_packet job = Request src inc s -> reachable src (peerOf s) f = false ->
     workerRun k rolls now f = Some f' ->
     nodes_ f' = nodes_ f /\ working_ f' = delete k (working_ f) /\ timers_ f' = timers_ f).
Proof.
  split_and!; [|intros; apply transportSend_copies|intros; by eapply partition_isolates].
  destruct (net_steps_simulated cfg freshSm dup _ _ _ Hr (fresh_simulates cfg freshSm workers os)) as (c & Hc & [Hn _ Hp _]).
  exists c; rewrite app_nil_r in Hp; done.
Qed.

(** Election safety under the faults of the tests.  With a duplication rate
    that is not positive, no two nodes that the test network connects ever lead
    the same term, at any two times, whatever the partitions, dead nodes, losses
    and delays in between, as long as handlers and callbacks run as one step. *)
Theorem faulty_network_election_safety (cfg : ClusterConfig) (freshSm : S) (workers : nat) (os : list RaftOptions)
    (f1 f2 : FaultyNetwork S) (i j : NodeId) (n1 n2 : RaftNode S)
    (Hnd : NoDup (voters cfg)) (Hne : voters cfg <> []) (Hos : Forall (fun o => 0 < id o < U32) os)
    (Hr1 : rtc (net_step false) (freshNetwork cfg freshSm workers os) f1) (Hr2 : rtc (net_step false) f1 f2)
    (Hi : nodes_ f1 !! i = Some n1) (Hj : nodes_ f2 !! j = Some n2)
    (Hl1 : role_ n1 = Leader) (Hl2 : role_ n2 = Leader) (Ht : nodeTerm n1 = nodeTerm n2) :
  i = j.
Proof.
  destruct (net_steps_simulated cfg freshSm false _ _ _ Hr1 (fresh_simulates cfg freshSm workers os)) as (c1 & Hc1 & Hs1).
  destruct (net_steps_simulated cfg freshSm false _ _ _ Hr2 Hs1) as (c2 & Hc2 & Hs2).
  rewrite <- (si_nodes _ _ _ Hs1) in Hi; rewrite <- (si_nodes _ _ _ Hs2) in Hj.
  apply (rtc_subrel _ _ _ _ (gstep_step cfg freshSm)) in Hc1, Hc2.
  destruct (steps_inv cfg freshSm Hnd Hne _ _ _ Hc1 (freshCluster_inv cfg freshSm os Hos)) as (g1 & _ & HI1).
  destruct (steps_inv cfg freshSm Hnd Hne _ _ _ Hc2 HI1) as (g2 & Hsub & HI2).
  exact (leaders_meet cfg Hnd Hne _ _ _ _ _ _ i j n1 n2 HI1 HI2 Hsub Hi Hj Hl1 Hl2 Ht).
Qed.

End theorems.

(** ** An election during a partition *)
Definition half : Q := 1 # 2.

Definition partition_run : list NetEvent :=
  [NPartition {[ 3 ]}; NDropRate (1 # 5); NDelay 5 20; NTick 1 1000 [mkRoll half half 3];
   NFire 1008; NTake; NRun 0 [] 1010; NRun 0 [mkRoll half half 7; mkRoll half half 7] 1011].

Definition net3 : FaultyNetwork KvStore := freshNetwork sample_cfg KvStore_init 8 (sample_opts <$> [1; 2; 3]).

Definition elected_in_partition : FaultyNetwork KvStore := default net3 (run_net false partition_run net3).

Definition after_heal : FaultyNetwork KvStore :=
  default net3 (run_net false [NHeal; NKill 2; NTick 1 2000 [mkRoll half half 7; mkRoll half half 7]] elected_in_partition).

Definition net_node (f : FaultyNetwork KvStore) (i : NodeId) : RaftNode KvStore :=
  node_of (mkCluster (nodes_ f) ∅ []) i.

Lemma elected_in_partition_reachable : rtc (net_step false) net3 elected_in_partition.
Proof. apply (run_net_steps _ partition_run); vm_compute; reflexivity. Qed.

Lemma after_heal_reachable : rtc (net_step false) elected_in_partition after_heal.
Proof.
  apply (run_net_steps _ [NHeal; NKill 2; NTick 1 2000 [mkRoll half half 7; mkRoll half half 7]]); vm_compute; reflexivity.
Qed.

Lemma faulty_network_refines_witness :
  role_ (net_node elected_in_partition 1) = Leader /\
  exists c, rtc (gstep sample_cfg KvStore_init false) (freshCluster sample_cfg KvStore_init (sample_opts <$> [1; 2; 3])) c /\
    nodes c = nodes_ elected_in_partition /\ net c ≡ₚ packets elected_in_partition.
Proof.
  split; [vm_compute; reflexivity|].
  exact (proj1 (faulty_network_refines sample_cfg KvStore_init 8 (sample_opts <$> [1; 2; 3]) false elected_in_partition
           elected_in_partition_reachable)).
Defined.

Lemma faulty_network_election_safety_witness :
  role_ (net_node elected_in_partition 1) = Leader /\ role_ (net_node after_heal 1) = Leader /\
  length (packets after_heal) = 2%nat /\ 1 = 1.
Proof.
  split; [vm_compute; reflexivity|]; split; [vm_compute; reflexivity|]; split; [vm_compute; reflexivity|].
  apply (faulty_network_election_safety sample_cfg KvStore_init 8 (sample_opts <$> [1; 2; 3])
           elected_in_partition after_heal 1 1 (net_node elected_in_partition 1) (net_node after_heal 1)
           sample_voters_nodup ltac:(discriminate) sample_ids elected_in_partition_reachable after_heal_reachable);
    vm_compute; reflexivity.
Defined.
