(* ===== verification/Sections.v ===== *)
(** * Methods as sequences of critical sections

    A method that releases its mutex is a program [Prog]: critical sections, each
    of which runs in one step on the shared state, and calls on the environment
    between them.  [runP] runs a program without interruption; [advance] is one
    step of a thread, so that threads can be interleaved.  [safe] is the
    rely-guarantee judgement: whatever the other threads do between two sections,
    as long as they keep [I], every section keeps [I] and changes the state by
    [R], every call satisfies [O] and the result satisfies [Q]. *)
From stdpp Require Import base tactics list.
From S2P Require Import Prelude.

Section prog.
Context {St E : Type}.

Inductive Prog (A : Type) : Type :=
| Ret (a : A)
| Sect {B : Type} (f : St -> outcome (St * B)) (k : B -> Prog A)
| Out (s : E) (k : Prog A).
#[global] Arguments Ret {A} a.
#[global] Arguments Sect {A B} f k.
#[global] Arguments Out {A} s k.

Fixpoint bindP {A B} (g : A -> Prog B) (p : Prog A) : Prog B :=
  match p with
  | Ret a => g a
  | Sect f k => Sect f (fun b => bindP g (k b))
  | Out s k => Out s (bindP g k)
  end.

(** One critical section; one that only reads; one that only writes. *)
Definition atomically {A} (f : St -> outcome (St * A)) : Prog A := Sect f Ret.
Definition get {A} (f : St -> A) : Prog A := Sect (fun n => Ok (n, f n)) Ret.
Definition modify (f : St -> St) : Prog unit := Sect (fun n => Ok (f n, tt)) Ret.

Fixpoint emit (ss : list E) : Prog unit :=
  match ss with [] => Ret tt | s :: ss' => Out s (emit ss') end.

Fixpoint forEach {A} (f : A -> Prog unit) (l : list A) : Prog unit :=
  match l with [] => Ret tt | x :: l' => bindP (fun _ => forEach f l') (f x) end.

(** ** Running without interruption *)
Fixpoint runP {A} (p : Prog A) (n : St) : outcome (St * list E * A) :=
  match p with
  | Ret a => Ok (n, [], a)
  | Sect f k => match f n with Ok (n', b) => runP (k b) n' | Throw e => Throw e end
  | Out s k => match runP k n with Ok (n', ss, a) => Ok (n', s :: ss, a) | Throw e => Throw e end
  end.

Lemma runP_bind {A B} (p : Prog A) (g : A -> Prog B) n :
  runP (bindP g p) n =
    match runP p n with
    | Ok (n', ss, a) => match runP (g a) n' with Ok (n'', ss', b) => Ok (n'', ss ++ ss', b) | Throw e => Throw e end
    | Throw e => Throw e
    end.
Proof.
  revert n; induction p as [a|B' f k IH|s k IH]; intros n; simpl.
  - by destruct (runP (g a) n) as [[[??]?]|].
  - destruct (f n) as [[n' b]|]; [apply IH|done].
  - rewrite IH; destruct (runP k n) as [[[n' ss] a]|]; [|done].
    by destruct (runP (g a) n') as [[[??]?]|].
Qed.

Lemma runP_emit ss n : runP (emit ss) n = Ok (n, ss, tt).
Proof. induction ss as [|s ss IH]; simpl; [done|by rewrite IH]. Qed.

(** A loop whose rounds only read and call. *)
Lemma runP_forEach {A} (f : A -> Prog unit) (out : A -> list E) l n :
  (forall x, runP (f x) n = Ok (n, out x, tt)) -> runP (forEach f l) n = Ok (n, flat_map out l, tt).
Proof. intros Hf; induction l as [|x l IH]; simpl; [done|]; by rewrite runP_bind, Hf, IH. Qed.

(** ** One step of a thread *)
Definition advance {A} (p : Prog A) (n : St) : option (outcome (St * list E * Prog A)) :=
  match p with
  | Ret _ => None
  | Sect f k => Some (match f n with Ok (n', b) => Ok (n', [], k b) | Throw e => Throw e end)
  | Out s k => Some (Ok (n, [s], k))
  end.

(** The steps of one thread, each with the state before and after it; between two of
    them other threads may have changed the state. *)
Inductive runs {A} : Prog A -> list (St * St) -> Prog A -> Prop :=
| runs_nil p : runs p [] p
| runs_cons p n n' ss p' tr q : advance p n = Some (Ok (n', ss, p')) -> runs p' tr q -> runs p ((n, n') :: tr) q.

Lemma runs_snoc {A} (p q q' : Prog A) tr n n' ss :
  runs p tr q -> advance q n = Some (Ok (n', ss, q')) -> runs p (tr ++ [(n, n')]) q'.
Proof. induction 1; intros Ha; simpl; econstructor; eauto using @runs. Qed.

(** Nothing changed the state between the steps. *)
Fixpoint chained (n : St) (tr : list (St * St)) (n' : St) : Prop :=
  match tr with [] => n = n' | (a, b) :: tr' => a = n /\ chained b tr' n' end.

Lemma runs_chained {A} (p : Prog A) tr a n n' :
  runs p tr (Ret a) -> chained n tr n' -> exists ss, runP p n = Ok (n', ss, a).
Proof.
  intros Hr; remember (Ret a) as q eqn:Eq; revert n; induction Hr as [p|p m m' ss p' tr q Ha _ IH]; intros n Hc; simpl in Hc; subst.
  - by exists [].
  - destruct Hc as [<- Hc]; destruct (IH eq_refl _ Hc) as [ss' Hp]; destruct p as [x|B f k|s k]; simpl in Ha |- *; [done| |].
    + destruct (f m) as [[m1 b]|]; [|done]; injection Ha as <- _ <-; eauto.
    + injection Ha as <- _ <-; rewrite Hp; eauto.
Qed.

(** ** Rely and guarantee *)

(** [J] is what is known of every state from elsewhere, [I] what the sections keep. *)
Section safe.
Context (J I : St -> Prop) (R : St -> St -> Prop) (O : E -> Prop).

Fixpoint safe {A} (Q : A -> Prop) (p : Prog A) : Prop :=
  match p with
  | Ret a => Q a
  | Sect f k =>
      forall n, J n -> I n -> match f n with Ok (n', b) => I n' /\ R n n' /\ safe Q (k b) | Throw _ => True end
  | Out s k => O s /\ safe Q k
  end.

Lemma safe_mono {A} (P Q : A -> Prop) p : (forall a, P a -> Q a) -> safe P p -> safe Q p.
Proof.
  intros HPQ; induction p as [a|B f k IH|s k IH]; simpl; [auto| |intros [? ?]; auto].
  intros Hs n Hj Hn; specialize (Hs n Hj Hn); destruct (f n) as [[n' b]|]; [|done].
  destruct Hs as (? & ? & ?); auto.
Qed.

Lemma safe_bind {A B} (P : A -> Prop) (Q : B -> Prop) p g :
  safe P p -> (forall a, P a -> safe Q (g a)) -> safe Q (bindP g p).
Proof.
  intros Hp Hg; induction p as [a|B' f k IH|s k IH]; simpl in *; [auto| |destruct Hp; auto].
  intros n Hj Hn; specialize (Hp n Hj Hn); destruct (f n) as [[n' b]|]; [|done].
  destruct Hp as (? & ? & ?); auto.
Qed.

Lemma safe_atomically {A} (Q : A -> Prop) f :
  (forall n n' a, J n -> I n -> f n = Ok (n', a) -> I n' /\ R n n' /\ Q a) -> safe Q (atomically f).
Proof. intros Hf n Hj Hn; simpl; destruct (f n) as [[n' a]|] eqn:Hx; [by apply (Hf n)|done]. Qed.

Lemma safe_get {A} `{!Reflexive R} (Q : A -> Prop) f : (forall n, J n -> I n -> Q (f n)) -> safe Q (get f).
Proof. intros Hf n Hj Hn; simpl; auto. Qed.

Lemma safe_modify (f : St -> St) : (forall n, J n -> I n -> I (f n) /\ R n (f n)) -> safe (fun _ => True) (modify f).
Proof. intros Hf n Hj Hn; simpl; destruct (Hf n Hj Hn); auto. Qed.

Lemma safe_emit ss : Forall O ss -> safe (fun _ => True) (emit ss).
Proof. induction 1; simpl; auto. Qed.

Lemma safe_forEach {A} (f : A -> Prog unit) l :
  (forall x, x ∈ l -> safe (fun _ => True) (f x)) -> safe (fun _ => True) (forEach f l).
Proof.
  induction l as [|x l IH]; intros Hf; simpl; [done|].
  eapply safe_bind; [apply Hf; by left|]; intros _ _; apply IH; intros; apply Hf; by right.
Qed.

(** A step of a safe thread: it does its part and stays safe. *)
Lemma advance_safe {A} (Q : A -> Prop) p n n' ss p' :
  safe Q p -> J n -> I n -> Reflexive R -> advance p n = Some (Ok (n', ss, p')) ->
  I n' /\ R n n' /\ Forall O ss /\ safe Q p'.
Proof.
  intros Hs Hj Hn HR; destruct p as [a|B f k|s k]; simpl; [done| |].
  - specialize (Hs n Hj Hn); destruct (f n) as [[m b]|]; [|done]; intros [= <- <- <-]; destruct Hs as (? & ? & ?); auto.
  - destruct Hs; intros [= <- <- <-]; auto.
Qed.
End safe.

Lemma safe_weaken {A} (J I : St -> Prop) (R R' : St -> St -> Prop) (O O' : E -> Prop) (Q : A -> Prop) p :
  (forall n n', R n n' -> R' n n') -> (forall s, O s -> O' s) -> safe J I R O Q p -> safe J I R' O' Q p.
Proof.
  intros HR HO; induction p as [a|B f k IH|s k IH]; simpl; [auto| |intros [? ?]; auto].
  intros Hs n Hj Hn; specialize (Hs n Hj Hn); destruct (f n) as [[n' b]|]; [|done]; destruct Hs as (? & ? & ?); auto.
Qed.
End prog.

Arguments Prog St E A : clear implicits.

#[global] Instance Prog_ret {St E} : MRet (Prog St E) := fun A a => Ret a.
#[global] Instance Prog_bind {St E} : MBind (Prog St E) := fun A B g p => bindP g p.
