(* ===== verification/RaftSections.v ===== *)
(** * The methods of [RaftNode] at the granularity of their mutex

    Each method of [raft/raft_node.cpp] as the sequence of its critical sections:
    a section ends where the code unlocks [mu_], calls another method, calls the
    state machine or the log without holding [mu_], or hands a message to the
    transport.  [RaftNode.v] has the methods as functions; the lemmas below show
    that a program that is not interrupted computes that function. *)
From stdpp Require Import base tactics list gmap numbers strings sorting.
From Stdlib Require Import Ascii NArith Lia.
From S2P Require Import Prelude.
From S2P Require Import Buffer.
From S2P Require Import Types.
From S2P Require Import RpcMessages.
From S2P Require Import PersistentLog.
From S2P Require Import StateMachine.
From S2P Require Import RaftNode.
From S2P Require Import RaftNodeFacts.
From S2P Require Import Sections.

Local Open Scope N_scope.

Section methods.
Context {S : Type} `{StateMachine S}.
Implicit Types n : RaftNode S.

Abbreviation M := (Prog (RaftNode S) Send).

Definition becomeFollower_p (term : Term) (leader : NodeId) : M unit := modify (becomeFollower term leader).

(** ** Applying committed entries *)

(** [sm_->apply] and [applyConfigEntry] run without [mu_] held by the loop; the
    result is recorded in a section of its own. *)
Definition recordResult (e : LogEntry) (result : bytes) n : RaftNode S :=
  let n := set_pendingResults (<[e_index e := result]> (pendingResults_ n)) n in
  set_pendingReadBarriers (filter (fun b => ~ (targetCommit b <= e_index e)) (pendingReadBarriers_ n)) n.

Definition applyEntry_p (e : LogEntry) : M unit :=
  result ← match e_type e with
           | Command => atomically (fun n => r ← sm_apply (e_data e) (e_index e) (sm_ n); mret (set_sm r.1 n, r.2))
           | Config => atomically (fun n => n ← applyConfigEntry e n; mret (n, []))
           | _ => mret []
           end;
  modify (recordResult e result).

Definition applyCommittedEntries_p : M unit :=
  toApply ← atomically (fun n =>
    let '(toApply, n) := takeCommitted (Datatypes.S (length (entries_ (log_ n)))) [] n in mret (n, toApply));
  forEach applyEntry_p toApply.

Definition tryAdvanceCommitIndex_p : M unit :=
  advanced ← atomically (fun n =>
    if decide (role_ n = Leader) then
      match commitCandidate n with
      | None => mret (n, false)
      | Some candidate =>
          if (commitIndex_ n <? candidate) && (termAt candidate (log_ n) =? currentTerm_ (log_ n))
          then mret (set_commitIndex candidate n, true)
          else mret (n, false)
      end
    else mret (n, false));
  if (advanced : bool) then applyCommittedEntries_p else mret tt.

(** ** Proposals *)
Definition propose_p (commandBytes : bytes) (type : EntryType) : M ProposeResult :=
  r ← atomically (fun n =>
    if decide (role_ n = Leader) then
      let e := mkLogEntry (currentTerm_ (log_ n)) (add64 (lastIndex (log_ n)) 1) type commandBytes in
      mret (set_log (appendAndSync [e] (log_ n)) n,
            (true, mkProposeResult true (id (opts_ n)) (e_index e) (e_term e)))
    else mret (n, (false, mkProposeResult false (leaderId_ n) 0 0)));
  let '(appended, res) := r : bool * ProposeResult in
  if appended then _ ← tryAdvanceCommitIndex_p; mret res else mret res.

Definition addServer_p (newId : NodeId) (address : bytes) : M ProposeResult :=
  newCfg ← get (fun n =>
    let newCfg := config_ n in
    let vs := if hasVoter newCfg newId then voters newCfg else voters newCfg ++ [newId] in
    let found := existsb (fun p => p.1 =? newId) (addresses newCfg) in
    let ads := (fun p : NodeId * bytes => if p.1 =? newId then (p.1, address) else p) <$> addresses newCfg in
    let ads := if found then ads else ads ++ [(newId, address)] in
    mkClusterConfig vs ads);
  propose_p (ClusterConfig_encode newCfg []) Config.

Definition removeServer_p (oldId : NodeId) : M ProposeResult :=
  newCfg ← get (fun n =>
    let newCfg := config_ n in
    mkClusterConfig (filter (fun v => v <> oldId) (voters newCfg)) (addresses newCfg));
  propose_p (ClusterConfig_encode newCfg []) Config.

(** ** Replication *)
Definition sendAppendEntriesTo_p (peer : NodeId) : M unit :=
  req ← get (sendAppendEntriesTo peer);
  emit req.

(** The log and the state machine have mutexes of their own: the position, the
    stored snapshot and a fresh one are read in three sections. *)
Definition sendInstallSnapshotTo_p (peer : NodeId) : M unit :=
  h ← get (fun n =>
    if decide (role_ n = Leader)
    then Some (currentTerm_ (log_ n), id (opts_ n), snapshotIndex_ (log_ n), snapshotTerm_ (log_ n))
    else None);
  match h : option (Term * NodeId * LogIndex * Term) with
  | None => mret tt
  | Some (term, me, idx, snapTerm) =>
      s ← get (fun n => loadSnapshotBytes (log_ n));
      bytes ← match s : option bytes with Some s => mret s | None => get (fun n => sm_snapshot (sm_ n)) end;
      emit [SendInstallSnapshot peer (mkInstallSnapshotReq term me idx snapTerm bytes) idx]
  end.

Definition broadcastAppendEntries_p : M unit :=
  cfg ← get (fun n => if decide (role_ n = Leader) then Some (id (opts_ n), voters (config_ n)) else None);
  match cfg : option (NodeId * list NodeId) with
  | None => mret tt
  | Some (me, vs) =>
      forEach (fun peer =>
        if peer =? me then mret tt
        else
          ni ← get (nextIndexOf peer);
          si ← get (fun n => snapshotIndex_ (log_ n));
          if ni <=? si then sendInstallSnapshotTo_p peer else sendAppendEntriesTo_p peer) vs
  end.

(** What a callback does after its section. *)
Inductive Then : Type := Nothing | Follow (term : Term) | Lead | Advance.

Definition onAppendEntriesResp_p (peer : NodeId) (term : Term) (ok : bool) (resp : AppendEntriesResp) : M unit :=
  if negb ok then mret tt
  else
    t ← atomically (fun n =>
      if currentTerm_ (log_ n) <? aer_term resp then mret (n, Follow (aer_term resp))
      else if negb (bool_decide (role_ n = Leader)) || negb (currentTerm_ (log_ n) =? term) then mret (n, Nothing)
      else if aer_success resp then
        let n := set_matchIndex (<[peer := aer_matchIndex resp]> (matchIndex_ n)) n in
        mret (set_nextIndex (<[peer := add64 (aer_matchIndex resp) 1]> (nextIndex_ n)) n, Advance)
      else
        let newNext := if 0 <? aer_conflictIndex resp then aer_conflictIndex resp else 1 in
        mret (set_nextIndex (<[peer := N.max 1 newNext]> (nextIndex_ n)) n, Nothing));
    match t with
    | Follow t => becomeFollower_p t 0
    | Advance => tryAdvanceCommitIndex_p
    | _ => mret tt
    end.

Definition onInstallSnapshotResp_p (peer : NodeId) (idx : LogIndex) (ok : bool) (resp : InstallSnapshotResp) : M unit :=
  if negb ok then mret tt
  else
    t ← atomically (fun n =>
      if currentTerm_ (log_ n) <? isr_term resp then mret (n, Follow (isr_term resp))
      else
        let n := set_matchIndex (<[peer := idx]> (matchIndex_ n)) n in
        mret (set_nextIndex (<[peer := add64 idx 1]> (nextIndex_ n)) n, Nothing));
    match t with
    | Follow t => becomeFollower_p t 0
    | _ => mret tt
    end.

(** ** Elections *)
Definition takeOffice n : RaftNode S :=
  let n := set_role Leader n in
  let n := set_leaderId (id (opts_ n)) n in
  let cfg := config_ n in
  let last := lastIndex (log_ n) in
  let n := set_nextIndex ∅ n in
  let n := set_matchIndex ∅ n in
  fold_left (fun n v =>
    set_matchIndex (<[v := 0]> (matchIndex_ n))
      (set_nextIndex (<[v := add64 last 1]> (nextIndex_ n)) n)) (voters cfg) n.

Definition becomeLeader_p : M unit :=
  office ← atomically (fun n => if decide (role_ n = Candidate) then mret (takeOffice n, true) else mret (n, false));
  if (office : bool) then
    _ ← propose_p [] NoOp;
    _ ← tryAdvanceCommitIndex_p;
    broadcastAppendEntries_p
  else mret tt.

(** What the first section of [becomeCandidate] leaves in local variables. *)
Record Candidacy := mkCandidacy {
  cd_me : NodeId; cd_term : Term; cd_cfg : ClusterConfig; cd_lastIdx : LogIndex; cd_lastTerm : Term
}.

Definition stand n : RaftNode S * Candidacy :=
  let me := id (opts_ n) in
  let newTerm := add64 (currentTerm_ (log_ n)) 1 in
  let n := set_log (setHardState newTerm me (log_ n)) n in
  let n := set_role Candidate n in
  let n := set_leaderId 0 n in
  let n := resetElectionDeadline n in
  (n, mkCandidacy me newTerm (config_ n) (lastIndex (log_ n)) (lastTerm (log_ n))).

(** After the section.  The counter of the votes is allocated here; [votes_] has it
    under the term it is for. *)
Definition canvass_p (c : Candidacy) : M unit :=
  if negb (hasVoter (cd_cfg c) (cd_me c)) && (0 <? nlen (voters (cd_cfg c))) then mret tt
  else
    _ ← modify (fun n => set_votes (<[cd_term c := 1]> (votes_ n)) n);
    let majority := nlen (voters (cd_cfg c)) / 2 + 1 in
    if majority <=? 1 then becomeLeader_p
    else
      let req := mkRequestVoteReq (cd_term c) (cd_me c) (cd_lastIdx c) (cd_lastTerm c) in
      emit (flat_map (fun peer =>
        if peer =? cd_me c then [] else [SendRequestVote peer req (cd_term c) majority]) (voters (cd_cfg c))).

Definition becomeCandidate_p : M unit := c ← atomically (fun n => mret (stand n)); canvass_p c.

Definition onRequestVoteResp_p (newTerm : Term) (majority : N) (ok : bool) (resp : RequestVoteResp) : M unit :=
  if negb ok then mret tt
  else
    t ← atomically (fun n =>
      if negb (bool_decide (role_ n = Candidate)) || negb (currentTerm_ (log_ n) =? newTerm) then mret (n, Nothing)
      else if newTerm <? rvr_term resp then mret (n, Follow (rvr_term resp))
      else if rvr_voteGranted resp then
        let v := default 0 (votes_ n !! newTerm) + 1 in
        let n := set_votes (<[newTerm := v]> (votes_ n)) n in
        mret (n, if majority <=? v then Lead else Nothing)
      else mret (n, Nothing));
    match t with
    | Follow t => becomeFollower_p t 0
    | Lead => becomeLeader_p
    | _ => mret tt
    end.

(** ** RPC handlers *)

(** [handleRequestVote] from the evaluation of [canVote] on. *)
Definition castVote (req : RequestVoteReq) n : RaftNode S * RequestVoteResp :=
  let canVote := (votedFor_ (log_ n) =? 0) || (votedFor_ (log_ n) =? rv_candidateId req) in
  let myLast := lastIndex (log_ n) in
  let myLastTerm := lastTerm (log_ n) in
  let logOk := (myLastTerm <? rv_lastLogTerm req) ||
               ((rv_lastLogTerm req =? myLastTerm) && (myLast <=? rv_lastLogIndex req)) in
  if canVote && logOk then
    let n := set_log (setHardState (currentTerm_ (log_ n)) (rv_candidateId req) (log_ n)) n in
    let n := resetElectionDeadline n in
    (n, mkRequestVoteResp (currentTerm_ (log_ n)) true)
  else (n, mkRequestVoteResp (currentTerm_ (log_ n)) false).

(** The mutex is released only to step down for a newer term. *)
Definition handleRequestVote_p (req : RequestVoteReq) : M RequestVoteResp :=
  r ← atomically (fun n =>
    if rv_term req <? currentTerm_ (log_ n) then mret (n, Some (mkRequestVoteResp (currentTerm_ (log_ n)) false))
    else if currentTerm_ (log_ n) <? rv_term req then mret (n, None)
    else let '(n, resp) := castVote req n in mret (n, Some resp));
  match r : option RequestVoteResp with
  | Some resp => mret resp
  | None =>
      _ ← becomeFollower_p (rv_term req) 0;
      atomically (fun n => mret (castVote req n))
  end.

(** [handleAppendEntries] from [resetElectionDeadline] to the second unlock: an
    early return, or [newLast]. *)
Definition storeEntries (req : AppendEntriesReq) n : RaftNode S * (AppendEntriesResp + LogIndex) :=
  let n := resetElectionDeadline n in
  let n := set_leaderId (ae_leaderId req) n in
  match checkPrev req (log_ n) with
  | Some resp => (n, inl resp)
  | None =>
      let n := match ae_entries req with
               | [] => n
               | _ => set_log (appendAndSync (ae_entries req) (log_ n)) n
               end in
      let newLast := match last (ae_entries req) with
                     | None => ae_prevLogIndex req
                     | Some e => e_index e
                     end in
      let n := if commitIndex_ n <? ae_leaderCommit req
               then set_commitIndex (N.min (ae_leaderCommit req) newLast) n else n in
      (n, inr newLast)
  end.

Definition handleAppendEntries_p (req : AppendEntriesReq) : M AppendEntriesResp :=
  stale ← get (fun n => if ae_term req <? currentTerm_ (log_ n) then Some (currentTerm_ (log_ n)) else None);
  match stale : option Term with
  | Some t => mret (mkAppendEntriesResp t false 0 0 0)
  | None =>
      _ ← becomeFollower_p (ae_term req) (ae_leaderId req);
      r ← atomically (fun n => mret (storeEntries req n));
      match r : AppendEntriesResp + LogIndex with
      | inl resp => mret resp
      | inr newLast =>
          _ ← applyCommittedEntries_p;
          t ← get (fun n => currentTerm_ (log_ n));
          mret (mkAppendEntriesResp t true newLast 0 0)
      end
  end.

(** [handleInstallSnapshot] after stepping down. *)
Definition storeSnapshot (req : InstallSnapshotReq) n : outcome (RaftNode S * InstallSnapshotResp) :=
  if is_lastIncludedIndex req <=? snapshotIndex_ (log_ n) then
    mret (n, mkInstallSnapshotResp (currentTerm_ (log_ n)))
  else
    let n := set_log (compactUpTo (is_lastIncludedIndex req) (is_lastIncludedTerm req) (is_data req) (log_ n)) n in
    s ← sm_restore (is_data req);
    let n := set_sm s n in
    let n := set_commitIndex (N.max (commitIndex_ n) (is_lastIncludedIndex req)) n in
    let n := set_lastApplied (N.max (lastApplied_ n) (is_lastIncludedIndex req)) n in
    mret (n, mkInstallSnapshotResp (currentTerm_ (log_ n))).

Definition handleInstallSnapshot_p (req : InstallSnapshotReq) : M InstallSnapshotResp :=
  stale ← get (fun n => if is_term req <? currentTerm_ (log_ n) then Some (currentTerm_ (log_ n)) else None);
  match stale : option Term with
  | Some t => mret (mkInstallSnapshotResp t)
  | None =>
      _ ← becomeFollower_p (is_term req) (is_leaderId req);
      atomically (storeSnapshot req)
  end.

(** ** Snapshots and the timer loop *)
Definition forceSnapshot_p : M unit :=
  p ← get (fun n =>
    let idx := lastApplied_ n in
    if idx <=? snapshotIndex_ (log_ n) then None else Some (idx, termAt idx (log_ n)));
  match p : option (LogIndex * Term) with
  | None => mret tt
  | Some (idx, term) =>
      bytes ← get (fun n => sm_snapshot (sm_ n));
      modify (fun n => set_log (compactUpTo idx term bytes (log_ n)) n)
  end.

Definition maybeSnapshot_p : M unit :=
  due ← get (fun n => snapshotThresholdEntries (opts_ n) <=? sub64 (lastApplied_ n) (snapshotIndex_ (log_ n)));
  if (due : bool) then forceSnapshot_p else mret tt.

Definition runLoopRound_p (now : N) : M unit :=
  _ ← (r ← get role_;
       if decide (r = Leader) then
         due ← get (fun n => lastHeartbeat_ n + heartbeatIntervalMs (opts_ n) <=? now);
         if (due : bool) then
           _ ← broadcastAppendEntries_p;
           modify (set_lastHeartbeat now)
         else mret tt
       else
         expired ← get (fun n => electionDeadline_ n <=? now);
         if (expired : bool) then becomeCandidate_p else mret tt);
  maybeSnapshot_p.

(** ** Uninterrupted programs are the methods *)

(** The shapes of the results of the methods. *)
Definition silent (o : outcome (RaftNode S)) : outcome (RaftNode S * list Send * unit) :=
  n ← o; mret (n, [], tt).
Definition answering {A} (o : outcome (RaftNode S * A)) : outcome (RaftNode S * list Send * A) :=
  r ← o; mret (r.1, [], r.2).
Definition sending (o : outcome (RaftNode S * list Send)) : outcome (RaftNode S * list Send * unit) :=
  r ← o; mret (r.1, r.2, tt).

Lemma runP_mbind {A B} (p : M A) (g : A -> M B) n :
  runP (p ≫= g) n = (r ← runP p n; r' ← runP (g r.2) r.1.1; mret (r'.1.1, r.1.2 ++ r'.1.2, r'.2)).
Proof.
  unfold mbind, Prog_bind; rewrite runP_bind; destruct (runP p n) as [[[n' ss] a]|]; [|done].
  simpl; by destruct (runP (g a) n') as [[[??]?]|].
Qed.

Lemma runP_atomically {A} (f : RaftNode S -> outcome (RaftNode S * A)) n :
  runP (atomically f : M A) n = answering (f n).
Proof. unfold atomically; simpl; by destruct (f n) as [[??]|]. Qed.

Lemma runP_section {A B} (f : RaftNode S -> RaftNode S * A) (g : A -> M B) n :
  runP (a ← atomically (fun n => mret (f n)); g a) n = runP (g (f n).2) (f n).1.
Proof. simpl; by destruct (f n). Qed.

Lemma runP_get {A} (f : RaftNode S -> A) n : runP (get f : M A) n = Ok (n, [], f n).
Proof. done. Qed.

Ltac whole := cbn [answering silent sending mbind outcome_bind mret outcome_ret fst snd app].

Lemma applyEntry_whole e n : runP (applyEntry_p e) n = silent (applyEntry e n).
Proof.
  unfold applyEntry_p, applyEntry; rewrite runP_mbind; destruct (e_type e); try done.
  - rewrite runP_atomically; simpl; by destruct (sm_apply _ _ _) as [[??]|].
  - rewrite runP_atomically; simpl; by destruct (applyConfigEntry e n).
Qed.

Lemma applyAll_whole es n : runP (forEach applyEntry_p es) n = silent (applyAll es n).
Proof.
  revert n; induction es as [|e es IH]; intros n; [done|]; simpl.
  rewrite runP_bind, applyEntry_whole; destruct (applyEntry e n) as [m|]; [|done]; simpl.
  rewrite IH; by destruct (applyAll es m).
Qed.

Lemma applyCommittedEntries_whole n : runP applyCommittedEntries_p n = silent (applyCommittedEntries n).
Proof.
  unfold applyCommittedEntries_p, applyCommittedEntries; rewrite runP_mbind, runP_atomically.
  destruct (takeCommitted _ _ _) as [es m]; whole; rewrite applyAll_whole; by destruct (applyAll es m).
Qed.

Lemma tryAdvance_whole n : runP tryAdvanceCommitIndex_p n = silent (tryAdvanceCommitIndex n).
Proof.
  unfold tryAdvanceCommitIndex_p, tryAdvanceCommitIndex; rewrite runP_mbind, runP_atomically.
  case_decide; [|done]; destruct (commitCandidate n) as [c|]; [|done].
  destruct (_ && _); [|done]; whole; rewrite applyCommittedEntries_whole.
  by destruct (applyCommittedEntries _).
Qed.

Lemma propose_whole b t n : runP (propose_p b t) n = answering (propose b t n).
Proof.
  unfold propose_p, propose; rewrite runP_mbind, runP_atomically; case_decide; [|done].
  whole; rewrite runP_mbind, tryAdvance_whole.
  set (m := set_log _ n); change (opts_ n) with (opts_ m); clearbody m.
  destruct (tryAdvanceCommitIndex m) as [m'|] eqn:E; [|done]; whole.
  by apply tryAdvance_frame in E as [-> _ _ _ _ _].
Qed.

Lemma addServer_whole i a n : runP (addServer_p i a) n = answering (addServer i a n).
Proof.
  unfold addServer_p, addServer; rewrite runP_mbind, runP_get; whole; rewrite propose_whole.
  by destruct (propose _ _ _) as [[??]|].
Qed.

Lemma removeServer_whole i n : runP (removeServer_p i) n = answering (removeServer i n).
Proof.
  unfold removeServer_p, removeServer; rewrite runP_mbind, runP_get; whole; rewrite propose_whole.
  by destruct (propose _ _ _) as [[??]|].
Qed.

(** Programs that only read and call. *)
Lemma sendAppendEntriesTo_whole peer n : runP (sendAppendEntriesTo_p peer) n = Ok (n, sendAppendEntriesTo peer n, tt).
Proof. unfold sendAppendEntriesTo_p; rewrite runP_mbind, runP_get; whole; by rewrite runP_emit. Qed.

Lemma sendInstallSnapshotTo_whole peer n :
  runP (sendInstallSnapshotTo_p peer) n = Ok (n, sendInstallSnapshotTo peer n, tt).
Proof.
  unfold sendInstallSnapshotTo_p, sendInstallSnapshotTo; rewrite runP_mbind, runP_get; whole.
  case_decide; [|done]; rewrite runP_mbind, runP_get; whole; rewrite runP_mbind.
  by destruct (loadSnapshotBytes (log_ n)).
Qed.

Lemma broadcast_whole n : runP broadcastAppendEntries_p n = Ok (n, broadcastAppendEntries n, tt).
Proof.
  unfold broadcastAppendEntries_p, broadcastAppendEntries; rewrite runP_mbind, runP_get; whole.
  case_decide; [|done]; whole.
  rewrite (runP_forEach _ (fun peer => if peer =? id (opts_ n) then []
      else if nextIndexOf peer n <=? snapshotIndex_ (log_ n) then sendInstallSnapshotTo peer n
      else sendAppendEntriesTo peer n)); [done|]; intros peer.
  destruct (_ =? _); [done|]; rewrite runP_mbind, runP_get; whole; rewrite runP_mbind, runP_get; whole.
  destruct (_ <=? _); by rewrite ?sendAppendEntriesTo_whole, ?sendInstallSnapshotTo_whole.
Qed.

(** The callbacks. *)
Lemma onAppendEntriesResp_whole peer term ok resp n :
  runP (onAppendEntriesResp_p peer term ok resp) n = silent (onAppendEntriesResp peer term ok resp n).
Proof.
  unfold onAppendEntriesResp_p, onAppendEntriesResp; destruct (negb ok); [done|].
  rewrite runP_mbind, runP_atomically; destruct (_ <? _); [done|]; destruct (_ || _); [done|].
  destruct (aer_success resp); whole; [|done].
  rewrite tryAdvance_whole; by destruct (tryAdvanceCommitIndex _).
Qed.

Lemma onInstallSnapshotResp_whole peer idx ok resp n :
  runP (onInstallSnapshotResp_p peer idx ok resp) n = silent (Ok (onInstallSnapshotResp peer idx ok resp n)).
Proof.
  unfold onInstallSnapshotResp_p, onInstallSnapshotResp; destruct (negb ok); [done|].
  rewrite runP_mbind, runP_atomically; by destruct (_ <? _).
Qed.

Lemma becomeLeader_whole n : runP becomeLeader_p n = sending (becomeLeader n).
Proof.
  unfold becomeLeader_p, becomeLeader; rewrite runP_mbind, runP_atomically; case_decide; [|done].
  whole; rewrite runP_mbind, propose_whole; change (fold_left _ _ _) with (takeOffice n).
  destruct (propose [] NoOp (takeOffice n)) as [[m r]|]; [|done]; whole; rewrite runP_mbind, tryAdvance_whole.
  destruct (tryAdvanceCommitIndex m) as [m'|]; [|done]; whole; by rewrite broadcast_whole.
Qed.

(** [becomeCandidate] after its section. *)
Definition canvassing n (c : Candidacy) : outcome (RaftNode S * list Send) :=
  if negb (hasVoter (cd_cfg c) (cd_me c)) && (0 <? nlen (voters (cd_cfg c))) then mret (n, [])
  else
    let n := set_votes (<[cd_term c := 1]> (votes_ n)) n in
    let majority := nlen (voters (cd_cfg c)) / 2 + 1 in
    if majority <=? 1 then becomeLeader n
    else
      let req := mkRequestVoteReq (cd_term c) (cd_me c) (cd_lastIdx c) (cd_lastTerm c) in
      mret (n, flat_map (fun peer =>
        if peer =? cd_me c then [] else [SendRequestVote peer req (cd_term c) majority]) (voters (cd_cfg c))).

Lemma canvass_whole c n : runP (canvass_p c) n = sending (canvassing n c).
Proof.
  unfold canvass_p, canvassing; destruct (_ && _); [done|]; rewrite runP_mbind; cbn [modify runP]; whole.
  destruct (_ <=? _); [|by rewrite runP_emit].
  rewrite becomeLeader_whole; by destruct (becomeLeader _) as [[??]|].
Qed.

(** Equal bodies are compared without unfolding the updates of the record. *)
#[local] Strategy 1000 [setHardState resetElectionDeadline set_log set_role set_leaderId set_votes becomeLeader lastIndex lastTerm hasVoter becomeFollower].

Lemma becomeCandidate_stand n : becomeCandidate n = canvassing (stand n).1 (stand n).2.
Proof. reflexivity. Qed.

Lemma becomeCandidate_whole n : runP becomeCandidate_p n = sending (becomeCandidate n).
Proof. rewrite becomeCandidate_stand; unfold becomeCandidate_p; by rewrite (runP_section stand), canvass_whole. Qed.

Lemma onRequestVoteResp_whole t m ok resp n :
  runP (onRequestVoteResp_p t m ok resp) n = sending (onRequestVoteResp t m ok resp n).
Proof.
  unfold onRequestVoteResp_p, onRequestVoteResp; destruct (negb ok); [done|].
  rewrite runP_mbind, runP_atomically; destruct (_ || _); [done|]; destruct (_ <? _); [done|].
  destruct (rvr_voteGranted resp); [|done]; whole; destruct (_ <=? _); [|done].
  rewrite becomeLeader_whole; by destruct (becomeLeader _) as [[??]|].
Qed.

(** The handlers. *)
Lemma handleRequestVote_cast req n :
  handleRequestVote req n =
    if rv_term req <? currentTerm_ (log_ n) then (n, mkRequestVoteResp (currentTerm_ (log_ n)) false)
    else castVote req (if currentTerm_ (log_ n) <? rv_term req then becomeFollower (rv_term req) 0 n else n).
Proof. reflexivity. Qed.

Lemma handleRequestVote_whole req n : runP (handleRequestVote_p req) n = answering (Ok (handleRequestVote req n)).
Proof.
  rewrite handleRequestVote_cast; unfold handleRequestVote_p; rewrite runP_mbind, runP_atomically.
  destruct (_ <? _); [done|]; destruct (_ <? _); whole.
  - unfold becomeFollower_p; rewrite runP_mbind; cbn [modify runP]; generalize (becomeFollower (rv_term req) 0 n); intros m.
    generalize (castVote req); intros cast; whole; rewrite runP_atomically; whole; by destruct (cast m).
  - generalize (castVote req); intros cast; by destruct (cast n).
Qed.

Lemma handleAppendEntries_whole req n : runP (handleAppendEntries_p req) n = answering (handleAppendEntries req n).
Proof.
  unfold handleAppendEntries_p, handleAppendEntries; rewrite runP_mbind, runP_get; whole.
  destruct (_ <? _); [done|]; rewrite runP_mbind; cbn [becomeFollower_p modify runP]; whole.
  rewrite runP_mbind, runP_atomically; whole; unfold storeEntries.
  set (m := set_leaderId _ _); clearbody m; destruct (checkPrev req (log_ m)); [done|]; whole.
  set (m' := if _ <? _ then _ else _); clearbody m'; rewrite runP_mbind, applyCommittedEntries_whole.
  by destruct (applyCommittedEntries m').
Qed.

Lemma handleInstallSnapshot_whole req n :
  runP (handleInstallSnapshot_p req) n = answering (handleInstallSnapshot req n).
Proof.
  unfold handleInstallSnapshot_p, handleInstallSnapshot; rewrite runP_mbind, runP_get; whole.
  destruct (_ <? _); [done|]; rewrite runP_mbind; cbn [becomeFollower_p modify runP]; whole.
  rewrite runP_atomically; unfold storeSnapshot; destruct (_ <=? _); [done|].
  by destruct (sm_restore (is_data req)).
Qed.

(** Snapshots and the timer loop. *)
Lemma forceSnapshot_whole n : runP forceSnapshot_p n = silent (Ok (forceSnapshot n)).
Proof.
  unfold forceSnapshot_p, forceSnapshot; rewrite runP_mbind, runP_get; whole; by destruct (_ <=? _).
Qed.

Lemma maybeSnapshot_whole n : runP maybeSnapshot_p n = silent (Ok (maybeSnapshot n)).
Proof.
  unfold maybeSnapshot_p, maybeSnapshot; rewrite runP_mbind, runP_get; whole.
  destruct (_ <=? _); [|done]; by rewrite forceSnapshot_whole.
Qed.

Lemma runLoopRound_whole now n : runP (runLoopRound_p now) (set_now now n) = sending (runLoopRound now n).
Proof.
  unfold runLoopRound_p, runLoopRound; set (m := set_now now n); clearbody m.
  rewrite runP_mbind, runP_mbind, runP_get; whole; case_decide.
  - rewrite runP_mbind, runP_get; whole; destruct (_ <=? _); whole.
    + rewrite runP_mbind, broadcast_whole; whole; cbn [modify runP]; whole.
      rewrite maybeSnapshot_whole; whole; by rewrite !app_nil_r.
    + change (runP (mret tt : M unit) m) with (Ok (m, @nil Send, tt)); whole; by rewrite maybeSnapshot_whole.
  - rewrite runP_mbind, runP_get; whole; destruct (_ <=? _); whole.
    + rewrite becomeCandidate_whole; destruct (becomeCandidate m) as [[m' ss]|]; [|done]; whole.
      rewrite maybeSnapshot_whole; whole; by rewrite app_nil_r.
    + change (runP (mret tt : M unit) m) with (Ok (m, @nil Send, tt)); whole; by rewrite maybeSnapshot_whole.
Qed.
End methods.
