(* ===== verification/RaftThreads.v ===== *)
(** * A Raft group whose methods interleave

    [Cluster] runs every method in one step.  Here a method is a thread of its
    node: it is started by a timer round, a delivered message or a client, and
    advances by one critical section at a time ([RaftSections]), in any order with
    the other threads of the node.  A node has one timer thread; handlers,
    callbacks and clients have as many as the servers and the transport start. *)
From stdpp Require Import base tactics list gmap numbers strings sorting relations.
From Stdlib Require Import Ascii NArith Lia.
From S2P Require Import Prelude.
From S2P Require Import Buffer.
From S2P Require Import Types.
From S2P Require Import RpcMessages.
From S2P Require Import PersistentLog.
From S2P Require Import StateMachine.
From S2P Require Import RaftNode.
From S2P Require Import RaftNodeFacts.
From S2P Require Import RaftHandlers.
From S2P Require Import Cluster.
From S2P Require Import RaftInvariant.
From S2P Require Import ElectionSafety.
From S2P Require Import Sections.
From S2P Require Import RaftSections.

Local Open Scope N_scope.

Section threads.
Context {S : Type} `{StateMachine S}.
Context (cfg : ClusterConfig) (freshSm : S).
Implicit Types (n : RaftNode S) (c : Cluster S).

(** A method under way on node [th_node]; it returns the messages of its answer. *)
Record Thread := mkThread {
  th_node : NodeId;
  th_timer : bool;
  th_prog : Prog (RaftNode S) Send (list Packet)
}.

Record Threads := mkThreads { cluster : Cluster S; threads : list Thread }.
Implicit Types f : Threads.

Inductive TEvent : Type :=
| TClock (i : NodeId) (now : N)
| TTick (i : NodeId) (now : N)
| TDeliver (k : nat)
| TStep (j : nat)
| TDrop (k : nat)
| TDuplicate (k : nat)
| TPropose (i : NodeId) (commandBytes : bytes)
| TSnapshot (i : NodeId)
| TAddServer (i : NodeId) (newId : NodeId) (address : bytes)
| TRemoveServer (i : NodeId) (oldId : NodeId)
| TRestart (i : NodeId) (rng : list N) (now : N).

(** ** Starting a method *)
Definition spawn (i : NodeId) (timer : bool) (p : Prog (RaftNode S) Send (list Packet)) f : Threads :=
  mkThreads (cluster f) (threads f ++ [mkThread i timer p]).

Definition set_net (ps : list Packet) f : Threads :=
  mkThreads (mkCluster (nodes (cluster f)) (incarnation (cluster f)) ps) (threads f).

(** The handler of a request, with its answer under way at the end. *)
Definition handler (src : NodeId) (inc : N) (s : Send) : Prog (RaftNode S) Send (list Packet) :=
  match s with
  | SendRequestVote peer req newTerm majority =>
      resp ← handleRequestVote_p req; mret [VoteReply src inc peer newTerm majority resp]
  | SendAppendEntries peer req term =>
      resp ← handleAppendEntries_p req; mret [AppendReply src inc peer term resp]
  | SendInstallSnapshot peer req idx =>
      resp ← handleInstallSnapshot_p req; mret [SnapshotReply src inc peer idx resp]
  end.

Definition sendPeer (s : Send) : NodeId :=
  match s with
  | SendRequestVote peer _ _ _ | SendAppendEntries peer _ _ | SendInstallSnapshot peer _ _ => peer
  end.

(** Whom a message is for, and the thread it starts there.  A reply is for the
    process that made the call. *)
Definition recipient c (p : Packet) : option NodeId :=
  match p with
  | Request _ _ s => match nodes c !! sendPeer s with Some _ => Some (sendPeer s) | None => None end
  | VoteReply dst inc _ _ _ _ | AppendReply dst inc _ _ _ | SnapshotReply dst inc _ _ _ =>
      match nodes c !! dst with
      | Some _ => if inc =? incOf c dst then Some dst else None
      | None => None
      end
  end.

Definition reaction (p : Packet) : Prog (RaftNode S) Send (list Packet) :=
  match p with
  | Request src inc s => handler src inc s
  | VoteReply _ _ _ newTerm majority resp => _ ← onRequestVoteResp_p newTerm majority true resp; mret []
  | AppendReply _ _ peer term resp => _ ← onAppendEntriesResp_p peer term true resp; mret []
  | SnapshotReply _ _ peer idx resp => _ ← onInstallSnapshotResp_p peer idx true resp; mret []
  end.

(** ** One section of a thread *)
Definition stepThread (j : nat) f : option Threads :=
  th ← threads f !! j;
  let i := th_node th in
  n ← nodes (cluster f) !! i;
  match advance (th_prog th) n with
  | Some (Ok (n', ss, p')) =>
      Some (mkThreads (update (cluster f) i n' (net (cluster f) ++ launch i (incOf (cluster f) i) ss))
              (<[j := mkThread i (th_timer th) p']> (threads f)))
  | Some (Throw _) => None
  | None =>
      match th_prog th with
      | Ret ps => Some (mkThreads (mkCluster (nodes (cluster f)) (incarnation (cluster f)) (net (cluster f) ++ ps))
                          (delete j (threads f)))
      | _ => None
      end
  end.

Definition timerIdle (i : NodeId) f : bool :=
  forallb (fun th => negb (th_timer th && (th_node th =? i))) (threads f).

Definition texec f (ev : TEvent) : option Threads :=
  match ev with
  | TClock i now =>
      n ← nodes (cluster f) !! i; Some (mkThreads (update (cluster f) i (set_now now n) (net (cluster f))) (threads f))
  | TTick i now =>
      n ← nodes (cluster f) !! i;
      if running_ n && timerIdle i f then Some (spawn i true (_ ← runLoopRound_p now; mret []) f) else None
  | TDeliver k =>
      p ← net (cluster f) !! k;
      let f := set_net (delete k (net (cluster f))) f in
      match recipient (cluster f) p with
      | Some i => Some (spawn i false (reaction p) f)
      | None => Some f
      end
  | TStep j => stepThread j f
  | TDrop k => _ ← net (cluster f) !! k; Some (set_net (delete k (net (cluster f))) f)
  | TDuplicate k =>
      p ← net (cluster f) !! k;
      match p with Request _ _ _ => Some (set_net (net (cluster f) ++ [p]) f) | _ => None end
  | TPropose i b => _ ← nodes (cluster f) !! i; Some (spawn i false (_ ← propose_p b Command; mret []) f)
  | TSnapshot i => _ ← nodes (cluster f) !! i; Some (spawn i false (_ ← forceSnapshot_p; mret []) f)
  | TAddServer i x a => _ ← nodes (cluster f) !! i; Some (spawn i false (_ ← addServer_p x a; mret []) f)
  | TRemoveServer i x => _ ← nodes (cluster f) !! i; Some (spawn i false (_ ← removeServer_p x; mret []) f)
  | TRestart i rng now =>
      n ← nodes (cluster f) !! i;
      n' ← of_outcome (newRaftNode (opts_ n) cfg (dir_ (log_ n)) freshSm rng now);
      Some (mkThreads
        (mkCluster (<[i := start n']> (nodes (cluster f)))
                   (<[i := incOf (cluster f) i + 1]> (incarnation (cluster f))) (net (cluster f)))
        (filter (fun th => th_node th <> i) (threads f)))
  end.

Fixpoint trun (evs : list TEvent) f : option Threads :=
  match evs with
  | [] => Some f
  | ev :: evs' => f' ← texec f ev; trun evs' f'
  end.

Definition tstep f f' : Prop := exists ev, texec f ev = Some f'.

Definition freshThreads (os : list RaftOptions) : Threads := mkThreads (freshCluster cfg freshSm os) [].

(** ** Schedules of whole methods *)

(** A thread that is run to its end does what [runP] says. *)
Lemma rtc_subst {A} (R : relation A) x y z : rtc R x y -> y = z -> rtc R x z.
Proof. by intros ? <-. Qed.

Lemma step_last f i timer p p' c ths n n' ss :
  f = mkThreads c (ths ++ [mkThread i timer p]) -> nodes c !! i = Some n ->
  advance p n = Some (Ok (n', ss, p')) ->
  tstep f (mkThreads (update c i n' (net c ++ launch i (incOf c i) ss)) (ths ++ [mkThread i timer p'])).
Proof.
  intros -> Hi Ha; exists (TStep (length ths)); simpl; unfold stepThread; simpl.
  rewrite list_lookup_middle by done; simpl; rewrite Hi; simpl; rewrite Ha.
  by rewrite insert_app_r_alt, Nat.sub_diag by done.
Qed.

Lemma run_thread p i timer n n' ss ps c ths :
  nodes c !! i = Some n -> runP p n = Ok (n', ss, ps) ->
  rtc tstep (mkThreads c (ths ++ [mkThread i timer p]))
    (mkThreads (update c i n' (net c ++ launch i (incOf c i) ss ++ ps)) ths).
Proof.
  revert n c ss; induction p as [a|B g k IH|s k IH]; intros n c ss Hi Hr; simpl in Hr.
  - simplify_eq; apply rtc_once; exists (TStep (length ths)); simpl; unfold stepThread; simpl.
    rewrite list_lookup_middle by done; simpl; rewrite Hi; simpl; unfold update; rewrite insert_id by done.
    by rewrite delete_middle, app_nil_r.
  - destruct (g n) as [[m b]|] eqn:E; [|done].
    eapply rtc_l; [eapply step_last; [done|exact Hi|simpl; by rewrite E]|].
    eapply rtc_subst; [apply (IH b m); [apply lookup_insert_eq|exact Hr]|].
    unfold update, incOf; simpl; by rewrite insert_insert_eq, app_nil_r.
  - destruct (runP k n) as [[[m ss'] a]|] eqn:E; [|done]; simplify_eq.
    eapply rtc_l; [eapply step_last; [done|exact Hi|done]|].
    eapply rtc_subst; [apply (IH n); [apply lookup_insert_eq|exact E]|].
    unfold update, incOf; simpl; rewrite insert_insert_eq; do 2 f_equal; by rewrite <- app_assoc.
Qed.

(** A method that is started at time [now] and is not interrupted. *)
Lemma whole_method c c' i n n' timer p ss ps rest now ev :
  nodes c !! i = Some n -> runP p (set_now now n) = Ok (n', ss, ps) ->
  (forall c1, c1 = update c i (set_now now n) (net c) ->
     texec (mkThreads c1 []) ev = Some (mkThreads (mkCluster (nodes c1) (incarnation c1) rest) [mkThread i timer p])) ->
  c' = update c i n' (rest ++ launch i (incOf c i) ss ++ ps) ->
  rtc tstep (mkThreads c []) (mkThreads c' []).
Proof.
  intros Hi Hr Hev ->; eapply rtc_l; [exists (TClock i now); simpl; by rewrite Hi|].
  eapply rtc_l; [exists ev; by apply Hev|].
  eapply rtc_subst; [apply (run_thread p i timer (set_now now n) n' ss ps _ []); [apply lookup_insert_eq|done]|].
  unfold update, incOf; simpl; by rewrite insert_insert_eq.
Qed.

Lemma runP_then (p : Prog (RaftNode S) Send unit) ps n n' ss a :
  runP p n = Ok (n', ss, a) -> runP (_ ← p; mret ps) n = Ok (n', ss, ps : list Packet).
Proof. intros Hr; rewrite runP_mbind, Hr; simpl; by rewrite app_nil_r. Qed.

Lemma runP_answer {A} (p : Prog (RaftNode S) Send A) (g : A -> list Packet) n n' ss a :
  runP p n = Ok (n', ss, a) -> runP (r ← p; mret (g r)) n = Ok (n', ss, g a).
Proof. intros Hr; rewrite runP_mbind, Hr; simpl; by rewrite app_nil_r. Qed.

Lemma whole_tick c c' i now : exec cfg freshSm c (EvTick i now) = Some c' -> rtc tstep (mkThreads c []) (mkThreads c' []).
Proof.
  simpl; intros (n & Hi & Hx)%bind_Some_inv; destruct (running_ n) eqn:Hrun; [|done].
  apply bind_Some_inv in Hx as ([n' ss] & Hr%of_outcome_Some & [= <-]).
  eapply (whole_method _ _ i n n' true _ ss [] (net c) now (TTick i now)); [done| | |by rewrite app_nil_r].
  - eapply runP_then; rewrite runLoopRound_whole, Hr; done.
  - intros c1 ->; simpl; rewrite lookup_insert_eq; simpl; by rewrite Hrun.
Qed.

Lemma whole_request c c' k src inc s now :
  net c !! k = Some (Request src inc s) -> deliverRequest c src inc s now (delete k (net c)) = Some c' ->
  rtc tstep (mkThreads c []) (mkThreads c' []).
Proof.
  intros Hk Hd; destruct (nodes c !! sendPeer s) as [n|] eqn:Hi.
  2: { apply rtc_once; exists (TDeliver k); simpl; rewrite Hk; simpl; rewrite Hi; destruct s; simpl in *; rewrite Hi in Hd; by simplify_eq. }
  assert (forall c1, c1 = update c (sendPeer s) (set_now now n) (net c) -> texec (mkThreads c1 []) (TDeliver k) =
    Some (mkThreads (mkCluster (nodes c1) (incarnation c1) (delete k (net c))) [mkThread (sendPeer s) false (handler src inc s)])) as Hev.
  { intros c1 ->; simpl; rewrite Hk; simpl; by rewrite lookup_insert_eq. }
  destruct s as [peer req t m|peer req t|peer req idx]; cbn [sendPeer deliverRequest] in Hi, Hd, Hev; rewrite Hi in Hd.
  - destruct (handleRequestVote req (set_now now n)) as [n' resp] eqn:E; simplify_eq.
    eapply (whole_method _ _ peer n n' false _ [] [_] (delete k (net c)) now (TDeliver k)); [done| |exact Hev|done].
    eapply (runP_answer _ (fun r => [VoteReply src inc peer t m r])); rewrite handleRequestVote_whole, E; done.
  - apply bind_Some_inv in Hd as ([n' resp] & Hr%of_outcome_Some & [= <-]).
    eapply (whole_method _ _ peer n n' false _ [] [_] (delete k (net c)) now (TDeliver k)); [done| |exact Hev|done].
    eapply (runP_answer _ (fun r => [AppendReply src inc peer t r])); rewrite handleAppendEntries_whole, Hr; done.
  - apply bind_Some_inv in Hd as ([n' resp] & Hr%of_outcome_Some & [= <-]).
    eapply (whole_method _ _ peer n n' false _ [] [_] (delete k (net c)) now (TDeliver k)); [done| |exact Hev|done].
    eapply (runP_answer _ (fun r => [SnapshotReply src inc peer idx r])); rewrite handleInstallSnapshot_whole, Hr; done.
Qed.

Definition replyTo (p : Packet) : NodeId :=
  match p with
  | Request src _ _ => src
  | VoteReply dst _ _ _ _ _ | AppendReply dst _ _ _ _ | SnapshotReply dst _ _ _ _ => dst
  end.

Lemma whole_reply c c' k p now :
  net c !! k = Some p -> deliverReply c p now (delete k (net c)) = Some c' ->
  rtc tstep (mkThreads c []) (mkThreads c' []).
Proof.
  intros Hk Hd; assert (recipient c p = None -> c' = mkCluster (nodes c) (incarnation c) (delete k (net c)) ->
    rtc tstep (mkThreads c []) (mkThreads c' [])) as Hnone.
  { intros Hr ->; apply rtc_once; exists (TDeliver k); simpl; rewrite Hk; simpl.
    by replace (recipient (mkCluster _ _ _) p) with (recipient c p) by (by destruct p); rewrite Hr. }
  destruct p as [|dst inc peer t m resp|dst inc peer t resp|dst inc peer idx resp]; simpl in Hd, Hnone; [done|..];
    (destruct (nodes c !! dst) as [n|] eqn:Hi; [|by simplify_eq; apply Hnone]);
    (destruct (inc =? incOf c dst) eqn:Hinc; [|by simplify_eq; apply Hnone]); clear Hnone;
    assert (forall c1, c1 = update c dst (set_now now n) (net c) -> (inc =? incOf c1 dst) = true) as Hinc1 by (by intros c1 ->).
  - apply bind_Some_inv in Hd as ([n' ss] & Hr%of_outcome_Some & [= <-]); apply N.eqb_eq in Hinc; subst inc.
    eapply (whole_method _ _ dst n n' false _ ss [] (delete k (net c)) now (TDeliver k)); [done| | |by rewrite app_nil_r].
    + eapply runP_then; rewrite onRequestVoteResp_whole, Hr; done.
    + intros c1 ->; simpl; rewrite Hk; simpl; rewrite lookup_insert_eq; unfold update, incOf; simpl; by rewrite N.eqb_refl.
  - apply bind_Some_inv in Hd as (n' & Hr%of_outcome_Some & [= <-]).
    eapply (whole_method _ _ dst n n' false _ [] [] (delete k (net c)) now (TDeliver k)); [done| | |simpl; by rewrite app_nil_r].
    + eapply runP_then; rewrite onAppendEntriesResp_whole, Hr; done.
    + intros c1 E; pose proof (Hinc1 c1 E) as Hq; subst c1; simpl; rewrite Hk; simpl; rewrite lookup_insert_eq.
      unfold update, incOf in *; simpl in *; by rewrite Hq.
  - injection Hd as <-.
    eapply (whole_method _ _ dst n _ false _ [] [] (delete k (net c)) now (TDeliver k)); [done| | |simpl; by rewrite app_nil_r].
    + eapply runP_then; rewrite onInstallSnapshotResp_whole; done.
    + intros c1 E; pose proof (Hinc1 c1 E) as Hq; subst c1; simpl; rewrite Hk; simpl; rewrite lookup_insert_eq.
      unfold update, incOf in *; simpl in *; by rewrite Hq.
Qed.

(** A client call or a snapshot, which does not read the clock. *)
Lemma whole_call c c' i n n' p ev :
  nodes c !! i = Some n -> runP p n = Ok (n', [], []) ->
  texec (mkThreads c []) ev = Some (mkThreads c [mkThread i false p]) ->
  c' = update c i n' (net c) -> rtc tstep (mkThreads c []) (mkThreads c' []).
Proof.
  intros Hi Hr Hev ->; eapply rtc_l; [by exists ev|].
  eapply rtc_subst; [apply (run_thread p i false n n' [] [] c []); done|]; simpl; by rewrite app_nil_r.
Qed.

Lemma exec_interleaved c c' ev : exec cfg freshSm c ev = Some c' -> rtc tstep (mkThreads c []) (mkThreads c' []).
Proof.
  intros Hx; destruct ev as [i now|k now|k|k|i b|i|i x a|i x|i rng now]; [by eapply whole_tick|..];
    simpl in Hx; apply bind_Some_inv in Hx as (n & Hi & Hx).
  - destruct n; [by eapply whole_request|by eapply whole_reply..].
  - apply rtc_once; exists (TDrop k); simpl; rewrite Hi; by simplify_eq/=.
  - apply rtc_once; exists (TDuplicate k); simpl; rewrite Hi; destruct n; by simplify_eq/=.
  - apply bind_Some_inv in Hx as ([n' r] & Hr%of_outcome_Some & [= <-]).
    eapply (whole_call _ _ i n n' (_ ← propose_p b Command; mret []) (TPropose i b)); [done| |simpl; by rewrite Hi|done].
    eapply (runP_answer _ (fun _ => [])); rewrite propose_whole, Hr; done.
  - injection Hx as <-; eapply (whole_call _ _ i n _ (_ ← forceSnapshot_p; mret []) (TSnapshot i)); [done| |simpl; by rewrite Hi|done].
    eapply runP_then; rewrite forceSnapshot_whole; done.
  - apply bind_Some_inv in Hx as ([n' r] & Hr%of_outcome_Some & [= <-]).
    eapply (whole_call _ _ i n n' (_ ← addServer_p x a; mret []) (TAddServer i x a)); [done| |simpl; by rewrite Hi|done].
    eapply (runP_answer _ (fun _ => [])); rewrite addServer_whole, Hr; done.
  - apply bind_Some_inv in Hx as ([n' r] & Hr%of_outcome_Some & [= <-]).
    eapply (whole_call _ _ i n n' (_ ← removeServer_p x; mret []) (TRemoveServer i x)); [done| |simpl; by rewrite Hi|done].
    eapply (runP_answer _ (fun _ => [])); rewrite removeServer_whole, Hr; done.
  - apply bind_Some_inv in Hx as (n' & Hr & [= <-]).
    apply rtc_once; exists (TRestart i rng now); simpl; rewrite Hi; simpl; by rewrite Hr.
Qed.
End threads.
