(* ===== verification/RaftThreadsSafety.v ===== *)
(** * What holds however the methods of a node interleave

    Every critical section of every method, started from any good state, leaves a
    good state: the fields are within their types, the files describe the
    persistent fields, and term and vote only move forward.  So this holds in all
    interleavings ([interleaved_persistence]), and every schedule of [Cluster] is
    one of them ([cluster_runs_interleave]). *)
From stdpp Require Import base tactics list gmap numbers strings sorting relations.
From Stdlib Require Import Ascii NArith Lia.
From S2P Require Import Prelude.
From S2P Require Import Buffer.
From S2P Require Import Types.
From S2P Require Import RpcMessages.
From S2P Require Import PersistentLog.
From S2P Require Import StateMachine.
From S2P Require Import KvStore.
From S2P Require Import RaftNode.
From S2P Require Import RaftNodeFacts.
From S2P Require Import RaftCommit.
From S2P Require Import RaftHandlers.
From S2P Require Import Cluster.
From S2P Require Import RaftInvariant.
From S2P Require Import ElectionSafety.
From S2P Require Import Sections.
From S2P Require Import RaftSections.
From S2P Require Import RaftThreads.

Local Open Scope N_scope.

Section sections.
Context {S : Type} `{StateMachine S}.
Context (cfg : ClusterConfig) (i : NodeId).
Implicit Types n : RaftNode S.

(** The guarantee of a section, while terms are below their limit. *)
Definition forward n n' : Prop := nodeTerm n + 1 < U64 -> hs_le (log_ n) (log_ n').

#[global] Instance forward_refl : Reflexive forward.
Proof. intros n _; done. Qed.

Definition sound {A} (Q : A -> Prop) (p : Prog (RaftNode S) Send A) : Prop :=
  safe (fun _ => True) (node_ok cfg i) forward send_ok Q p.

Definition anything {A} (_ : A) : Prop := True.

Lemma good_section n n' : good cfg i n n' -> node_ok cfg i n' /\ forward n n'.
Proof. intros [Hn [_ Hh _]]; split; [done|]; by intros _. Qed.

Lemma sound_bind {A B} (P : A -> Prop) (Q : B -> Prop) p (g : A -> Prog (RaftNode S) Send B) :
  sound P p -> (forall a, P a -> sound Q (g a)) -> sound Q (p ≫= g).
Proof. apply safe_bind. Qed.

Lemma sound_modify f : (forall n, node_ok cfg i n -> good cfg i n (f n)) -> sound anything (modify f).
Proof. intros Hf; apply safe_modify; intros n _ Hn; by apply good_section, Hf. Qed.

Lemma sound_atomically {A} (Q : A -> Prop) f :
  (forall n n' a, node_ok cfg i n -> f n = Ok (n', a) -> good cfg i n n' /\ Q a) -> sound Q (atomically f).
Proof.
  intros Hf; apply safe_atomically; intros n n' a _ Hn Hx; destruct (Hf n n' a Hn Hx) as [Hg Hq].
  destruct (good_section _ _ Hg); done.
Qed.

Lemma sound_get {A} (Q : A -> Prop) f : (forall n, node_ok cfg i n -> Q (f n)) -> sound Q (get f).
Proof. intros Hf; apply (safe_get _ _ _ _); intros n _; apply Hf. Qed.

Lemma sound_ret {A} (Q : A -> Prop) a : Q a -> sound Q (mret a).
Proof. done. Qed.

(** A method that is not part of an election, section by section. *)
Definition calm {A} (Q : A -> Prop) (p : Prog (RaftNode S) Send A) : Prop :=
  safe (fun _ => True) (node_ok cfg i) quiet (fun s => send_ok s /\ ~ isVote s) Q p.

Lemma calm_sound {A} (Q : A -> Prop) (p : Prog (RaftNode S) Send A) : calm Q p -> sound Q p.
Proof. apply safe_weaken; [by intros n n' [_ Hh _] _|by intros s []]. Qed.

Lemma calm_bind {A B} (P : A -> Prop) (Q : B -> Prop) p (g : A -> Prog (RaftNode S) Send B) :
  calm P p -> (forall a, P a -> calm Q (g a)) -> calm Q (p ≫= g).
Proof. apply safe_bind. Qed.

Lemma calm_modify f : (forall n, node_ok cfg i n -> good cfg i n (f n)) -> calm anything (modify f).
Proof. intros Hf; apply safe_modify; intros n _ Hn; by apply Hf. Qed.

Lemma calm_atomically {A} (Q : A -> Prop) f :
  (forall n n' a, node_ok cfg i n -> f n = Ok (n', a) -> good cfg i n n' /\ Q a) -> calm Q (atomically f).
Proof. intros Hf; apply safe_atomically; intros n n' a _ Hn Hx; by destruct (Hf n n' a Hn Hx) as [[Hg1 Hg2] Hq]. Qed.

Lemma calm_get {A} (Q : A -> Prop) f : (forall n, node_ok cfg i n -> Q (f n)) -> calm Q (get f).
Proof. intros Hf; apply (safe_get _ _ _ _); intros n _; apply Hf. Qed.

(** ** The methods *)
Lemma becomeFollower_calm term leader : term < U64 -> calm anything (becomeFollower_p term leader).
Proof. intros Ht; apply calm_modify; intros n Hn; by apply becomeFollower_good. Qed.

Lemma applyEntry_calm e : e_type e <> Config -> calm anything (applyEntry_p e).
Proof.
  intros He; apply (calm_bind anything).
  - destruct (e_type e); try done; apply calm_atomically; intros n n' a Hn Hx; inv_ok; simplify_eq; split; [|done].
    apply good_fields; try done; apply Hn.
  - intros r _; apply calm_modify; intros n Hn; apply good_fields; try done; apply Hn.
Qed.

Lemma applyCommittedEntries_calm : calm anything applyCommittedEntries_p.
Proof.
  apply (calm_bind (Forall (fun e => e_type e <> Config))).
  - apply calm_atomically; intros n n' es Hn Hx; destruct (takeCommitted _ _ _) as [es' m] eqn:E; inv_ok; simplify_eq.
    pose proof (takeCommitted_applied _ _ _ _ _ E (no_applied _ _ _ Hn)) as Ha.
    apply takeCommitted_spec in E as ([] & Hcf & _ & _ & _ & _ & _ & new & -> & Hnew).
    pose proof (lo_noconfig _ (no_log _ _ _ Hn)) as Hc; split.
    + split; [destruct Hn; split; rewrite ?fr_opts, ?fr_log, ?Hcf; done|].
      split; [done|by rewrite fr_log|right]; unfold nodeTerm; by rewrite fr_log.
    + eapply Forall_impl; [exact Hnew|]; simpl; rewrite Forall_forall in Hc; auto.
  - intros es Hes; apply safe_forEach; intros e He; rewrite Forall_forall in Hes; by apply applyEntry_calm, Hes.
Qed.

Lemma tryAdvance_calm : calm anything tryAdvanceCommitIndex_p.
Proof.
  apply (calm_bind anything); [|intros [] _; [apply applyCommittedEntries_calm|done]].
  apply calm_atomically; intros n n' b Hn Hx; split; [|done]; case_decide; inv_ok; [|simplify_eq; by apply good_refl].
  destruct (commitCandidate n); inv_ok; [|simplify_eq; by apply good_refl].
  destruct (_ && _); inv_ok; simplify_eq; [apply good_fields; try done; apply Hn|by apply good_refl].
Qed.

Lemma propose_calm b t : nlen b < U32 -> EntryType_valid t -> t <> Config -> calm anything (propose_p b t).
Proof.
  intros Hb Ht Hc; apply (calm_bind anything).
  - apply calm_atomically; intros n n' r Hn Hx; split; [|done]; case_decide; [|inv_ok; simplify_eq; by apply good_refl].
    cbv zeta in Hx; set (e := mkLogEntry _ _ _ _) in Hx; set (l := appendAndSync [e] (log_ n)) in Hx.
    assert (log_ok l /\ currentTerm_ l = currentTerm_ (log_ n) /\ hs_le (log_ n) l) as (Hl & Ht' & Hh).
    { split_and!; [|done|by split]; apply log_ok_append; [apply Hn|]; constructor; [|done]; split; [|done].
      split_and!; [apply Hn|apply add64_bound|done|done]. }
    clearbody l; inv_ok; simplify_eq; by apply good_log.
  - intros [[] r] _; [|done]; apply (calm_bind anything); [apply tryAdvance_calm|done].
Qed.

Lemma emit_calm ss : Forall (fun s => send_ok s /\ ~ isVote s) ss -> calm anything (emit ss).
Proof. apply safe_emit. Qed.

Lemma sendAppendEntriesTo_calm peer : calm anything (sendAppendEntriesTo_p peer).
Proof.
  apply (calm_bind (Forall (fun s => send_ok s /\ ~ isVote s))); [|intros ss; apply emit_calm].
  apply calm_get; intros n Hn; unfold sendAppendEntriesTo; case_decide; [|done].
  constructor; [|done]; split; [split; [apply Hn|apply log_ok_entriesAfter, Hn]|by intros []].
Qed.

Lemma sendInstallSnapshotTo_calm peer : calm anything (sendInstallSnapshotTo_p peer).
Proof.
  apply (calm_bind (fun h => match h with Some (t, _, idx, st) => t < U64 /\ idx < U64 /\ st < U64 | None => True end)).
  - apply calm_get; intros n Hn; case_decide; [|done]; split_and!; apply Hn.
  - intros [[[[t me] idx] st]|] Hh; [|done]; apply (calm_bind anything); [by apply calm_get|]; intros s _.
    apply (calm_bind anything); [destruct s; [done|by apply calm_get]|]; intros b _.
    apply emit_calm; constructor; [split; [done|by intros []]|done].
Qed.

Lemma broadcast_calm : calm anything broadcastAppendEntries_p.
Proof.
  apply (calm_bind anything); [by apply calm_get|]; intros [[me vs]|] _; [|done].
  apply safe_forEach; intros peer _; destruct (_ =? _); [done|].
  apply (calm_bind anything); [by apply calm_get|]; intros ni _.
  apply (calm_bind anything); [by apply calm_get|]; intros si _.
  destruct (_ <=? _); [apply sendInstallSnapshotTo_calm|apply sendAppendEntriesTo_calm].
Qed.

Lemma takeOffice_fields n :
  opts_ (takeOffice n) = opts_ n /\ config_ (takeOffice n) = config_ n /\ log_ (takeOffice n) = log_ n /\
  lastApplied_ (takeOffice n) = lastApplied_ n.
Proof.
  unfold takeOffice; match goal with |- context [fold_left _ ?vs ?x] =>
    destruct (reset_peers_fields vs (lastIndex (log_ n)) x) as (E1 & E2 & E3 & E4 & _) end.
  split_and!; [exact E1|exact E2|exact E3|exact E4].
Qed.

Lemma takeOffice_good n : node_ok cfg i n -> node_ok cfg i (takeOffice n) /\ forward n (takeOffice n).
Proof.
  destruct (takeOffice_fields n) as (Ho & Hc & Hl & Ha); intros []; unfold forward; rewrite Hl.
  split; [|by intros _]; split; rewrite ?Ho, ?Hc, ?Hl, ?Ha; done.
Qed.

Lemma becomeLeader_sound : sound anything becomeLeader_p.
Proof.
  apply (sound_bind anything).
  - apply safe_atomically; intros n n' b _ Hn Hx; case_decide; inv_ok; simplify_eq; [|done].
    destruct (takeOffice_good n Hn); done.
  - intros [] _; [|done]; apply (sound_bind anything); [by apply calm_sound, propose_calm|]; intros _ _.
    apply (sound_bind anything); [apply calm_sound, tryAdvance_calm|]; intros _ _; apply calm_sound, broadcast_calm.
Qed.

Lemma stand_sound : sound (fun c => cd_term c < U64 /\ cd_me c < U32) (atomically (fun n => mret (stand n))).
Proof.
  apply safe_atomically; intros n n' c _ Hn Hx; pose proof Hn as [Hid Hrg Hcf Hl Ha].
  assert (n' = (stand n).1 /\ c = (stand n).2) as [-> ->].
  { change (Ok (stand n) = Ok (n', c)) in Hx; destruct (stand n); by simplify_eq. }
  unfold stand; cbn [fst snd cd_term cd_me].
  split_and!; [|..|apply add64_bound|lia].
  - split; try done; simpl; apply log_ok_setHardState; [done|apply add64_bound|lia].
  - intros Hb; unfold nodeTerm in Hb; split; simpl; rewrite add64_small by done; lia.
Qed.

Lemma becomeCandidate_sound : sound anything becomeCandidate_p.
Proof.
  eapply sound_bind; [apply stand_sound|]; intros c [Ht Hm]; unfold canvass_p; destruct (_ && _); [done|].
  apply (sound_bind anything); [apply safe_modify; intros n _ Hn; split; [destruct Hn; by split|by intros _]|intros _ _].
  cbv zeta; destruct (nlen (voters (cd_cfg c)) / 2 + 1 <=? 1); [apply becomeLeader_sound|apply safe_emit, Forall_forall].
  intros s Hs; apply list_elem_of_In, in_flat_map in Hs as (p & _ & Hs); destruct (p =? _); [done|].
  destruct Hs as [<-|[]]; by split.
Qed.

(** ** The callbacks *)

(** What a callback goes on with carries a term of the right type. *)
Definition then_ok (t : Then) : Prop := match t with Follow t => t < U64 | _ => True end.

Lemma onAppendEntriesResp_calm peer term resp :
  aer_term resp < U64 -> calm anything (onAppendEntriesResp_p peer term true resp).
Proof.
  intros Ht; apply (calm_bind then_ok).
  - apply calm_atomically; intros n n' t Hn Hx; destruct (_ <? _); inv_ok; [simplify_eq; split; [by apply good_refl|done]|].
    destruct (_ || _); inv_ok; [simplify_eq; split; [by apply good_refl|done]|].
    destruct (aer_success resp); cbv zeta in Hx; inv_ok; simplify_eq; (split; [|done]); apply good_fields; try done; apply Hn.
  - intros [|t| |] Hok; [done|by apply becomeFollower_calm|done|apply tryAdvance_calm].
Qed.

Lemma onInstallSnapshotResp_calm peer idx resp :
  isr_term resp < U64 -> calm anything (onInstallSnapshotResp_p peer idx true resp).
Proof.
  intros Ht; apply (calm_bind then_ok).
  - apply calm_atomically; intros n n' t Hn Hx; cbv zeta in Hx; destruct (_ <? _); inv_ok; simplify_eq; [split; [by apply good_refl|done]|].
    split; [|done]; apply good_fields; try done; apply Hn.
  - intros [|t| |] Hok; [done|by apply becomeFollower_calm|done|done].
Qed.

Lemma onRequestVoteResp_sound t m resp : rvr_term resp < U64 -> sound anything (onRequestVoteResp_p t m true resp).
Proof.
  intros Ht; apply (sound_bind then_ok).
  - apply safe_atomically; intros n n' x _ Hn Hx; cbv zeta in Hx; destruct (_ || _); inv_ok; [by simplify_eq|].
    destruct (_ <? _); inv_ok; [by simplify_eq|]; destruct (rvr_voteGranted resp); inv_ok; simplify_eq; [|done].
    split_and!; [destruct Hn; by split|by intros _|by destruct (_ <=? _)].
  - intros [|x| |] Hok; [done|by apply calm_sound, becomeFollower_calm|apply becomeLeader_sound|done].
Qed.

(** ** The handlers *)
Lemma castVote_good req n :
  node_ok cfg i n -> rv_candidateId req < U32 ->
  good cfg i n (castVote req n).1 /\ rvr_term (castVote req n).2 < U64.
Proof.
  intros Hn Hc; unfold castVote; destruct ((_ || _) && _) eqn:E; cbn [fst snd rvr_term].
  - apply andb_true_iff in E as [E%orb_true_iff _]; rewrite !N.eqb_eq in E; split; [|apply Hn].
    eapply good_trans; [by apply (setVote_good cfg i (rv_candidateId req) n)|].
    intros; apply good_fields; try done; apply Hn.
  - split; [by apply good_refl|apply Hn].
Qed.

Lemma handleRequestVote_calm req :
  rv_term req < U64 -> rv_candidateId req < U32 -> calm (fun r => rvr_term r < U64) (handleRequestVote_p req).
Proof.
  intros Ht Hc; apply (calm_bind (fun r => match r with Some r => rvr_term r < U64 | None => True end)).
  - apply calm_atomically; intros n n' r Hn Hx; destruct (_ <? _); inv_ok; [simplify_eq; split; [by apply good_refl|apply Hn]|].
    destruct (_ <? _); inv_ok; [simplify_eq; split; [by apply good_refl|done]|].
    destruct (castVote_good req n Hn Hc) as [Hg Hr]; destruct (castVote req n) as [m resp]; inv_ok; by simplify_eq.
  - intros [r|] Hr; [done|]; apply (calm_bind anything); [by apply becomeFollower_calm|]; intros _ _.
    apply calm_atomically; intros n n' r Hn Hx; destruct (castVote_good req n Hn Hc) as [Hg Hr'].
    destruct (castVote req n) as [m resp]; inv_ok; by simplify_eq.
Qed.

Lemma storeEntries_good req n :
  node_ok cfg i n -> Forall entry_ok (ae_entries req) ->
  good cfg i n (storeEntries req n).1 /\
  match (storeEntries req n).2 with inl r => aer_term r < U64 | inr _ => True end.
Proof.
  intros Hn He; unfold storeEntries; set (m := set_leaderId _ _).
  assert (good cfg i n m) as Hm by (apply good_fields; try done; apply Hn); clearbody m.
  destruct (checkPrev req (log_ m)) as [r|] eqn:Ec; cbn [fst snd].
  - split; [done|]; apply checkPrev_fields in Ec as (-> & _); apply Hm.
  - split; [|done]; eapply good_trans; [exact Hm|]; clear Hm; intros Hm.
    set (m1 := match ae_entries req with [] => m | _ => _ end).
    assert (good cfg i m m1) as Hm1.
    { unfold m1; destruct (ae_entries req) as [|e es]; [by apply good_refl|].
      apply good_log; [done|apply log_ok_append; [apply Hm|done]|by split|done]. }
    clearbody m1; eapply good_trans; [exact Hm1|]; clear Hm Hm1; intros Hm1.
    destruct (_ <? _); [|by apply good_refl]; apply good_fields; try done; apply Hm1.
Qed.

Lemma handleAppendEntries_calm req :
  ae_term req < U64 -> Forall entry_ok (ae_entries req) -> calm (fun r => aer_term r < U64) (handleAppendEntries_p req).
Proof.
  intros Ht He; apply (calm_bind (fun o => match o with Some t => t < U64 | None => True end)).
  { apply calm_get; intros n Hn; destruct (_ <? _); [apply Hn|done]. }
  intros [t|] Hs; [done|]; apply (calm_bind anything); [by apply becomeFollower_calm|]; intros _ _.
  apply (calm_bind (fun r => match r with inl r => aer_term r < U64 | inr _ => True end)).
  - apply calm_atomically; intros n n' r Hn Hx; destruct (storeEntries_good req n Hn He) as [Hg Hr].
    destruct (storeEntries req n) as [m x]; inv_ok; by simplify_eq.
  - intros [r|newLast] Hr; [done|]; apply (calm_bind anything); [apply applyCommittedEntries_calm|]; intros _ _.
    apply (calm_bind (fun t => t < U64)); [apply calm_get; intros n Hn; apply Hn|done].
Qed.

Lemma storeSnapshot_good req n n' r :
  node_ok cfg i n -> is_lastIncludedIndex req < U64 -> is_lastIncludedTerm req < U64 ->
  storeSnapshot req n = Ok (n', r) -> good cfg i n n' /\ isr_term r < U64.
Proof.
  intros Hn Hi Ht; unfold storeSnapshot; destruct (_ <=? _); intros Hx; [inv_ok; simplify_eq; split; [by apply good_refl|apply Hn]|].
  set (lg := compactUpTo _ _ _ _) in Hx.
  assert (currentTerm_ lg = currentTerm_ (log_ n) /\ votedFor_ lg = votedFor_ (log_ n) /\ log_ok lg) as (E1 & E2 & Hl).
  { split_and!; [unfold lg, compactUpTo; by destruct (_ <=? _)..|]; apply log_ok_compact; [apply Hn|done..]. }
  clearbody lg; inv_ok; simplify_eq.
  match goal with |- good cfg i n ?x /\ _ => assert (good cfg i n x) as Hg; [|split; [done|apply Hg]] end.
  eapply good_trans; [apply (good_log cfg i n lg); [done|done| |done]; split; [by rewrite E1|by rewrite E2]|].
  intros Hm; apply good_fields; try done; simpl; pose proof (no_applied _ _ _ Hn); lia.
Qed.

Lemma handleInstallSnapshot_calm req :
  is_term req < U64 -> is_lastIncludedIndex req < U64 -> is_lastIncludedTerm req < U64 ->
  calm (fun r => isr_term r < U64) (handleInstallSnapshot_p req).
Proof.
  intros Ht Hi Htm; apply (calm_bind (fun o => match o with Some t => t < U64 | None => True end)).
  { apply calm_get; intros n Hn; destruct (_ <? _); [apply Hn|done]. }
  intros [t|] Hs; [done|]; apply (calm_bind anything); [by apply becomeFollower_calm|]; intros _ _.
  apply calm_atomically; intros n n' r Hn; by apply storeSnapshot_good.
Qed.

(** ** Snapshots and the timer loop *)
Lemma forceSnapshot_calm : calm anything forceSnapshot_p.
Proof.
  apply (calm_bind (fun o => match o with Some (idx, t) => idx < U64 /\ t < U64 | None => True end)).
  { apply calm_get; intros n Hn; cbv zeta; destruct (_ <=? _); [done|]; split; [apply Hn|apply log_ok_termAt, Hn]. }
  intros [[idx t]|] Hp; [|done]; destruct Hp as [Hi Ht].
  apply (calm_bind anything); [by apply calm_get|]; intros b _; apply calm_modify; intros n Hn.
  set (lg := compactUpTo _ _ _ _).
  assert (currentTerm_ lg = currentTerm_ (log_ n) /\ votedFor_ lg = votedFor_ (log_ n)) as [E1 E2]
    by (unfold lg, compactUpTo; by destruct (_ <=? _)).
  apply good_log; [done|apply log_ok_compact; [apply Hn|done..]|split; [by rewrite E1|by rewrite E2]|done].
Qed.

Lemma maybeSnapshot_calm : calm anything maybeSnapshot_p.
Proof. apply (calm_bind anything); [by apply calm_get|]; intros [] _; [apply forceSnapshot_calm|done]. Qed.

Lemma runLoopRound_sound now : sound anything (runLoopRound_p now).
Proof.
  apply (sound_bind anything); [|intros _ _; apply calm_sound, maybeSnapshot_calm].
  apply (sound_bind anything); [by apply sound_get|]; intros r _; case_decide;
    (apply (sound_bind anything); [by apply sound_get|]); intros [] _; try done; [|apply becomeCandidate_sound].
  apply (sound_bind anything); [apply calm_sound, broadcast_calm|]; intros _ _.
  apply sound_modify; intros n Hn; apply good_fields; try done; apply Hn.
Qed.
End sections.

(** ** All threads of all nodes *)
Section groups.
Context {S : Type} `{StateMachine S}.
Context (cfg : ClusterConfig) (freshSm : S).
Implicit Types (n : RaftNode S) (f : Threads (S := S)).

Definition packet_typed (p : Packet) : Prop :=
  match p with
  | Request _ _ s => send_ok s
  | VoteReply _ _ _ _ _ resp => rvr_term resp < U64
  | AppendReply _ _ _ _ resp => aer_term resp < U64
  | SnapshotReply _ _ _ _ resp => isr_term resp < U64
  end.

Definition thread_ok (th : Thread (S := S)) : Prop := sound cfg (th_node th) (Forall packet_typed) (th_prog th).

Record threads_ok f : Prop := {
  to_nodes : forall i n, nodes (cluster f) !! i = Some n -> node_ok cfg i n;
  to_net : Forall packet_typed (net (cluster f));
  to_threads : Forall thread_ok (threads f)
}.

(** Term and vote of every node move forward. *)
Definition nodes_forward f f' : Prop :=
  forall i n, nodes (cluster f) !! i = Some n ->
    exists n', nodes (cluster f') !! i = Some n' /\ hs_le (log_ n) (log_ n').

#[global] Instance nodes_forward_preorder : PreOrder nodes_forward.
Proof.
  split; [intros f i n Hi; by exists n|].
  intros a b c Hab Hbc i n Hi; destruct (Hab _ _ Hi) as (m & Hm & H1); destruct (Hbc _ _ Hm) as (m' & Hm' & H2).
  exists m'; split; [done|by etransitivity].
Qed.

Lemma reaction_sound i p : packet_typed p -> sound cfg i (Forall packet_typed) (reaction (S := S) p).
Proof.
  destruct p as [src inc s|dst inc peer t m resp|dst inc peer t resp|dst inc peer idx resp]; cbn [packet_typed reaction]; intros Hp.
  - destruct s as [peer req t m|peer req t|peer req idx]; destruct Hp as [H1 H2]; cbn [handler].
    + eapply sound_bind; [by apply calm_sound, handleRequestVote_calm|]; intros r Hr; by repeat constructor.
    + eapply sound_bind; [by apply calm_sound, handleAppendEntries_calm|]; intros r Hr; by repeat constructor.
    + destruct H2; eapply sound_bind; [by apply calm_sound, handleInstallSnapshot_calm|]; intros r Hr; by repeat constructor.
  - eapply sound_bind; [by apply onRequestVoteResp_sound|]; intros _ _; constructor.
  - eapply sound_bind; [by apply calm_sound, onAppendEntriesResp_calm|]; intros _ _; constructor.
  - eapply sound_bind; [by apply calm_sound, onInstallSnapshotResp_calm|]; intros _ _; constructor.
Qed.

Lemma threads_ok_update f i n n' ps ths :
  threads_ok f -> nodes (cluster f) !! i = Some n -> node_ok cfg i n' -> hs_le (log_ n) (log_ n') ->
  Forall packet_typed ps -> Forall thread_ok ths ->
  let f' := mkThreads (update (cluster f) i n' ps) ths in threads_ok f' /\ nodes_forward f f'.
Proof.
  intros [Hn Hp Ht] Hi Hn' Hh Hps Hths; split; [split; simpl; [|done|done]|].
  - intros j m; rewrite lookup_insert; case_decide; [intros [= <-]; by subst|apply Hn].
  - intros j m Hj; simpl; rewrite lookup_insert; case_decide; [|by exists m].
    subst; simplify_eq; by exists n'.
Qed.

Lemma threads_ok_net f inc ps ths :
  threads_ok f -> Forall packet_typed ps -> Forall thread_ok ths ->
  let f' := mkThreads (mkCluster (nodes (cluster f)) inc ps) ths in threads_ok f' /\ nodes_forward f f'.
Proof. intros [Hn Hp Ht] Hps Hths; split; [by split|]; intros j m Hj; by exists m. Qed.

Lemma spawn_ok f i timer p :
  threads_ok f -> sound cfg i (Forall packet_typed) p ->
  threads_ok (spawn i timer p f) /\ nodes_forward f (spawn i timer p f).
Proof.
  intros [Hn Hp Ht] Hs; split; [split; simpl; [done|done|apply Forall_app; split; [done|by repeat constructor]]|].
  intros j m Hj; by exists m.
Qed.

Lemma then_nothing_sound {A} i (p : Prog (RaftNode S) Send A) :
  sound cfg i anything p -> sound cfg i (Forall packet_typed) (_ ← p; mret []).
Proof. intros Hp; eapply sound_bind; [exact Hp|]; intros _ _; constructor. Qed.

(** Terms stay below their limit; the membership is fixed; a command fits its
    length field. *)
Definition tadmissible f (ev : TEvent) : Prop :=
  map_Forall (fun _ n => nodeTerm n + 1 < U64) (nodes (cluster f)) /\
  match ev with
  | TPropose _ b => nlen b < U32
  | TAddServer _ _ _ | TRemoveServer _ _ => False
  | _ => True
  end.

Inductive thread_step f f' : Prop :=
| thread_event ev : tadmissible f ev -> texec cfg freshSm f ev = Some f' -> thread_step f f'.

Lemma stepThread_ok j f f' :
  map_Forall (fun _ n => nodeTerm n + 1 < U64) (nodes (cluster f)) ->
  threads_ok f -> stepThread j f = Some f' -> threads_ok f' /\ nodes_forward f f'.
Proof.
  intros Hb Hok; unfold stepThread; intros (th & Hj & Hx)%bind_Some_inv.
  apply bind_Some_inv in Hx as (n & Hi & Hx); pose proof (to_nodes _ Hok _ _ Hi) as Hn.
  pose proof (Forall_lookup_1 _ _ _ _ (to_threads _ Hok) Hj) as Hth; unfold thread_ok in Hth.
  destruct (advance (th_prog th) n) as [[[[n' ss] p']|]|] eqn:E; [|done|].
  - eapply (advance_safe _ _ _ _ _ _ _ _ _ _ Hth I Hn) in E as (Hn' & Hf & Hss & Hp'); [|apply _].
    injection Hx as <-; apply (threads_ok_update f (th_node th) n); try done.
    + by apply Hf, (Hb _ _ Hi).
    + apply Forall_app; split; [apply Hok|]; by apply Forall_fmap.
    + apply Forall_insert; [apply Hok|exact Hp'].
  - destruct (th_prog th) as [ps| |] eqn:Ep; [|done|done]; injection Hx as <-; apply threads_ok_net; [done| |].
    + apply Forall_app; split; [apply Hok|exact Hth].
    + apply Forall_delete, Hok.
Qed.

Lemma thread_step_ok f f' : threads_ok f -> thread_step f f' -> threads_ok f' /\ nodes_forward f f'.
Proof.
  intros Hok [ev [Hb Ha] Hx]; destruct ev as [i now|i now|k|j|k|k|i b|i|i x a|i x|i rng now]; cbn [texec] in Hx; try done;
    [| | |by eapply stepThread_ok|..]; apply bind_Some_inv in Hx as (n & Hi & Hx).
  - injection Hx as <-; apply (threads_ok_update f i n); try done; [|apply Hok|apply Hok].
    eapply set_now_good, (to_nodes _ Hok _ _ Hi).
  - destruct (_ && _); [|done]; injection Hx as <-; apply spawn_ok; [done|].
    exact (then_nothing_sound i (runLoopRound_p now) (runLoopRound_sound cfg i now)).
  - pose proof (Forall_lookup_1 _ _ _ _ (to_net _ Hok) Hi) as Hp.
    assert (threads_ok (set_net (delete k (net (cluster f))) f) /\ nodes_forward f (set_net (delete k (net (cluster f))) f))
      as [Hok' Hf] by (apply (threads_ok_net f); [done|apply Forall_delete, Hok|apply Hok]).
    destruct (recipient _ n) as [i|]; injection Hx as <-; [|done].
    destruct (spawn_ok _ i false (reaction n) Hok') as [H1 H2]; [by apply reaction_sound|].
    split; [done|by etransitivity].
  - injection Hx as <-; apply (threads_ok_net f); [done|apply Forall_delete, Hok|apply Hok].
  - destruct n; [|done..]; injection Hx as <-; apply (threads_ok_net f); [done| |apply Hok].
    apply Forall_app; split; [apply Hok|]; constructor; [|done]; exact (Forall_lookup_1 _ _ _ _ (to_net _ Hok) Hi).
  - injection Hx as <-; apply spawn_ok; [done|].
    apply (then_nothing_sound i (propose_p b Command)); by apply calm_sound, propose_calm.
  - injection Hx as <-; apply spawn_ok; [done|].
    apply (then_nothing_sound i forceSnapshot_p); apply calm_sound, forceSnapshot_calm.
  - apply bind_Some_inv in Hx as (n' & Hr%of_outcome_Some & [= <-]).
    apply (restart_good cfg i) in Hr as [Hn' [_ Hh _]]; [|by apply (to_nodes _ Hok)].
    destruct (threads_ok_update f i n (start n') (net (cluster f)) (filter (fun th => th_node th <> i) (threads f)))
      as [[H1 H2 H3] H4]; try done; [apply Hok|].
    apply Forall_forall; intros th [_ Hth]%list_elem_of_filter; exact (proj1 (Forall_forall _ _) (to_threads _ Hok) _ Hth).
Qed.

Lemma thread_steps_ok f f' : rtc thread_step f f' -> threads_ok f -> threads_ok f' /\ nodes_forward f f'.
Proof.
  induction 1 as [f|f g h Hfg _ IH]; intros Hok; [done|].
  destruct (thread_step_ok _ _ Hok Hfg) as [Hg H1]; destruct (IH Hg) as [Hh H2]; split; [done|by etransitivity].
Qed.

Lemma freshThreads_ok os : Forall (fun o => 0 < id o < U32) os -> threads_ok (freshThreads cfg freshSm os).
Proof.
  intros Hos; destruct (freshCluster_inv cfg freshSm os Hos) as [[Hn _] _]; split; [done|constructor|constructor].
Qed.

(** A schedule of such events. *)
#[local] Instance tadmissible_dec f ev : Decision (tadmissible f ev).
Proof. unfold tadmissible; apply and_dec; [apply _|]; destruct ev; apply _. Defined.

Fixpoint run_threads (evs : list TEvent) f : option Threads :=
  match evs with
  | [] => Some f
  | ev :: evs' => if decide (tadmissible f ev) then f' ← texec cfg freshSm f ev; run_threads evs' f' else None
  end.

Lemma run_threads_steps evs f f' : run_threads evs f = Some f' -> rtc thread_step f f'.
Proof.
  revert f; induction evs as [|ev evs IH]; intros f; simpl; [by intros [= <-]|].
  case_decide; [|done]; intros (f1 & H1 & H2)%bind_Some_inv.
  eapply rtc_l; [by econstructor|by apply IH].
Qed.
End groups.

(** ** The theorems *)
Section theorems.
Context {S : Type} `{StateMachine S}.

(** C17: persistence under interleaving.  In a group with a fixed membership whose
    methods run as threads and interleave at every point where the code releases
    its mutex, in every order with messages, losses, duplications, crashes and
    restarts: the term of a node never decreases, within a term a vote once cast
    never changes, and in every state the files of a node describe exactly its
    term, vote, snapshot position and entries. *)
Theorem interleaved_persistence (cfg : ClusterConfig) (freshSm : S) (os : list RaftOptions)
    (f1 f2 : Threads) (i : NodeId) (n1 n2 : RaftNode S) (Hos : Forall (fun o => 0 < id o < U32) os)
    (Hr1 : rtc (thread_step cfg freshSm) (freshThreads cfg freshSm os) f1) (Hr2 : rtc (thread_step cfg freshSm) f1 f2)
    (Hi : nodes (cluster f1) !! i = Some n1) (Hj : nodes (cluster f2) !! i = Some n2) :
  nodeTerm n1 <= nodeTerm n2 /\
  (nodeTerm n2 = nodeTerm n1 -> nodeVote n1 <> 0 -> nodeVote n2 = nodeVote n1) /\
  loadFromDisk (dir_ (log_ n2)) = Ok (log_ n2).
Proof.
  destruct (thread_steps_ok cfg freshSm _ _ Hr1 (freshThreads_ok cfg freshSm os Hos)) as [Hok1 _].
  destruct (thread_steps_ok cfg freshSm _ _ Hr2 Hok1) as [Hok2 Hf].
  destruct (Hf _ _ Hi) as (m & Hm & Ht & Hv); simplify_eq; split_and!; [done|done|].
  apply (lo_durable _ (no_log _ _ _ (to_nodes _ _ Hok2 _ _ Hj))).
Qed.

(** The group in which methods do not overlap is a special case: a run of [Cluster]
    is matched by a run of the threads from and to states in which no method is under
    way. *)
Lemma cluster_runs_interleave (cfg : ClusterConfig) (freshSm : S) (evs : list Event) (c c' : Cluster S)
    (Hr : run cfg freshSm evs c = Some c') :
  rtc (tstep cfg freshSm) (mkThreads c []) (mkThreads c' []).
Proof.
  revert c Hr; induction evs as [|ev evs IH]; intros c Hr; simpl in Hr; [by simplify_eq|].
  apply bind_Some_inv in Hr as (c1 & H1 & H2); etransitivity; [by eapply exec_interleaved|by apply IH].
Qed.
End theorems.

(** ** Witnesses *)

(** [k] sections of the thread at position [j], a timer round and a delivery that
    run to a given point. *)
Definition advanceBy (j k : nat) : list TEvent := repeat (TStep j) k.
Definition tickFor (i now : N) (j k : nat) : list TEvent := [TClock i now; TTick i now] ++ advanceBy j k.
Definition deliverFor (p j k : nat) : list TEvent := TDeliver p :: advanceBy j k.

Definition voteOf (i : NodeId) (f : Threads (S := KvStore)) : option (Term * NodeId) :=
  n ← nodes (cluster f) !! i; Some (nodeTerm n, nodeVote n).

(** Node 1 has stood in term 1 and its timer thread is about to send; it is
    restarted and stands again. *)
Lemma interleaved_persistence_witness :
  exists (f1 f2 : Threads (S := KvStore)) n1 n2, nodes (cluster f1) !! 1 = Some n1 /\ nodes (cluster f2) !! 1 = Some n2 /\
    (nodeTerm n1, nodeVote n1) = (1, 1) /\ (nodeTerm n2, nodeVote n2) = (2, 1) /\
    nodeTerm n1 <= nodeTerm n2 /\ loadFromDisk (dir_ (log_ n2)) = Ok (log_ n2).
Proof.
  destruct (replayed (fun p => (voteOf 1 p.1, voteOf 1 p.2))
    (f1 ← run_threads sample_cfg KvStore_init (tickFor 1 1000 0 3) (freshThreads sample_cfg KvStore_init (sample_opts <$> [1; 2; 3]));
     f2 ← run_threads sample_cfg KvStore_init (TRestart 1 [] 5000 :: tickFor 1 6000 0 3) f1; Some (f1, f2))
    (Some (1, 1), Some (2, 1))) as ([f1 f2] & Hf & Hv); [vm_compute; reflexivity|].
  apply bind_Some_inv in Hf as (g1 & H1%run_threads_steps & Hf).
  apply bind_Some_inv in Hf as (g2 & H2%run_threads_steps & Hf); injection Hf as -> ->; cbn [fst snd] in Hv.
  rewrite pair_eq in Hv; destruct Hv as [Hv1 Hv2]; unfold voteOf in Hv1, Hv2.
  apply bind_Some_inv in Hv1 as (n1 & Hn1 & Hv1); apply bind_Some_inv in Hv2 as (n2 & Hn2 & Hv2).
  injection Hv1 as E1 E2; injection Hv2 as E3 E4; exists f1, f2, n1, n2; rewrite E1, E2, E3, E4.
  destruct (interleaved_persistence sample_cfg KvStore_init (sample_opts <$> [1; 2; 3]) f1 f2 1 n1 n2) as (Ha & _ & Hc);
    [by repeat constructor|done..|]; by rewrite E1, E3 in Ha.
Defined.
