(* ===== verification/ElectionTokens.v ===== *)
(** * The part of an election a thread is in

    Every thread of [RaftThreads] holds a [Token].  The messages a thread holds (a vote
    request it is answering, a reply it is counting, requests it has yet to send) are
    under way like those of the network.  [ksafe] is the judgement of [Sections] with
    tokens: a section may change the token by [moves].  Every method of [RaftSections]
    satisfies it. *)
From stdpp Require Import base tactics list gmap numbers strings sorting relations.
From Stdlib Require Import Ascii NArith Lia.
From S2P Require Import Prelude.
From S2P Require Import Buffer.
From S2P Require Import Types.
From S2P Require Import RpcMessages.
From S2P Require Import PersistentLog.
From S2P Require Import StateMachine.
From S2P Require Import KvStore.
From S2P Require Import RaftNode.
From S2P Require Import RaftNodeFacts.
From S2P Require Import RaftCommit.
From S2P Require Import RaftHandlers.
From S2P Require Import Cluster.
From S2P Require Import RaftInvariant.
From S2P Require Import ElectionSafety.
From S2P Require Import Sections.
From S2P Require Import RaftSections.
From S2P Require Import RaftThreads.
From S2P Require Import RaftThreadsSafety.

Local Open Scope N_scope.

(** The part of an election a thread is in. *)
Inductive Token : Type :=
| Idle
| Stood (t : Term)
| Asking (ss : list Send)
| Voter (src : NodeId) (inc : N) (req : RequestVoteReq) (t : Term) (m : N)
| Raised (src : NodeId) (inc : N) (req : RequestVoteReq) (t : Term) (m : N)
| Answer (p : Packet)
| Counting (inc : N) (peer : NodeId) (t : Term) (m : N) (resp : RequestVoteResp)
| Winner (t : Term).

Section tokens.
Context {S : Type} `{StateMachine S}.
Context (cfg : ClusterConfig) (i : NodeId) (timer : bool).
Implicit Types (n : RaftNode S) (k : Token).

(** The messages of an election that a thread holds. *)
Definition held k : list Packet :=
  match k with
  | Asking ss => launch i 0 ss
  | Voter src inc req t m | Raised src inc req t m => [Request src inc (SendRequestVote i req t m)]
  | Answer p => [p]
  | Counting inc peer t m resp => [VoteReply i inc peer t m resp]
  | Idle | Stood _ | Winner _ => []
  end.

(** The next section of the thread makes the node a leader. *)
Definition takesOffice {A} (p : Prog (RaftNode S) Send A) n : bool :=
  match advance p n with Some (Ok (n', _, _)) => bool_decide (role_ n' = Leader) | _ => false end.

(** What a section may do, and what it makes of the token. *)
Inductive moves n n' : Token -> Token -> Prop :=
| mv_quiet k : good cfg i n n' -> moves n n' k k
| mv_stand : timer = true -> standing cfg i n n' ->
    moves n n' Idle (if hasVoter cfg i then Stood (nodeTerm n') else Idle)
| mv_own t li lt : n' = set_votes (<[t := 1]> (votes_ n)) n ->
    moves n n' (Stood t) (if majorityOf cfg <=? 1 then Winner t else Asking (voteRequests cfg i t li lt))
| mv_raise src inc req t m : good cfg i n n' -> t <= nodeTerm n' ->
    moves n n' (Voter src inc req t m) (Raised src inc req t m)
| mv_vote k src inc req t m resp : k = Voter src inc req t m \/ k = Raised src inc req t m ->
    good cfg i n n' -> rvr_term resp < U64 ->
    (rvr_voteGranted resp = true -> rvr_term resp <= t -> nodeTerm n' = t /\ nodeVote n' = rv_candidateId req) ->
    moves n n' k (Answer (VoteReply src inc i t m resp))
| mv_ignore inc peer t m resp : good cfg i n n' -> moves n n' (Counting inc peer t m resp) Idle
| mv_count inc peer t m resp : role_ n = Candidate -> nodeTerm n = t -> rvr_voteGranted resp = true -> rvr_term resp <= t ->
    n' = set_votes (<[t := default 0 (votes_ n !! t) + 1]> (votes_ n)) n ->
    moves n n' (Counting inc peer t m resp) (if m <=? default 0 (votes_ n !! t) + 1 then Winner t else Idle)
| mv_office t : role_ n = Candidate -> node_ok cfg i n' -> elected n n' -> moves n n' (Winner t) Idle
| mv_late t : good cfg i n n' -> moves n n' (Winner t) Idle.

(** What a thread may send. *)
Definition emits (s : Send) k k' : Prop :=
  (send_ok s /\ ~ isVote s /\ k' = k) \/ exists ss, k = Asking (s :: ss) /\ k' = Asking ss.

(** What a thread knows of every state of its node. *)
Definition local k n : Prop := match k with Raised _ _ _ t _ => t <= nodeTerm n | _ => True end.

(** A thread that has won takes office in its next section. *)
Definition ready {A} k (p : Prog (RaftNode S) Send A) : Prop :=
  match k with Winner _ => forall n, role_ n = Candidate -> takesOffice p n = true | _ => True end.

Fixpoint ksafe {A} (Q : Token -> A -> Prop) k (p : Prog (RaftNode S) Send A) : Prop :=
  ready k p /\
  match p with
  | Ret a => Q k a
  | Sect f kont => forall n, node_ok cfg i n -> local k n ->
      match f n with Ok (n', b) => exists k', moves n n' k k' /\ ksafe Q k' (kont b) | Throw _ => True end
  | Out s p' => exists k', emits s k k' /\ ksafe Q k' p'
  end.

Definition waiting k : Prop := match k with Winner _ => False | _ => True end.

Lemma waiting_ready {A} k (p : Prog (RaftNode S) Send A) : waiting k -> ready k p.
Proof. by destruct k. Qed.

Lemma ksafe_ready {A} (Q : Token -> A -> Prop) k (p : Prog (RaftNode S) Send A) : ksafe Q k p -> ready k p.
Proof. destruct p; by intros []. Qed.

(** ** The rules *)
Lemma takesOffice_bind {A B} (p : Prog (RaftNode S) Send A) (g : A -> Prog (RaftNode S) Send B) n :
  takesOffice p n = true -> takesOffice (bindP g p) n = true.
Proof. unfold takesOffice; destruct p as [a|C f kont|s p]; simpl; [done|by destruct (f n) as [[]|]|done]. Qed.

Lemma ksafe_bind {A B} (P : Token -> A -> Prop) (Q : Token -> B -> Prop) k p (g : A -> Prog (RaftNode S) Send B) :
  ksafe P k p -> (forall k' a, P k' a -> ksafe Q k' (g a)) -> ksafe Q k (p ≫= g).
Proof.
  intros Hp Hg; unfold mbind, Prog_bind; revert k Hp; induction p as [a|C f kont IH|s p IH]; intros k [Hr Hp]; simpl; [by apply Hg|..].
  - split; [destruct k; try done; simpl in *; intros n Hn; exact (takesOffice_bind (Sect f kont) g n (Hr n Hn))|].
    intros n Hn Hl; specialize (Hp n Hn Hl); destruct (f n) as [[n' b]|]; [|done].
    destruct Hp as (k' & Hm & Hk'); exists k'; auto.
  - split; [destruct k; try done; simpl in *; intros n Hn; exact (takesOffice_bind (Out s p) g n (Hr n Hn))|].
    destruct Hp as (k' & Hm & Hk'); exists k'; auto.
Qed.

Lemma ksafe_mono {A} (P Q : Token -> A -> Prop) k p : (forall k a, P k a -> Q k a) -> ksafe P k p -> ksafe Q k p.
Proof.
  intros HPQ; revert k; induction p as [a|C f kont IH|s p IH]; intros k [Hr Hp]; (split; [done|]); [by apply HPQ|..].
  - intros n Hn Hl; specialize (Hp n Hn Hl); destruct (f n) as [[n' b]|]; [|done].
    destruct Hp as (k' & Hm & Hk'); exists k'; auto.
  - destruct Hp as (k' & Hm & Hk'); exists k'; auto.
Qed.

(** Methods that are not part of an election. *)
Lemma ksafe_calm {A} (Q : A -> Prop) k (p : Prog (RaftNode S) Send A) :
  waiting k -> calm cfg i Q p -> ksafe (fun k' a => k' = k /\ Q a) k p.
Proof.
  intros Hk; induction p as [a|C f kont IH|s p IH]; intros Hp; (split; [by apply waiting_ready|]); [done|..].
  - intros n Hn _; specialize (Hp n I Hn); destruct (f n) as [[n' b]|]; [|done]; destruct Hp as (Hn' & Hq & Hp).
    exists k; split; [by apply mv_quiet|auto].
  - destruct Hp as [[Hs Hv] Hp]; exists k; split; [by left|auto].
Qed.

Lemma ksafe_then {A B} (Q : Token -> B -> Prop) k (f : RaftNode S -> outcome (RaftNode S * A)) (g : A -> Prog (RaftNode S) Send B) :
  ready k (atomically f ≫= g) ->
  (forall n n' a, node_ok cfg i n -> local k n -> f n = Ok (n', a) -> exists k', moves n n' k k' /\ ksafe Q k' (g a)) ->
  ksafe Q k (atomically f ≫= g).
Proof.
  intros Hk Hf; split; [done|]; intros n Hn Hl; destruct (f n) as [[n' a]|] eqn:E; [|done]; by apply (Hf n).
Qed.

Lemma ksafe_ret {A} (Q : Token -> A -> Prop) k a : waiting k -> Q k a -> ksafe Q k (mret a : Prog (RaftNode S) Send A).
Proof. intros Hk Hq; split; [by apply waiting_ready|done]. Qed.

Lemma ksafe_quiet {A} k (p : Prog (RaftNode S) Send A) Q : waiting k -> calm cfg i Q p -> ksafe (fun k' _ => k' = k) k p.
Proof. intros Hk Hp; eapply ksafe_mono; [|by eapply ksafe_calm]; by intros ?? []. Qed.

(** ** Taking office *)
Lemma becomeLeader_ksafe t : ksafe (fun k' _ => k' = Idle) (Winner t) becomeLeader_p.
Proof.
  assert (forall n, role_ (takeOffice n) = Leader) as Hrole.
  { intros n; unfold takeOffice; match goal with |- context [fold_left _ ?vs ?x] =>
      destruct (reset_peers_fields vs (lastIndex (log_ n)) x) as (_ & _ & _ & _ & E & _); exact E end. }
  apply ksafe_then.
  { intros n Hc; unfold takesOffice, advance, atomically, mbind, Prog_bind, bindP.
    rewrite decide_True by done; cbn [mret outcome_ret]; by apply bool_decide_eq_true, Hrole. }
  intros n n' b Hn _ Hx; case_decide as Hc; injection Hx as <- <-; exists Idle.
  - destruct (takeOffice_fields n) as (Ho & _ & Hl & _); split.
    + apply mv_office; [done|by apply (takeOffice_good cfg i)|]; split; [done|by rewrite Hl|unfold nodeTerm, nodeVote; by rewrite Hl|right; unfold nodeTerm; by rewrite Hl].
    + eapply (ksafe_quiet Idle _ anything); [done|]; apply (calm_bind cfg i anything); [by apply propose_calm|]; intros _ _.
      apply (calm_bind cfg i anything); [apply tryAdvance_calm|intros _ _; apply broadcast_calm].
  - split; [apply mv_late; by apply good_refl|by apply ksafe_ret].
Qed.

(** ** Standing for election *)
Lemma emit_ksafe ss : ksafe (fun k' _ => k' = Asking []) (Asking ss) (emit ss).
Proof. induction ss as [|s ss IH]; (split; [done|]); [done|]; exists (Asking ss); split; [right; by exists ss|done]. Qed.

Definition after_election k : Prop := k = Idle \/ k = Asking [].

Lemma canvass_ksafe (c : Candidacy) :
  voters cfg <> [] -> cd_me c = i -> cd_cfg c = cfg ->
  ksafe (fun k' _ => after_election k') (if hasVoter cfg i then Stood (cd_term c) else Idle) (canvass_p c).
Proof.
  intros Hne Hme Hcf; unfold canvass_p; rewrite Hcf, Hme.
  assert ((0 <? nlen (voters cfg)) = true) as ->.
  { apply N.ltb_lt; destruct (voters cfg); [done|]; rewrite nlen_cons; lia. }
  destruct (hasVoter cfg i); cbn [negb andb]; [|apply ksafe_ret; [done|by left]].
  apply (ksafe_then _ (Stood (cd_term c)) (fun n => Ok (set_votes (<[cd_term c := 1]> (votes_ n)) n, tt))); [done|].
  intros n n' a Hn _ [= <- <-]; eexists; split; [by apply (mv_own _ _ (cd_term c) (cd_lastIdx c) (cd_lastTerm c))|].
  unfold majorityOf; cbv zeta; destruct (_ <=? 1).
  - eapply ksafe_mono; [|apply becomeLeader_ksafe]; intros k _ ->; by left.
  - eapply ksafe_mono; [|apply emit_ksafe]; intros k _ ->; by right.
Qed.

Lemma stand_standing n : node_ok cfg i n -> standing cfg i n (stand n).1.
Proof.
  intros [Hid Hrg Hcf Hl Ha]; split; try done; split; try done.
  simpl; apply log_ok_setHardState; [done|apply add64_bound|lia].
Qed.

Lemma becomeCandidate_ksafe :
  timer = true -> voters cfg <> [] -> ksafe (fun k' _ => after_election k') Idle becomeCandidate_p.
Proof.
  intros Ht Hne; apply ksafe_then; [done|]; intros n n' c Hn _ Hx.
  assert (n' = (stand n).1 /\ c = (stand n).2) as [-> ->] by (change (Ok (stand n) = Ok (n', c)) in Hx; destruct (stand n); by simplify_eq).
  clear Hx; eexists; split; [by apply mv_stand, stand_standing|]; destruct Hn as [Hid _ Hcf _ _].
  apply (canvass_ksafe (stand n).2); [done|exact Hid|exact Hcf].
Qed.

Lemma runLoopRound_ksafe now :
  timer = true -> voters cfg <> [] -> ksafe (fun k' _ => after_election k') Idle (runLoopRound_p now).
Proof.
  intros Ht Hne; eapply (ksafe_bind (fun k' _ => after_election k')).
  2: { intros k' _ Hk'; eapply ksafe_mono; [|eapply (ksafe_calm anything); [by destruct Hk' as [->| ->]|apply maybeSnapshot_calm]]; by intros k _ [-> _]. }
  eapply (ksafe_bind (fun k' _ => k' = Idle)); [by eapply (ksafe_quiet _ _ anything), calm_get|].
  intros k' r ->; case_decide.
  - eapply ksafe_mono; [|eapply (ksafe_quiet Idle _ anything); [done|]]; [intros k _ ->; by left|].
    apply (calm_bind cfg i anything); [by apply calm_get|]; intros [] _; [|done].
    apply (calm_bind cfg i anything); [apply broadcast_calm|]; intros _ _.
    apply calm_modify; intros n Hn; apply good_fields; try done; apply Hn.
  - eapply (ksafe_bind (fun k' _ => k' = Idle)); [by eapply (ksafe_quiet _ _ anything), calm_get|].
    intros k' [] ->; [by apply becomeCandidate_ksafe|apply ksafe_ret; [done|by left]].
Qed.

(** ** Voting *)
Lemma castVote_answers req n :
  (castVote req n).2 = mkRequestVoteResp (nodeTerm (castVote req n).1) (rvr_voteGranted (castVote req n).2) /\
  (rvr_voteGranted (castVote req n).2 = true -> nodeVote (castVote req n).1 = rv_candidateId req).
Proof. unfold castVote; by destruct ((_ || _) && _). Qed.

(** A vote is cast in a term that is not below the one of the request. *)
Lemma castVote_moves k src inc req t m n :
  k = Voter src inc req t m \/ k = Raised src inc req t m -> rv_candidateId req < U32 -> node_ok cfg i n -> t <= nodeTerm n ->
  moves n (castVote req n).1 k (Answer (VoteReply src inc i t m (castVote req n).2)).
Proof.
  intros Hk Hc Hn Ht; destruct (castVote_good cfg i req n Hn Hc) as [Hg Hr], (castVote_answers req n) as [Ha Hv].
  eapply mv_vote; [exact Hk|done..|]; intros Hgr Hle; split; [|by apply Hv].
  rewrite Ha in Hle; simpl in Hle; destruct Hg as [_ [_ [Hm _] _]]; unfold nodeTerm in *; lia.
Qed.

Lemma handleRequestVote_ksafe src inc req t m :
  rv_term req = t -> t < U64 -> rv_candidateId req < U32 ->
  ksafe (fun k' resp => k' = Answer (VoteReply src inc i t m resp)) (Voter src inc req t m) (handleRequestVote_p req).
Proof.
  intros <- Ht Hc; apply ksafe_then; [done|]; intros n n' r Hn _ Hx.
  destruct (N.ltb_spec (rv_term req) (currentTerm_ (log_ n))) as [Hlt|Hle]; [|destruct (N.ltb_spec (currentTerm_ (log_ n)) (rv_term req))].
  - injection Hx as <- <-; eexists (Answer (VoteReply _ _ _ _ _ _)); split; [|by apply ksafe_ret].
    eapply mv_vote; [by left|by apply good_refl|apply Hn|done].
  - injection Hx as <- <-; exists (Voter src inc req (rv_term req) m); split; [by apply mv_quiet, good_refl|].
    apply (ksafe_then _ _ (fun n => Ok (becomeFollower (rv_term req) 0 n, tt))); [done|]; clear n Hn Hle H0; intros n n' a Hn _ [= <- <-].
    exists (Raised src inc req (rv_term req) m); split.
    { apply mv_raise; [by apply becomeFollower_good|]; destruct (becomeFollower_spec (rv_term req) 0 n) as (E & _); rewrite E; lia. }
    apply (ksafe_then _ _ _ mret); [done|]; clear n Hn; intros n n' resp Hn Hl Hx.
    assert (n' = (castVote req n).1 /\ resp = (castVote req n).2) as [-> ->] by (change (Ok (castVote req n) = Ok (n', resp)) in Hx; destruct (castVote req n); by simplify_eq).
    eexists; split; [by apply castVote_moves; [right|..]|by apply ksafe_ret].
  - destruct (castVote req n) as [n1 resp] eqn:E; injection Hx as <- <-.
    exists (Answer (VoteReply src inc i (rv_term req) m resp)); split; [|by apply ksafe_ret].
    change n1 with (n1, resp).1; change resp with (n1, resp).2 at 2; rewrite <- E; by apply castVote_moves; [left|..].
Qed.

(** ** Counting *)
Lemma onRequestVoteResp_ksafe inc peer t m resp :
  rvr_term resp < U64 -> ksafe (fun k' _ => k' = Idle) (Counting inc peer t m resp) (onRequestVoteResp_p t m true resp).
Proof.
  intros Ht; apply ksafe_then; [done|]; intros n n' x Hn _ Hx.
  assert (ksafe (fun k' _ => k' = Idle) Idle (mret tt : Prog (RaftNode S) Send unit)) as Hdone by by apply ksafe_ret.
  assert (moves n n (Counting inc peer t m resp) Idle) as Hign by by apply mv_ignore, good_refl.
  destruct (bool_decide (role_ n = Candidate)) eqn:Hc; [apply bool_decide_eq_true in Hc|injection Hx as <- <-; by exists Idle].
  destruct (N.eqb_spec (currentTerm_ (log_ n)) t) as [Et|]; [|injection Hx as <- <-; by exists Idle].
  cbn [negb orb] in Hx; destruct (N.ltb_spec t (rvr_term resp)); [injection Hx as <- <-|].
  { exists Idle; split; [done|]; by eapply (ksafe_quiet _ _ anything), becomeFollower_calm. }
  destruct (rvr_voteGranted resp) eqn:Hg; [|injection Hx as <- <-; by exists Idle].
  injection Hx as <- <-; eexists; split; [by apply mv_count|]; destruct (_ <=? _); [apply becomeLeader_ksafe|done].
Qed.

(** ** The threads *)
Definition final k (ps : list Packet) : Prop :=
  (exists p, k = Answer p /\ ps = [p]) \/ Forall (fun p => packet_ok cfg p /\ voteKey p = None) ps.

(** The token of the thread a message starts. *)
Definition tokenOf (p : Packet) : Token :=
  match p with
  | Request src inc (SendRequestVote _ req t m) => Voter src inc req t m
  | VoteReply _ inc peer t m resp => Counting inc peer t m resp
  | _ => Idle
  end.

Lemma ksafe_silent {A} (P : Token -> A -> Prop) k (p : Prog (RaftNode S) Send A) :
  ksafe P k p -> (forall k' a, P k' a -> waiting k') -> ksafe final k (_ ← p; mret []).
Proof. intros Hp HP; eapply ksafe_bind; [exact Hp|]; intros k' a Ha; apply ksafe_ret; [by eapply HP|by right]. Qed.

Lemma ksafe_answered {A} (Q : A -> Prop) (p : Prog (RaftNode S) Send A) (g : A -> Packet) :
  calm cfg i Q p -> (forall a, Q a -> packet_ok cfg (g a) /\ voteKey (g a) = None) -> ksafe final Idle (a ← p; mret [g a]).
Proof.
  intros Hp Hg; eapply ksafe_bind; [by eapply ksafe_calm|]; intros k' a [-> Ha]; apply ksafe_ret; [done|].
  right; constructor; [by apply Hg|done].
Qed.

Lemma reaction_ksafe p (c : Cluster S) :
  packet_ok cfg p -> recipient c p = Some i -> ksafe final (tokenOf p) (reaction p).
Proof.
  destruct p as [src inc s|dst inc peer t m resp|dst inc peer t resp|dst inc peer idx resp]; cbn [packet_ok reaction tokenOf]; intros Hp Hi.
  - destruct Hp as [Hs Hv]; simpl in Hi; destruct (nodes c !! sendPeer s); [injection Hi as Hi|done].
    destruct s as [peer req t m|peer req t|peer req idx]; simpl in Hi, Hs; subst peer; cbn [handler].
    + destruct Hs as [Ht Hc]; destruct Hv as (<- & _); eapply ksafe_bind; [by apply handleRequestVote_ksafe|].
      intros k' resp ->; apply ksafe_ret; [done|left]; by eexists.
    + destruct Hs as [Ht He]; apply (ksafe_answered (fun r => aer_term r < U64)); [by apply handleAppendEntries_calm|done].
    + destruct Hs as (Ht & Hx & Hy); apply (ksafe_answered (fun r => isr_term r < U64)); [by apply handleInstallSnapshot_calm|done].
  - eapply (ksafe_silent (fun k' _ => k' = Idle)); [apply onRequestVoteResp_ksafe, Hp|by intros k' a ->].
  - eapply (ksafe_silent (fun k' _ => k' = Idle)); [by eapply (ksafe_quiet _ _ anything), onAppendEntriesResp_calm|by intros k' a ->].
  - eapply (ksafe_silent (fun k' _ => k' = Idle)); [by eapply (ksafe_quiet _ _ anything), onInstallSnapshotResp_calm|by intros k' a ->].
Qed.
End tokens.
