(* ===== verification/RaftThreadsElection.v ===== *)
(** * Elections when the methods of a node interleave

    [election_safety] for [RaftThreads], where a method gives up its mutex between
    two critical sections.  The invariant of [ElectionSafety] speaks of the messages of
    the network and of those the threads hold ([ElectionTokens]).

    The one interleaving that has to be excluded is the gap of the vote callback:
    a node must not stand for election while one of its threads is about to take
    office ([gapFree]). *)
From stdpp Require Import base tactics list gmap numbers strings sorting relations.
From Stdlib Require Import Ascii NArith Lia.
From S2P Require Import Prelude.
From S2P Require Import Buffer.
From S2P Require Import Types.
From S2P Require Import RpcMessages.
From S2P Require Import PersistentLog.
From S2P Require Import StateMachine.
From S2P Require Import KvStore.
From S2P Require Import RaftNode.
From S2P Require Import RaftNodeFacts.
From S2P Require Import RaftCommit.
From S2P Require Import RaftHandlers.
From S2P Require Import Cluster.
From S2P Require Import RaftInvariant.
From S2P Require Import ElectionSafety.
From S2P Require Import Sections.
From S2P Require Import RaftSections.
From S2P Require Import RaftThreads.
From S2P Require Import RaftThreadsSafety.

From S2P Require Import ElectionTokens.

Local Open Scope N_scope.

(** ** All threads of all nodes *)
Section groups.
Context {S : Type} `{StateMachine S}.
Context (cfg : ClusterConfig) (freshSm : S).
Context (Hnd : NoDup (voters cfg)) (Hne : voters cfg <> []).
Implicit Types (n : RaftNode S) (c : Cluster S) (f : Threads (S := S)) (ns : gmap N (RaftNode S)) (k : Token)
  (g : gset (N * N * N)) (tks : list (Thread (S := S) * Token)).

Lemma Inv_perm ns net net' g : Inv cfg ns net g -> net ≡ₚ net' -> Inv cfg ns net' g.
Proof.
  intros [[Hn Hp] He] Hpm; split; [split; [done|by rewrite <- Hpm]|]; eapply elect_net; [done| |].
  - unfold voteKeys; by rewrite Hpm.
  - intros a inc v t m resp Hin _ _; left; by rewrite Hpm.
Qed.

(** What the token of a thread says of the state of its node. *)
Definition known g (keys : list (N * N * N)) (i : NodeId) (timer : bool) k n : Prop :=
  match k with
  | Stood t => timer = true /\ (i, t, i) ∈ g /\ i ∈ voters cfg /\ t <= nodeTerm n /\
      (role_ n = Candidate -> nodeTerm n = t) /\ forall p, (i, t, p) ∉ keys
  | Raised _ _ _ t _ => t <= nodeTerm n
  | Winner t => (exists Q : gset N, majorityOf cfg <= N.of_nat (size Q) /\ forall q, q ∈ Q -> q ∈ voters cfg /\ (q, t, i) ∈ g) /\
      (role_ n = Candidate -> nodeTerm n = t)
  | _ => True
  end.

Lemma known_local g keys i timer k n : known g keys i timer k n -> local k n.
Proof. by destruct k. Qed.

Lemma known_stable g g' keys keys' i timer k n n' :
  g ⊆ g' -> (timer = true -> forall t p, (i, t, p) ∈ keys' -> (i, t, p) ∈ keys) -> hs_le (log_ n) (log_ n') ->
  (timer = true \/ (exists t, k = Winner t) -> role_ n' = Candidate -> role_ n = Candidate /\ nodeTerm n' = nodeTerm n) ->
  known g keys i timer k n -> known g' keys' i timer k n'.
Proof.
  intros Hg Hk [Ht _] Hr; destruct k as [|t| |?? ? t ?|?? ? t ?| | |t]; simpl; try done.
  - intros (Htm & Hs & Hv & Hle & Hc & Hno); split_and!; [done|by apply Hg|done|unfold nodeTerm in *; lia| |].
    + intros Hc'; destruct Hr as [Hrc ->]; [by left|done|auto].
    + intros p Hp; by apply (Hno p), Hk.
  - unfold nodeTerm; lia.
  - intros [(Q & HQ & Hq) Hc]; split; [exists Q; split; [done|]; intros q Hin; destruct (Hq q Hin); auto|].
    intros Hc'; destruct Hr as [Hrc ->]; [right; by exists t|done|auto].
Qed.

Lemma quiet_role n n' : quiet n n' -> role_ n' = Candidate -> role_ n = Candidate /\ nodeTerm n' = nodeTerm n.
Proof. intros [_ _ [Hr|(Hr & Ht & _)]] Hc; [congruence|split; congruence]. Qed.

(** ** One section of one thread *)

(** Only its timer makes a node ask for votes. *)
Definition keys_from (i : NodeId) (timer : bool) (old new : list Packet) : Prop :=
  forall a t p, (a, t, p) ∈ voteKeys new -> (a, t, p) ∈ voteKeys old \/ (a = i /\ timer = true).

Definition advanced ns rest g i timer n n' k k' : Prop :=
  exists g', g ⊆ g' /\ Inv cfg (<[i := n']> ns) (held i k' ++ rest) g' /\
    known g' (voteKeys (held i k' ++ rest)) i timer k' n' /\ keys_from i timer (held i k ++ rest) (held i k' ++ rest).

(** A section that is not part of an election: the thread keeps its messages, or
    drops them. *)
Lemma advanced_quiet ns rest g i timer n n' k k' :
  Inv cfg ns (held i k ++ rest) g -> ns !! i = Some n -> good cfg i n n' -> held i k' = held i k \/ held i k' = [] ->
  known g (voteKeys (held i k' ++ rest)) i timer k' n' -> advanced ns rest g i timer n n' k k'.
Proof.
  intros HI Hi Hg Hh Hk; exists g; assert (voteKeys (held i k' ++ rest) ⊆+ voteKeys (held i k ++ rest)) as Hsub.
  { destruct Hh as [-> | ->]; [done|]; rewrite !voteKeys_app; apply submseteq_inserts_l; done. }
  split_and!; [done| |done|].
  - eapply inv_quiet; [exact HI|done..| |exact Hsub|].
    + destruct Hh as [-> | ->]; [apply HI|]; destruct HI as [[_ Hp] _]; by apply Forall_app in Hp as [_ ?].
    + intros a inc v t m resp Hin _ _; left; destruct Hh as [E|E]; rewrite E in Hin; [done|]; apply elem_of_app; by right.
  - intros a t p Hin; left; by eapply elem_of_submseteq.
Qed.

Lemma advanced_stand ns rest g i timer n n' :
  Inv cfg ns rest g -> ns !! i = Some n -> nodeTerm n + 1 < U64 -> timer = true -> standing cfg i n n' ->
  advanced ns rest g i timer n n' Idle (if hasVoter cfg i then Stood (nodeTerm n') else Idle).
Proof.
  intros HI Hi Hb Htm Hst; destruct (inv_standing cfg _ _ _ _ _ _ HI Hi Hst Hb) as [HI' Hno].
  exists (g ∪ {[ (i, nodeTerm n', i) ]}); split; [apply union_subseteq_l|].
  assert (held i (if hasVoter cfg i then Stood (nodeTerm n') else Idle) = []) as -> by by destruct (hasVoter cfg i).
  split_and!; [done| |by left]; destruct (hasVoter cfg i) eqn:Hv; [|done].
  split_and!; [done|by apply elem_of_union_r, elem_of_singleton|by apply hasVoter_elem|done|done|done].
Qed.

Lemma advanced_own ns rest g i timer n t li lt :
  Inv cfg ns rest g -> ns !! i = Some n -> known g (voteKeys rest) i timer (Stood t) n ->
  advanced ns rest g i timer n (set_votes (<[t := 1]> (votes_ n)) n) (Stood t)
    (if majorityOf cfg <=? 1 then Winner t else Asking (voteRequests cfg i t li lt)).
Proof.
  intros HI Hi (Htm & Hs & Hv & Hle & Hc & Hno); set (m := set_votes _ n); pose proof (co_nodes _ _ _ (proj1 HI) _ _ Hi) as Hn.
  assert (node_ok cfg i m) as Hm by (destruct Hn; by split).
  assert (Inv cfg (<[i := m]> ns) rest g) as HI'.
  { destruct HI as [HC HE]; split; [eapply cluster_ok_update; [done..|apply HC]|].
    eapply elect_update; [done..| |intros Hl; apply (ei_leader _ _ _ _ HE i n Hi Hl)]; intros Hc'; change (role_ n = Candidate) in Hc'.
    left; change (nodeTerm m) with (nodeTerm n); by rewrite (Hc Hc'). }
  exists g; split; [done|]; destruct (majorityOf cfg <=? 1) eqn:Em; cbn [held app].
  - split_and!; [done| |by left]; split; [|done]; exists {[ i ]}; rewrite size_singleton; split; [by apply N.leb_le in Em|].
    by intros q ->%elem_of_singleton.
  - split; [|split; [done|]].
    + eapply Inv_perm; [|apply Permutation_app_comm]; split.
      * split; [apply HI'|]; apply Forall_app; split; [apply HI'|]; apply Forall_fmap, Forall_forall; intros s Hin.
        apply voteRequests_elem in Hin as (p & Hp & _ & ->); split; [|done]; simpl; destruct Hn as [_ ? _ [_ Hpv _] _].
        pose proof (pv_term _ Hpv); unfold nodeTerm in *; split; lia.
      * apply (elect_ask cfg _ _ _ i 0 m); try done; [apply HI'|by rewrite lookup_insert_eq|apply lookup_insert_eq].
    + intros a t' p; rewrite voteKeys_app, elem_of_app; intros [Hin|Hin]; [right|by left].
      rewrite voteKeys_requests in Hin; apply list_elem_of_fmap in Hin as (q & [= -> -> ->] & _); done.
Qed.

Lemma advanced_vote ns rest g i timer n n' k src inc req t m resp :
  k = Voter src inc req t m \/ k = Raised src inc req t m ->
  Inv cfg ns (held i k ++ rest) g -> ns !! i = Some n -> good cfg i n n' -> rvr_term resp < U64 ->
  (rvr_voteGranted resp = true -> rvr_term resp <= t -> nodeTerm n' = t /\ nodeVote n' = rv_candidateId req) ->
  advanced ns rest g i timer n n' k (Answer (VoteReply src inc i t m resp)).
Proof.
  intros Hk HI Hi Hg Ht Hgr; assert (held i k = [Request src inc (SendRequestVote i req t m)]) as Eh by by destruct Hk as [-> | ->].
  rewrite Eh in HI; destruct (inv_ballot cfg _ _ _ 0 src inc i req t m n n' resp HI) as (g' & [Hsub _] & HI'); [done..|].
  exists g'; split; [done|]; split; [by eapply Inv_perm; [exact HI'|simpl; by rewrite Permutation_app_comm]|]; split; [done|].
  intros a t' p; rewrite Eh; simpl; intros Hin; by left.
Qed.

Lemma advanced_count ns rest g i timer n inc peer m resp :
  let t := nodeTerm n in let v := default 0 (votes_ n !! t) + 1 in
  Inv cfg ns (VoteReply i inc peer t m resp :: rest) g -> ns !! i = Some n -> role_ n = Candidate ->
  rvr_voteGranted resp = true -> rvr_term resp <= t ->
  advanced ns rest g i timer n (set_votes (<[t := v]> (votes_ n)) n) (Counting inc peer t m resp) (if m <=? v then Winner t else Idle).
Proof.
  intros t v HI Hi Hc Hgr Hle; destruct (inv_tally cfg _ _ _ 0 i inc peer m resp n HI) as (HI' & Q & HQ & Hq); [done..|].
  pose proof (Forall_lookup_1 _ _ 0%nat _ (co_net _ _ _ (proj1 HI)) eq_refl) as (_ & Em & _).
  exists g; split; [done|]; assert (held i (if m <=? v then Winner t else Idle) = []) as -> by by destruct (m <=? v).
  split; [exact HI'|]; split.
  - destruct (N.leb_spec m v) as [Hm|]; [|done]; split; [|done]; exists Q; split; [|done].
    rewrite <- Em; etransitivity; [exact Hm|exact HQ].
  - intros a t' p Hin; left; by right.
Qed.

Lemma moves_inv ns rest g i timer n n' k k' :
  Inv cfg ns (held i k ++ rest) g -> ns !! i = Some n -> nodeTerm n + 1 < U64 ->
  known g (voteKeys (held i k ++ rest)) i timer k n -> moves cfg i timer n n' k k' ->
  advanced ns rest g i timer n n' k k'.
Proof.
  intros HI Hi Hb Hk Hm.
  destruct Hm as [k Hg|Ht Hst|t li lt E|src inc req t m Hg Ht|k src inc req t m resp Hkk Hg Ht Hgr|inc peer t m resp Hg|inc peer t m resp Hc E1 Hgr Hle E2|t Hc Hn' He|t Hg].
  - eapply advanced_quiet; [done..|by left|]; eapply known_stable; [done|done|apply Hg| |exact Hk]; intros _; apply quiet_role, Hg.
  - by apply advanced_stand.
  - subst n'; by apply advanced_own.
  - by eapply advanced_quiet; [..|left|].
  - by eapply advanced_vote.
  - by eapply advanced_quiet; [..|right|].
  - subst t n'; by apply advanced_count.
  - destruct Hk as [(Q & HQ & Hq) Ht]; specialize (Ht Hc); subst t; exists g; split; [done|]; split; [|by split; [|left]].
    pose proof (inv_elected cfg ns rest g i n n' 0 [] Q HI Hi Hn' He ltac:(done) HQ Hq) as HI'; by rewrite app_nil_r in HI'.
  - by eapply advanced_quiet; [..|right|].
Qed.
(** What a section does to the election state that other threads know of. *)
Lemma moves_hs i timer n n' k k' : nodeTerm n + 1 < U64 -> moves cfg i timer n n' k k' -> hs_le (log_ n) (log_ n').
Proof.
  intros Hb Hm; destruct Hm as [k Hg|_ Hst|t li lt E|src inc req t m Hg _|k src inc req t m resp _ Hg _ _|inc peer t m resp Hg|inc peer t m resp _ _ _ _ E|t _ _ He|t Hg];
    try apply Hg; [|by subst n'|by subst n'|apply He].
  pose proof (st_term _ _ _ _ Hst) as Ht; rewrite add64_small in Ht by done; unfold nodeTerm in *; split; lia.
Qed.

Lemma moves_role i timer n n' k k' :
  nodeTerm n + 1 < U64 -> moves cfg i timer n n' k k' -> role_ n' = Candidate ->
  (role_ n = Candidate /\ nodeTerm n' = nodeTerm n) \/ (timer = true /\ nodeTerm n' <> nodeTerm n).
Proof.
  intros Hb Hm Hc; destruct Hm as [k Hg|Ht Hst|t li lt E|src inc req t m Hg _|k src inc req t m resp _ Hg _ _|inc peer t m resp Hg|inc peer t m resp _ _ _ _ E|t _ _ He|t Hg];
    try (left; by eapply quiet_role; [apply Hg|]); [|by subst n'; left|by subst n'; left|].
  - right; split; [done|]; pose proof (st_term _ _ _ _ Hst) as E; rewrite add64_small in E by done; lia.
  - destruct (el_role _ _ He) as [|[]]; congruence.
Qed.

(** ** The group *)
Definition allHeld tks : list Packet := tks ≫= fun p => held (th_node p.1) p.2.

Definition timers tks : list NodeId := omap (fun p : Thread * Token => if th_timer p.1 then Some (th_node p.1) else None) tks.

Record core c tks g : Prop := {
  cr_safe : Forall (fun p => ksafe cfg (th_node p.1) (th_timer p.1) (final cfg) p.2 (th_prog p.1)) tks;
  cr_inv : Inv cfg (nodes c) (allHeld tks ++ net c) g;
  cr_known : forall th k n, (th, k) ∈ tks -> nodes c !! th_node th = Some n ->
    known g (voteKeys (allHeld tks ++ net c)) (th_node th) (th_timer th) k n;
  cr_timers : NoDup (timers tks)
}.

Lemma allHeld_perm tks tks' : tks ≡ₚ tks' -> allHeld tks ≡ₚ allHeld tks'.
Proof. intros Hp; unfold allHeld; by rewrite Hp. Qed.

Lemma known_keys g keys keys' i timer k n :
  (forall x, x ∈ keys' -> x ∈ keys) -> known g keys i timer k n -> known g keys' i timer k n.
Proof. intros Hk; apply known_stable; [done|intros _ t p; apply Hk|done|done]. Qed.

Lemma core_perm c tks tks' g : core c tks g -> tks ≡ₚ tks' -> core c tks' g.
Proof.
  intros [Hs HI Hk Ht] Hp; pose proof (allHeld_perm _ _ Hp) as Ha; split.
  - by rewrite <- Hp.
  - eapply Inv_perm; [done|by rewrite Ha].
  - intros th k n Hin Hn; eapply known_keys; [|apply Hk; [by rewrite Hp|done]].
    intros x; unfold voteKeys; by rewrite Ha.
  - unfold timers; by rewrite <- Hp.
Qed.

(** A change of the messages that adds none of an election. *)
Lemma core_net c tks tks' g inc ps :
  core c tks g -> Forall (fun p => ksafe cfg (th_node p.1) (th_timer p.1) (final cfg) p.2 (th_prog p.1)) tks' ->
  (forall th k, (th, k) ∈ tks' -> (exists th0, (th0, k) ∈ tks /\ th_node th = th_node th0 /\ th_timer th = th_timer th0) \/
     forall g keys n, known g keys (th_node th) (th_timer th) k n) -> NoDup (timers tks') ->
  Forall (packet_ok cfg) (allHeld tks' ++ ps) -> voteKeys (allHeld tks' ++ ps) ⊆+ voteKeys (allHeld tks ++ net c) ->
  replies_known (allHeld tks ++ net c) (allHeld tks' ++ ps) g -> core (mkCluster (nodes c) inc ps) tks' g.
Proof.
  intros [Hs HI Hk Ht] Hs' Hsub Ht' Hp Hkeys Hr; split; [done| | |done].
  - split; [split; [apply HI|done]|]; eapply elect_net; [apply HI|done|done].
  - intros th k n Hin Hn; destruct (Hsub _ _ Hin) as [(th0 & Hold & E1 & E2)|Hany]; [rewrite E1, E2 in *|apply Hany].
    eapply known_keys; [|by apply Hk]; intros x Hx; by eapply elem_of_submseteq.
Qed.

(** A node changes and the threads do not; [th] has moved. *)
Lemma core_section c th k th' k' R g n n' :
  let i := th_node th in
  core c ((th, k) :: R) g -> nodes c !! i = Some n -> nodeTerm n + 1 < U64 -> moves cfg i (th_timer th) n n' k k' ->
  th_node th' = i -> th_timer th' = th_timer th -> ksafe cfg i (th_timer th) (final cfg) k' (th_prog th') ->
  (role_ n' = Candidate -> nodeTerm n' <> nodeTerm n -> forall th2 k2, (th2, k2) ∈ R -> th_node th2 = i -> takesOffice (th_prog th2) n' = false) ->
  exists g', g ⊆ g' /\ core (update c i n' (net c)) ((th', k') :: R) g'.
Proof.
  intros i [Hs HI Hk Ht] Hi Hb Hm Hi' Ht' Hs' Hgap; apply Forall_cons in Hs as [_ Hs].
  change (allHeld ((th, k) :: R)) with (held i k ++ allHeld R) in *; rewrite <- app_assoc in HI, Hk.
  destruct (moves_inv _ _ _ _ _ _ _ _ _ HI Hi Hb ltac:(by apply Hk; [left|]) Hm) as (g' & Hsub & HI' & Hk' & Hfrom).
  exists g'; split; [done|]; assert (allHeld ((th', k') :: R) ++ net c = held i k' ++ allHeld R ++ net c) as Eh.
  { change (allHeld ((th', k') :: R)) with (held (th_node th') k' ++ allHeld R); by rewrite Hi', <- app_assoc. }
  split; cbn [update nodes net]; rewrite ?Eh; [apply Forall_cons; split; [simpl; by rewrite Hi', Ht'|done]|done| |].
  - intros th2 k2 m [[= -> ->]|Hin]%elem_of_cons Hm2; [rewrite Hi', Ht' in *; rewrite lookup_insert_eq in Hm2; by simplify_eq|].
    assert (th_node th2 = i -> th_timer th2 = true -> th_timer th = false) as Htm.
    { intros E1 E2; destruct (th_timer th) eqn:E3; [|done]; exfalso; unfold timers in Ht; simpl in Ht; rewrite E3 in Ht.
      apply NoDup_cons in Ht as [Hnot _]; apply Hnot, list_elem_of_omap; exists (th2, k2); split; [done|]; simpl; by rewrite E2, E1. }
    assert (forall t p, (th_node th2, t, p) ∈ voteKeys (held i k' ++ allHeld R ++ net c) -> th_timer th2 = true ->
      (th_node th2, t, p) ∈ voteKeys (held i k ++ allHeld R ++ net c)) as Hkeys.
    { intros t p Hp E2; destruct (Hfrom _ _ _ Hp) as [?|[E1 E3]]; [done|]; by rewrite (Htm E1 E2) in E3. }
    destruct (decide (th_node th2 = i)) as [E|E].
    + rewrite E, lookup_insert_eq in Hm2; injection Hm2 as <-.
      eapply (known_stable g g' _ _ _ _ _ n); [done|intros ? t p ?; by apply Hkeys|by eapply moves_hs| |apply Hk; [by right|by rewrite E]].
      intros Hwho Hc; destruct (moves_role _ _ _ _ _ _ Hb Hm Hc) as [?|[E3 Hne']]; [done|exfalso].
      destruct Hwho as [E2|[t ->]]; [by rewrite (Htm E E2) in E3|].
      rewrite Forall_forall in Hs; specialize (ksafe_ready _ _ _ _ _ _ (Hs _ Hin) n' Hc) as Hr; simpl in Hr.
      by rewrite (Hgap Hc Hne' _ _ Hin E) in Hr.
    + rewrite lookup_insert_ne in Hm2 by done.
      eapply (known_stable g g' _ _ _ _ _ m); [done|intros ? t p ?; by apply Hkeys|done|done|apply Hk; [by right|done]].
  - unfold timers in *; simpl in *; by rewrite Hi', Ht'.
Qed.
(** A thread that has moved on keeps its place. *)
Lemma core_renew c th th' k k' R g :
  core c ((th, k) :: R) g -> th_node th' = th_node th -> th_timer th' = th_timer th ->
  ksafe cfg (th_node th) (th_timer th) (final cfg) k' (th_prog th') ->
  Forall (fun p => ksafe cfg (th_node p.1) (th_timer p.1) (final cfg) p.2 (th_prog p.1)) ((th', k') :: R) /\
  NoDup (timers ((th', k') :: R)) /\ allHeld ((th', k') :: R) = held (th_node th) k' ++ allHeld R.
Proof.
  intros [[_ Hs]%Forall_cons _ _ Ht] Hi' Ht' Hs'; split_and!.
  - apply Forall_cons; split; [simpl; by rewrite Hi', Ht'|done].
  - unfold timers in *; simpl in *; by rewrite Hi', Ht'.
  - change (allHeld ((th', k') :: R)) with (held (th_node th') k' ++ allHeld R); by rewrite Hi'.
Qed.

(** A message is sent. *)
Lemma core_emit c th th' k k' R g s :
  let i := th_node th in
  core c ((th, k) :: R) g -> emits s k k' -> th_node th' = i -> th_timer th' = th_timer th ->
  ksafe cfg i (th_timer th) (final cfg) k' (th_prog th') ->
  core (mkCluster (nodes c) (incarnation c) (net c ++ launch i (incOf c i) [s])) ((th', k') :: R) g.
Proof.
  intros i HC Hem Hi' Ht' Hs'; destruct (core_renew _ _ _ _ _ _ _ HC Hi' Ht' Hs') as (HS & HT & Eh); fold i in Eh.
  pose proof (co_net _ _ _ (proj1 (cr_inv _ _ _ HC))) as Hp; change (allHeld ((th, k) :: R)) with (held i k ++ allHeld R) in Hp.
  assert (forall p, p ∈ allHeld ((th', k') :: R) ++ net c ++ launch i (incOf c i) [s] -> p ∈ allHeld ((th, k) :: R) ++ net c \/ p = Request i (incOf c i) s) as Hin.
  { intros p; rewrite Eh, app_assoc; rewrite elem_of_app; intros [Hin|Hin%list_elem_of_singleton]; [left|by right].
    change (allHeld ((th, k) :: R)) with (held i k ++ allHeld R); rewrite !elem_of_app in *; destruct Hin as [[Hin|?]|?]; [|tauto|tauto].
    do 2 left; destruct Hem as [(_ & _ & ->)|(ss & -> & ->)]; [done|by right]. }
  assert (packet_ok cfg (Request i (incOf c i) s)) as Hps.
  { destruct Hem as [(H1 & H2 & ->)|(ss & -> & ->)]; [by destruct s|]; apply Forall_app in Hp as [[[Hp _]%Forall_cons _]%Forall_app _]; exact Hp. }
  apply (core_net c ((th, k) :: R)); [done|done| |done| | |].
  - intros th2 k2 [[= -> ->]|Hin2]%elem_of_cons; [|left; exists th2; split_and!; [by right|done|done]].
    destruct Hem as [(_ & _ & ->)|(ss & -> & ->)]; [left; exists th; by split_and!; [left|..]|by right].
  - apply Forall_forall; intros p [Hold| ->]%Hin; [|done].
    exact (proj1 (Forall_forall _ _) (co_net _ _ _ (proj1 (cr_inv _ _ _ HC))) p Hold).
  - rewrite Eh, app_assoc; change (allHeld ((th, k) :: R)) with (held i k ++ allHeld R); rewrite !voteKeys_app.
    destruct Hem as [(_ & Hv & ->)|(ss & -> & ->)]; [by rewrite voteKeys_quiet, app_nil_r by by repeat constructor|].
    change (held i (Asking (s :: ss))) with ([Request i 0 s] ++ launch i 0 ss); rewrite voteKeys_app.
    change (voteKeys (launch i (incOf c i) [s])) with (voteKeys [Request i 0 s]).
    by rewrite (Permutation_app_comm _ (voteKeys [Request i 0 s])), <- !app_assoc.
  - intros a inc v t m resp [?|?]%Hin _ _; [by left|done].
Qed.

(** A thread ends with its answer. *)
Lemma core_return c th k ps R g :
  core c ((th, k) :: R) g -> th_prog th = Ret ps -> core (mkCluster (nodes c) (incarnation c) (net c ++ ps)) R g.
Proof.
  intros HC Hp; pose proof HC as [[Hs HS]%Forall_cons HI _ Ht]; simpl in Hs; rewrite Hp in Hs; destruct Hs as [_ Hfin].
  change (allHeld ((th, k) :: R)) with (held (th_node th) k ++ allHeld R) in *; pose proof (co_net _ _ _ (proj1 HI)) as Hok.
  apply Forall_app in Hok as [[Hh HR]%Forall_app Hn].
  assert (NoDup (timers R)) as HT by (unfold timers in *; simpl in Ht; destruct (th_timer th); [by apply NoDup_cons in Ht as []|done]).
  apply (core_net c ((th, k) :: R)); try done.
  - intros th2 k2 Hin; left; exists th2; by split_and!; [right|..].
  - rewrite !Forall_app; split_and!; [done|done|]; destruct Hfin as [(p & -> & ->)|Hps]; [done|].
    eapply Forall_impl; [exact Hps|]; by intros p [].
  - change (allHeld ((th, k) :: R)) with (held (th_node th) k ++ allHeld R); rewrite !voteKeys_app; destruct Hfin as [(p & -> & ->)|Hps].
    + rewrite (app_assoc _ _ (voteKeys [p])), Permutation_app_comm; by rewrite app_assoc.
    + assert (voteKeys ps = []) as ->; [|rewrite app_nil_r, <- app_assoc; by apply submseteq_inserts_l].
      unfold voteKeys; clear -Hps; induction Hps as [|p ps [_ Hv] _ IH]; [done|]; simpl; by rewrite Hv.
  - change (allHeld ((th, k) :: R)) with (held (th_node th) k ++ allHeld R); intros a inc v t m resp Hin _ _; left; rewrite !elem_of_app in *.
    destruct Hin as [?|[?|Hin]]; [tauto|tauto|]; destruct Hfin as [(p & -> & ->)|Hps]; [tauto|].
    rewrite Forall_forall in Hps; by destruct (Hps _ Hin).
Qed.

(** A method is started. *)
Lemma core_spawn c tks g i timer p :
  core c tks g -> ksafe cfg i timer (final cfg) Idle p -> (timer = true -> i ∉ timers tks) ->
  core c ((mkThread i timer p, Idle) :: tks) g.
Proof.
  intros [Hs HI Hk Ht] Hp Hi; split; [by apply Forall_cons|done| |].
  - intros th k n [[= -> ->]|Hin]%elem_of_cons Hn; [done|by apply Hk].
  - unfold timers in *; simpl; destruct timer; [apply NoDup_cons; auto|done].
Qed.

Lemma held_tokenOf i p c : recipient c p = Some i -> (held i (tokenOf p) = [p] \/ held i (tokenOf p) = [] /\ voteKey p = None) /\
  forall g keys timer (n : RaftNode S), known g keys i timer (tokenOf p) n.
Proof.
  destruct p as [src inc s|dst inc peer t m resp|dst inc peer t resp|dst inc peer idx resp]; simpl.
  - destruct (nodes c !! sendPeer s); [intros [= Hi]|done]; destruct s; simpl in *; subst; split; try done; solve [by left|by right].
  - destruct (nodes c !! dst); [|done]; destruct (_ =? _); [intros [= ->]|done]; split; [by left|done].
  - by split; [right|].
  - by split; [right|].
Qed.

(** A message reaches its node. *)
Lemma core_deliver c tks g (k : nat) p i :
  core c tks g -> net c !! k = Some p -> recipient c p = Some i ->
  core (mkCluster (nodes c) (incarnation c) (delete k (net c))) ((mkThread i false (reaction p), tokenOf p) :: tks) g.
Proof.
  intros HC Hk Hi; pose proof (delete_Permutation _ _ _ Hk) as Hpm; pose proof (co_net _ _ _ (proj1 (cr_inv _ _ _ HC))) as Hok.
  pose proof Hok as [_ Hn]%Forall_app; pose proof (Forall_lookup_1 _ _ _ _ Hn Hk) as Hp.
  destruct (held_tokenOf i p c Hi) as [Hh Hknown].
  set (rest := delete k (net c)) in *; clearbody rest.
  assert (allHeld ((mkThread i false (reaction p), tokenOf p) :: tks) = held i (tokenOf p) ++ allHeld tks) as Eh by done.
  assert (exists l, (held i (tokenOf p) ++ allHeld tks) ++ rest ++ l ≡ₚ allHeld tks ++ net c /\ voteKeys l = []) as (l & Hl & Hlk).
  { destruct Hh as [-> |[-> Hv]]; [exists []|exists [p]]; split; [| done| |unfold voteKeys; simpl; by rewrite Hv]; rewrite Hpm.
    - rewrite app_nil_r; simpl; by rewrite Permutation_middle.
    - simpl; by rewrite <- Permutation_cons_append. }
  apply (core_net c tks); [done| | | | | |].
  - apply Forall_cons; split; [by eapply reaction_ksafe|apply HC].
  - intros th2 k2 [[= -> ->]|Hin]%elem_of_cons; [by right|left; by exists th2].
  - apply HC.
  - rewrite Eh; rewrite <- Hl, app_assoc in Hok; by apply Forall_app in Hok as [? _].
  - assert (voteKeys (allHeld tks ++ net c) ≡ₚ voteKeys (((held i (tokenOf p) ++ allHeld tks) ++ rest) ++ l)) as -> by (unfold voteKeys; by rewrite <- Hl, app_assoc).
    by rewrite Eh, (voteKeys_app _ l), Hlk, app_nil_r.
  - intros a inc v t m resp Hin _ _; left; rewrite <- Hl, app_assoc; rewrite Eh in Hin; apply elem_of_app; by left.
Qed.
(** A node changes outside of an election, and some threads end. *)
Lemma core_node c tks tks' R g i n n' inc :
  core c tks g -> tks ≡ₚ tks' ++ R -> nodes c !! i = Some n -> good cfg i n n' ->
  core (mkCluster (<[i := n']> (nodes c)) inc (net c)) tks' g.
Proof.
  intros HC Hp Hi Hg; apply (core_perm _ _ (tks' ++ R)) in HC as [[Hs _]%Forall_app HI Hk Ht]; [|done].
  assert (allHeld (tks' ++ R) = allHeld tks' ++ allHeld R) as Ea by apply bind_app; rewrite Ea in HI, Hk.
  assert ((allHeld tks' ++ allHeld R) ++ net c ≡ₚ (allHeld tks' ++ net c) ++ allHeld R) as Hpm by (rewrite <- !app_assoc; by rewrite (Permutation_app_comm (allHeld R))).
  assert (voteKeys (allHeld tks' ++ net c) ⊆+ voteKeys ((allHeld tks' ++ allHeld R) ++ net c)) as Hkeys.
  { etransitivity; [|apply Permutation_submseteq; unfold voteKeys; by rewrite Hpm]; fold (voteKeys ((allHeld tks' ++ net c) ++ allHeld R)).
    rewrite (voteKeys_app _ (allHeld R)); by apply submseteq_inserts_r. }
  split; [done| | |].
  - eapply inv_quiet; [exact HI|done|done| |exact Hkeys|].
    + pose proof (co_net _ _ _ (proj1 HI)) as Hok; rewrite Hpm in Hok; by apply Forall_app in Hok as [? _].
    + intros a x v t m resp Hin _ _; left; rewrite Hpm; apply elem_of_app; by left.
  - intros th k m Hin Hm; assert (forall x, x ∈ voteKeys (allHeld tks' ++ net c) -> x ∈ voteKeys ((allHeld tks' ++ allHeld R) ++ net c)) as Hsub
      by (intros x Hx; by eapply elem_of_submseteq).
    assert ((th, k) ∈ tks' ++ R) as Hin' by (apply elem_of_app; by left).
    cbn [nodes] in Hm; rewrite lookup_insert in Hm; case_decide as E; [|eapply known_keys; [exact Hsub|by apply Hk]].
    injection Hm as <-; eapply (known_stable g g _ _ _ _ _ n); [done|intros _ t p; apply Hsub|apply Hg| |apply Hk; [done|by rewrite <- E]].
    intros _; apply quiet_role, Hg.
  - unfold timers in *; rewrite omap_app in Ht; by apply NoDup_app in Ht as [? _].
Qed.

(** ** Runs without the gap *)

(** No node has stood for election in this step while another of its threads is
    about to take office. *)
Definition gapFree f f' : bool :=
  forallb (fun th =>
    match nodes (cluster f) !! th_node th, nodes (cluster f') !! th_node th with
    | Some n, Some n' => (nodeTerm n' =? nodeTerm n) || negb (bool_decide (role_ n' = Candidate)) || negb (takesOffice (th_prog th) n')
    | _, _ => true
    end) (threads f').

(** Vote requests are not duplicated. *)
Definition votesOnce f (ev : TEvent) : bool :=
  match ev with TDuplicate k => match net (cluster f) !! k with Some p => bool_decide (voteKey p = None) | None => true end | _ => true end.

Inductive orderly_step f f' : Prop :=
| orderly_event ev : tadmissible f ev -> votesOnce f ev = true -> texec cfg freshSm f ev = Some f' -> gapFree f f' = true -> orderly_step f f'.

Definition einv f g : Prop := exists tks, threads f = tks.*1 /\ core (cluster f) tks g.

Lemma delete_fmap {A B} (h : A -> B) (l : list A) j : h <$> delete j l = delete j (h <$> l).
Proof. revert j; induction l as [|x l IH]; intros [|j]; simpl; [done..|]; f_equal; apply IH. Qed.

Lemma filter_fmap_list {A B} (h : A -> B) (P : B -> Prop) `{!forall x, Decision (P x)} (l : list A) :
  filter P (h <$> l) = h <$> filter (fun x => P (h x)) l.
Proof. induction l as [|x l IH]; [done|]; rewrite fmap_cons, !filter_cons; case_decide; by rewrite IH. Qed.

Lemma insert_delete_perm {A} (l : list A) j x y : l !! j = Some x -> <[j := y]> l ≡ₚ y :: delete j l.
Proof.
  revert j; induction l as [|z l IH]; intros [|j]; simpl; intros E; try done.
  etransitivity; [apply perm_skip, (IH j E)|apply perm_swap].
Qed.

Lemma stepThread_einv j f f' g :
  map_Forall (fun _ n => nodeTerm n + 1 < U64) (nodes (cluster f)) -> gapFree f f' = true ->
  einv f g -> stepThread j f = Some f' -> exists g', g ⊆ g' /\ einv f' g'.
Proof.
  intros Hb Hgap (tks & Etk & HC); unfold stepThread; intros (th & Hj & Hx)%bind_Some_inv.
  apply bind_Some_inv in Hx as (n & Hi & Hx); rewrite Etk, list_lookup_fmap in Hj.
  destruct (tks !! j) as [[th0 k]|] eqn:Ej; [|done]; injection Hj as ->.
  pose proof (delete_Permutation _ _ _ Ej) as Hpm; apply (core_perm _ _ _ _ HC) in Hpm as HC'.
  pose proof (Forall_inv (cr_safe _ _ _ HC')) as Hs; simpl in Hs.
  assert (forall th' k', <[j := th']> (threads f) = (<[j := (th', k')]> tks).*1) as Hins.
  { intros th' k'; by rewrite Etk, list_fmap_insert. }
  destruct (th_prog th) as [ps|B sect kont|s p'] eqn:Ep; simpl in Hx.
  - injection Hx as <-; exists g; split; [done|]; exists (delete j tks); split; [simpl; by rewrite delete_fmap, Etk|].
    by apply (core_return _ th k ps).
  - destruct (sect n) as [[n' b]|] eqn:Es; [|done]; injection Hx as <-; destruct Hs as [Hr Hs].
    pose proof (cr_known _ _ _ HC' th k n ltac:(by left) Hi) as Hkn.
    specialize (Hs n (co_nodes _ _ _ (proj1 (cr_inv _ _ _ HC)) _ _ Hi) (known_local _ _ _ _ _ _ Hkn)); rewrite Es in Hs; destruct Hs as (k' & Hm & Hk').
    destruct (core_section (cluster f) th k (mkThread (th_node th) (th_timer th) (kont b)) k' (delete j tks) g n n') as (g' & Hsub & HC1);
      try done; [by apply (Hb _ _ Hi)| |].
    + intros Hc Hne' th2 k2 Hin E2; unfold gapFree in Hgap; rewrite forallb_forall in Hgap.
      specialize (Hgap th2); cbn [cluster threads nodes update] in Hgap; rewrite E2, Hi, lookup_insert_eq in Hgap.
      rewrite (proj2 (N.eqb_neq _ _) Hne'), bool_decide_eq_true_2 in Hgap by done; simpl in Hgap; apply negb_true_iff, Hgap.
      apply list_elem_of_In; rewrite (Hins _ k').
      apply list_elem_of_fmap; exists (th2, k2); split; [done|]; rewrite (insert_delete_perm _ _ _ _ Ej); by right.
    + exists g'; split; [done|]; exists (<[j := (mkThread (th_node th) (th_timer th) (kont b), k')]> tks); split; [apply Hins|].
      eapply core_perm; [|symmetry; by eapply insert_delete_perm]; simpl; by rewrite app_nil_r.
  - injection Hx as <-; destruct Hs as (Hr & k' & Hem & Hk'); exists g; split; [done|].
    exists (<[j := (mkThread (th_node th) (th_timer th) p', k')]> tks); split; [apply Hins|].
    eapply core_perm; [|symmetry; by eapply insert_delete_perm]; unfold update; rewrite insert_id by done.
    by apply (core_emit _ th _ k).
Qed.
Lemma timerIdle_free i f tks : threads f = tks.*1 -> timerIdle i f = true -> i ∉ timers tks.
Proof.
  intros E; unfold timerIdle; rewrite E, forallb_forall; intros Hf Hin; unfold timers in Hin.
  apply list_elem_of_omap in Hin as ([th k] & Hin & Hx); simpl in Hx; destruct (th_timer th) eqn:Et; [injection Hx as <-|done].
  specialize (Hf th ltac:(apply list_elem_of_In, list_elem_of_fmap; by exists (th, k))); by rewrite Et, N.eqb_refl in Hf.
Qed.

Lemma spawn_einv f g i timer p :
  einv f g -> ksafe cfg i timer (final cfg) Idle p -> (timer = true -> timerIdle i f = true) -> einv (spawn i timer p f) g.
Proof.
  intros (tks & E & HC) Hp Ht; exists (tks ++ [(mkThread i timer p, Idle)]); split; [simpl; by rewrite E, fmap_app|].
  eapply core_perm; [apply (core_spawn _ _ _ i timer p HC Hp)|by rewrite <- Permutation_cons_append].
  intros E2; eapply timerIdle_free; [exact E|by apply Ht].
Qed.

Lemma drop_einv f g (k : nat) p : einv f g -> net (cluster f) !! k = Some p -> einv (set_net (delete k (net (cluster f))) f) g.
Proof.
  intros (tks & E & HC) Hk; exists tks; split; [done|]; pose proof (delete_Permutation _ _ _ Hk) as Hpm; simpl; set (rest := delete k _) in *; clearbody rest.
  pose proof (co_net _ _ _ (proj1 (cr_inv _ _ _ HC))) as [Hh Hn]%Forall_app; rewrite Hpm in Hn; apply Forall_cons in Hn as [_ Hn].
  apply (core_net (cluster f) tks); [done|apply HC|intros th x Hin; left; by exists th|apply HC|by apply Forall_app| |].
  - rewrite !voteKeys_app; apply submseteq_app; [done|]; assert (voteKeys (net (cluster f)) ≡ₚ voteKeys (p :: rest)) as -> by (unfold voteKeys; by rewrite Hpm).
    unfold voteKeys; simpl; destruct (voteKey p); [by apply submseteq_cons|done].
  - intros a inc v t m resp; rewrite !elem_of_app, Hpm, elem_of_cons; tauto.
Qed.

Lemma duplicate_einv f g p : einv f g -> p ∈ net (cluster f) -> voteKey p = None -> einv (set_net (net (cluster f) ++ [p]) f) g.
Proof.
  intros (tks & E & HC) Hin Hv; exists tks; split; [done|]; pose proof (co_net _ _ _ (proj1 (cr_inv _ _ _ HC))) as [Hh Hn]%Forall_app.
  apply (core_net (cluster f) tks); [done|apply HC|intros th x Hx; left; by exists th|apply HC| | |].
  - rewrite !Forall_app; split_and!; [done|done|]; constructor; [|done]; exact (proj1 (Forall_forall _ _) Hn p Hin).
  - rewrite app_assoc, (voteKeys_app _ [p]); unfold voteKeys at 2; simpl; by rewrite Hv, app_nil_r.
  - intros a inc v t m resp; rewrite !elem_of_app, list_elem_of_singleton; intros [?|[?| ->]] _ _; left; tauto.
Qed.

Lemma deliver_einv f f' g (k : nat) : einv f g -> texec cfg freshSm f (TDeliver k) = Some f' -> einv f' g.
Proof.
  intros HE (p & Hk & Hx)%bind_Some_inv; cbv zeta in Hx; destruct (recipient (cluster (set_net (delete k (net (cluster f))) f)) p) as [i|] eqn:Hr; injection Hx as <-; [|by eapply drop_einv].
  destruct HE as (tks & E & HC); exists (tks ++ [(mkThread i false (reaction p), tokenOf p)]); split; [simpl; by rewrite E, fmap_app|].
  eapply core_perm; [apply (core_deliver _ _ _ k p i HC Hk)|by rewrite <- Permutation_cons_append]; destruct p; exact Hr.
Qed.

Lemma orderly_einv f f' g : einv f g -> orderly_step f f' -> exists g', g ⊆ g' /\ einv f' g'.
Proof.
  intros HE [ev [Hb Ha] Hv Hx Hgap].
  assert (forall A i timer (p : Prog (RaftNode S) Send A) Q, calm cfg i Q p -> ksafe cfg i timer (final cfg) Idle (_ ← p; mret [])) as Hcalm.
  { intros A i timer p Q Hp; eapply (ksafe_silent _ _ _ (fun k' _ => k' = Idle)); [by eapply ksafe_quiet|by intros k' a ->]. }
  destruct ev as [i now|i now|k|j|k|k|i b|i|i x a|i x|i rng now]; try done;
    [| |exists g; split; [done|by eapply deliver_einv]|by eapply stepThread_einv|..]; cbn [texec] in Hx; apply bind_Some_inv in Hx as (n & Hi & Hx);
    try (exists g; split; [done|]).
  - injection Hx as <-; destruct HE as (tks & E & HC); exists tks; split; [done|].
    apply (core_node _ tks tks [] g i n); [done|by rewrite app_nil_r|done|]; apply set_now_good, (co_nodes _ _ _ (proj1 (cr_inv _ _ _ HC)) _ _ Hi).
  - destruct (running_ n && timerIdle i f) eqn:Er; [injection Hx as <-|done]; apply andb_true_iff in Er as [_ Er]; apply spawn_einv; [done| |done].
    apply (ksafe_silent cfg i true (fun k' _ => after_election k') Idle (runLoopRound_p now)); [by apply runLoopRound_ksafe|by intros k' a [-> | ->]].
  - injection Hx as <-; by eapply drop_einv.
  - destruct n as [src inc s| | |]; [|done..]; injection Hx as <-; apply duplicate_einv; [done|by eapply list_elem_of_lookup_2|].
    unfold votesOnce in Hv; rewrite Hi in Hv; by apply bool_decide_eq_true in Hv.
  - injection Hx as <-; apply spawn_einv; [done| |done]; by apply (Hcalm _ i false (propose_p b Command) anything), propose_calm.
  - injection Hx as <-; apply spawn_einv; [done| |done]; apply (Hcalm _ i false forceSnapshot_p anything), forceSnapshot_calm.
  - apply bind_Some_inv in Hx as (n' & Hr%of_outcome_Some & [= <-]); destruct HE as (tks & E & HC).
    exists (filter (fun p => th_node p.1 <> i) tks); split.
    { cbn [threads]; rewrite E; exact (filter_fmap_list fst (fun th => th_node th <> i) tks). }
    apply (core_node _ tks _ (filter (fun p => ~ (th_node p.1 <> i)) tks) g i n); [done|by rewrite filter_app_complement|done|].
    by eapply (restart_good cfg i), Hr; apply (co_nodes _ _ _ (proj1 (cr_inv _ _ _ HC)) _ _ Hi).
Qed.

Lemma orderly_steps_einv f f' g : rtc orderly_step f f' -> einv f g -> exists g', g ⊆ g' /\ einv f' g'.
Proof.
  intros Hs; revert g; induction Hs as [f|f1 f2 f3 H12 _ IH]; intros g HE; [by exists g|].
  destruct (orderly_einv _ _ _ HE H12) as (g1 & H1 & HE1); destruct (IH _ HE1) as (g2 & H2 & HE2).
  exists g2; split; [by etransitivity|done].
Qed.

Lemma freshThreads_einv os : Forall (fun o => 0 < id o < U32) os -> einv (freshThreads cfg freshSm os) ∅.
Proof.
  intros Hos; exists []; split; [done|]; split; [constructor|by apply freshCluster_inv| |constructor].
  intros th k n Hin; by apply elem_of_nil in Hin.
Qed.

Lemma einv_Inv f g : einv f g -> exists net, Inv cfg (nodes (cluster f)) net g.
Proof. intros (tks & _ & HC); eexists; apply HC. Qed.

(** A schedule of such steps. *)
Fixpoint run_orderly (evs : list TEvent) f : option Threads :=
  match evs with
  | [] => Some f
  | ev :: evs' => f' ← run_threads cfg freshSm [ev] f; if votesOnce f ev && gapFree f f' then run_orderly evs' f' else None
  end.

Lemma run_orderly_steps evs f f' : run_orderly evs f = Some f' -> rtc orderly_step f f'.
Proof.
  revert f; induction evs as [|ev evs IH]; intros f; cbn [run_orderly]; [by intros [= <-]|].
  intros (f1 & H1 & H2)%bind_Some_inv; destruct (votesOnce f ev && gapFree f f1) eqn:E; [|done]; apply andb_true_iff in E as [E1 E2].
  cbn [run_threads] in H1; case_decide as Ha; [|done]; apply bind_Some_inv in H1 as (f2 & H1 & [= <-]).
  eapply rtc_l; [by econstructor|by apply IH].
Qed.
End groups.

(** ** The theorem *)
Section theorems.
Context {S : Type} `{StateMachine S}.

(** C7: election safety under interleaving. In a group that starts from empty
    directories and whose membership is fixed, the methods of the nodes run as
    threads that interleave wherever the code releases its mutex; messages are
    delayed, reordered, lost and (vote requests apart) duplicated, nodes crash and
    restart. As long as no node stands for a new election while one of its threads
    has counted a majority and is about to take office, no two nodes ever lead the
    same term, at the same or at different times. *)
Theorem interleaved_election_safety (cfg : ClusterConfig) (freshSm : S) (os : list RaftOptions)
    (f1 f2 : Threads) (i j : NodeId) (n1 n2 : RaftNode S)
    (Hnd : NoDup (voters cfg)) (Hne : voters cfg <> []) (Hos : Forall (fun o => 0 < id o < U32) os)
    (Hr1 : rtc (orderly_step cfg freshSm) (freshThreads cfg freshSm os) f1) (Hr2 : rtc (orderly_step cfg freshSm) f1 f2)
    (Hi : nodes (cluster f1) !! i = Some n1) (Hj : nodes (cluster f2) !! j = Some n2)
    (Hl1 : role_ n1 = Leader) (Hl2 : role_ n2 = Leader) (Ht : nodeTerm n1 = nodeTerm n2) :
  i = j.
Proof.
  destruct (orderly_steps_einv cfg freshSm Hnd Hne _ _ _ Hr1 (freshThreads_einv cfg freshSm os Hos)) as (g1 & _ & HE1).
  destruct (orderly_steps_einv cfg freshSm Hnd Hne _ _ _ Hr2 HE1) as (g2 & Hsub & HE2).
  destruct (einv_Inv _ _ _ HE1) as [net1 HI1], (einv_Inv _ _ _ HE2) as [net2 HI2].
  exact (leaders_meet cfg Hnd Hne _ _ _ _ _ _ i j n1 n2 HI1 HI2 Hsub Hi Hj Hl1 Hl2 Ht).
Qed.
End theorems.

(** Node 1 stands; nodes 2 and 3 handle its requests section by section in turn, both
    answers are counted before the first callback takes office, and the second one
    finds a leader. *)
Definition two_votes : list TEvent :=
  tickFor 1 1000 0 8 ++ [TDeliver 0; TDeliver 0; TStep 0; TStep 1; TStep 0; TStep 1; TStep 0; TStep 1; TStep 0; TStep 0;
    TDeliver 0; TDeliver 0; TStep 0; TStep 1; TStep 0].

Definition leaderAt (i : NodeId) (f : Threads (S := KvStore)) : option (Role * Term) :=
  n ← nodes (cluster f) !! i; Some (role_ n, nodeTerm n).

Lemma interleaved_election_safety_witness :
  exists (f1 f2 : Threads (S := KvStore)), leaderAt 1 f1 = Some (Leader, 1) /\ leaderAt 1 f2 = Some (Leader, 1) /\
    forall j n2, nodes (cluster f2) !! j = Some n2 -> role_ n2 = Leader -> nodeTerm n2 = 1 -> 1 = j.
Proof.
  destruct (replayed (fun p => (leaderAt 1 p.1, leaderAt 1 p.2))
    (f1 ← run_orderly sample_cfg KvStore_init two_votes (freshThreads sample_cfg KvStore_init (sample_opts <$> [1; 2; 3]));
     f2 ← run_orderly sample_cfg KvStore_init [TStep 1; TStep 1] f1; Some (f1, f2))
    (Some (Leader, 1), Some (Leader, 1))) as ([f1 f2] & Hf & Hv); [vm_compute; reflexivity|].
  apply bind_Some_inv in Hf as (g1 & H1%run_orderly_steps & Hf).
  apply bind_Some_inv in Hf as (g2 & H2%run_orderly_steps & Hf); injection Hf as -> ->; cbn [fst snd] in Hv.
  rewrite pair_eq in Hv; destruct Hv as [Hv1 Hv2]; exists f1, f2; split; [done|split; [done|]].
  apply bind_Some_inv in Hv1 as (n1 & Hn1 & [= E1 E2]); intros j n2 Hj Hl Ht.
  apply (interleaved_election_safety sample_cfg KvStore_init (sample_opts <$> [1; 2; 3]) f1 f2 1 j n1 n2 sample_voters_nodup ltac:(discriminate) sample_ids H1 H2 Hn1 Hj E1 Hl).
  by rewrite E2, Ht.
Defined.
