(* ===== verification/RaftTyped.v ===== *)
(** * Every message fits its wire format

    However the methods of the nodes interleave, the indices a node keeps and the
    messages it sends are within the C++ types of their fields, so what
    [rpc/messages.h] writes on the wire is read back as it was: the messages of the
    group model are the messages of the transport. *)
From stdpp Require Import base tactics list gmap numbers strings sorting relations.
From Stdlib Require Import Ascii NArith Lia.
From S2P Require Import Prelude.
From S2P Require Import Buffer.
From S2P Require Import Types.
From S2P Require Import RpcMessages.
From S2P Require Import PersistentLog.
From S2P Require Import StateMachine.
From S2P Require Import KvStore.
From S2P Require Import RaftNode.
From S2P Require Import RaftNodeFacts.
From S2P Require Import RaftCommit.
From S2P Require Import RaftHandlers.
From S2P Require Import Cluster.
From S2P Require Import RaftInvariant.
From S2P Require Import ElectionSafety.
From S2P Require Import Sections.
From S2P Require Import RaftSections.
From S2P Require Import RaftThreads.
From S2P Require Import RaftThreadsSafety.

Local Open Scope N_scope.

(** ** Bounds of the log's operations *)
Lemma sub64_bound a b : sub64 a b < U64.
Proof. apply u64_bound. Qed.

Lemma log_ok_lastTerm l : log_ok l -> lastTerm l < U64.
Proof.
  intros Hl; unfold lastTerm; destruct (last (entries_ l)) eqn:E; [|apply Hl].
  rewrite last_lookup in E; by apply (entry_at_valid _ _ _ Hl) in E as [].
Qed.

Lemma collect_length m out rest : 0 < m -> nlen out < m -> nlen (collect m out rest) <= m.
Proof.
  intros Hm; revert out; induction rest as [|e rest IH]; intros out Ho; simpl; [lia|].
  destruct (negb (m =? 0) && (m <=? nlen (out ++ [e]))) eqn:E; rewrite nlen_snoc in *; [lia|apply IH].
  apply andb_false_iff in E as [E|E]; [apply negb_false_iff, N.eqb_eq in E; lia|apply N.leb_gt in E; rewrite nlen_snoc; lia].
Qed.

Lemma entriesAfter_length idx l : nlen (entriesAfter idx 200 l) <= 200.
Proof.
  unfold entriesAfter; destruct (_ <? _); [rewrite nlen_nil; lia|]; cbv zeta; destruct (_ <=? _); [rewrite nlen_nil; lia|].
  apply collect_length; rewrite ?nlen_nil; lia.
Qed.

Lemma conflictStart_bound fuel t ci l : ci < U64 -> conflictStart fuel t ci l < U64.
Proof.
  revert ci; induction fuel as [|fuel IH]; intros ci Hc; simpl; [done|].
  destruct (_ && _); [apply IH, sub64_bound|done].
Qed.

Lemma checkPrev_valid req l resp :
  log_ok l -> ae_prevLogIndex req < U64 -> checkPrev req l = Some resp -> AppendEntriesResp_valid resp.
Proof.
  intros Hl Hp; unfold checkPrev; destruct (_ <? _); [|done]; cbv zeta.
  pose proof (log_ok_termAt (ae_prevLogIndex req) l Hl) as Ht; set (ci := conflictStart _ _ _ _).
  assert (ci < U64) as Hci by (by apply conflictStart_bound); clearbody ci; destruct (_ && _).
  - intros [= <-]; split_and!; [apply Hl|apply add64_bound|done|by apply log_ok_lastIndex].
  - destruct (_ && _); [|done]; intros [= <-]; split_and!; [apply Hl|done|done|done].
Qed.

(** ** Messages *)

(** [Writer::putBytes] writes the length of a snapshot in 32 bits: the one limit
    that no other field implies. *)
Definition send_valid (s : Send) : Prop :=
  match s with
  | SendRequestVote _ req _ _ => RequestVoteReq_valid req
  | SendAppendEntries _ req _ => AppendEntriesReq_valid req /\ nlen (ae_entries req) <= 200
  | SendInstallSnapshot _ req idx => (nlen (is_data req) < U32 -> InstallSnapshotReq_valid req) /\ idx < U64
  end.

Definition packet_valid (p : Packet) : Prop :=
  match p with
  | Request _ _ s => send_valid s
  | VoteReply _ _ _ _ _ resp => RequestVoteResp_valid resp
  | AppendReply _ _ _ _ resp => AppendEntriesResp_valid resp
  | SnapshotReply _ _ _ idx resp => InstallSnapshotResp_valid resp /\ idx < U64
  end.

(** ** The indices of a node *)
Section nodes.
Context {S : Type} `{StateMachine S}.
Context (cfg : ClusterConfig) (i : NodeId).
Implicit Types n : RaftNode S.

Record counters_ok n : Prop := {
  ct_commit : commitIndex_ n < U64;
  ct_next : map_Forall (fun _ x => x < U64) (nextIndex_ n);
  ct_match : map_Forall (fun _ x => x < U64) (matchIndex_ n)
}.

(** A program that keeps the indices and sends valid messages, on nodes that are
    good. *)
Definition typed {A} (Q : A -> Prop) (p : Prog (RaftNode S) Send A) : Prop :=
  safe (node_ok cfg i) counters_ok (fun _ _ => True) send_valid Q p.

Lemma typed_bind {A B} (P : A -> Prop) (Q : B -> Prop) p (g : A -> Prog (RaftNode S) Send B) :
  typed P p -> (forall a, P a -> typed Q (g a)) -> typed Q (p ≫= g).
Proof. apply safe_bind. Qed.

(** Sections that leave the three fields as they are. *)
Lemma counters_same n n' :
  commitIndex_ n' = commitIndex_ n -> nextIndex_ n' = nextIndex_ n -> matchIndex_ n' = matchIndex_ n -> counters_ok n -> counters_ok n'.
Proof. intros E1 E2 E3 [Hc Hx Hm]; split; by rewrite ?E1, ?E2, ?E3. Qed.

Lemma typed_modify f :
  (forall n, node_ok cfg i n -> counters_ok n -> counters_ok (f n)) -> typed anything (modify f).
Proof. intros Hf; apply safe_modify; auto. Qed.

Lemma typed_atomically {A} (Q : A -> Prop) f :
  (forall n n' a, node_ok cfg i n -> counters_ok n -> f n = Ok (n', a) -> counters_ok n' /\ Q a) -> typed Q (atomically f).
Proof. intros Hf; apply safe_atomically; intros n n' a Hj Hn Hx; destruct (Hf n n' a Hj Hn Hx); done. Qed.

Lemma typed_get {A} (Q : A -> Prop) f : (forall n, node_ok cfg i n -> counters_ok n -> Q (f n)) -> typed Q (get f).
Proof. intros Hf n Hj Hn; simpl; auto. Qed.

Lemma becomeFollower_typed term leader : typed anything (becomeFollower_p term leader).
Proof.
  apply typed_modify; intros n _; apply counters_same; unfold becomeFollower; by destruct (_ <? _).
Qed.

Lemma applyEntry_typed e : e_type e <> Config -> typed anything (applyEntry_p e).
Proof.
  intros He; apply (typed_bind anything).
  - destruct (e_type e); try done; apply typed_atomically; intros n n' a _ Hn Hx; inv_ok; simplify_eq; by split; [destruct Hn|].
  - intros r _; apply typed_modify; intros n _; by apply counters_same.
Qed.

Lemma applyCommittedEntries_typed : typed anything applyCommittedEntries_p.
Proof.
  apply (typed_bind (Forall (fun e => e_type e <> Config))).
  - apply typed_atomically; intros n n' es Hj Hn Hx; destruct (takeCommitted _ _ _) as [es' m] eqn:E; inv_ok; simplify_eq.
    apply takeCommitted_spec in E as (_ & _ & _ & E1 & _ & E2 & E3 & new & -> & Hnew).
    split; [by apply (counters_same n)|]; pose proof (lo_noconfig _ (no_log _ _ _ Hj)) as Hc; rewrite Forall_forall in Hc.
    eapply Forall_impl; [exact Hnew|]; auto.
  - intros es Hes; apply safe_forEach; intros e He; rewrite Forall_forall in Hes; by apply applyEntry_typed, Hes.
Qed.

Lemma commitCandidate_bound n c : node_ok cfg i n -> counters_ok n -> commitCandidate n = Some c -> c < U64.
Proof.
  intros Hj Hn; unfold commitCandidate; cbv zeta; destruct (_ <=? _); [done|]; intros Hc%list_elem_of_lookup_2.
  unfold sort_desc in Hc; rewrite merge_sort_Permutation in Hc; apply elem_of_cons in Hc as [->|Hc].
  - apply log_ok_lastIndex, Hj.
  - apply list_elem_of_fmap in Hc as ([k v] & -> & [_ Hin]%list_elem_of_filter); apply elem_of_map_to_list in Hin.
    apply (ct_match _ Hn _ _ Hin).
Qed.

Lemma tryAdvance_typed : typed anything tryAdvanceCommitIndex_p.
Proof.
  apply (typed_bind anything); [|intros [] _; [apply applyCommittedEntries_typed|done]].
  apply typed_atomically; intros n n' b Hj Hn Hx; split; [|done]; case_decide; [|inv_ok; by simplify_eq].
  destruct (commitCandidate n) as [c|] eqn:Hc; [|inv_ok; by simplify_eq].
  destruct (_ && _); inv_ok; simplify_eq; [|done]; destruct Hn; split; [by eapply commitCandidate_bound|done|done].
Qed.

Lemma propose_typed b t : typed anything (propose_p b t).
Proof.
  apply (typed_bind anything).
  - apply typed_atomically; intros n n' r _ Hn Hx; split; [|done]; case_decide; [|inv_ok; by simplify_eq].
    cbv zeta in Hx; set (l := appendAndSync _ _) in Hx; clearbody l; inv_ok; simplify_eq; by destruct Hn.
  - intros [[] r] _; [|done]; apply (typed_bind anything); [apply tryAdvance_typed|done].
Qed.

(** ** Replication *)
Lemma emit_typed ss : Forall send_valid ss -> typed anything (emit ss).
Proof. apply safe_emit. Qed.

Lemma sendAppendEntriesTo_typed peer : typed anything (sendAppendEntriesTo_p peer).
Proof.
  apply (typed_bind (Forall send_valid)); [|intros ss; apply emit_typed].
  apply typed_get; intros n Hj Hn; unfold sendAppendEntriesTo; case_decide; [|done]; cbv zeta.
  pose proof Hj as [Hid Hrg _ Hl _]; constructor; [|done].
  pose proof (entriesAfter_length (sub64 (nextIndexOf peer n) 1) (log_ n)) as H200; split; [|exact H200].
  split_and!; cbn; [apply Hl|lia|apply sub64_bound|by apply log_ok_termAt|lia| |apply Hn].
  eapply Forall_impl; [by apply log_ok_entriesAfter|]; by intros e [].
Qed.

Lemma sendInstallSnapshotTo_typed peer : typed anything (sendInstallSnapshotTo_p peer).
Proof.
  apply (typed_bind (fun h => match h with Some (t, me, idx, st) => t < U64 /\ me < U32 /\ idx < U64 /\ st < U64 | None => True end)).
  - apply typed_get; intros n Hj Hn; case_decide; [|done]; destruct Hj as [Hid Hrg _ Hl _]; split_and!; [apply Hl|lia|apply Hl|apply Hl].
  - intros [[[[t me] idx] st]|] Hh; [|done]; apply (typed_bind anything); [by apply typed_get|]; intros s _.
    apply (typed_bind anything); [destruct s; [done|by apply typed_get]|]; intros b _.
    apply emit_typed; constructor; [|done]; destruct Hh as (? & ? & ? & ?); split; [|done]; intros Hb; by split_and!.
Qed.

Lemma broadcast_typed : typed anything broadcastAppendEntries_p.
Proof.
  apply (typed_bind anything); [by apply typed_get|]; intros [[me vs]|] _; [|done].
  apply safe_forEach; intros peer _; destruct (_ =? _); [done|].
  apply (typed_bind anything); [by apply typed_get|]; intros ni _.
  apply (typed_bind anything); [by apply typed_get|]; intros si _.
  destruct (_ <=? _); [apply sendInstallSnapshotTo_typed|apply sendAppendEntriesTo_typed].
Qed.

(** ** Elections *)
Lemma reset_peers_counters vs last n : counters_ok n ->
  counters_ok (fold_left (fun n v => set_matchIndex (<[v := 0]> (matchIndex_ n))
    (set_nextIndex (<[v := add64 last 1]> (nextIndex_ n)) n)) vs n).
Proof.
  revert n; induction vs as [|v vs IH]; intros n Hn; [done|]; simpl; apply IH; destruct Hn; split; [done|..]; simpl;
    apply map_Forall_insert_2; [apply add64_bound|done|done|done].
Qed.

Lemma becomeLeader_typed : typed anything becomeLeader_p.
Proof.
  apply (typed_bind anything).
  - apply typed_atomically; intros n n' b _ Hn Hx; split; [|done]; case_decide; inv_ok; simplify_eq; [|done].
    apply reset_peers_counters; destruct Hn; split; [done|apply map_Forall_empty..].
  - intros [] _; [|done]; apply (typed_bind anything); [apply propose_typed|]; intros _ _.
    apply (typed_bind anything); [apply tryAdvance_typed|]; intros _ _; apply broadcast_typed.
Qed.

Lemma becomeCandidate_typed : typed anything becomeCandidate_p.
Proof.
  apply (typed_bind (fun c => cd_term c < U64 /\ cd_me c < U32 /\ cd_lastIdx c < U64 /\ cd_lastTerm c < U64)).
  - apply typed_atomically; intros n n' c Hj Hn Hx; pose proof Hj as [Hid Hrg _ Hl _].
    assert (n' = (stand n).1 /\ c = (stand n).2) as [-> ->].
    { change (Ok (stand n) = Ok (n', c)) in Hx; destruct (stand n); by simplify_eq. }
    split; [by destruct Hn; split|]; unfold stand; cbn [snd cd_term cd_me cd_lastIdx cd_lastTerm].
    split_and!; [apply add64_bound|lia|exact (log_ok_lastIndex _ Hl)|exact (log_ok_lastTerm _ Hl)].
  - intros c (Ht & Hm & Hi & Hlt); unfold canvass_p; destruct (_ && _); [done|].
    apply (typed_bind anything); [apply typed_modify; intros n _ Hn; by destruct Hn|intros _ _].
    cbv zeta; destruct (nlen (voters (cd_cfg c)) / 2 + 1 <=? 1); [apply becomeLeader_typed|apply emit_typed, Forall_forall].
    intros s Hs; apply list_elem_of_In, in_flat_map in Hs as (p & _ & Hs); destruct (p =? _); [done|].
    destruct Hs as [<-|[]]; by split_and!.
Qed.

(** ** The callbacks *)
Lemma onAppendEntriesResp_typed peer term resp :
  AppendEntriesResp_valid resp -> typed anything (onAppendEntriesResp_p peer term true resp).
Proof.
  intros (Ht & Hm & Hc & _); apply (typed_bind anything).
  - apply typed_atomically; intros n n' t _ Hn Hx; split; [|done]; destruct (_ <? _); inv_ok; [by simplify_eq|].
    destruct (_ || _); inv_ok; [by simplify_eq|]; destruct Hn.
    destruct (aer_success resp); cbv zeta in Hx; inv_ok; simplify_eq; split; try done; simpl; apply map_Forall_insert_2; try done;
      [apply add64_bound|destruct (0 <? _); lia].
  - intros [|t| |] _; [done|apply becomeFollower_typed|done|apply tryAdvance_typed].
Qed.

Lemma onInstallSnapshotResp_typed peer idx resp : idx < U64 -> typed anything (onInstallSnapshotResp_p peer idx true resp).
Proof.
  intros Hi; apply (typed_bind anything).
  - apply typed_atomically; intros n n' t _ Hn Hx; split; [|done]; cbv zeta in Hx; destruct (_ <? _); inv_ok; simplify_eq; [done|].
    destruct Hn; split; [done|..]; simpl; apply map_Forall_insert_2; try done; apply add64_bound.
  - intros [|t| |] _; [done|apply becomeFollower_typed|done|done].
Qed.

Lemma onRequestVoteResp_typed t m resp : typed anything (onRequestVoteResp_p t m true resp).
Proof.
  apply (typed_bind anything).
  - apply typed_atomically; intros n n' x _ Hn Hx; split; [|done]; cbv zeta in Hx; destruct (_ || _); inv_ok; [by simplify_eq|].
    destruct (_ <? _); inv_ok; [by simplify_eq|]; destruct (rvr_voteGranted resp); inv_ok; simplify_eq; by destruct Hn.
  - intros [|x| |] _; [done|apply becomeFollower_typed|apply becomeLeader_typed|done].
Qed.

(** ** The handlers *)
Lemma castVote_typed req n : node_ok cfg i n -> counters_ok n -> counters_ok (castVote req n).1 /\ RequestVoteResp_valid (castVote req n).2.
Proof.
  intros Hj Hn; unfold castVote, RequestVoteResp_valid; pose proof (no_log _ _ _ Hj) as Hl.
  destruct (_ && _); (split; [by destruct Hn|apply Hl]).
Qed.

Lemma handleRequestVote_typed req : typed RequestVoteResp_valid (handleRequestVote_p req).
Proof.
  apply (typed_bind (fun r => match r with Some r => RequestVoteResp_valid r | None => True end)).
  - apply typed_atomically; intros n n' r Hj Hn Hx; destruct (_ <? _); inv_ok; [simplify_eq; split; [done|apply Hj]|].
    destruct (_ <? _); inv_ok; [by simplify_eq|].
    destruct (castVote_typed req n Hj Hn) as [Hg Hr]; destruct (castVote req n) as [m resp]; inv_ok; by simplify_eq.
  - intros [r|] Hr; [done|]; apply (typed_bind anything); [apply becomeFollower_typed|]; intros _ _.
    apply typed_atomically; intros n n' r Hj Hn Hx; destruct (castVote_typed req n Hj Hn) as [Hg Hr'].
    destruct (castVote req n) as [m resp]; inv_ok; by simplify_eq.
Qed.

Lemma storeEntries_typed req n :
  node_ok cfg i n -> counters_ok n -> AppendEntriesReq_valid req ->
  counters_ok (storeEntries req n).1 /\
  match (storeEntries req n).2 with inl r => AppendEntriesResp_valid r | inr newLast => newLast < U64 end.
Proof.
  intros Hj Hn (_ & _ & Hp & _ & _ & He & Hc); unfold storeEntries; set (m := set_leaderId _ _).
  assert (counters_ok m /\ log_ m = log_ n) as [Hm Hl] by (by destruct Hn); clearbody m.
  destruct (checkPrev req (log_ m)) as [r|] eqn:Ec; cbn [fst snd].
  - split; [done|]; eapply checkPrev_valid; [|exact Hp|exact Ec]; rewrite Hl; apply Hj.
  - assert (match last (ae_entries req) with None => ae_prevLogIndex req | Some e => e_index e end < U64) as Hlast.
    { destruct (last (ae_entries req)) as [e|] eqn:E; [|done]; rewrite last_lookup in E.
      by destruct (Forall_lookup_1 _ _ _ _ He E) as (_ & ? & _). }
    set (newLast := match last _ with None => _ | Some _ => _ end) in *; clearbody newLast; split; [|done].
    set (m1 := match ae_entries req with [] => m | _ => _ end).
    assert (counters_ok m1) as Hm1 by (unfold m1; destruct (ae_entries req); [done|by destruct Hm]); clearbody m1.
    destruct (_ <? _); [|done]; destruct Hm1; split; [simpl; lia|done|done].
Qed.

Lemma handleAppendEntries_typed req : AppendEntriesReq_valid req -> typed AppendEntriesResp_valid (handleAppendEntries_p req).
Proof.
  intros Hv; apply (typed_bind (fun o => match o with Some t => t < U64 | None => True end)).
  { apply typed_get; intros n Hj _; destruct (_ <? _); [apply Hj|done]. }
  intros [t|] Hs; [by split_and!|]; apply (typed_bind anything); [apply becomeFollower_typed|]; intros _ _.
  apply (typed_bind (fun r => match r with inl r => AppendEntriesResp_valid r | inr newLast => newLast < U64 end)).
  - apply typed_atomically; intros n n' r Hj Hn Hx; destruct (storeEntries_typed req n Hj Hn Hv) as [Hg Hr].
    destruct (storeEntries req n) as [m x]; inv_ok; by simplify_eq.
  - intros [r|newLast] Hr; [done|]; apply (typed_bind anything); [apply applyCommittedEntries_typed|]; intros _ _.
    apply (typed_bind (fun t => t < U64)); [apply typed_get; intros n Hj _; apply Hj|]; intros t Ht; by split_and!.
Qed.

Lemma storeSnapshot_typed req n n' r :
  node_ok cfg i n -> counters_ok n -> is_lastIncludedIndex req < U64 -> is_lastIncludedTerm req < U64 ->
  storeSnapshot req n = Ok (n', r) -> counters_ok n' /\ InstallSnapshotResp_valid r.
Proof.
  intros Hj Hn Hi Ht Hx; destruct (storeSnapshot_good cfg i req n n' r Hj Hi Ht Hx) as [_ Hr]; split; [|exact Hr].
  unfold storeSnapshot in Hx; destruct (_ <=? _); [inv_ok; by simplify_eq|].
  set (lg := compactUpTo _ _ _ _) in Hx; clearbody lg; inv_ok; simplify_eq; destruct Hn; split; [simpl; lia|done|done].
Qed.

Lemma handleInstallSnapshot_typed req :
  is_lastIncludedIndex req < U64 -> is_lastIncludedTerm req < U64 -> typed InstallSnapshotResp_valid (handleInstallSnapshot_p req).
Proof.
  intros Hi Htm; apply (typed_bind (fun o => match o with Some t => t < U64 | None => True end)).
  { apply typed_get; intros n Hj _; destruct (_ <? _); [apply Hj|done]. }
  intros [t|] Hs; [done|]; apply (typed_bind anything); [apply becomeFollower_typed|]; intros _ _.
  apply typed_atomically; intros n n' r Hj Hn; by apply storeSnapshot_typed.
Qed.

(** ** Snapshots and the timer loop *)
Lemma forceSnapshot_typed : typed anything forceSnapshot_p.
Proof.
  apply (typed_bind anything); [by apply typed_get|]; intros [[idx t]|] _; [|done].
  apply (typed_bind anything); [by apply typed_get|]; intros b _; apply typed_modify; intros n _; by apply counters_same.
Qed.

Lemma maybeSnapshot_typed : typed anything maybeSnapshot_p.
Proof. apply (typed_bind anything); [by apply typed_get|]; intros [] _; [apply forceSnapshot_typed|done]. Qed.

Lemma runLoopRound_typed now : typed anything (runLoopRound_p now).
Proof.
  apply (typed_bind anything); [|intros _ _; apply maybeSnapshot_typed].
  apply (typed_bind anything); [by apply typed_get|]; intros r _; case_decide;
    (apply (typed_bind anything); [by apply typed_get|]); intros [] _; try done; [|apply becomeCandidate_typed].
  apply (typed_bind anything); [apply broadcast_typed|]; intros _ _; apply typed_modify; intros n _; by apply counters_same.
Qed.
End nodes.

(** ** All threads of all nodes *)
Section groups.
Context {S : Type} `{StateMachine S}.
Context (cfg : ClusterConfig) (freshSm : S).
Implicit Types (n : RaftNode S) (f : Threads (S := S)).

Definition thread_typed (th : Thread (S := S)) : Prop := typed cfg (th_node th) (Forall packet_valid) (th_prog th).

Record group_typed f : Prop := {
  gt_nodes : map_Forall (fun _ => counters_ok) (nodes (cluster f));
  gt_net : Forall packet_valid (net (cluster f));
  gt_threads : Forall thread_typed (threads f)
}.

Lemma reaction_typed i p : packet_typed p -> packet_valid p -> typed cfg i (Forall packet_valid) (reaction (S := S) p).
Proof.
  destruct p as [src inc s|dst inc peer t m resp|dst inc peer t resp|dst inc peer idx resp]; cbn [packet_valid packet_typed reaction]; intros Ht Hp.
  - destruct s as [peer req t m|peer req t|peer req idx]; cbn [handler].
    + eapply typed_bind; [apply handleRequestVote_typed|]; intros r Hr; by apply Forall_singleton.
    + destruct Hp; eapply typed_bind; [by apply handleAppendEntries_typed|]; intros r Hr; by apply Forall_singleton.
    + destruct Hp as [_ Hidx], Ht as (_ & ? & ?); eapply typed_bind; [by apply handleInstallSnapshot_typed|]; intros r Hr; by apply Forall_singleton.
  - eapply typed_bind; [by apply onRequestVoteResp_typed|]; intros _ _; constructor.
  - eapply typed_bind; [by apply onAppendEntriesResp_typed|]; intros _ _; constructor.
  - destruct Hp; eapply typed_bind; [by apply onInstallSnapshotResp_typed|]; intros _ _; constructor.
Qed.

Lemma then_nothing_typed {A} i (p : Prog (RaftNode S) Send A) :
  typed cfg i anything p -> typed cfg i (Forall packet_valid) (_ ← p; mret []).
Proof. intros Hp; eapply typed_bind; [exact Hp|]; intros _ _; constructor. Qed.

Lemma group_typed_update f i n' ps ths inc :
  group_typed f -> counters_ok n' -> Forall packet_valid ps -> Forall thread_typed ths ->
  group_typed (mkThreads (mkCluster (<[i := n']> (nodes (cluster f))) inc ps) ths).
Proof. intros [Hn _ _] Hn' Hps Hths; split; [by apply map_Forall_insert_2|done|done]. Qed.

Lemma spawn_typed f i timer p : group_typed f -> typed cfg i (Forall packet_valid) p -> group_typed (spawn i timer p f).
Proof. intros [Hn Hp Ht] Hs; split; [done|done|apply Forall_app; split; [done|by repeat constructor]]. Qed.

Lemma set_net_typed ps f : group_typed f -> Forall packet_valid ps -> group_typed (set_net ps f).
Proof. intros [Hn Hp Ht] Hps; by split. Qed.

Lemma stepThread_typed j f f' : threads_ok cfg f -> group_typed f -> stepThread j f = Some f' -> group_typed f'.
Proof.
  intros Hok Hty; unfold stepThread; intros (th & Hj & Hx)%bind_Some_inv.
  apply bind_Some_inv in Hx as (n & Hi & Hx); pose proof (to_nodes _ _ Hok _ _ Hi) as Hn.
  pose proof (Forall_lookup_1 _ _ _ _ (gt_threads _ Hty) Hj) as Hth; unfold thread_typed, typed in Hth.
  destruct (advance (th_prog th) n) as [[[[n' ss] p']|]|] eqn:E; [|done|].
  - eapply (advance_safe _ _ _ _ _ _ _ _ _ _ Hth Hn (gt_nodes _ Hty _ _ Hi)) in E as (Hn' & _ & Hss & Hp'); [|by intros ?].
    injection Hx as <-; apply group_typed_update; [done|done| |apply Forall_insert; [apply Hty|exact Hp']].
    apply Forall_app; split; [apply Hty|]; by apply Forall_fmap.
  - destruct (th_prog th) as [ps| |] eqn:Ep; [|done|done]; injection Hx as <-; destruct Hty as [H1 H2 H3]; split; [done| |].
    + apply Forall_app; split; [done|exact Hth].
    + by apply Forall_delete.
Qed.

Lemma newRaftNode_counters o d rng now n' :
  newRaftNode o cfg d freshSm rng now = Ok n' -> snapshotIndex_ (log_ n') < U64 -> counters_ok (start n').
Proof. unfold newRaftNode; intros Hx Hs; inv_ok; simplify_eq; split; [done|apply map_Forall_empty..]. Qed.

Lemma thread_step_typed f f' : threads_ok cfg f -> group_typed f -> thread_step cfg freshSm f f' -> group_typed f'.
Proof.
  intros Hok Hty [ev [Hb Ha] Hx]; destruct ev as [i now|i now|k|j|k|k|i b|i|i x a|i x|i rng now]; cbn [texec] in Hx; try done;
    [| | |by eapply stepThread_typed|..]; apply bind_Some_inv in Hx as (n & Hi & Hx).
  - injection Hx as <-; apply group_typed_update; [done| |apply Hty|apply Hty]; by destruct (gt_nodes _ Hty _ _ Hi).
  - destruct (_ && _); [|done]; injection Hx as <-; apply spawn_typed; [done|].
    exact (then_nothing_typed i (runLoopRound_p now) (runLoopRound_typed cfg i now)).
  - pose proof (Forall_lookup_1 _ _ _ _ (gt_net _ Hty) Hi) as Hp; pose proof (Forall_lookup_1 _ _ _ _ (to_net _ _ Hok) Hi) as Hp'.
    assert (group_typed (set_net (delete k (net (cluster f))) f)) as Hty' by (apply set_net_typed; [done|apply Forall_delete, Hty]).
    destruct (recipient _ n) as [i|]; injection Hx as <-; [|done]; apply spawn_typed; [done|by apply reaction_typed].
  - injection Hx as <-; apply set_net_typed; [done|apply Forall_delete, Hty].
  - destruct n; [|done..]; injection Hx as <-; apply set_net_typed; [done|]; apply Forall_app; split; [apply Hty|].
    constructor; [exact (Forall_lookup_1 _ _ _ _ (gt_net _ Hty) Hi)|done].
  - injection Hx as <-; apply spawn_typed; [done|]; exact (then_nothing_typed i (propose_p b Command) (propose_typed cfg i b Command)).
  - injection Hx as <-; apply spawn_typed; [done|]; exact (then_nothing_typed i forceSnapshot_p (forceSnapshot_typed cfg i)).
  - apply bind_Some_inv in Hx as (n' & Hr%of_outcome_Some & [= <-]).
    pose proof (restart_good cfg i _ _ _ _ _ (to_nodes _ _ Hok _ _ Hi) Hr) as [[_ _ _ Hl _] _].
    apply group_typed_update; [done|eapply newRaftNode_counters; [exact Hr|apply Hl]|apply Hty|].
    apply Forall_forall; intros th [_ Hth]%list_elem_of_filter; exact (proj1 (Forall_forall _ _) (gt_threads _ Hty) _ Hth).
Qed.

Lemma thread_steps_typed f f' : rtc (thread_step cfg freshSm) f f' -> threads_ok cfg f -> group_typed f -> group_typed f'.
Proof.
  induction 1 as [f|f g h Hfg _ IH]; intros Hok Hty; [done|].
  apply IH; [by eapply thread_step_ok|by eapply thread_step_typed].
Qed.

Lemma freshThreads_typed os : group_typed (freshThreads cfg freshSm os).
Proof.
  split; [|constructor|constructor]; cbn; generalize (@map_Forall_empty NodeId (gmap NodeId) _ _ _ _ _ _ _ _ _ (RaftNode S) (fun _ => counters_ok)).
  generalize (∅ : gmap NodeId (RaftNode S)); induction os as [|o os IH]; intros m Hm; [done|]; simpl; apply IH.
  destruct (freshNode cfg freshSm o) as [n|] eqn:E; [|done]; apply map_Forall_insert_2; [|done].
  unfold freshNode in E; apply bind_Some_inv in E as (n0 & Hn%of_outcome_Some & [= <-]).
  eapply newRaftNode_counters; [exact Hn|]; unfold newRaftNode in Hn; change (loadFromDisk ∅) with (Ok (mkPersistentLog ∅ 0 0 0 0 [])) in Hn.
  inv_ok; by simplify_eq.
Qed.
End groups.

(** ** The theorem *)
Definition reads_back {A} `{Codec A} (x : A) : Prop :=
  decode (Reader_of (encode x [])) = Ok (x, mkReader (encode x []) (nlen (encode x []))).

(** What a message is after the wire. *)
Definition survives (p : Packet) : Prop :=
  match p with
  | Request _ _ (SendRequestVote _ req _ _) => reads_back req
  | Request _ _ (SendAppendEntries _ req _) => reads_back req /\ nlen (ae_entries req) <= 200
  | Request _ _ (SendInstallSnapshot _ req _) => nlen (is_data req) < U32 -> reads_back req
  | VoteReply _ _ _ _ _ resp => reads_back resp
  | AppendReply _ _ _ _ resp => reads_back resp
  | SnapshotReply _ _ _ _ resp => reads_back resp
  end.

(** C18: every message fits its wire format.  In every state of a group with a fixed
    membership whose methods interleave, with losses, duplications, crashes and
    restarts, every request and reply under way has all fields within their C++
    types: encoding it and decoding the bytes gives exactly the message (for a
    snapshot, when it is shorter than 4 GiB), and no [AppendEntries] request has
    more than 200 entries. *)
Theorem messages_survive_the_wire {S : Type} `{StateMachine S} (cfg : ClusterConfig) (freshSm : S) (os : list RaftOptions)
    (f : Threads (S := S)) (p : Packet) (Hos : Forall (fun o => 0 < id o < U32) os)
    (Hr : rtc (thread_step cfg freshSm) (freshThreads cfg freshSm os) f) (Hp : p ∈ net (cluster f)) : survives p.
Proof.
  pose proof (thread_steps_typed cfg freshSm _ _ Hr (freshThreads_ok cfg freshSm os Hos) (freshThreads_typed cfg freshSm os)) as Hty.
  pose proof (proj1 (Forall_forall _ _) (gt_net _ _ Hty) _ Hp) as Hv.
  destruct p as [src inc [peer req t m|peer req t|peer req idx]|dst inc peer t m resp|dst inc peer t resp|dst inc peer idx resp];
    cbn [packet_valid send_valid survives] in *.
  - by apply codec_decode.
  - destruct Hv; split; [by apply codec_decode|done].
  - intros Hl; apply codec_decode, Hv, Hl.
  - by apply codec_decode.
  - by apply codec_decode.
  - destruct Hv; by apply codec_decode.
Qed.

(** The vote that node 2 has cast for node 1. *)
Lemma messages_survive_the_wire_witness :
  exists f p, run_threads sample_cfg KvStore_init (tickFor 1 1000 0 8 ++ deliverFor 0 0 4)
      (freshThreads sample_cfg KvStore_init (sample_opts <$> [1; 2; 3])) = Some f /\
    p = VoteReply 1 0 2 1 2 (mkRequestVoteResp 1 true) /\ survives p.
Proof.
  destruct (replayed (fun f => net (cluster f) !! 1%nat)
    (run_threads sample_cfg KvStore_init (tickFor 1 1000 0 8 ++ deliverFor 0 0 4)
      (freshThreads sample_cfg KvStore_init (sample_opts <$> [1; 2; 3]))) (Some (VoteReply 1 0 2 1 2 (mkRequestVoteResp 1 true))))
    as (f & Hf & Hv); [vm_compute; reflexivity|].
  exists f, (VoteReply 1 0 2 1 2 (mkRequestVoteResp 1 true)); split; [exact Hf|split; [reflexivity|]].
  apply (messages_survive_the_wire sample_cfg KvStore_init (sample_opts <$> [1; 2; 3]) f);
    [by repeat constructor|exact (run_threads_steps _ _ _ _ _ Hf)|by eapply list_elem_of_lookup_2].
Defined.
