(* ===== verification/HashRing.v ===== *)
(** * shard/hash_ring.h: the consistent-hashing ring

    [ring_] is a [std::map] from positions to shard ids; [positions] is its
    iteration order.  The theorems state what makes the ring consistent: adding a
    shard moves keys to that shard only, removing one moves its own keys only. *)
From stdpp Require Import base tactics list gmap numbers strings sorting pretty.
From Stdlib Require Import Ascii NArith Lia.
From S2P Require Import Prelude.

Local Open Scope N_scope.

Record HashRing := mkHashRing {
  vnodes_ : nat;
  ring_ : gmap N N;
  shards_ : list N
}.

Definition HashRing_init (vnodes : nat) : HashRing := mkHashRing vnodes ∅ [].

(** [h ^= c; h *= 1099511628211ULL] for every byte. *)
Definition hash (s : bytes) : N :=
  fold_left (fun h c => u64 (N.lxor h (N_of_ascii c) * 1099511628211)) s 1469598103934665603.

(** [hash(std::to_string(shardId) + "#" + std::to_string(v))] *)
Definition point (shardId : N) (v : nat) : N :=
  hash (str (pretty shardId +:+ "#" +:+ pretty (N.of_nat v))).

Definition addShard (shardId : N) (r : HashRing) : HashRing :=
  mkHashRing (vnodes_ r)
    (fold_left (fun ring v => <[point shardId v := shardId]> ring) (seq 0 (vnodes_ r)) (ring_ r))
    (shards_ r ++ [shardId]).

Definition removeShard (shardId : N) (r : HashRing) : HashRing :=
  mkHashRing (vnodes_ r)
    (fold_left (fun ring v => delete (point shardId v) ring) (seq 0 (vnodes_ r)) (ring_ r))
    (filter (fun s => s <> shardId) (shards_ r)).

(** The keys of a [std::map], in order. *)
Definition positions (m : gmap N N) : list N := merge_sort N.le (map_to_list m).*1.

Definition lower_bound (h : N) (m : gmap N N) : option N :=
  head (filter (fun p => h <= p) (positions m)).

Definition shardFor (key : bytes) (r : HashRing) : N :=
  match head (positions (ring_ r)) with
  | None => 0
  | Some first =>
      let it := match lower_bound (hash key) (ring_ r) with Some p => p | None => first end in
      default 0 (ring_ r !! it)
  end.

Definition HashRing_shards (r : HashRing) : list N := shards_ r.

(** ** The owner of a position

    [owner h m p]: [p] is the position that [shardFor] picks for the hash [h]. *)
Definition owner (h : N) (m : gmap N N) (p : N) : Prop :=
  is_Some (m !! p) /\
  ((h <= p /\ forall q, is_Some (m !! q) -> h <= q -> p <= q) \/
   (p < h /\ forall q, is_Some (m !! q) -> q < h /\ p <= q)).

#[global] Instance N_le_total : Total N.le.
Proof. intros x y; lia. Qed.

Lemma elem_of_positions m p : p ∈ positions m <-> is_Some (m !! p).
Proof.
  unfold positions; rewrite (merge_sort_Permutation N.le), list_elem_of_fmap; split.
  - intros ([q s] & -> & Hin%elem_of_map_to_list); simpl; eauto.
  - intros [s Hs]; exists (p, s); split; [done|by apply elem_of_map_to_list].
Qed.

Lemma positions_sorted m : StronglySorted N.le (positions m).
Proof. apply (StronglySorted_merge_sort N.le). Qed.

Lemma sorted_head_min l p :
  StronglySorted N.le l -> head l = Some p -> p ∈ l /\ forall q, q ∈ l -> p <= q.
Proof.
  intros Hs; destruct Hs as [|x l Hs Hall]; simpl; intros [= ->]; split; [by left|].
  intros q [->|Hq]%elem_of_cons; [done|]; by rewrite Forall_forall in Hall; apply Hall.
Qed.

Lemma sorted_filter h l : StronglySorted N.le l -> StronglySorted N.le (filter (fun p => h <= p) l).
Proof.
  induction 1 as [|x l Hs IH Hall]; [constructor|]; rewrite filter_cons; case_decide; [|done].
  constructor; [done|]; apply Forall_forall; intros y Hy; apply list_elem_of_filter in Hy as [_ Hy].
  by rewrite Forall_forall in Hall; apply Hall.
Qed.

Lemma lower_bound_Some h m p :
  lower_bound h m = Some p -> is_Some (m !! p) /\ h <= p /\ forall q, is_Some (m !! q) -> h <= q -> p <= q.
Proof.
  unfold lower_bound; intros Hp; apply sorted_head_min in Hp as [Hin Hmin];
    [|apply sorted_filter, positions_sorted].
  apply list_elem_of_filter in Hin as [Hle Hin]; apply elem_of_positions in Hin; split_and!; [done..|].
  intros q Hq Hh; apply Hmin, list_elem_of_filter; split; [done|by apply elem_of_positions].
Qed.

Lemma lower_bound_None h m q : lower_bound h m = None -> is_Some (m !! q) -> q < h.
Proof.
  unfold lower_bound; intros Hn Hq; apply elem_of_positions in Hq.
  destruct (filter _ _) as [|x l] eqn:E; [|done].
  destruct (N.ltb_spec q h) as [|Hle]; [done|exfalso].
  assert (q ∈ filter (fun p => h <= p) (positions m)) as Hin by (by apply list_elem_of_filter).
  by rewrite E in Hin; apply elem_of_nil in Hin.
Qed.

(** [shardFor] gives the shard at the owning position. *)
Lemma shardFor_owner key r :
  (ring_ r = ∅ /\ shardFor key r = 0) \/
  exists p s, owner (hash key) (ring_ r) p /\ ring_ r !! p = Some s /\ shardFor key r = s.
Proof.
  unfold shardFor; destruct (head (positions (ring_ r))) as [first|] eqn:Ef.
  - right; apply sorted_head_min in Ef as [Hf Hmin]; [|apply positions_sorted].
    apply elem_of_positions in Hf.
    destruct (lower_bound (hash key) (ring_ r)) as [p|] eqn:El.
    + apply lower_bound_Some in El as ([s Hs] & Hle & Hm); exists p, s; rewrite Hs; split_and!; try done.
      split; [eauto|by left].
    + pose proof (fun q => lower_bound_None _ _ q El) as Hlt; destruct Hf as [s Hs].
      exists first, s; rewrite Hs; split_and!; try done; split; [eauto|right].
      split; [apply Hlt; eauto|]; intros q Hq; split; [by apply Hlt|by apply Hmin, elem_of_positions].
  - left; split; [|done]; apply map_eq; intros q; rewrite lookup_empty; apply eq_None_not_Some; intros Hq.
    apply elem_of_positions in Hq; destruct (positions (ring_ r)); [by apply elem_of_nil in Hq|done].
Qed.

Lemma owner_unique h m p q : owner h m p -> owner h m q -> p = q.
Proof.
  intros [Hp [[H1 H2]|[H1 H2]]] [Hq [[H3 H4]|[H3 H4]]].
  - apply N.le_antisymm; auto.
  - destruct (H4 p Hp); lia.
  - destruct (H2 q Hq); lia.
  - apply N.le_antisymm; [by apply H2|by apply H4].
Qed.

Lemma shardFor_at key r p s : owner (hash key) (ring_ r) p -> ring_ r !! p = Some s -> shardFor key r = s.
Proof.
  intros Ho Hs; destruct (shardFor_owner key r) as [[He _]|(p' & s' & Ho' & Hs' & ->)].
  - by rewrite He, lookup_empty in Hs.
  - rewrite (owner_unique _ _ _ _ Ho' Ho) in Hs'; congruence.
Qed.

(** The owner in a larger ring, if it was already there, was the owner before. *)
Lemma owner_restrict h m m' p :
  (forall q, is_Some (m !! q) -> is_Some (m' !! q)) -> is_Some (m !! p) -> owner h m' p -> owner h m p.
Proof.
  intros Hsub Hp [_ Ho]; split; [done|]; destruct Ho as [[H1 H2]|[H1 H2]]; [left|right]; split; auto.
Qed.

(** ** Points of a shard *)
Definition points (vnodes : nat) (shardId : N) : list N := point shardId <$> seq 0 vnodes.

Lemma fold_insert_lookup (ps : list nat) f (s : N) (m : gmap N N) q :
  fold_left (fun ring (v : nat) => <[f v := s]> ring) ps m !! q = if decide (q ∈ f <$> ps) then Some s else m !! q.
Proof.
  revert m; induction ps as [|v ps IH]; intros m; [done|]; cbn [fold_left].
  rewrite IH, lookup_insert; repeat case_decide; try done;
    match goal with H : context [f <$> v :: ps] |- _ => rewrite fmap_cons, elem_of_cons in H end; intuition congruence.
Qed.

Lemma fold_delete_lookup (ps : list nat) f (m : gmap N N) q :
  fold_left (fun ring (v : nat) => delete (f v) ring) ps m !! q = if decide (q ∈ f <$> ps) then None else m !! q.
Proof.
  revert m; induction ps as [|v ps IH]; intros m; [done|]; cbn [fold_left].
  rewrite IH, lookup_delete; repeat case_decide; try done;
    match goal with H : context [f <$> v :: ps] |- _ => rewrite fmap_cons, elem_of_cons in H end; intuition congruence.
Qed.

Lemma addShard_lookup s r q :
  ring_ (addShard s r) !! q = if decide (q ∈ points (vnodes_ r) s) then Some s else ring_ r !! q.
Proof. apply (fold_insert_lookup _ (point s)). Qed.

Lemma removeShard_lookup s r q :
  ring_ (removeShard s r) !! q = if decide (q ∈ points (vnodes_ r) s) then None else ring_ r !! q.
Proof. apply (fold_delete_lookup _ (point s)). Qed.

(** ** Well-formed rings

    Every position carries a registered shard and is one of that shard's
    points. *)
Definition ring_wf (r : HashRing) : Prop :=
  forall p s, ring_ r !! p = Some s -> s ∈ shards_ r /\ p ∈ points (vnodes_ r) s.

Inductive ring_op : Type := OpAdd (s : N) | OpRemove (s : N).

Definition run_ring (r : HashRing) (op : ring_op) : HashRing :=
  match op with OpAdd s => addShard s r | OpRemove s => removeShard s r end.

Lemma run_ring_wf r op : ring_wf r -> ring_wf (run_ring r op) /\ vnodes_ (run_ring r op) = vnodes_ r.
Proof.
  intros Hwf; destruct op as [s|s]; (split; [|done]); intros p t; cbn [run_ring].
  - rewrite addShard_lookup; case_decide; [intros [= <-]|intros Ht].
    + split; [apply elem_of_app; right; by left|done].
    + destruct (Hwf _ _ Ht); split; [apply elem_of_app; by left|done].
  - rewrite removeShard_lookup; case_decide as Hp; [done|]; intros Ht; destruct (Hwf _ _ Ht) as [H1 H2].
    split; [|done]; apply list_elem_of_filter; split; [intros ->; done|done].
Qed.

(** ** The theorems *)

(** C33: adding a shard is consistent.  Whatever the ring holds (collisions of
    points included), after [addShard s] every key belongs to the shard it
    belonged to before, or to [s]. *)
Theorem addShard_moves_only_to_new (s : N) (r : HashRing) (key : bytes) :
  shardFor key (addShard s r) = shardFor key r \/ shardFor key (addShard s r) = s.
Proof.
  destruct (shardFor_owner key (addShard s r)) as [[He ->]|(p & t & Ho & Hp & ->)].
  - left; destruct (shardFor_owner key r) as [[_ ->]|(q & t & _ & Hq & _)]; [done|exfalso].
    assert (ring_ (addShard s r) !! q = None) as Hn by (by rewrite He, lookup_empty).
    rewrite addShard_lookup in Hn; case_decide; congruence.
  - rewrite addShard_lookup in Hp; case_decide; [right; congruence|left; symmetry].
    apply (shardFor_at key r p t); [|done]; eapply owner_restrict; [|eauto|exact Ho].
    intros q Hq; rewrite addShard_lookup; case_decide; [eauto|done].
Qed.

(** Removing a shard is consistent.  On a well-formed ring where no other
    shard sits on a point of [s], [removeShard s] leaves the owner of every key
    that did not belong to [s], and no key belongs to [s] afterwards (unless the
    ring became empty, where [shardFor] answers 0). *)
Theorem removeShard_moves_only_own (s : N) (r : HashRing) (key : bytes)
    (Hwf : ring_wf r) (Hc : forall p, p ∈ points (vnodes_ r) s -> ring_ r !! p = Some s) :
  (shardFor key r <> s -> shardFor key (removeShard s r) = shardFor key r) /\
  (ring_ (removeShard s r) <> ∅ -> shardFor key (removeShard s r) <> s).
Proof.
  split.
  - intros Hne; destruct (shardFor_owner key r) as [[He ->]|(p & t & Ho & Hp & Et)].
    + destruct (shardFor_owner key (removeShard s r)) as [[_ ->]|(p & t & _ & Hp & _)]; [done|exfalso].
      rewrite removeShard_lookup, He, lookup_empty in Hp; by case_decide.
    + rewrite Et in Hne |- *; apply (shardFor_at key _ p).
      * eapply owner_restrict; [| |exact Ho].
        -- intros q; rewrite removeShard_lookup; case_decide; [by intros []|done].
        -- rewrite removeShard_lookup; case_decide as Hin; [apply Hc in Hin; congruence|eauto].
      * rewrite removeShard_lookup; case_decide as Hin; [apply Hc in Hin; congruence|done].
  - intros Hne; destruct (shardFor_owner key (removeShard s r)) as [[He _]|(p & t & _ & Hp & ->)]; [done|].
    rewrite removeShard_lookup in Hp; case_decide as Hin; [done|].
    intros ->; by apply Hin, (Hwf p).
Qed.

(** A ring in use.  After any sequence of [addShard] and [removeShard] on an
    empty ring, every key is routed to a registered shard, or the ring has no
    position left and the answer is 0. *)
Theorem shardFor_registered (vnodes : nat) (ops : list ring_op) (key : bytes) :
  let r := fold_left run_ring ops (HashRing_init vnodes) in
  ring_ r = ∅ /\ shardFor key r = 0 \/ shardFor key r ∈ HashRing_shards r.
Proof.
  cbv zeta; assert (ring_wf (HashRing_init vnodes)) as Hwf
    by (intros p s; simpl; rewrite lookup_empty; done).
  revert Hwf; generalize (HashRing_init vnodes); induction ops as [|op ops IH]; intros r Hwf; simpl.
  - destruct (shardFor_owner key r) as [?|(p & s & _ & Hp & ->)]; [by left|right].
    by apply (Hwf p).
  - by apply IH, run_ring_wf.
Qed.

(** Removing undoes adding.  If none of the points of [s] is taken and [s] is
    not registered, [removeShard s] after [addShard s] is the ring before. *)
Theorem removeShard_addShard (s : N) (r : HashRing)
    (Hfree : forall p, p ∈ points (vnodes_ r) s -> ring_ r !! p = None) (Hs : s ∉ shards_ r) :
  removeShard s (addShard s r) = r.
Proof.
  assert (ring_ (removeShard s (addShard s r)) = ring_ r) as Hr.
  { apply map_eq; intros q; rewrite removeShard_lookup; change (vnodes_ (addShard s r)) with (vnodes_ r).
    case_decide as Hin; [symmetry; auto|]; rewrite addShard_lookup; by case_decide. }
  assert (shards_ (removeShard s (addShard s r)) = shards_ r) as Hsh.
  { cbn [shards_ removeShard addShard]; rewrite filter_app.
    rewrite filter_all by (intros x Hx ->; done); rewrite filter_cons_False by tauto; apply app_nil_r. }
  destruct r as [v m l]; cbn [ring_ shards_] in *.
  unfold removeShard in *; cbn [ring_ shards_ vnodes_ addShard] in *; by f_equal.
Qed.

(** ** Two shards with four points each *)
Definition ring2 : HashRing := addShard 2 (addShard 1 (HashRing_init 4)).

Lemma ring2_wf : ring_wf ring2.
Proof.
  unfold ring2; change (addShard 2 (addShard 1 (HashRing_init 4)))
    with (run_ring (run_ring (HashRing_init 4) (OpAdd 1)) (OpAdd 2)).
  apply run_ring_wf, run_ring_wf; intros p s; simpl; rewrite lookup_empty; done.
Qed.

Lemma removeShard_moves_only_own_witness :
  shardFor (str "b") ring2 <> 1 /\ shardFor (str "b") (removeShard 1 ring2) = shardFor (str "b") ring2.
Proof.
  assert (forall p, p ∈ points (vnodes_ ring2) 1 -> ring_ ring2 !! p = Some 1) as Hc.
  { apply (Forall_forall (fun p => ring_ ring2 !! p = Some 1)); by_decide. }
  assert (shardFor (str "b") ring2 <> 1) as Hne by (vm_compute; discriminate).
  exact (conj Hne (proj1 (removeShard_moves_only_own 1 ring2 (str "b") ring2_wf Hc) Hne)).
Defined.

Lemma removeShard_addShard_witness : removeShard 3 (addShard 3 ring2) = ring2.
Proof.
  apply (removeShard_addShard 3 ring2).
  - apply (Forall_forall (fun p => ring_ ring2 !! p = None)); by_decide.
  - apply (bool_decide_unpack _); vm_compute; exact I.
Defined.
