(* ===== verification/Wire.v ===== *)
(** * net/wire.h: frames over a byte stream

    A connection is what the peer has sent and not yet been read ([inbox], in the
    segments in which [recv] will see it), what [send] will accept ([accepts]),
    and what has been written ([sent]).  [readExact] and [writeAll] are the loops
    around the two system calls; [None] and [false] are their failures, after
    which every caller drops the connection. *)
From stdpp Require Import base tactics list gmap numbers strings.
From Stdlib Require Import Ascii NArith Lia.
From S2P Require Import Prelude.
From S2P Require Import Buffer.

Local Open Scope N_scope.

(** ** Types *)
Inductive WireType : Type :=
| WRequestVoteReq | WRequestVoteResp
| WAppendEntriesReq | WAppendEntriesResp
| WInstallSnapshotReq | WInstallSnapshotResp
| WClientRequest | WClientResponse
| WireTypeOther (v : N).

#[global] Instance WireType_eq_dec : EqDecision WireType.
Proof. solve_decision. Defined.

Definition WireType_to_u8 (t : WireType) : N :=
  match t with
  | WRequestVoteReq => 1 | WRequestVoteResp => 2
  | WAppendEntriesReq => 3 | WAppendEntriesResp => 4
  | WInstallSnapshotReq => 5 | WInstallSnapshotResp => 6
  | WClientRequest => 10 | WClientResponse => 11
  | WireTypeOther v => v
  end.

Definition WireType_of_u8 (v : N) : WireType :=
  if v =? 1 then WRequestVoteReq else if v =? 2 then WRequestVoteResp
  else if v =? 3 then WAppendEntriesReq else if v =? 4 then WAppendEntriesResp
  else if v =? 5 then WInstallSnapshotReq else if v =? 6 then WInstallSnapshotResp
  else if v =? 10 then WClientRequest else if v =? 11 then WClientResponse
  else WireTypeOther v.

Record Conn := mkConn { inbox : list bytes; accepts : list N; sent : bytes }.

(** [connectTo]: the system calls are parameters, [None] for a negative result (the
    descriptor is closed then).  [inet_pton] gives the address of a dotted IPv4
    address and nothing for a name; the port is cut to 16 bits. *)
Definition connectTo (socket : bool) (inet_pton : bytes -> option N) (connect : N -> N -> option Conn)
    (host : bytes) (port : Z) : option Conn :=
  if socket then addr ← inet_pton host; connect addr (Z.to_N (port mod 65536)) else None.

(** ** Writing *)

(** One [send] of the bytes that are left: the number it takes, if it is not an
    error. *)
Definition send (data : bytes) (c : Conn) : option (N * Conn) :=
  match accepts c with
  | [] => None
  | a :: rest =>
      let n := N.min a (nlen data) in
      if n =? 0 then None
      else Some (n, mkConn (inbox c) rest (sent c ++ take (N.to_nat n) data))
  end.

(** After a [send] that failed: the next one is a new attempt. *)
Definition sendFailed (c : Conn) : Conn := mkConn (inbox c) (tail (accepts c)) (sent c).

(** [while (sent < len)]; a successful [send] takes at least one byte, so the
    number of bytes bounds the rounds. *)
Fixpoint writeAll_loop (fuel : nat) (data : bytes) (c : Conn) : bool * Conn :=
  match fuel with
  | O => (true, c)
  | S fuel' =>
      match data with
      | [] => (true, c)
      | _ => match send data c with
             | None => (false, sendFailed c)
             | Some (n, c') => writeAll_loop fuel' (drop (N.to_nat n) data) c'
             end
      end
  end.

Definition writeAll (data : bytes) (c : Conn) : bool * Conn := writeAll_loop (S (length data)) data c.

Definition frameHeader (type : WireType) (len : N) : bytes :=
  [ascii_of_N (u8 (WireType_to_u8 type)); byte_at len 3; byte_at len 2; byte_at len 1; byte_at len 0].

Definition writeFrame (type : WireType) (payload : bytes) (c : Conn) : bool * Conn :=
  let len := u32 (nlen payload) in
  let '(ok, c) := writeAll (frameHeader type len) c in
  if ok then writeAll payload c else (false, c).

(** ** Reading *)

(** One [recv] of at most [len] bytes; an empty result is the end of the stream. *)
Definition recv (len : nat) (c : Conn) : option (bytes * Conn) :=
  match inbox c with
  | [] => None
  | seg :: segs =>
      let got := take len seg in
      let rest := drop len seg in
      if nlen got =? 0 then None
      else Some (got, mkConn (if nlen rest =? 0 then segs else rest :: segs) (accepts c) (sent c))
  end.

Fixpoint readExact_loop (fuel : nat) (len : nat) (buf : bytes) (c : Conn) : option (bytes * Conn) :=
  match fuel with
  | O => Some (buf, c)
  | S fuel' =>
      if (length buf <? len)%nat then
        '(got, c) ← recv (len - length buf) c; readExact_loop fuel' len (buf ++ got) c
      else Some (buf, c)
  end.

Definition readExact (len : nat) (c : Conn) : option (bytes * Conn) := readExact_loop (S len) len [] c.

(** The length field, most significant byte first. *)
Definition frameLength (b1 b2 b3 b4 : ascii) : N :=
  N.lor (N.lor (N.lor (N.shiftl (N_of_ascii b1) 24) (N.shiftl (N_of_ascii b2) 16))
    (N.shiftl (N_of_ascii b3) 8)) (N_of_ascii b4).

Definition readFrame (c : Conn) : option (WireType * bytes * Conn) :=
  '(hdr, c) ← readExact 5 c;
  match hdr with
  | [b0; b1; b2; b3; b4] =>
      let type := WireType_of_u8 (N_of_ascii b0) in
      let len := frameLength b1 b2 b3 b4 in
      if len =? 0 then Some (type, [], c)
      else '(payload, c) ← readExact (N.to_nat len) c; Some (type, payload, c)
  | _ => None
  end.

(** ** Frames as bytes *)
Definition frame (type : WireType) (payload : bytes) : bytes :=
  frameHeader type (u32 (nlen payload)) ++ payload.

(** A sequence of frames. *)
Definition wire_bytes (fs : list (WireType * bytes)) : bytes := concat ((fun p => frame p.1 p.2) <$> fs).

Definition WireType_valid (t : WireType) : Prop :=
  match t with WireTypeOther _ => False | _ => True end.

Lemma WireType_of_to t : WireType_valid t -> WireType_of_u8 (N_of_ascii (ascii_of_N (u8 (WireType_to_u8 t)))) = t.
Proof. by destruct t. Qed.

Lemma lor_rev4 a b c d : N.lor (N.lor (N.lor d c) b) a = N.lor (N.lor (N.lor a b) c) d.
Proof.
  apply N.bits_inj; intros k; rewrite !N.lor_spec.
  by destruct (N.testbit a k), (N.testbit b k), (N.testbit c k), (N.testbit d k).
Qed.

Lemma frameLength_header len :
  len < U32 -> frameLength (byte_at len 3) (byte_at len 2) (byte_at len 1) (byte_at len 0) = len.
Proof.
  intros Hl; unfold frameLength; rewrite !N_of_byte_at, lor_rev4.
  assert (N.land (N.shiftr len (N.of_nat 0 * 8)) 255 = len mod 2 ^ (N.of_nat 1 * 8)) as ->.
  { change 255 with (N.ones 8); rewrite N.land_ones; change (N.of_nat 0 * 8) with 0; by rewrite N.shiftr_0_r. }
  change 24 with (N.of_nat 3 * 8); change 16 with (N.of_nat 2 * 8).
  change (N.shiftl ?x 8) with (N.shiftl x (N.of_nat 1 * 8)).
  rewrite !low_bits_step; by apply N.mod_small.
Qed.

(** ** The loops *)

(** What the peer has sent, whatever the segments. *)
Definition stream (c : Conn) : bytes := concat (inbox c).

Definition segments_ok (c : Conn) : Prop := Forall (fun s : bytes => s <> []) (inbox c).

Lemma nlen_zero {A} (l : list A) : nlen l = 0 -> l = [].
Proof. unfold nlen; destruct l; [done|simpl; lia]. Qed.

Lemma recv_spec len c :
  segments_ok c -> (0 < len)%nat -> stream c <> [] ->
  exists got c', recv len c = Some (got, c') /\ got <> [] /\ (length got <= len)%nat /\
    stream c = got ++ stream c' /\ segments_ok c' /\ accepts c' = accepts c /\ sent c' = sent c.
Proof.
  unfold recv, stream, segments_ok; intros Hs Hl Hne; destruct (inbox c) as [|seg segs]; [done|].
  apply Forall_cons in Hs as [Hseg Hs]; destruct (N.eqb_spec (nlen (take len seg)) 0) as [E|_].
  { apply nlen_zero in E; destruct seg, len; simpl in E; [done|done|lia|done]. }
  do 2 eexists; split; [done|]; cbn [inbox accepts sent concat]; split_and!; try done.
  - destruct seg, len; simpl; [done|done|lia|done].
  - rewrite length_take; lia.
  - rewrite <- (take_drop len seg) at 1; destruct (N.eqb_spec (nlen (drop len seg)) 0) as [E|_].
    + apply nlen_zero in E; by rewrite E, app_nil_r.
    + by rewrite <- app_assoc.
  - destruct (N.eqb_spec (nlen (drop len seg)) 0) as [E|E]; [done|]; constructor; [|done].
    intros E'; rewrite E' in E; done.
Qed.

Lemma readExact_loop_spec fuel len buf c s t :
  segments_ok c -> stream c = s ++ t -> (length buf + length s = len)%nat -> (length s < fuel)%nat ->
  exists c', readExact_loop fuel len buf c = Some (buf ++ s, c') /\ stream c' = t /\ segments_ok c' /\
    accepts c' = accepts c /\ sent c' = sent c.
Proof.
  revert buf c s; induction fuel as [|fuel IH]; intros buf c s Hok Hs Hlen Hf; [lia|]; cbn [readExact_loop].
  destruct (Nat.ltb_spec (length buf) len) as [Hlt|Hge].
  - destruct (recv_spec (len - length buf) c) as (got & c1 & -> & Hg & Hgl & Hst & Hok1 & Ha & Hse);
      [done|lia|intros E; rewrite E in Hs; destruct s; simpl in *; [lia|done]|].
    simpl; rewrite Hs in Hst.
    assert (s = got ++ drop (length got) s /\ stream c1 = drop (length got) s ++ t) as [Es Est].
    { assert (take (length got) (s ++ t) = got) as Et by (by rewrite Hst, take_app_length).
      rewrite take_app_le in Et by lia; split; [by rewrite <- Et at 1; rewrite take_drop|].
      assert (drop (length got) (s ++ t) = stream c1) as <- by (by rewrite Hst, drop_app_length).
      by rewrite drop_app_le by lia. }
    pose proof (f_equal length Es) as El; rewrite length_app in El.
    destruct got as [|b got]; [done|]; cbn [length] in *.
    destruct (IH (buf ++ b :: got) c1 (drop (S (length got)) s)) as (c2 & -> & ? & ? & ? & ?);
      [done|done|rewrite length_app; simpl; lia|lia|].
    exists c2; split_and!; try done; [|congruence|congruence].
    by rewrite <- app_assoc, <- Es.
  - assert (s = []) as -> by (destruct s; [done|simpl in *; lia]).
    exists c; rewrite app_nil_r; split_and!; done.
Qed.

Lemma readExact_spec len c s t :
  segments_ok c -> stream c = s ++ t -> length s = len ->
  exists c', readExact len c = Some (s, c') /\ stream c' = t /\ segments_ok c' /\
    accepts c' = accepts c /\ sent c' = sent c.
Proof. intros Hok Hs Hl; apply (readExact_loop_spec (S len) len [] c s t); [done|done|done|lia]. Qed.

Lemma writeAll_loop_spec fuel data c ok c' :
  (length data < fuel)%nat -> writeAll_loop fuel data c = (ok, c') ->
  inbox c' = inbox c /\ exists p, sent c' = sent c ++ p /\ p `prefix_of` data /\ (ok = true -> p = data).
Proof.
  revert data c; induction fuel as [|fuel IH]; intros data c Hf Hw; [lia|]; cbn [writeAll_loop] in Hw.
  destruct data as [|b data].
  { injection Hw as <- <-; split; [done|]; exists []; by rewrite app_nil_r. }
  set (d := b :: data) in *; destruct (send d c) as [[n c1]|] eqn:E.
  - unfold send in E; destruct (accepts c) as [|a rest]; [done|].
    destruct (N.eqb_spec (N.min a (nlen d)) 0) as [|Hn]; [done|]; injection E as <- <-.
    apply IH in Hw as (Hi & p & Hp & Hpre & Hall); [|rewrite length_drop; unfold nlen in *; lia].
    cbn [inbox sent] in *; split; [done|].
    set (k := N.to_nat (N.min a (nlen d))) in *; exists (take k d ++ p); split_and!.
    + by rewrite Hp, <- app_assoc.
    + rewrite <- (take_drop k d) at 2; by apply prefix_app.
    + intros Hok; rewrite (Hall Hok); apply take_drop.
  - injection Hw as <- <-; split; [done|]; exists []; rewrite app_nil_r; split_and!; [done|apply prefix_nil|done].
Qed.

Lemma writeFrame_spec type payload c ok c' :
  writeFrame type payload c = (ok, c') ->
  inbox c' = inbox c /\ exists p, sent c' = sent c ++ p /\ p `prefix_of` frame type payload /\
    (ok = true -> p = frame type payload).
Proof.
  unfold writeFrame, frame; set (h := frameHeader type (u32 (nlen payload))).
  destruct (writeAll h c) as [ok1 c1] eqn:E1; apply writeAll_loop_spec in E1 as (Hi1 & p1 & Hp1 & Hpre1 & Hall1); [|lia].
  destruct ok1; [|intros [= <- <-]; split; [done|]; exists p1; split_and!; [done|by apply prefix_app_r|done]].
  rewrite Hall1 in Hp1 by done; intros E2.
  apply writeAll_loop_spec in E2 as (Hi2 & p2 & Hp2 & Hpre2 & Hall2); [|lia].
  split; [congruence|]; exists (h ++ p2); split_and!.
  - by rewrite Hp2, Hp1, <- app_assoc.
  - by apply prefix_app.
  - intros Hok; by rewrite Hall2.
Qed.

(** Whether a write succeeds depends on what [send] takes only. *)
Lemma writeAll_loop_accepts fuel data c c' : accepts c = accepts c' ->
  (writeAll_loop fuel data c).1 = (writeAll_loop fuel data c').1 /\
  accepts (writeAll_loop fuel data c).2 = accepts (writeAll_loop fuel data c').2.
Proof.
  revert data c c'; induction fuel as [|fuel IH]; intros data c c' Ha; [done|]; cbn [writeAll_loop].
  destruct data as [|b data]; [done|]; unfold send; rewrite <- Ha; destruct (accepts c) as [|a rest] eqn:E.
  - cbn; unfold sendFailed; by rewrite <- Ha, E.
  - destruct (_ =? 0); [cbn; unfold sendFailed; by rewrite <- Ha, E|]; by apply IH.
Qed.

Lemma writeFrame_accepts type payload c c' : accepts c = accepts c' ->
  (writeFrame type payload c).1 = (writeFrame type payload c').1 /\
  accepts (writeFrame type payload c).2 = accepts (writeFrame type payload c').2.
Proof.
  intros Ha; unfold writeFrame, writeAll.
  destruct (writeAll_loop_accepts (S (length (frameHeader type (u32 (nlen payload))))) (frameHeader type (u32 (nlen payload))) c c' Ha) as [H1 H2].
  destruct (writeAll_loop _ _ c) as [ok c1], (writeAll_loop _ _ c') as [ok' c1']; cbn [fst snd] in H1, H2; subst ok'.
  destruct ok; [by apply writeAll_loop_accepts|done].
Qed.

(** Reading does not write. *)
Lemma readExact_loop_keeps fuel len buf c b c' :
  readExact_loop fuel len buf c = Some (b, c') -> segments_ok c -> segments_ok c' /\ sent c' = sent c.
Proof.
  revert buf c; induction fuel as [|fuel IH]; intros buf c; cbn [readExact_loop]; [by intros [= _ <-]|].
  destruct (length buf <? len)%nat; [|by intros [= _ <-]].
  intros ([got c1] & Hr & Hl)%bind_Some_inv Hok; apply IH in Hl as [? ->]; revert Hr; unfold recv; destruct c as [[|seg segs] acc out]; simpl;
    try done; destruct (nlen (take _ seg) =? 0); try done; intros [= <- <-]; simpl; try done.
  unfold segments_ok in *; simpl in *; apply Forall_cons in Hok as [_ Hok]; destruct (nlen (drop _ seg) =? 0) eqn:E; [done|].
  constructor; [|done]; by intros Hn; rewrite Hn in E.
Qed.

Lemma readFrame_keeps c type payload c' :
  readFrame c = Some (type, payload, c') -> segments_ok c -> segments_ok c' /\ sent c' = sent c.
Proof.
  unfold readFrame; intros ([hdr c1] & H1 & Hx)%bind_Some_inv Hok; apply readExact_loop_keeps in H1 as [Hok1 <-]; [|done].
  destruct hdr as [|b0 [|b1 [|b2 [|b3 [|b4 [|? ?]]]]]]; try done.
  destruct (frameLength b1 b2 b3 b4 =? 0); [by injection Hx as _ _ <-|].
  apply bind_Some_inv in Hx as ([p c2] & H2 & [= _ _ <-]); by apply readExact_loop_keeps in H2.
Qed.

Lemma readFrame_spec type payload c t :
  WireType_valid type -> nlen payload < U32 -> segments_ok c -> stream c = frame type payload ++ t ->
  exists c', readFrame c = Some (type, payload, c') /\ stream c' = t /\ segments_ok c' /\
    accepts c' = accepts c /\ sent c' = sent c.
Proof.
  intros Ht Hp Hok Hs; unfold frame in Hs; rewrite u32_small, <- app_assoc in Hs by done.
  destruct (readExact_spec 5 c _ _ Hok Hs eq_refl) as (c1 & E1 & Hs1 & Hok1 & Ha1 & Hse1).
  unfold readFrame; rewrite E1; cbn [mbind option_bind frameHeader].
  rewrite WireType_of_to, frameLength_header by done.
  destruct (N.eqb_spec (nlen payload) 0) as [E0|_].
  - apply nlen_zero in E0 as ->; by exists c1.
  - destruct (readExact_spec (N.to_nat (nlen payload)) c1 payload t Hok1 Hs1) as (c2 & -> & ? & ? & ? & ?);
      [unfold nlen; lia|].
    exists c2; split_and!; try done; congruence.
Qed.

(** ** Theorem *)

(** Framing is transparent.  If [writeFrame] reports success, then a peer that
    reads the written bytes, in whatever segments they arrive and whatever
    follows them, gets the same type and payload from [readFrame] and is left at
    the first byte after the frame. *)
Theorem frame_roundtrip (type : WireType) (payload : bytes) (c c' peer : Conn) (later : bytes)
    (Ht : WireType_valid type) (Hp : nlen payload < U32) (Hc : sent c = [])
    (Hw : writeFrame type payload c = (true, c'))
    (Hok : segments_ok peer) (Hs : stream peer = sent c' ++ later) :
  exists peer', readFrame peer = Some (type, payload, peer') /\ stream peer' = later.
Proof.
  apply writeFrame_spec in Hw as (_ & p & Hp' & _ & Hall); rewrite Hc, Hall in Hp' by done.
  rewrite Hp' in Hs; destruct (readFrame_spec _ _ _ _ Ht Hp Hok Hs) as (c1 & ? & ? & _); eauto.
Qed.

(** The payload "hi", accepted by [send] in pieces of three bytes at most and
    received in other pieces. *)
Lemma frame_roundtrip_witness :
  let c := mkConn [] [3; 1; 1; 9] [] in
  exists peer', readFrame (mkConn [take 2 (frame WClientRequest (str "hi")); drop 2 (frame WClientRequest (str "hi"))] [] [])
    = Some (WClientRequest, str "hi", peer') /\ stream peer' = [].
Proof.
  cbv zeta; eapply (frame_roundtrip WClientRequest (str "hi") (mkConn [] [3; 1; 1; 9] []) _ _ []);
    [exact I|reflexivity|reflexivity|vm_compute; reflexivity|repeat constructor; discriminate|reflexivity].
Defined.
