(* ===== verification/Sockets.v ===== *)
(** * Listening sockets

    What the servers use of the socket interface before a connection exists:
    [socket], [bind], [listen], [shutdown] and [close], as POSIX and the Linux
    manual pages describe them, and the sequence of calls both servers start with.
    The results of [bind] and [listen] are not looked at by the code, so they are
    visible only in the table of sockets. *)
From stdpp Require Import base tactics list gmap numbers option.
From Stdlib Require Import NArith ZArith Lia.
From S2P Require Import Prelude.

Local Open Scope N_scope.

Abbreviation Fd := N.

(** A stream socket that is not connected.  [ls_backlog] is set by [listen]. *)
Record Listener := mkListener {
  ls_port : option N;
  ls_backlog : option N;
  ls_shut : bool;
  ls_nonblocking : bool
}.

#[global] Instance Listener_eq_dec : EqDecision Listener.
Proof. solve_decision. Defined.

(** The sockets of the machine, by descriptor. *)
Abbreviation Host := (gmap Fd Listener).
Implicit Types h : Host.

(** A socket that takes connections. *)
Definition live (l : Listener) : bool := match ls_backlog l with Some _ => negb (ls_shut l) | None => false end.

Definition listensOn (port : N) (l : Listener) : bool := live l && bool_decide (ls_port l = Some port).

Definition portTaken (port : N) h : bool := existsb (fun p => listensOn port p.2) (map_to_list h).

(** ** The system calls *)
Definition newSocket (fd : Fd) h : Host := <[fd := mkListener None None false false]> h.

(** With [SO_REUSEADDR] a port can be bound unless a socket listens on it.  Port 0
    asks for any port, which [listen] gives to a socket without one. *)
Definition bindTo (fd : Fd) (port : N) h : Host :=
  if (port =? 0) || portTaken port h then h
  else alter (fun l => mkListener (Some port) (ls_backlog l) (ls_shut l) (ls_nonblocking l)) fd h.

(** [ephemeral] is the port the system chooses for an unbound socket. *)
Definition listenFor (fd : Fd) (backlog ephemeral : N) h : Host :=
  match h !! fd with
  | None => h
  | Some l =>
      let port := default ephemeral (ls_port l) in
      if portTaken port h then h
      else <[fd := mkListener (Some port) (Some backlog) (ls_shut l) (ls_nonblocking l)]> h
  end.

Definition setNonBlocking (fd : Fd) h : Host :=
  alter (fun l => mkListener (ls_port l) (ls_backlog l) (ls_shut l) true) fd h.

Definition shutdownFd (fd : Fd) h : Host :=
  alter (fun l => mkListener (ls_port l) (ls_backlog l) true (ls_nonblocking l)) fd h.

Definition closeListener (fd : Fd) h : Host := delete fd h.

(** A call of [accept] on this descriptor waits until a connection arrives.  On a
    socket that has been shut down, and on a number that is no socket, the call fails
    at once.  This is about a call that begins: a thread that already waits in
    [accept] is woken by [shutdown] of the socket and not by [close] of the number,
    which leaves the socket it waits on. *)
Definition acceptBlocks (fd : option Fd) h : bool :=
  match fd with
  | None => false
  | Some fd => match h !! fd with Some l => live l && negb (ls_nonblocking l) | None => false end
  end.

Definition acceptsOn (fd : option Fd) h : bool :=
  match fd with
  | None => false
  | Some fd => match h !! fd with Some l => live l | None => false end
  end.

(** ** How a server opens its port *)

(** [htons(static_cast<uint16_t>(port_))], as a number. *)
Definition portOf (port : Z) : N := Z.to_N (port mod 65536).

(** [fd] is the result of [socket]; every call fails on [-1]. *)
Definition openPort (port : Z) (backlog : N) (fd : option Fd) (ephemeral : N) h : Host :=
  match fd with
  | None => h
  | Some fd => listenFor fd backlog ephemeral (bindTo fd (portOf port) (newSocket fd h))
  end.

Lemma portTaken_true port h : portTaken port h = true <-> exists fd l, h !! fd = Some l /\ listensOn port l = true.
Proof.
  unfold portTaken; rewrite existsb_exists; split.
  - intros ([fd l] & Hin%list_elem_of_In%elem_of_map_to_list & Hl); by exists fd, l.
  - intros (fd & l & Hl & Hp); exists (fd, l); split; [by apply list_elem_of_In, elem_of_map_to_list|done].
Qed.

Lemma portTaken_new port fd h l :
  h !! fd = None -> live l = false -> portTaken port (<[fd := l]> h) = portTaken port h.
Proof.
  intros Hfd Hl; apply eq_true_iff_eq; rewrite !portTaken_true; split; intros (x & k & Hk & Hp); exists x, k; split; try done.
  - apply lookup_insert_Some in Hk as [[<- <-]|[_ Hk]]; [unfold listensOn in Hp; by rewrite Hl in Hp|done].
  - rewrite lookup_insert_ne; [done|]; by intros ->; rewrite Hfd in Hk.
Qed.

(** Where a server ends up listening: on its port when that is free, and otherwise,
    without any sign of it, on a port of the system's choice. *)
Lemma openPort_port port backlog fd e h :
  h !! fd = None -> portTaken e h = false ->
  exists l, openPort port backlog (Some fd) e h !! fd = Some l /\ live l = true /\ ls_nonblocking l = false /\
    ls_port l = Some (if (portOf port =? 0) || portTaken (portOf port) h then e else portOf port).
Proof.
  intros Hfd He; unfold openPort, bindTo; unfold newSocket at 1.
  rewrite portTaken_new by done; destruct ((portOf port =? 0) || portTaken (portOf port) h) eqn:Ht.
  - unfold listenFor, newSocket; rewrite lookup_insert_eq; simpl; rewrite portTaken_new, He by done.
    rewrite lookup_insert_eq; by eexists.
  - apply orb_false_elim in Ht as [_ Ht]; unfold listenFor, newSocket; rewrite lookup_alter_eq, lookup_insert_eq; simpl.
    rewrite alter_insert_eq, portTaken_new, Ht, lookup_insert_eq by done; by eexists.
Qed.

Lemma openPort_other port backlog fd e h x : x <> fd -> openPort port backlog (Some fd) e h !! x = h !! x.
Proof.
  intros Hx; unfold openPort, listenFor.
  assert (bindTo fd (portOf port) (newSocket fd h) !! x = h !! x) as Hb.
  { unfold bindTo; destruct (_ || _); [|rewrite lookup_alter_ne by done]; unfold newSocket; by rewrite lookup_insert_ne. }
  destruct (bindTo _ _ _ !! fd); [|done]; destruct (portTaken _ _); [done|by rewrite lookup_insert_ne].
Qed.

(** The port a server gets is taken afterwards, and no other one is. *)
Lemma openPort_taken q port backlog fd e h :
  h !! fd = None -> portTaken e h = false ->
  portTaken q (openPort port backlog (Some fd) e h) =
    portTaken q h || (q =? if (portOf port =? 0) || portTaken (portOf port) h then e else portOf port).
Proof.
  intros Hfd He; destruct (openPort_port port backlog fd e h Hfd He) as (l & Hl & Hlive & _ & Hp).
  apply eq_true_iff_eq; rewrite orb_true_iff, N.eqb_eq, !portTaken_true; split.
  - intros (x & k & Hk & Hq); destruct (decide (x = fd)) as [->|Hx].
    + right; rewrite Hl in Hk; injection Hk as <-; unfold listensOn in Hq; rewrite Hlive, Hp in Hq; simpl in Hq.
      apply bool_decide_eq_true in Hq; congruence.
    + left; exists x, k; by rewrite openPort_other in Hk.
  - intros [(x & k & Hk & Hq)| ->].
    + exists x, k; split; [|done]; rewrite openPort_other; [done|]; by intros ->; rewrite Hfd in Hk.
    + exists fd, l; split; [done|]; unfold listensOn; rewrite Hlive, Hp; simpl; by apply bool_decide_eq_true.
Qed.
