(* ===== verification/PeerTransport.v ===== *)
(** * server/peer_server.h and net/tcp_transport.h: RPCs over TCP

    The two ends of a peer RPC: [TcpTransport]'s blocking round trip over a pooled
    connection and [PeerServer::connLoop].  The class [Rpc] states what the three
    calls have in common (types on the wire, messages, handler), so that the
    transport is treated once; [rpc_transparent] is what the network model of
    [Cluster] relies on. *)
From stdpp Require Import base tactics list gmap numbers strings sorting.
From Stdlib Require Import Ascii NArith Lia.
From S2P Require Import Prelude.
From S2P Require Import Buffer.
From S2P Require Import Types.
From S2P Require Import RpcMessages.
From S2P Require Import PersistentLog.
From S2P Require Import StateMachine.
From S2P Require Import KvStore.
From S2P Require Import RaftNode.
From S2P Require Import RaftNodeFacts.
From S2P Require Import RaftCommit.
From S2P Require Import RaftHandlers.
From S2P Require Import Wire.

Local Open Scope N_scope.

Section peer.
Context {S : Type} `{StateMachine S}.

(** ** The server end *)

(** [PeerServer::shards_] *)
Abbreviation PeerServer := (gmap N (RaftNode S)).

Definition registerShard (shardId : N) (node : RaftNode S) (ps : PeerServer) : PeerServer :=
  <[shardId := node]> ps.

(** The body of [connLoop] between [readFrame] and [writeFrame]: [None] is a
    [break], an exception of [decode] or of the handler ends the process. *)
Definition serve (type : WireType) (payload : bytes) (ps : PeerServer) :
    outcome (option (PeerServer * WireType * bytes)) :=
  if nlen payload <? 4 then mret None
  else
    '(shardId, _) ← getU32 (Reader_of (take 4 payload));
    let body := drop 4 payload in
    match ps !! shardId with
    | None => mret None
    | Some node =>
        match type with
        | WRequestVoteReq =>
            '(req, _) ← RequestVoteReq_decode (Reader_of body);
            let '(node, resp) := handleRequestVote req node in
            mret (Some (<[shardId := node]> ps, WRequestVoteResp, RequestVoteResp_encode resp []))
        | WAppendEntriesReq =>
            '(req, _) ← AppendEntriesReq_decode (Reader_of body);
            '(node, resp) ← handleAppendEntries req node;
            mret (Some (<[shardId := node]> ps, WAppendEntriesResp, AppendEntriesResp_encode resp []))
        | WInstallSnapshotReq =>
            '(req, _) ← InstallSnapshotReq_decode (Reader_of body);
            '(node, resp) ← handleInstallSnapshot req node;
            mret (Some (<[shardId := node]> ps, WInstallSnapshotResp, InstallSnapshotResp_encode resp []))
        | _ => mret None
        end
    end.

(** One round of [connLoop]: the nodes, the connection, and whether the loop goes
    on.  A handler that has run has run, also when the answer cannot be written. *)
Definition connRound (c : Conn) (ps : PeerServer) : outcome (PeerServer * Conn * bool) :=
  match readFrame c with
  | None => mret (ps, c, false)
  | Some (type, payload, c) =>
      r ← serve type payload ps;
      match r with
      | None => mret (ps, c, false)
      | Some (ps, respType, respPayload) =>
          let '(ok, c) := writeFrame respType respPayload c in
          mret (ps, c, ok)
      end
  end.

(** The loop, for at most [fuel] rounds; [None] when they are used up. *)
Fixpoint connLoop (fuel : nat) (c : Conn) (ps : PeerServer) : option (outcome (PeerServer * Conn)) :=
  match fuel with
  | O => None
  | Datatypes.S fuel' =>
      match connRound c ps with
      | Throw e => Some (Throw e)
      | Ok (ps, c, go) => if (go : bool) then connLoop fuel' c ps else Some (Ok (ps, c))
      end
  end.

(** ** The client end *)
Record TcpTransport := mkTcpTransport {
  shardId_ : N;
  peerAddrs_ : gmap N (bytes * Z);
  conns_ : gmap N (option Conn)
}.

Definition set_conn (to : NodeId) (c : option Conn) (t : TcpTransport) : TcpTransport :=
  mkTcpTransport (shardId_ t) (peerAddrs_ t) (<[to := c]> (conns_ t)).

(** [connectTo] is the operating system's. *)
Definition getConn (connectTo : bytes -> Z -> option Conn) (to : NodeId) (t : TcpTransport) :
    option Conn * TcpTransport :=
  match conns_ t !! to with
  | Some (Some c) => (Some c, t)
  | _ =>
      match peerAddrs_ t !! to with
      | None => (None, t)
      | Some (host, port) => let c := connectTo host port in (c, set_conn to c t)
      end
  end.

Definition dropConn (to : NodeId) (t : TcpTransport) : TcpTransport :=
  match conns_ t !! to with Some _ => set_conn to None t | None => t end.

(** The end of the destructor, after the workers have gone: the connections it
    closes. *)
Definition closeConns (t : TcpTransport) : list Conn := omap snd (map_to_list (conns_ t)).

Lemma closeConns_spec t c : c ∈ closeConns t <-> exists to, conns_ t !! to = Some (Some c).
Proof.
  unfold closeConns; rewrite list_elem_of_omap; split.
  - intros ([to oc] & Hin & Hc); simpl in Hc; subst; exists to; by apply elem_of_map_to_list.
  - intros [to Hto]; exists (to, Some c); by rewrite elem_of_map_to_list.
Qed.

(** [peer] is what happens on the connection between the write and the read. *)
Definition roundTrip (connectTo : bytes -> Z -> option Conn) (peer : Conn -> Conn)
    (to : NodeId) (type : WireType) (payload : bytes) (t : TcpTransport) : option bytes * TcpTransport :=
  let '(c, t) := getConn connectTo to t in
  match c with
  | None => (None, t)
  | Some c =>
      let framed := putU32 (shardId_ t) [] ++ payload in
      let '(ok, c) := writeFrame type framed c in
      if ok then
        match readFrame (peer c) with
        | Some (_, resp, c) => (Some resp, set_conn to (Some c) t)
        | None => (None, dropConn to t)
        end
      else (None, dropConn to t)
  end.

(** ** The three calls *)
Class Rpc (Req Resp : Type) `{Codec Req, Codec Resp} := {
  reqType : WireType;
  respType : WireType;
  handler : Req -> RaftNode S -> outcome (RaftNode S * Resp)
}.

#[global] Instance RequestVote_rpc : Rpc RequestVoteReq RequestVoteResp := {|
  reqType := WRequestVoteReq; respType := WRequestVoteResp;
  handler := fun req n => Ok (handleRequestVote req n) |}.

#[global] Instance AppendEntries_rpc : Rpc AppendEntriesReq AppendEntriesResp := {|
  reqType := WAppendEntriesReq; respType := WAppendEntriesResp; handler := handleAppendEntries |}.

#[global] Instance InstallSnapshot_rpc : Rpc InstallSnapshotReq InstallSnapshotResp := {|
  reqType := WInstallSnapshotReq; respType := WInstallSnapshotResp; handler := handleInstallSnapshot |}.

(** [sendRequestVote], [sendAppendEntries] and [sendInstallSnapshot]: the argument
    of the callback, [None] for [cb(false, {})]. *)
Definition sendRpc {Req Resp} `{Rpc Req Resp} (connectTo : bytes -> Z -> option Conn) (peer : Conn -> Conn)
    (to : NodeId) (req : Req) (t : TcpTransport) : outcome (option Resp * TcpTransport) :=
  let '(r, t) := roundTrip connectTo peer to reqType (encode req []) t in
  match r with
  | None => mret (None, t)
  | Some resp => '(x, _) ← decode (Reader_of resp); mret (Some x, t)
  end.

(** ** The two ends together *)

(** What happens on the connection of a call that is alone on it: the server end [sc]
    gets what the client end has written after its first [before] bytes, in segments
    [cut], and makes a round; the client end then gets what the server has written in
    that round. *)
Definition served_by (ps : PeerServer) (cut cut' : bytes -> list bytes) (sc : Conn) (before : nat) (c : Conn) : Conn :=
  match connRound (mkConn (inbox sc ++ cut (drop before (sent c))) (accepts sc) (sent sc)) ps with
  | Ok (_, sc', true) => mkConn (inbox c ++ cut' (drop (length (sent sc)) (sent sc'))) (accepts c) (sent c)
  | _ => c
  end.

Definition cuts (cut : bytes -> list bytes) : Prop :=
  forall b, concat (cut b) = b /\ Forall (fun s : bytes => s <> []) (cut b).

Lemma getU32_prefix sid : sid < U32 -> exists r, getU32 (Reader_of (putU32 sid [])) = Ok (sid, r).
Proof.
  intros Hs; eexists; rewrite putU32_app; apply (proj1 (parses_whole _ _ _ (parses_U32 sid Hs))).
Qed.

Lemma serve_head sid body :
  sid < U32 ->
  (nlen (putU32 sid [] ++ body) <? 4) = false /\
  (exists r, getU32 (Reader_of (take 4 (putU32 sid [] ++ body))) = Ok (sid, r)) /\
  drop 4 (putU32 sid [] ++ body) = body.
Proof.
  intros Hs; assert (length (putU32 sid []) = 4)%nat as H4 by (rewrite putU32_app; apply length_le_bytes).
  split_and!.
  - apply N.ltb_ge; rewrite nlen_app; unfold nlen; lia.
  - rewrite <- H4, take_app_length; by apply getU32_prefix.
  - by rewrite <- H4, drop_app_length.
Qed.

(** What [PeerServer] promises for a call: a request framed by [roundTrip] reaches
    the handler of its shard, and the answer is the handler's. *)
Class RpcLaws (Req Resp : Type) `{Rpc Req Resp} := {
  rpc_types : WireType_valid reqType /\ WireType_valid respType;
  rpc_served : forall sid ps n n' (req : Req) (resp : Resp),
    sid < U32 -> ps !! sid = Some n -> valid req -> handler req n = Ok (n', resp) ->
    serve reqType (putU32 sid [] ++ encode req []) ps =
      Ok (Some (<[sid := n']> ps, respType, encode resp []))
}.

Ltac solve_served :=
  intros sid ps n n' req resp Hs Hn Hv Hh; unfold serve;
  destruct (serve_head sid (encode req []) Hs) as (-> & [r ->] & ->);
  cbn [mbind outcome_bind]; rewrite Hn; cbn [reqType RequestVote_rpc AppendEntries_rpc InstallSnapshot_rpc];
  change (RequestVoteReq_decode) with (@decode RequestVoteReq _);
  change (AppendEntriesReq_decode) with (@decode AppendEntriesReq _);
  change (InstallSnapshotReq_decode) with (@decode InstallSnapshotReq _);
  rewrite (codec_decode req Hv); cbn [mbind outcome_bind];
  cbn [handler RequestVote_rpc AppendEntries_rpc InstallSnapshot_rpc] in Hh.

#[global] Instance RequestVote_laws : RpcLaws RequestVoteReq RequestVoteResp.
Proof. split; [done|]; solve_served; injection Hh as ->; done. Qed.

#[global] Instance AppendEntries_laws : RpcLaws AppendEntriesReq AppendEntriesResp.
Proof. split; [done|]; solve_served; rewrite Hh; done. Qed.

#[global] Instance InstallSnapshot_laws : RpcLaws InstallSnapshotReq InstallSnapshotResp.
Proof. split; [done|]; solve_served; rewrite Hh; done. Qed.

Lemma cut_conn cut b acc out : cuts cut -> segments_ok (mkConn (cut b) acc out) /\ stream (mkConn (cut b) acc out) = b.
Proof. intros Hc; destruct (Hc b); by split. Qed.

Lemma stream_nil c : segments_ok c -> stream c = [] -> c = mkConn [] (accepts c) (sent c).
Proof.
  destruct c as [inb acc out]; unfold segments_ok, stream; cbn [inbox accepts sent].
  intros Hok Hs; destruct inb as [|seg inb]; [done|exfalso].
  apply Forall_cons in Hok as [Hne _]; simpl in Hs; by destruct seg.
Qed.

(** A round on an idle connection that brings one frame. *)
Lemma connRound_one type payload rt rp (cut : bytes -> list bytes) sc ps ps' :
  cuts cut -> WireType_valid type -> nlen payload < U32 -> inbox sc = [] -> serve type payload ps = Ok (Some (ps', rt, rp)) ->
  (writeFrame rt rp sc).1 = true ->
  exists sc', connRound (mkConn (inbox sc ++ cut (frame type payload)) (accepts sc) (sent sc)) ps = Ok (ps', sc', true) /\
    inbox sc' = [] /\ sent sc' = sent sc ++ frame rt rp.
Proof.
  intros Hcut Ht Hl Hi Hs Hw; rewrite Hi, app_nil_l.
  destruct (cut_conn cut (frame type payload) (accepts sc) (sent sc) Hcut) as [Hok Hst].
  rewrite <- (app_nil_r (frame _ _)) in Hst at 2.
  destruct (readFrame_spec _ _ _ _ Ht Hl Hok Hst) as (c1 & Er & Hs1 & Hok1 & Ha1 & Hse1).
  rewrite (stream_nil _ Hok1 Hs1), Ha1, Hse1 in Er; cbn [accepts sent] in Er.
  replace (mkConn [] (accepts sc) (sent sc)) with sc in Er by (destruct sc; simpl in *; by subst).
  unfold connRound; rewrite Er, Hs; cbn [mbind outcome_bind].
  destruct (writeFrame rt rp sc) as [ok sc'] eqn:Ew; cbn [fst] in Hw; subst ok; exists sc'; split; [done|].
  apply writeFrame_spec in Ew as (Hi' & p & Hp & _ & Hall); by rewrite Hi', Hp, (Hall eq_refl).
Qed.

(** C16: the TCP transport is transparent.  A call of [TcpTransport] that is alone on
    its connection (pooled and used before, or new), when the earlier answers have
    been read and both writes succeed, against a server that hosts the shard and
    whose handler runs in one step: the handler of the target node runs exactly once
    on exactly the request, the callback gets exactly the handler's answer, however
    the bytes are cut into segments on either side, and the pool keeps the
    connection with nothing left to read on either end, so that the next call finds
    it in the same condition.  This holds for each of the three RPCs. *)
Theorem rpc_transparent (Req Resp : Type) (CReq : Codec Req) (CResp : Codec Resp) (R : Rpc Req Resp)
    (L : RpcLaws Req Resp) (connectTo : bytes -> Z -> option Conn) (cut cut' : bytes -> list bytes)
    (to : NodeId) (t t1 : TcpTransport) (c sc : Conn) (ps : PeerServer)
    (n n' : RaftNode S) (req : Req) (resp : Resp)
    (Hc : getConn connectTo to t = (Some c, t1)) (Hidle : inbox c = []) (Hsidle : inbox sc = [])
    (Hcut : cuts cut) (Hcut' : cuts cut') (Hsid : shardId_ t1 < U32) (Hn : ps !! shardId_ t1 = Some n)
    (Hv : valid req) (Hv' : valid resp) (Hh : handler req n = Ok (n', resp))
    (Hl : nlen (encode req []) + 4 < U32) (Hl' : nlen (encode resp []) < U32)
    (Hw : (writeFrame reqType (putU32 (shardId_ t1) [] ++ encode req []) c).1 = true)
    (Hw' : (writeFrame respType (encode resp []) sc).1 = true) :
  let request := frame reqType (putU32 (shardId_ t1) [] ++ encode req []) in
  let answer := frame respType (encode resp []) in
  exists c' sc',
    sendRpc connectTo (served_by ps cut cut' sc (length (sent c))) to req t = Ok (Some resp, set_conn to (Some c') t1) /\
    inbox c' = [] /\ sent c' = sent c ++ request /\
    connRound (mkConn (inbox sc ++ cut request) (accepts sc) (sent sc)) ps = Ok (<[shardId_ t1 := n']> ps, sc', true) /\
    inbox sc' = [] /\ sent sc' = sent sc ++ answer.
Proof.
  set (framed := putU32 (shardId_ t1) [] ++ encode req []) in *; intros request answer; destruct rpc_types as [Htr Hts].
  assert (nlen framed < U32) as Hfl.
  { unfold framed; rewrite nlen_app; unfold nlen at 1; rewrite putU32_app, app_nil_l, length_le_bytes; lia. }
  destruct (connRound_one reqType framed respType (encode resp []) cut sc ps (<[shardId_ t1 := n']> ps)) as (sc' & Hround & Hsi & Hss);
    [done|done|done|done|by apply (rpc_served _ _ n _ _ _)|done|].
  destruct (writeFrame reqType framed c) as [ok c3] eqn:Ew; cbn [fst] in Hw; subst ok.
  apply writeFrame_spec in Ew as Ews; destruct Ews as (Hi3 & p & Hp & _ & Hall); rewrite (Hall eq_refl) in Hp.
  destruct (cut_conn cut' answer (accepts c3) (sent c3) Hcut') as [Hok' Hst'].
  rewrite <- (app_nil_r answer) in Hst' at 2.
  destruct (readFrame_spec _ _ _ _ Hts Hl' Hok' Hst') as (c4 & Er' & Hs4 & Hok4 & _ & Hse4).
  exists c4, sc'; split_and!; [|by rewrite (stream_nil _ Hok4 Hs4)|by rewrite Hse4|exact Hround|done|done].
  unfold sendRpc, roundTrip; rewrite Hc; fold framed; rewrite Ew.
  assert (served_by ps cut cut' sc (length (sent c)) c3 = mkConn (cut' answer) (accepts c3) (sent c3)) as ->.
  { unfold served_by; rewrite Hp, drop_app_length; rewrite Hround, Hss, drop_app_length, Hi3, Hidle; done. }
  rewrite Er', (codec_decode resp Hv'); reflexivity.
Qed.

(** ** Many requests on one connection *)

(** The answers to a list of requests, in order. *)
Fixpoint serveAll (fs : list (WireType * bytes)) (ps : PeerServer) : outcome (option (PeerServer * list (WireType * bytes))) :=
  match fs with
  | [] => mret (Some (ps, []))
  | (type, payload) :: fs' =>
      r ← serve type payload ps;
      match r with
      | None => mret None
      | Some (ps, rt, rp) =>
          r ← serveAll fs' ps;
          mret (match r with Some (ps, rs) => Some (ps, (rt, rp) :: rs) | None => None end)
      end
  end.

(** The sends take all of [rs]. *)
Fixpoint takesAll (rs : list (WireType * bytes)) (acc : list N) : bool :=
  match rs with
  | [] => true
  | (type, payload) :: rs' =>
      let '(ok, c) := writeFrame type payload (mkConn [] acc []) in ok && takesAll rs' (accepts c)
  end.

Definition fits (p : WireType * bytes) : Prop := WireType_valid p.1 /\ nlen p.2 < U32.

Lemma readFrame_end c : segments_ok c -> stream c = [] -> readFrame c = None.
Proof. intros Hok Hs; rewrite (stream_nil c Hok Hs); done. Qed.

(** Requests of a peer are served in order.  On a connection that carries a
    sequence of requests in frames, in whatever segments, and then ends, [connLoop]
    runs each request once, in order, writes exactly the frames of the answers, and
    returns. *)
Theorem peer_requests_in_order (fs rs : list (WireType * bytes)) (c : Conn) (ps ps' : PeerServer)
    (Hok : segments_ok c) (Hs : stream c = wire_bytes fs) (Hf : Forall fits fs)
    (Hsv : serveAll fs ps = Ok (Some (ps', rs))) (Hw : takesAll rs (accepts c) = true) :
  exists c', connLoop (Datatypes.S (length fs)) c ps = Some (Ok (ps', c')) /\ sent c' = sent c ++ wire_bytes rs.
Proof.
  revert c ps rs Hok Hs Hsv Hw; induction Hf as [|[type payload] fs [Ht Hl] _ IH]; intros c ps rs Hok Hs Hsv Hw; cbn [connLoop].
  - injection Hsv as <- <-; unfold connRound; rewrite (readFrame_end c Hok Hs); exists c; unfold wire_bytes; simpl; by rewrite app_nil_r.
  - cbn [serveAll] in Hsv; apply outcome_bind_Ok in Hsv as ([[[ps1 rt] rp]|] & Hse & Hsv); [|done].
    apply outcome_bind_Ok in Hsv as ([[ps2 rs1]|] & Hall & Hsv); [|done]; injection Hsv as -> <-.
    change (wire_bytes ((type, payload) :: fs)) with (frame type payload ++ wire_bytes fs) in Hs.
    destruct (readFrame_spec type payload c (wire_bytes fs) Ht Hl Hok Hs) as (c1 & Er & Hs1 & Hok1 & Ha1 & Hse1).
    cbn [takesAll] in Hw.
    destruct (writeFrame_accepts rt rp c1 (mkConn [] (accepts c) [])) as [Hw1 Hw2]; [done|].
    destruct (writeFrame rt rp c1) as [ok c2] eqn:Ew; destruct (writeFrame rt rp (mkConn [] (accepts c) [])) as [ok' c2'].
    cbn [fst snd] in Hw1, Hw2; subst ok'; apply andb_prop in Hw as [-> Hw].
    assert (connRound c ps = Ok (ps1, c2, true)) as -> by (unfold connRound; by rewrite Er, Hse; cbn; rewrite Ew).
    apply writeFrame_spec in Ew as (Hi & q & Hq & _ & Hfull); rewrite (Hfull eq_refl) in Hq.
    destruct (IH c2 ps1 rs1) as (c' & Hc' & Hsent); [unfold segments_ok; by rewrite Hi|unfold stream; by rewrite Hi|done|by rewrite Hw2|].
    exists c'; split; [exact Hc'|]; rewrite Hsent, Hq, Hse1; unfold wire_bytes; cbn [fmap list_fmap concat fst snd]; by rewrite <- app_assoc.
Qed.

End peer.

(** ** A heartbeat, byte by byte *)
Definition bytewise (b : bytes) : list bytes := (fun x => [x]) <$> b.

Lemma bytewise_cuts : cuts bytewise.
Proof.
  intros b; split; [induction b as [|x b IH]; [done|]; simpl; by f_equal|].
  apply Forall_fmap, Forall_forall; done.
Qed.

Definition heartbeat : AppendEntriesReq := mkAppendEntriesReq 2 1 3 2 [] 2.

(** A pooled connection on which a call was made before. *)
Definition used_conn : Conn := mkConn [] [1000; 1000] (frame WAppendEntriesReq (putU32 7 [] ++ AppendEntriesReq_encode heartbeat [])).
Definition used_server : Conn :=
  mkConn [] [1000; 1000] (frame WAppendEntriesResp (AppendEntriesResp_encode (mkAppendEntriesResp 2 true 3 0 0) [])).

Definition tcp_sample : TcpTransport := mkTcpTransport 7 ∅ {[2 := Some used_conn]}.

Lemma rpc_transparent_witness :
  exists n' resp c', handleAppendEntries heartbeat sample_follower = Ok (n', resp) /\
    sendRpc (fun _ _ => None) (served_by {[7 := sample_follower]} bytewise bytewise used_server (length (sent used_conn))) 2 heartbeat tcp_sample
      = Ok (Some resp, set_conn 2 (Some c') tcp_sample) /\ inbox c' = [].
Proof.
  destruct (handleAppendEntries heartbeat sample_follower) as [[n' resp]|] eqn:E; [|vm_compute in E; discriminate].
  assert (resp = mkAppendEntriesResp 2 true 3 0 0) as Er by (vm_compute in E; congruence).
  destruct (rpc_transparent AppendEntriesReq AppendEntriesResp _ _ _ _ (fun _ _ => None) bytewise bytewise 2
    tcp_sample tcp_sample used_conn used_server {[7 := sample_follower]} sample_follower n' heartbeat resp) as (c' & sc' & Ht & Hi & _);
    [reflexivity|reflexivity|reflexivity|exact bytewise_cuts|exact bytewise_cuts|reflexivity|reflexivity|by repeat split
    |rewrite Er; by repeat split|exact E|reflexivity|rewrite Er; reflexivity|vm_compute; reflexivity|rewrite Er; vm_compute; reflexivity|].
  exists n', resp, c'; split; [reflexivity|split; [exact Ht|exact Hi]].
Defined.

(** The heartbeat and a second one. *)
Definition two_requests : list (WireType * bytes) :=
  [(WAppendEntriesReq, putU32 7 [] ++ AppendEntriesReq_encode heartbeat []);
   (WAppendEntriesReq, putU32 7 [] ++ AppendEntriesReq_encode heartbeat [])].

Lemma peer_requests_in_order_witness :
  exists ps' rs c', serveAll two_requests {[7 := sample_follower]} = Ok (Some (ps', rs)) /\
    connLoop 3 (mkConn (bytewise (wire_bytes two_requests)) [1000; 1000; 1000; 1000] []) {[7 := sample_follower]} = Some (Ok (ps', c')) /\
    sent c' = wire_bytes rs /\ length rs = 2%nat.
Proof.
  destruct (serveAll two_requests {[7 := sample_follower]}) as [[[ps' rs]|]|] eqn:E; [|vm_compute in E; discriminate..].
  assert (rs = [(WAppendEntriesResp, AppendEntriesResp_encode (mkAppendEntriesResp 2 true 3 0 0) []);
                (WAppendEntriesResp, AppendEntriesResp_encode (mkAppendEntriesResp 2 true 3 0 0) [])]) as Hrs
    by (vm_compute in E; injection E as _ <-; vm_compute; reflexivity).
  destruct (bytewise_cuts (wire_bytes two_requests)) as [Hc Hne].
  destruct (peer_requests_in_order two_requests rs (mkConn (bytewise (wire_bytes two_requests)) [1000; 1000; 1000; 1000] [])
    {[7 := sample_follower]} ps') as (c' & Hl & Hs); [exact Hne|exact Hc|by repeat constructor|exact E|rewrite Hrs; vm_compute; reflexivity|].
  exists ps', rs, c'; split; [reflexivity|split; [exact Hl|split; [exact Hs|by rewrite Hrs]]].
Defined.

(** ** Calls that overlap *)

(** Two workers of the transport call the same peer over its one connection: the
    first with the heartbeat, the second, when the node stands for term 3 with an
    older log, with a request for a vote. *)
Definition canvass : RequestVoteReq := mkRequestVoteReq 3 1 1 1.

(** The connection after both have written. *)
Definition both_written : Conn :=
  (writeFrame WRequestVoteReq (putU32 7 [] ++ RequestVoteReq_encode canvass [])
    (writeFrame WAppendEntriesReq (putU32 7 [] ++ AppendEntriesReq_encode heartbeat []) (mkConn [] [1000; 1000; 1000; 1000] [])).2).2.

(** The server serves both, in order. *)
Definition both_served : outcome (gmap N (RaftNode KvStore) * Conn * bool) :=
  '(ps, c, _) ← connRound (mkConn (bytewise (sent both_written)) [1000; 1000; 1000; 1000] []) {[7 := sample_follower]};
  connRound c ps.

(** Node 1 as a candidate for term 3 with its own vote. *)
Definition candidate3 : RaftNode KvStore :=
  mkRaftNode (sample_opts 1) KvStore_init (mkPersistentLog ∅ 3 1 0 0 [mkLogEntry 1 1 NoOp []]) Candidate sample_cfg 0 0 0 0
    ∅ ∅ ∅ [] true [] 0 0 {[3 := 1]}.

(** Readers of one connection are not ordered and the type of an answer is not
    checked.  When the second worker is the first to read, the positive answer to
    the heartbeat becomes a vote, and the candidate a leader, although the peer has
    refused its vote. *)
Lemma heartbeat_answer_taken_for_vote :
  exists ps c type resp rest vote n sends,
    both_served = Ok (ps, c, true) /\ readFrame (mkConn [sent c] [] []) = Some (type, resp, rest) /\
    RequestVoteResp_decode (Reader_of resp) = Ok (vote, mkReader resp 9) /\ rvr_voteGranted vote = true /\
    (handleRequestVote canvass sample_follower).2 = mkRequestVoteResp 3 false /\
    onRequestVoteResp 3 2 true vote candidate3 = Ok (n, sends) /\ role_ n = Leader.
Proof.
  do 8 eexists; split; [vm_compute; reflexivity|]; split; [vm_compute; reflexivity|].
  split; [vm_compute; reflexivity|]; split; [vm_compute; reflexivity|]; split; [vm_compute; reflexivity|].
  split; vm_compute; reflexivity.
Qed.
