(* ===== verification/PeerServerLoop.v ===== *)
(** * server/peer_server.h: the listening side

    [PeerServer::start], [acceptLoop], a detached thread per connection, and
    [stop], as steps in any order.  A step of the accept thread is the part between
    two visits of [running_] or of the system, and a thread that waits in [accept]
    is told apart from one that is about to call it; a step of [stop] is one of its
    statements.  A step of a connection thread is [readFrame] with the search of the
    shard, one critical section of the handler ([RaftSections]), or [writeFrame];
    between the sections of a handler the other connection threads move, and the
    node changes on its own ([XNode]).  [ps_log] records every change of a node and
    who made it. *)
From stdpp Require Import base tactics list gmap numbers strings relations sorting.
From Stdlib Require Import Ascii NArith ZArith Lia.
From S2P Require Import Prelude.
From S2P Require Import Buffer.
From S2P Require Import Types.
From S2P Require Import RpcMessages.
From S2P Require Import StateMachine.
From S2P Require Import KvStore.
From S2P Require Import RaftNode.
From S2P Require Import RaftNodeFacts.
From S2P Require Import RaftCommit.
From S2P Require Import RaftHandlers.
From S2P Require Import Sections.
From S2P Require Import RaftSections.
From S2P Require Import Wire.
From S2P Require Import Sockets.
From S2P Require Import PeerTransport.

Local Open Scope N_scope.

Abbreviation Msg := (WireType * bytes)%type.

(** Where the accept thread is: at [while (running_)], before the call of [accept],
    waiting in it, at [if (!running_)], or returned.  A waiting thread is [woken]
    when the socket has been shut down. *)
Inductive AcceptThread : Type := NotStarted | AtWhile | AtAccept | Waiting (woken : bool) | AtCheck | Returned.

(** What [stop] has done. *)
Inductive StopThread : Type := NotCalled | FlagCleared | ShutDown | Closed | Joined.

#[global] Instance AcceptThread_eq_dec : EqDecision AcceptThread.
Proof. solve_decision. Defined.
#[global] Instance StopThread_eq_dec : EqDecision StopThread.
Proof. solve_decision. Defined.

(** Who changes a node: a thread of the process that does not belong to this server,
    or connection [k] in its request number [j]. *)
Inductive Actor : Type := OnItsOwn | OfRequest (k j : nat).

#[global] Instance Actor_eq_dec : EqDecision Actor.
Proof. solve_decision. Defined.

Section loop.
Context {S : Type} `{StateMachine S}.

(** The rest of a handler; its result is the frame of the answer. *)
Abbreviation Handler := (Prog (RaftNode S) Send Msg).

(** Where [connLoop] is: before [readFrame], in a handler or behind it (its program
    is then the answer), or returned. *)
Inductive ConnAt : Type := AtRead | InHandler (req : Msg) (shardId : N) (rest : Handler) | Ended.

(** A connection thread: its descriptor, the connection when it was accepted and
    now, where it is, and the requests it has answered. *)
Record PeerConn := mkPeerConn { pc_fd : Fd; pc_origin : Conn; pc_conn : Conn; pc_at : ConnAt; pc_done : list (Msg * Msg) }.

Definition pc_open (c : PeerConn) : bool := match pc_at c with Ended => false | _ => true end.

Record Change := mkChange { ch_by : Actor; ch_shard : N; ch_before : RaftNode S; ch_after : RaftNode S }.

Record PeerProc := mkPeerProc {
  shards_ : gmap N (RaftNode S);
  port_ : Z;
  listenFd_ : option Fd;
  running_ : bool;
  acceptThread_ : AcceptThread;
  stopThread : StopThread;
  conns : list PeerConn;
  host : Host;
  ps_log : list Change
}.
Implicit Types s : PeerProc.

Definition set_thread x s := mkPeerProc (shards_ s) (port_ s) (listenFd_ s) (running_ s) x (stopThread s) (conns s) (host s) (ps_log s).
Definition set_conns x s := mkPeerProc (shards_ s) (port_ s) (listenFd_ s) (running_ s) (acceptThread_ s) (stopThread s) x (host s) (ps_log s).
Definition set_host x s := mkPeerProc (shards_ s) (port_ s) (listenFd_ s) (running_ s) (acceptThread_ s) (stopThread s) (conns s) x (ps_log s).
Definition set_stop x s := mkPeerProc (shards_ s) (port_ s) (listenFd_ s) (running_ s) (acceptThread_ s) x (conns s) (host s) (ps_log s).

(** A node gets a new state. *)
Definition change (ch : Change) s :=
  mkPeerProc (<[ch_shard ch := ch_after ch]> (shards_ s)) (port_ s) (listenFd_ s) (running_ s) (acceptThread_ s) (stopThread s)
    (conns s) (host s) (ps_log s ++ [ch]).

(** The constructor, with the shards registered so far. *)
Definition newPeerServer (port : Z) (shards : gmap N (RaftNode S)) (h : Host) : PeerProc :=
  mkPeerProc shards port None true NotStarted NotCalled [] h [].

(** [start]: [fd] is the result of [socket]. *)
Definition startPeerServer (fd : option Fd) (ephemeral : N) s : PeerProc :=
  mkPeerProc (shards_ s) (port_ s) fd (running_ s) AtWhile (stopThread s) (conns s)
    (openPort (port_ s) 256 fd ephemeral (host s)) (ps_log s).

(** ** [acceptLoop] *)

(** What [accept] returns: the descriptor and the connection, or a negative number;
    [NoConn]: it does not return yet. *)
Inductive AcceptResult : Type := Got (fd : Fd) (c : Conn) | Error | NoConn.

(** [accept] has returned. *)
Definition accepted (r : AcceptResult) s : option PeerProc :=
  match r with
  | Got fd c => Some (set_thread AtWhile (set_conns (conns s ++ [mkPeerConn fd c c AtRead []]) s))
  | Error => Some (set_thread AtCheck s)
  | NoConn => None
  end.

Definition acceptStep (r : AcceptResult) s : option PeerProc :=
  match acceptThread_ s, r with
  | (NotStarted | Returned), _ => None
  | AtWhile, _ => Some (set_thread (if running_ s then AtAccept else Returned) s)
  | AtAccept, NoConn => if acceptBlocks (listenFd_ s) (host s) then Some (set_thread (Waiting false) s) else None
  | (AtAccept | Waiting _), _ => accepted r s
  | AtCheck, _ => Some (set_thread (if running_ s then AtWhile else Returned) s)
  end.

(** ** [connLoop] *)

(** A handler and the encoding of its result. *)
Definition reply {A} (p : Prog (RaftNode S) Send A) (encoded : A -> Msg) : Handler := bindP (fun resp => Ret (encoded resp)) p.

(** From the frame to the call of the handler: the shard and the handler; [None] is
    a [break], an exception of [decode] ends the process. *)
Definition rpcOf (type : WireType) (payload : bytes) (ps : gmap N (RaftNode S)) : outcome (option (N * Handler)) :=
  if nlen payload <? 4 then mret None
  else
    '(shardId, _) ← getU32 (Reader_of (take 4 payload));
    let body := drop 4 payload in
    match ps !! shardId with
    | None => mret None
    | Some _ =>
        match type with
        | WRequestVoteReq =>
            '(req, _) ← RequestVoteReq_decode (Reader_of body);
            mret (Some (shardId, reply (handleRequestVote_p req) (fun resp => (WRequestVoteResp, RequestVoteResp_encode resp []))))
        | WAppendEntriesReq =>
            '(req, _) ← AppendEntriesReq_decode (Reader_of body);
            mret (Some (shardId, reply (handleAppendEntries_p req) (fun resp => (WAppendEntriesResp, AppendEntriesResp_encode resp []))))
        | WInstallSnapshotReq =>
            '(req, _) ← InstallSnapshotReq_decode (Reader_of body);
            mret (Some (shardId, reply (handleInstallSnapshot_p req) (fun resp => (WInstallSnapshotResp, InstallSnapshotResp_encode resp []))))
        | _ => mret None
        end
    end.

Definition readStep (k : nat) s : option (outcome PeerProc) :=
  match conns s !! k with
  | Some (mkPeerConn fd c0 c AtRead d) =>
      let at_ c x := set_conns (<[k := mkPeerConn fd c0 c x d]> (conns s)) s in
      match readFrame c with
      | None => Some (Ok (at_ c Ended))
      | Some (type, payload, c) =>
          match rpcOf type payload (shards_ s) with
          | Throw e => Some (Throw e)
          | Ok None => Some (Ok (at_ c Ended))
          | Ok (Some (shardId, h)) => Some (Ok (at_ c (InHandler (type, payload) shardId h)))
          end
      end
  | _ => None
  end.

(** The next critical section of the handler. *)
Definition sectionStep (k : nat) s : option (outcome PeerProc) :=
  match conns s !! k with
  | Some (mkPeerConn fd c0 c (InHandler req shardId h) d) =>
      n ← shards_ s !! shardId;
      r ← advance h n;
      Some (match r with
            | Throw e => Throw e
            | Ok (n', _, h') =>
                Ok (change (mkChange (OfRequest k (length d)) shardId n n')
                  (set_conns (<[k := mkPeerConn fd c0 c (InHandler req shardId h') d]> (conns s)) s))
            end)
  | _ => None
  end.

(** The handler has returned: [writeFrame]. *)
Definition replyStep (k : nat) s : option PeerProc :=
  match conns s !! k with
  | Some (mkPeerConn fd c0 c (InHandler req _ (Ret resp)) d) =>
      let '(ok, c) := writeFrame resp.1 resp.2 c in
      Some (set_conns (<[k := mkPeerConn fd c0 c (if ok then AtRead else Ended) (d ++ [(req, resp)])]> (conns s)) s)
  | _ => None
  end.

(** ** [stop] *)

(** [shutdown] ends the wait of a thread in [accept]; [close] does not. *)
Definition wakeAccept s : PeerProc := match acceptThread_ s with Waiting _ => set_thread (Waiting true) s | _ => s end.

Definition stopStep s : option PeerProc :=
  match stopThread s with
  | NotCalled =>
      Some (mkPeerProc (shards_ s) (port_ s) (listenFd_ s) false (acceptThread_ s) FlagCleared (conns s) (host s) (ps_log s))
  | FlagCleared =>
      Some (set_stop ShutDown (match listenFd_ s with Some fd => wakeAccept (set_host (shutdownFd fd (host s)) s) | None => s end))
  | ShutDown =>
      Some (set_stop Closed (match listenFd_ s with Some fd => set_host (closeListener fd (host s)) s | None => s end))
  | Closed =>
      match acceptThread_ s with
      | NotStarted | Returned => Some (set_stop Joined s)
      | _ => None
      end
  | Joined => None
  end.

(** ** Runs *)

(** [XNode] is a step of another thread on a node (its timer, a callback, a client's
    proposal), which can have any effect; [XOpen] is another part of the process
    opening a socket. *)
Inductive XEvent : Type :=
| XAccept (r : AcceptResult)
| XRead (k : nat)
| XSection (k : nat)
| XReply (k : nat)
| XStop
| XNode (shardId : N) (n' : RaftNode S)
| XOpen (fd : Fd) (l : Listener).

(** An exception ends the process. *)
Definition survives (r : option (outcome PeerProc)) : option PeerProc :=
  match r with Some (Ok s) => Some s | _ => None end.

Definition xexec (ev : XEvent) s : option PeerProc :=
  match ev with
  | XAccept r => acceptStep r s
  | XRead k => survives (readStep k s)
  | XSection k => survives (sectionStep k s)
  | XReply k => replyStep k s
  | XStop => stopStep s
  | XNode shardId n' => n ← shards_ s !! shardId; Some (change (mkChange OnItsOwn shardId n n') s)
  | XOpen fd l => Some (set_host (<[fd := l]> (host s)) s)
  end.

Definition connFds (cs : list PeerConn) : list Fd := pc_fd <$> filter (fun k => pc_open k = true) cs.

Definition openFds s : gset Fd := dom (host s) ∪ list_to_set (connFds (conns s)).

(** The promises of the system: a new descriptor is not in use, [accept] gives
    connections of sockets that listen, and none to a thread that [shutdown] has
    woken. *)
Definition xpossible (ev : XEvent) s : Prop :=
  match ev with
  | XAccept (Got fd c) =>
      (acceptThread_ s = AtAccept -> acceptsOn (listenFd_ s) (host s) = true) /\ acceptThread_ s <> Waiting true /\
      (fd ∉ openFds s) /\ segments_ok c
  | XOpen fd _ => fd ∉ openFds s
  | _ => True
  end.

(** The steps of the accept thread and of [stop] that nothing but the scheduler can
    hold up. *)
Definition unblocked (ev : XEvent) s : Prop :=
  match ev with
  | XAccept Error =>
      match acceptThread_ s with
      | AtAccept => acceptBlocks (listenFd_ s) (host s) = false
      | Waiting woken => woken = true
      | _ => True
      end
  | XAccept NoConn | XStop => True
  | _ => False
  end.

Inductive xstep s s' : Prop :=
| xstep_event ev : xpossible ev s -> xexec ev s = Some s' -> xstep s s'.

(** ** Connections *)

(** The changes that request [j] of connection [k] has made, and the numbers of the
    requests of connection [k] in the order of their changes. *)
Definition sections (k j : nat) (log : list Change) : list Change := filter (fun ch => ch_by ch = OfRequest k j) log.

Definition numbersOf (k : nat) (log : list Change) : list nat :=
  omap (fun ch => match ch_by ch with OfRequest k' j => if decide (k' = k) then Some j else None | OnItsOwn => None end) log.

Definition trace (chs : list Change) : list (RaftNode S * RaftNode S) := (fun ch => (ch_before ch, ch_after ch)) <$> chs.

(** The changes are the sections of the handler [h], on one shard, up to [h']. *)
Definition carried (shardId : N) (h : Handler) (chs : list Change) (h' : Handler) : Prop :=
  Forall (fun ch => ch_shard ch = shardId) chs /\ runs h (trace chs) h'.

(** The changes lead from one state of the nodes to another. *)
Inductive history : gmap N (RaftNode S) -> list Change -> gmap N (RaftNode S) -> Prop :=
| history_nil ps : history ps [] ps
| history_cons ps ch log ps' :
    ps !! ch_shard ch = Some (ch_before ch) -> history (<[ch_shard ch := ch_after ch]> ps) log ps' -> history ps (ch :: log) ps'.

Lemma changes_snoc ps log ps' ch :
  history ps log ps' -> ps' !! ch_shard ch = Some (ch_before ch) -> history ps (log ++ [ch]) (<[ch_shard ch := ch_after ch]> ps').
Proof. induction 1; intros Hc; simpl; eauto using history. Qed.

Lemma history_dom ps log ps' : history ps log ps' -> dom ps' = dom ps.
Proof.
  induction 1 as [|ps ch log ps' Hl _ IH]; [done|]; rewrite IH, dom_insert_L.
  apply elem_of_dom_2 in Hl; set_solver.
Qed.

Lemma rpcOf_dom type payload (ps ps' : gmap N (RaftNode S)) : dom ps = dom ps' -> rpcOf type payload ps = rpcOf type payload ps'.
Proof.
  intros Hd; unfold rpcOf; destruct (_ <? _); [done|]; destruct (getU32 _) as [[sid r]|]; [|done]; simpl.
  destruct (ps !! sid) as [n|] eqn:E, (ps' !! sid) as [n'|] eqn:E'; try done; exfalso.
  - apply elem_of_dom_2 in E; apply not_elem_of_dom in E'; set_solver.
  - apply elem_of_dom_2 in E'; apply not_elem_of_dom in E; set_solver.
Qed.

(** Not interrupted, the handler is [serve]. *)
Lemma runP_reply {A} (p : Prog (RaftNode S) Send A) f n :
  runP (reply p f) n = match runP p n with Ok (n', ss, a) => Ok (n', ss, f a) | Throw e => Throw e end.
Proof. unfold reply; rewrite runP_bind; destruct (runP p n) as [[[? ?] ?]|]; [|done]; simpl; by rewrite app_nil_r. Qed.

Lemma rpcOf_serve type payload ps sid h n :
  rpcOf type payload ps = Ok (Some (sid, h)) -> ps !! sid = Some n ->
  serve type payload ps =
    match runP h n with Ok (n', _, resp) => Ok (Some (<[sid := n']> ps, resp.1, resp.2)) | Throw e => Throw e end.
Proof.
  unfold rpcOf, serve; destruct (_ <? _); [done|]; destruct (getU32 _) as [[sid' r]|]; [|done]; cbn [mbind outcome_bind].
  destruct (ps !! sid') as [m|] eqn:Em; [|done]; destruct type; try done.
  - destruct (RequestVoteReq_decode _) as [[req r']|]; [|done]; intros [= <- <-] [= <-]%(eq_trans (eq_sym Em)); cbn [mbind outcome_bind].
    rewrite runP_reply, handleRequestVote_whole; by destruct (handleRequestVote req m).
  - destruct (AppendEntriesReq_decode _) as [[req r']|]; [|done]; intros [= <- <-] [= <-]%(eq_trans (eq_sym Em)); cbn [mbind outcome_bind].
    rewrite runP_reply, handleAppendEntries_whole; by destruct (handleAppendEntries req m) as [[? ?]|].
  - destruct (InstallSnapshotReq_decode _) as [[req r']|]; [|done]; intros [= <- <-] [= <-]%(eq_trans (eq_sym Em)); cbn [mbind outcome_bind].
    rewrite runP_reply, handleInstallSnapshot_whole; by destruct (handleInstallSnapshot req m) as [[? ?]|].
Qed.

(** ** What a connection thread has done *)

(** The requests taken from the connection. *)
Definition taken (c : PeerConn) : list Msg := (pc_done c).*1 ++ match pc_at c with InHandler req _ _ => [req] | _ => [] end.

Record conn_sound (ps0 : gmap N (RaftNode S)) (log : list Change) (k : nat) (c : PeerConn) : Prop := {
  cs_sent : pc_open c = true -> segments_ok (pc_conn c) /\ sent (pc_conn c) = sent (pc_origin c) ++ wire_bytes (pc_done c).*2;
  cs_order : forall fs, Forall fits fs -> stream (pc_origin c) = wire_bytes fs ->
    exists rest, fs = taken c ++ rest /\ (pc_open c = true -> stream (pc_conn c) = wire_bytes rest);
  cs_done : forall j req resp, pc_done c !! j = Some (req, resp) ->
    exists sid h, rpcOf req.1 req.2 ps0 = Ok (Some (sid, h)) /\ carried sid h (sections k j log) (Ret resp);
  cs_now : match pc_at c with
           | InHandler req sid h' =>
               exists h, rpcOf req.1 req.2 ps0 = Ok (Some (sid, h)) /\ carried sid h (sections k (length (pc_done c)) log) h'
           | _ => sections k (length (pc_done c)) log = []
           end;
  cs_numbers : StronglySorted Nat.le (numbersOf k log) /\ Forall (fun j => (j <= length (pc_done c))%nat) (numbersOf k log)
}.

Lemma sections_app k j l l' : sections k j (l ++ l') = sections k j l ++ sections k j l'.
Proof. apply filter_app. Qed.

Lemma numbersOf_app k l l' : numbersOf k (l ++ l') = numbersOf k l ++ numbersOf k l'.
Proof. apply omap_app. Qed.

(** A change by somebody else. *)
Lemma foreign_change k ch : (forall j, ch_by ch <> OfRequest k j) -> numbersOf k [ch] = [] /\ forall j, sections k j [ch] = [].
Proof.
  intros Hn; unfold numbersOf, sections; simpl; split.
  - destruct (ch_by ch) as [|k' j'] eqn:E; [done|]; case_decide; [subst; by destruct (Hn j')|done].
  - intros j; rewrite filter_cons, decide_False by done; done.
Qed.

Lemma conn_sound_foreign ps0 log k c ch :
  conn_sound ps0 log k c -> (forall j, ch_by ch <> OfRequest k j) -> conn_sound ps0 (log ++ [ch]) k c.
Proof.
  intros [H1 H2 H3 H4 H5] Hn; apply foreign_change in Hn as [Hnum Hsec].
  assert (forall j, sections k j (log ++ [ch]) = sections k j log) as Es by (intros; by rewrite sections_app, Hsec, app_nil_r).
  split; [done|done| | |by rewrite numbersOf_app, Hnum, app_nil_r]; intros; rewrite ?Es; [by apply H3|].
  destruct (pc_at c); by rewrite ?Es.
Qed.

Lemma sections_beyond k m j log : Forall (fun i => (i <= m)%nat) (numbersOf k log) -> (m < j)%nat -> sections k j log = [].
Proof.
  intros Hf Hj; destruct (sections k j log) as [|ch l] eqn:E; [done|exfalso]; rewrite Forall_forall in Hf.
  assert (ch ∈ sections k j log) as [Hby Hin]%list_elem_of_filter by (rewrite E; by left).
  assert (j ∈ numbersOf k log) as Hm; [|specialize (Hf _ Hm); lia].
  unfold numbersOf; apply list_elem_of_omap; exists ch; rewrite Hby; split; [done|by rewrite decide_True].
Qed.

(** The next section of the handler. *)
Lemma conn_sound_section ps0 log k fd c0 c req sid h h' ss d n n' :
  conn_sound ps0 log k (mkPeerConn fd c0 c (InHandler req sid h) d) -> advance h n = Some (Ok (n', ss, h')) ->
  conn_sound ps0 (log ++ [mkChange (OfRequest k (length d)) sid n n']) k (mkPeerConn fd c0 c (InHandler req sid h') d).
Proof.
  intros [H1 H2 H3 (h0 & Hr & Hall & Hruns) [Hs Hf]] Ha; simpl in *; set (ch := mkChange _ _ _ _).
  assert (forall j, sections k j [ch] = if decide (j = length d) then [ch] else []) as Esec.
  { intros j; unfold sections; rewrite filter_cons; repeat case_decide; simpl in *; try done; congruence. }
  assert (numbersOf k [ch] = [length d]) as Enum by (unfold numbersOf; simpl; by rewrite decide_True).
  split; simpl; [done|done| | |].
  - intros j rq rs Hj; rewrite sections_app, Esec, decide_False, app_nil_r; [by apply H3|apply lookup_lt_Some in Hj; lia].
  - exists h0; split; [done|]; rewrite sections_app, Esec, decide_True by done; split.
    + apply Forall_app; split; [done|by repeat constructor].
    + unfold trace; rewrite fmap_app; by eapply runs_snoc.
  - rewrite numbersOf_app, Enum; split; [|by apply Forall_app; split; [|repeat constructor]].
    apply StronglySorted_app; split_and!; [|done|by repeat constructor].
    intros x y Hx ->%list_elem_of_singleton; rewrite Forall_forall in Hf; by apply Hf.
Qed.

(** The end of a connection. *)
Lemma conn_sound_closed ps0 log k fd c0 c c' d :
  conn_sound ps0 log k (mkPeerConn fd c0 c AtRead d) -> conn_sound ps0 log k (mkPeerConn fd c0 c' Ended d).
Proof.
  intros [_ Hf H3 H4 H5]; split; [done| |done|done|done].
  intros fs Hfs Hs; destruct (Hf fs Hfs Hs) as (rest & -> & _); by exists rest.
Qed.

Lemma readFrame_fits (f : Msg) rest c t p c1 :
  fits f -> segments_ok c -> stream c = wire_bytes (f :: rest) -> readFrame c = Some (t, p, c1) ->
  f = (t, p) /\ stream c1 = wire_bytes rest.
Proof.
  destruct f as [ft fp]; intros [Hv Hl] Hok Hs Hr.
  change (wire_bytes ((ft, fp) :: rest)) with (frame ft fp ++ wire_bytes rest) in Hs.
  destruct (readFrame_spec ft fp c _ Hv Hl Hok Hs) as (c2 & Er & Hs2 & _); rewrite Hr in Er; by injection Er as -> -> ->.
Qed.

(** A request is taken from the connection. *)
Lemma conn_sound_read ps0 log k fd c0 c c1 d t p sid h :
  conn_sound ps0 log k (mkPeerConn fd c0 c AtRead d) -> readFrame c = Some (t, p, c1) ->
  rpcOf t p ps0 = Ok (Some (sid, h)) -> conn_sound ps0 log k (mkPeerConn fd c0 c1 (InHandler (t, p) sid h) d).
Proof.
  intros [Ho Hf H3 H4 H5] Hr Hrpc; destruct (Ho eq_refl) as [Hok Hsent]; simpl in *.
  destruct (readFrame_keeps _ _ _ _ Hr Hok) as [Hok1 Hs1]; split; simpl; [|intros fs Hfs Hs|done| |done].
  - intros _; split; [done|by rewrite Hs1].
  - destruct (Hf fs Hfs Hs) as (rest & -> & Hrest); specialize (Hrest eq_refl); unfold taken in *; simpl in *.
    rewrite app_nil_r in *; apply Forall_app in Hfs as [_ Hfits]; destruct rest as [|f rest].
    + exfalso; pose proof (readFrame_end c Hok Hrest) as E; by rewrite Hr in E.
    + apply Forall_cons in Hfits as [Hfit _]; destruct (readFrame_fits _ _ _ _ _ _ Hfit Hok Hrest Hr) as [-> Hs'].
      exists rest; by rewrite <- app_assoc.
  - exists h; split; [done|]; rewrite H4; split; constructor.
Qed.

(** A request has been answered. *)
Lemma conn_sound_reply ps0 log k fd c0 c c' d req sid resp ok :
  conn_sound ps0 log k (mkPeerConn fd c0 c (InHandler req sid (Ret resp)) d) -> writeFrame resp.1 resp.2 c = (ok, c') ->
  conn_sound ps0 log k (mkPeerConn fd c0 c' (if ok then AtRead else Ended) (d ++ [(req, resp)])).
Proof.
  intros [Ho Hf H3 H4 [Hsort H5]] Hw; destruct (Ho eq_refl) as [Hok Hsent]; simpl in *.
  apply writeFrame_spec in Hw as (Hi & q & Hq & _ & Hall).
  assert (sections k (length (d ++ [(req, resp)])) log = []) as Hnone by (rewrite length_app; simpl; eapply sections_beyond; [exact H5|lia]).
  split; simpl.
  - destruct ok; [|done]; intros _; unfold segments_ok in *; rewrite Hi; split; [done|]; rewrite Hq, Hsent, (Hall eq_refl), fmap_app; unfold wire_bytes.
    rewrite fmap_app, concat_app; simpl; by rewrite app_nil_r, <- app_assoc.
  - intros fs Hfs Hs; destruct (Hf fs Hfs Hs) as (rest & -> & Hrest); unfold taken; simpl; exists rest.
    rewrite fmap_app; simpl; split; [destruct ok; by rewrite app_nil_r|].
    intros _; rewrite <- (Hrest eq_refl); unfold stream; by rewrite Hi.
  - intros j rq rs [Hj|[Hge [Hj [= <- <-]]%list_lookup_singleton_Some]]%lookup_app_Some; [by apply H3|].
    replace j with (length d) by lia; destruct H4 as (h & Hr & Hc); by exists sid, h.
  - by destruct ok.
  - split; [done|]; eapply Forall_impl; [exact H5|]; intros x Hx; simpl in *; rewrite length_app; simpl; lia.
Qed.

Record xinv (ps0 : gmap N (RaftNode S)) s : Prop := {
  xi_history : history ps0 (ps_log s) (shards_ s);
  xi_conns : forall k c, conns s !! k = Some c -> conn_sound ps0 (ps_log s) k c;
  xi_known : Forall (fun ch => forall k j, ch_by ch = OfRequest k j -> (k < length (conns s))%nat) (ps_log s);
  xi_fds : NoDup (connFds (conns s));
  xi_wait : forall w, acceptThread_ s = Waiting w -> listenFd_ s <> None
}.

Lemma connFds_insert (cs : list PeerConn) k x y :
  cs !! k = Some x -> pc_fd y = pc_fd x -> pc_open x = true -> connFds (<[k := y]> cs) `sublist_of` connFds cs.
Proof.
  intros Hk Hfd Hx; unfold connFds; rewrite insert_take_drop by (by eapply lookup_lt_Some); rewrite <- (take_drop_middle cs k x Hk) at 3.
  rewrite !filter_app, !filter_cons; rewrite (decide_True _ _ Hx), !fmap_app; apply sublist_app; [done|].
  case_decide; simpl; [rewrite Hfd|constructor]; done.
Qed.

(** A connection thread moves and no node changes. *)
Lemma xinv_conn ps0 s k x y :
  xinv ps0 s -> conns s !! k = Some x -> pc_fd y = pc_fd x -> pc_open x = true ->
  conn_sound ps0 (ps_log s) k y -> xinv ps0 (set_conns (<[k := y]> (conns s)) s).
Proof.
  intros [H1 H2 H3 H4 H5] Hk Hfd Hx Hy; split; simpl; [done| | | |done].
  - intros k' z [(<- & <- & _)|[_ Hz]]%list_lookup_insert_Some; [done|by apply H2].
  - by rewrite length_insert.
  - eapply sublist_NoDup; [exact H4|by eapply connFds_insert].
Qed.

(** A node changes. *)
Lemma xinv_change ps0 s ch :
  xinv ps0 s -> shards_ s !! ch_shard ch = Some (ch_before ch) ->
  (forall k j, ch_by ch = OfRequest k j -> (k < length (conns s))%nat) ->
  (forall k c, conns s !! k = Some c -> conn_sound ps0 (ps_log s ++ [ch]) k c) -> xinv ps0 (change ch s).
Proof.
  intros [H1 H2 H3 H4 H5] Hb Hk Hc; split; simpl; [by apply changes_snoc|done| |done|done].
  apply Forall_app; split; [done|by repeat constructor].
Qed.

Lemma readStep_inv ps0 k s s' : xinv ps0 s -> readStep k s = Some (Ok s') -> xinv ps0 s'.
Proof.
  intros Hi; unfold readStep; destruct (conns s !! k) as [[fd c0 c [| |] d]|] eqn:Hk; [|done..].
  pose proof (xi_conns _ _ Hi _ _ Hk) as Hc; destruct (readFrame c) as [[[t p] c1]|] eqn:Hr.
  - destruct (rpcOf t p (shards_ s)) as [[[sid h]|]|] eqn:Hrpc; [| |done]; intros [= <-]; (eapply xinv_conn; [done|exact Hk|done|done|]).
    + rewrite (rpcOf_dom _ _ _ ps0) in Hrpc by (eapply history_dom, Hi); by eapply conn_sound_read.
    + by eapply conn_sound_closed.
  - intros [= <-]; eapply xinv_conn; [done|exact Hk|done|done|]; by eapply conn_sound_closed.
Qed.

Lemma replyStep_inv ps0 k s s' : xinv ps0 s -> replyStep k s = Some s' -> xinv ps0 s'.
Proof.
  intros Hi; unfold replyStep; destruct (conns s !! k) as [[fd c0 c [|req sid [resp|B f h|x h]|] d]|] eqn:Hk; [done| |done..].
  pose proof (xi_conns _ _ Hi _ _ Hk) as Hc; destruct (writeFrame resp.1 resp.2 c) as [ok c'] eqn:Hw; intros [= <-].
  eapply xinv_conn; [done|exact Hk|done|done|by eapply conn_sound_reply].
Qed.

Lemma sectionStep_inv ps0 k s s' : xinv ps0 s -> sectionStep k s = Some (Ok s') -> xinv ps0 s'.
Proof.
  intros Hi; unfold sectionStep; destruct (conns s !! k) as [[fd c0 c [|req sid h|] d]|] eqn:Hk; [done| |done..].
  pose proof (xi_conns _ _ Hi _ _ Hk) as Hc; apply lookup_lt_Some in Hk as Hlt.
  intros (n & Hn & (r & Ha & Hr)%bind_Some_inv)%bind_Some_inv; destruct r as [[[n' ss] h']|]; [|done]; injection Hr as <-.
  destruct Hi as [H1 H2 H3 H4 H5]; split; simpl; [by apply changes_snoc| | | |done].
  - intros k' z [(<- & <- & _)|[Hne Hz]]%list_lookup_insert_Some; [by eapply conn_sound_section|].
    apply conn_sound_foreign; [by apply H2|]; intros j; simpl; congruence.
  - rewrite length_insert; apply Forall_app; split; [done|]; repeat constructor; simpl; intros k' j [= <- _]; done.
  - eapply sublist_NoDup; [exact H4|by eapply (connFds_insert _ _ _ _ Hk)].
Qed.

(** A new connection has made no change yet. *)
Lemma conn_sound_new ps0 log k fd c :
  Forall (fun ch => forall k' j, ch_by ch = OfRequest k' j -> (k' < k)%nat) log -> segments_ok c ->
  conn_sound ps0 log k (mkPeerConn fd c c AtRead []).
Proof.
  intros Hk Hok; assert (numbersOf k log = []) as Hn.
  { unfold numbersOf; induction Hk as [|ch log Hch _ IH]; simpl; [done|]; destruct (ch_by ch) as [|k' j]; [done|].
    case_decide; [specialize (Hch _ _ eq_refl); lia|done]. }
  split; simpl; [|intros fs _ Hs; by exists fs|done| |rewrite Hn; split; constructor].
  - unfold wire_bytes; simpl; by rewrite app_nil_r.
  - unfold sections; induction Hk as [|ch log Hch _ IH]; [done|]; rewrite filter_cons, decide_False; [|intros E; specialize (Hch _ _ E); lia].
    apply IH; unfold numbersOf in *; simpl in Hn; destruct (match ch_by ch with OnItsOwn => _ | OfRequest _ _ => _ end); done.
Qed.

Lemma accepted_inv ps0 r s s' : xinv ps0 s -> xpossible (XAccept r) s -> accepted r s = Some s' -> xinv ps0 s'.
Proof.
  intros [H1 H2 H3 H4 H5] Hp; destruct r as [fd c| |]; simpl; [|intros [= <-]; by split|done].
  destruct Hp as (_ & _ & Hfd & Hok); intros [= <-]; split; simpl; [done| | | |done].
  - intros k x [Hx|(Hge & (Hk & <-)%list_lookup_singleton_Some)]%lookup_app_Some; [by apply H2|].
    replace k with (length (conns s)) by lia; by apply conn_sound_new.
  - rewrite length_app; eapply Forall_impl; [exact H3|]; intros ch Hch k j E; specialize (Hch k j E); simpl; lia.
  - unfold connFds; rewrite filter_app, fmap_app; simpl; apply NoDup_app; split_and!; [done| |apply NoDup_singleton].
    intros x Hx; rewrite list_elem_of_singleton; intros ->; apply Hfd; unfold openFds, connFds; set_solver.
Qed.

Lemma acceptStep_inv ps0 r s s' : xinv ps0 s -> xpossible (XAccept r) s -> acceptStep r s = Some s' -> xinv ps0 s'.
Proof.
  intros Hi Hp; unfold acceptStep; destruct (acceptThread_ s) eqn:Ht; [done| | |by apply accepted_inv| |done].
  - intros [= <-]; destruct Hi; split; simpl; try done; by destruct (running_ s).
  - destruct r as [fd c| |]; [by apply accepted_inv..|]; destruct (acceptBlocks _ _) eqn:Hb; [|done]; intros [= <-].
    destruct Hi; split; simpl; try done; intros w _ Hl; by rewrite Hl in Hb.
  - intros [= <-]; destruct Hi; split; simpl; try done; by destruct (running_ s).
Qed.

Lemma stopStep_inv ps0 s s' : xinv ps0 s -> stopStep s = Some s' -> xinv ps0 s'.
Proof.
  intros [H1 H2 H3 H4 H5]; unfold stopStep; destruct (stopThread s); try done.
  - intros [= <-]; by split.
  - intros [= <-]; destruct (listenFd_ s) as [fd|] eqn:Hl; unfold wakeAccept; simpl;
      [destruct (acceptThread_ s) eqn:Ht|]; split; simpl; try done; rewrite ?Hl; naive_solver.
  - intros [= <-]; destruct (listenFd_ s) as [fd|] eqn:Hl; split; simpl; try done; rewrite ?Hl; naive_solver.
  - destruct (acceptThread_ s) eqn:Ht; try done; intros [= <-]; split; simpl; try done; rewrite Ht; naive_solver.
Qed.

Lemma xstep_inv ps0 s s' : xinv ps0 s -> xstep s s' -> xinv ps0 s'.
Proof.
  intros Hi [[r|k|k|k| |sid n'|fd l] Hp Hx]; simpl in Hx.
  - by eapply acceptStep_inv.
  - destruct (readStep k s) as [[s1|]|] eqn:E; simplify_eq/=; by eapply readStep_inv.
  - destruct (sectionStep k s) as [[s1|]|] eqn:E; simplify_eq/=; by eapply sectionStep_inv.
  - by eapply replyStep_inv.
  - by eapply stopStep_inv.
  - apply bind_Some_inv in Hx as (n & Hn & [= <-]); apply xinv_change; [done|done|done|].
    intros k c Hk; apply conn_sound_foreign; [by apply (xi_conns _ _ Hi)|done].
  - injection Hx as <-; by destruct Hi.
Qed.

Lemma reachable_xinv fd e port shards h s :
  rtc xstep (startPeerServer fd e (newPeerServer port shards h)) s -> xinv shards s.
Proof.
  intros Hr; eapply (rtc_ind_l (fun x => xinv shards x -> xinv shards s)); [done| |exact Hr|].
  - intros x y Hxy _ IH Hx; by eapply IH, xstep_inv.
  - split; simpl; [constructor|by intros k c|constructor|constructor|done].
Qed.

(** ** [stop] *)

(** The steps the accept thread has left once [running_] is false. *)
Definition acceptLeft (t : AcceptThread) : nat :=
  match t with NotStarted | Returned => 0 | AtWhile | AtCheck => 1 | Waiting _ => 2 | AtAccept => 3 end.

(** The statements of [stop] that are left. *)
Definition stopLeft (t : StopThread) : nat :=
  match t with NotCalled => 4 | FlagCleared => 3 | ShutDown => 2 | Closed => 1 | Joined => 0 end.

(** [stop] has been called; if it is past its [shutdown], a thread in [accept] has
    been woken, and the number of the socket has not been given to another listening
    socket. *)
Definition stopped s : Prop :=
  running_ s = false /\ (forall w, acceptThread_ s = Waiting w -> listenFd_ s <> None) /\
  match stopThread s with
  | NotCalled => False
  | FlagCleared => True
  | _ => acceptBlocks (listenFd_ s) (host s) = false /\ acceptThread_ s <> Waiting false
  end.

(** No other part of the process gets the number of the listening socket. *)
Definition reuses (ev : XEvent) s : bool :=
  match ev with XOpen fd _ => bool_decide (listenFd_ s = Some fd) | _ => false end.

Lemma shutdown_unblocks fd h : acceptBlocks (Some fd) (shutdownFd fd h) = false.
Proof.
  unfold acceptBlocks, shutdownFd; rewrite lookup_alter_eq; destruct (h !! fd) as [l|]; [|done]; simpl.
  unfold live; simpl; by destruct (ls_backlog l).
Qed.

Definition left_ s : nat := acceptLeft (acceptThread_ s) + stopLeft (stopThread s).

Lemma stopped_accept r s s' : stopped s -> acceptStep r s = Some s' -> stopped s' /\ (left_ s' + 1 <= left_ s)%nat.
Proof.
  intros (Hrun & Hw & Hst) Hx; unfold acceptStep in Hx; rewrite Hrun in Hx; unfold left_, stopped.
  destruct (acceptThread_ s) eqn:Ht; try done.
  all: try (destruct r as [fd c| |]; try done; [..|destruct (acceptBlocks _ _) eqn:Hb]; simplify_eq/=; rewrite ?Hrun).
  all: simplify_eq/=; rewrite ?Hrun; (split; [split_and!; [done| |]|simpl; lia]).
  all: try (intros w; try done; intros _ Hl; by rewrite Hl in Hb).
  all: destruct (stopThread s); try done; try (split; [apply Hst|done]); by destruct Hst as [Hst _]; rewrite Hst in Hb.
Qed.

Lemma stopped_stop s s' : stopped s -> stopStep s = Some s' -> stopped s' /\ (left_ s' + 1 <= left_ s)%nat.
Proof.
  intros (Hrun & Hw & Hst) Hx; unfold stopStep in Hx; unfold left_, stopped; destruct (stopThread s) eqn:Hs; try done.
  - injection Hx as <-; destruct (listenFd_ s) as [fd|] eqn:Hl; unfold wakeAccept; simpl;
      [destruct (acceptThread_ s) eqn:Ht|destruct (acceptThread_ s) eqn:Ht]; simpl; rewrite ?Hl, ?Ht; (split; [split_and!|simpl; lia]);
      try done; try apply shutdown_unblocks; by destruct (Hw _ eq_refl).
  - injection Hx as <-; destruct Hst as [Hb Ha]; destruct (listenFd_ s) as [fd|] eqn:Hl; simpl; rewrite ?Hl;
      (split; [split_and!|simpl; lia]); try done; unfold acceptBlocks, closeListener; by rewrite lookup_delete_eq.
  - destruct (acceptThread_ s) eqn:Ht; try done; injection Hx as <-; simpl; rewrite ?Ht; (split; [split_and!; try done; apply Hst|simpl; lia]).
Qed.

Definition ownStep (ev : XEvent) : bool := match ev with XAccept _ | XStop => true | _ => false end.

(** The other threads do not touch what [stop] looks at. *)
Lemma stopped_other ev s s' : stopped s -> xexec ev s = Some s' -> reuses ev s = false -> ownStep ev = false ->
  stopped s' /\ left_ s' = left_ s.
Proof.
  intros Hst Hx Hre Ho; assert (running_ s' = running_ s /\ listenFd_ s' = listenFd_ s /\ acceptThread_ s' = acceptThread_ s /\
    stopThread s' = stopThread s /\ acceptBlocks (listenFd_ s) (host s') = acceptBlocks (listenFd_ s) (host s)) as (E1 & E2 & E3 & E4 & E5).
  { destruct ev as [r|k|k|k| |sid n'|fd l]; try done; simpl in Hx.
    - unfold readStep in Hx; repeat case_match; by simplify_eq/=.
    - unfold sectionStep in Hx; destruct (conns s !! k) as [[fd c0 c [|req sid q|] d]|]; try done.
      destruct (shards_ s !! sid) as [n|]; [|done]; simpl in Hx; destruct (advance q n) as [[[[n' ss] q']|]|]; by simplify_eq/=.
    - unfold replyStep in Hx; repeat case_match; by simplify_eq/=.
    - by apply bind_Some_inv in Hx as (n & _ & [= <-]).
    - injection Hx as <-; simpl; split_and!; try done; unfold acceptBlocks; destruct (listenFd_ s) as [fd'|] eqn:Hl; [|done].
      unfold reuses in Hre; apply bool_decide_eq_false in Hre; rewrite lookup_insert_ne; [done|congruence]. }
  unfold stopped, left_; rewrite E1, E2, E3, E4, E5; by split.
Qed.

Lemma stopped_step ev s s' : stopped s -> xexec ev s = Some s' -> reuses ev s = false ->
  stopped s' /\ (left_ s' + (if ownStep ev then 1 else 0) <= left_ s)%nat.
Proof.
  intros Hs Hx Hre; destruct (ownStep ev) eqn:Ho.
  - destruct ev; try done; [by eapply stopped_accept|by eapply stopped_stop].
  - destruct (stopped_other _ _ _ Hs Hx Hre Ho) as [? ->]; split; [done|lia].
Qed.

(** [stop] never waits for anything but the scheduler. *)
Lemma stopped_enabled s : stopped s -> stopThread s <> Joined -> exists ev s', unblocked ev s /\ xexec ev s = Some s'.
Proof.
  intros (Hrun & _ & Hst) Hj; destruct (decide (stopThread s = Closed)) as [Hc|Hc].
  - rewrite Hc in Hst; destruct Hst as [Hb Hw]; destruct (acceptThread_ s) as [| | |[]| |] eqn:Ht; [|..|].
    1,7: exists XStop; simpl; unfold stopStep; rewrite Hc, Ht; by eexists.
    4: done.
    all: exists (XAccept Error); simpl; unfold acceptStep; rewrite Ht; by eexists.
  - exists XStop; simpl; unfold stopStep; destruct (stopThread s); try done; by eexists.
Qed.

(** A run in which the number of the listening socket is not reused. *)
Fixpoint xrun (evs : list XEvent) s : option PeerProc :=
  match evs with
  | [] => Some s
  | ev :: evs' => if reuses ev s then None else match xexec ev s with Some s' => xrun evs' s' | None => None end
  end.

Lemma stopped_run evs s s' : stopped s -> xrun evs s = Some s' ->
  stopped s' /\ (length (List.filter ownStep evs) + left_ s' <= left_ s)%nat.
Proof.
  revert s; induction evs as [|ev evs IH]; intros s Hs; simpl; [by intros [= <-]|].
  destruct (reuses ev s) eqn:Hre; [done|]; destruct (xexec ev s) as [s1|] eqn:Hx; [|done]; intros Hr.
  destruct (stopped_step _ _ _ Hs Hx Hre) as [Hs1 Hl]; destruct (IH _ Hs1 Hr) as [Hs' Hl']; split; [done|].
  destruct (ownStep ev); simpl in *; lia.
Qed.

(** C19: the connections of a peer server.  In every state of a started [PeerServer],
    with connections accepted and served by their threads one critical section at a
    time in any order, the nodes changing on their own at any point, and [stop]
    called at any time: the logged changes lead from the first states of the nodes to
    the current ones; on each connection the requests are taken in order, none
    skipped, the sections of a request all come before those of the next, and on an
    open connection exactly the frames of the answers have been written; each answer
    is what the handler of that request returned after running all its sections, once,
    on the shard the request names; and when nothing else changed that node between
    these sections, effect and answer are those of the handler as one function.  Open
    connections have different descriptors. *)
Theorem peer_connections_served (fd : option Fd) (e : N) (port : Z) (shards : gmap N (RaftNode S)) (h : Host) (s : PeerProc)
    (Hr : rtc xstep (startPeerServer fd e (newPeerServer port shards h)) s) :
  history shards (ps_log s) (shards_ s) /\ NoDup (connFds (conns s)) /\
  forall k c, conns s !! k = Some c ->
    (pc_open c = true -> sent (pc_conn c) = sent (pc_origin c) ++ wire_bytes (pc_done c).*2) /\
    (forall fs, Forall fits fs -> stream (pc_origin c) = wire_bytes fs -> (pc_done c).*1 `prefix_of` fs) /\
    StronglySorted Nat.le (numbersOf k (ps_log s)) /\
    forall j req resp, pc_done c !! j = Some (req, resp) ->
      exists sid p, rpcOf req.1 req.2 shards = Ok (Some (sid, p)) /\ carried sid p (sections k j (ps_log s)) (Ret resp) /\
        forall n n' ps, chained n (trace (sections k j (ps_log s))) n' -> dom ps = dom shards -> ps !! sid = Some n ->
          serve req.1 req.2 ps = Ok (Some (<[sid := n']> ps, resp.1, resp.2)).
Proof.
  apply reachable_xinv in Hr as [Hh Hc _ Hnd _]; split_and!; [done|done|].
  intros k c Hk; destruct (Hc _ _ Hk) as [Ho Hf Hdone _ [Hsort _]]; split_and!; [intros Hop; by apply Ho| |done|].
  - intros fs Hfs Hs; destruct (Hf fs Hfs Hs) as (rest & -> & _); unfold taken; rewrite <- app_assoc; by eexists.
  - intros j req resp Hj; destruct (Hdone _ _ _ Hj) as (sid & p & Hrpc & Hcar); exists sid, p; split_and!; [done|done|].
    intros n n' ps Hch Hd Hn; rewrite (rpcOf_dom _ _ _ ps) in Hrpc by done.
    destruct (runs_chained _ _ _ _ _ (proj2 Hcar) Hch) as [ss Hp]; by rewrite (rpcOf_serve _ _ _ _ _ _ Hrpc Hn), Hp.
Qed.

(** C20: [PeerServer::stop] terminates.  From the call on, whatever the connection
    threads and the nodes do and other parts of the process open, as long as the
    number of the listening socket is not given to another socket: the accept thread
    and [stop] together take at most six more steps, and until the join has returned
    one of them can go on without waiting for a peer.  A thread that waits in
    [accept] is woken by [shutdown] only, not by [close]. *)
Theorem peer_stop_terminates (fd : option Fd) (e : N) (port : Z) (shards : gmap N (RaftNode S)) (h : Host)
    (s s1 s2 : PeerProc) (evs : list XEvent)
    (Hr : rtc xstep (startPeerServer fd e (newPeerServer port shards h)) s)
    (Hc : stopThread s = NotCalled) (H1 : stopStep s = Some s1) (H2 : xrun evs s1 = Some s2) :
  (length (List.filter ownStep evs) <= 6)%nat /\
  (stopThread s2 = Joined \/ exists ev s3, unblocked ev s2 /\ xexec ev s2 = Some s3).
Proof.
  unfold stopStep in H1; rewrite Hc in H1; injection H1 as <-; pose proof (xi_wait _ _ (reachable_xinv _ _ _ _ _ _ Hr)) as Hwait.
  eapply stopped_run in H2 as [Hs Hl]; [|by split_and!]; unfold left_ in Hl; simpl in Hl; split.
  - destruct (acceptThread_ s); simpl in Hl; lia.
  - destruct (decide (stopThread s2 = Joined)); [by left|right; by apply stopped_enabled].
Qed.
End loop.

Arguments PeerProc : clear implicits.
Arguments PeerProc S : rename.
Arguments XEvent : clear implicits.
Arguments XEvent S : rename.

(** ** Witnesses *)

(** A server of one shard on port 6100. *)
Definition peer_sample : PeerProc KvStore := startPeerServer (Some 3) 40000 (newPeerServer 6100 {[7 := sample_follower]} ∅).

Definition peer_conn (fs : list Msg) : Conn := mkConn (bytewise (wire_bytes fs)) [1000; 1000; 1000; 1000] [].

(** A request on connection [k] whose handler finds nothing to apply: five
    sections. *)
Definition whole (k : nat) : list (XEvent KvStore) := XRead k :: replicate 5 (XSection k) ++ [XReply k].

(** Two peers connect and the sections of their first requests alternate: the first
    takes the committed entries, the second finds none and answers before they are
    applied.  The accept thread waits for a third one. *)
Definition two_peers : list (XEvent KvStore) :=
  [XAccept Error; XAccept (Got 8 (peer_conn two_requests)); XAccept Error; XAccept NoConn; XAccept (Got 9 (peer_conn two_requests));
   XAccept Error; XAccept NoConn; XRead 0; XSection 0; XRead 1; XSection 1; XSection 0; XSection 1; XSection 0; XSection 1;
   XSection 0; XSection 1; XSection 0; XSection 1; XReply 1; XSection 0; XSection 0; XSection 0; XReply 0].

#[local] Instance xpossible_dec (ev : XEvent KvStore) (s : PeerProc KvStore) : Decision (xpossible ev s).
Proof. destruct ev as [[fd c| |]| | | | | |]; unfold xpossible, segments_ok; apply _. Defined.

Fixpoint xplay (evs : list (XEvent KvStore)) (s : PeerProc KvStore) : option (PeerProc KvStore) :=
  match evs with
  | [] => Some s
  | ev :: evs' => if decide (xpossible ev s) then match xexec ev s with Some s' => xplay evs' s' | None => None end else None
  end.

Lemma xplay_steps evs s s' : xplay evs s = Some s' -> rtc xstep s s'.
Proof.
  revert s; induction evs as [|ev evs IH]; intros s; simpl; [by intros [= <-]|].
  case_decide; [|done]; destruct (xexec ev s) as [s1|] eqn:E; [|done]; intros Hs.
  eapply rtc_l; [by econstructor|by apply IH].
Qed.

(** The answer of [sample_follower] to [heartbeat]. *)
Definition heartbeat_answer : Msg := (WAppendEntriesResp, AppendEntriesResp_encode (mkAppendEntriesResp 2 true 3 0 0) []).

Definition outcomeOf (s : PeerProc KvStore) : StopThread * list (bool * bytes) :=
  (stopThread s, (fun c => (pc_open c, sent (pc_conn c))) <$> conns s).

(** [stop] has returned and the connections go on being served: their threads are
    detached and do not look at [running_]. *)
Lemma connections_outlive_stop :
  exists s, xplay (two_peers ++ [XStop; XStop; XAccept Error; XAccept Error; XStop; XStop] ++ whole 1 ++ whole 0 ++ [XRead 0]) peer_sample = Some s /\
    outcomeOf s = (Joined, [(false, wire_bytes [heartbeat_answer; heartbeat_answer]); (true, wire_bytes [heartbeat_answer; heartbeat_answer])]).
Proof. apply replayed; vm_compute; reflexivity. Qed.

Lemma peer_connections_served_witness :
  exists s c, xplay two_peers peer_sample = Some s /\ conns s !! 1%nat = Some c /\
    sent (pc_conn c) = wire_bytes (pc_done c).*2 /\ (pc_done c).*1 `prefix_of` two_requests /\ length (pc_done c) = 1%nat.
Proof.
  destruct (replayed (fun s => (fun c => (pc_open c, pc_origin c, length (pc_done c))) <$> conns s !! 1%nat) (xplay two_peers peer_sample)
    (Some (true, peer_conn two_requests, 1%nat))) as (s & Hs & Hv); [vm_compute; reflexivity|].
  destruct (conns s !! 1%nat) as [c|] eqn:Hc; [|discriminate]; injection Hv as Hop Hor Hlen; exists s, c.
  destruct (peer_connections_served (Some 3) 40000 6100 {[7 := sample_follower]} ∅ s (xplay_steps _ _ _ Hs)) as (_ & _ & Hk).
  destruct (Hk 1%nat c Hc) as (Hsent & Hpre & _); split_and!; [done|exact Hc| | |done].
  - rewrite (Hsent Hop), Hor; reflexivity.
  - apply Hpre; [by repeat constructor|rewrite Hor; vm_compute; reflexivity].
Defined.

(** [stop] is called while the accept thread waits. *)
Lemma peer_stop_terminates_witness :
  exists s s1 s2, xplay two_peers peer_sample = Some s /\ acceptThread_ s = Waiting false /\ stopStep s = Some s1 /\
    xrun [XRead 0; XStop; XStop] s1 = Some s2 /\ stopThread s2 = Closed /\
    exists ev s3, unblocked ev s2 /\ xexec ev s2 = Some s3.
Proof.
  destruct (replayed (fun p : PeerProc KvStore * PeerProc KvStore => (stopThread p.1, acceptThread_ p.1, stopThread p.2))
    (s ← xplay two_peers peer_sample; s1 ← stopStep s; s2 ← xrun [XRead 0; XStop; XStop] s1; Some (s, s2))
    (NotCalled, Waiting false, Closed)) as ([s s2] & Hr & Hv); [vm_compute; reflexivity|]; injection Hv as Hc Hw Hd.
  apply bind_Some_inv in Hr as (s' & Hs & (s1 & H1 & (s2' & H2 & [= -> ->])%bind_Some_inv)%bind_Some_inv).
  exists s, s1, s2; split_and!; [done|exact Hw|exact H1|exact H2|exact Hd|].
  destruct (peer_stop_terminates (Some 3) 40000 6100 {[7 := sample_follower]} ∅ s s1 s2 [XRead 0; XStop; XStop]
    (xplay_steps _ _ _ Hs) Hc H1 H2) as [_ [Hj|Hen]]; [congruence|exact Hen].
Defined.

(** ** Where the promises end *)

(** Between the test of [running_] and [accept] the whole of [stop] up to the join
    can run; when the number of the closed socket is then given to another listening
    socket, for instance the one of [KvServer], the accept thread waits on that one
    and the join does not return. *)
Lemma stop_hangs_on_reused_number :
  exists s, xplay [XAccept Error; XStop; XStop; XStop; XOpen 3 (mkListener (Some 7100) (Some 1024) false false); XAccept NoConn] peer_sample = Some s /\
    stopThread s = Closed /\ acceptThread_ s = Waiting false /\ stopStep s = None /\
    forall ev, ~ (unblocked ev s /\ is_Some (xexec ev s)).
Proof.
  destruct (replayed (fun s => (stopThread s, acceptThread_ s))
    (xplay [XAccept Error; XStop; XStop; XStop; XOpen 3 (mkListener (Some 7100) (Some 1024) false false); XAccept NoConn] peer_sample)
    (Closed, Waiting false)) as (s & Hs & Hv); [vm_compute; reflexivity|]; injection Hv as H1 H2.
  exists s; assert (stopStep s = None) as H4 by (unfold stopStep; by rewrite H1, H2); split_and!; try done.
  intros [[fd c| |]|k|k|k| |sid n'|fd l]; simpl; intros [Hu [s' Hx]]; try done.
  - by rewrite H2 in Hu.
  - unfold acceptStep in Hx; by rewrite H2 in Hx.
  - by rewrite H4 in Hx.
Qed.

(** A port that is taken: the server listens on another one and does not say so. *)
Lemma taken_port_unnoticed :
  let h := openPort 6100 1024 (Some 2) 40001 ∅ in
  let s := startPeerServer (Some 3) 40000 (newPeerServer 6100 {[7 := sample_follower]} h) in
  acceptThread_ s = AtWhile /\ ls_port <$> host s !! 3 = Some (Some 40000) /\ ls_port <$> host s !! 2 = Some (Some 6100).
Proof. vm_compute; done. Qed.
