(* ===== verification/JobQueue.v ===== *)
(** * net/tcp_transport.h: the worker pool

    [TcpTransport] hands every call to a queue that a fixed number of threads
    serve: [enqueue], [workerLoop] and the destructor, as steps on the state that
    [qmu_] protects.  A job is what a worker runs between two visits of the queue.
    Every step may emit one observation; the theorems relate what was accepted to
    what was run. *)
From stdpp Require Import base tactics list numbers.
From Stdlib Require Import Lia.
From S2P Require Import Prelude.

Section pool.
Context {Job : Type}.

(** Where a worker is: at [qcv_.wait] (or on its way to it), in [job()], or
    returned from [workerLoop]. *)
Inductive Worker : Type := Waiting | Running (job : Job) | Returned.

Record Pool := mkPool { queue_ : list Job; stopping_ : bool; workers_ : list Worker }.
Implicit Types p : Pool.

Inductive Obs : Type :=
| Accepted (job : Job) | Refused (job : Job) | Started (job : Job) | Finished (job : Job).

(** The constructor starts [workers] threads. *)
Definition newPool (workers : nat) : Pool := mkPool [] false (repeat Waiting workers).

Definition enqueue (job : Job) p : Pool * list Obs :=
  if stopping_ p then (p, [Refused job])
  else (mkPool (queue_ p ++ [job]) (stopping_ p) (workers_ p), [Accepted job]).

(** A worker gets past [qcv_.wait] when [stopping_ || !queue_.empty()]. *)
Definition wake (w : nat) p : option (Pool * list Obs) :=
  match workers_ p !! w with
  | Some Waiting =>
      match queue_ p with
      | job :: rest => Some (mkPool rest (stopping_ p) (<[w := Running job]> (workers_ p)), [Started job])
      | [] => if stopping_ p then Some (mkPool [] true (<[w := Returned]> (workers_ p)), []) else None
      end
  | _ => None
  end.

(** [job()] returns. *)
Definition finish (w : nat) p : option (Pool * list Obs) :=
  match workers_ p !! w with
  | Some (Running job) => Some (mkPool (queue_ p) (stopping_ p) (<[w := Waiting]> (workers_ p)), [Finished job])
  | _ => None
  end.

(** The first section of the destructor. *)
Definition stop p : Pool := mkPool (queue_ p) true (workers_ p).

Definition returned (w : Worker) : bool := match w with Returned => true | _ => false end.

(** The joins of the destructor return when every worker has. *)
Definition joined p : bool := forallb returned (workers_ p).

(** ** Runs *)
Inductive PEvent : Type := PEnqueue (job : Job) | PWake (w : nat) | PFinish (w : nat) | PStop.

Definition pexec (ev : PEvent) p : option (Pool * list Obs) :=
  match ev with
  | PEnqueue job => Some (enqueue job p)
  | PWake w => wake w p
  | PFinish w => finish w p
  | PStop => Some (stop p, [])
  end.

Fixpoint prun (evs : list PEvent) p : option (Pool * list Obs) :=
  match evs with
  | [] => Some (p, [])
  | ev :: evs' => '(p', o) ← pexec ev p; '(p'', os) ← prun evs' p'; Some (p'', o ++ os)
  end.

Definition accepted (os : list Obs) : list Job := omap (fun o => match o with Accepted j => Some j | _ => None end) os.
Definition started (os : list Obs) : list Job := omap (fun o => match o with Started j => Some j | _ => None end) os.
Definition finished (os : list Obs) : list Job := omap (fun o => match o with Finished j => Some j | _ => None end) os.
Definition underWay (ws : list Worker) : list Job := omap (fun w => match w with Running j => Some j | _ => None end) ws.

(** ** What is accepted is run *)

(** Replacing one worker. *)
Lemma underWay_insert ws w x y :
  ws !! w = Some x ->
  underWay ws ++ underWay [y] ≡ₚ underWay (<[w := y]> ws) ++ underWay [x].
Proof.
  intros Hw; rewrite insert_take_drop by (by eapply lookup_lt_Some).
  rewrite <- (take_drop_middle ws w x Hw) at 1; unfold underWay; rewrite !omap_app.
  change (x :: drop (S w) ws) with ([x] ++ drop (S w) ws); change (y :: drop (S w) ws) with ([y] ++ drop (S w) ws).
  rewrite !omap_app; solve_Permutation.
Qed.

Record accounts p0 p (os : list Obs) : Prop := {
  ac_fifo : queue_ p0 ++ accepted os = started os ++ queue_ p;
  ac_done : underWay (workers_ p0) ++ started os ≡ₚ finished os ++ underWay (workers_ p);
  ac_workers : length (workers_ p) = length (workers_ p0)
}.

Lemma accounts_refl p : accounts p p [].
Proof. split; simpl; rewrite ?app_nil_r; done. Qed.

Lemma accounts_trans p0 p1 p2 o os : accounts p0 p1 o -> accounts p1 p2 os -> accounts p0 p2 (o ++ os).
Proof.
  intros [F1 D1 W1] [F2 D2 W2]; split; [| |congruence]; unfold accepted, started, finished in *; rewrite !omap_app.
  - by rewrite app_assoc, F1, <- !app_assoc, F2.
  - by rewrite app_assoc, D1, <- !app_assoc, D2.
Qed.

Lemma wake_accounts w p p' o : wake w p = Some (p', o) -> accounts p p' o.
Proof.
  unfold wake; destruct (workers_ p !! w) as [[| |]|] eqn:Hw; [|done..]; destruct (queue_ p) as [|job rest] eqn:Hq.
  - destruct (stopping_ p); [|done]; intros [= <- <-]; split; simpl; [by rewrite Hq| |by rewrite length_insert].
    pose proof (underWay_insert _ _ _ Returned Hw) as Hu; simpl in Hu; by rewrite !app_nil_r in *.
  - intros [= <- <-]; split; simpl; [by rewrite Hq, app_nil_r| |by rewrite length_insert].
    pose proof (underWay_insert _ _ _ (Running job) Hw) as Hu; simpl in Hu; by rewrite app_nil_r in Hu.
Qed.

Lemma finish_accounts w p p' o : finish w p = Some (p', o) -> accounts p p' o.
Proof.
  unfold finish; destruct (workers_ p !! w) as [[|job|]|] eqn:Hw; [done| |done..]; intros [= <- <-].
  split; simpl; [by rewrite app_nil_r| |by rewrite length_insert].
  pose proof (underWay_insert _ _ _ Waiting Hw) as Hu; simpl in Hu; rewrite app_nil_r in *.
  rewrite Hu; solve_Permutation.
Qed.

Lemma pexec_accounts ev p p' o : pexec ev p = Some (p', o) -> accounts p p' o.
Proof.
  destruct ev as [job|w|w|]; simpl; [|apply wake_accounts|apply finish_accounts|].
  - unfold enqueue; destruct (stopping_ p); intros [= <- <-]; split; simpl; rewrite ?app_nil_r; done.
  - intros [= <- <-]; split; simpl; rewrite ?app_nil_r; done.
Qed.

Lemma prun_accounts evs p p' os : prun evs p = Some (p', os) -> accounts p p' os.
Proof.
  revert p os; induction evs as [|ev evs IH]; intros p os; simpl; [intros [= <- <-]; apply accounts_refl|].
  intros ([p1 o] & H1 & ([p2 os'] & H2 & [= <- <-])%bind_Some_inv)%bind_Some_inv.
  eapply accounts_trans; [by eapply pexec_accounts|by apply IH].
Qed.

Lemma underWay_new k : underWay (repeat Waiting k) = [].
Proof. induction k; [done|assumption]. Qed.

Lemma underWay_length ws : length (underWay ws) <= length ws.
Proof. induction ws as [|[| |] ws IH]; simpl; unfold underWay in *; simpl; lia. Qed.

(** A worker returns only when the pool is stopping and its queue is empty, and
    both stay so. *)
Definition drained p : Prop := existsb returned (workers_ p) = true -> stopping_ p = true /\ queue_ p = [].

Lemma existsb_insert (ws : list Worker) w x :
  returned x = false -> existsb returned (<[w := x]> ws) = true -> existsb returned ws = true.
Proof.
  intros Hx; revert w; induction ws as [|y ws IH]; intros [|w]; simpl; [done|done|rewrite Hx; simpl; intros ->; by rewrite orb_true_r|].
  destruct (returned y); [done|apply IH].
Qed.

Lemma pexec_drained ev p p' o : pexec ev p = Some (p', o) -> drained p -> drained p'.
Proof.
  unfold drained; destruct ev as [job|w|w|]; simpl; intros Hx Hd.
  - unfold enqueue in Hx; destruct (stopping_ p) eqn:Hs; injection Hx as <- <-; [by rewrite Hs|].
    simpl; intros Hr; by destruct (Hd Hr).
  - unfold wake in Hx; destruct (workers_ p !! w) as [[| |]|]; [|done..]; destruct (queue_ p) as [|job rest] eqn:Hq.
    + destruct (stopping_ p); [|done]; by injection Hx as <- <-.
    + injection Hx as <- <-; simpl; intros Hr; apply existsb_insert in Hr; [|done]; by destruct (Hd Hr).
  - unfold finish in Hx; destruct (workers_ p !! w) as [[| |]|]; [done| |done..].
    injection Hx as <- <-; simpl; intros Hr; apply existsb_insert in Hr; [exact (Hd Hr)|done].
  - injection Hx as <- <-; simpl; intros Hr; split; [done|by apply Hd].
Qed.

Lemma prun_drained evs p p' os : prun evs p = Some (p', os) -> drained p -> drained p'.
Proof.
  revert p os; induction evs as [|ev evs IH]; intros p os; simpl; [by intros [= <- <-]|].
  intros ([p1 o] & H1 & ([p2 os'] & H2 & [= <- <-])%bind_Some_inv)%bind_Some_inv Hd.
  eapply IH; [done|by eapply pexec_drained].
Qed.

Lemma newPool_drained k : drained (newPool k).
Proof. unfold drained; simpl; intros Hr; exfalso; induction k; [done|auto]. Qed.

Lemma joined_all p : joined p = true -> underWay (workers_ p) = [] /\ (workers_ p <> [] -> existsb returned (workers_ p) = true).
Proof.
  unfold joined; induction (workers_ p) as [|[| |] ws IH]; simpl; [done|done|done|]; intros Hj.
  split; [by apply IH|done].
Qed.

(** ** Termination of the destructor *)

Definition weight (w : Worker) : nat := match w with Waiting => 1 | Running _ => 2 | Returned => 0 end.

(** The most that is left to do once the pool is stopping. *)
Definition workLeft p : nat :=
  2 * length (queue_ p) + sum_list_with weight (workers_ p).

Definition workerEvent (ev : PEvent) : bool := match ev with PWake _ | PFinish _ => true | _ => false end.

Lemma sum_insert (g : Worker -> nat) ws w x y :
  ws !! w = Some x -> sum_list_with g (<[w := y]> ws) + g x = sum_list_with g ws + g y.
Proof.
  revert w; induction ws as [|z ws IH]; intros [|w]; simpl; try done; [intros [= ->]; lia|].
  intros Hw; specialize (IH w Hw); lia.
Qed.

Lemma workerEvent_measure ev p p' o :
  workerEvent ev = true -> pexec ev p = Some (p', o) -> workLeft p = S (workLeft p') /\ stopping_ p' = stopping_ p.
Proof.
  destruct ev as [job|w|w|]; simpl; try done; intros _.
  - unfold wake; destruct (workers_ p !! w) as [[| |]|] eqn:Hw; [|done..]; destruct (queue_ p) as [|job rest] eqn:Hq.
    + destruct (stopping_ p) eqn:Hs; [|done]; intros [= <- <-]; unfold workLeft; rewrite Hq; cbn [queue_ workers_ stopping_ length].
      pose proof (sum_insert weight _ _ _ Returned Hw) as Hm; cbn [weight] in Hm; split; [lia|done].
    + intros [= <- <-]; unfold workLeft; rewrite Hq; cbn [queue_ workers_ stopping_ length].
      pose proof (sum_insert weight _ _ _ (Running job) Hw) as Hm; cbn [weight] in Hm; split; [lia|done].
  - unfold finish; destruct (workers_ p !! w) as [[|job|]|] eqn:Hw; [done| |done..]; intros [= <- <-]; unfold workLeft; cbn [queue_ workers_ stopping_ length].
    pose proof (sum_insert weight _ _ _ Waiting Hw) as Hm; cbn [weight] in Hm; split; [lia|done].
Qed.

(** A worker that has not returned can go on. *)
Lemma worker_enabled p : stopping_ p = true -> joined p = false -> exists ev p' o, workerEvent ev = true /\ pexec ev p = Some (p', o).
Proof.
  intros Hs Hj; assert (exists w x, workers_ p !! w = Some x /\ returned x = false) as (w & x & Hw & Hx).
  { clear Hs; unfold joined in Hj; induction (workers_ p) as [|[| |] ws IH]; simpl in Hj; [done| | |].
    - by exists 0, Waiting.
    - by exists 0, (Running job).
    - destruct (IH Hj) as (w & x & ? & ?); by exists (S w), x. }
  destruct x as [|job|]; [| |done].
  - exists (PWake w); simpl; unfold wake; rewrite Hw, Hs; destruct (queue_ p); by do 2 eexists.
  - exists (PFinish w); simpl; unfold finish; rewrite Hw; by do 2 eexists.
Qed.

Lemma stop_returns_within k p : stopping_ p = true -> workLeft p <= k ->
  exists evs p' os, forallb workerEvent evs = true /\ length evs <= k /\ prun evs p = Some (p', os) /\ joined p' = true.
Proof.
  revert p; induction k as [|k IH]; intros p Hs Hk; (destruct (joined p) eqn:Hj; [exists [], p, []; simpl; split_and!; [done|lia|done..]|]);
    destruct (worker_enabled p Hs Hj) as (ev & p1 & o & Hev & Hx); destruct (workerEvent_measure _ _ _ _ Hev Hx) as [Hm Hs1]; [lia|].
  destruct (IH p1) as (evs & p' & os & He & Hl & Hr & Hd); [congruence|lia|].
  exists (ev :: evs), p', (o ++ os); simpl; rewrite Hev, Hx; simpl; rewrite Hr; split_and!; [done|lia|done|done].
Qed.

Lemma workerEvents_bounded evs p p' os :
  forallb workerEvent evs = true -> prun evs p = Some (p', os) -> length evs + workLeft p' = workLeft p.
Proof.
  revert p os; induction evs as [|ev evs IH]; intros p os; simpl; [by intros _ [= <- <-]|].
  intros [Hev Hevs]%andb_prop ([p1 o] & H1 & ([p2 os'] & H2 & [= <- <-])%bind_Some_inv)%bind_Some_inv.
  destruct (workerEvent_measure _ _ _ _ Hev H1) as [-> _]; specialize (IH _ _ Hevs H2); lia.
Qed.

Lemma workerEvents_stopping evs p p' os :
  forallb workerEvent evs = true -> prun evs p = Some (p', os) -> stopping_ p' = stopping_ p.
Proof.
  revert p os; induction evs as [|ev evs IH]; intros p os; simpl; [by intros _ [= <- <-]|].
  intros [Hev Hevs]%andb_prop ([p1 o] & H1 & ([p2 os'] & H2 & [= <- <-])%bind_Some_inv)%bind_Some_inv.
  rewrite (IH _ _ Hevs H2); by eapply workerEvent_measure.
Qed.

(** ** Calls that hang *)

Definition busy (w : Worker) : bool := match w with Running _ => true | _ => false end.

Definition returns (ev : PEvent) : bool := match ev with PFinish _ => true | _ => false end.

(** While every worker is in a call that does not return, for instance to a peer
    that has accepted the connection and does not answer, nothing is started, for
    whatever peer: the sockets have no timeout. *)
Lemma hung_calls_block evs p p' os :
  forallb busy (workers_ p) = true -> existsb returns evs = false -> prun evs p = Some (p', os) ->
  started os = [] /\ workers_ p' = workers_ p.
Proof.
  revert p os; induction evs as [|ev evs IH]; intros p os Hb He; simpl; [by intros [= <- <-]|].
  simpl in He; apply orb_false_elim in He as [Hev He].
  intros ([p1 o] & H1 & ([p2 os'] & H2 & [= <- <-])%bind_Some_inv)%bind_Some_inv.
  assert (started o = [] /\ workers_ p1 = workers_ p) as [Ho Hw].
  { destruct ev as [job|w|w|]; simpl in H1, Hev; [| |done|by simplify_eq].
    - unfold enqueue in H1; destruct (stopping_ p); by simplify_eq.
    - unfold wake in H1; destruct (workers_ p !! w) as [x|] eqn:Hx; [|done].
      assert (busy x = true) as Hx' by (eapply forallb_forall; [exact Hb|by eapply list_elem_of_In, list_elem_of_lookup_2]).
      by destruct x. }
  destruct (IH p1 os') as [Hs Hw2]; [by rewrite Hw|done|done|].
  unfold started in *; rewrite omap_app, Ho, Hs; split; [done|congruence].
Qed.
End pool.
#[global] Arguments Worker : clear implicits.
#[global] Arguments Pool : clear implicits.
#[global] Arguments PEvent : clear implicits.
#[global] Arguments Obs : clear implicits.

(** ** The theorems *)

(** C26: the queue of the transport is fair and loses nothing.  In every run of a
    pool, with calls, workers and the destructor in any order: jobs are started in
    the order in which they were accepted, every started job is finished or under
    way on a worker of its own, and so at most as many as there are workers are
    under way; once the joins of the destructor have returned, exactly the
    accepted jobs have been run, each once. *)
Theorem accepted_jobs_run (Job : Type) (k : nat) (evs : list (PEvent Job)) (p : Pool Job) (os : list (Obs Job))
    (Hr : prun evs (newPool k) = Some (p, os)) :
  accepted os = started os ++ queue_ p /\
  started os ≡ₚ finished os ++ underWay (workers_ p) /\ length (underWay (workers_ p)) <= k /\
  (0 < k -> joined p = true -> finished os ≡ₚ accepted os).
Proof.
  destruct (prun_accounts _ _ _ _ Hr) as [Hf Hd Hw]; simpl in Hf, Hd, Hw; rewrite underWay_new in Hd; simpl in Hd.
  rewrite repeat_length in Hw; split_and!; [done|done|pose proof (underWay_length (workers_ p)); lia|].
  intros Hk Hj; apply joined_all in Hj as [Hu Hj]; rewrite Hu, app_nil_r in Hd.
  destruct (prun_drained _ _ _ _ Hr (newPool_drained k)) as [_ Hq]; [apply Hj; by destruct (workers_ p); [simpl in *; lia|]|].
  by rewrite Hf, Hq, app_nil_r, Hd.
Qed.

(** The destructor terminates.  Once it has set [stopping_], if every job
    returns, the workers reach a state in which the joins return; every order in
    which they go on takes at most [workLeft] steps, and as long as a worker has
    not returned one of them can go on. *)
Theorem stop_terminates (Job : Type) (p : Pool Job) :
  (exists evs p' os, forallb workerEvent evs = true /\ prun evs (stop p) = Some (p', os) /\ joined p' = true) /\
  (forall evs p' os, forallb workerEvent evs = true -> prun evs (stop p) = Some (p', os) ->
     length evs <= workLeft p /\
     (joined p' = true \/ exists ev p'' o, workerEvent ev = true /\ pexec ev p' = Some (p'', o))).
Proof.
  assert (workLeft (stop p) = workLeft p) as Hl by done; split.
  - destruct (stop_returns_within (workLeft p) (stop p)) as (evs & p' & os & ? & _ & ? & ?); [done|by rewrite Hl|].
    by exists evs, p', os.
  - intros evs p' os He Hr; split; [pose proof (workerEvents_bounded _ _ _ _ He Hr); lia|].
    destruct (joined p') eqn:Hj; [by left|right]; apply worker_enabled; [|done].
    by rewrite (workerEvents_stopping _ _ _ _ He Hr).
Qed.

(** Two workers, three calls and the destructor. *)
Lemma accepted_jobs_run_witness :
  exists p os, prun [PEnqueue 1; PEnqueue 2; PEnqueue 3; PWake 1; PWake 0; PFinish 0; PStop; PEnqueue 4; PWake 0;
      PFinish 1; PWake 1; PFinish 0; PWake 0] (newPool 2) = Some (p, os) /\
    joined p = true /\ accepted os = [1; 2; 3] /\ finished os = [2; 1; 3] /\ finished os ≡ₚ accepted os.
Proof.
  do 2 eexists; split; [vm_compute; reflexivity|]; do 3 (split; [reflexivity|]).
  eapply (accepted_jobs_run nat 2 [PEnqueue 1; PEnqueue 2; PEnqueue 3; PWake 1; PWake 0; PFinish 0; PStop; PEnqueue 4; PWake 0;
      PFinish 1; PWake 1; PFinish 0; PWake 0]); [vm_compute; reflexivity|lia|reflexivity].
Defined.
