(* ===== verification/WorkerPool.v ===== *)
(** * net/tcp_transport.h: the condition variable of the worker pool

    [JobQueue] lets a worker go on whenever the condition it waits for holds.  Here
    a worker that finds the condition false sleeps until it is notified (or wakes up
    on its own, which the standard allows), so that a notification that is missing
    or too early shows.  Every run is a run of [JobQueue] ([abs_run]). *)
From stdpp Require Import base tactics list numbers.
From Stdlib Require Import Lia.
From S2P Require Import Prelude.
From S2P Require Import JobQueue.

Section condvar.
Context {Job : Type}.

(** [Ready]: about to test the condition of [qcv_.wait], with [qmu_]. *)
Inductive CWorker : Type := Ready | Asleep | Busy (job : Job) | Gone.

(** [cv_notified]: the destructor has called [notify_all]. *)
Record CPool := mkCPool { cv_queue : list Job; cv_stopping : bool; cv_notified : bool; cv_workers : list CWorker }.
Implicit Types p : CPool.

Definition cv_new (workers : nat) : CPool := mkCPool [] false false (repeat Ready workers).

Definition set_workers ws p : CPool := mkCPool (cv_queue p) (cv_stopping p) (cv_notified p) ws.

Definition isReady (w : CWorker) : bool := match w with Ready => true | _ => false end.
Definition isAsleep (w : CWorker) : bool := match w with Asleep => true | _ => false end.

(** [qcv_.notify_one()]: the system picks [w] among the sleeping workers, if there
    are any. *)
Definition notify_one (w : nat) p : option CPool :=
  if existsb isAsleep (cv_workers p)
  then match cv_workers p !! w with Some Asleep => Some (set_workers (<[w := Ready]> (cv_workers p)) p) | _ => None end
  else Some p.

Definition wakeUp (w : CWorker) : CWorker := match w with Asleep => Ready | _ => w end.

Definition push (job : Job) p : CPool := mkCPool (cv_queue p ++ [job]) (cv_stopping p) (cv_notified p) (cv_workers p).

Definition cv_enqueue (job : Job) (w : nat) p : option CPool :=
  if cv_stopping p then Some p else notify_one w (push job p).

(** The critical section of [workerLoop]: the condition is tested; the worker takes
    a job, returns, or goes to sleep. *)
Definition cv_test (w : nat) p : option CPool :=
  match cv_workers p !! w with
  | Some Ready =>
      match cv_queue p with
      | job :: rest => Some (mkCPool rest (cv_stopping p) (cv_notified p) (<[w := Busy job]> (cv_workers p)))
      | [] => Some (set_workers (<[w := if cv_stopping p then Gone else Asleep]> (cv_workers p)) p)
      end
  | _ => None
  end.

Definition cv_finish (w : nat) p : option CPool :=
  match cv_workers p !! w with
  | Some (Busy _) => Some (set_workers (<[w := Ready]> (cv_workers p)) p)
  | _ => None
  end.

(** The first two statements of the destructor. *)
Definition cv_stop p : CPool := mkCPool (cv_queue p) true (cv_notified p) (cv_workers p).
Definition cv_notify_all p : CPool := mkCPool (cv_queue p) (cv_stopping p) true (wakeUp <$> cv_workers p).

(** ** Runs *)
Inductive CEvent : Type :=
| CEnqueue (job : Job) (w : nat)
| CTest (w : nat)
| CFinish (w : nat)
| CSpurious (w : nat)
| CStop
| CNotifyAll.

Definition cexec (ev : CEvent) p : option CPool :=
  match ev with
  | CEnqueue job w => cv_enqueue job w p
  | CTest w => cv_test w p
  | CFinish w => cv_finish w p
  | CSpurious w =>
      match cv_workers p !! w with Some Asleep => Some (set_workers (<[w := Ready]> (cv_workers p)) p) | _ => None end
  | CStop => Some (cv_stop p)
  | CNotifyAll => if cv_stopping p then Some (cv_notify_all p) else None
  end.

Fixpoint crun (evs : list CEvent) p : option CPool :=
  match evs with
  | [] => Some p
  | ev :: evs' => p' ← cexec ev p; crun evs' p'
  end.

(** ** Every run is one of [JobQueue] *)
Definition absWorker (w : CWorker) : Worker Job :=
  match w with Ready | Asleep => Waiting | Busy job => Running job | Gone => Returned end.

Definition abs p : Pool Job := mkPool (cv_queue p) (cv_stopping p) (absWorker <$> cv_workers p).

Definition absEvent (ev : CEvent) p : list (PEvent Job) :=
  match ev with
  | CEnqueue job _ => [PEnqueue job]
  | CTest w => match cv_queue p with [] => if cv_stopping p then [PWake w] else [] | _ => [PWake w] end
  | CFinish w => [PFinish w]
  | CStop => [PStop]
  | CSpurious _ | CNotifyAll => []
  end.

Lemma abs_insert (w : nat) x y (ws : list CWorker) : ws !! w = Some x -> absWorker x = absWorker y -> absWorker <$> <[w := y]> ws = absWorker <$> ws.
Proof. intros Hw E; rewrite list_fmap_insert, <- E; apply list_insert_id; by rewrite list_lookup_fmap, Hw. Qed.

Lemma notify_one_abs w p p' : notify_one w p = Some p' -> abs p' = abs p.
Proof.
  unfold notify_one; destruct (existsb _ _); [|by intros [= <-]].
  destruct (cv_workers p !! w) as [[| | |]|] eqn:Hw; try done; intros [= <-]; unfold abs; simpl; f_equal; by eapply abs_insert.
Qed.

Lemma cexec_abs ev p p' : cexec ev p = Some p' -> exists os, prun (absEvent ev p) (abs p) = Some (abs p', os).
Proof.
  destruct ev as [job w|w|w|w| |]; simpl.
  - unfold cv_enqueue, enqueue; simpl; destruct (cv_stopping p) eqn:Hs; [intros [= <-]; by eexists|].
    intros ->%notify_one_abs; unfold abs; simpl; rewrite Hs; by eexists.
  - unfold cv_test; destruct (cv_workers p !! w) as [[| | |]|] eqn:Hw; try done; destruct (cv_queue p) as [|job rest] eqn:Hq; intros [= <-].
    + destruct (cv_stopping p) eqn:Hs; simpl; unfold abs; simpl; rewrite ?Hq, ?Hs.
      * unfold wake; simpl; rewrite list_lookup_fmap, Hw; simpl; rewrite list_fmap_insert; by eexists.
      * rewrite (abs_insert _ _ _ _ Hw) by done; by eexists.
    + simpl; unfold abs, wake; simpl; rewrite Hq, list_lookup_fmap, Hw; simpl; rewrite list_fmap_insert; by eexists.
  - unfold cv_finish, finish; destruct (cv_workers p !! w) as [[| | |]|] eqn:Hw; try done; intros [= <-]; simpl.
    rewrite list_lookup_fmap, Hw; simpl; unfold abs; simpl; rewrite list_fmap_insert; by eexists.
  - destruct (cv_workers p !! w) as [[| | |]|] eqn:Hw; try done; intros [= <-]; unfold abs; simpl; rewrite (abs_insert _ _ _ _ Hw) by done; by eexists.
  - intros [= <-]; by eexists.
  - destruct (cv_stopping p); [|done]; intros [= <-]; unfold abs; simpl; rewrite <- list_fmap_compose; eexists; do 3 f_equal.
    apply list_fmap_ext; by intros i [| | |].
Qed.

(** ** No wake-up is lost *)
Definition count (f : CWorker -> bool) (ws : list CWorker) : nat := length (List.filter f ws).

Lemma count_insert f ws (w : nat) x y : ws !! w = Some x ->
  count f (<[w := y]> ws) + (if f x then 1 else 0) = count f ws + (if f y then 1 else 0).
Proof.
  unfold count; revert w; induction ws as [|z ws IH]; intros [|w]; simpl; try done.
  - intros [= ->]; destruct (f x), (f y); simpl; lia.
  - intros Hw; specialize (IH w Hw); destruct (f z); simpl; lia.
Qed.

Lemma count_zero f ws : count f ws = 0 <-> existsb f ws = false.
Proof. unfold count; induction ws as [|x ws IH]; [done|]; simpl; destruct (f x); simpl; [done|exact IH]. Qed.

Lemma count_lookup f ws (w : nat) x : ws !! w = Some x -> f x = true -> 0 < count f ws.
Proof.
  intros Hw Hx; destruct (decide (count f ws = 0)) as [E|]; [|lia]; apply count_zero in E.
  assert (existsb f ws = true); [|congruence]; apply existsb_exists; exists x; split; [|done].
  by eapply list_elem_of_In, list_elem_of_lookup_2.
Qed.

(** While a worker sleeps there are at least as many awake ones as jobs in the
    queue; after the destructor's [notify_all] none sleeps. *)
Record awake p : Prop := {
  aw_queue : 0 < count isAsleep (cv_workers p) -> length (cv_queue p) <= count isReady (cv_workers p);
  aw_stop : cv_notified p = true -> cv_stopping p = true /\ count isAsleep (cv_workers p) = 0
}.

Lemma notify_one_awake w p p' :
  notify_one w p = Some p' -> (0 < count isAsleep (cv_workers p) -> length (cv_queue p) <= S (count isReady (cv_workers p))) ->
  (cv_notified p = true -> cv_stopping p = true /\ count isAsleep (cv_workers p) = 0) -> awake p'.
Proof.
  unfold notify_one; destruct (existsb isAsleep (cv_workers p)) eqn:E.
  - destruct (cv_workers p !! w) as [[| | |]|] eqn:Hw; try done; intros [= <-] Hq Hn.
    pose proof (count_insert isReady _ _ _ Ready Hw); pose proof (count_insert isAsleep _ _ _ Ready Hw); simpl in *.
    pose proof (count_lookup isAsleep _ _ _ Hw eq_refl); split; simpl; [intros; lia|intros Hb; destruct (Hn Hb); lia].
  - apply count_zero in E; intros [= <-] Hq Hn; split; [lia|done].
Qed.

Lemma cexec_awake ev p p' : cexec ev p = Some p' -> awake p -> awake p'.
Proof.
  intros Hx [Hq Hn]; destruct ev as [job w|w|w|w| |]; simpl in Hx.
  - unfold cv_enqueue in Hx; destruct (cv_stopping p) eqn:Hs; [injection Hx as <-; split; [done|by rewrite Hs]|].
    eapply notify_one_awake; [exact Hx| |]; simpl; [rewrite length_app; simpl; intros ?%Hq; lia|].
    intros Hb; destruct (Hn Hb); congruence.
  - unfold cv_test in Hx; destruct (cv_workers p !! w) as [[| | |]|] eqn:Hw; try done; destruct (cv_queue p) as [|job rest] eqn:Eq;
      injection Hx as <-.
    + destruct (cv_stopping p) eqn:Hs.
      * pose proof (count_insert isAsleep _ _ _ Gone Hw); simpl in *; split; simpl; [rewrite Eq; simpl; lia|]; rewrite Hs; intros Hb; destruct (Hn Hb); split; [done|lia].
      * split; simpl; [rewrite Eq; simpl; lia|]; intros Hb; destruct (Hn Hb); congruence.
    + pose proof (count_insert isAsleep _ _ _ (Busy job) Hw); pose proof (count_insert isReady _ _ _ (Busy job) Hw); simpl in *.
      split; simpl; [intros; lia|]; intros Hb; destruct (Hn Hb); split; [done|lia].
  - unfold cv_finish in Hx; destruct (cv_workers p !! w) as [[| |job|]|] eqn:Hw; try done; injection Hx as <-.
    pose proof (count_insert isAsleep _ _ _ Ready Hw); pose proof (count_insert isReady _ _ _ Ready Hw); simpl in *.
    split; simpl; [intros; lia|]; intros Hb; destruct (Hn Hb); split; [done|lia].
  - destruct (cv_workers p !! w) as [[| | |]|] eqn:Hw; try done; injection Hx as <-.
    pose proof (count_insert isAsleep _ _ _ Ready Hw); pose proof (count_insert isReady _ _ _ Ready Hw); simpl in *.
    split; simpl; [intros; lia|]; intros Hb; destruct (Hn Hb); split; [done|lia].
  - injection Hx as <-; split; simpl; [done|]; intros Hb; by destruct (Hn Hb).
  - destruct (cv_stopping p) eqn:Hs; [|done]; injection Hx as <-.
    assert (count isAsleep (wakeUp <$> cv_workers p) = 0) as E
      by (apply count_zero; clear; induction (cv_workers p) as [|[| | |] ws IH]; done).
    split; simpl; [lia|]; intros _; split; [done|exact E].
Qed.

Lemma crun_awake evs p p' : crun evs p = Some p' -> awake p -> awake p'.
Proof.
  revert p; induction evs as [|ev evs IH]; intros p; simpl; [by intros [= <-]|].
  intros (p1 & Hx & Hr)%bind_Some_inv Ha; eapply IH; [done|by eapply cexec_awake].
Qed.

Lemma cv_new_awake k : awake (cv_new k).
Proof. split; [simpl; lia|done]. Qed.

Lemma crun_abs evs p p' : crun evs p = Some p' -> exists pevs os, prun pevs (abs p) = Some (abs p', os).
Proof.
  revert p; induction evs as [|ev evs IH]; intros p; simpl; [intros [= <-]; by exists [], []|].
  intros (p1 & Hx & Hr)%bind_Some_inv; apply cexec_abs in Hx as [o1 H1]; destruct (IH _ Hr) as (pevs & o2 & H2).
  exists (absEvent ev p ++ pevs), (o1 ++ o2); revert H1; generalize (abs p) as a; revert o1; generalize (absEvent ev p) as qs.
  induction qs as [|q qs IHq]; intros o1 a; simpl; [by intros [= -> <-]|].
  intros ([a1 oa] & -> & ([a2 ob] & Hb & [= -> <-])%bind_Some_inv)%bind_Some_inv; simpl.
  by rewrite (IHq _ _ Hb); simpl; rewrite app_assoc.
Qed.

(** ** The destructor *)
Definition ownEvent (ev : CEvent) : bool := match ev with CTest _ | CFinish _ => true | _ => false end.

Definition allGone p : bool := joined (abs p).

(** Once [stopping_] is set no worker goes to sleep, and every step of one brings the
    destructor closer to its end. *)
Lemma ownEvent_left ev p p' :
  ownEvent ev = true -> cv_stopping p = true -> cexec ev p = Some p' ->
  cv_stopping p' = true /\ cv_notified p' = cv_notified p /\ workLeft (abs p) = S (workLeft (abs p')).
Proof.
  intros Ho Hs Hx; assert (cv_stopping p' = true /\ cv_notified p' = cv_notified p) as [H1 H2].
  { destruct ev; simpl in *; try done; [unfold cv_test in Hx|unfold cv_finish in Hx]; destruct (cv_workers p !! w) as [[| | |]|]; try done;
      [destruct (cv_queue p)|]; by injection Hx as <-. }
  split_and!; [done|done|]; apply cexec_abs in Hx as [os Hr].
  assert (exists q o, absEvent ev p = [q] /\ workerEvent q = true /\ pexec q (abs p) = Some (abs p', o)) as (q & o & _ & Hw & Hp).
  { destruct ev as [|w|w| | |]; simpl in *; try done; [rewrite Hs in *; destruct (cv_queue p)|].
    all: apply bind_Some_inv in Hr as ([a oa] & Ha & [= -> _]); do 2 eexists; split; [reflexivity|split; [done|exact Ha]]. }
  by eapply workerEvent_measure.
Qed.

Lemma awake_enabled p : awake p -> cv_notified p = true -> allGone p = false -> exists ev p', ownEvent ev = true /\ cexec ev p = Some p'.
Proof.
  intros [_ Hn] Hb; destruct (Hn Hb) as [Hs Ha]; unfold allGone, joined; simpl.
  assert (forall ws, count isAsleep ws = 0 -> forallb returned (absWorker <$> ws) = false ->
    exists w x, ws !! w = Some x /\ (x = Ready \/ exists job, x = Busy job)) as Hex.
  { induction ws as [|[| |job|] ws IH]; simpl; intros Hc Hj; [done|by exists 0, Ready; split; [|left]|done| |].
    - exists 0, (Busy job); split; [done|right; by exists job].
    - destruct (IH Hc Hj) as (w & x & Hw & Hx); by exists (S w), x. }
  intros Hj; destruct (Hex _ Ha Hj) as (w & x & Hw & [->|[job ->]]).
  - exists (CTest w); simpl; unfold cv_test; rewrite Hw; destruct (cv_queue p); by eexists.
  - exists (CFinish w); simpl; unfold cv_finish; rewrite Hw; by eexists.
Qed.

Lemma ownEvents_left evs p p' :
  forallb ownEvent evs = true -> cv_stopping p = true -> crun evs p = Some p' ->
  cv_notified p' = cv_notified p /\ length evs + workLeft (abs p') = workLeft (abs p).
Proof.
  revert p; induction evs as [|ev evs IH]; intros p; simpl; [by intros _ _ [= <-]|].
  intros [Hev Hevs]%andb_prop Hs (p1 & Hx & Hr)%bind_Some_inv.
  destruct (ownEvent_left _ _ _ Hev Hs Hx) as (Hs1 & Hb1 & Hl); destruct (IH _ Hevs Hs1 Hr) as [Hb Hl']; split; [congruence|lia].
Qed.
End condvar.

#[global] Arguments CWorker : clear implicits.
#[global] Arguments CPool : clear implicits.
#[global] Arguments CEvent : clear implicits.

Lemma abs_new {Job} k : abs (cv_new (Job := Job) k) = newPool k.
Proof. unfold abs, newPool; simpl; f_equal; induction k; [done|]; simpl; by f_equal. Qed.

(** ** The theorems *)

(** C27: no wake-up is lost.  In every run of the pool with its condition variable,
    notifications going to any sleeping worker and spurious wake-ups included: the
    run is one of the pool without it, and whenever a call is in the queue, a worker
    is awake that will take it on its next step, or no worker sleeps (all of them are
    running a job or have returned). *)
Theorem no_lost_wakeup (Job : Type) (k : nat) (evs : list (CEvent Job)) (p : CPool Job) (Hr : crun evs (cv_new k) = Some p) :
  (exists pevs os, prun pevs (newPool k) = Some (abs p, os)) /\
  (cv_queue p <> [] ->
     (exists w job p', cv_workers p !! w = Some Ready /\ cv_test w p = Some p' /\ cv_workers p' !! w = Some (Busy job) /\
        head (cv_queue p) = Some job) \/
     forall w, cv_workers p !! w <> Some Asleep).
Proof.
  split; [rewrite <- abs_new; by eapply crun_abs|]; intros Hq.
  pose proof (crun_awake _ _ _ Hr (cv_new_awake k)) as [Ha _].
  destruct (decide (count isAsleep (cv_workers p) = 0)) as [E|E].
  { right; intros w Hw; pose proof (count_lookup isAsleep _ _ _ Hw eq_refl); lia. }
  left; assert (existsb isReady (cv_workers p) = true) as Hex.
  { destruct (existsb isReady (cv_workers p)) eqn:Ex; [done|]; apply count_zero in Ex; destruct (cv_queue p); [done|simpl in Ha; lia]. }
  apply existsb_exists in Hex as (x & [w Hw]%list_elem_of_In%list_elem_of_lookup & Hx); destruct x; try done.
  destruct (cv_queue p) as [|job rest] eqn:Eq; [done|]; exists w, job; unfold cv_test; rewrite Hw, Eq; eexists; split_and!; [done..| |done].
  simpl; apply list_lookup_insert_eq; by eapply lookup_lt_Some.
Qed.

(** C28: the destructor of the transport terminates.  Once it has set [stopping_] and
    notified, in every run of the pool: if jobs return, the workers take at most
    [workLeft] more steps, in whatever order and without any further wake-up, and as
    long as one of them has not returned, one of them can go on. *)
Theorem destructor_terminates (Job : Type) (k : nat) (evs evs' : list (CEvent Job)) (p p' : CPool Job)
    (Hr : crun evs (cv_new k) = Some p) (Hn : cv_notified p = true)
    (Ho : forallb ownEvent evs' = true) (Hr' : crun evs' p = Some p') :
  length evs' <= workLeft (abs p) /\ (allGone p' = true \/ exists ev p'', ownEvent ev = true /\ cexec ev p' = Some p'').
Proof.
  pose proof (crun_awake _ _ _ Hr (cv_new_awake k)) as Ha; destruct (aw_stop _ Ha Hn) as [Hs _].
  destruct (ownEvents_left _ _ _ Ho Hs Hr') as [Hb Hl]; split; [lia|].
  destruct (allGone p') eqn:Hg; [by left|right]; apply awake_enabled; [by eapply crun_awake|congruence|done].
Qed.

(** Two workers go to sleep, two calls wake them, the destructor ends them. *)
Definition sleepy : list (CEvent nat) := [CTest 0; CTest 1; CEnqueue 1 1; CEnqueue 2 0; CTest 0].

Lemma no_lost_wakeup_witness :
  exists p, crun sleepy (cv_new 2) = Some p /\ cv_queue p = [2] /\
    ((exists w job p', cv_workers p !! w = Some Ready /\ cv_test w p = Some p' /\ cv_workers p' !! w = Some (Busy job) /\
        head (cv_queue p) = Some job) \/
     forall w, cv_workers p !! w <> Some Asleep).
Proof.
  eexists; split; [vm_compute; reflexivity|]; split; [reflexivity|].
  eapply (no_lost_wakeup nat 2 sleepy); [vm_compute; reflexivity|discriminate].
Defined.

Lemma destructor_terminates_witness :
  exists p p', crun [CTest 0; CTest 1; CStop; CNotifyAll] (cv_new 2 : CPool nat) = Some p /\ crun [CTest 1] p = Some p' /\
    1 <= workLeft (abs p) /\ (allGone p' = true \/ exists ev p'', ownEvent ev = true /\ cexec ev p' = Some p'').
Proof.
  do 2 eexists; split; [vm_compute; reflexivity|]; split; [vm_compute; reflexivity|].
  eapply (destructor_terminates nat 2 [CTest 0; CTest 1; CStop; CNotifyAll] [CTest 1]); [vm_compute; reflexivity|reflexivity|reflexivity|vm_compute; reflexivity].
Defined.
