(* ===== verification/FaultyThreads.v ===== *)
(** * net/test_transport.h: the threads of the test network

    [FaultyNetwork] says what the network does with messages; here are the scheduler
    thread, the workers with their condition variable ([WorkerPool]), the
    constructor and the destructor, as steps in any order.  A step of
    [schedulerLoop] is the part between two points where it holds another lock. *)
From stdpp Require Import base tactics list numbers.
From Stdlib Require Import ZArith Lia.
From S2P Require Import Prelude.
From S2P Require Import FaultyNetwork.
From S2P Require Import JobQueue.
From S2P Require Import WorkerPool.

(** Where [schedulerLoop] is: at its outer and its inner loop, between the erasure
    of a timer and the push, between the push and the notification, returned. *)
Inductive Scheduler : Type := AtOuter | AtInner | Pushing (fn : Job) | Notifying | SchedulerReturned.

(** What the destructor has done. *)
Inductive Destructor : Type := NotCalled | FlagSet | Notified | SchedulerJoined | Destroyed.

Record FThreads := mkFThreads { timers : list (Z * Job); pool : CPool Job; scheduler : Scheduler; destructor : Destructor }.
Implicit Types f : FThreads.

(** The constructor. *)
Definition newNetwork (workers : nat) : FThreads := mkFThreads [] (cv_new workers) AtOuter NotCalled.

Definition set_pool p f : FThreads := mkFThreads (timers f) p (scheduler f) (destructor f).
Definition set_scheduler x f : FThreads := mkFThreads (timers f) (pool f) x (destructor f).
Definition set_destructor x f : FThreads := mkFThreads (timers f) (pool f) (scheduler f) x.

(** The end of [deliver]: [copies] timers at [fireAt]. *)
Definition schedule (fireAt : Z) (copies : nat) (fn : Job) f : FThreads :=
  mkFThreads (Nat.iter copies (emplace fireAt fn) (timers f)) (pool f) (scheduler f) (destructor f).

(** A step of [schedulerLoop] when the clock shows [now]; [w] is the worker that
    [notify_one] picks. *)
Definition schedulerStep (now : Z) (w : nat) f : option FThreads :=
  match scheduler f with
  | AtOuter =>
      if cv_stopping (pool f) then Some (set_scheduler SchedulerReturned f)
      else match timers f with
           | (t, _) :: _ => Some (set_scheduler (if (t <=? now)%Z then AtInner else AtOuter) f)
           | [] => Some f
           end
  | AtInner =>
      match timers f with
      | (t, fn) :: rest =>
          if (t <=? now)%Z then Some (mkFThreads rest (pool f) (Pushing fn) (destructor f)) else Some (set_scheduler AtOuter f)
      | [] => Some (set_scheduler AtOuter f)
      end
  | Pushing fn => Some (set_scheduler Notifying (set_pool (push fn (pool f)) f))
  | Notifying => p ← notify_one w (pool f); Some (set_scheduler AtInner (set_pool p f))
  | SchedulerReturned => None
  end.

(** A statement of the destructor.  [cv2_.notify_all()] concerns the scheduler,
    whose waits have a timeout anyway; the workers wait on [qcv_]. *)
Definition destructorStep f : option FThreads :=
  match destructor f with
  | NotCalled => Some (set_destructor FlagSet (set_pool (cv_stop (pool f)) f))
  | FlagSet => Some (set_destructor Notified f)
  | Notified => match scheduler f with SchedulerReturned => Some (set_destructor SchedulerJoined f) | _ => None end
  | SchedulerJoined => if allGone (pool f) then Some (set_destructor Destroyed f) else None
  | Destroyed => None
  end.

(** ** Runs *)
Inductive FEvent : Type :=
| FSchedule (fireAt : Z) (copies : nat) (fn : Job)
| FScheduler (now : Z) (w : nat)
| FTest (w : nat)
| FFinish (w : nat)
| FSpurious (w : nat)
| FDestroy.

Definition fexec (ev : FEvent) f : option FThreads :=
  match ev with
  | FSchedule t k fn => Some (schedule t k fn f)
  | FScheduler now w => schedulerStep now w f
  | FTest w => p ← cv_test w (pool f); Some (set_pool p f)
  | FFinish w => p ← cv_finish w (pool f); Some (set_pool p f)
  | FSpurious w => p ← cexec (CSpurious w) (pool f); Some (set_pool p f)
  | FDestroy => destructorStep f
  end.

Fixpoint frun (evs : list FEvent) f : option FThreads :=
  match evs with
  | [] => Some f
  | ev :: evs' => f' ← fexec ev f; frun evs' f'
  end.

(** ** While the network runs *)

(** A worker that sleeps although there is more in the queue than awake workers is
    about to be notified. *)
Definition attended f : Prop :=
  0 < count isAsleep (cv_workers (pool f)) ->
  length (cv_queue (pool f)) <= count isReady (cv_workers (pool f)) + match scheduler f with Notifying => 1 | _ => 0 end.

Lemma cv_test_counts w (p p' : CPool Job) : cv_test w p = Some p' -> 0 < count isAsleep (cv_workers p') ->
  length (cv_queue p') = 0 \/
  (0 < count isAsleep (cv_workers p) /\ S (length (cv_queue p')) = length (cv_queue p) /\
     S (count isReady (cv_workers p')) = count isReady (cv_workers p)).
Proof.
  unfold cv_test; destruct (cv_workers p !! w) as [[| | |]|] eqn:Hw; try done; destruct (cv_queue p) as [|job rest] eqn:Hq; intros [= <-].
  - simpl; rewrite Hq; by left.
  - pose proof (count_insert isAsleep _ _ _ (Busy job) Hw); pose proof (count_insert isReady _ _ _ (Busy job) Hw); simpl in *.
    intros Ha; right; split_and!; [lia|done|lia].
Qed.

Lemma ready_counts w (p : CPool Job) x : cv_workers p !! w = Some x -> isReady x = false ->
  count isReady (<[w := Ready]> (cv_workers p)) = S (count isReady (cv_workers p)) /\
  count isAsleep (<[w := Ready]> (cv_workers p)) <= count isAsleep (cv_workers p).
Proof.
  intros Hw Hx; pose proof (count_insert isAsleep _ _ _ Ready Hw); pose proof (count_insert isReady _ _ _ Ready Hw).
  rewrite Hx in *; destruct (isAsleep x); simpl in *; lia.
Qed.

Lemma fexec_attended ev f f' : fexec ev f = Some f' -> attended f -> attended f'.
Proof.
  unfold attended; intros Hx Ha; destruct ev as [t k fn|now w|w|w|w|]; simpl in Hx.
  - by injection Hx as <-.
  - unfold schedulerStep in Hx; destruct (scheduler f) eqn:Hs.
    + destruct (cv_stopping (pool f)); [injection Hx as <-; simpl; lia|]; destruct (timers f) as [|[t fn] rest]; injection Hx as <-;
        [rewrite Hs; exact Ha|]; simpl; destruct (t <=? now)%Z; lia.
    + destruct (timers f) as [|[t fn] rest]; [injection Hx as <-; simpl; lia|]; destruct (t <=? now)%Z; injection Hx as <-; simpl; lia.
    + injection Hx as <-; simpl; rewrite length_app; simpl; lia.
    + apply bind_Some_inv in Hx as (p & Hn & [= <-]); simpl; unfold notify_one in Hn.
      destruct (existsb isAsleep _) eqn:E; [|injection Hn as <-; apply count_zero in E; lia].
      destruct (cv_workers (pool f) !! w) as [[| | |]|] eqn:Hw; try done; injection Hn as <-; simpl.
      pose proof (count_lookup isAsleep _ _ _ Hw eq_refl); destruct (ready_counts _ _ _ Hw eq_refl); lia.
    + done.
  - apply bind_Some_inv in Hx as (p & Ht & [= <-]); simpl; intros H0; destruct (cv_test_counts _ _ _ Ht H0) as [E|(? & ? & ?)]; [lia|].
    specialize (Ha ltac:(lia)); destruct (scheduler f); lia.
  - apply bind_Some_inv in Hx as (p & Ht & [= <-]); simpl; unfold cv_finish in Ht.
    destruct (cv_workers (pool f) !! w) as [[| |job|]|] eqn:Hw; try done; injection Ht as <-; simpl.
    destruct (ready_counts _ _ _ Hw eq_refl); intros ?; specialize (Ha ltac:(lia)); lia.
  - apply bind_Some_inv in Hx as (p & Ht & [= <-]); simpl in Ht.
    destruct (cv_workers (pool f) !! w) as [[| |job|]|] eqn:Hw; try done; injection Ht as <-; simpl.
    destruct (ready_counts _ _ _ Hw eq_refl); intros ?; specialize (Ha ltac:(lia)); lia.
  - unfold destructorStep in Hx; destruct (destructor f);
      [|injection Hx as <-; exact Ha|destruct (scheduler f) eqn:E; try done|destruct (allGone _); [|done]|done]; injection Hx as <-; [exact Ha| |exact Ha].
    simpl; rewrite E; exact Ha.
Qed.

Lemma frun_attended evs f f' : frun evs f = Some f' -> attended f -> attended f'.
Proof.
  revert f; induction evs as [|ev evs IH]; intros f; simpl; [by intros [= <-]|].
  intros (f1 & Hx & Hr)%bind_Some_inv Ha; eapply IH; [done|by eapply fexec_attended].
Qed.

(** The network keeps moving: a job in the queue finds an awake worker, or one is
    about to be notified, or none sleeps. *)
Lemma faulty_queue_attended k evs f : frun evs (newNetwork k) = Some f -> cv_queue (pool f) <> [] ->
  (exists w, cv_workers (pool f) !! w = Some Ready) \/ scheduler f = Notifying \/ forall w, cv_workers (pool f) !! w <> Some Asleep.
Proof.
  intros Hr Hq; pose proof (frun_attended _ _ _ Hr) as Ha; unfold attended in Ha.
  assert (attended (newNetwork k)) as H0 by (unfold attended; simpl; lia); specialize (Ha H0).
  destruct (decide (count isAsleep (cv_workers (pool f)) = 0)) as [E|E].
  { right; right; intros w Hw; pose proof (count_lookup isAsleep _ _ _ Hw eq_refl); lia. }
  destruct (decide (count isReady (cv_workers (pool f)) = 0)) as [E'|E'].
  - right; left; destruct (cv_queue (pool f)); [done|]; simpl in Ha; destruct (scheduler f); try lia; done.
  - left; destruct (existsb isReady (cv_workers (pool f))) eqn:Ex; [|by apply count_zero in Ex].
    apply existsb_exists in Ex as (x & [w Hw]%list_elem_of_In%list_elem_of_lookup & Hx); destruct x; try done; by exists w.
Qed.

(** ** The destructor *)

(** The scheduler has returned, and worker [w] sleeps. *)
Definition forgotten (w : nat) f : Prop := scheduler f = SchedulerReturned /\ cv_workers (pool f) !! w = Some Asleep.

Definition isSpurious (ev : FEvent) : bool := match ev with FSpurious _ => true | _ => false end.

Lemma asleep_not_gone w (p : CPool Job) : cv_workers p !! w = Some Asleep -> allGone p = false.
Proof.
  intros Hw; unfold allGone, joined; simpl; apply not_true_is_false; intros Hj; rewrite forallb_forall in Hj.
  specialize (Hj Waiting); simpl in Hj; discriminate Hj; apply list_elem_of_In, (list_elem_of_lookup_2 _ w); by rewrite list_lookup_fmap, Hw.
Qed.

Lemma forgotten_step w ev f f' : forgotten w f -> isSpurious ev = false -> fexec ev f = Some f' -> forgotten w f' /\
  (destructor f <> Destroyed -> destructor f' <> Destroyed).
Proof.
  intros [Hs Hw] Hsp Hx; unfold forgotten; destruct ev as [t k fn|now v|v|v|v|]; simpl in Hx; [by injection Hx as <-| | | |done|].
  - unfold schedulerStep in Hx; by rewrite Hs in Hx.
  - apply bind_Some_inv in Hx as (p & Ht & [= <-]); simpl; unfold cv_test in Ht; destruct (decide (v = w)) as [->|Hne]; [by rewrite Hw in Ht|].
    destruct (cv_workers (pool f) !! v) as [[| | |]|]; try done; destruct (cv_queue (pool f)); injection Ht as <-; simpl;
      by rewrite list_lookup_insert_ne.
  - apply bind_Some_inv in Hx as (p & Ht & [= <-]); simpl; unfold cv_finish in Ht; destruct (decide (v = w)) as [->|Hne]; [by rewrite Hw in Ht|].
    destruct (cv_workers (pool f) !! v) as [[| | |]|]; try done; injection Ht as <-; simpl; by rewrite list_lookup_insert_ne.
  - unfold destructorStep in Hx; rewrite Hs, (asleep_not_gone _ _ Hw) in Hx; destruct (destructor f); try done; by injection Hx as <-.
Qed.

(** The destructor of the test network does not return when a worker is idle.  It
    notifies [cv2_], on which the scheduler waits, but not [qcv_], on which the
    workers do: once the scheduler thread has returned, a worker that sleeps goes on
    sleeping whatever the other threads do, so the join never returns, unless the
    worker wakes up without a notification. *)
Theorem network_destructor_hangs (w : nat) (f f' : FThreads) (evs : list FEvent)
    (Hf : forgotten w f) (Hd : destructor f <> Destroyed) (Hs : existsb isSpurious evs = false) (Hr : frun evs f = Some f') :
  cv_workers (pool f') !! w = Some Asleep /\ destructor f' <> Destroyed.
Proof.
  revert f Hf Hd Hr; induction evs as [|ev evs IH]; intros f Hf Hd Hr; simpl in Hr; [injection Hr as <-; by destruct Hf|].
  simpl in Hs; apply orb_false_elim in Hs as [Hev Hs]; apply bind_Some_inv in Hr as (f1 & Hx & Hr).
  destruct (forgotten_step _ _ _ _ Hf Hev Hx) as [Hf1 Hd1]; apply (IH Hs f1); auto.
Qed.

(** An idle network with one worker is destroyed. *)
Definition idle_then_destroyed : list FEvent := [FTest 0; FDestroy; FDestroy; FScheduler 0 0; FDestroy].

Lemma network_destructor_hangs_witness :
  exists f, frun idle_then_destroyed (newNetwork 1) = Some f /\ destructor f = SchedulerJoined /\
    forall evs f', existsb isSpurious evs = false -> frun evs f = Some f' -> destructor f' <> Destroyed.
Proof.
  eexists; split; [vm_compute; reflexivity|]; split; [reflexivity|]; intros evs f' Hs Hr.
  refine (proj2 (network_destructor_hangs 0 _ f' evs _ _ Hs Hr)); [split; reflexivity|discriminate].
Defined.
