(* ===== verification/ShardManager.v ===== *)
(** * shard/shard_manager.h: Raft groups behind a hash ring

    A [ShardGroup] is a Raft node whose state machine is the group's [KvStore]
    (the same object as [ShardGroup::sm]).  A method that waits for a command to
    be applied gives the other threads time: [env k] is what they do to the groups
    during the [k]-th wait of a call. *)
From stdpp Require Import base tactics list gmap numbers strings sorting.
From Stdlib Require Import Ascii NArith Lia.
From S2P Require Import Prelude.
From S2P Require Import Buffer.
From S2P Require Import Types.
From S2P Require Import PersistentLog.
From S2P Require Import StateMachine.
From S2P Require Import KvStore.
From S2P Require Import RaftNode.
From S2P Require Import RaftNodeFacts.
From S2P Require Import RaftCommit.
From S2P Require Import HashRing.

Local Open Scope N_scope.

Record ShardManager := mkShardManager {
  ring_of : HashRing;
  groups : gmap N (RaftNode KvStore)
}.

Definition ShardManager_init (vnodes : nat) : ShardManager := mkShardManager (HashRing_init vnodes) ∅.

Definition ShardManager_addShard (shardId : N) (g : RaftNode KvStore) (m : ShardManager) : ShardManager :=
  mkShardManager (addShard shardId (ring_of m)) (<[shardId := g]> (groups m)).

Definition ShardManager_shardFor (key : bytes) (m : ShardManager) : N := shardFor key (ring_of m).

Definition group (shardId : N) (m : ShardManager) : option (RaftNode KvStore) := groups m !! shardId.

Definition set_group (shardId : N) (g : RaftNode KvStore) (m : ShardManager) : ShardManager :=
  mkShardManager (ring_of m) (<[shardId := g]> (groups m)).

Definition isLeader {S} (n : RaftNode S) : bool := bool_decide (role_ n = Leader).

Definition shardIds (m : ShardManager) : list N := HashRing_shards (ring_of m).

(** [propose] on the group [shardId]. *)
Definition group_propose (shardId : N) (cmd : KvCommand) (m : ShardManager) :
    outcome (ShardManager * ProposeResult) :=
  match group shardId m with
  | None => Throw "no such group"
  | Some g => '(g, pr) ← propose (KvCommand_encode cmd) Command g; mret (set_group shardId g m, pr)
  end.

(** [waitApplied] on the group, at the end of the wait. *)
Definition group_waitApplied (shardId : N) (index : LogIndex) (m : ShardManager) : bool :=
  match group shardId m with None => false | Some g => (waitApplied index g).1 end.

Section migrate.
Context (env : nat -> ShardManager -> ShardManager).

(** One round of the loop of [migrateRange]: the number of waits so far, the
    groups and the count of moved keys. *)
Definition migrateKey (fromId toId : N) (key : bytes) (st : nat * ShardManager * N) :
    outcome (nat * ShardManager * N) :=
  let '(t, m, moved) := st in
  if negb (ShardManager_shardFor key m =? toId) then mret (t, m, moved)
  else
    match group fromId m with
    | None => mret (t, m, moved)
    | Some from =>
        match KvStore_get key (sm_ from) with
        | None => mret (t, m, moved)
        | Some val =>
            '(m, pr) ← group_propose toId (mkKvCommand Put key val [] 0 0) m;
            if negb (pr_isLeader pr) then mret (t, m, moved)
            else
              let m := env t m in
              if negb (group_waitApplied toId (pr_index pr) m) then mret (S t, m, moved)
              else
                '(m, dr) ← group_propose fromId (mkKvCommand Del key [] [] 0 0) m;
                if pr_isLeader dr then mret (S (S t), env (S t) m, moved + 1)
                else mret (S t, m, moved + 1)
        end
    end.

Fixpoint migrateKeys (fromId toId : N) (keys : list bytes) (st : nat * ShardManager * N) :
    outcome (nat * ShardManager * N) :=
  match keys with
  | [] => mret st
  | key :: keys' => st ← migrateKey fromId toId key st; migrateKeys fromId toId keys' st
  end.

Definition migrateRange (fromId toId : N) (keysOwnedByFrom : list bytes) (m : ShardManager) :
    outcome (ShardManager * N) :=
  match group fromId m, group toId m with
  | Some from, Some _ =>
      if isLeader from then
        '(_, m, moved) ← migrateKeys fromId toId keysOwnedByFrom (0%nat, m, 0); mret (m, moved)
      else mret (m, 0)
  | _, _ => mret (m, 0)
  end.

End migrate.

(** ** A group of one node

    A leader that is the only voter and has applied its whole log: a proposal is
    committed and applied before [propose] returns. *)
Record solo {S} (n : RaftNode S) : Prop := {
  so_role : role_ n = Leader;
  so_voters : voters (config_ n) = [id (opts_ n)];
  so_match : forall v, v <> id (opts_ n) -> matchIndex_ n !! v = None;
  so_wf : pl_wf (log_ n);
  so_commit : commitIndex_ n = lastIndex (log_ n);
  so_applied : lastApplied_ n = lastIndex (log_ n)
}.

Section solo.
Context {S : Type} `{StateMachine S}.
Implicit Types n : RaftNode S.

Lemma solo_candidate n :
  voters (config_ n) = [id (opts_ n)] -> (forall v, v <> id (opts_ n) -> matchIndex_ n !! v = None) ->
  commitCandidate n = Some (lastIndex (log_ n)).
Proof.
  intros Hv Hm; unfold commitCandidate; rewrite Hv, filter_none; [done|].
  intros [v m] Hin; apply elem_of_map_to_list in Hin; simpl; intros Hne; by rewrite Hm in Hin.
Qed.

(** A proposal of a group of one node is committed, applied and answered at once. *)
Lemma solo_propose b n s res :
  solo n -> lastIndex (log_ n) + 2 < U64 -> sm_apply b (lastIndex (log_ n) + 1) (sm_ n) = Ok (s, res) ->
  exists n', propose b Command n =
      Ok (n', mkProposeResult true (id (opts_ n)) (lastIndex (log_ n) + 1) (currentTerm_ (log_ n))) /\
    solo n' /\ sm_ n' = s /\ lastIndex (log_ n') = lastIndex (log_ n) + 1 /\
    pendingResults_ n' !! (lastIndex (log_ n) + 1) = Some res /\ opts_ n' = opts_ n /\ leaderId_ n' = leaderId_ n.
Proof.
  intros [Hr Hv Hm Hwf Hc Ha] Hb Hs; unfold propose; rewrite decide_True by done.
  rewrite add64_small by lia; set (e := mkLogEntry _ _ _ _).
  destruct (append_next e (log_ n) Hwf Hb eq_refl) as (Hwf' & Hes & Hsi & Hli & Hct & Hat).
  set (l' := appendAndSync [e] (log_ n)) in *; clearbody l'.
  set (n1 := set_log l' n); unfold tryAdvanceCommitIndex; rewrite decide_True by done.
  rewrite (solo_candidate n1) by done; change (log_ n1) with l'; rewrite Hli.
  change (commitIndex_ n1) with (commitIndex_ n); rewrite Hc, (proj2 (N.ltb_lt _ _)) by lia.
  pose proof (lastIndex_wf _ Hwf) as Hli0.
  rewrite termAt_at, Hat, Hct by lia; cbn [e_term e]; rewrite N.eqb_refl; cbn [andb].
  set (n2 := set_commitIndex (lastIndex (log_ n) + 1) n1).
  assert (applyTarget n2 = lastIndex (log_ n) + 1) as Ht.
  { unfold applyTarget; change (log_ n2) with l'; change (lastApplied_ n2) with (lastApplied_ n);
      change (commitIndex_ n2) with (lastIndex (log_ n) + 1); lia. }
  assert (committedEntries n2 = [e]) as Hce.
  { unfold committedEntries; rewrite Ht; change (log_ n2) with l'; change (lastApplied_ n2) with (lastApplied_ n).
    rewrite Ha, Hes, Hsi, drop_app_ge by (unfold nlen in *; lia).
    replace (_ - length _)%nat with 0%nat by (unfold nlen in *; lia).
    by replace (N.to_nat (lastIndex (log_ n) + 1 - lastIndex (log_ n))) with 1%nat by lia. }
  rewrite applyCommittedEntries_eq; [|done|change (lastApplied_ n2) with (lastApplied_ n); change (log_ n2) with l'; lia|
    change (commitIndex_ n2) with (lastIndex (log_ n) + 1); lia].
  rewrite Hce, Ht; cbn [applyAll]; unfold applyEntry; cbn [e_type e e_data e_index].
  change (sm_ (set_lastApplied _ n2)) with (sm_ n); rewrite Hs.
  eexists; split; [reflexivity|]; cbn -[lookup insert filter]; split_and!; try done.
  by rewrite lookup_insert_eq.
Qed.

End solo.

(** ** Migration between two groups of one node each *)
Lemma group_propose_solo shardId cmd m g :
  group shardId m = Some g -> solo g -> lastIndex (log_ g) + 2 < U64 -> KvCommand_valid cmd ->
  exists g', group_propose shardId cmd m =
      Ok (set_group shardId g' m,
          mkProposeResult true (id (opts_ g)) (lastIndex (log_ g) + 1) (currentTerm_ (log_ g))) /\
    solo g' /\ sm_ g' = (KvStore_apply_cmd cmd (sm_ g)).1 /\ lastIndex (log_ g') = lastIndex (log_ g) + 1 /\
    waitApplied (lastIndex (log_ g) + 1) g' = (true, Some (KvStore_apply_cmd cmd (sm_ g)).2).
Proof.
  intros Hg Hs Hb Hv; unfold group_propose; rewrite Hg.
  assert (sm_apply (KvCommand_encode cmd) (lastIndex (log_ g) + 1) (sm_ g)
          = Ok ((KvStore_apply_cmd cmd (sm_ g)).1, (KvStore_apply_cmd cmd (sm_ g)).2)) as Ha.
  { simpl; unfold KvStore_apply; rewrite KvCommand_decode_encode by done; simpl.
    by destruct (KvStore_apply_cmd cmd (sm_ g)). }
  destruct (solo_propose _ _ _ _ Hs Hb Ha) as (g' & -> & Hs' & Hsm & Hl & Hp & _).
  exists g'; split_and!; try done; unfold waitApplied.
  rewrite (so_applied _ Hs'), Hl, (proj2 (N.leb_le _ _)) by lia; by rewrite Hp.
Qed.

Lemma group_set_eq i g m : group i (set_group i g m) = Some g.
Proof. apply lookup_insert_eq. Qed.

Lemma group_set_ne i j g m : i <> j -> group j (set_group i g m) = group j m.
Proof. intros; by apply lookup_insert_ne. Qed.

(** Strings the command format can carry. *)
Definition strings_ok (s : KvStore) : Prop := map_Forall (fun k v => nlen k < U32 /\ nlen v < U32) (data_map s).

(** No other thread interferes. *)
Definition idle (_ : nat) (m : ShardManager) : ShardManager := m.

(** The two groups of a migration. *)
Record pair_ok (fromId toId : N) (m : ShardManager) (from to : RaftNode KvStore) (room : N) : Prop := {
  po_ne : fromId <> toId;
  po_from : group fromId m = Some from;
  po_to : group toId m = Some to;
  po_solo_from : solo from;
  po_solo_to : solo to;
  po_room_from : lastIndex (log_ from) + room + 2 < U64;
  po_room_to : lastIndex (log_ to) + room + 2 < U64;
  po_strings : strings_ok (sm_ from)
}.

Definition moves (toId : N) (key : bytes) (m : ShardManager) (from : RaftNode KvStore) : Prop :=
  ShardManager_shardFor key m = toId /\ is_Some (KvStore_get key (sm_ from)).

#[global] Instance moves_dec toId key m from : Decision (moves toId key m from).
Proof. unfold moves; apply _. Defined.

Lemma migrateKey_solo fromId toId key t m moved from to room :
  pair_ok fromId toId m from to (room + 1) ->
  exists t' m' from' to',
    migrateKey idle fromId toId key (t, m, moved) =
      Ok (t', m', if decide (moves toId key m from) then moved + 1 else moved) /\
    pair_ok fromId toId m' from' to' room /\ ring_of m' = ring_of m /\
    data_map (sm_ from') = (if decide (moves toId key m from) then delete key (data_map (sm_ from)) else data_map (sm_ from)) /\
    data_map (sm_ to') = (if decide (moves toId key m from)
      then partial_alter (fun _ => KvStore_get key (sm_ from)) key (data_map (sm_ to)) else data_map (sm_ to)).
Proof.
  intros [Hne Hf Ht Hsf Hst Hrf Hrt Hstr]; unfold migrateKey.
  destruct (N.eqb_spec (ShardManager_shardFor key m) toId) as [Hsh|Hsh]; cbn [negb].
  2: { do 4 eexists; rewrite !decide_False by (by intros []); split; [done|]; split; [split; eauto; lia|done]. }
  rewrite Hf; destruct (KvStore_get key (sm_ from)) as [val|] eqn:Hval.
  2: { do 4 eexists; rewrite !decide_False by (intros [_ []]; congruence); split; [done|]; split; [split; eauto; lia|done]. }
  rewrite !decide_True by (by split; eauto); destruct (Hstr _ _ Hval) as [Hk Hv].
  destruct (group_propose_solo toId (mkKvCommand Put key val [] 0 0) m to Ht Hst) as (to' & -> & Hst' & Hsm & Hl & Hw);
    [lia|by split_and!|].
  cbn [mbind outcome_bind pr_isLeader pr_index negb]; unfold idle, group_waitApplied.
  rewrite group_set_eq, Hw; cbn [fst negb].
  destruct (group_propose_solo fromId (mkKvCommand Del key [] [] 0 0) (set_group toId to' m) from)
    as (from' & -> & Hsf' & Hsm' & Hl' & _); [by rewrite group_set_ne|done|lia|by split_and!|].
  do 4 eexists; split; [reflexivity|]; split_and!.
  - split; [done|by apply group_set_eq|rewrite group_set_ne by done; by apply group_set_eq|done|done|lia|lia|].
    rewrite Hsm'; intros k v Hkv; apply (Hstr k v); cbn in Hkv; by apply lookup_delete_Some in Hkv as [].
  - done.
  - by rewrite Hsm'.
  - by rewrite Hsm.
Qed.

Lemma migrateKeys_solo fromId toId keys t m moved from to :
  pair_ok fromId toId m from to (nlen keys) ->
  exists t' m' moved' from' to',
    migrateKeys idle fromId toId keys (t, m, moved) = Ok (t', m', moved') /\
    pair_ok fromId toId m' from' to' 0 /\
    forall k,
      KvStore_get k (sm_ from') = (if decide (k ∈ keys /\ moves toId k m from) then None else KvStore_get k (sm_ from)) /\
      KvStore_get k (sm_ to') = (if decide (k ∈ keys /\ moves toId k m from) then KvStore_get k (sm_ from)
                                 else KvStore_get k (sm_ to)).
Proof.
  revert t m moved from to; induction keys as [|key keys IH]; intros t m moved from to Hp.
  { do 5 eexists; split; [reflexivity|]; split; [exact Hp|]; intros k.
    rewrite !decide_False by (intros [Hk _]; by apply elem_of_nil in Hk); done. }
  rewrite nlen_cons, N.add_comm in Hp.
  destruct (migrateKey_solo _ _ key t _ moved _ _ _ Hp) as (t1 & m1 & from1 & to1 & E1 & Hp1 & Hring & Hdf & Hdt).
  cbn [migrateKeys]; rewrite E1; cbn [mbind outcome_bind].
  destruct (IH t1 m1 (if decide (moves toId key m from) then moved + 1 else moved) from1 to1 Hp1)
    as (t2 & m2 & moved2 & from2 & to2 & E2 & Hp2 & Hk2).
  exists t2, m2, moved2, from2, to2; split; [done|]; split; [done|]; intros k.
  destruct (Hk2 k) as [-> ->].
  assert (ShardManager_shardFor k m1 = ShardManager_shardFor k m) as Hsh
    by (unfold ShardManager_shardFor; by rewrite Hring).
  destruct (decide (moves toId key m from)) as [Hmv|Hmn].
  - assert (KvStore_get k (sm_ from1) = if decide (k = key) then None else KvStore_get k (sm_ from)) as Hgf.
    { unfold KvStore_get; rewrite Hdf, lookup_delete; by repeat case_decide; subst. }
    assert (KvStore_get k (sm_ to1) = if decide (k = key) then KvStore_get key (sm_ from) else KvStore_get k (sm_ to)) as Hgt.
    { unfold KvStore_get at 1; rewrite Hdt; case_decide as E; [subst|];
        [apply lookup_partial_alter_eq|by apply lookup_partial_alter_ne]. }
    rewrite Hgf, Hgt; destruct (decide (k = key)) as [->|Hne].
    + rewrite !(decide_False (P := _ /\ moves toId key m1 from1)) by (intros (_ & _ & []); congruence).
      rewrite !decide_True by (by split; [left|]); done.
    + assert (k ∈ keys /\ moves toId k m1 from1 <-> k ∈ key :: keys /\ moves toId k m from) as Hiff.
      { rewrite elem_of_cons; unfold moves; rewrite Hsh, Hgf; tauto. }
      split; by apply decide_ext.
  - assert (k ∈ keys /\ moves toId k m1 from1 <-> k ∈ key :: keys /\ moves toId k m from) as Hiff.
    { rewrite elem_of_cons; unfold moves, KvStore_get; rewrite Hsh, Hdf; split; [tauto|].
      intros [[->|] ?]; [by destruct Hmn|tauto]. }
    unfold KvStore_get; rewrite Hdf, Hdt; split; by apply decide_ext.
Qed.

(** C34: migration moves keys without losing any.  Between two groups of one node
    each, with no other thread writing, [migrateRange] succeeds; a listed key that
    the ring places on [toId] and that [fromId] holds is afterwards on [toId] with
    its value and no longer on [fromId], and every other key is where it was. *)
Theorem migrateRange_solo (fromId toId : N) (keys : list bytes) (m : ShardManager) (from to : RaftNode KvStore)
    (Hp : pair_ok fromId toId m from to (nlen keys)) :
  exists m' moved from' to',
    migrateRange idle fromId toId keys m = Ok (m', moved) /\
    group fromId m' = Some from' /\ group toId m' = Some to' /\
    forall k,
      KvStore_get k (sm_ from') = (if decide (k ∈ keys /\ moves toId k m from) then None else KvStore_get k (sm_ from)) /\
      KvStore_get k (sm_ to') = (if decide (k ∈ keys /\ moves toId k m from) then KvStore_get k (sm_ from)
                                 else KvStore_get k (sm_ to)).
Proof.
  destruct (migrateKeys_solo _ _ keys 0 m 0 _ _ Hp) as (t' & m' & moved' & from' & to' & E & Hp' & Hk).
  exists m', moved', from', to'; split_and!; [|apply Hp'|apply Hp'|done].
  unfold migrateRange, isLeader; rewrite (po_from _ _ _ _ _ _ Hp), (po_to _ _ _ _ _ _ Hp).
  rewrite bool_decide_eq_true_2 by apply Hp; by rewrite E.
Qed.

(** ** Two groups of one node each *)
Definition solo_node (i : NodeId) (data : list (bytes * bytes)) : RaftNode KvStore :=
  mkRaftNode (sample_opts i) (mkKvStore (list_to_map data) ∅)
    (mkPersistentLog ∅ 1 i 0 0 [mkLogEntry 1 1 NoOp []]) Leader (mkClusterConfig [i] []) i 1 1 0
    {[i := 2]} {[i := 0]} ∅ [] true [] 0 0 ∅.

Lemma solo_node_solo i data : solo (solo_node i data).
Proof.
  split; try done.
  - intros v Hv; cbn [matchIndex_ solo_node]; apply lookup_singleton_ne; intros ->; by apply Hv.
  - split; [|done]; intros [|k] e He; by simplify_eq/=.
Qed.

Definition two_shards : ShardManager :=
  ShardManager_addShard 2 (solo_node 20 []) (ShardManager_addShard 1 (solo_node 10 [(str "a", str "x"); (str "b", str "y")])
    (ShardManager_init 4)).

Lemma migrateRange_solo_witness :
  exists m' moved from' to',
    migrateRange idle 1 2 [str "b"] two_shards = Ok (m', moved) /\
    group 1 m' = Some from' /\ group 2 m' = Some to' /\
    KvStore_get (str "b") (sm_ from') = None /\ KvStore_get (str "b") (sm_ to') = Some (str "y").
Proof.
  destruct (migrateRange_solo 1 2 [str "b"] two_shards (solo_node 10 [(str "a", str "x"); (str "b", str "y")])
    (solo_node 20 [])) as (m' & moved & from' & to' & E & Hf & Ht & Hk).
  - split; [discriminate|reflexivity|reflexivity|apply solo_node_solo|apply solo_node_solo|reflexivity|reflexivity|].
    unfold strings_ok; by_decide.
  - exists m', moved, from', to'; destruct (Hk (str "b")) as [-> ->]; split; [exact E|]; split; [exact Hf|]; split; [exact Ht|].
    split; vm_compute; reflexivity.
Defined.
