(* ===== verification/KvServer.v ===== *)
(** * server/kv_server.h: the client-facing server

    The reassembly of frames from what [recv] delivers, and [dispatch].  A request
    that has to wait is split where the code blocks: [dispatch_begin] runs up to
    the wait, [dispatch_end] runs from the state in which the wait ends; what the
    other threads do in between is the difference of the two states. *)
From stdpp Require Import base tactics list gmap numbers strings sorting.
From Stdlib Require Import Ascii NArith Lia.
From S2P Require Import Prelude.
From S2P Require Import Buffer.
From S2P Require Import Types.
From S2P Require Import PersistentLog.
From S2P Require Import StateMachine.
From S2P Require Import KvStore.
From S2P Require Import RaftNode.
From S2P Require Import RaftNodeFacts.
From S2P Require Import RaftCommit.
From S2P Require Import HashRing.
From S2P Require Import Wire.
From S2P Require Import ShardManager.

Local Open Scope N_scope.

(** ** Reading frames *)

(** What one [recv] returns. *)
Inductive RecvResult : Type := Data (b : bytes) | WouldBlock | Closed | RecvError.

(** The loop around [recv]: the buffer when it ends with [EAGAIN], [None] when the
    connection is closed instead. *)
Fixpoint fillBuffer (rs : list RecvResult) (inbuf : bytes) : option bytes :=
  match rs with
  | Data b :: rs' => fillBuffer rs' (inbuf ++ b)
  | WouldBlock :: _ | [] => Some inbuf
  | Closed :: _ | RecvError :: _ => None
  end.

(** One critical section of the second loop.  [5 + len] is computed in
    [uint32_t]. *)
Definition nextFrame (inbuf : bytes) : option (bytes * bytes) :=
  match inbuf with
  | _ :: b1 :: b2 :: b3 :: b4 :: _ =>
      let len := frameLength b1 b2 b3 b4 in
      if nlen inbuf <? u32 (5 + len) then None
      else Some (take (N.to_nat len) (drop 5 inbuf), drop (N.to_nat (u32 (5 + len))) inbuf)
  | _ => None
  end.

(** The frames the second loop takes out of the buffer, with what remains.  A
    round that makes progress removes a byte, so the length bounds those rounds. *)
Fixpoint drainFrames (fuel : nat) (inbuf : bytes) : list bytes * bytes :=
  match fuel with
  | O => ([], inbuf)
  | S fuel' =>
      match nextFrame inbuf with
      | None => ([], inbuf)
      | Some (f, rest) => let '(fs, rest) := drainFrames fuel' rest in (f :: fs, rest)
      end
  end.

(** ** Requests *)
Inductive Wait : Type :=
| WaitRead (shardId : N) (key : bytes) (target : LogIndex)
| WaitWrite (shardId : N) (index : LogIndex).

Definition response (status : N) (leaderHint value : bytes) : bytes :=
  putBytes value (putBytes leaderHint (putU8 status [])).

Definition addrOf (grp : RaftNode KvStore) : bytes :=
  match list_find (fun p : NodeId * bytes => p.1 = leaderId_ grp) (addresses (config_ grp)) with
  | Some (_, p) => p.2
  | None => []
  end.

(** The operation byte of a write as a [CmdOp]. *)
Definition opOf (op : N) : CmdOp := CmdOp_of_u8 (if op =? 1 then 0 else if op =? 2 then 1 else 2).

Definition readWriteFields : rd (bytes * bytes * N * N) :=
  value ← getBytes; expect ← getBytes; clientId ← getU64; seq ← getU64; mret (value, expect, clientId, seq).

Definition dispatch_begin (frame : bytes) (m : ShardManager) :
    outcome (ShardManager * (bytes + Wait) * list Send) :=
  '(op, r) ← getU8 (Reader_of frame);
  '(key, r) ← getBytes r;
  let shardId := ShardManager_shardFor key m in
  match group shardId m with
  | None => mret (m, inl (response 2 [] []), [])
  | Some grp =>
      if op =? 0 then
        if isLeader grp then
          match readBarrier_begin grp with
          | None => mret (m, inl (response 2 (addrOf grp) []), [])
          | Some (target, sends) => mret (m, inr (WaitRead shardId key target), sends)
          end
        else mret (m, inl (response 2 (addrOf grp) []), [])
      else
        '((value, expect, clientId, seq), _) ← readWriteFields r;
        let cmd := mkKvCommand (opOf op) key value expect clientId seq in
        '(grp, pr) ← propose (KvCommand_encode cmd) Command grp;
        let m := set_group shardId grp m in
        if pr_isLeader pr then mret (m, inr (WaitWrite shardId (pr_index pr)), [])
        else mret (m, inl (response 2 (addrOf grp) []), [])
  end.

Definition dispatch_end (w : Wait) (m : ShardManager) : bytes :=
  match w with
  | WaitRead shardId key target =>
      match group shardId m with
      | None => response 2 [] []
      | Some grp =>
          if readBarrier_end target grp then
            match KvStore_get key (sm_ grp) with
            | Some val => response 0 [] val
            | None => response 1 [] []
            end
          else response 2 (addrOf grp) []
      end
  | WaitWrite shardId index =>
      match group shardId m with
      | None => response 2 [] []
      | Some grp =>
          let '(ok, res) := waitApplied index grp in
          let result := default [] res in
          if negb ok then response 4 [] []
          else if decide (result = str "CAS_MISMATCH") then response 3 [] []
          else response 0 [] result
      end
  end.

(** The whole call; [env] is what the other threads do during the wait. *)
Definition dispatch (env : ShardManager -> ShardManager) (frame : bytes) (m : ShardManager) :
    outcome (ShardManager * bytes) :=
  '(m, r, _) ← dispatch_begin frame m;
  match r with
  | inl resp => mret (m, resp)
  | inr w => let m := env m in mret (m, dispatch_end w m)
  end.

(** ** Reassembly *)

(** A frame that is short enough for the length arithmetic. *)
Definition frame_fits (p : WireType * bytes) : Prop := WireType_valid p.1 /\ nlen p.2 + 5 < U32.

Lemma nextFrame_frame p t :
  frame_fits p -> nextFrame (frame p.1 p.2 ++ t) = Some (p.2, t).
Proof.
  destruct p as [type payload]; intros [Ht Hl]; cbn [fst snd] in *.
  unfold frame; rewrite u32_small by lia; rewrite <- app_assoc; unfold frameHeader, nextFrame; cbn [app].
  rewrite frameLength_header, u32_small by lia.
  rewrite !nlen_cons, nlen_app; case (N.ltb_spec _ _); [lia|intros _]; do 2 f_equal.
  - cbn [drop]; unfold nlen; rewrite Nat2N.id; apply take_app_length.
  - replace (N.to_nat (5 + nlen payload)) with (5 + length payload)%nat by (unfold nlen; lia).
    cbn [drop Nat.add]; apply drop_app_length.
Qed.

(** A proper prefix of a frame is left for later. *)
Lemma nextFrame_partial p q :
  frame_fits p -> q `prefix_of` frame p.1 p.2 -> q <> frame p.1 p.2 -> nextFrame q = None.
Proof.
  destruct p as [type payload]; intros [Ht Hl] Hq Hne; cbn [fst snd] in *.
  unfold frame in Hq, Hne; rewrite u32_small in Hq, Hne by lia.
  apply proper_prefix_app in Hq as [[Hq Hn]|(q' & -> & Hq & Hn)]; [| |done].
  - apply prefix_length in Hq as Hlen; cbn [length frameHeader] in Hlen.
    assert (length q <> 5)%nat as H5.
    { intros E; apply Hn; destruct Hq as [k Hk].
      assert (k = []) as -> by (apply (f_equal length) in Hk; rewrite length_app in Hk; destruct k; simpl in *; [done|lia]).
      by rewrite app_nil_r in Hk. }
    do 5 (destruct q as [|? q]; [done|]); simpl in *; lia.
  - unfold frameHeader, nextFrame; cbn [app]; rewrite frameLength_header, u32_small by lia.
    assert (nlen q' < nlen payload) as Hlt.
    { destruct Hq as [k ->]; rewrite nlen_app; destruct k; [by rewrite app_nil_r in Hn|rewrite nlen_cons; lia]. }
    rewrite !nlen_cons; case (N.ltb_spec _ _); [done|lia].
Qed.

Lemma drain_wire fs t fuel :
  Forall frame_fits fs -> nextFrame t = None -> (length fs < fuel)%nat ->
  drainFrames fuel (wire_bytes fs ++ t) = (fs.*2, t).
Proof.
  intros Hfs; revert fuel; induction Hfs as [|p fs Hp _ IH]; intros fuel Ht Hf; (destruct fuel as [|fuel]; [simpl in Hf; lia|]);
    cbn [drainFrames].
  - change (wire_bytes [] ++ t) with t; by rewrite Ht.
  - change (wire_bytes (p :: fs)) with (frame p.1 p.2 ++ wire_bytes fs); rewrite <- app_assoc, nextFrame_frame by done.
    rewrite IH by (done || simpl in Hf; lia); done.
Qed.

(** The buffer of a connection over several readable events: each event appends a
    chunk and drains. *)
Fixpoint serve_chunks (chunks : list bytes) (inbuf : bytes) : list bytes * bytes :=
  match chunks with
  | [] => ([], inbuf)
  | ch :: chunks' =>
      let '(fs, rest) := drainFrames (S (length (inbuf ++ ch))) (inbuf ++ ch) in
      let '(fs', rest') := serve_chunks chunks' rest in (fs ++ fs', rest')
  end.

Lemma prefix_app_cases {A} `{EqDecision A} (q a b : list A) :
  q `prefix_of` a ++ b -> (q `prefix_of` a /\ q <> a) \/ exists r, q = a ++ r /\ r `prefix_of` b.
Proof.
  intros Hq; destruct (decide (q = a ++ b)) as [->|Hne]; [right; by exists b|].
  apply proper_prefix_app in Hq as [?|(r & -> & ? & _)]; [by left|right; by exists r|done].
Qed.

(** The beginning of a frame, or nothing. *)
Definition partial_frame (t : bytes) : Prop :=
  exists p, frame_fits p /\ t `prefix_of` frame p.1 p.2 /\ t <> frame p.1 p.2.

Lemma partial_frame_nil : partial_frame [].
Proof. exists (WClientRequest, []); split_and!; [done|apply prefix_nil|done]. Qed.

Lemma partial_frame_prefix q t : q `prefix_of` t -> partial_frame t -> partial_frame q.
Proof.
  intros Hq (p & Hp & Ht & Hne); exists p; split_and!; [done|by etransitivity|].
  intros ->; apply Hne, (anti_symm prefix); done.
Qed.

Lemma nextFrame_none t : partial_frame t -> nextFrame t = None.
Proof. intros (p & ? & ? & ?); by eapply nextFrame_partial. Qed.

Lemma wire_split fs t q :
  Forall frame_fits fs -> partial_frame t -> q `prefix_of` wire_bytes fs ++ t ->
  exists fs1 fs2 q', fs = fs1 ++ fs2 /\ q = wire_bytes fs1 ++ q' /\ partial_frame q'.
Proof.
  intros Hfs Ht; revert q; induction Hfs as [|p fs Hp Hfs IH]; intros q Hq.
  - exists [], [], q; split_and!; [done|done|]; by eapply partial_frame_prefix.
  - change (wire_bytes (p :: fs)) with (frame p.1 p.2 ++ wire_bytes fs) in Hq; rewrite <- app_assoc in Hq.
    apply prefix_app_cases in Hq as [[Hq Hne]|(r & -> & Hr)].
    + exists [], (p :: fs), q; split_and!; [done|done|by exists p].
    + destruct (IH r Hr) as (fs1 & fs2 & q' & -> & -> & Hq').
      exists (p :: fs1), fs2, q'; split_and!; [done| |done].
      change (wire_bytes (p :: fs1)) with (frame p.1 p.2 ++ wire_bytes fs1); by rewrite <- app_assoc.
Qed.

Lemma wire_bytes_app fs fs' : wire_bytes (fs ++ fs') = wire_bytes fs ++ wire_bytes fs'.
Proof. unfold wire_bytes; by rewrite fmap_app, concat_app. Qed.

Lemma wire_bytes_length fs : (length fs <= length (wire_bytes fs))%nat.
Proof.
  induction fs as [|p fs IH]; [done|]; change (wire_bytes (p :: fs)) with (frame p.1 p.2 ++ wire_bytes fs).
  rewrite length_app; simpl; lia.
Qed.

Lemma serve_chunks_wire chunks fs t inbuf :
  Forall frame_fits fs -> partial_frame t -> partial_frame inbuf ->
  inbuf ++ concat chunks = wire_bytes fs ++ t -> serve_chunks chunks inbuf = (fs.*2, t).
Proof.
  revert fs inbuf; induction chunks as [|ch chunks IH]; intros fs inbuf Hfs Ht Hin Heq.
  - simpl in Heq; rewrite app_nil_r in Heq; destruct fs as [|p fs]; [by subst|exfalso].
    apply Forall_cons in Hfs as [Hp _].
    change (wire_bytes (p :: fs)) with (frame p.1 p.2 ++ wire_bytes fs) in Heq; rewrite <- app_assoc in Heq.
    apply nextFrame_none in Hin; rewrite Heq, nextFrame_frame in Hin by done; done.
  - simpl in Heq; rewrite app_assoc in Heq.
    destruct (wire_split fs t (inbuf ++ ch)) as (fs1 & fs2 & q & -> & Hq & Hpq); [done|done|by exists (concat chunks)|].
    apply Forall_app in Hfs as [Hf1 Hf2]; cbn [serve_chunks]; rewrite Hq.
    rewrite (drain_wire fs1 q) by (done || (by apply nextFrame_none) || (rewrite length_app; pose proof (wire_bytes_length fs1); lia)).
    rewrite Hq, wire_bytes_app, <- !app_assoc in Heq; apply app_inv_head in Heq.
    rewrite (IH fs2 q Hf2 Ht Hpq Heq); by rewrite fmap_app.
Qed.

(** Reassembly.  However the bytes of a sequence of requests are cut into
    chunks, [handleReadable] hands [dispatch] exactly their payloads, in order,
    and keeps an unfinished frame for the next event. *)
Theorem frames_reassembled (chunks : list bytes) (fs : list (WireType * bytes)) (t : bytes)
    (Hfs : Forall frame_fits fs) (Ht : partial_frame t) (Hc : concat chunks = wire_bytes fs ++ t) :
  serve_chunks chunks [] = (fs.*2, t).
Proof. apply serve_chunks_wire; [done|done|apply partial_frame_nil|done]. Qed.

Lemma frames_reassembled_witness :
  let b := wire_bytes [(WClientRequest, str "ab"); (WClientRequest, str "c")] in
  serve_chunks [take 3 b; take 6 (drop 3 b); drop 9 b ++ take 2 b] [] = ([str "ab"; str "c"], take 2 b).
Proof.
  cbv zeta; apply (frames_reassembled _ [(WClientRequest, str "ab"); (WClientRequest, str "c")]
    (take 2 (wire_bytes [(WClientRequest, str "ab"); (WClientRequest, str "c")]))).
  - repeat constructor.
  - exists (WClientRequest, str "ab"); split; [by split|]; split; [|discriminate].
    exists (drop 2 (frame WClientRequest (str "ab"))); reflexivity.
  - reflexivity.
Defined.

Lemma nextFrame_wraps type t :
  exists f, nextFrame (frameHeader type (U32 - 5) ++ t) = Some (f, frameHeader type (U32 - 5) ++ t).
Proof.
  unfold frameHeader, nextFrame; cbn [app]; rewrite frameLength_header by reflexivity.
  change (u32 (5 + (U32 - 5))) with 0; case (N.ltb_spec _ _); [lia|intros _]; eauto.
Qed.

(** The length arithmetic wraps.  A header that announces [2^32 - 5] bytes
    makes [5 + len] zero, so the request counts as complete and nothing is removed
    from the buffer: the loop of [handleReadable] hands out a frame in every round
    and never ends, whatever the buffer holds after the header. *)
Theorem drain_spins (type : WireType) (t : bytes) (fuel : nat) :
  let inbuf := frameHeader type (U32 - 5) ++ t in
  (drainFrames fuel inbuf).2 = inbuf /\ length (drainFrames fuel inbuf).1 = fuel.
Proof.
  cbv zeta; destruct (nextFrame_wraps type t) as [f Hf]; set (inbuf := frameHeader type (U32 - 5) ++ t) in *.
  clearbody inbuf; induction fuel as [|fuel IH]; [done|]; cbn [drainFrames]; rewrite Hf.
  destruct (drainFrames fuel inbuf) as [fs r]; simpl in *; destruct IH as [-> <-]; done.
Qed.
