(* ===== verification/EventLoop.v ===== *)
(** * net/event_loop.h: readiness of descriptors

    The epoll instance of an [EventLoop] is its interest list.  What the kernel
    reports is an input; [reported] is what the manual of [epoll_wait] promises of
    it.  The branches for kqueue differ in [wait] only; [epollReport] and
    [kqueueReport] are what the manuals say the two report of the same sockets. *)
From stdpp Require Import base tactics list gmap numbers.
From Stdlib Require Import NArith Lia.
From S2P Require Import Prelude.
From S2P Require Import Sockets.

Local Open Scope N_scope.

Definition EPOLLIN : N := 1.
Definition EPOLLERR : N := 8.
Definition EPOLLHUP : N := 16.

Record epoll_event := mkEpollEvent { ev_events : N; ev_fd : Fd }.

(** The registered descriptors, all for [EPOLLIN]. *)
Abbreviation EventLoop := (gset Fd).

Definition newEventLoop : EventLoop := ∅.

(** [EPOLL_CTL_ADD] of a descriptor that is registered and [EPOLL_CTL_DEL] of one
    that is not are errors, which the code ignores. *)
Definition addRead (watchFd : Fd) (l : EventLoop) : EventLoop := {[watchFd]} ∪ l.

Definition remove (watchFd : Fd) (l : EventLoop) : EventLoop := l ∖ {[watchFd]}.

Definition maxEvents : nat := 256.

Definition isHup (events : N) : bool := negb (N.land events (N.lor EPOLLHUP EPOLLERR) =? 0).

(** [r] is the result of [epoll_wait]: [None] for [-1]. *)
Definition wait (r : option (list epoll_event)) : list (Fd * bool) :=
  match r with
  | None => []
  | Some events => (fun e => (ev_fd e, isHup (ev_events e))) <$> events
  end.

(** What [epoll_wait] with room for [maxEvents] reports of the list [l]: registered
    descriptors, each once. *)
Definition reported (l : EventLoop) (r : option (list epoll_event)) : Prop :=
  match r with
  | None => True
  | Some events => (length events <= maxEvents)%nat /\ NoDup (ev_fd <$> events) /\ Forall (fun e => ev_fd e ∈ l) events
  end.

#[global] Instance reported_dec l r : Decision (reported l r).
Proof. destruct r; apply _. Defined.

Lemma wait_reported l r :
  reported l r -> (length (wait r) <= maxEvents)%nat /\ NoDup (wait r).*1 /\ Forall (fun p => p.1 ∈ l) (wait r).
Proof.
  destruct r as [events|]; simpl; [|intros _; split_and!; [lia|constructor|constructor]].
  intros (Hl & Hd & Hf); rewrite length_fmap, <- list_fmap_compose; split_and!; [done|done|].
  by apply Forall_fmap.
Qed.

(** ** kqueue *)
Definition EV_EOF : N := 32768.

Record kevent := mkKevent { kq_flags : N; kq_ident : Fd }.

(** [EV_ADD] of a registered descriptor changes nothing, [EV_DELETE] of another one
    is an error, which the code ignores. *)
Definition addRead_kqueue (watchFd : Fd) (l : EventLoop) : EventLoop := {[watchFd]} ∪ l.

Definition remove_kqueue (watchFd : Fd) (l : EventLoop) : EventLoop := l ∖ {[watchFd]}.

Definition isEof (flags : N) : bool := negb (N.land flags EV_EOF =? 0).

(** [r] is the result of [kevent]: [None] for [-1]. *)
Definition wait_kqueue (r : option (list kevent)) : list (Fd * bool) :=
  match r with
  | None => []
  | Some events => (fun e => (kq_ident e, isEof (kq_flags e))) <$> events
  end.

(** ** What the two report *)

(** A connected socket: bytes to read, the peer has shut down its side, an error
    (a reset for instance) is pending.  The server shuts down no direction itself. *)
Record SockState := mkSockState { ss_data : bool; ss_eof : bool; ss_error : bool }.

Definition isReady (k : SockState) : bool := ss_data k || ss_eof k || ss_error k.

(** epoll(7): [EPOLLIN] when a read would not block, the end of the stream included;
    [EPOLLHUP] only when both directions are shut down, as after an error. *)
Definition epollEvents (k : SockState) : N := if ss_error k then N.lor EPOLLIN (N.lor EPOLLERR EPOLLHUP) else EPOLLIN.

(** kqueue(2): [EV_EOF] as soon as the peer has shut down its side. *)
Definition kqueueFlags (k : SockState) : N := if ss_eof k || ss_error k then EV_EOF else 0.

Definition readyFds (st : Fd -> SockState) (l : list Fd) : list Fd := take maxEvents (List.filter (fun fd => isReady (st fd)) l).

Definition epollReport (st : Fd -> SockState) (l : list Fd) : list epoll_event :=
  (fun fd => mkEpollEvent (epollEvents (st fd)) fd) <$> readyFds st l.

Definition kqueueReport (st : Fd -> SockState) (l : list Fd) : list kevent :=
  (fun fd => mkKevent (kqueueFlags (st fd)) fd) <$> readyFds st l.

Lemma wait_epollReport st l : wait (Some (epollReport st l)) = (fun fd => (fd, ss_error (st fd))) <$> readyFds st l.
Proof.
  simpl; unfold epollReport; rewrite <- list_fmap_compose; apply list_fmap_ext; intros i fd _; simpl.
  unfold epollEvents; by destruct (ss_error (st fd)).
Qed.

Lemma wait_kqueueReport st l :
  wait_kqueue (Some (kqueueReport st l)) = (fun fd => (fd, ss_eof (st fd) || ss_error (st fd))) <$> readyFds st l.
Proof.
  simpl; unfold kqueueReport; rewrite <- list_fmap_compose; apply list_fmap_ext; intros i fd _; simpl.
  unfold kqueueFlags; by destruct (ss_eof (st fd) || ss_error (st fd)).
Qed.

Lemma readyFds_subset st l fd : fd ∈ readyFds st l -> fd ∈ l.
Proof.
  unfold readyFds; intros Hin; apply list_elem_of_In; apply elem_of_take in Hin as (i & Hi & _).
  apply list_elem_of_lookup_2, list_elem_of_In, filter_In in Hi; tauto.
Qed.
