(* ===== verification/KvServerLoop.v ===== *)
(** * server/kv_server.h: connections, event loops and workers

    [acceptLoop] gives every accepted connection a buffer and one of the event
    loops; each worker serves its own loop.  A step is one round of [acceptLoop] or
    of [workerLoop], in any order, except that the last statement of [closeConn],
    which erases the buffer under [stateMu_], is a step of its own: the descriptor
    is closed by then and its number may be in use again.  What the operating system
    returns ([accept], [epoll_wait], [recv], how much [send] takes) is the input of
    the step.  [socks] is the operating system's side of a connection, with what the
    server has received, handed to [dispatch] and answered on it. *)
From stdpp Require Import base tactics list gmap numbers strings relations.
From Stdlib Require Import Ascii NArith Lia.
From S2P Require Import Prelude.
From S2P Require Import Buffer.
From S2P Require Import Wire.
From S2P Require Import HashRing.
From S2P Require Import ShardManager.
From S2P Require Import KvServer.
From S2P Require Import Sockets.
From S2P Require Import EventLoop.

Local Open Scope N_scope.

(** [received] has one element per readable event; [clean] says that every
    [writeFrame] has succeeded. *)
Record Sock := mkSock { received : list bytes; served : list (bytes * bytes); out : Conn; clean : bool }.

(** [closing] has the closed descriptors whose buffers are not erased yet. *)
Record Server := mkServer {
  running_ : bool;
  loops_ : list EventLoop;
  rr : N;
  connState_ : gmap Fd bytes;
  closing : list Fd;
  socks : gmap Fd Sock;
  shards_ : ShardManager
}.
Implicit Types s : Server.

Definition set_loops ls s : Server := mkServer (running_ s) ls (rr s) (connState_ s) (closing s) (socks s) (shards_ s).
Definition set_connState cs s : Server := mkServer (running_ s) (loops_ s) (rr s) cs (closing s) (socks s) (shards_ s).
Definition set_closing cl s : Server := mkServer (running_ s) (loops_ s) (rr s) (connState_ s) cl (socks s) (shards_ s).
Definition set_socks ks s : Server := mkServer (running_ s) (loops_ s) (rr s) (connState_ s) (closing s) ks (shards_ s).
Definition set_shards m s : Server := mkServer (running_ s) (loops_ s) (rr s) (connState_ s) (closing s) (socks s) m.
Definition set_rr r s : Server := mkServer (running_ s) (loops_ s) r (connState_ s) (closing s) (socks s) (shards_ s).

(** [start]: one event loop per worker. *)
Definition startServer (numWorkers : nat) (m : ShardManager) : Server :=
  mkServer true (repeat newEventLoop numWorkers) 0 ∅ [] ∅ m.

Definition stopServer s : Server := mkServer false (loops_ s) (rr s) (connState_ s) (closing s) (socks s) (shards_ s).

(** ** [acceptLoop] *)

(** One round: [None] is a negative result of [accept]; otherwise the descriptor
    and what its sends will take.  [rr] is an [int]: runs stop before it overflows
    ([possible]). *)
Definition acceptRound (r : option (Fd * list N)) s : Server :=
  match r with
  | None => s
  | Some (fd, accepts) =>
      let s := set_socks (<[fd := mkSock [] [] (mkConn [] accepts []) true]> (socks s)) s in
      let s := set_connState (<[fd := []]> (connState_ s)) s in
      let s := set_loops (alter (addRead fd) (N.to_nat (rr s mod nlen (loops_ s))) (loops_ s)) s in
      set_rr (rr s + 1) s
  end.

(** ** [closeConn] *)
Definition removeFrom (w : nat) (fd : Fd) s : Server := set_loops (alter (remove fd) w (loops_ s)) s.
Definition closeFd (fd : Fd) s : Server := set_socks (delete fd (socks s)) s.
Definition eraseState (fd : Fd) s : Server := set_connState (delete fd (connState_ s)) s.

(** Up to [close]; the erasure is to come. *)
Definition closeConn (w : nat) (fd : Fd) s : Server := set_closing (closing s ++ [fd]) (closeFd fd (removeFrom w fd s)).

(** The erasure of the [i]-th descriptor that waits for it. *)
Definition eraseStep (i : nat) s : option Server :=
  fd ← closing s !! i;
  Some (eraseState fd (set_closing (delete i (closing s)) s)).

(** ** [handleReadable] *)
Definition inbufOf (fd : Fd) s : bytes := default [] (connState_ s !! fd).

Definition setInbuf (fd : Fd) (b : bytes) s : Server := set_connState (<[fd := b]> (connState_ s)) s.

Definition noteReceived (b : bytes) (k : Sock) : Sock := mkSock (received k ++ [b]) (served k) (out k) (clean k).

(** [writeFrame]; its result is ignored. *)
Definition writeResponse (frame resp : bytes) (k : Sock) : Sock :=
  let '(ok, c) := writeFrame WClientResponse resp (out k) in
  mkSock (received k) (served k ++ [(frame, resp)]) c (clean k && ok).

(** The second loop.  [env i] is what the other threads do while request [i] of
    this call waits; [None] when the rounds are used up. *)
Fixpoint serveLoop (env : nat -> ShardManager -> ShardManager) (fuel : nat) (fd : Fd) s : option (outcome Server) :=
  match fuel with
  | O => None
  | S fuel' =>
      let s := setInbuf fd (inbufOf fd s) s in
      match nextFrame (inbufOf fd s) with
      | None => Some (Ok s)
      | Some (frame, rest) =>
          let s := setInbuf fd rest s in
          match dispatch (env fuel') frame (shards_ s) with
          | Throw e => Some (Throw e)
          | Ok (m, resp) => serveLoop env fuel' fd (set_socks (alter (writeResponse frame resp) fd (socks s)) (set_shards m s))
          end
      end
  end.

Definition handleReadable (env : nat -> ShardManager -> ShardManager) (w : nat) (fd : Fd) (rs : list RecvResult) s :
    option (outcome Server) :=
  match fillBuffer rs (inbufOf fd s) with
  | None => Some (Ok (closeConn w fd s))
  | Some buf =>
      let chunk := drop (length (inbufOf fd s)) buf in
      let s := set_socks (alter (noteReceived chunk) fd (socks s)) (setInbuf fd buf s) in
      serveLoop env (S (length buf)) fd s
  end.

(** ** [workerLoop] *)
Fixpoint serveReady (env : Fd -> nat -> ShardManager -> ShardManager) (io : Fd -> list RecvResult) (w : nat)
    (ready : list (Fd * bool)) s : option (outcome Server) :=
  match ready with
  | [] => Some (Ok s)
  | (fd, hup) :: ready' =>
      match (if (hup : bool) then Some (Ok (closeConn w fd s)) else handleReadable (env fd) w fd (io fd) s) with
      | Some (Ok s') => serveReady env io w ready' s'
      | r => r
      end
  end.

(** ** Runs *)
Inductive SEvent : Type :=
| SAccept (r : option (Fd * list N))
| SWork (w : nat) (r : option (list epoll_event)) (io : Fd -> list RecvResult) (env : Fd -> nat -> ShardManager -> ShardManager)
| SErase (i : nat)
| SStop.

Definition sexec s (ev : SEvent) : option (outcome Server) :=
  match ev with
  | SAccept r => if running_ s then Some (Ok (acceptRound r s)) else None
  | SWork w r io env => if running_ s then serveReady env io w (wait r) s else None
  | SErase i => s' ← eraseStep i s; Some (Ok s')
  | SStop => Some (Ok (stopServer s))
  end.

(** What the operating system promises: a new descriptor is not in use, a report is
    about the worker's own loop.  [rr] is an [int], which must not overflow. *)
Definition possible s (ev : SEvent) : Prop :=
  match ev with
  | SAccept (Some (fd, _)) => (fd ∉ dom (socks s)) /\ rr s + 1 < 2147483648
  | SWork w r _ _ => match loops_ s !! w with Some l => reported l r | None => False end
  | _ => True
  end.

(** The number of a closed connection is not given to a new one before the buffer
    is erased. *)
Definition apart s (ev : SEvent) : Prop :=
  match ev with SAccept (Some (fd, _)) => fd ∉ closing s | _ => True end.

(** [reuse]: numbers may be given again at once. *)
Inductive server_step (reuse : bool) s s' : Prop :=
| server_event ev : possible s ev -> (reuse = false -> apart s ev) -> sexec s ev = Some (Ok s') -> server_step reuse s s'.

#[global] Instance possible_dec s ev : Decision (possible s ev).
Proof. destruct ev as [[[fd acc]|]|w r io env|i|]; simpl; try apply _; destruct (loops_ s !! w); apply _. Defined.

#[global] Instance apart_dec s ev : Decision (apart s ev).
Proof. destruct ev as [[[fd acc]|]|w r io env|i|]; simpl; apply _. Defined.

Fixpoint srun (reuse : bool) (evs : list SEvent) s : option Server :=
  match evs with
  | [] => Some s
  | ev :: evs' =>
      if decide (possible s ev /\ (reuse = false -> apart s ev))
      then match sexec s ev with Some (Ok s') => srun reuse evs' s' | _ => None end else None
  end.

Lemma srun_steps reuse evs s s' : srun reuse evs s = Some s' -> rtc (server_step reuse) s s'.
Proof.
  revert s; induction evs as [|ev evs IH]; intros s; simpl; [by intros [= <-]|].
  destruct (decide _) as [[Hp Ha]|]; [|done]; destruct (sexec s ev) as [[s1|]|] eqn:E; [|done..]; intros Hs.
  eapply rtc_l; [by econstructor|by apply IH].
Qed.

(** ** The invariant *)

(** The bytes written for a list of answers. *)
Definition answers (ps : list (bytes * bytes)) : bytes := concat ((fun p => frame WClientResponse p.2) <$> ps).

Record conn_ok (buf : bytes) (k : Sock) : Prop := {
  co_served : serve_chunks (received k) [] = ((served k).*1, buf);
  co_sent : clean k = true -> sent (out k) = answers (served k)
}.

Definition watches (ls : list EventLoop) (w : nat) (fd : Fd) : Prop := exists l, ls !! w = Some l /\ fd ∈ l.

(** Every connection is watched by exactly one loop. *)
Record loops_ok s : Prop := {
  lo_watched : forall fd, is_Some (socks s !! fd) <-> exists w, watches (loops_ s) w fd;
  lo_one : forall fd w w', watches (loops_ s) w fd -> watches (loops_ s) w' fd -> w = w';
  lo_loops : loops_ s <> []
}.

(** Every connection has a buffer of its own. *)
Record conns_ok s : Prop := {
  so_conns : forall fd k, socks s !! fd = Some k -> exists buf, connState_ s !! fd = Some buf /\ conn_ok buf k;
  so_buffers : forall fd, is_Some (connState_ s !! fd) <-> is_Some (socks s !! fd) \/ fd ∈ closing s;
  so_closed : forall fd, fd ∈ closing s -> socks s !! fd = None;
  so_once : NoDup (closing s)
}.

Lemma answers_snoc ps frame resp : answers (ps ++ [(frame, resp)]) = answers ps ++ Wire.frame WClientResponse resp.
Proof. unfold answers; rewrite fmap_app, concat_app; simpl; by rewrite app_nil_r. Qed.

Lemma watches_alter f ls w w' fd :
  watches (alter f w ls) w' fd <-> exists l, ls !! w' = Some l /\ fd ∈ (if decide (w = w') then f l else l).
Proof.
  unfold watches; rewrite list_lookup_alter; case_decide; subst; [|done].
  destruct (ls !! w') as [l|]; naive_solver.
Qed.

Lemma watches_add ls i fd w fd' : (i < length ls)%nat ->
  watches (alter (addRead fd) i ls) w fd' <-> watches ls w fd' \/ (w = i /\ fd' = fd).
Proof.
  intros [l Hl]%lookup_lt_is_Some; rewrite watches_alter; unfold watches, addRead; case_decide; subst; set_solver.
Qed.

Lemma watches_remove ls i fd w fd' :
  watches (alter (remove fd) i ls) w fd' <-> watches ls w fd' /\ (w = i -> fd' <> fd).
Proof. rewrite watches_alter; unfold watches, remove; case_decide; subst; set_solver. Qed.

Lemma accept_loop s : loops_ s <> [] -> (N.to_nat (rr s mod nlen (loops_ s)) < length (loops_ s))%nat.
Proof.
  intros Hl; assert (nlen (loops_ s) <> 0) as Hn by (by intros ?%nlen_zero).
  pose proof (N.mod_lt (rr s) _ Hn); unfold nlen in *; lia.
Qed.

Lemma alter_not_nil {A} (f : A -> A) i (l : list A) : l <> [] -> alter f i l <> [].
Proof. intros Hl E; apply Hl; destruct l; [done|]; apply (f_equal length) in E; by rewrite length_alter in E. Qed.

Lemma acceptRound_loops r s : possible s (SAccept r) -> loops_ok s -> loops_ok (acceptRound r s).
Proof.
  destruct r as [[fd acc]|]; [|done]; cbn [possible acceptRound]; intros [Hfd _] [Hw Ho Hl]; pose proof (accept_loop _ Hl) as Hlt.
  assert (forall w, ~ watches (loops_ s) w fd) as Hno by (intros w Hx; apply Hfd, elem_of_dom, Hw; eauto).
  split; cbn [loops_ connState_ socks set_rr set_loops set_connState set_socks rr].
  - intros fd'; setoid_rewrite (watches_add _ _ _ _ _ Hlt); rewrite lookup_insert_is_Some', Hw; naive_solver.
  - intros fd' w w'; rewrite !(watches_add _ _ _ _ _ Hlt); naive_solver.
  - by apply alter_not_nil.
Qed.

Lemma acceptRound_conns r s : possible s (SAccept r) -> apart s (SAccept r) -> conns_ok s -> conns_ok (acceptRound r s).
Proof.
  destruct r as [[fd acc]|]; [|done]; cbn [possible apart acceptRound]; intros [Hfd _] Hap [Hc Hb Hcl Hnd].
  split; cbn [closing connState_ socks set_rr set_loops set_connState set_socks rr]; [| | |done].
  - intros fd' k; rewrite !lookup_insert; case_decide; [|apply Hc]; intros [= <-]; by exists [].
  - intros fd'; rewrite !lookup_insert_is_Some', Hb; naive_solver.
  - intros fd' Hin; rewrite lookup_insert_ne; [by apply Hcl|by intros ->].
Qed.

Lemma closeConn_loops w fd s : watches (loops_ s) w fd -> loops_ok s -> loops_ok (closeConn w fd s).
Proof.
  intros Hfd [Hw Ho Hl]; split; cbn [loops_ connState_ socks closeConn closeFd removeFrom set_closing set_socks set_loops].
  - intros fd'; setoid_rewrite watches_remove; rewrite lookup_delete_is_Some, Hw; naive_solver.
  - intros fd' v v'; rewrite !watches_remove; naive_solver.
  - by apply alter_not_nil.
Qed.

Lemma closeConn_conns w fd s : is_Some (socks s !! fd) -> conns_ok s -> conns_ok (closeConn w fd s).
Proof.
  intros Hfd [Hc Hb Hcl Hnd]; split; cbn [closing loops_ connState_ socks closeConn closeFd removeFrom set_closing set_socks set_loops].
  - intros fd' k; rewrite lookup_delete; case_decide; [done|apply Hc].
  - intros fd'; rewrite lookup_delete_is_Some, Hb, elem_of_app, list_elem_of_singleton; destruct (decide (fd' = fd)); naive_solver.
  - intros fd' [Hin| ->%list_elem_of_singleton]%elem_of_app; rewrite lookup_delete; case_decide; [done|by apply Hcl|done|done].
  - apply NoDup_app; split_and!; [done| |apply NoDup_singleton]; intros x Hx ->%list_elem_of_singleton.
    destruct Hfd as [k Hk]; by rewrite (Hcl _ Hx) in Hk.
Qed.

Lemma eraseStep_conns i s s' : eraseStep i s = Some s' -> conns_ok s -> conns_ok s'.
Proof.
  unfold eraseStep; intros (fd & Hi & [= <-])%bind_Some_inv [Hc Hb Hcl Hnd].
  assert (closing s ≡ₚ fd :: delete i (closing s)) as Hp by (by apply delete_Permutation).
  set (rest := delete i (closing s)) in *; clearbody rest; rewrite Hp in Hnd; apply NoDup_cons in Hnd as [Hni Hnd].
  assert (forall x, x ∈ closing s <-> x = fd \/ x ∈ rest) as Hin by (intros x; by rewrite Hp, elem_of_cons).
  split; cbn [closing connState_ socks eraseState set_closing set_connState]; [| | |done].
  - intros fd' k Hk; rewrite lookup_delete_ne; [by apply Hc|intros <-; rewrite Hcl in Hk; [done|apply Hin; by left]].
  - intros fd'; rewrite lookup_delete_is_Some, Hb, Hin; split; [naive_solver|]; intros [[k Hk]|Hd]; [|naive_solver congruence].
    split; [intros <-; rewrite Hcl in Hk; [done|apply Hin; by left]|by left].
  - intros fd' Hd; apply Hcl, Hin; by right.
Qed.

(** ** [handleReadable] serves the frames of what it has received *)
Lemma serve_chunks_snoc chunks ch b :
  serve_chunks (chunks ++ [ch]) b =
    let '(fs, rest) := serve_chunks chunks b in
    let '(fs', rest') := drainFrames (S (length (rest ++ ch))) (rest ++ ch) in (fs ++ fs', rest').
Proof.
  revert b; induction chunks as [|c chunks IH]; intros b; cbn [serve_chunks app].
  - destruct (drainFrames _ _) as [fs r]; by rewrite app_nil_r.
  - destruct (drainFrames _ (b ++ c)) as [fs r]; rewrite IH; destruct (serve_chunks chunks r) as [fs1 r1].
    destruct (drainFrames _ _) as [fs2 r2]; by rewrite app_assoc.
Qed.

Lemma fillBuffer_app rs b b' : fillBuffer rs b = Some b' -> exists d, b' = b ++ d.
Proof.
  revert b; induction rs as [|[d| | |] rs IH]; intros b; simpl; try done; [intros [= <-]; exists []; by rewrite app_nil_r| |].
  - intros (e & ->)%IH; exists (d ++ e); by rewrite app_assoc.
  - intros [= <-]; exists []; by rewrite app_nil_r.
Qed.

Definition served_more (k k' : Sock) (fs : list bytes) : Prop :=
  received k' = received k /\ exists ps, served k' = served k ++ ps /\ ps.*1 = fs /\
    (clean k' = true -> clean k = true /\ sent (out k') = sent (out k) ++ answers ps).

Lemma writeResponse_more frame resp k : served_more k (writeResponse frame resp k) [frame].
Proof.
  unfold writeResponse; destruct (writeFrame WClientResponse resp (out k)) as [ok c] eqn:E.
  apply writeFrame_spec in E as (_ & p & Hp & _ & Hall); split; [done|]; exists [(frame, resp)]; split_and!; [done|done|].
  cbn [clean out]; intros [-> ->]%andb_prop; split; [done|]; rewrite Hp, Hall by done.
  unfold answers; simpl; by rewrite app_nil_r.
Qed.

Lemma served_more_trans k1 k2 k3 fs gs : served_more k1 k2 fs -> served_more k2 k3 gs -> served_more k1 k3 (fs ++ gs).
Proof.
  intros (R1 & ps & S1 & <- & C1) (R2 & qs & S2 & <- & C2); split; [congruence|].
  exists (ps ++ qs); split_and!; [by rewrite S2, S1, app_assoc|by rewrite fmap_app|].
  intros [H2 E2]%C2; apply C1 in H2 as [H1 E1]; split; [done|].
  unfold answers in *; by rewrite E2, E1, fmap_app, concat_app, app_assoc.
Qed.

Lemma serveLoop_S env fuel fd s :
  serveLoop env (S fuel) fd s =
    match nextFrame (inbufOf fd s) with
    | None => Some (Ok (setInbuf fd (inbufOf fd s) s))
    | Some (f, rest) =>
        match dispatch (env fuel) f (shards_ s) with
        | Throw e => Some (Throw e)
        | Ok (m, resp) => serveLoop env fuel fd (set_socks (alter (writeResponse f resp) fd (socks s)) (set_shards m (setInbuf fd rest s)))
        end
    end.
Proof.
  cbn [serveLoop]; assert (inbufOf fd (setInbuf fd (inbufOf fd s) s) = inbufOf fd s) as ->
    by (unfold inbufOf at 1, setInbuf; simpl; by rewrite lookup_insert_eq).
  destruct (nextFrame _) as [[f rest]|]; [|done].
  assert (setInbuf fd rest (setInbuf fd (inbufOf fd s) s) = setInbuf fd rest s) as ->
    by (unfold setInbuf, set_connState; simpl; by rewrite insert_insert_eq).
  done.
Qed.

Lemma serveLoop_spec env fuel fd s s' buf k :
  serveLoop env fuel fd s = Some (Ok s') -> connState_ s !! fd = Some buf -> socks s !! fd = Some k ->
  exists fs rest k', drainFrames fuel buf = (fs, rest) /\ served_more k k' fs /\ loops_ s' = loops_ s /\ closing s' = closing s /\
    connState_ s' = <[fd := rest]> (connState_ s) /\ socks s' = <[fd := k']> (socks s).
Proof.
  revert s buf k; induction fuel as [|fuel IH]; intros s buf k; [done|]; rewrite serveLoop_S; cbn [drainFrames]; intros Hx Hb Hk.
  assert (inbufOf fd s = buf) as Hbuf by (unfold inbufOf; by rewrite Hb).
  rewrite Hbuf in Hx; destruct (nextFrame buf) as [[f rest]|].
  - destruct (dispatch _ _ _) as [[m resp]|]; [|done].
    eapply (IH _ rest (writeResponse f resp k)) in Hx as (fs & rest' & k' & -> & Hm & Hl & Hcl & Hc & Hs);
      [|by cbn; rewrite lookup_insert_eq|by cbn; rewrite lookup_alter_eq, Hk].
    exists (f :: fs), rest', k'; split_and!; [done|exact (served_more_trans _ _ _ [f] fs (writeResponse_more _ _ _) Hm)|done|done|..].
    + rewrite Hc; cbn; by rewrite insert_insert_eq.
    + rewrite Hs; cbn; apply map_eq; intros j; rewrite !lookup_insert; case_decide; [done|].
      by rewrite lookup_alter_ne.
  - injection Hx as <-; exists [], buf, k; split_and!; [done|split; [done|]|done|done|done|by rewrite insert_id].
    exists []; by rewrite !app_nil_r.
Qed.

(** A readable event that does not close the connection. *)
Lemma handleReadable_effect env w fd rs s s' ch k :
  handleReadable env w fd rs s = Some (Ok s') -> fillBuffer rs (inbufOf fd s) = Some (inbufOf fd s ++ ch) -> socks s !! fd = Some k ->
  exists fs rest k', drainFrames (S (length (inbufOf fd s ++ ch))) (inbufOf fd s ++ ch) = (fs, rest) /\
    served_more (noteReceived ch k) k' fs /\ loops_ s' = loops_ s /\ closing s' = closing s /\
    connState_ s' = <[fd := rest]> (connState_ s) /\ socks s' = <[fd := k']> (socks s).
Proof.
  unfold handleReadable; intros Hx Hf Hk; rewrite Hf, drop_app_length in Hx.
  eapply (serveLoop_spec _ _ _ _ _ (inbufOf fd s ++ ch) (noteReceived ch k)) in Hx as (fs & rest & k' & Hd & Hm & Hl & Hcl & Hc & Hs);
    [|by cbn; rewrite lookup_insert_eq|by cbn; rewrite lookup_alter_eq, Hk].
  exists fs, rest, k'; split_and!; [done|done|done|done|rewrite Hc; cbn; by rewrite insert_insert_eq|rewrite Hs; cbn].
  apply map_eq; intros j; rewrite !lookup_insert; case_decide; [done|by rewrite lookup_alter_ne].
Qed.

(** What a readable event does to the loops. *)
Definition loops_after (w : nat) (fd : Fd) s s' : Prop := loops_ s' = loops_ s \/ loops_ s' = alter (remove fd) w (loops_ s).

Lemma handleReadable_loops env w fd rs s s' :
  watches (loops_ s) w fd -> loops_ok s -> handleReadable env w fd rs s = Some (Ok s') -> loops_ok s' /\ loops_after w fd s s'.
Proof.
  intros Hfd Hok Hx; destruct (fillBuffer rs (inbufOf fd s)) as [buf|] eqn:Hf.
  2: { unfold handleReadable in Hx; rewrite Hf in Hx; injection Hx as <-; split; [by apply closeConn_loops|by right]. }
  destruct (fillBuffer_app _ _ _ Hf) as [ch ->]; pose proof Hok as [Hw Ho Hl]; destruct (proj2 (Hw fd)) as [k Hk]; [eauto|].
  destruct (handleReadable_effect _ _ _ _ _ _ _ _ Hx Hf Hk) as (fs & rest & k' & _ & _ & Hl' & _ & _ & Hs').
  split; [|by left]; split; rewrite ?Hl'; [|done|done].
  intros fd'; rewrite Hs', lookup_insert_is_Some', Hw; naive_solver.
Qed.

Lemma handleReadable_conns env w fd rs s s' :
  is_Some (socks s !! fd) -> conns_ok s -> handleReadable env w fd rs s = Some (Ok s') -> conns_ok s'.
Proof.
  intros Hfd Hok Hx; destruct (fillBuffer rs (inbufOf fd s)) as [buf|] eqn:Hf.
  2: { unfold handleReadable in Hx; rewrite Hf in Hx; injection Hx as <-; by apply closeConn_conns. }
  destruct (fillBuffer_app _ _ _ Hf) as [ch ->]; destruct Hfd as [k Hk]; pose proof Hok as [Hc Hb Hcl Hnd].
  destruct (handleReadable_effect _ _ _ _ _ _ _ _ Hx Hf Hk) as (fs & rest & k' & Hd & (Hr & ps & Hsd & <- & Hsent) & _ & Hcl' & Hc' & Hs').
  destruct (Hc _ _ Hk) as (b & Hbuf & [Hsv Hst]); assert (inbufOf fd s = b) as Hi by (unfold inbufOf; by rewrite Hbuf); rewrite Hi in Hd.
  split; rewrite ?Hcl', ?Hc', ?Hs'; [| | |done].
  - intros fd' q; rewrite !lookup_insert; case_decide; [|apply Hc]; intros [= <-]; exists rest; split; [done|]; split.
    + rewrite Hr; cbn [received noteReceived]; rewrite serve_chunks_snoc, Hsv, Hd, Hsd; cbn; by rewrite fmap_app.
    + intros Hclean; destruct (Hsent Hclean) as [Hck ->]; cbn in *; rewrite Hst, Hsd by done.
      unfold answers; by rewrite fmap_app, concat_app.
  - intros fd'; rewrite !lookup_insert_is_Some', Hb; naive_solver.
  - intros fd' Hin; rewrite lookup_insert_ne; [by apply Hcl|intros <-; by rewrite Hcl in Hk].
Qed.

(** A round of a worker, from its invariant. *)
Lemma serveReady_ind (P : Server -> Prop) env io w ready s s' :
  (forall fd x, watches (loops_ x) w fd -> loops_ok x -> P x -> P (closeConn w fd x)) ->
  (forall fd x x', watches (loops_ x) w fd -> loops_ok x -> P x -> handleReadable (env fd) w fd (io fd) x = Some (Ok x') -> P x') ->
  NoDup ready.*1 -> Forall (fun p => watches (loops_ s) w p.1) ready -> loops_ok s -> P s ->
  serveReady env io w ready s = Some (Ok s') -> loops_ok s' /\ P s'.
Proof.
  intros Hclose Hread; revert s; induction ready as [|[fd hup] ready IH]; intros s; cbn [serveReady]; [by intros _ _ Hok Hp [= <-]|].
  rewrite fmap_cons; cbn [fst]; intros [Hni Hnd]%NoDup_cons [Hw Hf]%Forall_cons Hok Hp Hx; cbn [fst] in Hw.
  assert (forall s1, loops_ok s1 -> P s1 -> loops_after w fd s s1 ->
    serveReady env io w ready s1 = Some (Ok s') -> loops_ok s' /\ P s') as Hgo.
  { intros s1 Hok1 Hp1 Hl; apply IH; [done| |done|done]; rewrite Forall_forall in Hf |- *; intros [fd' h'] Hin.
    specialize (Hf _ Hin); cbn [fst] in *; destruct Hl as [->| ->]; [done|]; apply watches_remove; split; [done|].
    intros _ ->; apply Hni, list_elem_of_fmap; by exists (fd, h'). }
  destruct hup; [eapply Hgo; [by apply (closeConn_loops w)|by apply Hclose|by right|exact Hx]|].
  destruct (handleReadable _ _ _ _ _) as [[s1|]|] eqn:E; [|done..].
  pose proof (Hread _ _ _ Hw Hok Hp E); apply handleReadable_loops in E as [Hok1 Hl]; [by eapply Hgo|done|done].
Qed.

(** The loops of every run, and the buffers of a run in which the numbers of closed
    connections are not reused too early. *)
Lemma server_step_ok reuse s s' :
  server_step reuse s s' -> loops_ok s -> (reuse = false -> conns_ok s) -> loops_ok s' /\ (reuse = false -> conns_ok s').
Proof.
  intros [ev Hp Ha Hx] Hl Hc; destruct ev as [r|w r io env|i|]; cbn [sexec] in Hx.
  - destruct (running_ s); [|done]; injection Hx as <-; split; [by apply acceptRound_loops|]; intros Hr.
    apply acceptRound_conns; [done|by apply Ha|by apply Hc].
  - destruct (running_ s); [|done]; cbn [possible] in Hp; destruct (loops_ s !! w) as [l|] eqn:Hw; [|done].
    apply wait_reported in Hp as (_ & Hnd & Hf); eapply (serveReady_ind (fun x => reuse = false -> conns_ok x)); [| |exact Hnd| |done|done|exact Hx].
    + intros fd x Hwx Hlx Hcx Hr; apply closeConn_conns; [apply (lo_watched _ Hlx); eauto|auto].
    + intros fd x x' Hwx Hlx Hcx Hh Hr; eapply handleReadable_conns; [apply (lo_watched _ Hlx); eauto|auto|exact Hh].
    + eapply Forall_impl; [exact Hf|]; intros p Hin; by exists l.
  - apply bind_Some_inv in Hx as (s1 & He & [= <-]); split; [|intros Hr; apply (eraseStep_conns _ _ _ He); auto].
    unfold eraseStep in He; apply bind_Some_inv in He as (fd & _ & [= <-]); by destruct Hl.
  - injection Hx as <-; split; [by destruct Hl|]; intros Hr; by destruct (Hc Hr).
Qed.

Lemma startServer_ok n m : (0 < n)%nat -> loops_ok (startServer n m) /\ conns_ok (startServer n m).
Proof.
  assert (forall w fd, ~ watches (repeat newEventLoop n) w fd) as Hno.
  { intros w fd (l & Hl & Hin); apply list_elem_of_lookup_2, list_elem_of_In, repeat_spec in Hl; subst l; by apply elem_of_empty in Hin. }
  intros Hn; split; split; cbn.
  - intros fd; rewrite lookup_empty; split; [by intros [? ?]|]; intros [w Hw]; by destruct (Hno w fd).
  - intros fd w w' Hw; by destruct (Hno w fd).
  - destruct n; [lia|done].
  - done.
  - intros fd; rewrite !lookup_empty, elem_of_nil, !is_Some_alt; naive_solver.
  - by intros fd ?%elem_of_nil.
  - constructor.
Qed.

Lemma reachable_ok reuse n m s :
  (0 < n)%nat -> rtc (server_step reuse) (startServer n m) s -> loops_ok s /\ (reuse = false -> conns_ok s).
Proof.
  intros Hn Hr; destruct (startServer_ok n m Hn) as [Hl Hc].
  eapply (rtc_ind_l (fun x => loops_ok x -> (reuse = false -> conns_ok x) -> loops_ok s /\ (reuse = false -> conns_ok s))); [done| |exact Hr|done|done].
  intros x y Hxy _ IH Hx Hcx; destruct (server_step_ok _ _ _ Hxy Hx Hcx); by apply IH.
Qed.

(** ** Termination *)

(** The second loop ends when the buffer holds frames and the beginning of one. *)
Lemma serveLoop_returns env fuel fd s fs t :
  Forall frame_fits fs -> partial_frame t -> inbufOf fd s = wire_bytes fs ++ t -> (length fs < fuel)%nat ->
  is_Some (serveLoop env fuel fd s).
Proof.
  intros Hfs Ht; revert fuel s; induction Hfs as [|p fs Hp _ IH]; intros fuel s Hb Hf;
    (destruct fuel as [|fuel]; [simpl in Hf; lia|]); rewrite serveLoop_S, Hb.
  - change (wire_bytes [] ++ t) with t; by rewrite (nextFrame_none _ Ht).
  - change (wire_bytes (p :: fs)) with (frame p.1 p.2 ++ wire_bytes fs); rewrite <- app_assoc, nextFrame_frame by done.
    destruct (dispatch _ _ _) as [[m resp]|]; [|done]; apply IH; [|simpl in Hf; lia].
    unfold inbufOf; cbn; by rewrite lookup_insert_eq.
Qed.

(** A buffer from which the second loop can find its way out. *)
Inductive drains : bytes -> Prop :=
| drains_end buf : nextFrame buf = None -> drains buf
| drains_step buf f rest : nextFrame buf = Some (f, rest) -> drains rest -> drains buf.

Lemma nextFrame_shorter buf f rest : nextFrame buf = Some (f, rest) -> (length rest < length buf)%nat \/ rest = buf.
Proof.
  unfold nextFrame; destruct buf as [|x0 [|x1 [|x2 [|x3 [|x4 buf]]]]]; try done; destruct (_ <? _); [done|]; intros [= _ <-].
  set (k := N.to_nat _); destruct k as [|k]; [by right|left]; simpl; rewrite length_skipn; simpl; lia.
Qed.

Lemma drains_fixed buf f : nextFrame buf = Some (f, buf) -> ~ drains buf.
Proof. intros Hf Hd; induction Hd as [buf Hn|buf g rest Hn _ IH]; [congruence|]; rewrite Hf in Hn; injection Hn as -> ->; auto. Qed.

Lemma serveLoop_drains env fuel fd s s' : serveLoop env fuel fd s = Some (Ok s') -> drains (inbufOf fd s).
Proof.
  revert s; induction fuel as [|fuel IH]; intros s; [done|]; rewrite serveLoop_S; destruct (nextFrame _) as [[f rest]|] eqn:Hn; [|by left].
  destruct (dispatch _ _ _) as [[m resp]|]; [|done]; intros Hx%IH; eapply drains_step; [exact Hn|].
  unfold inbufOf in Hx; cbn in Hx; by rewrite lookup_insert_eq in Hx.
Qed.

Lemma drains_serveLoop env fuel fd s : drains (inbufOf fd s) -> (length (inbufOf fd s) < fuel)%nat -> serveLoop env fuel fd s <> None.
Proof.
  remember (inbufOf fd s) as buf eqn:Hb; intros Hd; revert fuel s Hb; induction Hd as [buf Hn|buf f rest Hn Hd IH]; intros fuel s Hb Hf;
    (destruct fuel as [|fuel]; [lia|]); rewrite serveLoop_S, <- Hb, Hn; [done|].
  destruct (dispatch _ _ _) as [[m resp]|]; [|done]; apply IH; [unfold inbufOf; cbn; by rewrite lookup_insert_eq|].
  destruct (nextFrame_shorter _ _ _ Hn) as [?| ->]; [lia|by destruct (drains_fixed _ _ Hn)].
Qed.

(** The rounds of [handleReadable] are enough: when they are used up, the loop does
    not end normally in any number of rounds. *)
Lemma serveLoop_endless env fuel fd s : serveLoop env fuel fd s = None -> (length (inbufOf fd s) < fuel)%nat ->
  forall env' fuel' s', serveLoop env' fuel' fd s <> Some (Ok s').
Proof. intros Hx Hf env' fuel' s' Hd%serveLoop_drains; by apply (drains_serveLoop env fuel fd s). Qed.

(** ** Balance *)
Lemma serveLoop_keeps env fuel fd s s' : serveLoop env fuel fd s = Some (Ok s') ->
  running_ s' = running_ s /\ rr s' = rr s /\ loops_ s' = loops_ s.
Proof.
  revert s; induction fuel as [|fuel IH]; intros s; [done|]; rewrite serveLoop_S; destruct (nextFrame _) as [[f rest]|]; [|by intros [= <-]].
  destruct (dispatch _ _ _) as [[m resp]|]; [|done]; intros Hx; by apply IH in Hx.
Qed.

Lemma handleReadable_keeps env w fd rs s s' : handleReadable env w fd rs s = Some (Ok s') ->
  running_ s' = running_ s /\ rr s' = rr s /\ loops_after w fd s s'.
Proof.
  unfold handleReadable, loops_after; destruct (fillBuffer _ _); [|intros [= <-]; split_and!; [done|done|by right]].
  intros (-> & -> & ->)%serveLoop_keeps; split_and!; [done|done|by left].
Qed.

(** What a loop watches, and how many connections a run has given to it. *)
Definition loopAt (i : nat) s : EventLoop := default ∅ (loops_ s !! i).

Fixpoint gained (i : nat) (evs : list SEvent) s : nat :=
  match evs with
  | [] => 0
  | ev :: evs' =>
      match sexec s ev with
      | Some (Ok s') => size (loopAt i s' ∖ loopAt i s) + gained i evs' s'
      | _ => 0
      end
  end.

Definition accepted (ev : SEvent) : bool := match ev with SAccept (Some _) => true | _ => false end.

(** No loop gains anything. *)
Definition shrunk s s' : Prop :=
  rr s' = rr s /\ length (loops_ s') = length (loops_ s) /\ forall i, loopAt i s' ⊆ loopAt i s.

Lemma shrunk_remove w fd s s' : rr s' = rr s -> loops_after w fd s s' -> shrunk s s'.
Proof.
  intros Hr Hl; unfold shrunk, loopAt; destruct Hl as [->| ->]; [split_and!; [done|done|]; intros i; reflexivity|]; rewrite length_alter; split_and!; [done|done|].
  intros i; rewrite list_lookup_alter; case_decide; [subst|done]; unfold remove; destruct (loops_ s !! i) as [l|]; simpl; [apply subseteq_difference_l|]; done.
Qed.

Lemma shrunk_trans s1 s2 s3 : shrunk s1 s2 -> shrunk s2 s3 -> shrunk s1 s3.
Proof. intros (H1 & H2 & H3) (H4 & H5 & H6); split_and!; [congruence|congruence|]; intros i; transitivity (loopAt i s2); [apply H6|apply H3]. Qed.

Lemma serveReady_shrinks env io w ready s s' : serveReady env io w ready s = Some (Ok s') -> shrunk s s'.
Proof.
  revert s; induction ready as [|[fd hup] ready IH]; intros s; cbn [serveReady]; [by intros [= <-]|].
  destruct hup; [intros Hx%IH; eapply shrunk_trans, Hx; apply (shrunk_remove w fd); [done|by right]|].
  destruct (handleReadable _ _ _ _ _) as [[s1|]|] eqn:E; [|done..]; intros Hx%IH; eapply shrunk_trans, Hx.
  apply handleReadable_keeps in E as (_ & Hr & Hl); by eapply shrunk_remove.
Qed.

(** The [m]-th connection goes to loop [m mod n]. *)
Lemma share_step m n i : (i < n)%nat ->
  ((S m + (n - 1 - i)) / n = (m + (n - 1 - i)) / n + (if decide (i = m mod n) then 1 else 0))%nat.
Proof.
  intros Hi; pose proof (Nat.div_mod_eq m n) as Hm; pose proof (Nat.mod_upper_bound m n) as Hr.
  set (q := (m / n)%nat) in *; set (r := (m mod n)%nat) in *.
  assert (forall x y, (x < n)%nat -> ((n * y + x) / n = y)%nat) as Hdiv by (intros x y Hx; symmetry; by apply (Nat.div_unique _ n _ x)).
  destruct (decide (i = r)) as [->|Hne].
  - replace (S m + (n - 1 - r))%nat with (n * (S q) + 0)%nat by lia; replace (m + (n - 1 - r))%nat with (n * q + (n - 1))%nat by lia.
    rewrite !Hdiv by lia; lia.
  - destruct (decide (i < r)%nat).
    + replace (S m + (n - 1 - i))%nat with (n * (S q) + (r - i))%nat by lia; replace (m + (n - 1 - i))%nat with (n * (S q) + (r - i - 1))%nat by lia.
      rewrite !Hdiv by lia; lia.
    + replace (S m + (n - 1 - i))%nat with (n * q + (r + n - i))%nat by lia; replace (m + (n - 1 - i))%nat with (n * q + (r + n - i - 1))%nat by lia.
      rewrite !Hdiv by lia; lia.
Qed.

(** The connections of loop [i] among the first [k]. *)
Definition share (n i k : nat) : nat := (k + (n - 1 - i)) / n.

(** An accepted connection is new to the loop that gets it, and to that one only. *)
Lemma acceptRound_gain i fd acc s :
  possible s (SAccept (Some (fd, acc))) -> loops_ok s -> (i < length (loops_ s))%nat ->
  size (loopAt i (acceptRound (Some (fd, acc)) s) ∖ loopAt i s) = if decide (i = N.to_nat (rr s mod nlen (loops_ s))) then 1%nat else 0%nat.
Proof.
  intros [Hfd _] [Hw _ Hl] Hi; unfold loopAt; cbn; rewrite list_lookup_alter; apply lookup_lt_is_Some in Hi as [l Hli].
  rewrite (decide_ext _ (i = N.to_nat (rr s mod nlen (loops_ s)))) by (split; congruence); case_decide as E.
  - rewrite <- E, Hli; simpl; unfold addRead.
    assert (fd ∉ l) as Hni by (intros Hin; apply Hfd, elem_of_dom, Hw; exists i, l; done).
    replace (({[fd]} ∪ l) ∖ l) with ({[fd]} : gset Fd) by set_solver; apply size_singleton.
  - rewrite Hli; simpl; rewrite difference_diag_L; apply size_empty.
Qed.

Lemma shrunk_gain i s s' : shrunk s s' -> size (loopAt i s' ∖ loopAt i s) = 0%nat.
Proof. intros (_ & _ & Hs); specialize (Hs i); rewrite <- (size_empty (C := gset Fd)); f_equal; set_solver. Qed.

Lemma gained_share reuse n i evs s s' :
  loops_ok s -> length (loops_ s) = n -> (i < n)%nat -> srun reuse evs s = Some s' ->
  (gained i evs s + share n i (N.to_nat (rr s)) = share n i (N.to_nat (rr s')))%nat /\
  rr s' = rr s + N.of_nat (length (List.filter accepted evs)).
Proof.
  intros Hl Hn Hi; revert s Hl Hn; induction evs as [|ev evs IH]; intros s Hl Hn; cbn [srun gained]; [intros [= <-]; simpl; lia|].
  destruct (decide _) as [[Hp Ha]|]; [|done]; destruct (sexec s ev) as [[s1|]|] eqn:Hx; [|done..]; intros Hr.
  destruct (server_step_ok true s s1) as [Hl1 _]; [by econstructor|done|done|].
  assert ((exists fd acc, ev = SAccept (Some (fd, acc)) /\ s1 = acceptRound (Some (fd, acc)) s) \/ (accepted ev = false /\ shrunk s s1)) as Hcase.
  { destruct ev as [[[fd acc]|]|w r io env|j|]; simpl in Hx.
    - left; exists fd, acc; destruct (running_ s); [|done]; by injection Hx as <-.
    - right; split; [done|]; destruct (running_ s); [|done]; by injection Hx as <-.
    - right; split; [done|]; destruct (running_ s); [|done]; by eapply serveReady_shrinks.
    - right; split; [done|]; apply bind_Some_inv in Hx as (s2 & He & [= <-]); by apply bind_Some_inv in He as (fd & _ & [= <-]).
    - right; split; [done|]; by injection Hx as <-. }
  destruct Hcase as [(fd & acc & -> & ->)|[Hna Hsh]].
  - destruct (IH _ Hl1) as [Hg Hrr]; [by cbn; rewrite length_alter|done|]; rewrite acceptRound_gain by (done || lia).
    change (rr (acceptRound (Some (fd, acc)) s)) with (rr s + 1) in Hg, Hrr; cbn [List.filter accepted length]; split; [|lia].
    rewrite N2Nat.inj_add, Nat.add_1_r in Hg; unfold share in *; rewrite share_step in Hg by done.
    rewrite N2Nat.inj_mod in *; unfold nlen in *; rewrite Nat2N.id, Hn in *; destruct (decide _); lia.
  - rewrite (shrunk_gain i _ _ Hsh); destruct Hsh as (Hrr & Hlen & _); destruct (IH _ Hl1) as [Hg Hrr']; [congruence|done|].
    cbn [List.filter]; rewrite Hna, <- Hrr; split; [lia|done].
Qed.

(** ** The theorems *)

(** C21: connections do not interfere.  In every state the server reaches by rounds of
    its accept thread and its workers and by erasures of the buffers of closed
    connections, in any order over any number of event loops, provided that the
    number of a closed connection is not given to a new one before its buffer is
    erased: each open connection is watched by exactly one loop and has a buffer, and
    besides them only the closed ones that wait for the erasure have one; the requests
    of a connection that were handed to [dispatch] are exactly the frames of the bytes
    received on it, in order, whatever was read on the others, and as long as its
    sends succeed the bytes written to it are exactly the answers, in the same order.
    A round is one step, within which the other workers change the shards only. *)
Theorem connections_isolated (n : nat) (m : ShardManager) (s : Server) (fd : Fd) (k : Sock)
    (Hn : (0 < n)%nat) (Hr : rtc (server_step false) (startServer n m) s) (Hk : socks s !! fd = Some k) :
  dom (connState_ s) = dom (socks s) ∪ list_to_set (closing s) /\
  (exists w, watches (loops_ s) w fd /\ forall w', watches (loops_ s) w' fd -> w' = w) /\
  (forall fs t, Forall frame_fits fs -> partial_frame t -> concat (received k) = wire_bytes fs ++ t ->
     (served k).*1 = fs.*2 /\ connState_ s !! fd = Some t) /\
  (clean k = true -> sent (out k) = answers (served k)).
Proof.
  destruct (reachable_ok _ _ _ _ Hn Hr) as [Hl Hok]; specialize (Hok eq_refl).
  destruct (so_conns _ Hok _ _ Hk) as (buf & Hb & [Hsv Hst]); split_and!; [| | |done].
  - apply set_eq; intros x; rewrite elem_of_union, !elem_of_dom, elem_of_list_to_set; apply (so_buffers _ Hok).
  - destruct (proj1 (lo_watched _ Hl fd)) as [w Hw]; [eauto|]; exists w; split; [done|]; intros w' Hw'.
    by apply (lo_one _ Hl fd).
  - intros fs t Hfs Ht Hc; rewrite (serve_chunks_wire _ fs t []) in Hsv by (done || apply partial_frame_nil).
    by injection Hsv as <- ->.
Qed.

(** C39: a readable event ends.  When the bytes a client has sent so far on a
    connection, the ones of this event included, are frames and possibly the
    beginning of one, [handleReadable] leaves its loop after at most as many rounds
    as there are bytes in the buffer.  (A length field that wraps is no frame:
    [KvServer.drain_spins].)  The numbers of closed connections are not reused
    before their buffers are erased. *)
Theorem handleReadable_returns (n : nat) (m : ShardManager) (s : Server) (fd : Fd) (k : Sock) (w : nat)
    (env : nat -> ShardManager -> ShardManager) (rs : list RecvResult) (d : bytes) (fs : list (WireType * bytes)) (t : bytes)
    (Hn : (0 < n)%nat) (Hr : rtc (server_step false) (startServer n m) s) (Hk : socks s !! fd = Some k)
    (Hd : fillBuffer rs (inbufOf fd s) = Some (inbufOf fd s ++ d))
    (Hfs : Forall frame_fits fs) (Ht : partial_frame t) (Hc : concat (received k) ++ d = wire_bytes fs ++ t) :
  is_Some (handleReadable env w fd rs s).
Proof.
  destruct (so_conns _ (proj2 (reachable_ok _ _ _ _ Hn Hr) eq_refl) _ _ Hk) as (buf & Hb & [Hsv _]).
  destruct (wire_split fs t (concat (received k))) as (fs1 & fs2 & q & -> & Hq & Hpq); [done|done|by exists d|].
  apply Forall_app in Hfs as [Hf1 Hf2]; rewrite (serve_chunks_wire _ fs1 q []) in Hsv by (done || apply partial_frame_nil).
  injection Hsv as _ <-; assert (inbufOf fd s = q) as Hi by (unfold inbufOf; by rewrite Hb).
  unfold handleReadable; rewrite Hd, Hi; rewrite Hq, wire_bytes_app, <- !app_assoc in Hc; apply app_inv_head in Hc.
  eapply (serveLoop_returns _ _ _ _ fs2 t); [done|done| |].
  - unfold inbufOf; cbn; by rewrite lookup_insert_eq.
  - rewrite Hc, length_app; pose proof (wire_bytes_length fs2); lia.
Qed.

(** C22: connections are distributed evenly.  In any run of the server in which at most
    2^31 - 1 connections are accepted (the counter [rr] is an [int]), connections being
    served, closed and their numbers reused at any time: the numbers of connections
    given to two event loops differ by at most one, and no loop is given more than the
    rounded up average.  (What a loop watches at a time depends on which connections
    have been closed.) *)
Theorem accept_balanced (reuse : bool) (n : nat) (m : ShardManager) (evs : list SEvent) (s : Server) (i j : nat)
    (Hi : (i < n)%nat) (Hj : (j < n)%nat) (Hr : srun reuse evs (startServer n m) = Some s) :
  let k := length (List.filter accepted evs) in
  (gained i evs (startServer n m) <= gained j evs (startServer n m) + 1)%nat /\
  (gained i evs (startServer n m) <= (k + (n - 1)) / n)%nat.
Proof.
  assert (0 < n)%nat as Hn by lia; destruct (startServer_ok n m Hn) as [Hl _]; intros k.
  assert (length (loops_ (startServer n m)) = n) as Hlen by (cbn; apply repeat_length).
  assert (forall x, (x < n)%nat -> gained x evs (startServer n m) = share n x k) as Hg.
  { intros x Hx; destruct (gained_share reuse n x evs _ _ Hl Hlen Hx Hr) as [Hg Hrr]; cbn [rr startServer] in *.
    rewrite Hrr, N.add_0_l, Nat2N.id in Hg; unfold share in Hg at 1; cbn [N.to_nat] in Hg; rewrite Nat.div_small in Hg by lia; fold k in Hg; lia. }
  rewrite (Hg i Hi), (Hg j Hj); unfold share; split; [rewrite <- (Nat.div_add _ 1) by lia|]; apply Nat.Div0.div_le_mono; lia.
Qed.

(** What [recv] returns on a socket in state [k]: when the peer has shut down its
    side, the bytes that are left and then the end. *)
Definition recvOf (k : SockState) (rs : list RecvResult) : Prop :=
  ss_eof k = true -> ss_error k = false -> exists bs, rs = (Data <$> bs) ++ [Closed].

Lemma fillBuffer_closed bs b : fillBuffer ((Data <$> bs) ++ [Closed]) b = None.
Proof. revert b; induction bs as [|d bs IH]; intros b; [done|apply IH]. Qed.

(** C23: the two event loops are interchangeable.  Whatever the state of the sockets
    a worker watches, when both report the ready ones in the same order, a round of
    [workerLoop] does the same to the server with what epoll reports as with what
    kqueue reports; they disagree on a connection whose
    peer has shut down its side, and [handleReadable] closes that one as well. *)
Theorem event_loops_interchangeable (env : Fd -> nat -> ShardManager -> ShardManager) (io : Fd -> list RecvResult) (w : nat)
    (st : Fd -> SockState) (l : list Fd) (s : Server) (Hio : forall fd, fd ∈ l -> recvOf (st fd) (io fd)) :
  serveReady env io w (wait (Some (epollReport st l))) s = serveReady env io w (wait_kqueue (Some (kqueueReport st l))) s.
Proof.
  rewrite wait_epollReport, wait_kqueueReport.
  assert (forall fd, fd ∈ readyFds st l -> recvOf (st fd) (io fd)) as Hr by (intros fd Hin; by eapply Hio, readyFds_subset).
  clear Hio; revert s Hr; induction (readyFds st l) as [|fd fds IH]; intros s Hr; [done|]; cbn [fmap list_fmap serveReady].
  assert ((if ss_error (st fd) then Some (Ok (closeConn w fd s)) else handleReadable (env fd) w fd (io fd) s) =
          (if ss_eof (st fd) || ss_error (st fd) then Some (Ok (closeConn w fd s)) else handleReadable (env fd) w fd (io fd) s)) as ->.
  { destruct (ss_error (st fd)) eqn:He; [by rewrite orb_true_r|]; destruct (ss_eof (st fd)) eqn:Hf; [|done].
    destruct (Hr fd ltac:(left) Hf He) as [bs Hbs]; unfold handleReadable; by rewrite Hbs, fillBuffer_closed. }
  destruct (if ss_eof (st fd) || ss_error (st fd) then _ else _) as [[s'|]|]; [|done..].
  apply IH; intros x Hx; apply Hr; by right.
Qed.

(** ** Witnesses *)

(** A server without shards answers status 2. *)
Definition noShards : ShardManager := mkShardManager (HashRing_init 1) ∅.

Definition getRequest (key : string) : bytes := frame WClientRequest (putBytes (str key) (putU8 0 [])).

Definition readable (fd : Fd) : option (list epoll_event) := Some [mkEpollEvent EPOLLIN fd].

Definition chunks (b1 b2 : bytes) (fd : Fd) : list RecvResult := if fd =? 7 then [Data b1; WouldBlock] else [Data b2; WouldBlock].

(** Connections 7 and 8 on two loops; the request of 7 comes in two parts, with one
    of 8 between them. *)
Definition two_clients : list SEvent :=
  let q := getRequest "k" in
  [SAccept (Some (7, [100; 100])); SAccept (Some (8, [100; 100]));
   SWork 0 (readable 7) (chunks (take 3 q) q) (fun _ _ m => m);
   SWork 1 (readable 8) (chunks (take 3 q) q) (fun _ _ m => m);
   SWork 0 (readable 7) (chunks (drop 3 q) q) (fun _ _ m => m)].

Lemma connections_isolated_witness :
  exists s k, srun false two_clients (startServer 2 noShards) = Some s /\ socks s !! 7 = Some k /\
    (served k).*1 = [putBytes (str "k") (putU8 0 [])] /\ sent (out k) = frame WClientResponse (response 2 [] []).
Proof.
  destruct (srun false two_clients (startServer 2 noShards)) as [s|] eqn:E; [|vm_compute in E; discriminate].
  destruct (socks s !! 7) as [k|] eqn:Hk; [|vm_compute in E; injection E as <-; vm_compute in Hk; discriminate].
  exists s, k; split; [done|split; [done|]].
  destruct (connections_isolated 2 noShards s 7 k ltac:(lia) (srun_steps _ _ _ _ E) Hk) as (_ & _ & Hfs & Hsent).
  destruct (Hfs [(WClientRequest, putBytes (str "k") (putU8 0 []))] []) as [-> _];
    [by repeat constructor|apply partial_frame_nil|vm_compute in E; injection E as <-; vm_compute in Hk; injection Hk as <-; reflexivity|].
  split; [done|]; rewrite Hsent; vm_compute in E; injection E as <-; vm_compute in Hk; injection Hk as <-; reflexivity.
Defined.

Lemma handleReadable_returns_witness :
  exists s, srun false (take 4 two_clients) (startServer 2 noShards) = Some s /\
    is_Some (handleReadable (fun _ m => m) 0 7 [Data (drop 3 (getRequest "k")); WouldBlock] s).
Proof.
  destruct (srun false (take 4 two_clients) (startServer 2 noShards)) as [s|] eqn:E; [|vm_compute in E; discriminate].
  exists s; split; [done|].
  destruct (socks s !! 7) as [k|] eqn:Hk; [|vm_compute in E; injection E as <-; vm_compute in Hk; discriminate].
  apply (handleReadable_returns 2 noShards s 7 k 0 _ _ (drop 3 (getRequest "k")) [(WClientRequest, putBytes (str "k") (putU8 0 []))] []);
    [lia|exact (srun_steps _ _ _ _ E)|exact Hk|vm_compute in E; injection E as <-; reflexivity|by repeat constructor|apply partial_frame_nil|].
  vm_compute in E; injection E as <-; vm_compute in Hk; injection Hk as <-; reflexivity.
Defined.

(** Four connections on two loops; both connections of loop 0 are then closed, and a
    fifth one is accepted under the number of one of them. *)
Definition busy_run : list SEvent :=
  (fun fd => SAccept (Some (fd, []))) <$> [5; 6; 7; 8].

Definition hup (fd : Fd) : option (list epoll_event) := Some [mkEpollEvent EPOLLHUP fd].

Definition close_run : list SEvent :=
  busy_run ++ [SWork 0 (hup 5) (fun _ => []) (fun _ _ m => m); SWork 0 (hup 7) (fun _ => []) (fun _ _ m => m);
    SErase 0; SAccept (Some (5, []))].

Lemma accept_balanced_witness :
  exists s, srun true close_run (startServer 2 noShards) = Some s /\ size (loopAt 0 s) = 1%nat /\ size (loopAt 1 s) = 2%nat /\
    gained 0 close_run (startServer 2 noShards) = 3%nat /\
    (gained 0 close_run (startServer 2 noShards) <= gained 1 close_run (startServer 2 noShards) + 1)%nat.
Proof.
  destruct (replayed (fun s => (size (loopAt 0 s), size (loopAt 1 s))) (srun true close_run (startServer 2 noShards)) (1%nat, 2%nat))
    as (s & Hs & Hv); [vm_compute; reflexivity|]; injection Hv as H1 H2.
  exists s; split_and!; [done|done|done|vm_compute; reflexivity|].
  apply (accept_balanced true 2 noShards close_run s 0 1); [lia|lia|exact Hs].
Defined.

(** ** Where the promises end *)

(** [closeConn] closes the descriptor before it erases the buffer.  When the number
    is given to a new connection in between, the buffer of that one is erased: the
    first three bytes of its request are lost, and the rest is never answered. *)
Definition erased_run : list SEvent :=
  [SAccept (Some (7, [100])); SWork 0 (hup 7) (fun _ => []) (fun _ _ m => m); SAccept (Some (7, [100; 100]));
   SWork 0 (readable 7) (chunks (take 3 (getRequest "k")) []) (fun _ _ m => m); SErase 0;
   SWork 0 (readable 7) (chunks (drop 3 (getRequest "k")) []) (fun _ _ m => m)].

Lemma close_erases_successor :
  srun false erased_run (startServer 1 noShards) = None /\
  exists s k, srun true erased_run (startServer 1 noShards) = Some s /\
    socks s !! 7 = Some k /\ concat (received k) = getRequest "k" /\ served k = [].
Proof.
  split; [vm_compute; reflexivity|]; do 2 eexists; split; [vm_compute; reflexivity|]; repeat split; reflexivity.
Qed.

(** A send that takes only a part (the sockets are non-blocking) fails
    [writeFrame], which [handleReadable] does not notice: with two requests in one
    event the second answer follows a part of the first. *)
Lemma short_write_garbles :
  exists s k, srun false [SAccept (Some (7, [5; 4; 0; 100; 100])); SWork 0 (readable 7) (chunks (getRequest "a" ++ getRequest "b") []) (fun _ _ m => m)]
      (startServer 1 noShards) = Some s /\ socks s !! 7 = Some k /\ length (served k) = 2%nat /\
    sent (out k) = take 9 (frame WClientResponse (response 2 [] [])) ++ frame WClientResponse (response 2 [] []).
Proof. do 2 eexists; split; [vm_compute; reflexivity|]; repeat split; reflexivity. Qed.

(** A complete request that is followed by the end of the stream is not served: the
    end is seen before the frames of the buffer are. *)
Lemma half_close_drops_request :
  exists s s', srun false [SAccept (Some (7, [100; 100]))] (startServer 1 noShards) = Some s /\
    handleReadable (fun _ m => m) 0 7 [Data (getRequest "k"); Closed] s = Some (Ok s') /\ socks s' = ∅ /\
    exists s2 k, handleReadable (fun _ m => m) 0 7 [Data (getRequest "k"); WouldBlock] s = Some (Ok s2) /\
      socks s2 !! 7 = Some k /\ length (served k) = 1%nat.
Proof.
  do 2 eexists; split; [vm_compute; reflexivity|]; split; [vm_compute; reflexivity|]; split; [reflexivity|].
  do 2 eexists; split; [vm_compute; reflexivity|]; split; reflexivity.
Qed.

Lemma event_loops_interchangeable_witness :
  exists s, srun false [SAccept (Some (7, [100; 100]))] (startServer 1 noShards) = Some s /\
    let st := fun _ : Fd => mkSockState true true false in
    wait (Some (epollReport st [7])) = [(7, false)] /\ wait_kqueue (Some (kqueueReport st [7])) = [(7, true)] /\
    serveReady (fun _ _ m => m) (fun _ => [Data (getRequest "k"); Closed]) 0 (wait (Some (epollReport st [7]))) s =
    serveReady (fun _ _ m => m) (fun _ => [Data (getRequest "k"); Closed]) 0 (wait_kqueue (Some (kqueueReport st [7]))) s.
Proof.
  eexists; split; [vm_compute; reflexivity|]; cbv zeta; split; [reflexivity|]; split; [reflexivity|].
  apply event_loops_interchangeable; intros fd _ _ _; by exists [getRequest "k"].
Defined.
