(* ===== verification/KvServerThreads.v ===== *)
(** * server/kv_server.h: starting and stopping

    [KvServer::start] opens the port and starts the accept thread and the workers;
    [stop] clears [running_], closes the listening socket and joins them.  A thread
    looks at [running_] and then makes a round ([KvServerLoop]) in further steps, so
    that a round may end after [stop] was called.  A worker whose [epoll_wait] has
    returned is in its round until the round ends; one that does not end (a request
    whose length field wraps, [KvServer.drain_spins]) keeps it there for ever. *)
From stdpp Require Import base tactics list gmap numbers strings relations.
From Stdlib Require Import Ascii NArith ZArith Lia.
From S2P Require Import Prelude.
From S2P Require Import Buffer.
From S2P Require Import Wire.
From S2P Require Import HashRing.
From S2P Require Import ShardManager.
From S2P Require Import KvServer.
From S2P Require Import Sockets.
From S2P Require Import EventLoop.
From S2P Require Import KvServerLoop.

Local Open Scope N_scope.

(** The accept thread: at [while (running_)], in a round, or returned. *)
Inductive LoopThread : Type := AtWhile | InRound | Returned.

#[global] Instance LoopThread_eq_dec : EqDecision LoopThread.
Proof. solve_decision. Defined.

(** A worker: at [while (running_)], in [wait(200)], serving what it has returned, or
    returned.  [io] is what [recv] gives in the round and [env] what the other
    threads do to the shards while a request waits. *)
Inductive WorkerThread : Type :=
| WAtWhile
| WWaiting
| WServing (ready : list (Fd * bool)) (io : Fd -> list RecvResult) (env : Fd -> nat -> ShardManager -> ShardManager)
| WReturned.

(** What [stop] has done. *)
Inductive StopPhase : Type := NotCalled | FlagCleared | PortClosed | AcceptJoined | AllJoined.

#[global] Instance StopPhase_eq_dec : EqDecision StopPhase.
Proof. solve_decision. Defined.

Record KvProc := mkKvProc {
  server : Server;
  port_ : Z;
  listenFd_ : option Fd;
  acceptThread_ : LoopThread;
  workers_ : list WorkerThread;
  stopPhase : StopPhase;
  sockets : Host
}.
Implicit Types p : KvProc.

Definition set_server x p := mkKvProc x (port_ p) (listenFd_ p) (acceptThread_ p) (workers_ p) (stopPhase p) (sockets p).
Definition set_accept x p := mkKvProc (server p) (port_ p) (listenFd_ p) x (workers_ p) (stopPhase p) (sockets p).
Definition set_worker w x p := mkKvProc (server p) (port_ p) (listenFd_ p) (acceptThread_ p) (<[w := x]> (workers_ p)) (stopPhase p) (sockets p).
Definition set_phase x p := mkKvProc (server p) (port_ p) (listenFd_ p) (acceptThread_ p) (workers_ p) x (sockets p).

(** [start], with [fd] the result of [socket]. *)
Definition startKvServer (port : Z) (numWorkers : nat) (m : ShardManager) (fd : option Fd) (ephemeral : N) (h : Host) : KvProc :=
  let h := openPort port 1024 fd ephemeral h in
  let h := match fd with Some fd => setNonBlocking fd h | None => h end in
  mkKvProc (startServer numWorkers m) port fd AtWhile (repeat WAtWhile numWorkers) NotCalled h.

(** ** The threads *)

(** A step of [acceptLoop]; [r] is what [accept] returns. *)
Definition acceptStep (r : option (Fd * list N)) p : option KvProc :=
  match acceptThread_ p with
  | AtWhile => Some (set_accept (if running_ (server p) then InRound else Returned) p)
  | InRound =>
      match r with
      | None => Some (set_accept (if running_ (server p) then AtWhile else Returned) p)
      | Some _ => Some (set_accept AtWhile (set_server (acceptRound r (server p)) p))
      end
  | Returned => None
  end.

(** [epoll_wait] of worker [w] returns [r]. *)
Definition waitStep (w : nat) (r : option (list epoll_event)) (io : Fd -> list RecvResult)
    (env : Fd -> nat -> ShardManager -> ShardManager) p : option KvProc :=
  match workers_ p !! w with
  | Some WWaiting => Some (set_worker w (WServing (wait r) io env) p)
  | _ => None
  end.

(** Another step of the [workerLoop] of worker [w]: the test of [running_], or the
    [for] over the events, when it ends. *)
Definition workStep (w : nat) p : option KvProc :=
  match workers_ p !! w with
  | Some WAtWhile => Some (set_worker w (if running_ (server p) then WWaiting else WReturned) p)
  | Some (WServing ready io env) =>
      match serveReady env io w ready (server p) with
      | Some (Ok s') => Some (set_worker w WAtWhile (set_server s' p))
      | _ => None
      end
  | _ => None
  end.

Definition isReturned (t : WorkerThread) : bool := match t with WReturned => true | _ => false end.

Definition stopStep p : option KvProc :=
  match stopPhase p with
  | NotCalled => Some (set_phase FlagCleared (set_server (stopServer (server p)) p))
  | FlagCleared =>
      let h := match listenFd_ p with Some fd => closeListener fd (sockets p) | None => sockets p end in
      Some (mkKvProc (server p) (port_ p) (listenFd_ p) (acceptThread_ p) (workers_ p) PortClosed h)
  | PortClosed => if decide (acceptThread_ p = Returned) then Some (set_phase AcceptJoined p) else None
  | AcceptJoined => if forallb isReturned (workers_ p) then Some (set_phase AllJoined p) else None
  | AllJoined => None
  end.

(** ** Runs *)

(** [KErase] is the last statement of a [closeConn] ([KvServerLoop]). *)
Inductive KEvent : Type :=
| KAccept (r : option (Fd * list N))
| KWait (w : nat) (r : option (list epoll_event)) (io : Fd -> list RecvResult) (env : Fd -> nat -> ShardManager -> ShardManager)
| KWork (w : nat)
| KErase (i : nat)
| KStop.

Definition kexec (ev : KEvent) p : option KvProc :=
  match ev with
  | KAccept r => acceptStep r p
  | KWait w r io env => waitStep w r io env p
  | KWork w => workStep w p
  | KErase i => s' ← eraseStep i (server p); Some (set_server s' p)
  | KStop => stopStep p
  end.

(** The promises of the system ([KvServerLoop.possible]). *)
Definition kpossible (ev : KEvent) p : Prop :=
  match ev with
  | KAccept (Some (fd, acc)) =>
      acceptsOn (listenFd_ p) (sockets p) = true /\ (fd ∉ dom (sockets p)) /\ possible (server p) (SAccept (Some (fd, acc)))
  | KWait w r io env => possible (server p) (SWork w r io env)
  | _ => True
  end.



(** Worker [w] is in a round that throws or does not end. *)
Definition held (w : nat) p : Prop :=
  exists ready io env, workers_ p !! w = Some (WServing ready io env) /\
    forall s', serveReady env io w ready (server p) <> Some (Ok s').


















(** A worker in a round that does not end, and [stop] waits for it: nothing moves. *)
Lemma held_stops p w :
  held w p -> stopPhase p = AcceptJoined -> acceptThread_ p = Returned -> closing (server p) = [] ->
  (forall w', w' <> w -> forall t, workers_ p !! w' = Some t -> t = WReturned) -> forall ev, kexec ev p = None.
Proof.
  intros (ready & io & env & Hw & Hno) Hph Ha Hcl Hother ev; destruct ev as [r|v r io' env'|v|i|]; simpl.
  - unfold acceptStep; by rewrite Ha.
  - unfold waitStep; destruct (decide (v = w)) as [->|Hne]; [by rewrite Hw|].
    destruct (workers_ p !! v) as [t|] eqn:Hv; [by rewrite (Hother _ Hne _ Hv)|done].
  - unfold workStep; destruct (decide (v = w)) as [->|Hne].
    + rewrite Hw; destruct (serveReady _ _ _ _ _) as [[s'|]|] eqn:E; [by destruct (Hno s')|done..].
    + destruct (workers_ p !! v) as [t|] eqn:Hv; [by rewrite (Hother _ Hne _ Hv)|done].
  - unfold eraseStep; by rewrite Hcl.
  - unfold stopStep; rewrite Hph; assert (forallb isReturned (workers_ p) = false) as ->; [|done].
    apply not_true_is_false; rewrite forallb_forall; intros Hall; specialize (Hall _ (proj1 (list_elem_of_In _ _) (list_elem_of_lookup_2 _ _ _ Hw))); done.
Qed.

(** ** The theorem *)


(** ** Witnesses *)
#[local] Instance kpossible_dec ev p : Decision (kpossible ev p).
Proof. destruct ev as [[[fd acc]|]|w r io env|w|i|]; simpl; try apply _; destruct (loops_ (server p) !! w); apply _. Defined.

Fixpoint kplay (evs : list KEvent) p : option KvProc :=
  match evs with
  | [] => Some p
  | ev :: evs' => if decide (kpossible ev p) then p' ← kexec ev p; kplay evs' p' else None
  end.


Definition kv_sample : KvProc := startKvServer 7100 2 noShards (Some 4) 40000 ∅.

Definition timeout (w : nat) : KEvent := KWait w (Some []) (fun _ => []) (fun _ _ m => m).

(** A client has connected; worker 0 is waiting for events. *)
Definition one_client : list KEvent := [KWork 0; KAccept None; KAccept (Some (7, [100; 100]))].

Definition stop_rest : list KEvent := [KWork 1; KStop; timeout 0; KAccept None; KStop; KWork 0; KWork 0; KStop].


(** [stop] does not close the connections: the client of [one_client] stays
    connected to a server that has returned from [stop] and will not answer. *)
Lemma stop_leaves_connections :
  exists p, kplay (one_client ++ KStop :: stop_rest) kv_sample = Some p /\
    stopPhase p = AllJoined /\ is_Some (socks (server p) !! 7) /\ running_ (server p) = false.
Proof.
  destruct (replayed (fun p => (stopPhase p, bool_decide (is_Some (socks (server p) !! 7)), running_ (server p)))
    (kplay (one_client ++ KStop :: stop_rest) kv_sample) (AllJoined, true, false)) as (p & Hp & Hv);
    [vm_compute; reflexivity|]; injection Hv as H1 H2 H3.
  exists p; split_and!; [done|done|by apply bool_decide_eq_true in H2|done].
Qed.

(** ** Where the promises end *)

(** A client sends a request whose length field wraps: its worker stays in
    [handleReadable], and [stop] waits for it for ever. *)
Definition wrapping : bytes := frameHeader WClientRequest (U32 - 5) ++ putBytes (str "k") (putU8 0 []).

Definition spinning_stop : list KEvent :=
  one_client ++ [KWait 0 (readable 7) (fun _ => [Data wrapping; WouldBlock]) (fun _ _ m => m);
    KWork 1; timeout 1; KStop; KWork 1; KWork 1; KAccept None; KStop; KStop].

(** The round of that worker does not end. *)
Lemma wrapping_round env w s s' :
  inbufOf 7 s = [] -> serveReady env (fun _ => [Data wrapping; WouldBlock]) w [(7, false)] s <> Some (Ok s').
Proof.
  intros Hb; cbn [serveReady]; unfold handleReadable; rewrite Hb.
  change (fillBuffer [Data wrapping; WouldBlock] []) with (Some wrapping); cbv iota beta; set (fuel := S (length wrapping)); clearbody fuel.
  destruct (serveLoop _ _ _ _) as [[s1|]|] eqn:E; [|done..]; apply serveLoop_drains in E.
  unfold inbufOf in E; cbn in E; rewrite lookup_insert_eq in E; simpl in E.
  destruct (nextFrame_wraps WClientRequest (putBytes (str "k") (putU8 0 []))) as [f Hf]; by destruct (drains_fixed _ _ Hf).
Qed.

Lemma stop_waits_for_spinning_worker :
  exists p, kplay spinning_stop kv_sample = Some p /\ stopPhase p = AcceptJoined /\ forall ev, kexec ev p = None.
Proof.
  destruct (replayed (fun p => (stopPhase p, acceptThread_ p, closing (server p), inbufOf 7 (server p), workers_ p))
    (kplay spinning_stop kv_sample)
    (AcceptJoined, Returned, [], [], [WServing [(7, false)] (fun _ => [Data wrapping; WouldBlock]) (fun _ _ m => m); WReturned]))
    as (p & Hp & Hv); [vm_compute; reflexivity|]; injection Hv as H1 H2 H3 H4 H5.
  exists p; split_and!; [done|done|]; apply (held_stops p 0); [|done|done|done|].
  - do 3 eexists; rewrite H5; split; [reflexivity|]; intros s'; by apply wrapping_round.
  - intros [|[|w']] Hne t; rewrite H5; simpl; [done| |done]; by intros [= <-].
Qed.
