(* ===== verification/Client.v ===== *)
(** * client/client.h: the client library, against the server

    [request] is the retry loop over what the connection does in each attempt;
    the theorems put the bytes it sends through [dispatch]. *)
From stdpp Require Import base tactics list gmap numbers strings sorting.
From Stdlib Require Import Ascii NArith Lia.
From S2P Require Import Prelude.
From S2P Require Import Buffer.
From S2P Require Import Types.
From S2P Require Import PersistentLog.
From S2P Require Import StateMachine.
From S2P Require Import KvStore.
From S2P Require Import RaftNode.
From S2P Require Import RaftNodeFacts.
From S2P Require Import RaftCommit.
From S2P Require Import RaftHandlers.
From S2P Require Import Cluster.
From S2P Require Import ClusterTraces.
From S2P Require Import HashRing.
From S2P Require Import Wire.
From S2P Require Import ShardManager.
From S2P Require Import KvServer.

Local Open Scope N_scope.

(** ** The client *)
Record KvClient := mkKvClient {
  cl_ring : HashRing;
  cl_shardServers : gmap N (list bytes);
  cl_clientId : N;
  cl_seq : N
}.

(** The payload of one attempt.  [seq_.fetch_add(1)] is evaluated for writes only. *)
Definition requestPayload (op : N) (key value expect : bytes) (clientId seq : N) : bytes :=
  let w := putBytes key (putU8 op []) in
  if op =? 0 then w else putU64 seq (putU64 clientId (putBytes expect (putBytes value w))).

Definition parseResponse (resp : bytes) : outcome (N * bytes * bytes) :=
  p ← (status ← getU8; leaderHint ← getBytes; val ← getBytes; mret (status, leaderHint, val)) (Reader_of resp);
  mret p.1.

(** What an attempt meets: no connection, an error while writing or reading, or
    the payload of the answer. *)
Inductive Attempt : Type := NoConn | IoError | Answer (resp : bytes).

(** The loop from attempt [attempt] on, with [k] attempts left.  [net] is the
    world: it is given the number of the attempt, the address and the payload.
    The result is the answer of [request], the value, the next sequence number and
    the payloads that were sent. *)
Fixpoint requestLoop (net : nat -> bytes -> bytes -> Attempt) (servers : list bytes) (op : N)
    (key value expect : bytes) (clientId : N) (k attempt : nat) (addr : bytes) (seq : N) :
    outcome (option bytes * N * list bytes) :=
  match k with
  | O => mret (None, seq, [])
  | S k' =>
      let payload := requestPayload op key value expect clientId seq in
      let seq' := if op =? 0 then seq else add64 seq 1 in
      let again addr seq sent :=
        '(r, seq, ps) ← requestLoop net servers op key value expect clientId k' (S attempt) addr seq;
        mret (r, seq, sent ++ ps) in
      match net attempt addr payload with
      | NoConn => again (default [] (servers !! (attempt mod length servers)%nat)) seq []
      | IoError => again addr seq' [payload]
      | Answer resp =>
          '(status, leaderHint, val) ← parseResponse resp;
          if status =? 0 then mret (Some val, seq', [payload])
          else if (status =? 2) && negb (bool_decide (leaderHint = [])) then again leaderHint seq' [payload]
          else mret (None, seq', [payload])
      end
  end.

(** [request]: the result, the value, the client afterwards and what was sent. *)
Definition request (net : nat -> bytes -> bytes -> Attempt) (op : N) (key value expect : bytes) (c : KvClient) :
    outcome (option bytes * KvClient * list bytes) :=
  match cl_shardServers c !! shardFor key (cl_ring c) with
  | Some (a :: servers) =>
      '(r, seq, ps) ← requestLoop net (a :: servers) op key value expect (cl_clientId c) 5 0 a (cl_seq c);
      mret (r, mkKvClient (cl_ring c) (cl_shardServers c) (cl_clientId c) seq, ps)
  | _ => mret (None, c, [])
  end.

Definition put (net : nat -> bytes -> bytes -> Attempt) (key value : bytes) (c : KvClient) :=
  request net 1 key value [] c.
Definition get (net : nat -> bytes -> bytes -> Attempt) (key : bytes) (c : KvClient) :=
  request net 0 key [] [] c.
Definition del (net : nat -> bytes -> bytes -> Attempt) (key : bytes) (c : KvClient) :=
  request net 2 key [] [] c.
Definition cas (net : nat -> bytes -> bytes -> Attempt) (key expect value : bytes) (c : KvClient) :=
  request net 3 key value expect c.

(** ** What the server reads *)
Definition request_fits (key value expect : bytes) (clientId seq : N) : Prop :=
  nlen key < U32 /\ nlen value < U32 /\ nlen expect < U32 /\ clientId < U64 /\ seq < U64.

(** The head of a payload, and the rest of a write. *)
Lemma requestPayload_head op key value expect clientId seq :
  op < U8 -> nlen key < U32 ->
  exists t r1 r2, getU8 (Reader_of (requestPayload op key value expect clientId seq)) = Ok (op, r1) /\
    getBytes r1 = Ok (key, r2) /\ pos_ok r2 /\ rest r2 = t /\
    (op <> 0 -> t = putU64 seq (putU64 clientId (putBytes expect (putBytes value [])))).
Proof.
  intros Ho Hk; set (p := requestPayload _ _ _ _ _ _).
  assert (exists t, p = [ascii_of_N (u8 op)] ++ (le_bytes 4 (u32 (u32 (nlen key))) ++ key) ++ t /\
    (op <> 0 -> t = putU64 seq (putU64 clientId (putBytes expect (putBytes value []))))) as (t & Hp & Ht).
  { unfold p, requestPayload; destruct (N.eqb_spec op 0) as [->|Hne].
    - exists []; split; [flatten_writer; done|done].
    - eexists; split; [|done]; flatten_writer; done. }
  assert (pos_ok (Reader_of p)) as Hok by (unfold pos_ok, Reader_of; simpl; lia).
  assert (rest (Reader_of p) = p) as Hr by done; rewrite Hp in Hr at 2.
  exists t; pose proof (parses_all (parses_U8 op Ho) _ _ Hok Hr) as E1.
  destruct (rest_advance _ _ _ Hok Hr) as [Hok1 Hr1].
  pose proof (parses_all (parses_Bytes key Hk) _ _ Hok1 Hr1) as E2.
  destruct (rest_advance _ _ _ Hok1 Hr1) as [Hok2 Hr2].
  do 2 eexists; split_and!; [exact E1|exact E2|exact Hok2|exact Hr2|exact Ht].
Qed.

Lemma readWriteFields_payload r value expect clientId seq :
  nlen value < U32 -> nlen expect < U32 -> clientId < U64 -> seq < U64 -> pos_ok r ->
  rest r = putU64 seq (putU64 clientId (putBytes expect (putBytes value []))) ->
  exists r', readWriteFields r = Ok ((value, expect, clientId, seq), r').
Proof.
  intros Hv He Hc Hs Hok Hr.
  assert (parses readWriteFields (putU64 seq (putU64 clientId (putBytes expect (putBytes value []))))
            (value, expect, clientId, seq)) as Hp by (unfold readWriteFields; solve_parses).
  eexists; apply (parses_all Hp) with (t := []); [done|by rewrite app_nil_r].
Qed.

Lemma parseResponse_response status hint val :
  status < U8 -> nlen hint < U32 -> nlen val < U32 -> parseResponse (response status hint val) = Ok (status, hint, val).
Proof.
  intros H1 H2 H3; unfold parseResponse.
  assert (parses (status ← getU8; leaderHint ← getBytes; val ← getBytes; mret (status, leaderHint, val))
            (response status hint val) (status, hint, val)) as Hp by (unfold response; solve_parses).
  by rewrite (proj1 (parses_whole _ _ _ Hp)).
Qed.

(** The command that the server makes of a write. *)
Definition commandOf (op : N) (key value expect : bytes) (clientId seq : N) : KvCommand :=
  mkKvCommand (opOf op) key value expect clientId seq.

Lemma opOf_valid op : CmdOp_valid (opOf op).
Proof. unfold opOf; destruct (op =? 1); [done|]; by destruct (op =? 2). Qed.

(** A write to a group of one node is executed and answered. *)
Lemma dispatch_write_solo op key value expect clientId seq m g :
  0 < op < U8 -> request_fits key value expect clientId seq ->
  group (ShardManager_shardFor key m) m = Some g -> solo g -> lastIndex (log_ g) + 2 < U64 ->
  let cmd := commandOf op key value expect clientId seq in
  let result := (KvStore_apply_cmd cmd (sm_ g)).2 in
  exists g', dispatch (fun m => m) (requestPayload op key value expect clientId seq) m =
      Ok (set_group (ShardManager_shardFor key m) g' m,
          if decide (result = str "CAS_MISMATCH") then response 3 [] [] else response 0 [] result) /\
    solo g' /\ sm_ g' = (KvStore_apply_cmd cmd (sm_ g)).1 /\ lastIndex (log_ g') = lastIndex (log_ g) + 1.
Proof.
  intros Hop (Hk & Hv & He & Hc & Hs) Hg Hso Hb; cbv zeta.
  destruct (requestPayload_head op key value expect clientId seq) as (t & r1 & r2 & E1 & E2 & Hok & Hr & Ht); [lia|done|].
  rewrite Ht in Hr by lia.
  destruct (readWriteFields_payload _ _ _ _ _ Hv He Hc Hs Hok Hr) as [r3 E3].
  destruct (group_propose_solo _ (commandOf op key value expect clientId seq) m g Hg Hso Hb)
    as (g' & Hgp & Hso' & Hsm & Hl & Hw); [split; [apply opOf_valid|done]|].
  exists g'; split_and!; try done.
  unfold group_propose in Hgp; rewrite Hg in Hgp.
  destruct (propose (KvCommand_encode (commandOf op key value expect clientId seq)) Command g) as [[g1 pr]|] eqn:Ep; [|done].
  cbn [mbind outcome_bind] in Hgp; injection Hgp as Hgm Hpr.
  apply (f_equal (lookup (ShardManager_shardFor key m))) in Hgm; rewrite !lookup_insert_eq in Hgm.
  injection Hgm as ->.
  unfold dispatch, dispatch_begin; rewrite E1; cbn [mbind outcome_bind]; rewrite E2; cbn [mbind outcome_bind].
  rewrite Hg; destruct (N.eqb_spec op 0); [lia|]; rewrite E3; cbn [mbind outcome_bind].
  unfold commandOf in Ep; rewrite Ep; cbn [mbind outcome_bind]; rewrite Hpr; cbn [pr_isLeader pr_index].
  unfold dispatch_end, mret, outcome_ret; cbn [mbind outcome_bind].
  rewrite group_set_eq, Hw; done.
Qed.

Lemma dispatch_read_solo key value expect clientId seq m g :
  nlen key < U32 -> group (ShardManager_shardFor key m) m = Some g -> solo g ->
  dispatch (fun m => m) (requestPayload 0 key value expect clientId seq) m =
  Ok (m, match KvStore_get key (sm_ g) with Some val => response 0 [] val | None => response 1 [] [] end).
Proof.
  intros Hk Hg Hso.
  destruct (requestPayload_head 0 key value expect clientId seq) as (t & r1 & r2 & E1 & E2 & _); [done|done|].
  unfold dispatch, dispatch_begin; rewrite E1; cbn [mbind outcome_bind]; rewrite E2; cbn [mbind outcome_bind].
  rewrite Hg; cbn [N.eqb]; unfold isLeader; rewrite bool_decide_eq_true_2 by apply Hso.
  unfold readBarrier_begin; rewrite decide_True by apply Hso.
  unfold mret, outcome_ret; cbn [mbind outcome_bind]; unfold dispatch_end; rewrite Hg.
  unfold readBarrier_end; rewrite (so_commit _ Hso), (so_applied _ Hso), (proj2 (N.leb_le _ _)) by lia.
  by destruct (KvStore_get key (sm_ g)).
Qed.

(** ** Theorems *)

(** C32: a write and a read end to end. The bytes of a client's [put] with a new
    sequence number, dispatched to a group of one node that leads and has committed
    and applied its log, are answered with status 0 and [OK]; the bytes of a [get]
    of the same key dispatched afterwards are answered with status 0 and the value
    that was put. *)
Theorem put_then_get (key value : bytes) (clientId seq : N) (m : ShardManager) (g : RaftNode KvStore)
    (Hf : request_fits key value [] clientId seq)
    (Hg : group (ShardManager_shardFor key m) m = Some g) (Hs : solo g) (Hb : lastIndex (log_ g) + 2 < U64)
    (Hnew : match lastSeq_ (sm_ g) !! clientId with Some (last, _) => last < seq | None => True end) :
  exists m1, dispatch (fun m => m) (requestPayload 1 key value [] clientId seq) m = Ok (m1, response 0 [] (str "OK")) /\
    dispatch (fun m => m) (requestPayload 0 key [] [] clientId seq) m1 = Ok (m1, response 0 [] value) /\
    parseResponse (response 0 [] value) = Ok (0, [], value).
Proof.
  destruct (dispatch_write_solo 1 key value [] clientId seq m g) as (g' & E & Hs' & Hsm & _); [lia|done|done|done|done|].
  assert (KvStore_apply_cmd (commandOf 1 key value [] clientId seq) (sm_ g) =
    (mkKvStore (<[key := value]> (data_map (sm_ g)))
       (if negb (clientId =? 0) then <[clientId := (seq, str "OK")]> (lastSeq_ (sm_ g)) else lastSeq_ (sm_ g)), str "OK")) as Ea.
  { unfold KvStore_apply_cmd, commandOf; cbn [c_clientId c_requestSeq].
    destruct (negb (clientId =? 0)); [|done]; destruct (lastSeq_ (sm_ g) !! clientId) as [[last res]|]; [|done].
    destruct (N.leb_spec seq last); [lia|done]. }
  rewrite Ea in E, Hsm; cbn [fst snd] in E, Hsm; rewrite decide_False in E by discriminate.
  eexists; split; [exact E|]; split; [|apply parseResponse_response; [done|done|apply Hf]].
  rewrite (dispatch_read_solo key [] [] clientId seq _ g'); [|apply Hf| |done].
  - rewrite Hsm; unfold KvStore_get; cbn [data_map]; by rewrite lookup_insert_eq.
  - apply group_set_eq.
Qed.

Lemma put_then_get_witness :
  exists m1, dispatch (fun m => m) (requestPayload 1 (str "k") (str "v") [] 42 1) two_shards = Ok (m1, response 0 [] (str "OK")) /\
    dispatch (fun m => m) (requestPayload 0 (str "k") [] [] 42 1) m1 = Ok (m1, response 0 [] (str "v")) /\
    parseResponse (response 0 [] (str "v")) = Ok (0, [], str "v").
Proof.
  apply (put_then_get (str "k") (str "v") 42 1 two_shards (solo_node 20 []));
    [by repeat split|vm_compute; reflexivity|apply solo_node_solo|reflexivity|exact I].
Defined.

(** ** Writes that are answered and lost *)

(** A server process with one shard, on one node of a group. *)
Definition serverOf (n : RaftNode KvStore) : ShardManager :=
  mkShardManager (addShard 0 (HashRing_init 1)) {[0 := n]}.

(** Node 1 is elected by node 2 and commits its no-op. *)
Definition before_write : list Event :=
  [EvTick 1 1000; EvDeliver 0 1000; EvDeliver 1 1000; EvDeliver 1 1000; EvDeliver 2 1000].

(** Node 2 is elected by node 3 in term 2, replaces the entry of node 1 at index 2
    by its own no-op and commits it. *)
Definition during_wait : list Event :=
  [EvTick 2 4000; EvDeliver 3 4000; EvDeliver 3 4000; EvDeliver 3 4000; EvDeliver 4 4000;
   EvTick 2 5000; EvDeliver 4 5000].

(** The server acknowledges a write that does not exist.  A client's [put]
    reaches node 1 while it leads term 1 and is appended at index 2; while the
    server waits, node 2 takes over and index 2 is committed with another entry.
    [waitApplied] only looks at the index, so the client is told status 0, and no
    node of the group has the command in its log or the key in its store. *)
Theorem acknowledged_write_lost :
  exists c1 n1 m1 w sends c2 n2 n3 n1',
    run3 before_write = Some c1 /\ nodes c1 !! 1 = Some n1 /\
    dispatch_begin (requestPayload 1 (str "k") (str "a") [] 42 1) (serverOf n1) = Ok (m1, inr w, sends) /\
    (exists n, group 0 m1 = Some n /\
       run sample_cfg KvStore_init during_wait (update c1 1 n (net c1)) = Some c2) /\
    nodes c2 !! 1 = Some n1' /\ nodes c2 !! 2 = Some n2 /\ nodes c2 !! 3 = Some n3 /\
    parseResponse (dispatch_end w (serverOf n1')) = Ok (0, [], []) /\
    Forall (fun n => KvStore_get (str "k") (sm_ n) = None /\ Forall (fun e => e_type e = NoOp) (entries_ (log_ n)))
      [n1'; n2; n3].
Proof.
  do 9 eexists; split; [vm_compute; reflexivity|]; split; [vm_compute; reflexivity|].
  split; [vm_compute; reflexivity|].
  split; [eexists; split; [vm_compute; reflexivity|vm_compute; reflexivity]|].
  do 3 (split; [vm_compute; reflexivity|]); split; [vm_compute; reflexivity|].
  repeat constructor.
Qed.

(** ** Retries *)

(** The payloads of a write carry consecutive numbers. *)
Lemma requestLoop_payloads net servers op key value expect clientId k attempt addr seq r seq' ps :
  op <> 0 -> requestLoop net servers op key value expect clientId k attempt addr seq = Ok (r, seq', ps) ->
  (length ps <= k)%nat /\
  forall i p, ps !! i = Some p -> p = requestPayload op key value expect clientId (Nat.iter i (fun s => add64 s 1) seq).
Proof.
  intros Hop; revert attempt addr seq r seq' ps; induction k as [|k IH]; intros attempt addr seq r seq' ps;
    cbn [requestLoop]; [intros [= <- <- <-]; split; [done|by intros]|].
  destruct (N.eqb_spec op 0) as [|_]; [done|].
  assert (forall addr ps, (exists r seq', ('(r, s1, ps1) ← requestLoop net servers op key value expect clientId k (S attempt) addr (add64 seq 1);
            mret (r, s1, [requestPayload op key value expect clientId seq] ++ ps1)) = Ok (r, seq', ps)) ->
    (length ps <= S k)%nat /\ forall i p, ps !! i = Some p ->
      p = requestPayload op key value expect clientId (Nat.iter i (fun s => add64 s 1) seq)) as Hagain.
  { intros addr' ps' (r' & s' & Hr); inv_ok; destruct x as [[r1 s1] ps1]; inv_ok; simplify_eq.
    match goal with H : requestLoop _ _ _ _ _ _ _ _ _ _ _ = _ |- _ => apply IH in H as [Hl Hi] end.
    split; [simpl; lia|]; intros [|i] p; cbn [app lookup list_lookup]; [by intros [= <-]|].
    intros Hp; rewrite (Hi _ _ Hp), Nat.iter_succ_r; done. }
  assert (forall p i q, [p] !! i = Some q -> p = requestPayload op key value expect clientId seq ->
    q = requestPayload op key value expect clientId (Nat.iter i (fun s => add64 s 1) seq)) as Hone.
  { intros p [|i] q; cbn; [by intros [= <-]|done]. }
  destruct (net attempt addr _) as [| |resp]; intros Hr.
  - inv_ok; destruct x as [[r1 s1] ps1]; inv_ok; simplify_eq.
    match goal with H : requestLoop _ _ _ _ _ _ _ _ _ _ _ = _ |- _ => apply IH in H as [Hl Hi] end.
    split; [simpl; lia|done].
  - eapply Hagain; eauto.
  - inv_ok; destruct x as [[status hint] val].
    destruct (status =? 0); [inv_ok; simplify_eq; split; [simpl; lia|intros i p Hp; by eapply Hone]|].
    destruct (_ && _); [eapply Hagain; eauto|inv_ok; simplify_eq; split; [simpl; lia|intros i p Hp; by eapply Hone]].
Qed.

(** What a write puts on the wire.  A call of [put], [del] or [cas] makes at
    most five attempts, and the attempts that get as far as writing carry
    consecutive sequence numbers: a retry of the same call never repeats the
    number of the attempt before it, so the store cannot recognise it. *)
Theorem write_attempts (net : nat -> bytes -> bytes -> Attempt) (op : N) (key value expect : bytes) (c : KvClient)
    (r : option bytes) (c' : KvClient) (ps : list bytes)
    (Hop : op <> 0) (Hr : request net op key value expect c = Ok (r, c', ps)) :
  (length ps <= 5)%nat /\
  forall i p, ps !! i = Some p ->
    p = requestPayload op key value expect (cl_clientId c) (Nat.iter i (fun s => add64 s 1) (cl_seq c)).
Proof.
  unfold request in Hr; destruct (cl_shardServers c !! _) as [[|a servers]|]; [inv_ok; simplify_eq; split; [simpl; lia|done]| |
    inv_ok; simplify_eq; split; [simpl; lia|done]].
  inv_ok; destruct x as [[r1 s1] ps1]; inv_ok; simplify_eq; by eapply requestLoop_payloads.
Qed.

(** ** A retry that is executed twice *)
Definition retry_client : KvClient := mkKvClient (addShard 0 (HashRing_init 1)) {[0 := [str "a"]]} 42 1.

(** The answer to the first attempt is lost. *)
Definition lossy (attempt : nat) (addr payload : bytes) : Attempt :=
  match attempt with O => IoError | _ => Answer (response 0 [] (str "OK")) end.

Lemma write_attempts_witness :
  exists ps c', put lossy (str "k") (str "a") retry_client = Ok (Some (str "OK"), c', ps) /\ (length ps <= 5)%nat /\
    ps !! 1%nat = Some (requestPayload 1 (str "k") (str "a") [] 42 2).
Proof.
  do 2 eexists; split; [vm_compute; reflexivity|]; split; [|vm_compute; reflexivity].
  refine (proj1 (write_attempts lossy 1 (str "k") (str "a") [] retry_client _ _ _ ltac:(discriminate) _)).
  vm_compute; reflexivity.
Defined.

(** A retried write is executed twice.  The client's [put k a] is executed and
    its answer is lost; another client puts [k b] and is answered; the retry of
    the first call, a success for its caller, then sets [k] back to [a].  With the
    number of the first attempt it would have left [b]. *)
Theorem retry_executed_twice :
  exists p1 p2 c' m1 m2 m3,
    put lossy (str "k") (str "a") retry_client = Ok (Some (str "OK"), c', [p1; p2]) /\
    dispatch (fun m => m) p1 (serverOf (solo_node 10 [])) = Ok (m1, response 0 [] (str "OK")) /\
    dispatch (fun m => m) (requestPayload 1 (str "k") (str "b") [] 43 1) m1 = Ok (m2, response 0 [] (str "OK")) /\
    dispatch (fun m => m) p2 m2 = Ok (m3, response 0 [] (str "OK")) /\
    dispatch (fun m => m) (requestPayload 0 (str "k") [] [] 43 2) m3 = Ok (m3, response 0 [] (str "a")) /\
    exists m3', dispatch (fun m => m) p1 m2 = Ok (m3', response 0 [] (str "OK")) /\
      dispatch (fun m => m) (requestPayload 0 (str "k") [] [] 43 2) m3' = Ok (m3', response 0 [] (str "b")).
Proof.
  do 6 eexists; do 5 (split; [vm_compute; reflexivity|]).
  eexists; split; [vm_compute; reflexivity|vm_compute; reflexivity].
Qed.
