(* ===== verification/RaftRaces.v ===== *)
(** * Schedules of threads that break the promises of the code

    Concrete interleavings of [RaftThreads], each from fresh directories, without a
    lost, repeated or reordered message and without a crash (one ends with a
    restart): what can happen in the gaps where the methods of
    [raft/raft_node.cpp] do not hold [mu_]. *)
From stdpp Require Import base tactics list gmap numbers strings sorting.
From Stdlib Require Import Ascii NArith Lia.
From S2P Require Import Prelude.
From S2P Require Import Buffer.
From S2P Require Import Types.
From S2P Require Import PersistentLog.
From S2P Require Import StateMachine.
From S2P Require Import KvStore.
From S2P Require Import RaftNode.
From S2P Require Import RaftCommit.
From S2P Require Import RaftHandlers.
From S2P Require Import Cluster.
From S2P Require Import RaftThreads.
From S2P Require Import RaftThreadsSafety.
From S2P Require Import RaftThreadsElection.
From S2P Require Import KvServer.
From S2P Require Import Client.

Local Open Scope N_scope.

(** ** The groups *)
Definition threads3 (evs : list TEvent) : option (Threads (S := KvStore)) :=
  run_threads sample_cfg KvStore_init evs (freshThreads sample_cfg KvStore_init (sample_opts <$> [1; 2; 3])).

Definition cfg1 : ClusterConfig := mkClusterConfig [1] [].

Definition threads1 (evs : list TEvent) : option (Threads (S := KvStore)) :=
  run_threads cfg1 KvStore_init evs (freshThreads cfg1 KvStore_init [sample_opts 1]).

Definition nodeOf (f : Threads (S := KvStore)) (i : NodeId) : option (RaftNode KvStore) := nodes (cluster f) !! i.

(** What the proofs look at in the last state of a schedule. *)
Definition leads (f : Threads (S := KvStore)) (i : NodeId) : option (Role * Term) :=
  n ← nodeOf f i; Some (role_ n, nodeTerm n).

Definition stored (f : Threads (S := KvStore)) (i : NodeId) : option (LogIndex * option bytes) :=
  n ← nodeOf f i; Some (lastApplied_ n, KvStore_get (str "k") (sm_ n)).

Definition logged (f : Threads (S := KvStore)) (i : NodeId) : option (LogIndex * list bytes) :=
  n ← nodeOf f i; Some (snapshotIndex_ (log_ n), e_data <$> entries_ (log_ n)).

(** What the server answers a client whose write is at [index]. *)
Definition answered (f : Threads (S := KvStore)) (i : NodeId) (index : LogIndex) : option (outcome (N * bytes * bytes)) :=
  n ← nodeOf f i; Some (parseResponse (dispatch_end (WaitWrite 0 index) (serverOf n))).

Definition write (op : CmdOp) (expect value : string) (client : N) : bytes :=
  KvCommand_encode (mkKvCommand op (str "k") (str value) (str expect) client 1).

(** ** Elections *)

(** Node 1 stands in term 1 and node 2 votes for it.  The callback that counts the
    vote releases the mutex to call [becomeLeader]; the timer of node 1 stands for
    term 2; [becomeLeader] finds a candidate and takes office.  Node 3 stands in
    terms 1 and 2, and node 2 elects it. *)
Definition elected_in_gap : list TEvent :=
  tickFor 1 1000 0 8 ++ deliverFor 0 0 4 ++ deliverFor 1 0 1 ++ tickFor 1 2000 1 3 ++ advanceBy 0 1 ++
  tickFor 3 1000 2 8 ++ tickFor 3 2000 2 8 ++ deliverFor 4 2 4 ++ deliverFor 4 2 2.

(** The gap in the vote callback breaks election safety: in a group
    of three, without a lost or repeated message and without a crash, nodes 1 and 3
    both lead term 2. *)
Theorem two_leaders_in_gap :
  exists f, threads3 elected_in_gap = Some f /\ leads f 1 = Some (Leader, 2) /\ leads f 3 = Some (Leader, 2).
Proof.
  destruct (replayed (fun f => (leads f 1, leads f 3)) (threads3 elected_in_gap) (Some (Leader, 2), Some (Leader, 2)))
    as (f & Hf & Hv); [vm_compute; reflexivity|]; exists f; clear -Hf Hv; rewrite !pair_eq in Hv; tauto.
Qed.

(** It is the schedule that [interleaved_election_safety] excludes. *)
Lemma gap_is_excluded :
  run_orderly sample_cfg KvStore_init elected_in_gap (freshThreads sample_cfg KvStore_init (sample_opts <$> [1; 2; 3])) = None.
Proof. vm_compute; reflexivity. Qed.

(** ** Applying *)

(** A group of one: node 1 is elected and commits its no-op; a client's [put a] is
    appended at index 2, committed and taken off the log, and its thread stops
    before it calls the state machine. *)
Definition put_taken : list TEvent :=
  tickFor 1 1000 0 13 ++ [TPropose 1 (write Put "" "a" 7)] ++ advanceBy 0 3.

(** A second [put b] runs through, then the first one goes on. *)
Definition apply_overtaken : list TEvent :=
  put_taken ++ [TPropose 1 (write Put "" "b" 8)] ++ advanceBy 1 6 ++ advanceBy 0 3.

(** Entries can be applied out of order: [applyCommittedEntries]
    takes entries under the mutex and applies them without it.  Node 1 has [put a]
    at index 2 and [put b] at index 3, both applied and both threads finished, and
    its store holds [a]. *)
Theorem applied_out_of_order :
  exists f, threads1 apply_overtaken = Some f /\ length (threads f) = 0%nat /\
    logged f 1 = Some (0, [[]; write Put "" "a" 7; write Put "" "b" 8]) /\ stored f 1 = Some (3, Some (str "a")).
Proof.
  destruct (replayed (fun f => (length (threads f), logged f 1, stored f 1)) (threads1 apply_overtaken)
    (0%nat, Some (0, [[]; write Put "" "a" 7; write Put "" "b" 8]), Some (3, Some (str "a"))))
    as (f & Hf & Hv); [vm_compute; reflexivity|]; exists f; clear -Hf Hv; rewrite !pair_eq in Hv; tauto.
Qed.

(** A snapshot is taken in the same gap. *)
Definition snapshot_in_gap : list TEvent :=
  put_taken ++ [TSnapshot 1] ++ advanceBy 1 4 ++ advanceBy 0 3.

(** A snapshot can miss an applied command: [lastApplied_] counts
    entries that were taken but not yet applied.  The client's write is applied and
    acknowledged; after a restart the node starts from a snapshot at index 2 that
    does not have it, and the log no longer has the entry. *)
Theorem snapshot_misses_command :
  exists f f', threads1 snapshot_in_gap = Some f /\ length (threads f) = 0%nat /\
    stored f 1 = Some (2, Some (str "a")) /\ answered f 1 2 = Some (Ok (0, [], str "OK")) /\
    threads1 (snapshot_in_gap ++ [TRestart 1 [] 5000]) = Some f' /\
    logged f' 1 = Some (2, []) /\ stored f' 1 = Some (2, None).
Proof.
  destruct (replayed (fun f => (length (threads f), stored f 1, answered f 1 2)) (threads1 snapshot_in_gap)
    (0%nat, Some (2, Some (str "a")), Some (Ok (0, [], str "OK")))) as (f & Hf & Hv); [vm_compute; reflexivity|].
  destruct (replayed (fun f => (logged f 1, stored f 1)) (threads1 (snapshot_in_gap ++ [TRestart 1 [] 5000]))
    (Some (2, []), Some (2, None))) as (f' & Hf' & Hv'); [vm_compute; reflexivity|].
  exists f, f'; clear -Hf Hv Hf' Hv'; rewrite !pair_eq in Hv; rewrite !pair_eq in Hv'; tauto.
Qed.

(** The thread of [put a] at index 2 commits and takes also the [cas] at index 3
    of another client, which expects [z]. *)
Definition cas_taken : list TEvent :=
  tickFor 1 1000 0 13 ++ [TPropose 1 (write Put "" "a" 7)] ++ advanceBy 0 1 ++
  [TPropose 1 (write Cas "z" "b" 8)] ++ advanceBy 1 1 ++ advanceBy 0 2 ++ advanceBy 1 2.

(** [waitApplied] can return before the command has run: the second
    client's [propose] has returned index 3, the server answers status 0, and the
    command, when it is applied, is a mismatch. *)
Theorem cas_answered_early :
  exists f f', threads1 cas_taken = Some f /\ answered f 1 3 = Some (Ok (0, [], [])) /\
    threads1 (cas_taken ++ advanceBy 0 5) = Some f' /\ length (threads f') = 0%nat /\
    answered f' 1 3 = Some (Ok (3, [], [])) /\ stored f' 1 = Some (3, Some (str "a")).
Proof.
  destruct (replayed (fun f => answered f 1 3) (threads1 cas_taken) (Some (Ok (0, [], [])))) as (f & Hf & Hv);
    [vm_compute; reflexivity|].
  destruct (replayed (fun f => (length (threads f), answered f 1 3, stored f 1)) (threads1 (cas_taken ++ advanceBy 0 5))
    (0%nat, Some (Ok (3, [], [])), Some (3, Some (str "a")))) as (f' & Hf' & Hv'); [vm_compute; reflexivity|].
  exists f, f'; clear -Hf Hv Hf' Hv'; rewrite !pair_eq in Hv'; tauto.
Qed.
