(* ===== verification/Text.v ===== *)
(** * Text: the parts of [std::string] the command line uses

    [find] and [substr] with their [size_t] arithmetic, [std::getline] on a
    [stringstream], [std::stoul], [std::stoi] and [std::to_string].  The last two
    are inverse to each other: [stoul_to_string], [stoi_to_string]. *)
From stdpp Require Import base tactics list numbers strings pretty.
From Stdlib Require Import Ascii NArith ZArith Lia.
From S2P Require Import Prelude.

Local Open Scope N_scope.

Definition npos : N := U64 - 1.

(** ** Searching and cutting *)
Fixpoint find_from (c : ascii) (s : bytes) (i : N) : N :=
  match s with
  | [] => npos
  | x :: s' => if bool_decide (x = c) then i else find_from c s' (i + 1)
  end.

(** [s.find(c, pos)] *)
Definition str_find (c : ascii) (s : bytes) (pos : N) : N :=
  if nlen s <? pos then npos else find_from c (drop (N.to_nat pos) s) pos.

(** [s.substr(pos, n)] *)
Definition substr (pos n : N) (s : bytes) : outcome bytes :=
  if nlen s <? pos then Throw "basic_string::substr"
  else Ok (take (N.to_nat (N.min n (nlen s - pos))) (drop (N.to_nat pos) s)).

(** The lines [std::getline(ss, tok, c)] reads until it fails; [cur] is the
    beginning of the current one. *)
Fixpoint getlines (c : ascii) (cur s : bytes) : list bytes :=
  match s with
  | [] => match cur with [] => [] | _ => [cur] end
  | x :: s' => if bool_decide (x = c) then cur :: getlines c [] s' else getlines c (cur ++ [x]) s'
  end.

(** ** Numbers *)
Definition isspace (c : ascii) : bool := (N_of_ascii c =? 32) || ((9 <=? N_of_ascii c) && (N_of_ascii c <=? 13)).
Definition isdigit (c : ascii) : bool := (48 <=? N_of_ascii c) && (N_of_ascii c <=? 57).

Fixpoint skipSpaces (s : bytes) : bytes :=
  match s with
  | c :: s' => if isspace c then skipSpaces s' else s
  | [] => []
  end.

(** The value of the leading digits, and whether there is one. *)
Fixpoint digits (s : bytes) (acc : N) (any : bool) : N * bool :=
  match s with
  | c :: s' => if isdigit c then digits s' (acc * 10 + (N_of_ascii c - 48)) true else (acc, any)
  | [] => (acc, any)
  end.

(** Sign and magnitude as [strtoul] and [strtol] read them in base 10. *)
Definition readNumber (s : bytes) : option (bool * N) :=
  let '(neg, s) :=
    match skipSpaces s with
    | c :: s' => if bool_decide (c = "-"%char) then (true, s')
                 else if bool_decide (c = "+"%char) then (false, s') else (false, c :: s')
    | [] => (false, [])
    end in
  let '(v, any) := digits s 0 false in
  if any then Some (neg, v) else None.

Definition stoul (s : bytes) : outcome N :=
  match readNumber s with
  | None => Throw "stoul: invalid_argument"
  | Some (neg, v) =>
      if U64 <=? v then Throw "stoul: out_of_range"
      else Ok (if neg then sub64 0 v else v)
  end.

Definition stoi (s : bytes) : outcome Z :=
  match readNumber s with
  | None => Throw "stoi: invalid_argument"
  | Some (neg, v) =>
      let z := if neg then (- Z.of_N v)%Z else Z.of_N v in
      if ((z <? -2147483648) || (2147483647 <? z))%Z then Throw "stoi: out_of_range" else Ok z
  end.

(** [std::to_string] *)
Definition to_string (n : N) : bytes := str (pretty n).
Definition to_string_int (z : Z) : bytes := str (pretty z).

(** ** Facts *)
Lemma digit_char n : n < 10 ->
  isdigit (pretty_N_char n) = true /\ N_of_ascii (pretty_N_char n) - 48 = n /\ isspace (pretty_N_char n) = false.
Proof.
  intros Hn; assert (n ∈ [0;1;2;3;4;5;6;7;8;9]) as Hin by (rewrite !elem_of_cons; lia).
  rewrite !elem_of_cons, elem_of_nil in Hin; repeat destruct Hin as [-> | Hin]; done.
Qed.

Lemma digits_go x s acc : 0 < x ->
  digits (str (pretty_N_go x s)) 0 acc = digits (str s) x true.
Proof.
  revert s acc; induction (N.lt_wf_0 x) as [x _ IH]; intros s acc Hx.
  rewrite pretty_N_go_step by done.
  assert (x mod 10 < 10) as Hm by (apply N.mod_lt; lia); destruct (digit_char _ Hm) as (H1 & H2 & _).
  pose proof (N.div_mod x 10); destruct (decide (x / 10 = 0)) as [E|E].
  - rewrite E, pretty_N_go_0; unfold str; simpl; rewrite H1, H2; f_equal; lia.
  - rewrite IH; [|apply N.div_lt; lia|lia]; unfold str; simpl; rewrite H1, H2; f_equal; lia.
Qed.

Lemma digits_to_string n : digits (to_string n) 0 false = (n, true).
Proof.
  unfold to_string, pretty, pretty_N; case_decide as E; [by subst|].
  rewrite digits_go by lia; done.
Qed.

Lemma go_digits x s : Forall (fun c => isdigit c = true) (str s) -> Forall (fun c => isdigit c = true) (str (pretty_N_go x s)).
Proof.
  revert s; induction (N.lt_wf_0 x) as [x _ IH]; intros s Hs; destruct (decide (x = 0)) as [->|Hx]; [by rewrite pretty_N_go_0|].
  rewrite pretty_N_go_step by lia; apply IH; [apply N.div_lt; lia|].
  constructor; [|done]; apply digit_char, N.mod_lt; lia.
Qed.

Lemma to_string_digits n : Forall (fun c => isdigit c = true) (to_string n).
Proof.
  unfold to_string, pretty, pretty_N; case_decide; [by repeat constructor|]; apply go_digits; constructor.
Qed.

Lemma to_string_cons n : exists c s, to_string n = c :: s /\ isdigit c = true.
Proof.
  pose proof (to_string_digits n) as Hd; pose proof (digits_to_string n) as Hv.
  destruct (to_string n) as [|c s]; [done|]; exists c, s; split; [done|]; by apply Forall_cons in Hd as [? _].
Qed.

Lemma isdigit_other c : isdigit c = true -> isspace c = false /\ c <> "-"%char /\ c <> "+"%char.
Proof.
  unfold isdigit, isspace; rewrite andb_true_iff, !N.leb_le; intros [H1 H2]; split_and!.
  - rewrite orb_false_iff, andb_false_iff, N.eqb_neq, !N.leb_gt; lia.
  - intros ->; vm_compute in H1; by apply H1.
  - intros ->; vm_compute in H1; by apply H1.
Qed.

Lemma readNumber_to_string n : readNumber (to_string n) = Some (false, n).
Proof.
  destruct (to_string_cons n) as (c & s & E & Hc); destruct (isdigit_other c Hc) as (H1 & H2 & H3).
  unfold readNumber; pose proof (digits_to_string n) as Hv; rewrite E in *; cbn [skipSpaces]; rewrite H1.
  rewrite !bool_decide_eq_false_2 by done; by rewrite Hv.
Qed.

(** What [to_string] writes, [stoul] and [stoi] read. *)
Lemma stoul_to_string n : n < U64 -> stoul (to_string n) = Ok n.
Proof. intros Hn; unfold stoul; rewrite readNumber_to_string; by destruct (N.leb_spec U64 n); [lia|]. Qed.

Lemma stoi_to_string n : n < 2147483648 -> stoi (to_string n) = Ok (Z.of_N n).
Proof.
  intros Hn; unfold stoi; rewrite readNumber_to_string; cbv zeta.
  destruct (Z.ltb_spec (Z.of_N n) (-2147483648)), (Z.ltb_spec 2147483647 (Z.of_N n)); try lia; done.
Qed.

Lemma to_string_int_N n : to_string_int (Z.of_N n) = to_string n.
Proof. unfold to_string_int, to_string; by destruct n. Qed.

(** ** Cutting at a character *)
Lemma find_from_app c a b i : c ∉ a -> find_from c (a ++ c :: b) i = i + nlen a.
Proof.
  revert i; induction a as [|x a IH]; intros i Hn; simpl.
  - rewrite bool_decide_eq_true_2 by done; unfold nlen; simpl; lia.
  - apply not_elem_of_cons in Hn as [Hx Hn]; rewrite bool_decide_eq_false_2 by congruence.
    rewrite IH by done; unfold nlen; simpl; lia.
Qed.

Lemma getlines_line c cur a s : c ∉ a -> getlines c cur (a ++ c :: s) = (cur ++ a) :: getlines c [] s.
Proof.
  revert cur; induction a as [|x a IH]; intros cur Hn; simpl.
  - by rewrite bool_decide_eq_true_2, app_nil_r by done.
  - apply not_elem_of_cons in Hn as [Hx Hn]; rewrite bool_decide_eq_false_2 by congruence.
    rewrite IH by done; by rewrite <- app_assoc.
Qed.

Lemma getlines_last c cur a : c ∉ a -> getlines c cur a = match cur ++ a with [] => [] | l => [l] end.
Proof.
  revert cur; induction a as [|x a IH]; intros cur Hn; simpl; [rewrite app_nil_r; by destruct cur|].
  apply not_elem_of_cons in Hn as [Hx Hn]; rewrite bool_decide_eq_false_2 by congruence.
  rewrite IH by done; by rewrite <- app_assoc.
Qed.

Lemma not_in_number c n : isdigit c = false -> c ∉ to_string n.
Proof.
  intros Hc Hin; pose proof (to_string_digits n) as Hd; rewrite Forall_forall in Hd.
  rewrite (Hd _ Hin) in Hc; done.
Qed.

Lemma substr_mid pos n a b c s :
  s = a ++ b ++ c -> pos = nlen a -> n = nlen b -> substr pos n s = Ok b.
Proof.
  intros -> -> ->; unfold substr, nlen; rewrite !length_app.
  destruct (N.ltb_spec (N.of_nat (length a + (length b + length c))) (N.of_nat (length a))); [lia|].
  rewrite Nat2N.id, drop_app_length, take_app_length'; [done|lia].
Qed.

Lemma substr_tail pos n a b s : s = a ++ b -> pos = nlen a -> nlen b <= n -> substr pos n s = Ok b.
Proof.
  intros -> -> Hn; unfold substr, nlen in *; rewrite !length_app.
  destruct (N.ltb_spec (N.of_nat (length a + length b)) (N.of_nat (length a))); [lia|].
  rewrite Nat2N.id, drop_app_length, take_ge; [done|lia].
Qed.

Lemma str_find_app c pre a b s pos :
  s = pre ++ a ++ c :: b -> pos = nlen pre -> c ∉ a -> str_find c s pos = pos + nlen a.
Proof.
  intros -> -> Hn; unfold str_find; case (N.ltb_spec _ _); intros Hlt; [unfold nlen in Hlt; rewrite length_app in Hlt; lia|].
  unfold nlen at 1; rewrite Nat2N.id, drop_app_length; by apply find_from_app.
Qed.
