(* ===== verification/ClientPool.v ===== *)
(** * client/client.h: pooled connections and client identities

    [pooledConn], [dropConn] and the retry loop of [request] with its connections;
    one attempt put together with the event loop of the server; and
    [nextClientId]. *)
From stdpp Require Import base tactics list gmap numbers strings sorting.
From Stdlib Require Import Ascii NArith ZArith Lia.
From S2P Require Import Prelude.
From S2P Require Import Buffer.
From S2P Require Import KvStore.
From S2P Require Import HashRing.
From S2P Require Import Wire.
From S2P Require Import PeerTransport.
From S2P Require Import ShardManager.
From S2P Require Import KvServer.
From S2P Require Import Client.
From S2P Require Import Text.
From S2P Require Import Sockets.
From S2P Require Import EventLoop.
From S2P Require Import KvServerLoop.

Local Open Scope N_scope.

(** ** The pool *)

(** [conns_]; [None] is a descriptor of [-1]. *)
Abbreviation Conns := (gmap bytes (option Conn)).

(** Without a colon [pos] is [npos] and [pos + 1] is 0. *)
Definition splitAddr (addr : bytes) : outcome (bytes * Z) :=
  let pos := str_find ":"%char addr 0 in
  host ← substr 0 pos addr;
  rest ← substr (add64 pos 1) npos addr;
  port ← stoi rest;
  mret (host, port).

Definition pooledConn (connectTo : bytes -> Z -> option Conn) (addr : bytes) (p : Conns) : outcome (option Conn * Conns) :=
  match p !! addr with
  | Some (Some c) => mret (Some c, p)
  | _ => '(host, port) ← splitAddr addr;
         let c := connectTo host port in
         mret (c, <[addr := c]> p)
  end.

Definition dropConn (addr : bytes) (p : Conns) : Conns :=
  match p !! addr with Some _ => <[addr := None]> p | None => p end.

(** What the network does in attempt [i]: new connections, and what happens on the
    connection between the write and the read. *)
Record World := mkWorld { w_connectTo : nat -> bytes -> Z -> option Conn; w_peer : nat -> Conn -> Conn }.

(** One attempt up to the answer. *)
Definition attemptOn (wd : World) (i : nat) (addr payload : bytes) (p : Conns) : outcome (Attempt * Conns) :=
  '(c, p) ← pooledConn (w_connectTo wd i) addr p;
  match c with
  | None => mret (NoConn, p)
  | Some c =>
      let '(ok, c) := writeFrame WClientRequest payload c in
      if ok then
        match readFrame (w_peer wd i c) with
        | Some (_, resp, c) => mret (Answer resp, <[addr := Some c]> p)
        | None => mret (IoError, dropConn addr p)
        end
      else mret (IoError, dropConn addr p)
  end.

(** The loop of [request] with its connections. *)
Fixpoint requestLoopOn (wd : World) (servers : list bytes) (op : N) (key value expect : bytes) (clientId : N)
    (k attempt : nat) (addr : bytes) (seq : N) (p : Conns) : outcome (option bytes * N * list bytes * Conns) :=
  match k with
  | O => mret (None, seq, [], p)
  | S k' =>
      let payload := requestPayload op key value expect clientId seq in
      let seq' := if op =? 0 then seq else add64 seq 1 in
      '(a, p) ← attemptOn wd attempt addr payload p;
      let again addr seq sent :=
        '(r, seq, ps, p) ← requestLoopOn wd servers op key value expect clientId k' (S attempt) addr seq p;
        mret (r, seq, sent ++ ps, p) in
      match a with
      | NoConn => again (default [] (servers !! (attempt mod length servers)%nat)) seq []
      | IoError => again addr seq' [payload]
      | Answer resp =>
          '(status, leaderHint, val) ← parseResponse resp;
          if status =? 0 then mret (Some val, seq', [payload], p)
          else if (status =? 2) && negb (bool_decide (leaderHint = [])) then again leaderHint seq' [payload]
          else mret (None, seq', [payload], p)
      end
  end.

Definition requestOn (wd : World) (op : N) (key value expect : bytes) (c : KvClient) (p : Conns) :
    outcome (option bytes * KvClient * list bytes * Conns) :=
  match cl_shardServers c !! shardFor key (cl_ring c) with
  | Some (a :: servers) =>
      '(r, seq, ps, p) ← requestLoopOn wd (a :: servers) op key value expect (cl_clientId c) 5 0 a (cl_seq c) p;
      mret (r, mkKvClient (cl_ring c) (cl_shardServers c) (cl_clientId c) seq, ps, p)
  | _ => mret (None, c, [], p)
  end.

(** ** Identities *)

(** [counter * 1000003 ^ &counter]; [address] is where the linker and the loader
    have put the counter. *)
Definition clientIdOf (address counter : N) : N := N.lxor (u64 (counter * 1000003)) address.

Definition nextClientId (address counter : N) : N * N := (clientIdOf address counter, add64 counter 1).

Definition inverse : N := 16109806864799210091.

Lemma clientIdOf_inverse address counter :
  counter < U64 -> u64 (N.lxor (clientIdOf address counter) address * inverse) = counter.
Proof.
  intros Hc; unfold clientIdOf; rewrite N.lxor_assoc, N.lxor_nilpotent, N.lxor_0_r; unfold u64.
  rewrite N.Div0.mul_mod_idemp_l, <- N.mul_assoc, <- N.Div0.mul_mod_idemp_r.
  change ((1000003 * inverse) mod U64) with 1; rewrite N.mul_1_r; by apply N.mod_small.
Qed.

(** ** One attempt against the event loop of the server *)

(** The server of descriptor [fd] sees what the client has written after the first
    [before] bytes, in segments [cut], as one readable event; what the server has
    written in it arrives behind what the client has not read yet. *)
Definition serverSide (env : ShardManager -> ShardManager) (w : nat) (fd : Fd) (cut cut' : bytes -> list bytes)
    (s : Server) (before : nat) (c : Conn) : Conn :=
  match handleReadable (fun _ => env) w fd ((Data <$> cut (drop before (sent c))) ++ [WouldBlock]) s, socks s !! fd with
  | Some (Ok s'), Some k =>
      match socks s' !! fd with
      | Some k' => mkConn (inbox c ++ cut' (drop (length (sent (out k))) (sent (out k')))) (accepts c) (sent c)
      | None => c
      end
  | _, _ => c
  end.

Lemma fillBuffer_data bs inbuf : fillBuffer ((Data <$> bs) ++ [WouldBlock]) inbuf = Some (inbuf ++ concat bs).
Proof.
  revert inbuf; induction bs as [|b bs IH]; intros inbuf; simpl; [by rewrite app_nil_r|].
  by rewrite IH, app_assoc.
Qed.

(** A readable event that brings one request. *)
Lemma handleReadable_one env w fd payload resp s m k bs :
  nlen payload + 5 < U32 -> connState_ s !! fd = Some [] -> socks s !! fd = Some k ->
  concat bs = frame WClientRequest payload -> dispatch env payload (shards_ s) = Ok (m, resp) ->
  exists s' k', handleReadable (fun _ => env) w fd ((Data <$> bs) ++ [WouldBlock]) s = Some (Ok s') /\ shards_ s' = m /\
    connState_ s' !! fd = Some [] /\ socks s' !! fd = Some k' /\ out k' = (writeFrame WClientResponse resp (out k)).2.
Proof.
  intros Hl Hb Hk Hbs Hd; assert (inbufOf fd s = []) as Hi by (unfold inbufOf; by rewrite Hb).
  unfold handleReadable; rewrite fillBuffer_data, Hbs, Hi, app_nil_l; cbn [length drop]; clear Hi.
  set (f := frame WClientRequest payload).
  assert (nextFrame f = Some (payload, [])) as Hf
    by (rewrite <- (app_nil_r f); apply (nextFrame_frame (WClientRequest, payload)); by split).
  assert (exists n, length f = S n) as [n ->] by (destruct f eqn:E; [done|eauto]); clearbody f.
  rewrite serveLoop_S; unfold inbufOf at 1; cbn [connState_ set_socks setInbuf set_connState]; rewrite lookup_insert_eq.
  change (default [] (Some f)) with f; rewrite Hf; cbn [shards_ set_socks setInbuf set_connState]; rewrite Hd.
  rewrite serveLoop_S; unfold inbufOf at 1; cbn [connState_ set_socks set_shards setInbuf set_connState]; rewrite lookup_insert_eq.
  cbn [default from_option nextFrame].
  do 2 eexists; split; [reflexivity|]; cbn; split; [done|]; split; [rewrite lookup_insert_eq; unfold inbufOf; cbn; by rewrite lookup_insert_eq|].
  rewrite !lookup_alter_eq, Hk; split; [reflexivity|].
  unfold writeResponse; cbn [noteReceived out]; by destruct (writeFrame _ _ _).
Qed.

(** ** The theorems *)

(** C25: a request over TCP is [dispatch].  An attempt of the client library that
    finds a pooled connection whose earlier answers have all been read, to a server
    that holds no unfinished request of it and handles the request in one readable
    event, when both sides can write their whole frame: the attempt gets exactly the
    answer that [dispatch] gives to its payload, executed once on the server's state,
    however the bytes are cut into segments on either side; the pool keeps the
    connection, with the request added to what was sent and nothing left to read, and
    the server's buffer is empty again, so that the next request finds the same
    conditions. *)
Theorem request_over_tcp (env : ShardManager -> ShardManager) (cut cut' : bytes -> list bytes) (connects : nat -> bytes -> Z -> option Conn)
    (i w : nat) (addr payload resp : bytes) (fd : Fd) (p : Conns) (c : Conn) (s : Server) (m : ShardManager) (k : Sock)
    (Hc : p !! addr = Some (Some c)) (Hidle : inbox c = []) (Hcut : cuts cut) (Hcut' : cuts cut')
    (Hb : connState_ s !! fd = Some []) (Hk : socks s !! fd = Some k)
    (Hd : dispatch env payload (shards_ s) = Ok (m, resp))
    (Hl : nlen payload + 5 < U32) (Hl' : nlen resp < U32)
    (Hw : (writeFrame WClientRequest payload c).1 = true) (Hw' : (writeFrame WClientResponse resp (out k)).1 = true) :
  (exists c', attemptOn (mkWorld connects (fun _ => serverSide env w fd cut cut' s (length (sent c)))) i addr payload p =
       Ok (Answer resp, <[addr := Some c']> p) /\
     inbox c' = [] /\ sent c' = sent c ++ frame WClientRequest payload) /\
  exists s' k', handleReadable (fun _ => env) w fd ((Data <$> cut (frame WClientRequest payload)) ++ [WouldBlock]) s = Some (Ok s') /\
    shards_ s' = m /\ connState_ s' !! fd = Some [] /\ socks s' !! fd = Some k' /\
    sent (out k') = sent (out k) ++ frame WClientResponse resp.
Proof.
  destruct (handleReadable_one env w fd payload resp s m k (cut (frame WClientRequest payload)) Hl Hb Hk (proj1 (Hcut _)) Hd)
    as (s' & k' & Hh & Hm & Hb' & Hk' & Ho).
  destruct (writeFrame WClientResponse resp (out k)) as [ok' c2] eqn:Ew'; cbn [fst snd] in Hw', Ho; subst ok'.
  apply writeFrame_spec in Ew' as (_ & q' & Hq' & _ & Hall'); rewrite (Hall' eq_refl) in Hq'.
  split; [|exists s', k'; split_and!; try done; by rewrite Ho].
  unfold attemptOn, pooledConn; rewrite Hc; cbn [mbind outcome_bind mret outcome_ret w_peer].
  destruct (writeFrame WClientRequest payload c) as [ok c1] eqn:Ew; cbn [fst] in Hw; subst ok.
  apply writeFrame_spec in Ew as (Hi & q & Hq & _ & Hall); rewrite (Hall eq_refl) in Hq.
  unfold serverSide; rewrite Hq, drop_app_length, Hh, Hk, Hk', Ho, Hq', drop_app_length, Hi, Hidle, app_nil_l.
  destruct (cut_conn cut' (frame WClientResponse resp) (accepts c1) (sent c ++ frame WClientRequest payload) Hcut') as [Hok Hst].
  rewrite <- (app_nil_r (frame WClientResponse resp)) in Hst at 2.
  destruct (readFrame_spec WClientResponse resp _ [] I Hl' Hok Hst) as (c4 & -> & Hs4 & Hok4 & _ & Hse4).
  exists c4; split_and!; [done|by rewrite (stream_nil _ Hok4 Hs4)|exact Hse4].
Qed.

(** Identities within a process.  Two clients of one process have different
    identities unless 2^64 clients were made between them: multiplication by
    1000003 is invertible in 64 bits. *)
Theorem clientIds_distinct (address n1 n2 : N) (H1 : n1 < U64) (H2 : n2 < U64) :
  clientIdOf address n1 = clientIdOf address n2 -> n1 = n2.
Proof.
  intros E; rewrite <- (clientIdOf_inverse address n1 H1), <- (clientIdOf_inverse address n2 H2); by rewrite E.
Qed.

(** ** Witnesses *)

(** A server with one connection and a client that has it in its pool and has made
    a request over it. *)
Definition one_client : Server := acceptRound (Some (7, [100; 100])) (startServer 1 noShards).

Definition earlier : bytes := frame WClientRequest (requestPayload 0 (str "j") [] [] 42 1).
Definition pooled1 : Conn := mkConn [] [100; 100] earlier.
Definition pool1 : Conns := {[str "127.0.0.1:7100" := Some pooled1]}.

Lemma request_over_tcp_witness :
  exists c', attemptOn (mkWorld (fun _ _ _ => None) (fun _ => serverSide (fun m => m) 0 7 bytewise bytewise one_client (length earlier))) 0
    (str "127.0.0.1:7100") (requestPayload 0 (str "k") [] [] 42 1) pool1 =
      Ok (Answer (response 2 [] []), <[str "127.0.0.1:7100" := Some c']> pool1) /\ inbox c' = [].
Proof.
  destruct (request_over_tcp (fun m => m) bytewise bytewise (fun _ _ _ => None) 0 0 (str "127.0.0.1:7100")
    (requestPayload 0 (str "k") [] [] 42 1) (response 2 [] []) 7 pool1 pooled1 one_client noShards
    (mkSock [] [] (mkConn [] [100; 100] []) true)) as [(c' & Hx & Hi & _) _];
    [reflexivity|reflexivity|exact bytewise_cuts|exact bytewise_cuts|reflexivity|reflexivity|vm_compute; reflexivity..|].
  exists c'; split; [exact Hx|exact Hi].
Defined.

(** The first connection attempt fails, the second one is answered. *)
Definition flaky : World :=
  mkWorld (fun i _ _ => match i with O => None | _ => Some (mkConn [] [100; 100] []) end)
    (fun _ c => mkConn [frame WClientResponse (response 0 [] (str "OK"))] (accepts c) (sent c)).

Definition flaky_client : KvClient := mkKvClient (addShard 0 (HashRing_init 1)) {[0 := [str "10.0.0.1:7100"]]} 42 1.

(** The failed connection uses an attempt and no number; the connection of the second
    attempt stays in the pool. *)
Lemma flaky_request :
  match requestOn flaky 1 (str "k") (str "a") [] flaky_client ∅ with
  | Ok (r, c', ps, p') => Some (r, cl_seq c', length ps, inbox <$> mjoin (p' !! str "10.0.0.1:7100"))
  | Throw _ => None
  end = Some (Some (str "OK"), 2, 1%nat, Some []).
Proof. vm_compute; reflexivity. Qed.

Lemma clientIds_distinct_witness : clientIdOf 94000 1 = 929139 /\ (clientIdOf 94000 1 = clientIdOf 94000 2 -> 1 = 2).
Proof. split; [reflexivity|]; apply (clientIds_distinct 94000 1 2); reflexivity. Defined.

(** ** Identities of two processes *)

(** Two processes that have the counter at the same address (a program that is not
    position independent) give their first clients the same identity.  The first
    write of the second client is then taken for a repetition of the first
    client's: it is answered as executed and is not. *)
Lemma same_identity_write_dropped :
  let id1 := clientIdOf 4212840 1 in let id2 := clientIdOf 4212840 1 in
  exists m1 m2,
    dispatch (fun m => m) (requestPayload 1 (str "k") (str "a") [] id1 1) (serverOf (solo_node 10 [])) = Ok (m1, response 0 [] (str "OK")) /\
    dispatch (fun m => m) (requestPayload 1 (str "j") (str "b") [] id2 1) m1 = Ok (m2, response 0 [] (str "OK")) /\
    dispatch (fun m => m) (requestPayload 0 (str "j") [] [] id2 2) m2 = Ok (m2, response 1 [] []).
Proof. cbv zeta; do 2 eexists; do 2 (split; [vm_compute; reflexivity|]); vm_compute; reflexivity. Qed.
