(* ===== verification/Main.v ===== *)
(** * The process entry point

    [server/main.cpp]: the command line, the peers it names, and what [main] builds
    from them before it blocks forever: the transport's address table, the node on
    its directory, started, and the two servers with their sockets and threads.  An
    uncaught exception ends the process ([Throw]). *)
From stdpp Require Import base tactics list gmap numbers strings pretty.
From Stdlib Require Import Ascii NArith ZArith Lia.
From S2P Require Import Prelude.
From S2P Require Import Buffer.
From S2P Require Import Types.
From S2P Require Import PersistentLog.
From S2P Require Import StateMachine.
From S2P Require Import KvStore.
From S2P Require Import RaftNode.
From S2P Require Import HashRing.
From S2P Require Import Wire.
From S2P Require Import Sockets.
From S2P Require Import PeerTransport.
From S2P Require Import PeerServerLoop.
From S2P Require Import ShardManager.
From S2P Require Import KvServerLoop.
From S2P Require Import KvServerThreads.
From S2P Require Import Text.

Local Open Scope N_scope.

(** ** The command line *)
Abbreviation Args := (gmap (list ascii) (list ascii)).

(** One argument: [--name=value]; others are ignored. *)
Definition parseArg (a : bytes) (args : Args) : Args :=
  let pos := str_find "="%char a 0 in
  if bool_decide (take 2 a = str "--") && negb (pos =? npos) then
    match substr 2 (sub64 pos 2) a, substr (add64 pos 1) npos a with
    | Ok k, Ok v => <[k := v]> args
    | _, _ => args
    end
  else args.

Definition parseArgs (argv : list bytes) : Args := fold_left (fun args a => parseArg a args) argv ∅.

(** [args.at(k)] *)
Definition arg_at (k : string) (args : Args) : outcome bytes :=
  match args !! str k with Some v => Ok v | None => Throw "unordered_map::at" end.

(** ** The peers *)
Record Peers := mkPeers { p_cfg : ClusterConfig; p_addrs : gmap N (bytes * Z) }.

Definition parsePeer (tok : bytes) : outcome (NodeId * bytes * Z) :=
  let p1 := str_find ":"%char tok 0 in
  let p2 := str_find ":"%char tok (add64 p1 1) in
  s ← substr 0 p1 tok;
  pid ← stoul s;
  host ← substr (add64 p1 1) (sub64 (sub64 p2 p1) 1) tok;
  s ← substr (add64 p2 1) npos tok;
  port ← stoi s;
  mret (u32 pid, host, port).

Definition addPeer (id : NodeId) (pr : Peers) (p : NodeId * bytes * Z) : Peers :=
  let '(pid, host, port) := p in
  mkPeers
    (mkClusterConfig (voters (p_cfg pr) ++ [pid])
       (addresses (p_cfg pr) ++ [(pid, host ++ str ":" ++ to_string_int port)]))
    (if negb (pid =? id) then <[pid := (host, port)]> (p_addrs pr) else p_addrs pr).

Fixpoint parseTokens (id : NodeId) (toks : list bytes) (pr : Peers) : outcome Peers :=
  match toks with
  | [] => mret pr
  | tok :: toks' => p ← parsePeer tok; parseTokens id toks' (addPeer id pr p)
  end.

Definition parsePeers (id : NodeId) (text : bytes) : outcome Peers :=
  parseTokens id (getlines ","%char [] text) (mkPeers (mkClusterConfig [] []) ∅).

(** ** [main] *)
Record Settings := mkSettings {
  s_id : NodeId;
  s_shardId : N;
  s_walDir : bytes;
  s_peerPort : Z;
  s_clientPort : Z;
  s_peers : Peers
}.

Definition settings (argv : list bytes) : outcome Settings :=
  let args := parseArgs argv in
  i ← arg_at "id" args;
  idn ← stoul i;
  shard ← match args !! str "shard" with Some v => x ← stoul v; mret (u32 x) | None => mret 0 end;
  let walDir := match args !! str "wal" with Some v => v | None => str "/tmp/keyper/" ++ i end in
  pp ← arg_at "peer-port" args;
  peerPort ← stoi pp;
  cp ← arg_at "client-port" args;
  clientPort ← stoi cp;
  text ← arg_at "peers" args;
  peers ← parsePeers (u32 idn) text;
  mret (mkSettings (u32 idn) shard walDir peerPort clientPort peers).

(** The defaults of [RaftOptions]. *)
Definition defaultOptions (i : NodeId) : RaftOptions := mkRaftOptions i 150 300 50 10000.

(** What [main] has built when it blocks. *)
Record Process := mkProcess {
  pc_transport : TcpTransport;
  pc_node : RaftNode KvStore;
  pc_peerServer : PeerProc KvStore;
  pc_shards : ShardManager;
  pc_kvServer : KvProc
}.

(** What the system gives to [main]: the results of the two calls of [socket], and
    the ports it would choose for them. *)
Record Sys := mkSys { peerFd : option Fd; peerEphemeral : N; clientFd : option Fd; clientEphemeral : N; sysHost : Host }.

(** [d] is the contents of the directory, [rng] and [now] the inputs of the node. *)
Definition boot (s : Settings) (d : Dir) (rng : list N) (now : N) (y : Sys) : outcome Process :=
  let transport := mkTcpTransport (s_shardId s) (p_addrs (s_peers s)) ∅ in
  n ← newRaftNode (defaultOptions (s_id s)) (p_cfg (s_peers s)) d KvStore_init rng now;
  let node := start n in
  let peerServer := newPeerServer (s_peerPort s) (registerShard (s_shardId s) node ∅) (sysHost y) in
  let peerServer := startPeerServer (peerFd y) (peerEphemeral y) peerServer in
  let shards := ShardManager_addShard (s_shardId s) node (ShardManager_init 128) in
  let kvServer := startKvServer (s_clientPort s) 4 shards (clientFd y) (clientEphemeral y) (host peerServer) in
  mret (mkProcess transport node peerServer shards kvServer).

(** ** Command lines as they are documented *)
Definition Peer : Type := NodeId * bytes * N.

Definition peerText (p : Peer) : bytes :=
  let '(pid, host, port) := p in to_string pid ++ str ":" ++ host ++ str ":" ++ to_string port.

(** [1:127.0.0.1:6100,2:127.0.0.1:6101] *)
Fixpoint peersText (ps : list Peer) : bytes :=
  match ps with
  | [] => []
  | [p] => peerText p
  | p :: ps' => peerText p ++ ","%char :: peersText ps'
  end.

Definition peer_ok (p : Peer) : Prop :=
  let '(pid, host, port) := p in
  pid < U32 /\ port < 2147483648 /\ (":"%char ∉ host) /\ (","%char ∉ host) /\ nlen (peerText p) < npos.

Lemma parsePeer_text pid host port :
  peer_ok (pid, host, port) -> parsePeer (peerText (pid, host, port)) = Ok (pid, host, Z.of_N port).
Proof.
  intros (Hid & Hport & Hcol & _ & Hlen); unfold parsePeer, peerText in *.
  set (a := to_string pid) in *; set (b := to_string port) in *.
  set (tok := a ++ str ":" ++ host ++ str ":" ++ b) in *.
  assert (nlen a + 1 + nlen host + 1 + nlen b < npos) as Hb.
  { unfold tok, nlen in Hlen; rewrite !length_app in Hlen; unfold nlen; simpl in Hlen; lia. }
  assert (str_find ":"%char tok 0 = nlen a) as ->.
  { rewrite (str_find_app _ [] a (host ++ str ":" ++ b)); [lia|done|done|by apply not_in_number]. }
  assert (U64 = npos + 1) as HU by done.
  rewrite (add64_small (nlen a)) by lia.
  assert (str_find ":"%char tok (nlen a + 1) = nlen a + 1 + nlen host) as ->.
  { rewrite (str_find_app _ (a ++ str ":") host b); [done|unfold tok; by rewrite <- app_assoc| |done].
    unfold nlen; rewrite length_app; simpl; lia. }
  rewrite (add64_small (nlen a + 1 + nlen host)), (sub64_small _ (nlen a)), sub64_small by lia.
  rewrite (substr_mid 0 _ [] a (str ":" ++ host ++ str ":" ++ b)) by done; cbn [mbind outcome_bind].
  change (stoul a) with (stoul (to_string pid)); rewrite stoul_to_string by lia; cbn [mbind outcome_bind].
  rewrite (substr_mid (nlen a + 1) _ (a ++ str ":") host (str ":" ++ b));
    [|unfold tok; by rewrite <- app_assoc|unfold nlen; rewrite length_app; simpl; lia|lia]; cbn [mbind outcome_bind].
  rewrite (substr_tail _ _ (a ++ str ":" ++ host ++ str ":") b);
    [|unfold tok; by rewrite <- !app_assoc|unfold nlen; rewrite !length_app; simpl; lia|lia]; cbn [mbind outcome_bind].
  change (stoi b) with (stoi (to_string port)); rewrite stoi_to_string by done; cbn [mbind outcome_bind].
  by rewrite u32_small.
Qed.

Lemma peerText_line p : peer_ok p -> (","%char ∉ peerText p) /\ peerText p <> [].
Proof.
  destruct p as [[pid host] port]; intros (_ & _ & _ & Hc & _); unfold peerText; split.
  - rewrite !not_elem_of_app; split_and!; try done; (by apply not_in_number) || by_decide.
  - destruct (to_string_cons pid) as (c & s & -> & _); done.
Qed.

Lemma getlines_peers ps : Forall peer_ok ps -> getlines ","%char [] (peersText ps) = peerText <$> ps.
Proof.
  induction 1 as [|p ps Hp Hps IH]; [done|]; destruct (peerText_line p Hp) as [Hc Hn].
  destruct ps as [|q ps]; cbn [peersText fmap list_fmap].
  - rewrite getlines_last by done; simpl; by destruct (peerText p).
  - rewrite getlines_line by done; f_equal; exact IH.
Qed.

Definition peersOf (id : NodeId) (ps : list Peer) : Peers :=
  fold_left (addPeer id) ((fun p : Peer => (p.1, Z.of_N p.2)) <$> ps) (mkPeers (mkClusterConfig [] []) ∅).

Lemma parsePeers_text id ps : Forall peer_ok ps -> parsePeers id (peersText ps) = Ok (peersOf id ps).
Proof.
  intros Hps; unfold parsePeers, peersOf; rewrite getlines_peers by done.
  generalize (mkPeers (mkClusterConfig [] []) ∅) as pr.
  induction Hps as [|[[pid host] port] ps Hp _ IH]; intros pr; [done|]; cbn [parseTokens fmap list_fmap].
  rewrite parsePeer_text by done; cbn [mbind outcome_bind]; rewrite IH; done.
Qed.

Definition arg (k : string) (v : bytes) : bytes := str "--" ++ str k ++ "="%char :: v.

Lemma parseArg_arg k v args :
  "="%char ∉ str k -> nlen (arg k v) < npos -> parseArg (arg k v) args = <[str k := v]> args.
Proof.
  intros Hk Hlen; unfold parseArg, arg in *; set (a := str "--" ++ str k ++ "="%char :: v) in *.
  assert (2 + nlen (str k) + 1 + nlen v < npos) as Hb.
  { unfold a, nlen in Hlen; rewrite !length_app in Hlen; unfold nlen; simpl in Hlen; lia. }
  assert (str_find "="%char a 0 = 2 + nlen (str k)) as ->.
  { rewrite (str_find_app _ [] (str "--" ++ str k) v); [unfold nlen; rewrite length_app; simpl; lia|unfold a; by rewrite <- app_assoc|done|].
    apply not_elem_of_app; split; [by_decide|done]. }
  assert (U64 = npos + 1) as HU by done.
  rewrite bool_decide_eq_true_2 by done; destruct (N.eqb_spec (2 + nlen (str k)) npos); [lia|]; simpl.
  rewrite add64_small, sub64_small by lia.
  rewrite (substr_mid 2 _ (str "--") (str k) ("="%char :: v)) by (done || lia).
  by rewrite (substr_tail _ _ (str "--" ++ str k ++ str "=") v)
    by (unfold a, nlen in *; rewrite ?length_app, <- ?app_assoc; simpl; done || lia).
Qed.

Lemma peersOf_spec id ps :
  voters (p_cfg (peersOf id ps)) = (fun p => p.1.1) <$> ps /\
  addresses (p_cfg (peersOf id ps)) = (fun p => (p.1.1, p.1.2 ++ str ":" ++ to_string p.2)) <$> ps /\
  p_addrs (peersOf id ps) !! id = None /\
  (NoDup ((fun p => p.1.1) <$> ps) -> forall p, p ∈ ps -> p.1.1 <> id ->
     p_addrs (peersOf id ps) !! p.1.1 = Some (p.1.2, Z.of_N p.2)).
Proof.
  induction ps as [|[[pid host] port] ps IH] using rev_ind; [repeat split; intros _ p []%elem_of_nil|].
  unfold peersOf in *; rewrite fmap_app, fold_left_app; simpl; set (pr := fold_left _ _ _) in *; clearbody pr.
  destruct IH as (Hv & Ha & Hi & Hp); unfold addPeer; simpl; rewrite !fmap_app, Hv, Ha, to_string_int_N; simpl.
  split_and!; [done|done|destruct (N.eqb_spec pid id); simpl; [done|by rewrite lookup_insert_ne]|].
  intros Hnd p Hin Hne; apply NoDup_app in Hnd as (Hnd & Hdis & _).
  apply elem_of_app in Hin as [Hin|Hin%list_elem_of_singleton].
  - assert (pid <> p.1.1) as Hd.
    { intros ->; apply (Hdis p.1.1); [by apply (list_elem_of_fmap_2 (fun p => p.1.1))|by left]. }
    destruct (pid =? id); simpl; [by apply Hp|rewrite lookup_insert_ne by done; by apply Hp].
  - subst p; simpl in *; destruct (N.eqb_spec pid id); [done|]; simpl; by rewrite lookup_insert_eq.
Qed.

(** The command line of the usage text. *)
Definition commandLine (i shard : N) (wal : bytes) (peerPort clientPort : N) (ps : list Peer) : list bytes :=
  [arg "id" (to_string i); arg "shard" (to_string shard); arg "wal" wal; arg "peer-port" (to_string peerPort);
   arg "client-port" (to_string clientPort); arg "peers" (peersText ps)].

Lemma parseArgs_commandLine i shard wal pp cp ps :
  Forall (fun a => nlen a < npos) (commandLine i shard wal pp cp ps) ->
  parseArgs (commandLine i shard wal pp cp ps) =
    <[str "peers" := peersText ps]> (<[str "client-port" := to_string cp]> (<[str "peer-port" := to_string pp]>
      (<[str "wal" := wal]> (<[str "shard" := to_string shard]> (<[str "id" := to_string i]> ∅))))).
Proof.
  unfold commandLine, parseArgs; rewrite !Forall_cons; intros (H1 & H2 & H3 & H4 & H5 & H6 & _).
  cbn [fold_left]; by rewrite !parseArg_arg by (assumption || by_decide).
Qed.

Lemma settings_commandLine i shard pp cp wal ps :
  i < U32 -> shard < U32 -> pp < 2147483648 -> cp < 2147483648 -> Forall peer_ok ps ->
  Forall (fun a => nlen a < npos) (commandLine i shard wal pp cp ps) ->
  settings (commandLine i shard wal pp cp ps) = Ok (mkSettings i shard wal (Z.of_N pp) (Z.of_N cp) (peersOf i ps)).
Proof.
  intros Hi Hs Hpp Hcp Hps Hlen; unfold settings; rewrite parseArgs_commandLine by done; unfold arg_at.
  repeat first [rewrite lookup_insert_eq|rewrite lookup_insert_ne by by_decide]; cbn [mbind outcome_bind].
  rewrite !stoul_to_string by lia; cbn [mbind outcome_bind]; rewrite !u32_small by done; cbn [mbind outcome_bind mret outcome_ret].
  rewrite !stoi_to_string by done; cbn [mbind outcome_bind].
  by rewrite parsePeers_text.
Qed.

(** Starting a process as documented.  For every identity, shard, directory,
    pair of ports and list of peers whose hosts contain neither separator, the
    command line of the usage text is read back: [main] gets exactly these values,
    the configuration lists the peers in order with their addresses, and the
    transport knows the address of every peer but the process itself. *)
Theorem command_line_read (i shard pp cp : N) (wal : bytes) (ps : list Peer)
    (Hi : i < U32) (Hs : shard < U32) (Hpp : pp < 2147483648) (Hcp : cp < 2147483648)
    (Hps : Forall peer_ok ps) (Hlen : Forall (fun a => nlen a < npos) (commandLine i shard wal pp cp ps)) :
  exists pr, settings (commandLine i shard wal pp cp ps) =
      Ok (mkSettings i shard wal (Z.of_N pp) (Z.of_N cp) pr) /\
    voters (p_cfg pr) = (fun p => p.1.1) <$> ps /\
    addresses (p_cfg pr) = (fun p => (p.1.1, p.1.2 ++ str ":" ++ to_string p.2)) <$> ps /\
    p_addrs pr !! i = None /\
    (NoDup (voters (p_cfg pr)) -> forall p, p ∈ ps -> p.1.1 <> i -> p_addrs pr !! p.1.1 = Some (p.1.2, Z.of_N p.2)).
Proof.
  exists (peersOf i ps); destruct (peersOf_spec i ps) as (Hv & Ha & Hn & Hp); split; [|rewrite Hv at 2; done].
  by apply settings_commandLine.
Qed.

(** The two descriptors are new, and neither the ports of the command line nor the
    two the system would choose are in use. *)
Record sys_ok (pp cp : N) (y : Sys) (fd1 fd2 : Fd) : Prop := {
  so_fds : peerFd y = Some fd1 /\ clientFd y = Some fd2 /\ fd1 <> fd2;
  so_new : sysHost y !! fd1 = None /\ sysHost y !! fd2 = None;
  so_free : portTaken pp (sysHost y) = false /\ portTaken cp (sysHost y) = false;
  so_eph : portTaken (peerEphemeral y) (sysHost y) = false /\ portTaken (clientEphemeral y) (sysHost y) = false /\
    clientEphemeral y <> pp
}.

(** The socket [fd] of [h] takes connections on [port]. *)
Definition serving (fd : Fd) (port : N) (h : Host) : Prop :=
  exists l, h !! fd = Some l /\ live l = true /\ ls_port l = Some port.

Lemma portOf_N port : port < 65536 -> portOf (Z.of_N port) = port.
Proof. intros Hp; unfold portOf; rewrite Z.mod_small by lia; apply N2Z.id. Qed.

Lemma startKvServer_serving port n m fd e h p :
  h !! fd = None -> portTaken e h = false -> portOf port = p -> 0 < p -> portTaken p h = false ->
  serving fd p (sockets (startKvServer port n m (Some fd) e h)) /\
  forall x q, x <> fd -> serving x q h -> serving x q (sockets (startKvServer port n m (Some fd) e h)).
Proof.
  intros Hfd He Hpo Hp Hfree; destruct (openPort_port port 1024 fd e h Hfd He) as (l & Hl & Hlive & _ & Hport); rewrite Hpo, Hfree in Hport.
  destruct (N.eqb_spec p 0); [lia|]; simpl in Hport; unfold serving; cbn [sockets startKvServer]; unfold setNonBlocking; split.
  - rewrite lookup_alter_eq, Hl; simpl; eexists; split_and!; [done|exact Hlive|exact Hport].
  - intros x q Hx; by rewrite lookup_alter_ne, openPort_other.
Qed.

(** C35: a process that is started as documented serves its shard.  With the command
    line of the usage text, on an empty directory, and with two different ports from 1
    to 65535 that are free: [main] reaches its endless loop, one socket takes
    connections on each of the two ports, both servers' threads are started, and both
    serve the same running node, a follower of the configuration of the command
    line. *)
Theorem process_serves (i shard pp cp : N) (wal : bytes) (ps : list Peer) (rng : list N) (now : N) (y : Sys) (fd1 fd2 : Fd)
    (Hi : i < U32) (Hs : shard < U32) (Hpp : 0 < pp < 65536) (Hcp : 0 < cp < 65536) (Hne : pp <> cp)
    (Hps : Forall peer_ok ps) (Hlen : Forall (fun a => nlen a < npos) (commandLine i shard wal pp cp ps)) (Hy : sys_ok pp cp y fd1 fd2) :
  exists c, (s ← settings (commandLine i shard wal pp cp ps); boot s ∅ rng now y) = Ok c /\
    serving fd1 pp (sockets (pc_kvServer c)) /\ serving fd2 cp (sockets (pc_kvServer c)) /\
    PeerServerLoop.acceptThread_ (pc_peerServer c) = PeerServerLoop.AtWhile /\
    KvServerThreads.acceptThread_ (pc_kvServer c) = KvServerThreads.AtWhile /\ KvServerThreads.workers_ (pc_kvServer c) = repeat KvServerThreads.WAtWhile 4 /\
    PeerServerLoop.shards_ (pc_peerServer c) = {[shard := pc_node c]} /\ groups (KvServerLoop.shards_ (server (pc_kvServer c))) = {[shard := pc_node c]} /\
    role_ (pc_node c) = Follower /\ RaftNode.running_ (pc_node c) = true /\ id (opts_ (pc_node c)) = i /\
    voters (config_ (pc_node c)) = (fun p => p.1.1) <$> ps.
Proof.
  rewrite settings_commandLine by (done || lia); cbn [mbind outcome_bind]; unfold boot, newRaftNode.
  change (loadFromDisk ∅) with (Ok (mkPersistentLog ∅ 0 0 0 0 [])); cbn [mbind outcome_bind].
  change (loadSnapshotBytes (mkPersistentLog ∅ 0 0 0 0 [])) with (@None bytes); cbn [mbind outcome_bind mret outcome_ret].
  eexists; split; [reflexivity|]; cbn [pc_kvServer pc_peerServer pc_shards pc_node s_peerPort s_clientPort s_shardId s_peers s_id host].
  destruct Hy as [(-> & -> & Hd) [Hn1 Hn2] [Hf1 Hf2] (He1 & He2 & He3)].
  set (h1 := PeerServerLoop.host _); assert (h1 = openPort (Z.of_N pp) 256 (Some fd1) (peerEphemeral y) (sysHost y)) as Eh by done.
  destruct (openPort_port (Z.of_N pp) 256 fd1 _ _ Hn1 He1) as (l & Hl & Hlive & _ & Hp); rewrite portOf_N, Hf1 in Hp by lia.
  assert (forall q, portTaken q h1 = portTaken q (sysHost y) || (q =? pp)) as Htk.
  { intros q; rewrite Eh, openPort_taken, portOf_N, Hf1 by (done || lia); by destruct (N.eqb_spec pp 0); [lia|]. }
  destruct (N.eqb_spec pp 0); [lia|]; simpl in Hp; rewrite <- Eh in Hl.
  match goal with |- context [startKvServer _ ?n ?m _ _ _] => destruct (startKvServer_serving (Z.of_N cp) n m fd2 (clientEphemeral y) h1 cp) as [Hk Ho] end.
  { by rewrite Eh, openPort_other. }
  { rewrite Htk, He2; by apply N.eqb_neq. }
  { apply portOf_N; lia. }
  { lia. }
  { rewrite Htk, Hf2; apply N.eqb_neq; congruence. }
  split_and!; [apply Ho; [done|by exists l]|exact Hk|try done..].
  apply peersOf_spec.
Qed.

(** The usage text's own example. *)
Definition usage_peers : list Peer :=
  [(1, str "127.0.0.1", 6100); (2, str "127.0.0.1", 6101); (3, str "127.0.0.1", 6102)].

Definition usage : list bytes := commandLine 1 0 (str "/tmp/keyper/1") 6100 7100 usage_peers.

Lemma usage_peers_ok : Forall peer_ok usage_peers.
Proof. repeat constructor; by_decide. Qed.

(** Descriptors 5 and 6, nothing else listens. *)
Definition usage_sys : Sys := mkSys (Some 5) 40000 (Some 6) 40001 ∅.

Lemma process_serves_witness :
  exists c, (s ← settings usage; boot s ∅ [] 0 usage_sys) = Ok c /\ serving 5 6100 (sockets (pc_kvServer c)) /\
    serving 6 7100 (sockets (pc_kvServer c)) /\ voters (config_ (pc_node c)) = [1; 2; 3].
Proof.
  destruct (process_serves 1 0 6100 7100 (str "/tmp/keyper/1") usage_peers [] 0 usage_sys 5 6) as (c & Hb & H1 & H2 & H3);
    [reflexivity|reflexivity|lia|lia|lia|exact usage_peers_ok|repeat constructor|by repeat split|].
  exists c; split; [exact Hb|split; [exact H1|split; [exact H2|apply H3]]].
Defined.

(** With the same number for both ports the second server listens on a port of the
    system's choice, and nothing says so. *)
Lemma same_port_unnoticed :
  match boot (mkSettings 1 0 [] 6100 6100 (mkPeers (mkClusterConfig [1] []) ∅)) ∅ [] 0 usage_sys with
  | Ok c => ls_port <$> sockets (pc_kvServer c) !! 5 = Some (Some 6100) /\ ls_port <$> sockets (pc_kvServer c) !! 6 = Some (Some 40001)
  | Throw _ => False
  end.
Proof. vm_compute; done. Qed.


Lemma command_line_read_witness :
  exists pr, settings usage = Ok (mkSettings 1 0 (str "/tmp/keyper/1") 6100 7100 pr) /\
    voters (p_cfg pr) = [1; 2; 3] /\
    addresses (p_cfg pr) =
      [(1, str "127.0.0.1:6100"); (2, str "127.0.0.1:6101"); (3, str "127.0.0.1:6102")] /\
    p_addrs pr !! 1 = None /\
    (NoDup (voters (p_cfg pr)) -> forall p, p ∈ usage_peers -> p.1.1 <> 1 -> p_addrs pr !! p.1.1 = Some (p.1.2, Z.of_N p.2)).
Proof.
  apply (command_line_read 1 0 6100 7100 (str "/tmp/keyper/1") usage_peers); try reflexivity.
  - exact usage_peers_ok.
  - repeat constructor.
Defined.

(** The example's process on an empty directory: a running follower of three that
    stands for election after its timeout, the only shard of its table. *)
Example usage_boots :
  match settings usage ≫= fun s => boot s ∅ [] 0 usage_sys with
  | Ok p => role_ (pc_node p) = Follower /\ RaftNode.running_ (pc_node p) = true /\ voters (config_ (pc_node p)) = [1; 2; 3] /\
      peerAddrs_ (pc_transport p) !! 3 = Some (str "127.0.0.1", 6102%Z) /\
      is_Some (PeerServerLoop.shards_ (pc_peerServer p) !! 0) /\ shardFor (str "k") (ring_of (pc_shards p)) = 0 /\
      match runLoopRound 1000 (pc_node p) with
      | Ok (n', ss) => role_ n' = Candidate /\ length ss = 2%nat
      | Throw _ => False
      end
  | Throw _ => False
  end.
Proof. vm_compute; repeat split; eexists; reflexivity. Qed.

(** A peer without separators is read as identity, host and port at once, and a
    peer that is no number ends the process. *)
Example peer_without_separators : parsePeer (str "5") = Ok (5, str "5", 5%Z).
Proof. reflexivity. Qed.

Example peer_without_number : parsePeer (str "a:h:1") = Throw "stoul: invalid_argument".
Proof. reflexivity. Qed.
